(* ===== verification/_CoqProject ===== *)
-Q . S2P
Prelude.v
SliceSort.v
Binary.v
ByteOrder.v
Sorted.v
Io.v
PageWriter.v
Proto.v
Crc.v
Walpb.v
Encoder.v
Decoder.v
LogSpec.v
SyncGroup.v
Wal.v
WalNames.v
WalSpec.v
WalOps.v
WalRecovery.v
WalLimits.v
GroupCommit.v
LogInterface.v
WalLog.v
Schema.v
Registry.v
RegistrySpec.v
RegistryRuns.v
Format.v
Block.v
BlockSpec.v
Bloom.v
Cache.v
CacheSpec.v
TableWriter.v
CacheInterface.v
TableLayout.v
TableWriterSpec.v
TableReader.v
TableReaderSpec.v
TableSpec.v
TableFile.v
Arena.v
Skiplist.v
SkiplistMem.v
SkiplistSpec.v
SkiplistSteps.v
SkiplistAtomic.v
SkiplistMeasure.v
SkiplistReads.v
SkiplistWrites.v
SkiplistConc.v
SkiplistProgress.v
SkiplistSolo.v
InternalKey.v
Memtable.v
MemtableSpec.v
Version.v
VersionSpec.v
Manifest.v
ManifestSpec.v
Heap.v
Merged.v
MergeIterator.v
MergeSpec.v
Sources.v
DBIterator.v
DBIteratorSpec.v
DB.v
Flush.v
FlushSpec.v
DBSpec.v
DBThreads.v
DBStamps.v
DBConc.v
Compaction.v
CompactionSpec.v
DBTables.v
DBInvariant.v
DBRuns.v
DBLimits.v
