(* ===== verification/Prelude.v ===== *)
(** Verification development for indexedWatch: an LSM storage engine
    ([src/pkg/lsm]), a write-ahead log ([src/pkg/wal]) and a schema registry
    that is the replay of such a log ([src/pkg/schema]).

    * The program and the files that model it

    Foundations, shared by all parts:
    - Prelude.v: outcomes of Go calls, bytes, machine integers, slices, the
      hint database [iw]; Binary.v: encoding/binary; ByteOrder.v:
      [compareKeys] and the order of byte strings; Sorted.v: sorted association
      lists, the abstract state of every ordered store; SliceSort.v: what
      [sort.Slice] promises, as a class; Io.v: [io.Writer],
      [os.File], [io.ReadFull]; Proto.v: codecs and the proto3 wire format;
      Crc.v: [pkg/crc].

    The write-ahead log ([pkg/wal]):
    - PageWriter.v (pagewriter.go), Encoder.v, Decoder.v (encoder.go,
      decoder.go), Walpb.v (walpb), SyncGroup.v (sync_group.go), Wal.v
      (wal.go, options.go, errors.go).
    - LogSpec.v relates bytes and entries; WalNames.v, WalSpec.v, WalOps.v and
      WalRecovery.v carry the log's invariant through its operations, recovery
      and crashes; WalLimits.v holds termination, what a torn record does to
      later appends, and the losing runs.
    - SyncGroup.v has the group with any [syncFunc]; GroupCommit.v runs it over
      the log and shows what a nil from [Sync] is worth after a crash.

    The schema registry ([pkg/schema]):
    - LogInterface.v is what a client of the log relies on (a class), WalLog.v
      shows that the log keeps it; Schema.v (schema.go, walentry.go), Registry.v
      (registry.go), RegistrySpec.v (proved against the interface),
      RegistryRuns.v (instantiated with the log).

    Sorted tables ([pkg/lsm/sstable]):
    - Format.v, Block.v, Bloom.v, Cache.v, TableWriter.v, TableReader.v follow
      the files of the package; BlockSpec.v, CacheSpec.v, TableLayout.v,
      TableWriterSpec.v and TableReaderSpec.v their correctness; TableSpec.v
      puts writer and reader together; TableFile.v says the same of files.
      CacheInterface.v is the class through which readers see a cache.

    The engine ([pkg/lsm]):
    - Arena.v (arena); Skiplist.v, SkiplistMem.v, SkiplistSpec.v (skiplist);
      InternalKey.v, Memtable.v, MemtableSpec.v (memtable).
    - The skiplist as a lock-free structure: SkiplistSteps.v cuts its methods at
      their atomic operations and lets any number of threads take the steps;
      SkiplistAtomic.v has the atomic object it implements and the invariant,
      SkiplistMeasure.v a measure of what the threads can still do,
      SkiplistReads.v and SkiplistWrites.v the steps, SkiplistConc.v
      linearizability, SkiplistProgress.v lock freedom, and SkiplistSolo.v shows
      that Skiplist.v is what one thread does alone.
    - Version.v, VersionSpec.v, Manifest.v, ManifestSpec.v (version.go).
    - Heap.v (container/heap), Merged.v (the reference merge), MergeIterator.v
      and MergeSpec.v (merge_iterator.go, proved against an interface of
      sources), Sources.v (memtable and table iterators as its instances).
    - DBIterator.v, DBIteratorSpec.v, DB.v, DBSpec.v (lsm.go); Flush.v,
      FlushSpec.v (flush.go, the flush loop); Compaction.v, CompactionSpec.v
      (compaction.go, the compaction loop).
    - The database as goroutines share it: DBThreads.v cuts [Set], [Delete] and
      [Get] where other calls can come in between; DBStamps.v orders calls by
      the versions they wrote or saw; DBConc.v shows linearizability.
    - DBTables.v: the tables a database can read, and [Get] over memtables
      and tables; DBInvariant.v: the database with both loops as a transition
      system, and its invariant.
    - DBRuns.v: a small database, built and run, at which the theorems are
      applied; DBLimits.v: runs in which the database loses or hides data.

    * State and operations

    A struct of the code is a record with the same fields, a method a
    definition of the same name that returns the new state.  An interface of
    the code ([io.Writer], [Iterator]) is a class; what its users rely on is a
    second class of laws ([WriterLaws], [IteratorLaws], [CacheLaws],
    [LogLaws]), which the implementations discharge.  Pointers are kept where
    sharing matters: arena offsets in the skiplist, a heap of nodes in the
    cache and of schemas in the registry, places in a list for memtables, and
    slices with an owner where the database iterator keeps a part of a key
    buffer.  An error is a value, a run-time panic is [None] or [Panic].
    Integers keep their width: [u32] and [u64] wrap around.

    The skiplist lives in the arena's bytes, the memtable in the skiplist; a
    write of the database goes to the active memtable, which is sealed when the
    arena is full; a flush writes a sealed memtable through the table writer to
    a file and logs an edit in the manifest; a compaction reads tables through
    the merge iterator and writes tables; reads go through memtables and then
    through the levels of the current version, opening tables on demand through
    the reader, with the shared block cache.

    * What the theorems show

    - Refinement of abstract state: the skiplist and the memtable are sorted
      maps, the cache is a list in order of use, the log is a list of data, the
      registry is the replay of its log, the merge iterator yields the
      reference merge, the database iterator the newest live versions, and the
      database in memory is a map.
    - Nothing is lost: after a crash exactly the log entries with complete
      frames are there, the
      manifest gives back what was logged, a flush and a compaction keep
      exactly the data they read, also when devices fail, and succeed when they
      do not; and with writes, reads and both loops interleaved in any way the
      engine holds exactly the versions written (DBInvariant.v).
    - What a read answers when data is in several places: the first place that
      can have the key decides (DBTables.v), which is not always the newest
      version (DBLimits.v).
    - Round trips of every format; detection of damage by the checksums.
    - The registry's schemas as typed objects: whatever the log reports, a type
      stays at its object and the object keeps its type and primary key.
    - Group commit under every interleaving: progress, and, as long as no
      operation of the log has failed, durability of what was acknowledged;
      after a failed flush the code acknowledges data it has dropped, which is
      shown by a run.
    - The skiplist under every interleaving of its atomic operations: each call
      takes effect at one moment, none panics, and no schedule without new
      calls goes on for ever.
    - The database under every interleaving of its calls, until something is
      flushed: each takes effect at one moment on a map, although writers
      take their numbers and insert in different orders.
    - The places where the code does less than it means to, as theorems over
      all states in which it happens or as runs that are computed by the
      kernel.

    * Bounds and fuel

    A loop of the code is structural where it can be; otherwise it takes fuel
    that is computed from the state (bytes left, nodes of the arena, entries of
    the sources) and a theorem shows that it is enough.  The shared skiplist
    needs none: its loops are steps, and that they end is a theorem.  [Flush.flush] and
    [Compaction.runCompaction] take the number of entries as fuel; their
    theorems ask for no more.  The size hypotheses (keys and values of a table
    below 2^31 bytes in total, at most 2^40 bits of filter, counters below
    2^63) exclude wrap-arounds that the code does not guard against.

    * Not modelled

    - The Go scheduler and the memory model: a critical section, or a method
      that one goroutine runs, is one step, and atomic operations are
      sequentially consistent, as [sync/atomic] promises.  Group commit and
      the skiplist are modelled with all interleavings, and so are the calls
      of the database without the loops, and the loops beside writes and reads;
      a write is one step there, and how writers that overtake each other
      show once data is flushed or iterated over is in DBLimits.v.
    - Generated protobuf code (a codec with laws stands for it), the operating
      system beyond files that fill up, fail to sync or are cut by a crash,
      [fmt] and the texts of errors.
    - The reference counts of versions and memtables are kept as far as the
      code keeps them; nothing in the code reads those of versions.
    - [cmd/indexedwatch] prints a line; [docs] holds an explanatory program.
*)
From Stdlib Require Export ZArith Lia.
From Stdlib Require Export Strings.Byte.
From stdpp Require Export base tactics option list numbers gmap.

#[global] Open Scope Z_scope.

Create HintDb iw discriminated.

(** ** Outcomes of Go functions *)

(** A Go call returns a value, returns an error, or panics (a slice or index
    expression out of range). *)
Inductive result (E A : Type) : Type :=
| Ok (a : A)
| Err (e : E)
| Panic.
Arguments Ok {E A} a.
Arguments Err {E A} e.
Arguments Panic {E A}.

#[export] Instance result_ret E : MRet (result E) := fun A a => Ok a.

#[export] Instance result_bind E : MBind (result E) :=
  fun A B f m =>
    match m with Ok a => f a | Err e => Err e | Panic => Panic end.

#[export] Instance result_fmap E : FMap (result E) :=
  fun A B f m =>
    match m with Ok a => Ok (f a) | Err e => Err e | Panic => Panic end.

(** An option-valued access whose [None] is a run-time panic. *)
Definition or_panic {E A} (o : option A) : result E A :=
  match o with Some a => Ok a | None => Panic end.

Lemma result_bind_ok {E A B} (m : result E A) (f : A -> result E B) b :
  m ≫= f = Ok b <-> exists a, m = Ok a /\ f a = Ok b.
Proof. destruct m; cbn; naive_solver. Qed.

(** ** Bytes *)

Abbreviation bytes := (list byte).

Definition b2z (b : byte) : Z := Z.of_N (Byte.to_N b).

(** [byte(z)]: truncation of an integer to its low eight bits. *)
Definition z2b (z : Z) : byte :=
  match Byte.of_N (Z.to_N (z mod 256)) with Some b => b | None => x00 end.

Lemma b2z_bounds b : 0 <= b2z b < 256.
Proof.
  unfold b2z. pose proof (Byte.to_N_bounded b). lia.
Qed.

Lemma b2z_z2b z : b2z (z2b z) = z mod 256.
Proof.
  unfold b2z, z2b. pose proof (Z.mod_pos_bound z 256 ltac:(lia)) as Hb.
  destruct (Byte.of_N (Z.to_N (z mod 256))) as [b|] eqn:E.
  - apply Byte.to_of_N in E. rewrite E. lia.
  - apply Byte.of_N_None_iff in E. lia.
Qed.

Lemma b2z_inj a b : b2z a = b2z b -> a = b.
Proof.
  unfold b2z. intros H. apply N2Z.inj in H.
  pose proof (Byte.of_to_N a). pose proof (Byte.of_to_N b). congruence.
Qed.

Lemma z2b_b2z b : z2b (b2z b) = b.
Proof.
  apply b2z_inj. rewrite b2z_z2b. apply Z.mod_small, b2z_bounds.
Qed.

Lemma b2z_z2b_small z : 0 <= z < 256 -> b2z (z2b z) = z.
Proof. intros. rewrite b2z_z2b. by apply Z.mod_small. Qed.

#[export] Instance byte_eq_dec : EqDecision byte := Byte.byte_eq_dec.

#[export] Instance byte_inhabited : Inhabited byte := populate x00.

#[export] Instance byte_countable : Countable byte :=
  inj_countable Byte.to_N Byte.of_N Byte.of_to_N.

(** [len(b)] as a Go [int]. *)
Definition blen {A} (b : list A) : Z := Z.of_nat (length b).

Lemma blen_nonneg {A} (b : list A) : 0 <= blen b.
Proof. unfold blen. lia. Qed.

Lemma blen_nil {A} : blen (@nil A) = 0.
Proof. done. Qed.

Lemma blen_cons {A} (x : A) b : blen (x :: b) = 1 + blen b.
Proof. unfold blen. cbn [length]. lia. Qed.

Lemma blen_app {A} (a b : list A) : blen (a ++ b) = blen a + blen b.
Proof. unfold blen. rewrite length_app. lia. Qed.

Lemma blen_replicate {A} n (x : A) : blen (replicate n x) = Z.of_nat n.
Proof. unfold blen. by rewrite length_replicate. Qed.

Lemma blen_take {A} n (b : list A) : 0 <= n <= blen b -> blen (take (Z.to_nat n) b) = n.
Proof. unfold blen. intros. rewrite length_take. lia. Qed.

Lemma blen_drop {A} n (b : list A) : 0 <= n <= blen b -> blen (drop (Z.to_nat n) b) = blen b - n.
Proof. unfold blen. intros. rewrite length_drop. lia. Qed.

Lemma take_blen {A} (b : list A) : take (Z.to_nat (blen b)) b = b.
Proof. unfold blen. by rewrite Nat2Z.id, firstn_all. Qed.

Lemma length_blen {A} (b : list A) : Z.to_nat (blen b) = length b.
Proof. unfold blen. lia. Qed.

Lemma take_blen_app {A} (a b : list A) : take (Z.to_nat (blen a)) (a ++ b) = a.
Proof. by rewrite length_blen, take_app_length. Qed.

Lemma drop_blen_app {A} (a b : list A) : drop (Z.to_nat (blen a)) (a ++ b) = b.
Proof. by rewrite length_blen, drop_app_length. Qed.

(** [b[lo:hi]]; [None] is the run-time panic of an out-of-range slice. *)
Definition slice {A} (b : list A) (lo hi : Z) : option (list A) :=
  if (0 <=? lo) && (lo <=? hi) && (hi <=? blen b)
  then Some (take (Z.to_nat (hi - lo)) (drop (Z.to_nat lo) b)) else None.

(** [b[lo:]]. *)
Definition slice_from {A} (b : list A) (lo : Z) : option (list A) := slice b lo (blen b).

(** [b[i]]. *)
Definition index {A} (b : list A) (i : Z) : option A :=
  if 0 <=? i then b !! Z.to_nat i else None.

Lemma slice_app_mid {A} (a b c : list A) lo hi :
  lo = blen a -> hi = blen a + blen b -> slice (a ++ b ++ c) lo hi = Some b.
Proof.
  intros -> ->. unfold slice. rewrite !blen_app.
  pose proof (blen_nonneg a). pose proof (blen_nonneg b). pose proof (blen_nonneg c).
  rewrite (proj2 (Z.leb_le _ _)), (proj2 (Z.leb_le _ _)), (proj2 (Z.leb_le _ _)) by lia.
  cbn. f_equal. unfold blen.
  replace (Z.to_nat (Z.of_nat (length a) + Z.of_nat (length b) - Z.of_nat (length a)))
    with (length b) by lia.
  rewrite Nat2Z.id, drop_app_length, take_app_length. done.
Qed.

Lemma slice_from_app {A} (a b : list A) lo :
  lo = blen a -> slice_from (a ++ b) lo = Some b.
Proof.
  intros ->. unfold slice_from. rewrite <- (app_nil_r b) at 1.
  apply slice_app_mid; [done|]. by rewrite blen_app.
Qed.

Lemma slice_length {A} (b c : list A) lo hi : slice b lo hi = Some c -> blen c = hi - lo.
Proof.
  unfold slice. destruct (_ && _ && _) eqn:E; [|done]. intros [= <-].
  apply andb_true_iff in E as [E E3]. apply andb_true_iff in E as [E1 E2].
  apply Z.leb_le in E1, E2, E3. unfold blen in *.
  rewrite length_take, length_drop. lia.
Qed.

Lemma slice_prefix {A} (b : list A) n :
  0 <= n <= blen b -> slice b 0 n = Some (take (Z.to_nat n) b).
Proof.
  intros Hn. unfold slice. rewrite Z.sub_0_r.
  by rewrite (proj2 (Z.leb_le 0 n)), (proj2 (Z.leb_le n _)) by lia.
Qed.

Lemma slice_from_drop {A} (b : list A) n :
  0 <= n <= blen b -> slice_from b n = Some (drop (Z.to_nat n) b).
Proof.
  intros Hn. unfold slice_from, slice.
  rewrite (proj2 (Z.leb_le 0 n)), (proj2 (Z.leb_le n _)), (proj2 (Z.leb_le (blen b) _)) by lia.
  cbn [andb]. f_equal. apply take_ge. unfold blen in *. rewrite length_drop. lia.
Qed.

Lemma index_app_mid {A} (a c : list A) x i :
  i = blen a -> index (a ++ x :: c) i = Some x.
Proof.
  intros ->. unfold index, blen.
  rewrite (proj2 (Z.leb_le _ _)) by lia.
  rewrite Nat2Z.id. by rewrite list_lookup_middle.
Qed.

(** ** Fixed-width unsigned integers *)

Definition u32 (z : Z) : Z := z mod 2 ^ 32.
Definition u64 (z : Z) : Z := z mod 2 ^ 64.

Lemma u32_bounds z : 0 <= u32 z < 2 ^ 32.
Proof. apply Z.mod_pos_bound. lia. Qed.

Lemma u64_bounds z : 0 <= u64 z < 2 ^ 64.
Proof. apply Z.mod_pos_bound. lia. Qed.

Lemma u32_small z : 0 <= z < 2 ^ 32 -> u32 z = z.
Proof. apply Z.mod_small. Qed.

Lemma u64_small z : 0 <= z < 2 ^ 64 -> u64 z = z.
Proof. apply Z.mod_small. Qed.

(** A [uint64] read as an [int64]. *)
Definition i64 (z : Z) : Z := if u64 z <? 2 ^ 63 then u64 z else u64 z - 2 ^ 64.
Definition i32 (z : Z) : Z := if u32 z <? 2 ^ 31 then u32 z else u32 z - 2 ^ 32.

(** A disjoint bitwise [or] is a sum: the idiom [x | y << s] with [x < 2^s]. *)
Lemma lor_shiftl_add x y s :
  0 <= s -> 0 <= x < 2 ^ s -> 0 <= y -> Z.lor x (Z.shiftl y s) = x + y * 2 ^ s.
Proof.
  intros Hs Hx Hy. rewrite Z.shiftl_mul_pow2 by done.
  rewrite <- Z.lxor_lor, <- Z.add_nocarry_lxor; [done| |];
  (apply Z.bits_inj'; intros n Hn; rewrite Z.land_spec, Z.bits_0;
   destruct (decide (n < s)) as [H|H];
   [ rewrite (Z.mul_pow2_bits_low y s n) by lia; apply andb_false_r
   | rewrite <- (Z.mod_small x (2 ^ s)) by done;
     rewrite Z.mod_pow2_bits_high by lia; done ]).
Qed.

Lemma land_ones_low x n : 0 <= n -> Z.land x (2 ^ n - 1) = x mod 2 ^ n.
Proof. intros. rewrite <- Z.land_ones by done. by rewrite Z.ones_equiv, Z.sub_1_r. Qed.

(** Bitwise bounds: a number is below [2^n] when no bit from [n] up is set. *)
Lemma bits_bounded x n :
  0 <= n -> 0 <= x -> (forall i, n <= i -> Z.testbit x i = false) -> x < 2 ^ n.
Proof.
  intros Hn Hx Hb. destruct (decide (x = 0)) as [->|Hne]; [apply Z.pow_pos_nonneg; lia|].
  apply Z.log2_lt_pow2; [lia|]. destruct (Z.le_gt_cases n (Z.log2 x)) as [H|]; [|done].
  specialize (Hb _ H). rewrite Z.bit_log2 in Hb by lia. done.
Qed.

Lemma testbit_high x n i : 0 <= x < 2 ^ n -> 0 <= n <= i -> Z.testbit x i = false.
Proof.
  intros Hx Hi. rewrite <- (Z.mod_small x (2 ^ n)) by done.
  apply Z.mod_pow2_bits_high. lia.
Qed.

Lemma lxor_bounds a b n :
  0 <= n -> 0 <= a < 2 ^ n -> 0 <= b < 2 ^ n -> 0 <= Z.lxor a b < 2 ^ n.
Proof.
  intros Hn Ha Hb. assert (0 <= Z.lxor a b) by (apply Z.lxor_nonneg; lia).
  split; [done|]. apply bits_bounded; [done..|]. intros i Hi.
  by rewrite Z.lxor_spec, !(testbit_high _ n) by lia.
Qed.

Lemma lor_bounds a b n :
  0 <= n -> 0 <= a < 2 ^ n -> 0 <= b < 2 ^ n -> 0 <= Z.lor a b < 2 ^ n.
Proof.
  intros Hn Ha Hb. assert (0 <= Z.lor a b) by (apply Z.lor_nonneg; lia).
  split; [done|]. apply bits_bounded; [done..|]. intros i Hi.
  by rewrite Z.lor_spec, !(testbit_high _ n) by lia.
Qed.

Lemma lxor_cancel_l a b c : Z.lxor a b = Z.lxor a c -> b = c.
Proof.
  intros H. apply (f_equal (Z.lxor a)) in H.
  by rewrite <- !Z.lxor_assoc, Z.lxor_nilpotent, !Z.lxor_0_l in H.
Qed.

Lemma lxor_cancel_r a b c : Z.lxor a c = Z.lxor b c -> a = b.
Proof. rewrite !(Z.lxor_comm _ c). apply lxor_cancel_l. Qed.

Lemma elem_of_concat {A} (x : A) (ls : list (list A)) : x ∈ concat ls <-> exists l, x ∈ l /\ l ∈ ls.
Proof.
  induction ls as [|l ls IH]; cbn [concat].
  - split; [intros H; by apply not_elem_of_nil in H|]. intros (l & _ & H). by apply not_elem_of_nil in H.
  - rewrite elem_of_app, IH. setoid_rewrite elem_of_cons. naive_solver.
Qed.

Lemma filter_ext_in {A} (P Q : A -> Prop) `{!forall x, Decision (P x), !forall x, Decision (Q x)} (l : list A) :
  (forall x, x ∈ l -> P x <-> Q x) -> base.filter P l = base.filter Q l.
Proof.
  induction l as [|x l IH]; intros Hl; [done|]. rewrite !filter_cons.
  pose proof (Hl x ltac:(by left)) as Hx. rewrite IH by (intros y Hy; apply Hl; by right).
  repeat case_decide; tauto.
Qed.

Lemma filter_all {A} (P : A -> Prop) `{!forall x, Decision (P x)} (l : list A) :
  (forall x, x ∈ l -> P x) -> base.filter P l = l.
Proof.
  induction l as [|x l IH]; intros Hl; [done|]. rewrite filter_cons_True by (apply Hl; by left).
  rewrite IH; [done|]. intros y Hy. apply Hl. by right.
Qed.

Lemma filter_none {A} (P : A -> Prop) `{!forall x, Decision (P x)} (l : list A) :
  (forall x, x ∈ l -> ~ P x) -> base.filter P l = [].
Proof.
  induction l as [|x l IH]; intros Hl; [done|]. rewrite filter_cons_False by (apply Hl; by left).
  apply IH. intros y Hy. apply Hl. by right.
Qed.

Lemma Forall2_impl_in {A B} (P Q : A -> B -> Prop) l k :
  Forall2 P l k -> (forall x y, x ∈ l -> P x y -> Q x y) -> Forall2 Q l k.
Proof.
  intros H. induction H as [|x y l k Hxy _ IH]; intros HQ; constructor.
  - apply HQ; [by left|done].
  - apply IH. intros x' y' Hx. apply HQ. by right.
Qed.

#[export] Hint Resolve b2z_bounds blen_nonneg u32_bounds u64_bounds : iw.
#[export] Hint Rewrite @blen_nil @blen_cons @blen_app b2z_z2b z2b_b2z : iw.

(** Normalises lengths of byte strings and closes the linear goal. *)
Ltac blia :=
  autorewrite with iw in *;
  repeat match goal with
  | |- context [blen ?b] =>
      lazymatch goal with
      | _ : 0 <= blen b |- _ => fail
      | _ => pose proof (blen_nonneg b)
      end
  | H : context [blen ?b] |- _ =>
      lazymatch goal with
      | _ : 0 <= blen b |- _ => fail
      | _ => pose proof (blen_nonneg b)
      end
  end; lia.

(** Splits boolean tests of the code into the propositions they decide. *)
Ltac bool_hyps :=
  repeat match goal with
  | H : _ && _ = true |- _ => apply andb_true_iff in H as [? ?]
  | H : _ || _ = false |- _ => apply orb_false_iff in H as [? ?]
  | H : negb _ = true |- _ => apply negb_true_iff in H
  | H : negb _ = false |- _ => apply negb_false_iff in H
  | H : (_ <=? _) = true |- _ => apply Z.leb_le in H
  | H : (_ <=? _) = false |- _ => apply Z.leb_gt in H
  | H : (_ <? _) = true |- _ => apply Z.ltb_lt in H
  | H : (_ <? _) = false |- _ => apply Z.ltb_ge in H
  | H : (_ =? _) = true |- _ => apply Z.eqb_eq in H
  | H : (_ =? _) = false |- _ => apply Z.eqb_neq in H
  end.

(** ** Signed readings of unsigned integers *)

Lemma u64_i64 z : 0 <= z < 2 ^ 64 -> u64 (i64 z) = z.
Proof.
  intros Hz. unfold i64. rewrite (u64_small z) by done. destruct (_ <? _); [by apply u64_small|].
  unfold u64. rewrite <- (Z.mod_add _ 1) by lia. rewrite Z.mod_small; lia.
Qed.

Lemma i64_neg z : 0 <= z < 2 ^ 64 -> i64 z < 0 <-> 2 ^ 63 <= z.
Proof.
  intros Hz. unfold i64. rewrite (u64_small z) by done. destruct (_ <? _) eqn:E; bool_hyps; lia.
Qed.

Lemma i64_small z : 0 <= z < 2 ^ 63 -> i64 z = z.
Proof. intros. unfold i64. by rewrite u64_small, (proj2 (Z.ltb_lt _ _)) by lia. Qed.
