(* ===== verification/SliceSort.v ===== *)
(** [sort.Slice] of the standard library, as an interface: what its
    documentation promises, which is not a stable order; and a function that
    keeps the promise, for the runs. *)
From stdpp Require Import sorting.
From S2P Require Import Prelude.

#[local] Open Scope Z_scope.

(** ** The interface *)

(** [less] is a strict weak order, as [sort.Slice] asks of it. *)
Definition weak_order {A} (less : A -> A -> bool) : Prop :=
  (forall a b, less a b = true -> less b a = false) /\
  (forall a b c, less a b = false -> less b c = false -> less a c = false).

(** [sort.Slice(x, less)]: [x] is permuted so that no element is less than an
    earlier one; the order of equal elements is not specified. *)
Class SliceSorter := {
  sort_slice {A} : (A -> A -> bool) -> list A -> list A;
  sort_slice_perm {A} (less : A -> A -> bool) l : sort_slice less l ≡ₚ l;
  sort_slice_sorted {A} (less : A -> A -> bool) l :
    weak_order less -> StronglySorted (fun a b => less b a = false) (sort_slice less l) }.

(** ** A sorting function *)

(** Insertion sort, which is what [sort.Slice] does on at most twelve
    elements. *)
Fixpoint insert_by {A} (less : A -> A -> bool) (x : A) (l : list A) : list A :=
  match l with
  | [] => [x]
  | y :: l => if less x y then x :: y :: l else y :: insert_by less x l
  end.
Definition insertion_sort {A} (less : A -> A -> bool) (l : list A) : list A :=
  foldl (fun acc x => insert_by less x acc) [] l.

Lemma insert_by_perm {A} (less : A -> A -> bool) x l : insert_by less x l ≡ₚ x :: l.
Proof.
  induction l as [|y l IH]; [done|]. cbn. destruct (less x y); [done|]. rewrite IH. constructor.
Qed.

Lemma insert_by_sorted {A} (less : A -> A -> bool) x l :
  weak_order less -> StronglySorted (fun a b => less b a = false) l ->
  StronglySorted (fun a b => less b a = false) (insert_by less x l).
Proof.
  intros [Has Htr] Hl. induction Hl as [|y l Hl IH Hy]; cbn; [repeat constructor|].
  rewrite Forall_forall in Hy. destruct (less x y) eqn:E.
  - constructor; [constructor; [done|]|]; apply Forall_forall; [done|].
    intros z [->|Hz]%elem_of_cons; [by apply Has|]. apply (Htr z y x); auto.
  - constructor; [done|]. rewrite insert_by_perm. constructor; [done|]. by apply Forall_forall.
Qed.

#[export, program] Instance insertion_sorter : SliceSorter := {| sort_slice A := insertion_sort |}.
Next Obligation.
  intros A less l. unfold insertion_sort.
  assert (H : forall acc, foldl (fun acc x => insert_by less x acc) acc l ≡ₚ acc ++ l); [|apply (H [])].
  induction l as [|x l IH]; intros acc; cbn; [by rewrite app_nil_r|].
  rewrite IH, insert_by_perm. apply (Permutation_middle acc l x).
Qed.
Next Obligation.
  intros A less l Hw. unfold insertion_sort.
  assert (H : forall acc, StronglySorted (fun a b => less b a = false) acc ->
    StronglySorted (fun a b => less b a = false) (foldl (fun acc x => insert_by less x acc) acc l));
    [|apply H; constructor].
  induction l as [|x l IH]; intros acc Hacc; cbn; [done|]. apply IH. by apply insert_by_sorted.
Qed.
