(* ===== verification/Binary.v ===== *)
(** Go's [encoding/binary], as far as the program uses it: little- and
    big-endian fixed-width integers and unsigned varints.  These are standard
    library functions; every on-disk format of the program is built from
    them. *)
From S2P Require Import Prelude.

(** ** Definitions *)

(** The [n] low bytes of [z], least significant first. *)
Fixpoint le_bytes (n : nat) (z : Z) : bytes :=
  match n with
  | O => []
  | S n => z2b z :: le_bytes n (z / 256)
  end.

Fixpoint le_value (b : bytes) : Z :=
  match b with
  | [] => 0
  | x :: b => b2z x + 256 * le_value b
  end.

(** [binary.LittleEndian.PutUint32], [PutUint64] and [binary.BigEndian.PutUint64]
    into a fresh array. *)
Definition put_le32 (z : Z) : bytes := le_bytes 4 z.
Definition put_le64 (z : Z) : bytes := le_bytes 8 z.
Definition put_be64 (z : Z) : bytes := rev (le_bytes 8 z).

(** [binary.LittleEndian.Uint32(b)]: reads the first four bytes, panics when
    there are fewer. *)
Definition get_le32 (b : bytes) : option Z :=
  if 4 <=? blen b then Some (le_value (take 4 b)) else None.
Definition get_le64 (b : bytes) : option Z :=
  if 8 <=? blen b then Some (le_value (take 8 b)) else None.
Definition get_be64 (b : bytes) : option Z :=
  if 8 <=? blen b then Some (le_value (rev (take 8 b))) else None.

(** [binary.PutUvarint]: seven bits at a time, the high bit marks
    continuation.  Ten bytes are enough for 64 bits. *)
Fixpoint put_uvarint_loop (fuel : nat) (x : Z) : bytes :=
  match fuel with
  | O => [z2b x]
  | S fuel =>
      if 128 <=? x
      then z2b (Z.lor (x mod 256) 128) :: put_uvarint_loop fuel (Z.shiftr x 7)
      else [z2b x]
  end.
Definition put_uvarint (x : Z) : bytes := put_uvarint_loop 9 x.

(** [binary.Uvarint]: the value and the number of bytes read; [n = 0] when the
    buffer is too small and [n < 0] on overflow. *)
Fixpoint uvarint_loop (b : bytes) (i x s : Z) : Z * Z :=
  match b with
  | [] => (0, 0)
  | c :: b =>
      if i =? 10 then (0, - (i + 1))
      else if b2z c <? 128 then
        if (i =? 9) && (1 <? b2z c) then (0, - (i + 1))
        else (Z.lor x (Z.shiftl (b2z c) s), i + 1)
      else uvarint_loop b (i + 1) (Z.lor x (Z.shiftl (Z.land (b2z c) 127) s)) (s + 7)
  end.
Definition uvarint (b : bytes) : Z * Z := uvarint_loop b 0 0 0.

(** Decimal digits of a [uint64], which has at most twenty. *)
Fixpoint digits_loop (fuel : nat) (n : Z) : bytes :=
  match fuel with
  | O => []
  | S fuel => (if n <? 10 then [] else digits_loop fuel (n / 10)) ++ [z2b (48 + n mod 10)]
  end.
Definition digits (n : Z) : bytes := digits_loop 20 n.

(** ** Fixed-width lemmas *)

Lemma length_le_bytes n z : length (le_bytes n z) = n.
Proof. revert z. induction n; intros; cbn; auto. Qed.

Lemma blen_le_bytes n z : blen (le_bytes n z) = Z.of_nat n.
Proof. unfold blen. by rewrite length_le_bytes. Qed.

Lemma le_value_bounds b : 0 <= le_value b < 256 ^ blen b.
Proof.
  induction b as [|x b IH]; cbn [le_value]; [done|].
  pose proof (blen_nonneg b). pose proof (b2z_bounds x).
  rewrite blen_cons, Z.pow_add_r by lia. lia.
Qed.

Lemma le_value_le_bytes n z : le_value (le_bytes n z) = z mod 256 ^ Z.of_nat n.
Proof.
  revert z. induction n as [|n IH]; intros z; cbn [le_bytes le_value].
  - rewrite Z.mod_1_r. done.
  - rewrite IH, b2z_z2b, Nat2Z.inj_succ, Z.pow_succ_r, Z.rem_mul_r by lia. done.
Qed.

Lemma le_bytes_le_value b : le_bytes (length b) (le_value b) = b.
Proof.
  induction b as [|x b IH]; [done|]. cbn [length le_bytes le_value].
  pose proof (b2z_bounds x) as Hx. f_equal.
  - apply b2z_inj. rewrite b2z_z2b, Z.mul_comm, Z.mod_add, Z.mod_small by lia. done.
  - rewrite Z.mul_comm, Z.div_add, Z.div_small by lia. by rewrite Z.add_0_l.
Qed.

Lemma le_value_inj a b : length a = length b -> le_value a = le_value b -> a = b.
Proof.
  intros Hl Hv. rewrite <- (le_bytes_le_value a), <- (le_bytes_le_value b). congruence.
Qed.

Lemma blen_put_le32 z : blen (put_le32 z) = 4.
Proof. apply blen_le_bytes. Qed.
Lemma blen_put_le64 z : blen (put_le64 z) = 8.
Proof. apply blen_le_bytes. Qed.
Lemma blen_put_be64 z : blen (put_be64 z) = 8.
Proof. unfold put_be64, blen. rewrite length_rev. apply blen_le_bytes. Qed.

Lemma take_le_app k z (rest : bytes) : take k (le_bytes k z ++ rest) = le_bytes k z.
Proof. rewrite take_app_le by (rewrite length_le_bytes; lia).
  apply firstn_all2. rewrite length_le_bytes. lia. Qed.

Lemma get_put_le32 z rest : 0 <= z < 2 ^ 32 -> get_le32 (put_le32 z ++ rest) = Some z.
Proof.
  intros Hz. unfold get_le32, put_le32. rewrite blen_app, blen_le_bytes.
  pose proof (blen_nonneg rest).
  rewrite (proj2 (Z.leb_le _ _)), take_le_app, le_value_le_bytes by lia.
  by rewrite Z.mod_small.
Qed.

Lemma get_put_le64 z rest : 0 <= z < 2 ^ 64 -> get_le64 (put_le64 z ++ rest) = Some z.
Proof.
  intros Hz. unfold get_le64, put_le64. rewrite blen_app, blen_le_bytes.
  pose proof (blen_nonneg rest).
  rewrite (proj2 (Z.leb_le _ _)), take_le_app, le_value_le_bytes by lia.
  by rewrite Z.mod_small.
Qed.

Lemma get_put_be64 z rest : 0 <= z < 2 ^ 64 -> get_be64 (put_be64 z ++ rest) = Some z.
Proof.
  intros Hz. unfold get_be64. rewrite blen_app, blen_put_be64.
  pose proof (blen_nonneg rest). rewrite (proj2 (Z.leb_le _ _)) by lia.
  rewrite take_app_le by (unfold put_be64; rewrite length_rev, length_le_bytes; lia).
  rewrite firstn_all2 by (unfold put_be64; rewrite length_rev, length_le_bytes; lia).
  unfold put_be64. rewrite rev_involutive, le_value_le_bytes. by rewrite Z.mod_small.
Qed.

Lemma get_le32_bounds b z : get_le32 b = Some z -> 0 <= z < 2 ^ 32.
Proof.
  unfold get_le32. case_match eqn:E; [|done]. intros [= <-]. apply Z.leb_le in E.
  pose proof (le_value_bounds (take 4 b)) as H1. pose proof (blen_take 4 b) as H2.
  change (Z.to_nat 4) with 4%nat in H2. rewrite H2 in H1 by lia. done.
Qed.

(** ** Varint lemmas *)

Lemma put_uvarint_loop_nonempty fuel x : put_uvarint_loop fuel x <> [].
Proof. destruct fuel; cbn; [done|]. by case_match. Qed.

Lemma blen_put_uvarint_loop fuel x : 1 <= blen (put_uvarint_loop fuel x) <= 1 + Z.of_nat fuel.
Proof.
  revert x. induction fuel as [|f IH]; intros x; cbn [put_uvarint_loop].
  - rewrite blen_cons, blen_nil. lia.
  - case_match; rewrite blen_cons; [|rewrite blen_nil; lia].
    specialize (IH (Z.shiftr x 7)). lia.
Qed.

Lemma blen_put_uvarint x : 1 <= blen (put_uvarint x) <= 10.
Proof. apply (blen_put_uvarint_loop 9). Qed.

Lemma land_127 x : Z.land x 127 = x mod 128.
Proof. apply (Z.land_ones x 7). lia. Qed.

Lemma lor_128_land x : 0 <= x < 256 -> Z.land (Z.lor x 128) 127 = x mod 128 /\ 128 <= Z.lor x 128 < 256.
Proof.
  intros Hx. split.
  - rewrite land_127, <- (Z.land_ones _ 7), Z.land_lor_distr_l by lia.
    change (Z.land 128 (Z.ones 7)) with 0. rewrite Z.lor_0_r. apply (Z.land_ones x 7). lia.
  - split.
    + pose proof (Z.ldiff_le 128 (Z.lor x 128)) as _.
      destruct (Z.le_gt_cases 128 (Z.lor x 128)); [done|].
      assert (Z.testbit (Z.lor x 128) 7 = true) as Hb.
      { rewrite Z.lor_spec. change (Z.testbit 128 7) with true. apply orb_true_r. }
      assert (0 <= Z.lor x 128) by (apply Z.lor_nonneg; lia).
      rewrite <- (Z.mod_small (Z.lor x 128) (2^7)) in Hb by lia.
      by rewrite Z.mod_pow2_bits_high in Hb by lia.
    + destruct (decide (x = 0)) as [->|]; [done|].
      assert (0 < Z.lor x 128). { assert (0 <= Z.lor x 128) by (apply Z.lor_nonneg; lia).
        assert (Z.lor x 128 <> 0); [|lia]. intros E. apply Z.lor_eq_0_iff in E. lia. }
      apply (Z.log2_lt_pow2 _ 8); [done|]. rewrite Z.log2_lor by lia.
      change (Z.log2 128) with 7. apply Z.max_lub_lt; [|lia].
      apply Z.log2_lt_pow2; lia.
Qed.

(** The decoder's loop on an encoded number, [i] bytes in and [x < 2^s]
    accumulated. *)
Lemma uvarint_loop_put fuel y rest i x s :
  0 <= y < 2 ^ (7 * Z.of_nat fuel + (64 - 63)) ->
  i = 9 - Z.of_nat fuel -> s = 7 * i -> 0 <= i -> 0 <= x < 2 ^ s ->
  uvarint_loop (put_uvarint_loop fuel y ++ rest) i x s =
    (x + y * 2 ^ s, i + blen (put_uvarint_loop fuel y)).
Proof.
  revert y i x s. induction fuel as [|f IH]; intros y i x s Hy Hi Hs Hi0 Hx;
    cbn [put_uvarint_loop].
  - assert (0 <= y < 2) by (change (2 ^ (7 * Z.of_nat 0 + (64 - 63))) with 2 in Hy; lia).
    cbn [app uvarint_loop]. rewrite b2z_z2b_small by lia.
    rewrite (proj2 (Z.eqb_neq _ _)), (proj2 (Z.ltb_lt _ _)), (proj2 (Z.ltb_ge _ _)),
      andb_false_r by lia.
    rewrite lor_shiftl_add by lia. done.
  - rewrite Nat2Z.inj_succ in *.
    destruct (128 <=? y) eqn:E; bool_hyps; cbn [app uvarint_loop].
    + destruct (lor_128_land (y mod 256)) as [E1 E2]; [apply Z.mod_pos_bound; lia|].
      rewrite b2z_z2b_small by lia.
      rewrite (proj2 (Z.eqb_neq _ _)), (proj2 (Z.ltb_ge _ _)) by lia.
      rewrite E1. assert (y mod 256 mod 128 = y mod 128) as ->.
      { change 256 with (128 * 2). rewrite Z.rem_mul_r by lia.
        rewrite (Z.mul_comm 128), Z.mod_add by lia. apply Z.mod_mod. lia. }
      pose proof (Z.mod_pos_bound y 128 ltac:(lia)) as Hm.
      rewrite lor_shiftl_add by lia. rewrite Z.shiftr_div_pow2 by lia.
      assert (Hp : 2 ^ (s + 7) = 2 ^ s * 128) by (rewrite Z.pow_add_r by lia; lia).
      rewrite IH; [|split|lia|lia|lia|nia].
      * rewrite blen_cons, Hp. change (2 ^ 7) with 128. f_equal; [|lia].
        rewrite (Z.div_mod y 128) at 3 by lia. ring.
      * apply Z.div_pos; lia.
      * apply Z.div_lt_upper_bound; [lia|]. rewrite <- Z.pow_add_r by lia.
        replace (7 + (7 * Z.of_nat f + (64 - 63))) with (7 * Z.succ (Z.of_nat f) + (64 - 63)) by lia.
        lia.
    + rewrite b2z_z2b_small by lia.
      rewrite (proj2 (Z.eqb_neq _ _)), (proj2 (Z.ltb_lt _ _)) by lia.
      rewrite (proj2 (Z.eqb_neq i 9)) by lia. cbn [andb].
      rewrite lor_shiftl_add by lia. done.
Qed.

Lemma uvarint_put_app x rest :
  0 <= x < 2 ^ 64 -> uvarint (put_uvarint x ++ rest) = (x, blen (put_uvarint x)).
Proof.
  intros Hx. unfold uvarint, put_uvarint.
  rewrite (uvarint_loop_put 9) by (cbn; lia).
  change (2 ^ 0) with 1. f_equal; lia.
Qed.

#[export] Hint Rewrite blen_put_le32 blen_put_le64 blen_put_be64 : iw.
