(* ===== verification/ByteOrder.v ===== *)
(** Lexicographic comparison of byte strings.  The program has three copies of
    the comparison ([lsm.compareKeys], [skiplist.compareKeys],
    [sstable.compareBytes]); this file holds the loop they share, the copy of
    package [lsm], and the theory of the order they compute. *)
From S2P Require Import Prelude.

(** ** The code *)

(** The loop [for i := 0; i < n; i++], entered with the remaining slices;
    [Some r] is an early [return r]. *)
Fixpoint compare_loop (n : nat) (a b : bytes) : option Z :=
  match n, a, b with
  | S n, x :: a, y :: b =>
      if b2z x <? b2z y then Some (-1)
      else if b2z y <? b2z x then Some 1
      else compare_loop n a b
  | _, _, _ => None
  end.

(** [compareKeys] of package [lsm]. *)
Definition compareKeys (a b : bytes) : Z :=
  let n := if (blen b <? blen a) then length b else length a in
  match compare_loop n a b with
  | Some r => r
  | None => if blen a <? blen b then -1 else if blen b <? blen a then 1 else 0
  end.

(** ** The order *)

Fixpoint lex (a b : bytes) : comparison :=
  match a, b with
  | [], [] => Eq
  | [], _ :: _ => Lt
  | _ :: _, [] => Gt
  | x :: a, y :: b =>
      match b2z x ?= b2z y with Eq => lex a b | c => c end
  end.

Definition sign (c : comparison) : Z :=
  match c with Lt => -1 | Eq => 0 | Gt => 1 end.

Definition blt (a b : bytes) : Prop := lex a b = Lt.
Definition ble (a b : bytes) : Prop := lex a b <> Gt.

#[export] Instance blt_dec a b : Decision (blt a b).
Proof. unfold blt. solve_decision. Defined.
#[export] Instance ble_dec a b : Decision (ble a b).
Proof. unfold ble. solve_decision. Defined.

Lemma lex_loop n a b :
  n = Nat.min (length a) (length b) ->
  lex a b = match compare_loop n a b with
            | Some r => if r <? 0 then Lt else Gt
            | None => Nat.compare (length a) (length b)
            end.
Proof.
  revert n b. induction a as [|x a IH]; intros n [|y b] ->; cbn; try done.
  destruct (Z.compare_spec (b2z x) (b2z y)) as [E|E|E].
  - rewrite E, !Z.ltb_irrefl. auto.
  - by rewrite (proj2 (Z.ltb_lt _ _)) by done.
  - rewrite (proj2 (Z.ltb_ge _ _)), (proj2 (Z.ltb_lt _ _)) by lia. done.
Qed.

Lemma compare_loop_values n a b r : compare_loop n a b = Some r -> r = -1 \/ r = 1.
Proof.
  revert a b. induction n as [|n IH]; intros [|x a] [|y b]; cbn; try done.
  repeat case_match; intros; simplify_eq; eauto.
Qed.

(** Every copy of the comparison computes [lex], whichever way it takes the
    minimum of the lengths. *)
Lemma compare_loop_lex n a b :
  n = Nat.min (length a) (length b) ->
  match compare_loop n a b with
  | Some r => r
  | None => if blen a <? blen b then -1 else if blen b <? blen a then 1 else 0
  end = sign (lex a b).
Proof.
  intros Hn. rewrite (lex_loop n a b Hn). destruct (compare_loop n a b) as [r|] eqn:E.
  - by destruct (compare_loop_values _ _ _ _ E) as [-> | ->].
  - unfold blen. destruct (Nat.compare_spec (length a) (length b)) as [H|H|H].
    + rewrite H, !Z.ltb_irrefl. done.
    + by rewrite (proj2 (Z.ltb_lt _ _)) by lia.
    + rewrite (proj2 (Z.ltb_ge _ _)), (proj2 (Z.ltb_lt _ _)) by lia. done.
Qed.

Lemma compareKeys_lex a b : compareKeys a b = sign (lex a b).
Proof.
  unfold compareKeys. apply compare_loop_lex. unfold blen. case_match; bool_hyps; lia.
Qed.

Lemma lex_refl a : lex a a = Eq.
Proof. induction a; cbn; [done|]. by rewrite Z.compare_refl. Qed.

Lemma lex_eq a b : lex a b = Eq <-> a = b.
Proof.
  split; [|intros ->; apply lex_refl].
  revert b. induction a as [|x a IH]; intros [|y b]; cbn; try done.
  destruct (Z.compare_spec (b2z x) (b2z y)) as [E|E|E]; try done.
  intros H. apply b2z_inj in E as ->. f_equal. auto.
Qed.

Lemma lex_antisym a b : lex b a = CompOpp (lex a b).
Proof.
  revert b. induction a as [|x a IH]; intros [|y b]; cbn; try done.
  rewrite Z.compare_antisym. destruct (b2z x ?= b2z y); cbn; auto.
Qed.

Lemma lex_trans_lt a b c : lex a b = Lt -> lex b c = Lt -> lex a c = Lt.
Proof.
  revert b c. induction a as [|x a IH]; intros [|y b] [|z c]; cbn; try done.
  destruct (Z.compare_spec (b2z x) (b2z y)) as [E|E|E];
  destruct (Z.compare_spec (b2z y) (b2z z)) as [F|F|F]; try done; intros.
  - rewrite E, F, Z.compare_refl. eauto.
  - by rewrite (proj2 (Z.compare_lt_iff _ _)) by lia.
  - by rewrite (proj2 (Z.compare_lt_iff _ _)) by lia.
  - by rewrite (proj2 (Z.compare_lt_iff _ _)) by lia.
Qed.

#[export] Instance blt_strict : StrictOrder blt.
Proof.
  split.
  - intros a H. unfold blt in H. by rewrite lex_refl in H.
  - intros a b c. apply lex_trans_lt.
Qed.

Lemma blt_irrefl a : ~ blt a a.
Proof. intros H. unfold blt in H. by rewrite lex_refl in H. Qed.

Lemma blt_trans a b c : blt a b -> blt b c -> blt a c.
Proof. apply lex_trans_lt. Qed.

Lemma ble_refl a : ble a a.
Proof. unfold ble. by rewrite lex_refl. Qed.

Lemma ble_lteq a b : ble a b <-> blt a b \/ a = b.
Proof.
  unfold ble, blt. rewrite <- lex_eq. destruct (lex a b); naive_solver.
Qed.

Lemma blt_ble a b : blt a b -> ble a b.
Proof. rewrite ble_lteq. auto. Qed.

Lemma not_blt a b : ~ blt a b <-> ble b a.
Proof.
  unfold blt, ble. rewrite (lex_antisym a b). destruct (lex a b); cbn; naive_solver.
Qed.

Lemma not_ble a b : ~ ble a b <-> blt b a.
Proof. rewrite <- not_blt. destruct (decide (blt b a)); naive_solver. Qed.

Lemma blt_ble_trans a b c : blt a b -> ble b c -> blt a c.
Proof. intros H1 [H2| ->]%ble_lteq; [by eapply blt_trans|done]. Qed.

Lemma ble_blt_trans a b c : ble a b -> blt b c -> blt a c.
Proof. intros [H1| ->]%ble_lteq H2; [by eapply blt_trans|done]. Qed.

Lemma ble_trans a b c : ble a b -> ble b c -> ble a c.
Proof.
  intros [?| ->]%ble_lteq; [|done]. intros. apply blt_ble. by eapply blt_ble_trans.
Qed.

Lemma ble_antisym a b : ble a b -> ble b a -> a = b.
Proof.
  intros [Hlt|?]%ble_lteq Hba; [|done]. exfalso. by apply (not_blt a b) in Hba.
Qed.

Lemma blt_total a b : blt a b \/ a = b \/ blt b a.
Proof.
  unfold blt. rewrite (lex_antisym a b), <- lex_eq. destruct (lex a b); naive_solver.
Qed.

#[export] Instance ble_preorder : PreOrder ble.
Proof. split; [exact ble_refl|exact ble_trans]. Qed.

(** The tests the code makes on the result of a comparison. *)
Lemma sign_lt a b : (sign (lex a b) <? 0) = bool_decide (blt a b).
Proof.
  destruct (lex a b) eqn:E; cbn; symmetry;
    rewrite ?bool_decide_eq_true, ?bool_decide_eq_false; unfold blt; by rewrite E.
Qed.
Lemma sign_gt a b : (0 <? sign (lex a b)) = bool_decide (blt b a).
Proof. rewrite <- sign_lt, (lex_antisym a b). by destruct (lex a b). Qed.
Lemma sign_eq a b : (sign (lex a b) =? 0) = bool_decide (a = b).
Proof.
  destruct (lex a b) eqn:E; cbn; symmetry;
    rewrite ?bool_decide_eq_true, ?bool_decide_eq_false; [by apply lex_eq| |];
    intros ->; by rewrite lex_refl in E.
Qed.
Lemma compareKeys_lt a b : (compareKeys a b <? 0) = bool_decide (blt a b).
Proof. rewrite compareKeys_lex. apply sign_lt. Qed.
Lemma compareKeys_gt a b : (0 <? compareKeys a b) = bool_decide (blt b a).
Proof. rewrite compareKeys_lex. apply sign_gt. Qed.
Lemma compareKeys_eq a b : (compareKeys a b =? 0) = bool_decide (a = b).
Proof. rewrite compareKeys_lex. apply sign_eq. Qed.

(** ** Prefixes *)

Lemma lex_app_same p a b : lex (p ++ a) (p ++ b) = lex a b.
Proof. induction p as [|x p IH]; cbn; [done|]. by rewrite Z.compare_refl. Qed.

Lemma blt_nil_l a : a <> [] -> blt [] a.
Proof. by destruct a. Qed.

Lemma not_blt_nil_r a : ~ blt a [].
Proof. by destruct a. Qed.

Lemma ble_nil_l a : ble [] a.
Proof. by destruct a. Qed.

Lemma ble_app_r a b : ble a (a ++ b).
Proof.
  unfold ble. rewrite <- (app_nil_r a) at 1. rewrite lex_app_same. by destruct b.
Qed.

(** When neither string is a prefix of the other, the order is decided inside
    both, and nothing appended can change it. *)
Lemma lex_app_noprefix a b c d :
  ~ a `prefix_of` b -> ~ b `prefix_of` a -> lex (a ++ c) (b ++ d) = lex a b.
Proof.
  revert b. induction a as [|x a IH]; intros [|y b] H1 H2.
  - by destruct H1.
  - destruct H1. apply prefix_nil.
  - destruct H2. apply prefix_nil.
  - cbn. destruct (Z.compare_spec (b2z x) (b2z y)) as [E|E|E]; [|done|done].
    apply b2z_inj in E as ->. apply IH; intros ?.
    + apply H1. by apply prefix_cons.
    + apply H2. by apply prefix_cons.
Qed.

#[export] Hint Resolve ble_refl blt_ble blt_trans ble_trans blt_ble_trans ble_blt_trans : iw.
