(* ===== verification/Sorted.v ===== *)
(** Sorted association lists: the abstract state of the ordered stores of the
    program (skiplist, block, table), which all keep key-value pairs in the
    order of their keys and answer the same three questions: the value of a
    key, the pairs from a key on, and all pairs in order. *)
From S2P Require Import Prelude ByteOrder.
From stdpp Require Import sorting.

#[local] Open Scope Z_scope.

(** ** Definitions *)

Fixpoint assoc (k : bytes) (l : list (bytes * bytes)) : option bytes :=
  match l with
  | [] => None
  | (k', v) :: l => if bool_decide (k' = k) then Some v else assoc k l
  end.

(** The part of the contents from a key on. *)
Definition suffix_from (t : bytes) (l : list (bytes * bytes)) : list (bytes * bytes) :=
  filter (fun p => ble t p.1) l.

(** The pairs with one more, in key order. *)
Fixpoint insert_sorted (k v : bytes) (l : list (bytes * bytes)) : list (bytes * bytes) :=
  match l with
  | [] => [(k, v)]
  | (k', v') :: l =>
      if bool_decide (blt k' k) then (k', v') :: insert_sorted k v l else (k, v) :: (k', v') :: l
  end.

Definition has_key (k : bytes) (l : list (bytes * bytes)) : Prop := k ∈ l.*1.

#[export] Instance has_key_dec k l : Decision (has_key k l).
Proof. unfold has_key. apply _. Defined.

(** Keys in strictly increasing order. *)
Definition ascending (l : list (bytes * bytes)) : Prop := StronglySorted blt l.*1.

(** ** Lemmas *)

Lemma assoc_None k l : ~ has_key k l -> assoc k l = None.
Proof.
  unfold has_key. induction l as [|[k' v] l IH]; [done|]. cbn. rewrite elem_of_cons.
  intros H. rewrite bool_decide_eq_false_2 by naive_solver. apply IH. naive_solver.
Qed.

Lemma insert_sorted_perm k v l : insert_sorted k v l ≡ₚ (k, v) :: l.
Proof.
  induction l as [|[k' v'] l IH]; [done|]. cbn. case_bool_decide; [|done].
  rewrite IH. constructor.
Qed.

Lemma suffix_from_app t l1 l2 : suffix_from t (l1 ++ l2) = suffix_from t l1 ++ suffix_from t l2.
Proof. apply filter_app. Qed.

Lemma suffix_from_none t l : Forall (fun p => blt p.1 t) l -> suffix_from t l = [].
Proof.
  unfold suffix_from. induction 1 as [|p l Hp _ IH]; [done|].
  rewrite filter_cons. case_decide as Hle; [|done].
  exfalso. apply (blt_irrefl p.1). by eapply blt_ble_trans.
Qed.

Lemma suffix_from_all t l : Forall (fun p => ble t p.1) l -> suffix_from t l = l.
Proof.
  unfold suffix_from. induction 1 as [|p l Hp _ IH]; [done|].
  rewrite filter_cons. case_decide; [|done]. by rewrite IH.
Qed.

Lemma ascending_app l1 l2 :
  ascending (l1 ++ l2) <->
  ascending l1 /\ ascending l2 /\ Forall (fun p => Forall (fun q => blt p.1 q.1) l2) l1.
Proof.
  unfold ascending. rewrite fmap_app. split.
  - intros H. apply StronglySorted_app in H as (H & H1 & H2). split_and!; [done..|].
    apply Forall_forall. intros p Hp. apply Forall_forall. intros q Hq.
    apply H; by apply list_elem_of_fmap_2.
  - intros (H1 & H2 & H). apply StronglySorted_app_2; [|done..].
    intros k1 k2 (p & -> & Hp)%list_elem_of_fmap (q & -> & Hq)%list_elem_of_fmap.
    rewrite Forall_forall in H. specialize (H p Hp). rewrite Forall_forall in H. auto.
Qed.

Lemma ascending_cons p l : ascending (p :: l) <-> ascending l /\ Forall (fun q => blt p.1 q.1) l.
Proof.
  rewrite (ascending_app [p] l). split; [intros (_ & H & H2)|intros [H H2]].
  - by apply Forall_cons in H2 as [H2 _].
  - split_and!; [repeat constructor|done|by constructor].
Qed.

(** Where the search ends: everything before is smaller, the pair at hand is
    not. *)
Lemma suffix_from_here t l1 p l2 :
  ascending (l1 ++ p :: l2) -> Forall (fun p => blt p.1 t) l1 -> ble t p.1 ->
  suffix_from t (l1 ++ p :: l2) = p :: l2.
Proof.
  intros Ha Hl Hp. rewrite suffix_from_app, suffix_from_none by done. apply suffix_from_all.
  apply ascending_app in Ha as (_ & Ha & _). apply ascending_cons in Ha as [_ Ha].
  constructor; [done|]. eapply Forall_impl; [apply Ha|]. eauto with iw.
Qed.

Lemma suffix_from_suffix t l : ascending l -> exists l1, l = l1 ++ suffix_from t l.
Proof.
  induction l as [|p l IH]; [by exists []|]. intros Ha. destruct (decide (ble t p.1)) as [Hp|Hp].
  - exists []. cbn [app]. symmetry. by apply (suffix_from_here t [] p l).
  - apply ascending_cons in Ha as [Ha _]. destruct (IH Ha) as [l1 Hl]. exists (p :: l1).
    unfold suffix_from. rewrite filter_cons. case_decide; [done|]. cbn [app]. by f_equal.
Qed.

Lemma assoc_elem k v l : ascending l -> assoc k l = Some v <-> (k, v) ∈ l.
Proof.
  induction l as [|[k' v'] l IH]; intros Ha; cbn; [by rewrite elem_of_nil|].
  apply ascending_cons in Ha as [Ha Hlt]. rewrite elem_of_cons. case_bool_decide as E.
  - subst k'. split; [intros [= ->]; by left|]. intros [[= ->]|Hin]; [done|].
    rewrite Forall_forall in Hlt. specialize (Hlt _ Hin). by apply blt_irrefl in Hlt.
  - rewrite IH by done. split; [by right|]. intros [[= -> ->]|]; done.
Qed.

(** A lookup by seeking: the first pair from the key on has the key or the key
    is absent. *)
Lemma assoc_suffix k l : ascending l ->
  assoc k l = match suffix_from k l with
              | (k', v) :: _ => if bool_decide (k' = k) then Some v else None
              | [] => None
              end.
Proof.
  induction l as [|[k' v'] l IH]; intros Ha; [done|]. cbn [assoc].
  pose proof Ha as Ha0. apply ascending_cons in Ha as [Ha Hlt].
  destruct (decide (ble k k')) as [Hle|Hle].
  - pose proof (suffix_from_here k [] (k', v') l Ha0 ltac:(constructor) Hle) as E.
    cbn [app] in E. rewrite E. case_bool_decide; [done|]. apply assoc_None. unfold has_key.
    intros (q & -> & Hq)%list_elem_of_fmap. rewrite Forall_forall in Hlt. specialize (Hlt q Hq).
    apply (blt_irrefl k'). eapply blt_ble_trans; [apply Hlt|apply Hle].
  - unfold suffix_from. rewrite filter_cons. case_decide; [done|].
    rewrite bool_decide_eq_false_2 by (intros ->; apply Hle, ble_refl). by apply IH.
Qed.
