(* ===== verification/Io.v ===== *)
(** The parts of Go's [io], [os] and [bufio] packages the program writes and
    reads its files through: the [io.Writer] contract as a type class, files
    with a position as its instance, and [io.ReadFull] on a byte stream.
    These are standard library code; the class states the documented contract
    of [io.Writer], so that the components above are proved for every lawful
    writer, failing ones included. *)
From S2P Require Import Prelude.

(** ** Definitions *)

Inductive io_error : Type :=
| EOF
| ErrUnexpectedEOF
| ErrIO.

#[export] Instance io_error_eq_dec : EqDecision io_error.
Proof. solve_decision. Defined.

(** [w.Write(p)]: the writer afterwards, the count of bytes written and the
    error. *)
Class Writer (W : Type) := write : W -> bytes -> W * Z * option io_error.

(** The [io.Writer] contract: a write without error has taken all of [p]; a
    failed one reports how much of [p] it took.  [reach] is a number of bytes
    up to which the writer does not fail; a writer that promises nothing has a
    negative one. *)
Class WriterLaws (W : Type) `{Writer W} := {
  written : W -> bytes;
  write_ok w p w' n :
    write w p = (w', n, None) -> n = blen p /\ written w' = written w ++ p;
  write_err w p w' n e :
    write w p = (w', n, Some e) ->
    0 <= n <= blen p /\ written w' = written w ++ take (Z.to_nat n) p;
  reach : W -> Z;
  reach_kept w p w' n e : write w p = (w', n, e) -> reach w' = reach w;
  reach_passed w p w' n e :
    write w p = (w', n, Some e) -> reach w < blen (written w) + blen p }.

(** An [os.File]: the contents, the position, the number of bytes the device
    still accepts before it reports an error, and whether it is open. *)
Record File : Type := mkFile { content : bytes; pos : Z; room : Z; opened : bool }.

(** Replaces the bytes from [off] on by [p]; a gap before [off] reads as
    zeros. *)
Definition overwrite (c : bytes) (off : Z) (p : bytes) : bytes :=
  resize (Z.to_nat off) x00 c ++ p ++ drop (Z.to_nat off + length p) c.

#[export] Instance file_writer : Writer File := fun f p =>
  if negb (opened f) then (f, 0, Some ErrIO)
  else
    let n := Z.min (blen p) (Z.max 0 (room f)) in
    let q := take (Z.to_nat n) p in
    (mkFile (overwrite (content f) (pos f) q) (Z.max 0 (pos f) + n) (room f - n) true, n,
     if n <? blen p then Some ErrIO else None).

(** [f.Seek(off, io.SeekStart)], [f.Seek(0, io.SeekCurrent)] and
    [f.Seek(0, io.SeekEnd)]. *)
Definition seek_start (f : File) (off : Z) : File := mkFile (content f) off (room f) (opened f).
Definition seek_current (f : File) : Z := pos f.
Definition seek_end (f : File) : File := mkFile (content f) (blen (content f)) (room f) (opened f).

(** [f.Truncate(size)] and [f.Close()]. *)
Definition truncate (f : File) (size : Z) : File :=
  mkFile (resize (Z.to_nat size) x00 (content f)) (pos f) (room f) (opened f).
Definition close_file (f : File) : File := mkFile (content f) (pos f) (room f) false.

(** [io.ReadFull(r, buf)] with [len(buf) = n] on a reader whose remaining
    bytes are [s]. *)
Definition ReadFull (s : bytes) (n : Z) : bytes * (io_error + bytes) :=
  if n <=? blen s then (drop (Z.to_nat n) s, inr (take (Z.to_nat n) s))
  else ([], inl (if blen s =? 0 then EOF else ErrUnexpectedEOF)).

(** The largest allocation of the runtime: [make] panics above it. *)
Definition maxAlloc : Z := 2 ^ 48.

(** [copy(dst[off:], p)]: panics when [off] is out of range, stops at the end
    of [dst]. *)
Definition copy_at (dst : bytes) (off : Z) (p : bytes) : option bytes :=
  if (0 <=? off) && (off <=? blen dst)
  then Some (take (Z.to_nat off) dst ++ take (Z.to_nat (blen dst - off)) p ++
             drop (Z.to_nat off + length p) dst)
  else None.

(** ** Lemmas *)

Lemma take_app_take {A} n (a b : list A) : 0 <= n ->
  take (Z.to_nat (blen a + n)) (a ++ b) = a ++ take (Z.to_nat n) b.
Proof.
  intros Hn. unfold blen. rewrite take_app_ge by lia. do 2 f_equal. lia.
Qed.

Lemma copy_at_fits dst off p :
  0 <= off -> off + blen p <= blen dst ->
  exists dst', copy_at dst off p = Some dst' /\ blen dst' = blen dst /\
    take (Z.to_nat (off + blen p)) dst' = take (Z.to_nat off) dst ++ p.
Proof.
  intros H1 H2. pose proof (blen_nonneg p). unfold copy_at.
  rewrite (proj2 (Z.leb_le 0 _)), (proj2 (Z.leb_le off _)) by lia. cbn [andb].
  assert (Hq : take (Z.to_nat (blen dst - off)) p = p).
  { apply take_ge. unfold blen in *. lia. }
  rewrite Hq. eexists. split; [done|]. split.
  - unfold blen in *. rewrite !length_app, length_take, length_drop. lia.
  - rewrite app_assoc. rewrite <- (take_blen (take _ _ ++ p)) at 2.
    rewrite blen_app, blen_take by lia. apply take_app_le.
    rewrite length_app, length_take. unfold blen in *. lia.
Qed.

Lemma copy_at_exact (a b c p : bytes) off :
  off = blen a -> blen b = blen p -> copy_at (a ++ b ++ c) off p = Some (a ++ p ++ c).
Proof.
  intros -> Hb. unfold copy_at. pose proof (blen_nonneg a). pose proof (blen_nonneg b).
  pose proof (blen_nonneg c). rewrite !blen_app.
  rewrite (proj2 (Z.leb_le 0 _)), (proj2 (Z.leb_le (blen a) _)) by lia. cbn [andb].
  f_equal. rewrite take_blen_app. f_equal.
  rewrite (take_ge p) by (unfold blen in *; lia). f_equal.
  rewrite app_assoc. replace (Z.to_nat (blen a) + length p)%nat with (length (a ++ b))
    by (rewrite length_app; unfold blen in *; lia).
  by rewrite drop_app_length.
Qed.

Lemma resize_written {A} (c p d : list A) n (x : A) :
  resize (n + length p) x (resize n x c ++ p ++ d) = resize n x c ++ p.
Proof.
  rewrite app_assoc, resize_app_le by (rewrite length_app, length_resize; lia).
  apply resize_all_alt. by rewrite length_app, length_resize.
Qed.

(** A file is a lawful writer: what it has been given is its contents up to
    the position. *)
#[export, program] Instance file_writer_laws : WriterLaws File := {|
  written f := resize (Z.to_nat (pos f)) x00 (content f);
  reach f := if opened f then Z.max 0 (pos f) + Z.max 0 (room f) else -1 |}.
Next Obligation.
  intros f p f' n. unfold write, file_writer. pose proof (blen_nonneg p).
  destruct (opened f); cbn [negb]; [|done].
  destruct (_ <? _) eqn:E; [done|]. bool_hyps. intros [= <- <-].
  assert (Hn : Z.min (blen p) (Z.max 0 (room f)) = blen p) by lia.
  rewrite Hn. split; [done|]. cbn [pos content]. unfold overwrite.
  rewrite take_blen. rewrite Z2Nat.inj_add, length_blen by lia.
  replace (Z.to_nat (Z.max 0 (pos f))) with (Z.to_nat (pos f)) by lia.
  apply resize_written.
Qed.
Next Obligation.
  intros f p f' n e. unfold write, file_writer. pose proof (blen_nonneg p).
  destruct (opened f); cbn [negb].
  2:{ intros [= <- <- <-]. split; [lia|]. change (Z.to_nat 0) with O. by rewrite take_0, app_nil_r. }
  destruct (_ <? _) eqn:E; [|done]. bool_hyps. intros [= <- <- <-].
  set (k := Z.min _ _) in *. split; [lia|]. cbn [pos content]. unfold overwrite.
  assert (Hk : blen (take (Z.to_nat k) p) = k) by (apply blen_take; lia).
  rewrite <- Hk at 1. rewrite Z2Nat.inj_add, length_blen by lia.
  replace (Z.to_nat (Z.max 0 (pos f))) with (Z.to_nat (pos f)) by lia.
  apply resize_written.
Qed.
Next Obligation.
  intros f p f' n e. unfold write, file_writer. pose proof (blen_nonneg p).
  destruct (opened f) eqn:Ef; cbn [negb]; intros [= <- <- <-]; [|by rewrite Ef]. cbn [opened pos room]. lia.
Qed.
Next Obligation.
  intros f p f' n e. unfold write, file_writer. pose proof (blen_nonneg p).
  assert (Hw : blen (resize (Z.to_nat (pos f)) x00 (content f)) = Z.max 0 (pos f))
    by (unfold blen; rewrite length_resize; lia).
  rewrite Hw. destruct (opened f); cbn [negb]; [|intros _; lia].
  destruct (_ <? _) eqn:E; [|done]. bool_hyps. intros _. lia.
Qed.

Lemma ReadFull_app (p s : bytes) : ReadFull (p ++ s) (blen p) = (s, inr p).
Proof.
  unfold ReadFull. pose proof (blen_nonneg s).
  rewrite blen_app, (proj2 (Z.leb_le (blen p) _)) by lia.
  by rewrite take_blen_app, drop_blen_app.
Qed.

Lemma ReadFull_short (s : bytes) n :
  blen s < n -> ReadFull s n = ([], inl (if blen s =? 0 then EOF else ErrUnexpectedEOF)).
Proof. intros. unfold ReadFull. by rewrite (proj2 (Z.leb_gt _ _)). Qed.
