(* ===== verification/PageWriter.v ===== *)
(** The page-aligned write buffer of the log ([pkg/wal/pagewriter.go]), over
    any lawful writer.  [stream] is what the caller has written so far, on the
    device or still buffered: every operation is proved against it. *)
From S2P Require Import Prelude Io.

Definition defaultBufferBytes : Z := 128 * 1024.
Definition defaultPageBytes : Z := 4096.

Record PageWriter (W : Type) : Type := mkPageWriter {
  w : W;
  pageOffset : Z;
  pageBytes : Z;
  bufferedBytes : Z;
  buf : bytes;
  bufWatermarkBytes : Z }.
Arguments mkPageWriter {W}.
Arguments w {W}.
Arguments pageOffset {W}.
Arguments pageBytes {W}.
Arguments bufferedBytes {W}.
Arguments buf {W}.
Arguments bufWatermarkBytes {W}.

Section page_writer.
Context {W : Type} {writer : Writer W} {laws : WriterLaws W}.

Definition NewPageWriter (w : W) (pageBytes pageOffset bufferSize : Z) : PageWriter W :=
  let pageBytes := if pageBytes <=? 0 then defaultPageBytes else pageBytes in
  let bufferSize := if bufferSize <=? 0 then defaultBufferBytes else bufferSize in
  {| w := w; pageOffset := pageOffset; pageBytes := pageBytes; bufferedBytes := 0;
     buf := replicate (Z.to_nat (bufferSize + pageBytes)) x00;
     bufWatermarkBytes := bufferSize |}.

(** [copy(pw.buf[pw.bufferedBytes:], p); pw.bufferedBytes += len(p)]. *)
Definition buffer (pw : PageWriter W) (p : bytes) : option (PageWriter W) :=
  b ← copy_at (buf pw) (bufferedBytes pw) p;
  Some (mkPageWriter (w pw) (pageOffset pw) (pageBytes pw) (bufferedBytes pw + blen p) b
          (bufWatermarkBytes pw)).

Definition Flush (pw : PageWriter W) : option (PageWriter W * option io_error) :=
  if bufferedBytes pw =? 0 then Some (pw, None)
  else
    p ← slice (buf pw) 0 (bufferedBytes pw);
    let '(w', _, err) := write (w pw) p in
    Some (mkPageWriter w' (Z.rem (pageOffset pw + bufferedBytes pw) (pageBytes pw))
            (pageBytes pw) 0 (buf pw) (bufWatermarkBytes pw), err).

(** The direct write of all complete pages; the rest of [p] is the tail. *)
Definition write_pages (pw : PageWriter W) (p : bytes) (n : Z)
    : option (PageWriter W * bytes * Z * option io_error) :=
  if pageBytes pw <? blen p then
    let pages := Z.quot (blen p) (pageBytes pw) in
    full ← slice p 0 (pages * pageBytes pw);
    let '(w', c, werr) := write (w pw) full in
    let pw := mkPageWriter w' (pageOffset pw) (pageBytes pw) (bufferedBytes pw) (buf pw)
                (bufWatermarkBytes pw) in
    match werr with
    | Some e => Some (pw, p, n + c, Some e)
    | None =>
        p ← slice_from p (pages * pageBytes pw);
        Some (pw, p, n + c, None)
    end
  else Some (pw, p, n, None).

(** [Write] once the slack page is complete: flush, whole pages, tail. *)
Definition write_aligned (pw : PageWriter W) (p : bytes) (n : Z)
    : option (PageWriter W * Z * option io_error) :=
  '(pw, err) ← Flush pw;
  match err with
  | Some e => Some (pw, n, Some e)
  | None =>
      '(pw, p, n, err) ← write_pages pw p n;
      match err with
      | Some e => Some (pw, n, Some e)
      | None =>
          if 0 <? blen p
          then pw ← buffer pw p; Some (pw, n + blen p, None)
          else Some (pw, n, None)
      end
  end.

Definition Write (pw : PageWriter W) (p : bytes)
    : option (PageWriter W * Z * option io_error) :=
  if blen p + bufferedBytes pw <=? bufWatermarkBytes pw then
    pw ← buffer pw p; Some (pw, blen p, None)
  else
    let slack := pageBytes pw - Z.rem (pageOffset pw + bufferedBytes pw) (pageBytes pw) in
    if slack =? pageBytes pw then write_aligned pw p 0
    else
      let partial := blen p <? slack in
      let slack := if partial then blen p else slack in
      head ← slice p 0 slack;
      pw ← buffer pw head;
      rest ← slice_from p slack;
      if partial then Some (pw, slack, None) else write_aligned pw rest slack.

(** A caller's sequence of writes, up to the first error. *)
Fixpoint write_all (pw : PageWriter W) (ps : list bytes) : option (PageWriter W * option io_error) :=
  match ps with
  | [] => Some (pw, None)
  | p :: ps =>
      '(pw, _, err) ← Write pw p;
      match err with Some e => Some (pw, Some e) | None => write_all pw ps end
  end.

(** ** Specification *)

(** What has been written through [pw]: the device's share and the buffer. *)
Definition stream (pw : PageWriter W) : bytes :=
  written (w pw) ++ take (Z.to_nat (bufferedBytes pw)) (buf pw).

(** Bytes missing to the end of the current page. *)
Definition to_page_end (pw : PageWriter W) : Z :=
  (- (pageOffset pw + bufferedBytes pw)) mod pageBytes pw.

(** The buffer has room for the slack up to the next page boundary, so no
    [copy] is cut short. *)
Definition wf (pw : PageWriter W) : Prop :=
  0 < pageBytes pw /\ 0 < bufWatermarkBytes pw /\ 0 <= pageOffset pw /\
  blen (buf pw) = bufWatermarkBytes pw + pageBytes pw /\
  0 <= bufferedBytes pw /\ bufferedBytes pw + to_page_end pw <= blen (buf pw).

(** [pageOffset] is the position of the device in its page, up to the
    constant offset at which the writer was created. *)
Definition in_phase (pw : PageWriter W) (start : Z) : Prop :=
  (pageOffset pw - blen (written (w pw)) - start) mod pageBytes pw = 0.

Definition same_config (pw pw' : PageWriter W) : Prop :=
  pageBytes pw' = pageBytes pw /\ bufWatermarkBytes pw' = bufWatermarkBytes pw.

(** ** Lemmas *)

Lemma to_page_end_bounds pw : 0 < pageBytes pw -> 0 <= to_page_end pw < pageBytes pw.
Proof. intros. by apply Z.mod_pos_bound. Qed.

Lemma NewPageWriter_wf (w0 : W) pb po bs : 0 <= po -> wf (NewPageWriter w0 pb po bs).
Proof.
  intros Hpo. unfold wf. set (pw := NewPageWriter _ _ _ _).
  assert (Hpb : 0 < pageBytes pw).
  { cbn. destruct (pb <=? 0) eqn:E; bool_hyps; [done|lia]. }
  assert (Hwm : 0 < bufWatermarkBytes pw).
  { cbn. destruct (bs <=? 0) eqn:E; bool_hyps; [done|lia]. }
  assert (Hlen : blen (buf pw) = bufWatermarkBytes pw + pageBytes pw).
  { cbn [pw NewPageWriter buf bufWatermarkBytes pageBytes] in *. rewrite blen_replicate. lia. }
  repeat (split; [done|]). pose proof (to_page_end_bounds pw Hpb).
  change (bufferedBytes pw) with 0. lia.
Qed.

Lemma NewPageWriter_stream (w0 : W) pb po bs : stream (NewPageWriter w0 pb po bs) = written w0.
Proof. unfold stream. cbn [w bufferedBytes NewPageWriter]. change (Z.to_nat 0) with O. by rewrite take_0, app_nil_r. Qed.

Lemma NewPageWriter_in_phase (w0 : W) pb po bs :
  in_phase (NewPageWriter w0 pb po bs) (po - blen (written w0)).
Proof.
  unfold in_phase. set (pw := NewPageWriter _ _ _ _).
  replace (_ - _ - _) with 0; [apply Z.mod_0_l|].
  - cbn. destruct (pb <=? 0) eqn:E; bool_hyps; [done|lia].
  - cbn [pw NewPageWriter w pageOffset]. lia.
Qed.

(** Buffering [p] appends it to the stream when it ends in the same page or
    below the watermark. *)
Lemma buffer_spec pw p :
  wf pw -> blen p + bufferedBytes pw <= bufWatermarkBytes pw \/ blen p <= to_page_end pw
    \/ (pageOffset pw mod pageBytes pw = 0 /\ bufferedBytes pw = 0 /\ blen p <= pageBytes pw) ->
  exists pw', buffer pw p = Some pw' /\ wf pw' /\ same_config pw pw' /\
    stream pw' = stream pw ++ p /\ w pw' = w pw /\ pageOffset pw' = pageOffset pw /\
    bufferedBytes pw' = bufferedBytes pw + blen p.
Proof.
  intros (Hpb & Hwm & Hpo & Hlen & Hbb & Hfit) Hp. pose proof (blen_nonneg p).
  pose proof (to_page_end_bounds pw Hpb) as Hend.
  assert (Hroom : bufferedBytes pw + blen p <= blen (buf pw)) by lia.
  destruct (copy_at_fits (buf pw) (bufferedBytes pw) p Hbb Hroom) as (b & Hb & Hbl & Ht).
  unfold buffer. rewrite Hb. cbn [mbind option_bind]. eexists. split; [reflexivity|].
  split; [|repeat split; try done].
  - unfold wf, to_page_end. cbn [pageBytes bufWatermarkBytes pageOffset buf bufferedBytes].
    rewrite Hbl. repeat (split; [lia|]).
    set (x := - (_ + (_ + _))). pose proof (Z.mod_pos_bound x (pageBytes pw) Hpb).
    destruct Hp as [Hp|[Hp|(Hz & Hb0 & Hp)]]; [lia| |].
    + assert (E : x mod pageBytes pw = to_page_end pw - blen p); [|lia].
      unfold to_page_end in *. symmetry. apply (Z.mod_unique_pos _ _ ((- (pageOffset pw + bufferedBytes pw)) / pageBytes pw)); [lia|].
      unfold x. pose proof (Z.div_mod (- (pageOffset pw + bufferedBytes pw)) (pageBytes pw)). lia.
    + assert (blen p = 0 \/ 0 < blen p) as [E|E] by lia; [lia|].
      assert (E2 : x mod pageBytes pw = pageBytes pw - blen p); [|lia].
      pose proof (Z.div_mod (pageOffset pw) (pageBytes pw)).
      symmetry. apply (Z.mod_unique_pos _ _ (- (pageOffset pw / pageBytes pw) - 1)); [lia|].
      unfold x. lia.
  - unfold stream. cbn [w bufferedBytes buf]. by rewrite Ht, app_assoc.
Qed.

(** [Flush] moves the buffer to the device; the buffer is empty afterwards
    even when the device failed. *)
Lemma Flush_spec pw start :
  wf pw -> in_phase pw start ->
  exists pw' err, Flush pw = Some (pw', err) /\ wf pw' /\ same_config pw pw' /\
    bufferedBytes pw' = 0 /\ written (w pw) `prefix_of` written (w pw') /\
    match err with
    | None =>
        written (w pw') = stream pw /\ in_phase pw' start /\
        pageOffset pw' mod pageBytes pw = (pageOffset pw + bufferedBytes pw) mod pageBytes pw
    | Some _ => written (w pw') `prefix_of` stream pw
    end.
Proof.
  intros (Hpb & Hwm & Hpo & Hlen & Hbb & Hfit) Hph. unfold Flush.
  pose proof (to_page_end_bounds pw Hpb) as Hend.
  destruct (bufferedBytes pw =? 0) eqn:E; bool_hyps.
  - exists pw, None. repeat split; try done; try lia.
    + unfold stream. rewrite E. change (Z.to_nat 0) with O. by rewrite take_0, app_nil_r.
    + by rewrite E, Z.add_0_r.
  - rewrite slice_prefix by lia. cbn [mbind option_bind].
    set (p := take _ _). assert (Hp : blen p = bufferedBytes pw) by (apply blen_take; lia).
    destruct (write (w pw) p) as [[w' n] err] eqn:Ew.
    do 2 eexists. split; [reflexivity|].
    rewrite Z.rem_mod_nonneg by lia.
    pose proof (Z.mod_pos_bound (pageOffset pw + bufferedBytes pw) (pageBytes pw) Hpb) as Hm.
    split; [|repeat split].
    + unfold wf, to_page_end. cbn [pageBytes bufWatermarkBytes pageOffset buf bufferedBytes].
      pose proof (Z.mod_pos_bound
        (- ((pageOffset pw + bufferedBytes pw) mod pageBytes pw + 0)) (pageBytes pw) Hpb).
      repeat split; lia.
    + cbn [w]. destruct err as [e|]; [apply write_err in Ew as [_ ->]|apply write_ok in Ew as [_ ->]];
        by eexists.
    + destruct err as [e|]; cbn [w].
      * apply write_err in Ew as [Hn Ew]. rewrite Ew. apply prefix_app.
        exists (drop (Z.to_nat n) p). by rewrite take_drop.
      * apply write_ok in Ew as [_ Ew]. split; [exact Ew|].
        split; [|by cbn [pageOffset]; rewrite Z.mod_mod by lia].
        unfold in_phase in *. cbn [w pageOffset pageBytes]. rewrite Ew, blen_app, Hp.
        rewrite <- Hph, <- Z.add_opp_r, <- Z.add_opp_r, <- Z.add_assoc, Z.add_mod_idemp_l by lia.
        f_equal. lia.
Qed.

(** The outcome of writing [p]: on success all of it is in the stream, on a
    device error the device has received a prefix of it. *)
Definition wrote (start : Z) (pw : PageWriter W) (p : bytes) (pw' : PageWriter W)
    (err : option io_error) : Prop :=
  wf pw' /\ same_config pw pw' /\ written (w pw) `prefix_of` written (w pw') /\
  match err with
  | None =>
      stream pw' = stream pw ++ p /\ in_phase pw' start /\
      (written (w pw') = written (w pw) \/ pageOffset pw' mod pageBytes pw = 0)
  | Some _ => written (w pw') `prefix_of` stream pw ++ p
  end.

Lemma write_pages_spec pw p n start :
  wf pw -> in_phase pw start -> bufferedBytes pw = 0 ->
  exists pw' rest n' err, write_pages pw p n = Some (pw', rest, n', err) /\
    wf pw' /\ same_config pw pw' /\ bufferedBytes pw' = 0 /\ pageOffset pw' = pageOffset pw /\
    written (w pw) `prefix_of` written (w pw') /\
    match err with
    | None => in_phase pw' start /\ blen rest <= pageBytes pw /\ n' + blen rest = n + blen p /\
        written (w pw') ++ rest = written (w pw) ++ p /\ (rest = p -> w pw' = w pw)
    | Some _ => n <= n' <= n + blen p /\ written (w pw') `prefix_of` written (w pw) ++ p
    end.
Proof.
  intros Hwf Hph H0. assert (Hwf' := Hwf). destruct Hwf as (Hpb & Hwm & Hpo & Hlen & Hbb & Hfit).
  unfold write_pages. destruct (_ <? _) eqn:E; bool_hyps; [|by exists pw, p, n, None; repeat split].
  rewrite Z.quot_div_nonneg by lia. set (k := blen p / pageBytes pw * pageBytes pw).
  assert (Hk : 0 <= k <= blen p /\ blen p - k < pageBytes pw /\ k mod pageBytes pw = 0 /\ 0 < k).
  { unfold k. pose proof (Z.div_mod (blen p) (pageBytes pw)). pose proof (Z.mod_pos_bound (blen p) (pageBytes pw)).
    pose proof (Z.div_le_lower_bound (blen p) (pageBytes pw) 1). rewrite Z.mod_mul by lia. nia. }
  rewrite slice_prefix by lia. cbn [mbind option_bind].
  assert (Hfull : blen (take (Z.to_nat k) p) = k) by (apply blen_take; lia).
  destruct (write _ _) as [[w' c] werr] eqn:Ew. destruct werr as [e|].
  - apply write_err in Ew as [Hc Ew]. do 4 eexists. split; [reflexivity|].
    split; [exact Hwf'|]. cbn [w]. rewrite Ew. repeat split; try done; try lia; [by eexists|].
    apply prefix_app. rewrite take_take. exists (drop (Z.to_nat c `min` Z.to_nat k) p). by rewrite take_drop.
  - cbn [pageBytes]. fold k. rewrite slice_from_drop by lia. cbn [mbind option_bind].
    apply write_ok in Ew as [-> Ew].
    do 4 eexists. split; [reflexivity|]. split; [exact Hwf'|]. cbn [w pageOffset bufferedBytes].
    rewrite Ew, blen_drop by lia. repeat split; try done; try lia.
    + by eexists.
    + unfold in_phase in *. cbn [w pageOffset pageBytes]. rewrite Ew, blen_app, Hfull.
      rewrite <- (Z.mod_mul (- (k / pageBytes pw)) (pageBytes pw)) by lia.
      rewrite <- (Z.add_0_l (- (k / pageBytes pw) * pageBytes pw)), <- Hph.
      rewrite Z.add_mod_idemp_l by lia. f_equal.
      pose proof (Z.div_mod k (pageBytes pw)). lia.
    + by rewrite <- app_assoc, take_drop.
    + intros Heq. apply (f_equal blen) in Heq. rewrite blen_drop in Heq by lia. lia.
Qed.

Lemma same_config_trans a b c : same_config a b -> same_config b c -> same_config a c.
Proof. unfold same_config. intuition congruence. Qed.

Lemma prefix_app_grow (q a b : bytes) : q `prefix_of` a -> q `prefix_of` a ++ b.
Proof. intros [c ->]. exists (c ++ b). by rewrite app_assoc. Qed.

Lemma prefix_app_keep (a q b : bytes) : q `prefix_of` b -> a ++ q `prefix_of` a ++ b.
Proof. apply prefix_app. Qed.

Lemma write_aligned_spec pw p n start :
  wf pw -> in_phase pw start -> (pageOffset pw + bufferedBytes pw) mod pageBytes pw = 0 ->
  exists pw' n' err, write_aligned pw p n = Some (pw', n', err) /\ wrote start pw p pw' err /\
    n <= n' <= n + blen p /\ (err = None -> n' = n + blen p).
Proof.
  intros Hwf Hph Hal. unfold write_aligned. pose proof (blen_nonneg p).
  destruct (Flush_spec pw start Hwf Hph) as (pw1 & err & -> & Hwf1 & Hs1 & Hb1 & Hg1 & Hr).
  cbn [mbind option_bind]. destruct err as [e|].
  { do 3 eexists. split; [reflexivity|]. split; [|split; [lia|done]].
    repeat (split; [done|]). by apply prefix_app_grow. }
  destruct Hr as (Hw1 & Hph1 & Ho1).
  destruct (write_pages_spec pw1 p n start Hwf1 Hph1 Hb1)
    as (pw2 & rest & n2 & err & -> & Hwf2 & Hs2 & Hb2 & Ho2 & Hg2 & Hr).
  cbn [mbind option_bind]. pose proof (same_config_trans _ _ _ Hs1 Hs2) as Hs.
  assert (Hg : written (w pw) `prefix_of` written (w pw2)) by (by etrans).
  destruct err as [e|].
  { destruct Hr as (Hn & Hw). do 3 eexists. split; [reflexivity|].
    split; [|split; [lia|done]]. repeat (split; [done|]). by rewrite <- Hw1. }
  destruct Hr as (Hph2 & Hrest & Hn & Hw2 & _). pose proof (blen_nonneg rest).
  assert (Hal2 : pageOffset pw2 mod pageBytes pw = 0) by (rewrite Ho2, Ho1; done).
  assert (Hst2 : stream pw2 ++ rest = stream pw ++ p).
  { unfold stream at 1. rewrite Hb2. change (Z.to_nat 0) with O.
    by rewrite take_0, app_nil_r, Hw2, Hw1. }
  destruct (0 <? blen rest) eqn:E; bool_hyps.
  - destruct (buffer_spec pw2 rest Hwf2) as (pw3 & -> & Hwf3 & Hs3 & Hst3 & Hw3 & Ho3 & Hb3).
    { right; right. rewrite (proj1 Hs). repeat split; [done..|]. by rewrite <- (proj1 Hs1). }
    cbn [mbind option_bind]. do 3 eexists. split; [reflexivity|]. split; [|split; lia].
    split; [done|]. split; [by eapply same_config_trans|]. rewrite Hw3. split; [done|].
    split; [by rewrite Hst3|].
    unfold in_phase. destruct Hs3 as [-> _]. rewrite Hw3, Ho3. split; [done|by right].
  - assert (rest = []) as -> by (destruct rest; [done|rewrite blen_cons in *; blia]).
    do 3 eexists. split; [reflexivity|]. split; [|split; lia].
    repeat (split; [done|]). rewrite app_nil_r in Hst2. split; [done|].
    split; [done|by right].
Qed.

(** Buffering a first part and then writing the rest writes the whole. *)
Lemma wrote_step start pw pw1 p q r pw' err :
  same_config pw pw1 -> stream pw1 = stream pw ++ q -> w pw1 = w pw ->
  wrote start pw1 r pw' err -> p = q ++ r -> wrote start pw p pw' err.
Proof.
  intros Hs Hst Hw (Hwf & Hs' & Hg & Hr) ->. rewrite Hw, Hst in *. split; [done|].
  split; [by eapply same_config_trans|]. split; [done|]. rewrite app_assoc.
  by rewrite (proj1 Hs) in Hr.
Qed.

Lemma Write_spec pw p start :
  wf pw -> in_phase pw start ->
  exists pw' n err, Write pw p = Some (pw', n, err) /\ wrote start pw p pw' err /\
    0 <= n <= blen p /\ (err = None -> n = blen p).
Proof.
  intros Hwf Hph. pose proof (blen_nonneg p). unfold Write.
  assert (Hwf' := Hwf). destruct Hwf' as (Hpb & Hwm & Hpo & Hlen & Hbb & Hfit).
  assert (Hbuf : forall q pw', wf pw' -> same_config pw pw' -> stream pw' = stream pw ++ q ->
    w pw' = w pw -> pageOffset pw' = pageOffset pw -> wrote start pw q pw' None).
  { intros q pw' ? Hs ? Hw Ho. unfold wrote, in_phase.
    rewrite (proj1 Hs), Hw, Ho. auto 7. }
  destruct (_ <=? _) eqn:E; bool_hyps.
  { destruct (buffer_spec pw p Hwf) as (pw' & -> & Hwf' & Hs & Hst & Hw & Ho & _); [lia|].
    cbn [mbind option_bind]. do 3 eexists. split; [reflexivity|]. split; [auto|split; [lia|done]]. }
  rewrite Z.rem_mod_nonneg by lia. set (m := _ mod _).
  pose proof (Z.mod_pos_bound (pageOffset pw + bufferedBytes pw) (pageBytes pw) Hpb) as Hm.
  fold m in Hm. destruct (_ =? _) eqn:Es; bool_hyps.
  { destruct (write_aligned_spec pw p 0 start Hwf Hph) as (pw' & n & err & -> & Hwr & Hn & Hok).
    { fold m. lia. }
    do 3 eexists. split; [reflexivity|]. split; [done|]. split; [lia|]. intros He. rewrite Hok; [lia|done]. }
  assert (Hto : to_page_end pw = pageBytes pw - m).
  { unfold to_page_end, m. rewrite Z.mod_opp_l_nz; [done|lia|]. fold m. lia. }
  destruct (_ <? _) eqn:Ep; bool_hyps.
  { rewrite slice_prefix, slice_from_drop by lia. rewrite take_blen. cbn [mbind option_bind].
    destruct (buffer_spec pw p Hwf) as (pw' & -> & Hwf' & Hs & Hst & Hw & Ho & _); [lia|].
    cbn [mbind option_bind]. do 3 eexists. split; [reflexivity|]. split; [auto|split; [lia|done]]. }
  set (k := pageBytes pw - m) in *. rewrite slice_prefix, slice_from_drop by lia.
  cbn [mbind option_bind]. assert (Hk : blen (take (Z.to_nat k) p) = k) by (apply blen_take; lia).
  destruct (buffer_spec pw (take (Z.to_nat k) p) Hwf)
    as (pw1 & -> & Hwf1 & Hs1 & Hst1 & Hw1 & Ho1 & Hb1); [lia|].
  cbn [mbind option_bind]. rewrite Hk in Hb1. specialize (Hbuf _ _ Hwf1 Hs1 Hst1 Hw1 Ho1).
  destruct (write_aligned_spec pw1 (drop (Z.to_nat k) p) k start Hwf1)
    as (pw' & n & err & -> & Hwr & Hn & Hok).
  - apply Hbuf.
  - rewrite (proj1 Hs1), Ho1, Hb1. unfold k, m.
    pose proof (Z.div_mod (pageOffset pw + bufferedBytes pw) (pageBytes pw)).
    apply Z.mod_divide; [lia|]. exists ((pageOffset pw + bufferedBytes pw) / pageBytes pw + 1). lia.
  - rewrite blen_drop in * by lia. do 3 eexists. split; [reflexivity|].
    split; [|split; [lia|intros He; rewrite Hok; [lia|done]]].
    eapply wrote_step; eauto. by rewrite take_drop.
Qed.

(** The device position after any number of writes is the old one or a page
    boundary. *)
Definition at_page_boundary (start : Z) (pw pw' : PageWriter W) : Prop :=
  written (w pw') = written (w pw) \/ (start + blen (written (w pw'))) mod pageBytes pw = 0.

Lemma phase_boundary pw start :
  0 < pageBytes pw -> in_phase pw start -> pageOffset pw mod pageBytes pw = 0 ->
  (start + blen (written (w pw))) mod pageBytes pw = 0.
Proof.
  unfold in_phase. intros Hpb Hph Ho. apply Z.mod_divide in Hph, Ho; [|lia..].
  apply Z.mod_divide; [lia|]. destruct Hph as [x Hx], Ho as [y Hy]. exists (y - x). lia.
Qed.

Lemma write_all_spec ps pw start :
  wf pw -> in_phase pw start ->
  exists pw' err, write_all pw ps = Some (pw', err) /\ wf pw' /\ same_config pw pw' /\
    written (w pw) `prefix_of` written (w pw') /\
    match err with
    | None => stream pw' = stream pw ++ concat ps /\ in_phase pw' start /\
        at_page_boundary start pw pw'
    | Some _ => written (w pw') `prefix_of` stream pw ++ concat ps
    end.
Proof.
  revert pw. induction ps as [|p ps IH]; intros pw Hwf Hph; cbn [write_all concat].
  { exists pw, None. rewrite app_nil_r. repeat (split; [done|]). by left. }
  destruct (Write_spec pw p start Hwf Hph) as (pw1 & n & err & -> & (Hwf1 & Hs1 & Hg1 & Hr) & _).
  cbn [mbind option_bind]. rewrite app_assoc. destruct err as [e|].
  { do 2 eexists. split; [reflexivity|]. repeat (split; [done|]). by apply prefix_app_grow. }
  destruct Hr as (Hst & Hph1 & Hal). destruct (IH pw1 Hwf1 Hph1) as (pw' & err & -> & Hwf' & Hs & Hg & Hr').
  do 2 eexists. split; [reflexivity|]. split; [done|]. split; [by eapply same_config_trans|].
  split; [by etrans|]. rewrite <- Hst. destruct err as [e|]; [done|].
  destruct Hr' as (Hst' & Hph' & Hal'). split; [done|]. split; [done|].
  destruct Hal' as [Hal'|Hal']; [|right; by rewrite <- (proj1 Hs1)].
  destruct Hal as [Hal|Hal]; [left; congruence|right].
  rewrite Hal', <- (proj1 Hs1). apply phase_boundary; [apply Hwf1|done|].
  by rewrite (proj1 Hs1).
Qed.

(** Whatever the device keeps across each write, the page writer keeps. *)
Section preserves.
Variable P : W -> Prop.
Hypothesis write_preserves : forall w p w' n err, P w -> write w p = (w', n, err) -> P w'.

Lemma Flush_preserves pw pw' err : P (w pw) -> Flush pw = Some (pw', err) -> P (w pw').
Proof.
  intros HP. unfold Flush. destruct (_ =? _); [by intros [= <- <-]|].
  destruct (slice _ _ _) as [p|]; cbn [mbind option_bind]; [|done].
  destruct (write _ _) as [[w' n] e] eqn:Ew. intros [= <- <-]. by eapply write_preserves.
Qed.

Lemma buffer_preserves pw p pw' : P (w pw) -> buffer pw p = Some pw' -> P (w pw').
Proof.
  intros HP. unfold buffer. destruct (copy_at _ _ _); cbn [mbind option_bind]; [|done].
  by intros [= <-].
Qed.

Lemma write_aligned_preserves pw p n pw' n' err :
  P (w pw) -> write_aligned pw p n = Some (pw', n', err) -> P (w pw').
Proof.
  intros HP. unfold write_aligned. destruct (Flush pw) as [[pw1 e1]|] eqn:Ef; cbn [mbind option_bind]; [|done].
  pose proof (Flush_preserves _ _ _ HP Ef) as HP1. destruct e1 as [e|]; [by intros [= <- <- <-]|].
  destruct (write_pages pw1 p n) as [[[[pw2 q] n2] e2]|] eqn:Ep; cbn [mbind option_bind]; [|done].
  assert (HP2 : P (w pw2)).
  { unfold write_pages in Ep. destruct (_ <? _); [|by injection Ep as <- <- <- <-].
    destruct (slice _ _ _); cbn [mbind option_bind] in Ep; [|done].
    destruct (write _ _) as [[w' c] we] eqn:Ew.
    assert (P w') by (by eapply write_preserves).
    destruct we; [by injection Ep as <- <- <- <-|].
    destruct (slice_from _ _); cbn [mbind option_bind] in Ep; [|done]. by injection Ep as <- <- <- <-. }
  destruct e2 as [e|]; [by intros [= <- <- <-]|]. destruct (0 <? _); [|by intros [= <- <- <-]].
  destruct (buffer pw2 q) eqn:Eb; cbn [mbind option_bind]; [|done]. intros [= <- <- <-].
  by eapply buffer_preserves.
Qed.

Lemma Write_preserves pw p pw' n err : P (w pw) -> Write pw p = Some (pw', n, err) -> P (w pw').
Proof.
  intros HP. unfold Write. destruct (_ <=? _).
  { destruct (buffer pw p) eqn:Eb; cbn [mbind option_bind]; [|done]. intros [= <- <- <-].
    by eapply buffer_preserves. }
  destruct (_ =? _); [by apply write_aligned_preserves|].
  destruct (slice _ _ _) as [q|]; cbn [mbind option_bind]; [|done].
  destruct (buffer pw q) eqn:Eb; cbn [mbind option_bind]; [|done].
  destruct (slice_from _ _); cbn [mbind option_bind]; [|done].
  pose proof (buffer_preserves _ _ _ HP Eb). destruct (_ <? _); [by intros [= <- <- <-]|].
  by apply write_aligned_preserves.
Qed.
End preserves.

(** C32: A page writer over any device that keeps the [io.Writer] contract is
    transparent: after any sequence of writes without error the device is where
    it was or at a page boundary, and a successful flush leaves on it exactly
    the bytes it had followed by all the writes, in order; whenever an error is
    reported the device holds a prefix of that. No operation panics. *)
Theorem buffered_writes_refine (w0 : W) (pb po bs : Z) (ps : list bytes) :
  0 <= po ->
  let pw := NewPageWriter w0 pb po bs in
  let all := written w0 ++ concat ps in
  exists pw' err, write_all pw ps = Some (pw', err) /\
    written w0 `prefix_of` written (w pw') /\ written (w pw') `prefix_of` all /\
    (err = None ->
     at_page_boundary (po - blen (written w0)) pw pw' /\
     exists pw2 err2, Flush pw' = Some (pw2, err2) /\
       match err2 with
       | None => written (w pw2) = all
       | Some _ => written (w pw2) `prefix_of` all
       end).
Proof.
  intros Hpo pw all.
  destruct (write_all_spec ps pw _ (NewPageWriter_wf w0 pb po bs Hpo) (NewPageWriter_in_phase w0 pb po bs))
    as (pw' & err & Hw & Hwf & _ & Hg & Hr).
  unfold pw in Hr. rewrite NewPageWriter_stream in Hr. fold pw all in Hr.
  exists pw', err. split; [done|]. split; [done|]. destruct err as [e|]; [done|].
  destruct Hr as (Hst & Hph & Hal). rewrite <- Hst. split; [by eexists|]. intros _.
  split; [done|]. destruct (Flush_spec pw' _ Hwf Hph) as (pw2 & err2 & Hf & _ & _ & _ & _ & Hr).
  exists pw2, err2. split; [done|]. by destruct err2; [|destruct Hr].
Qed.
End page_writer.

Lemma buffered_writes_refine_witness :
  let f := mkFile [] 0 20 true in
  0 <= 4 /\
  exists pw', write_all (NewPageWriter f 8 4 16) [replicate 10 x01; replicate 9 x02] = Some (pw', None) /\
    content (w pw') = replicate 10 x01 ++ replicate 2 x02 /\
    at_page_boundary 4 (NewPageWriter f 8 4 16) pw'.
Proof.
  intros f. split; [lia|].
  destruct (buffered_writes_refine f 8 4 16 [replicate 10 x01; replicate 9 x02] ltac:(lia))
    as (pw' & err & Hw & _ & _ & Hok).
  vm_compute in Hw. injection Hw as Hp He. exists pw'. subst pw' err.
  split; [reflexivity|]. split; [vm_compute; reflexivity|]. by apply Hok.
Defined.
