(* ===== verification/Proto.v ===== *)
(** Protocol-buffer messages.  The generated code and the protobuf runtime are
    not part of the program: a message type comes with a [Codec], and each
    package states the laws it relies on as a class of its own (marshalling is
    inverted by unmarshalling, the empty string is the message of all
    defaults).

    The second half is the proto3 wire format for varint and length-delimited
    fields numbered below 16; it gives the concrete codecs at which the
    theorems are instantiated. *)
From S2P Require Import Prelude Binary.

(** ** The interface *)

(** [proto.Marshal] and [proto.Unmarshal]; [None] is an error. *)
Class Codec (M : Type) := {
  Marshal : M -> option bytes;
  Unmarshal : bytes -> option M }.

(** ** The wire format *)

Inductive field_value : Type :=
| Varint (v : Z)
| Len (b : bytes).

(** A field: its number and its value. *)
Definition field : Type := Z * field_value.

Definition field_ok (f : field) : Prop :=
  1 <= f.1 < 16 /\
  match f.2 with Varint v => 0 <= v < 2 ^ 64 | Len b => blen b < 2 ^ 64 end.

Definition field_encode (f : field) : bytes :=
  match f.2 with
  | Varint v => z2b (f.1 * 8) :: put_uvarint v
  | Len b => z2b (f.1 * 8 + 2) :: put_uvarint (blen b) ++ b
  end.

Definition wire_encode (fs : list field) : bytes := concat (map field_encode fs).

(** One field from the front of the input. *)
Definition field_decode (b : bytes) : option (field * bytes) :=
  match b with
  | [] => None
  | tag :: b =>
      let '(v, n) := uvarint b in
      if n <=? 0 then None
      else
        rest ← slice_from b n;
        if b2z tag mod 8 =? 0 then Some ((b2z tag / 8, Varint v), rest)
        else if b2z tag mod 8 =? 2 then
          d ← slice rest 0 v; rest ← slice_from rest v; Some ((b2z tag / 8, Len d), rest)
        else None
  end.

Fixpoint wire_decode_loop (fuel : nat) (b : bytes) : option (list field) :=
  match b, fuel with
  | [], _ => Some []
  | _, O => None
  | _, S fuel =>
      '(f, rest) ← field_decode b; fs ← wire_decode_loop fuel rest; Some (f :: fs)
  end.

(** Every field takes at least one byte: the length of the input is enough. *)
Definition wire_decode (b : bytes) : option (list field) := wire_decode_loop (length b) b.

(** The last value of a field; absent fields have the default. *)
Definition get_varint (fs : list field) (n : Z) : Z :=
  foldl (fun d f => match f with
                    | (k, Varint v) => if k =? n then v else d
                    | _ => d end) 0 fs.
Definition get_len (fs : list field) (n : Z) : bytes :=
  foldl (fun d f => match f with
                    | (k, Len b) => if k =? n then b else d
                    | _ => d end) [] fs.
Definition get_lens (fs : list field) (n : Z) : list bytes :=
  omap (fun f => match f with
                 | (k, Len b) => if k =? n then Some b else None
                 | _ => None end) fs.

(** Scalar fields are left out when they have the default value. *)
Definition put_varint (n v : Z) : list field := if v =? 0 then [] else [(n, Varint v)].
Definition put_len (n : Z) (b : bytes) : list field :=
  match b with [] => [] | _ => [(n, Len b)] end.

(** ** Lemmas *)

Lemma field_decode_encode f rest :
  field_ok f -> field_decode (field_encode f ++ rest) = Some (f, rest).
Proof.
  destruct f as [n v]. intros [Hn Hv]. unfold field_encode, field_decode. cbn [fst snd] in *.
  destruct v as [v|b]; cbn [app].
  - rewrite uvarint_put_app by done. pose proof (blen_put_uvarint v).
    rewrite (proj2 (Z.leb_gt _ _)) by lia. rewrite slice_from_app by done.
    cbn [mbind option_bind]. rewrite b2z_z2b_small by lia.
    by rewrite Z.mod_mul, Z.div_mul by lia.
  - rewrite <- app_assoc, uvarint_put_app by (split; [apply blen_nonneg|done]).
    pose proof (blen_put_uvarint (blen b)). pose proof (blen_nonneg b). pose proof (blen_nonneg rest).
    rewrite (proj2 (Z.leb_gt _ _)) by lia. rewrite slice_from_app by done.
    cbn [mbind option_bind]. rewrite b2z_z2b_small by lia.
    rewrite (Z.add_comm (n * 8)), Z.mod_add, Z.div_add by lia. change (2 mod 8 =? 0) with false.
    change (2 mod 8 =? 2) with true. cbn [andb]. cbv iota.
    rewrite slice_prefix by (rewrite blen_app; lia).
    rewrite take_blen_app. cbn [mbind option_bind].
    rewrite slice_from_app by done. cbn [mbind option_bind].
    change (2 / 8) with 0. by rewrite Z.add_0_l.
Qed.

Lemma field_encode_nonempty f : field_encode f <> [].
Proof. destruct f as [n []]; done. Qed.

Lemma wire_decode_loop_encode fs fuel :
  Forall field_ok fs -> (length (wire_encode fs) <= fuel)%nat ->
  wire_decode_loop fuel (wire_encode fs) = Some fs.
Proof.
  revert fuel. induction fs as [|f fs IH]; intros fuel Hok Hl; [by destruct fuel|].
  apply Forall_cons in Hok as [Hf Hfs]. change (wire_encode (f :: fs)) with
    (field_encode f ++ wire_encode fs) in *.
  pose proof (field_decode_encode f (wire_encode fs) Hf) as Hd.
  pose proof (field_encode_nonempty f) as Hne. rewrite length_app in Hl.
  destruct (field_encode f) as [|x e] eqn:E; [done|]. cbn [length app] in *.
  destruct fuel as [|fuel]; [lia|]. cbn [wire_decode_loop]. rewrite Hd.
  cbn [mbind option_bind]. rewrite IH by (done || lia). done.
Qed.

Lemma wire_decode_encode fs : Forall field_ok fs -> wire_decode (wire_encode fs) = Some fs.
Proof. intros. by apply wire_decode_loop_encode. Qed.

Lemma put_varint_ok n v : 1 <= n < 16 -> 0 <= v < 2 ^ 64 -> Forall field_ok (put_varint n v).
Proof. intros. unfold put_varint. destruct (v =? 0); repeat constructor; cbn; lia. Qed.

Lemma put_len_ok n b : 1 <= n < 16 -> blen b < 2 ^ 64 -> Forall field_ok (put_len n b).
Proof. intros. unfold put_len. destruct b; repeat constructor; cbn; try done; lia. Qed.

Lemma put_varint_size n v : 0 <= blen (wire_encode (put_varint n v)) <= 11.
Proof.
  unfold put_varint, wire_encode. destruct (v =? 0); [done|].
  cbn [map concat]. unfold field_encode. cbn [snd fst].
  rewrite app_nil_r, blen_cons. pose proof (blen_put_uvarint v). lia.
Qed.

Lemma put_len_size n b : blen b <= blen (wire_encode (put_len n b)) <= blen b + 11.
Proof.
  unfold put_len, wire_encode. destruct b as [|x b]; [done|].
  set (y := x :: b). cbn [map concat]. unfold field_encode. cbn [snd fst].
  rewrite app_nil_r, blen_cons, blen_app. pose proof (blen_put_uvarint (blen y)). lia.
Qed.
