(* ===== verification/Crc.v ===== *)
(** Package [crc] ([pkg/crc/crc.go]): the seedable CRC-32C digest that the
    WAL chains across records and segments, together with the table-driven
    update of Go's [hash/crc32] it calls.

    The theorems show that a digest is a function of the concatenation of the
    data written to it, that the update is injective in the seed (so a chain
    never forgets an earlier difference), and that a change confined to one
    byte is always detected. *)
From S2P Require Import Prelude.

(** ** Standard library: [hash/crc32] *)

(** The reversed Castagnoli polynomial. *)
Definition castagnoli : Z := 0x82F63B78.

(** One bit of [crc32.simplePopulateTable]. *)
Definition table_step (c : Z) : Z :=
  if Z.land c 1 =? 1 then Z.lxor (Z.shiftr c 1) castagnoli else Z.shiftr c 1.

Definition makeTable : list Z :=
  map (fun i => Nat.iter 8 table_step (Z.of_nat i)) (seq 0 256).

(** [crc32.MakeTable(crc32.Castagnoli)]. *)
Definition crcTable : list Z := Eval vm_compute in makeTable.

Definition all_ones32 : Z := 0xFFFFFFFF.

(** One byte of [crc32.simpleUpdate]: [tab[byte(crc)^v] ^ (crc >> 8)]. *)
Definition update_byte (tab : list Z) (crc : Z) (v : byte) : Z :=
  Z.lxor (tab !!! Z.to_nat (Z.lxor (Z.land crc 255) (b2z v))) (Z.shiftr crc 8).

(** [crc32.Update]. *)
Definition crc32_update (crc : Z) (tab : list Z) (p : bytes) : Z :=
  Z.lxor (foldl (update_byte tab) (Z.lxor crc all_ones32) p) all_ones32.

(** ** The digest *)

Module Digest.

Record digest : Type := mkDigest { crc : Z; tab : list Z }.

Definition Size : Z := 4.
Definition BlockSize (d : digest) : Z := 1.

Definition New (prev : Z) (tab : list Z) : digest := mkDigest prev tab.

Definition Reset (d : digest) : digest := mkDigest 0 (tab d).

(** [Write] never fails; it returns the number of bytes consumed. *)
Definition Write (d : digest) (p : bytes) : digest * Z :=
  (mkDigest (crc32_update (crc d) (tab d) p) (tab d), blen p).

Definition Sum32 (d : digest) : Z := crc d.

Definition Sum (d : digest) (b : bytes) : bytes :=
  let s := Sum32 d in
  b ++ [z2b (Z.shiftr s 24); z2b (Z.shiftr s 16); z2b (Z.shiftr s 8); z2b s].

(** Writing a sequence of buffers one after the other. *)
Definition write_all (d : digest) (ps : list bytes) : digest :=
  foldl (fun d p => (Write d p).1) d ps.

End Digest.

(** ** Table facts *)

Lemma crcTable_length : length crcTable = 256%nat.
Proof. done. Qed.

Lemma crcTable_bounds x : x ∈ crcTable -> 0 <= x < 2 ^ 32.
Proof.
  assert (Forall (fun x => 0 <= x < 2 ^ 32) crcTable) as H.
  { apply (bool_decide_unpack _). vm_compute. exact I. }
  rewrite Forall_forall in H. apply H.
Qed.

(** The top bytes of the 256 entries are pairwise distinct. *)
Lemma crcTable_top_nodup : NoDup (map (fun x => Z.shiftr x 24) crcTable).
Proof. apply (bool_decide_unpack _). vm_compute. exact I. Qed.

Lemma crcTable_lookup i : 0 <= i < 256 -> crcTable !! Z.to_nat i = Some (crcTable !!! Z.to_nat i).
Proof.
  intros Hi. apply list_lookup_lookup_total_lt. rewrite crcTable_length. lia.
Qed.

Lemma crcTable_entry_bounds i : 0 <= i < 256 -> 0 <= crcTable !!! Z.to_nat i < 2 ^ 32.
Proof.
  intros Hi. apply crcTable_bounds. apply list_elem_of_lookup. exists (Z.to_nat i).
  by apply crcTable_lookup.
Qed.

Lemma crcTable_top_inj i j :
  0 <= i < 256 -> 0 <= j < 256 ->
  Z.shiftr (crcTable !!! Z.to_nat i) 24 = Z.shiftr (crcTable !!! Z.to_nat j) 24 -> i = j.
Proof.
  intros Hi Hj E. apply Z2Nat.inj; [lia..|].
  eapply (NoDup_lookup _ _ _ (Z.shiftr (crcTable !!! Z.to_nat i) 24) crcTable_top_nodup);
    rewrite list_lookup_fmap, crcTable_lookup by done; cbn; congruence.
Qed.

(** ** One step *)

Lemma update_index_bounds c v : 0 <= Z.lxor (Z.land c 255) (b2z v) < 256.
Proof.
  change 256 with (2 ^ 8). apply lxor_bounds; [lia| |apply b2z_bounds].
  change 255 with (2 ^ 8 - 1). rewrite land_ones_low by lia. apply Z.mod_pos_bound. lia.
Qed.

Lemma shiftr_bounds c n k : 0 <= k <= n -> 0 <= c < 2 ^ n -> 0 <= Z.shiftr c k < 2 ^ (n - k).
Proof.
  intros Hk Hc. rewrite Z.shiftr_div_pow2 by lia. split.
  - apply Z.div_pos; [lia|]. apply Z.pow_pos_nonneg; lia.
  - apply Z.div_lt_upper_bound; [apply Z.pow_pos_nonneg; lia|].
    rewrite <- Z.pow_add_r by lia. replace (k + (n - k)) with n by lia. lia.
Qed.

Lemma update_byte_bounds c v : 0 <= c < 2 ^ 32 -> 0 <= update_byte crcTable c v < 2 ^ 32.
Proof.
  intros Hc. apply lxor_bounds; [lia|apply crcTable_entry_bounds, update_index_bounds|].
  pose proof (shiftr_bounds c 32 8 ltac:(lia) Hc). change (2 ^ (32 - 8)) with (2 ^ 24) in *. lia.
Qed.

(** The table index a step used can be read off the top byte of its result. *)
Lemma update_byte_index c v c' v' :
  0 <= c < 2 ^ 32 -> 0 <= c' < 2 ^ 32 ->
  update_byte crcTable c v = update_byte crcTable c' v' ->
  Z.lxor (Z.land c 255) (b2z v) = Z.lxor (Z.land c' 255) (b2z v') /\
  Z.shiftr c 8 = Z.shiftr c' 8.
Proof.
  intros Hc Hc' E.
  assert (Hz : forall x, 0 <= x < 2 ^ 32 -> Z.shiftr (Z.shiftr x 8) 24 = 0).
  { intros x Hx. rewrite Z.shiftr_shiftr by lia. pose proof (shiftr_bounds x 32 32 ltac:(lia) Hx).
    change (8 + 24) with 32. change (2 ^ (32 - 32)) with 1 in *. lia. }
  assert (Hi : Z.lxor (Z.land c 255) (b2z v) = Z.lxor (Z.land c' 255) (b2z v')).
  { apply crcTable_top_inj; [apply update_index_bounds..|].
    apply (f_equal (fun x => Z.shiftr x 24)) in E. unfold update_byte in E.
    by rewrite !Z.shiftr_lxor, !Hz, !Z.lxor_0_r in E. }
  split; [done|]. unfold update_byte in E. rewrite Hi in E. by apply lxor_cancel_l in E.
Qed.

Lemma update_byte_inj_crc c c' v :
  0 <= c < 2 ^ 32 -> 0 <= c' < 2 ^ 32 ->
  update_byte crcTable c v = update_byte crcTable c' v -> c = c'.
Proof.
  intros Hc Hc' E. destruct (update_byte_index _ _ _ _ Hc Hc' E) as [Hi Hs].
  apply lxor_cancel_r in Hi. change 255 with (2 ^ 8 - 1) in Hi.
  rewrite !land_ones_low in Hi by lia. rewrite !Z.shiftr_div_pow2 in Hs by lia.
  rewrite (Z.div_mod c (2 ^ 8)), (Z.div_mod c' (2 ^ 8)) by lia. congruence.
Qed.

Lemma update_byte_inj_byte c v v' :
  0 <= c < 2 ^ 32 -> update_byte crcTable c v = update_byte crcTable c v' -> v = v'.
Proof.
  intros Hc E. destruct (update_byte_index _ _ _ _ Hc Hc E) as [Hi _].
  apply lxor_cancel_l in Hi. by apply b2z_inj.
Qed.

(** ** Whole buffers *)

Lemma fold_update_bounds p c :
  0 <= c < 2 ^ 32 -> 0 <= foldl (update_byte crcTable) c p < 2 ^ 32.
Proof. revert c. induction p; cbn; auto using update_byte_bounds. Qed.

Lemma fold_update_inj p c c' :
  0 <= c < 2 ^ 32 -> 0 <= c' < 2 ^ 32 ->
  foldl (update_byte crcTable) c p = foldl (update_byte crcTable) c' p -> c = c'.
Proof.
  revert c c'. induction p as [|v p IH]; cbn; [done|]. intros c c' Hc Hc' E.
  apply IH in E; auto using update_byte_bounds. by eapply update_byte_inj_crc.
Qed.

Lemma xor_ones_bounds c : 0 <= c < 2 ^ 32 -> 0 <= Z.lxor c all_ones32 < 2 ^ 32.
Proof. intros. by apply lxor_bounds. Qed.

Lemma crc32_update_bounds c p : 0 <= c < 2 ^ 32 -> 0 <= crc32_update c crcTable p < 2 ^ 32.
Proof. intros. by apply xor_ones_bounds, fold_update_bounds, xor_ones_bounds. Qed.

Lemma crc32_update_nil c tab : crc32_update c tab [] = c.
Proof. unfold crc32_update. cbn. by rewrite Z.lxor_assoc, Z.lxor_nilpotent, Z.lxor_0_r. Qed.

Lemma crc32_update_app c tab p q :
  crc32_update (crc32_update c tab p) tab q = crc32_update c tab (p ++ q).
Proof.
  unfold crc32_update.
  by rewrite foldl_app, (Z.lxor_assoc _ all_ones32 all_ones32), Z.lxor_nilpotent, Z.lxor_0_r.
Qed.

Lemma crc32_update_inj c c' p :
  0 <= c < 2 ^ 32 -> 0 <= c' < 2 ^ 32 ->
  crc32_update c crcTable p = crc32_update c' crcTable p -> c = c'.
Proof.
  intros Hc Hc' E. unfold crc32_update in E. apply lxor_cancel_r in E.
  apply fold_update_inj in E; auto using xor_ones_bounds. by apply lxor_cancel_r in E.
Qed.

Lemma crc32_update_byte c p q x y :
  0 <= c < 2 ^ 32 ->
  crc32_update c crcTable (p ++ x :: q) = crc32_update c crcTable (p ++ y :: q) -> x = y.
Proof.
  intros Hc E. unfold crc32_update in E. apply lxor_cancel_r in E.
  rewrite !foldl_app in E. cbn in E.
  set (d := foldl _ _ p) in E.
  assert (0 <= d < 2 ^ 32) by (apply fold_update_bounds, xor_ones_bounds; done).
  apply fold_update_inj in E; auto using update_byte_bounds.
  by eapply update_byte_inj_byte.
Qed.

(** ** Theorems *)

Lemma write_all_crc ps d :
  Digest.crc (Digest.write_all d ps) = crc32_update (Digest.crc d) (Digest.tab d) (concat ps)
  /\ Digest.tab (Digest.write_all d ps) = Digest.tab d.
Proof.
  revert d. induction ps as [|p ps IH]; intros d.
  - cbn. by rewrite crc32_update_nil.
  - change (Digest.write_all d (p :: ps)) with (Digest.write_all (Digest.Write d p).1 ps).
    destruct (IH (Digest.Write d p).1) as [-> ->]. cbn. by rewrite crc32_update_app.
Qed.

(** The check value of CRC-32C: the CRC of the ASCII string [123456789]. *)
Example crc32c_check :
  crc32_update 0 crcTable (map (fun i => z2b (49 + Z.of_nat i)) (seq 0 9)) = 0xE3069283.
Proof. vm_compute. reflexivity. Qed.

(** ** Properties *)

(** Writing buffers one after the other gives the CRC of their
    concatenation, whatever the seed; the running value stays a [uint32] and
    the table never changes.  This is the chaining the WAL relies on: the CRC
    stored in a record covers all the data since the segment's checkpoint. *)
Theorem digest_chains (ps : list bytes) (prev : Z) :
  0 <= prev < 2 ^ 32 ->
  let d := Digest.write_all (Digest.New prev crcTable) ps in
  Digest.Sum32 d = crc32_update prev crcTable (concat ps) /\
  0 <= Digest.Sum32 d < 2 ^ 32 /\ Digest.tab d = crcTable.
Proof.
  intros Hp d. destruct (write_all_crc ps (Digest.New prev crcTable)) as [H1 H2].
  split; [exact H1|]. split; [|exact H2].
  unfold Digest.Sum32, d. rewrite H1. by apply crc32_update_bounds.
Qed.

Lemma digest_chains_witness :
  0 <= 7 < 2 ^ 32 /\
  Digest.Sum32 (Digest.write_all (Digest.New 7 crcTable) [[x31]; [x32; x33]]) =
    crc32_update 7 crcTable (concat [[x31]; [x32; x33]]).
Proof. split; [lia|]. apply (digest_chains [[x31]; [x32; x33]] 7). lia. Defined.

(** C37: The checksum detects every change confined to one byte of the data, and
    two chains that differ before a buffer still differ after it: no later
    record can make a chain forget an earlier difference. *)
Theorem digest_detects (prev prev' : Z) (p q : bytes) (x y : byte) :
  0 <= prev < 2 ^ 32 -> 0 <= prev' < 2 ^ 32 ->
  (x <> y ->
   Digest.Sum32 (Digest.Write (Digest.New prev crcTable) (p ++ x :: q)).1 <>
   Digest.Sum32 (Digest.Write (Digest.New prev crcTable) (p ++ y :: q)).1) /\
  (prev <> prev' ->
   Digest.Sum32 (Digest.Write (Digest.New prev crcTable) p).1 <>
   Digest.Sum32 (Digest.Write (Digest.New prev' crcTable) p).1).
Proof.
  intros Hp Hp'. split; intros Hne E; apply Hne.
  - exact (crc32_update_byte prev p q x y Hp E).
  - exact (crc32_update_inj prev prev' p Hp Hp' E).
Qed.

Lemma digest_detects_witness :
  0 <= 0 < 2 ^ 32 /\ 0 <= 1 < 2 ^ 32 /\
  Digest.Sum32 (Digest.Write (Digest.New 0 crcTable) [x61; x62]).1 <>
  Digest.Sum32 (Digest.Write (Digest.New 0 crcTable) [x61; x63]).1.
Proof.
  split; [lia|]. split; [lia|].
  apply (digest_detects 0 1 [x61] [] x62 x63); [lia|lia|discriminate].
Defined.
