(* ===== verification/Walpb.v ===== *)
(** Package [walpb] ([pkg/wal/walpb/types.go]): the log's record types and
    marshalling.  [Record] and [Snapshot] are generated messages; their codec
    is a parameter wherever they are used, instantiated here by the proto3
    wire format. *)
From S2P Require Import Prelude Binary Proto.

Definition CrcType : Z := 1.
Definition SnapshotType : Z := 2.
Definition DataType : Z := 3.

Record Record_ : Type := mkRecord { Type_ : Z; Crc : Z; Data : bytes }.
Record Snapshot : Type := mkSnapshot { Offset : Z; Metadata : bytes }.

Definition set_crc (r : Record_) (c : Z) : Record_ := mkRecord (Type_ r) c (Data r).

(** [MarshalAppend(buf, rec)]. *)
Definition MarshalAppend `{Codec Record_} (buf : bytes) (rec : Record_) : option bytes :=
  b ← Marshal rec; Some (buf ++ b).

(** What the log relies on of the record codec: the round trip, that every
    record whose fields are in range is accepted, that the empty string is the
    zero record, and that the three tags, the two integers and the length take
    at most 40 bytes beside the data. *)
Definition record_ok (r : Record_) : Prop :=
  0 <= Type_ r < 2 ^ 63 /\ 0 <= Crc r < 2 ^ 32 /\ blen (Data r) < 2 ^ 30.
Definition snapshot_ok (s : Snapshot) : Prop :=
  0 <= Offset s < 2 ^ 64 /\ blen (Metadata s) < 2 ^ 30.
Definition zero_record : Record_ := mkRecord 0 0 [].

Class RecordCodec `{Codec Record_} : Prop := {
  record_roundtrip r b : record_ok r -> Marshal r = Some b -> Unmarshal b = Some r;
  record_marshals r : record_ok r -> exists b, Marshal r = Some b;
  record_nil : Unmarshal [] = Some zero_record;
  record_size r b : record_ok r -> Marshal r = Some b ->
    blen (Data r) <= blen b <= blen (Data r) + 40 }.

(** ** The wire-format codecs *)

Module Wire.
Definition record_fields (r : Record_) : list field :=
  put_varint 1 (Type_ r) ++ put_varint 2 (Crc r) ++ put_len 3 (Data r).

#[export] Instance record_codec : Codec Record_ := {|
  Marshal r := Some (wire_encode (record_fields r));
  Unmarshal b :=
    fs ← wire_decode b; Some (mkRecord (get_varint fs 1) (get_varint fs 2) (get_len fs 3)) |}.

Definition snapshot_fields (s : Snapshot) : list field :=
  put_varint 1 (Offset s) ++ put_len 2 (Metadata s).

#[export] Instance snapshot_codec : Codec Snapshot := {|
  Marshal s := Some (wire_encode (snapshot_fields s));
  Unmarshal b := fs ← wire_decode b; Some (mkSnapshot (get_varint fs 1) (get_len fs 2)) |}.

#[export] Instance record_codec_laws : RecordCodec.
Proof.
  split; [|by eexists|done|].
  2:{ intros r b (Ht & Hc & Hd) [= <-]. unfold record_fields, wire_encode.
    rewrite !map_app, !concat_app, !blen_app.
    pose proof (put_varint_size 1 (Type_ r)). pose proof (put_varint_size 2 (Crc r)).
    pose proof (put_len_size 3 (Data r)). unfold wire_encode in *. lia. }
  intros r b (Ht & Hc & Hd) [= <-]. cbn [Unmarshal record_codec].
  rewrite wire_decode_encode.
  - cbn [mbind option_bind]. destruct r as [t c [|x d]]; unfold record_fields, put_varint; cbn in *;
      destruct (t =? 0) eqn:Et, (c =? 0) eqn:Ec; bool_hyps; subst; done.
  - unfold record_fields. rewrite !Forall_app. pose proof (blen_nonneg (Data r)).
    repeat split; [apply put_varint_ok|apply put_varint_ok|apply put_len_ok]; lia.
Qed.
End Wire.

Lemma MarshalAppend_nil `{Codec Record_} r : MarshalAppend [] r = Marshal r.
Proof. unfold MarshalAppend. by destruct (Marshal r). Qed.

Lemma marshal_nonempty `{RecordCodec} r b :
  record_ok r -> Marshal r = Some b -> Type_ r <> 0 -> b <> [].
Proof.
  intros Hok Hm Ht ->. pose proof (record_roundtrip _ _ Hok Hm) as E.
  rewrite record_nil in E. by injection E as <-.
Qed.
