(* ===== verification/Encoder.v ===== *)
(** The record encoder of the log ([pkg/wal/encoder.go]): frames with a length
    field, 8-byte padding and a running CRC, over the page writer.  [frame] is
    the encoding of one record as a function; [Encode] appends exactly that to
    the stream of the page writer. *)
From S2P Require Import Prelude Binary Io PageWriter Proto Walpb Crc.

(** The errors of the package: the sentinels of [errors.go], the encoder's
    and WAL's own messages, and the wrapped errors of the layers below. *)
Inductive wal_error : Type :=
| ErrClosed
| ErrCRCMismatch
| ErrCorrupted
| ErrMarshal
| ErrCrcNotSet
| ErrNilSnapshot
| ErrIo_ (e : io_error).

#[export] Instance wal_error_eq_dec : EqDecision wal_error.
Proof. solve_decision. Defined.

Definition frameSizeBytes : Z := 8.
Definition minSectorSize : Z := 512.
Definition walPageBytes : Z := 8 * minSectorSize.

(** The length field and the padding: the low 56 bits hold the length, the top
    byte is [0x80 | padBytes] when there is padding. *)
Definition encodeFrameSize (dataBytes : Z) : Z * Z :=
  let lenField := u64 dataBytes in
  let padBytes := Z.rem (8 - Z.rem dataBytes 8) 8 in
  (if padBytes =? 0 then lenField
   else Z.lor lenField (u64 (Z.shiftl (Z.lor 0x80 padBytes) 56)), padBytes).

Record Encoder (W : Type) : Type := mkEncoder {
  pw : PageWriter W;
  crc : Digest.digest;
  offset : Z }.
Arguments mkEncoder {W}.
Arguments pw {W}.
Arguments crc {W}.
Arguments offset {W}.

Section encoder.
Context {W : Type} {writer : Writer W} {codec : Codec Record_}.

Definition NewEncoder (w : W) (prevCrc pageOffset bufferSize : Z) : Encoder W :=
  {| pw := NewPageWriter w walPageBytes pageOffset bufferSize;
     crc := Digest.New prevCrc crcTable;
     offset := pageOffset |}.

Definition set_pw (e : Encoder W) (p : PageWriter W) : Encoder W :=
  mkEncoder p (crc e) (offset e).

(** The encoder's padding buffer, never written to. *)
Definition padBuf : bytes := replicate 8 x00.

(** [Encode]: the encoder and the record afterwards, and the offset of the
    record or an error.  The record's [Crc] field is set in place. *)
Definition Encode (e : Encoder W) (rec : Record_)
    : option (Encoder W * Record_ * (wal_error + Z)) :=
  let crc' := (Digest.Write (crc e) (Data rec)).1 in
  let e := mkEncoder (pw e) crc' (offset e) in
  let rec := set_crc rec (Digest.Sum32 crc') in
  match MarshalAppend [] rec with
  | None => Some (e, rec, inl ErrMarshal)
  | Some data =>
      let '(lenField, padBytes) := encodeFrameSize (blen data) in
      let startOffset := offset e in
      '(p, _, err) ← Write (pw e) (put_le64 lenField);
      let e := set_pw e p in
      match err with
      | Some x => Some (e, rec, inl (ErrIo_ x))
      | None =>
          '(p, _, err) ← Write (pw e) data;
          let e := set_pw e p in
          match err with
          | Some x => Some (e, rec, inl (ErrIo_ x))
          | None =>
              '(p, err) ←
                (if 0 <? padBytes
                 then pad ← slice padBuf 0 padBytes;
                      '(p, _, err) ← Write (pw e) pad; Some (p, err)
                 else Some (pw e, None));
              let e := set_pw e p in
              match err with
              | Some x => Some (e, rec, inl (ErrIo_ x))
              | None =>
                  Some (mkEncoder (pw e) (crc e) (offset e + (frameSizeBytes + blen data + padBytes)),
                        rec, inr startOffset)
              end
          end
      end
  end.

Definition Flush (e : Encoder W) : option (Encoder W * option io_error) :=
  '(p, err) ← PageWriter.Flush (pw e); Some (set_pw e p, err).

Definition CRC (e : Encoder W) : Z := Digest.Sum32 (crc e).
Definition Offset (e : Encoder W) : Z := offset e.

(** ** Specification *)

(** The bytes of one record on disk. *)
Definition frame_of (data : bytes) : bytes :=
  let '(lenField, padBytes) := encodeFrameSize (blen data) in
  put_le64 lenField ++ data ++ replicate (Z.to_nat padBytes) x00.
End encoder.

(** ** The length field *)

Lemma pad_spec n : 0 <= n ->
  let pad := (encodeFrameSize n).2 in 0 <= pad < 8 /\ (n + pad) mod 8 = 0.
Proof.
  intros Hn. cbn. pose proof (Z.mod_pos_bound n 8 ltac:(lia)).
  rewrite (Z.rem_mod_nonneg n 8), (Z.rem_mod_nonneg (8 - n mod 8) 8) by lia.
  pose proof (Z.mod_pos_bound (8 - n mod 8) 8 ltac:(lia)). split; [lia|].
  pose proof (Z.div_mod n 8 ltac:(lia)). pose proof (Z.div_mod (8 - n mod 8) 8 ltac:(lia)).
  apply Z.mod_divide; [lia|]. exists (n / 8 + 1 - (8 - n mod 8) / 8). lia.
Qed.

Lemma lenField_spec n : 0 <= n < 2 ^ 56 ->
  let '(lenField, pad) := encodeFrameSize n in
  lenField = n + (if pad =? 0 then 0 else (128 + pad) * 2 ^ 56).
Proof.
  intros Hn. pose proof (pad_spec n ltac:(lia)) as [Hp _]. unfold encodeFrameSize in *.
  cbn [snd] in Hp. set (pad := Z.rem _ _) in *. rewrite u64_small by lia.
  destruct (pad =? 0) eqn:E; [lia|]. bool_hyps.
  assert (H128 : Z.lor 128 pad = 128 + pad).
  { change 128 with (Z.shiftl 1 7) at 1. rewrite Z.lor_comm, lor_shiftl_add by lia. lia. }
  rewrite H128, u64_small, lor_shiftl_add; rewrite ?Z.shiftl_mul_pow2; lia.
Qed.

Lemma blen_frame_of data :
  blen (frame_of data) = 8 + blen data + (encodeFrameSize (blen data)).2.
Proof.
  unfold frame_of. pose proof (pad_spec (blen data) (blen_nonneg _)) as [Hp _].
  destruct (encodeFrameSize (blen data)) as [l p]. cbn [snd] in *.
  rewrite !blen_app, blen_put_le64, blen_replicate. lia.
Qed.

(** Frames keep the log 8-byte aligned. *)
Lemma frame_of_aligned data : blen (frame_of data) mod 8 = 0.
Proof.
  rewrite blen_frame_of. pose proof (pad_spec (blen data) (blen_nonneg _)) as [_ Hp].
  replace (8 + _ + _) with ((blen data + (encodeFrameSize (blen data)).2) + 1 * 8) by lia.
  by rewrite Z.mod_add.
Qed.

(** ** [Encode] appends the frame *)

Section encode.
Context {W : Type} {writer : Writer W} {laws : WriterLaws W} {codec : Codec Record_}.

(** The encoder's invariant: the page writer is well formed and in phase, the
    digest uses the Castagnoli table and its value is a [uint32]. *)
Definition enc_wf (start : Z) (e : Encoder W) : Prop :=
  wf (pw e) /\ in_phase (pw e) start /\ Digest.tab (crc e) = crcTable /\
  0 <= CRC e < 2 ^ 32.

(** The chained CRC after a record with this data. *)
Definition chain (c : Z) (data : bytes) : Z := crc32_update c crcTable data.

Lemma wrote_None start p0 d p1 :
  wrote start p0 d p1 None -> wf p1 /\ in_phase p1 start /\ stream p1 = stream p0 ++ d.
Proof. intros (? & _ & _ & ? & ? & _). auto. Qed.

Lemma wrote_Some start p0 d p1 x :
  wrote start p0 d p1 (Some x) -> wf p1 /\ written (w p1) `prefix_of` stream p0 ++ d.
Proof. intros (? & _ & _ & ?). auto. Qed.

Lemma CRC_write (e : Encoder W) d : Digest.tab (crc e) = crcTable ->
  Digest.Sum32 (Digest.Write (crc e) d).1 = chain (CRC e) d.
Proof. intros Ht. unfold chain, CRC. cbn. by rewrite Ht. Qed.

Lemma chain_bounds c d : 0 <= c < 2 ^ 32 -> 0 <= chain c d < 2 ^ 32.
Proof. apply crc32_update_bounds. Qed.

(** The outcome of encoding [rec]: the frame of the record with the chained
    CRC joins the stream, or the device failed with a prefix of it. *)
Definition encoded (start : Z) (e : Encoder W) (rec : Record_) (e' : Encoder W)
    (rec' : Record_) (res : wal_error + Z) : Prop :=
  rec' = set_crc rec (chain (CRC e) (Data rec)) /\
  CRC e' = chain (CRC e) (Data rec) /\
  match res with
  | inr off =>
      off = offset e /\ enc_wf start e' /\
      exists data, Marshal rec' = Some data /\
        stream (pw e') = stream (pw e) ++ frame_of data /\
        offset e' = offset e + blen (frame_of data)
  | inl ErrMarshal => Marshal rec' = None /\ pw e' = pw e
  | inl (ErrIo_ x) =>
      exists data, Marshal rec' = Some data /\
        written (w (pw e')) `prefix_of` stream (pw e) ++ frame_of data
  | inl _ => False
  end.

(** The padding after the record. *)
Lemma write_padding_spec start (p : PageWriter W) pad : wf p -> in_phase p start -> pad <= 7 ->
  exists p' err,
    (if 0 <? pad
     then pad ← slice padBuf 0 pad; '(p, _, err) ← Write p pad; Some (p, err)
     else Some (p, None)) = Some (p', err) /\
    wrote start p (replicate (Z.to_nat pad) x00) p' err.
Proof.
  intros Hwf Hph Hp. destruct (0 <? pad) eqn:E; bool_hyps.
  - rewrite slice_prefix by (change (blen padBuf) with 8; lia). unfold padBuf.
    rewrite take_replicate. cbn [mbind option_bind].
    replace (Z.to_nat pad `min` 8)%nat with (Z.to_nat pad) by lia.
    destruct (Write_spec p (replicate (Z.to_nat pad) x00) start Hwf Hph) as (p' & ? & err & -> & Hw & _). by exists p', err.
  - exists p, None. split; [done|]. replace (Z.to_nat pad) with O by lia. cbn [replicate].
    unfold wrote. rewrite app_nil_r. repeat split; try done; try apply Hwf. by left.
Qed.

Lemma Encode_spec start e rec :
  enc_wf start e ->
  exists e' rec' res, Encode e rec = Some (e', rec', res) /\ encoded start e rec e' rec' res.
Proof.
  intros (Hwf & Hph & Ht & Hc). unfold Encode. rewrite MarshalAppend_nil.
  cbn [pw crc offset]. rewrite CRC_write by done.
  set (rec' := set_crc rec _).
  assert (HC : forall (p : PageWriter W) o, CRC (mkEncoder p (Digest.Write (crc e) (Data rec)).1 o) =
    chain (CRC e) (Data rec)) by (intros; apply CRC_write; done).
  assert (Hwf' : forall (p : PageWriter W) o, wf p -> in_phase p start ->
    enc_wf start (mkEncoder p (Digest.Write (crc e) (Data rec)).1 o)).
  { intros p o ? ?. split; [done|]. split; [done|]. split; [done|]. rewrite HC. by apply chain_bounds. }
  destruct (Marshal rec') as [data|] eqn:Em.
  2:{ do 3 eexists. split; [reflexivity|]. split; [done|]. split; [apply HC|]. by split. }
  pose proof (pad_spec (blen data) (blen_nonneg _)) as [Hp _].
  pose proof (eq_refl : frame_of data = _) as Hf. unfold frame_of at 2 in Hf.
  pose proof (blen_frame_of data) as Hlen.
  destruct (encodeFrameSize (blen data)) as [l pad]. cbn [snd] in *.
  destruct (Write_spec (pw e) (put_le64 l) start Hwf Hph) as (p1 & ? & [x|] & -> & Hw1 & _);
    cbn [mbind option_bind].
  { apply wrote_Some in Hw1 as [? Hw1]. do 3 eexists. split; [reflexivity|]. split; [done|].
    split; [apply HC|]. exists data. split; [done|]. rewrite Hf, app_assoc. by apply prefix_app_grow. }
  apply wrote_None in Hw1 as (Hwf1 & Hph1 & Hst1).
  destruct (Write_spec p1 data start Hwf1 Hph1) as (p2 & ? & [x|] & H2 & Hw2 & _);
    cbn [pw set_pw crc offset]; rewrite H2; cbn [mbind option_bind].
  { apply wrote_Some in Hw2 as [? Hw2]. do 3 eexists. split; [reflexivity|]. split; [done|].
    split; [apply HC|]. exists data. split; [done|]. rewrite Hf.
    rewrite Hst1 in Hw2. rewrite !app_assoc in *. by apply prefix_app_grow. }
  apply wrote_None in Hw2 as (Hwf2 & Hph2 & Hst2).
  destruct (write_padding_spec start p2 pad Hwf2 Hph2 ltac:(lia)) as (p3 & err & Hp3 & Hw3). cbn [pw set_pw crc offset] in *. rewrite Hp3.
  cbn [mbind option_bind]. destruct err as [x|].
  { apply wrote_Some in Hw3 as [? Hw3]. do 3 eexists. split; [reflexivity|]. split; [done|].
    split; [apply HC|]. exists data. split; [done|]. rewrite Hf.
    rewrite Hst2, Hst1 in Hw3. by rewrite !app_assoc in *. }
  apply wrote_None in Hw3 as (Hwf3 & Hph3 & Hst3).
  do 3 eexists. split; [reflexivity|]. split; [done|]. split; [apply HC|]. split; [done|].
  split; [by apply Hwf'|]. exists data. split; [done|]. cbn [pw offset].
  rewrite Hst3, Hst2, Hst1, Hf. split; [by rewrite !app_assoc|]. rewrite <- Hf, Hlen. unfold frameSizeBytes. lia.
Qed.

(** Whatever the device keeps across each write, the encoder keeps. *)
Lemma Encode_preserves (P : W -> Prop) e rec e' rec' res :
  (forall w p w' n err, P w -> write w p = (w', n, err) -> P w') ->
  P (w (pw e)) -> Encode e rec = Some (e', rec', res) -> P (w (pw e')).
Proof.
  intros HW HP. unfold Encode. destruct (MarshalAppend _ _) as [data|]; [|by intros [= <- <- <-]].
  destruct (encodeFrameSize _) as [l pad]. cbn [pw set_pw crc offset].
  destruct (Write (pw e) _) as [[[p1 ?] e1]|] eqn:E1; cbn [mbind option_bind]; [|done].
  pose proof (Write_preserves P HW _ _ _ _ _ HP E1) as HP1.
  destruct e1; [by intros [= <- <- <-]|]. cbn [pw set_pw crc offset].
  destruct (Write p1 _) as [[[p2 ?] e2]|] eqn:E2; cbn [mbind option_bind]; [|done].
  pose proof (Write_preserves P HW _ _ _ _ _ HP1 E2) as HP2.
  destruct e2; [by intros [= <- <- <-]|]. cbn [pw set_pw crc offset].
  destruct (0 <? pad).
  - destruct (slice _ _ _); cbn [mbind option_bind]; [|done].
    destruct (Write p2 _) as [[[p3 ?] e3]|] eqn:E3; cbn [mbind option_bind]; [|done].
    pose proof (Write_preserves P HW _ _ _ _ _ HP2 E3).
    destruct e3; by intros [= <- <- <-].
  - cbn [mbind option_bind]. by intros [= <- <- <-].
Qed.

Lemma EncoderFlush_preserves (P : W -> Prop) e e' err :
  (forall w p w' n err, P w -> write w p = (w', n, err) -> P w') ->
  P (w (pw e)) -> Flush e = Some (e', err) -> P (w (pw e')).
Proof.
  intros HW HP. unfold Flush. destruct (PageWriter.Flush _) as [[p er]|] eqn:Ef; cbn [mbind option_bind]; [|done].
  intros [= <- <-]. by eapply Flush_preserves.
Qed.

(** [Flush] brings the stream to the device. *)
Lemma EncoderFlush_spec start e :
  enc_wf start e ->
  exists e' err, Flush e = Some (e', err) /\ crc e' = crc e /\ offset e' = offset e /\
    wf (pw e') /\ bufferedBytes (pw e') = 0 /\
    match err with
    | None => enc_wf start e' /\ written (w (pw e')) = stream (pw e) /\ stream (pw e') = stream (pw e)
    | Some _ => written (w (pw e')) `prefix_of` stream (pw e)
    end.
Proof.
  intros (Hwf & Hph & Ht & Hc).
  destruct (Flush_spec (pw e) start Hwf Hph) as (p & err & Hf & Hwf' & _ & Hb & _ & Hr).
  unfold Flush. rewrite Hf. do 2 eexists. split; [reflexivity|]. repeat (split; [done|]).
  destruct err as [x|]; [done|]. destruct Hr as (Hw & Hph' & _). repeat (split; [done|]).
  cbn [set_pw pw]. unfold stream. rewrite Hb. change (Z.to_nat 0) with O.
  by rewrite take_0, app_nil_r.
Qed.
End encode.
