(* ===== verification/Decoder.v ===== *)
(** The record decoder of the log ([pkg/wal/decoder.go]): frame reading, CRC
    chain validation and torn-write detection over the remaining bytes of a
    segment file.  Reading a file does not fail here; the errors are those the
    decoder derives from the bytes. *)
From S2P Require Import Prelude Binary Io Proto Crc Walpb PageWriter Encoder.

(** ** Definitions *)

Record Decoder : Type := mkDecoder {
  r : bytes;
  crc : Digest.digest;
  lastValidOff : Z }.

Definition NewDecoder (r : bytes) : Decoder :=
  {| r := r; crc := Digest.New 0 crcTable; lastValidOff := 0 |}.

Definition maxRecordSize : Z := 64 * 1024 * 1024.

(** Record size and padding of a length field. *)
Definition decodeFrameSize (lenField : Z) : Z * Z :=
  let recBytes := i64 (Z.land (u64 lenField) (2 ^ 64 - 1 - Z.shiftl 0xff 56)) in
  let padBytes := if lenField <? 0 then Z.land (Z.shiftr (u64 lenField) 56) 7 else 0 in
  (recBytes, padBytes).

(** The loop of [isTornEntry]: one sector-bounded chunk of the data a time;
    a chunk has at least one byte, so [fuel = len(data)] is enough. *)
Fixpoint isTornEntry_loop (fuel : nat) (data : bytes) (fileOff curOff : Z) : bool :=
  if curOff <? blen data then
    match fuel with
    | O => false
    | S fuel =>
        let chunkLen := Z.min (minSectorSize - Z.rem fileOff minSectorSize) (blen data - curOff) in
        let isZero := forallb (fun x => b2z x =? 0)
          (take (Z.to_nat chunkLen) (drop (Z.to_nat curOff) data)) in
        if isZero then true
        else isTornEntry_loop fuel data (fileOff + chunkLen) (curOff + chunkLen)
    end
  else false.

Definition isTornEntry (d : Decoder) (data : bytes) : bool :=
  isTornEntry_loop (length data) data (lastValidOff d + frameSizeBytes) 0.

Section decoder.
Context {codec : Codec Record_}.

Definition set_r (d : Decoder) (s : bytes) : Decoder := mkDecoder s (crc d) (lastValidOff d).

(** [Decode]: the decoder afterwards and the record or the error.  [None] is
    the panic of [make] on a length beyond [maxAlloc]; the check against
    [maxRecordSize] rules it out. *)
Definition Decode (d : Decoder) : option (Decoder * (wal_error + Record_)) :=
  let '(s, res) := ReadFull (r d) 8 in
  let d := set_r d s in
  match res with
  | inl e => Some (d, inl (ErrIo_ (if decide (e = EOF) then EOF else e)))
  | inr uint64buf =>
      let lenField := le_value uint64buf in
      if lenField =? 0 then Some (d, inl (ErrIo_ EOF))
      else
        let '(recBytes, padBytes) := decodeFrameSize (i64 lenField) in
        if maxRecordSize <? recBytes then Some (d, inl ErrCorrupted)
        else if maxAlloc <? recBytes + padBytes then None
        else
          let '(s, res) := ReadFull (r d) (recBytes + padBytes) in
          let d := set_r d s in
          match res with
          | inl e => Some (d, inl (ErrIo_ (if decide (e = EOF) then ErrUnexpectedEOF else e)))
          | inr data =>
              match Unmarshal (take (Z.to_nat recBytes) data) with
              | None =>
                  Some (d, inl (if isTornEntry d data then ErrIo_ ErrUnexpectedEOF else ErrCorrupted))
              | Some rec =>
                  let next d := Some (mkDecoder (r d) (crc d)
                    (lastValidOff d + (frameSizeBytes + recBytes + padBytes)), inr rec) in
                  if Type_ rec =? CrcType
                  then next (mkDecoder (r d) (Digest.New (Crc rec) crcTable) (lastValidOff d))
                  else
                    let d := mkDecoder (r d) (Digest.Write (crc d) (Data rec)).1 (lastValidOff d) in
                    if Digest.Sum32 (crc d) =? Crc rec then next d
                    else Some (d, inl (if isTornEntry d data then ErrIo_ ErrUnexpectedEOF
                                       else ErrCRCMismatch))
              end
          end
  end.
End decoder.

Definition LastOffset (d : Decoder) : Z := lastValidOff d.
Definition LastCRC (d : Decoder) : Z := Digest.Sum32 (crc d).

(** ** The length field *)

Lemma land_mask56 z : 0 <= z < 2 ^ 64 ->
  Z.land z (2 ^ 64 - 1 - Z.shiftl 0xff 56) = z mod 2 ^ 56.
Proof.
  intros Hz. change (2 ^ 64 - 1 - Z.shiftl 0xff 56) with (2 ^ 56 - 1).
  apply land_ones_low. lia.
Qed.

(** The decoder's view of a length field: 56 bits of length, three bits of
    padding when the top bit is set. *)
Lemma decodeFrameSize_spec z : 0 <= z < 2 ^ 64 ->
  decodeFrameSize (i64 z) =
    (z mod 2 ^ 56, if 2 ^ 63 <=? z then (z / 2 ^ 56) mod 8 else 0).
Proof.
  intros Hz. unfold decodeFrameSize. rewrite u64_i64, land_mask56 by done.
  pose proof (Z.mod_pos_bound z (2 ^ 56) ltac:(lia)). f_equal.
  - unfold i64. rewrite u64_small by lia. by rewrite (proj2 (Z.ltb_lt _ _)) by lia.
  - pose proof (i64_neg z Hz). rewrite Z.shiftr_div_pow2 by lia.
    change 7 with (2 ^ 3 - 1). rewrite land_ones_low by lia. change (2 ^ 3) with 8.
    destruct (_ <? _) eqn:E1, (_ <=? _) eqn:E2; bool_hyps; lia.
Qed.

Lemma encodeFrameSize_bounds n : 0 <= n < 2 ^ 56 -> 0 <= (encodeFrameSize n).1 < 2 ^ 64.
Proof.
  intros Hn. pose proof (lenField_spec n Hn) as H. pose proof (pad_spec n ltac:(lia)) as [Hp _].
  destruct (encodeFrameSize n) as [l p]. cbn [fst snd] in *. rewrite H. destruct (p =? 0); lia.
Qed.

Lemma decode_encodeFrameSize n : 0 <= n < 2 ^ 56 ->
  decodeFrameSize (i64 (encodeFrameSize n).1) = (n, (encodeFrameSize n).2).
Proof.
  intros Hn. pose proof (encodeFrameSize_bounds n Hn) as Hb.
  pose proof (lenField_spec n Hn) as H. pose proof (pad_spec n ltac:(lia)) as [Hp _].
  rewrite decodeFrameSize_spec by done.
  destruct (encodeFrameSize n) as [l p]. cbn [fst snd] in *. rewrite H in *.
  destruct (p =? 0) eqn:E; bool_hyps.
  - rewrite Z.add_0_r in *. rewrite Z.mod_small by lia. rewrite (proj2 (Z.leb_gt _ _)) by lia.
    by subst.
  - rewrite Z.mod_add, Z.mod_small, (Z.div_add n), (Z.div_small n) by lia.
    rewrite (proj2 (Z.leb_le _ _)) by lia. f_equal. rewrite Z.add_0_l.
    rewrite <- (Z.mod_small p 8) at 2 by lia. replace (128 + p) with (p + 16 * 8) by lia.
    by rewrite Z.mod_add.
Qed.

(** The padding takes three bits of the length field. *)
Lemma decodeFrameSize_pad l : (decodeFrameSize l).2 <= 7.
Proof.
  unfold decodeFrameSize. destruct (l <? 0); cbn [snd]; [|lia]. change 7 with (2 ^ 3 - 1) at 1.
  rewrite land_ones_low by lia. pose proof (Z.mod_pos_bound (Z.shiftr (u64 l) 56) (2 ^ 3) ltac:(lia)). lia.
Qed.

(** ** Reading one frame *)

Section read.
Context {codec : Codec Record_} {laws : RecordCodec}.

Lemma frame_len_nonzero n : 0 < n < 2 ^ 56 -> (encodeFrameSize n).1 <> 0.
Proof.
  intros Hn. pose proof (lenField_spec n ltac:(lia)) as H. pose proof (pad_spec n ltac:(lia)) as [Hp _].
  destruct (encodeFrameSize n) as [l p]. cbn [fst snd] in *. destruct (p =? 0); lia.
Qed.

(** [Decode] when the length field of a frame for [n] bytes is read. *)
Lemma Decode_len d n s :
  0 < n < 2 ^ 56 -> r d = put_le64 (encodeFrameSize n).1 ++ s ->
  Decode d =
    if maxRecordSize <? n then Some (set_r d s, inl ErrCorrupted)
    else
      let '(s', res) := ReadFull s (n + (encodeFrameSize n).2) in
      let d := set_r d s' in
      match res with
      | inl e => Some (d, inl (ErrIo_ (if decide (e = EOF) then ErrUnexpectedEOF else e)))
      | inr data =>
          match Unmarshal (take (Z.to_nat n) data) with
          | None =>
              Some (d, inl (if isTornEntry d data then ErrIo_ ErrUnexpectedEOF else ErrCorrupted))
          | Some rec =>
              let next d := Some (mkDecoder (r d) (crc d)
                (lastValidOff d + (frameSizeBytes + n + (encodeFrameSize n).2)), inr rec) in
              if Type_ rec =? CrcType
              then next (mkDecoder (r d) (Digest.New (Crc rec) crcTable) (lastValidOff d))
              else
                let d := mkDecoder (r d) (Digest.Write (crc d) (Data rec)).1 (lastValidOff d) in
                if Digest.Sum32 (crc d) =? Crc rec then next d
                else Some (d, inl (if isTornEntry d data then ErrIo_ ErrUnexpectedEOF
                                   else ErrCRCMismatch))
          end
      end.
Proof.
  intros Hn Hr. pose proof (encodeFrameSize_bounds n ltac:(lia)) as Hb.
  unfold Decode. rewrite Hr. rewrite <- (blen_put_le64 (encodeFrameSize n).1) at 1.
  rewrite ReadFull_app. unfold put_le64.
  rewrite le_value_le_bytes, Z.mod_small by (change (256 ^ Z.of_nat 8) with (2 ^ 64); lia).
  rewrite (proj2 (Z.eqb_neq _ _)) by (by apply frame_len_nonzero).
  rewrite decode_encodeFrameSize by lia. destruct (maxRecordSize <? n) eqn:E; [done|].
  pose proof (pad_spec n ltac:(lia)) as [Hp _]. bool_hyps. unfold maxRecordSize in E.
  by rewrite (proj2 (Z.ltb_ge maxAlloc _)) by (unfold maxAlloc; lia).
Qed.

(** A complete frame whose CRC continues the chain is read back. *)
Lemma Decode_frame d rec data rest :
  record_ok rec -> Type_ rec <> 0 -> Marshal rec = Some data -> blen data <= maxRecordSize ->
  Digest.tab (crc d) = crcTable ->
  Type_ rec = CrcType \/ chain (LastCRC d) (Data rec) = Crc rec ->
  r d = frame_of data ++ rest ->
  Decode d =
    Some (mkDecoder rest (Digest.New (Crc rec) crcTable) (lastValidOff d + blen (frame_of data)), inr rec).
Proof.
  intros Hok Ht Hm Hlen Htab Hc Hr. pose proof (marshal_nonempty _ _ Hok Hm Ht) as Hne.
  assert (Hpos : 0 < blen data) by (destruct data; [done|rewrite blen_cons; blia]).
  unfold frame_of in Hr. pose proof (blen_frame_of data) as Hfl.
  pose proof (pad_spec (blen data) ltac:(lia)) as [Hp _].
  destruct (encodeFrameSize (blen data)) as [l p] eqn:El. cbn [fst snd] in *.
  rewrite <- !app_assoc in Hr. unfold maxRecordSize in Hlen.
  rewrite (Decode_len d (blen data) (data ++ replicate (Z.to_nat p) x00 ++ rest));
    [|lia|by rewrite El].
  rewrite El. cbn [snd]. rewrite (proj2 (Z.ltb_ge _ _)) by (unfold maxRecordSize; lia).
  rewrite app_assoc. set (body := data ++ _).
  replace (blen data + p) with (blen body)
    by (unfold body; rewrite blen_app, blen_replicate; lia).
  rewrite ReadFull_app. unfold body. rewrite take_blen_app, (record_roundtrip _ _ Hok Hm).
  cbn [r set_r crc lastValidOff]. destruct (_ =? _) eqn:E; bool_hyps.
  - do 3 f_equal. rewrite Hfl. unfold frameSizeBytes. lia.
  - destruct Hc as [Hc|Hc]; [done|]. unfold chain, LastCRC in Hc.
    assert (Hd : (Digest.Write (crc d) (Data rec)).1 = Digest.New (Crc rec) crcTable).
    { unfold Digest.Write, Digest.New. cbn. rewrite Htab. f_equal. exact Hc. }
    rewrite Hd. cbn [crc Digest.Sum32 Digest.New Digest.crc]. rewrite Z.eqb_refl.
    do 3 f_equal. rewrite Hfl. unfold frameSizeBytes. lia.
Qed.

(** A frame cut short ends the reading without reporting corruption and leaves
    the chain alone. *)
Lemma Decode_cut d data k :
  0 < blen data <= maxRecordSize -> 0 <= k < blen (frame_of data) ->
  r d = take (Z.to_nat k) (frame_of data) ->
  exists d' e, Decode d = Some (d', inl (ErrIo_ e)) /\ (e = EOF \/ e = ErrUnexpectedEOF) /\
    crc d' = crc d /\ lastValidOff d' = lastValidOff d.
Proof.
  intros Hlen Hk Hr. rewrite blen_frame_of in Hk. unfold maxRecordSize in Hlen.
  pose proof (pad_spec (blen data) ltac:(lia)) as [Hp _].
  assert (Hrl : blen (r d) = k) by (rewrite Hr; apply blen_take; rewrite blen_frame_of; lia).
  destruct (decide (k < 8)) as [H8|H8].
  { unfold Decode. rewrite ReadFull_short by lia. rewrite Hrl. do 2 eexists. split; [reflexivity|].
    split; [|done]. destruct (k =? 0); cbn; auto. }
  unfold frame_of in Hr. destruct (encodeFrameSize (blen data)) as [l p] eqn:El. cbn [snd] in *.
  replace k with (blen (put_le64 l) + (k - 8)) in Hr by (rewrite blen_put_le64; lia).
  rewrite take_app_take in Hr by lia.
  rewrite (Decode_len d (blen data) (take (Z.to_nat (k - 8)) (data ++ replicate (Z.to_nat p) x00)));
    [|lia|by rewrite El].
  rewrite El. cbn [snd]. rewrite (proj2 (Z.ltb_ge _ _)) by (unfold maxRecordSize; lia).
  rewrite ReadFull_short.
  - cbn [set_r]. do 2 eexists. split; [reflexivity|]. split; [|done].
    destruct (_ =? _); cbn; auto.
  - rewrite blen_take; [lia|]. rewrite blen_app, blen_replicate. lia.
Qed.

(** Zeros, or nothing, after the last frame end the reading. *)
Lemma Decode_zeros d n :
  r d = replicate n x00 ->
  exists d' e, Decode d = Some (d', inl (ErrIo_ e)) /\ (e = EOF \/ e = ErrUnexpectedEOF) /\
    crc d' = crc d /\ lastValidOff d' = lastValidOff d.
Proof.
  intros Hr. destruct (decide (n < 8)%nat) as [H8|H8]; unfold Decode; rewrite Hr.
  - rewrite ReadFull_short by (rewrite blen_replicate; lia). do 2 eexists. split; [reflexivity|].
    split; [|done]. destruct (_ =? _); cbn; auto.
  - replace n with (8 + (n - 8))%nat by lia. rewrite replicate_add.
    rewrite (ReadFull_app (replicate 8 x00) _ : ReadFull _ 8 = _).
    change (le_value (replicate 8 x00) =? 0) with true. do 2 eexists. split; [reflexivity|]. auto.
Qed.

(** The size check keeps the allocation within bounds, whatever the bytes. *)
Lemma Decode_total d : exists d' res, Decode d = Some (d', res).
Proof.
  unfold Decode. destruct (ReadFull (r d) 8) as [s [e|b8]]; [eauto|].
  destruct (_ =? 0); [eauto|]. pose proof (decodeFrameSize_pad (i64 (le_value b8))) as Hp.
  destruct (decodeFrameSize _) as [rb pb]. cbn [snd] in Hp.
  destruct (maxRecordSize <? rb) eqn:E; [eauto|]. bool_hyps. unfold maxRecordSize in E.
  rewrite (proj2 (Z.ltb_ge maxAlloc _)) by (unfold maxAlloc; lia).
  destruct (ReadFull _ _) as [s' [e|data]]; [eauto|]. destruct (Unmarshal _) as [rec|]; [|eauto].
  cbv zeta. destruct (Type_ rec =? CrcType); [eauto|]. destruct (_ =? _); eauto.
Qed.

(** ** Torn writes *)

Lemma zeros_forallb n : forallb (fun x => b2z x =? 0) (replicate n x00) = true.
Proof. by induction n. Qed.

Lemma isTorn_loop_zeros a m fuel fileOff curOff :
  (0 < m)%nat -> 0 <= curOff <= blen a -> 0 <= fileOff ->
  (fileOff - curOff + blen a) mod minSectorSize = 0 ->
  blen a + Z.of_nat m - curOff <= Z.of_nat fuel ->
  isTornEntry_loop fuel (a ++ replicate m x00) fileOff curOff = true.
Proof.
  intros Hm. revert fileOff curOff. induction fuel as [|fuel IH]; intros fileOff curOff Hcur Hf Hsec Hfuel;
    cbn [isTornEntry_loop]; rewrite blen_app, blen_replicate, (proj2 (Z.ltb_lt _ _)) by lia; [lia|].
  rewrite Z.rem_mod_nonneg by (unfold minSectorSize; lia). unfold minSectorSize in *.
  set (chunk := Z.min _ _). destruct (forallb _ _) eqn:Ez; [done|].
  pose proof (Z.mod_pos_bound fileOff 512 ltac:(lia)) as Hmod.
  pose proof (Z.div_mod fileOff 512 ltac:(lia)).
  apply Z.mod_divide in Hsec as [q Hq]; [|lia].
  assert (Hlt : curOff < blen a).
  { destruct (decide (curOff < blen a)) as [|Hge]; [done|]. exfalso.
    assert (curOff = blen a) as -> by lia. rewrite drop_blen_app, take_replicate in Ez.
    by rewrite zeros_forallb in Ez. }
  assert (Hch : 0 < chunk <= blen a - curOff) by nia.
  apply IH; [lia|lia| |lia].
  replace (fileOff + chunk - (curOff + chunk) + blen a) with (q * 512) by lia.
  apply Z.mod_mul. lia.
Qed.

Lemma isTorn_zeros d a m :
  (0 < m)%nat -> 0 <= lastValidOff d ->
  (lastValidOff d + frameSizeBytes + blen a) mod minSectorSize = 0 ->
  isTornEntry d (a ++ replicate m x00) = true.
Proof.
  intros Hm Hoff Hsec. unfold isTornEntry. pose proof (blen_nonneg a).
  apply isTorn_loop_zeros; [done|lia|unfold frameSizeBytes; lia|by rewrite Z.sub_0_r|].
  unfold blen. rewrite length_app, length_replicate. lia.
Qed.

(** Once the length field is read, a body with a zero sector is never
    reported as corruption. *)
Lemma Decode_body d n body :
  0 < n <= maxRecordSize -> r d = put_le64 (encodeFrameSize n).1 ++ body ->
  (forall x, x = take (Z.to_nat (n + (encodeFrameSize n).2)) body ->
     blen x = n + (encodeFrameSize n).2 -> forall d', lastValidOff d' = lastValidOff d ->
     isTornEntry d' x = true) ->
  exists d' res, Decode d = Some (d', res) /\
    (res = inl (ErrIo_ EOF) \/ res = inl (ErrIo_ ErrUnexpectedEOF) \/
     exists rec, res = inr rec /\ r d' = drop (Z.to_nat (n + (encodeFrameSize n).2)) body).
Proof.
  intros Hn Hr Htorn. unfold maxRecordSize in Hn. pose proof (pad_spec n ltac:(lia)) as [Hp _].
  rewrite (Decode_len d n body) by (done || lia).
  rewrite (proj2 (Z.ltb_ge _ _)) by (unfold maxRecordSize; lia).
  unfold ReadFull. destruct (_ <=? _) eqn:E; bool_hyps.
  2:{ do 2 eexists. split; [reflexivity|]. destruct (_ =? _); cbn; auto. }
  set (x := take _ body) in *. specialize (Htorn x eq_refl ltac:(by apply blen_take; lia)).
  assert (Hacc : forall d' (rec : Record_), r d' = drop (Z.to_nat (n + (encodeFrameSize n).2)) body ->
    exists d1 (res : wal_error + Record_), Some (d', inr rec) = Some (d1, res) /\
      (res = inl (ErrIo_ EOF) \/ res = inl (ErrIo_ ErrUnexpectedEOF) \/
       exists rec, res = inr rec /\ r d1 = drop (Z.to_nat (n + (encodeFrameSize n).2)) body)) by eauto 9.
  destruct (Unmarshal _) as [rec|]; [|rewrite Htorn by done; eauto 7].
  cbv zeta. cbn [crc]. destruct (Type_ rec =? CrcType); [by apply Hacc|].
  destruct (_ =? Crc rec); [by apply Hacc|]. rewrite Htorn by done. eauto 7.
Qed.

(** A frame written only up to a sector boundary, over zeros. *)
Lemma Decode_torn d data k m :
  0 < blen data <= maxRecordSize -> 0 <= lastValidOff d -> lastValidOff d mod 8 = 0 ->
  0 <= k < blen (frame_of data) -> (lastValidOff d + k) mod minSectorSize = 0 ->
  r d = take (Z.to_nat k) (frame_of data) ++ replicate m x00 ->
  exists d' res, Decode d = Some (d', res) /\
    (res = inl (ErrIo_ EOF) \/ res = inl (ErrIo_ ErrUnexpectedEOF) \/
     exists rec m', res = inr rec /\ r d' = replicate m' x00).
Proof.
  intros Hlen Hoff Hal Hk Hsec Hr. rewrite blen_frame_of in Hk.
  pose proof (pad_spec (blen data) ltac:(lia)) as [Hp _].
  assert (Hk8 : k mod 8 = 0).
  { unfold minSectorSize in Hsec. apply Z.mod_divide in Hal as [x Hx], Hsec as [y Hy]; [|lia..].
    apply Z.mod_divide; [lia|]. exists (y * 64 - x). lia. }
  destruct (decide (k = 0)) as [->|Hk0].
  { change (take (Z.to_nat 0) (frame_of data)) with (@nil byte) in Hr.
    destruct (Decode_zeros d m Hr) as (d' & e & -> & [-> | ->] & _); eauto 8. }
  assert (H8 : 8 <= k) by (apply Z.mod_divide in Hk8 as [x Hx]; lia).
  unfold frame_of in Hr. destruct (encodeFrameSize (blen data)) as [l p] eqn:El. cbn [snd] in *.
  replace k with (blen (put_le64 l) + (k - 8)) in Hr by (rewrite blen_put_le64; lia).
  rewrite take_app_take, <- app_assoc in Hr by lia.
  set (a := take (Z.to_nat (k - 8)) (data ++ replicate (Z.to_nat p) x00)) in *.
  assert (Ha : blen a = k - 8).
  { apply blen_take. rewrite blen_app, blen_replicate. lia. }
  destruct (Decode_body d (blen data) (a ++ replicate m x00)) as (d' & res & Hd & Hres);
    [lia|by rewrite El| |].
  2:{ exists d', res. split; [done|]. destruct Hres as [?|[?|(rec & ? & Hrest)]]; [auto..|].
    right; right. exists rec. rewrite El in Hrest. cbn [snd] in Hrest.
    rewrite drop_app_ge, drop_replicate in Hrest by (unfold blen in *; lia). eauto. }
  rewrite El. cbn [snd]. intros x -> Hx d' Hd'.
  replace (blen data + p) with (blen a + (blen data + p - blen a)) in * by lia.
  rewrite take_app_take in * by lia. rewrite take_replicate in *.
  rewrite blen_app, blen_replicate in Hx.
  apply isTorn_zeros; rewrite ?Hd', ?Ha; [lia|done|].
  unfold frameSizeBytes. by replace (lastValidOff d + 8 + (k - 8)) with (lastValidOff d + k) by lia.
Qed.
End read.
