(* ===== verification/LogSpec.v ===== *)
(** The log as a sequence of entries: [is_log c es b] says that [b] is the
    encoding of the typed entries [es] with the CRC chain seeded by [c].  The
    encoder produces such bytes, the decoder reads them back, and what it does
    on damaged tails is stated against the same relation. *)
From S2P Require Import Prelude Binary Io Proto Crc Walpb PageWriter Encoder Decoder.

(** An entry before framing: its record type and data. *)
Definition entry : Type := Z * bytes.

Section log.
Context {codec : Codec Record_}.

(** An entry the decoder accepts: a record type, and a size within the
    decoder's limit. *)
Definition stamped (c : Z) (e : entry) : Record_ := mkRecord e.1 (chain c e.2) e.2.

Inductive is_log : Z -> list entry -> bytes -> Prop :=
| log_nil c : is_log c [] []
| log_cons c e es data b :
    record_ok (stamped c e) -> e.1 <> 0 ->
    Marshal (stamped c e) = Some data -> blen data <= maxRecordSize ->
    is_log (chain c e.2) es b ->
    is_log c (e :: es) (frame_of data ++ b).

Fixpoint stamp_all (c : Z) (es : list entry) : list Record_ :=
  match es with
  | [] => []
  | e :: es => stamped c e :: stamp_all (chain c e.2) es
  end.

Definition chain_all (c : Z) (es : list entry) : Z := foldl (fun c (e : entry) => chain c e.2) c es.

(** Decoding until the first error: the records, the decoder then and the
    error. *)
Inductive decodes : Decoder -> list Record_ -> Decoder -> wal_error -> Prop :=
| decodes_stop d d' e : Decode d = Some (d', inl e) -> decodes d [] d' e
| decodes_next d d1 rec rs d' e :
    Decode d = Some (d1, inr rec) -> decodes d1 rs d' e -> decodes d (rec :: rs) d' e.

(** The decoder may start on this log: its chain value is the seed, or the
    first record resets the chain. *)
Definition seeded (d : Decoder) (c : Z) (es : list entry) : Prop :=
  Digest.tab (crc d) = crcTable /\
  (LastCRC d = c \/ exists e es', es = e :: es' /\ e.1 = CrcType).

(** The end of readable data, as opposed to corruption. *)
Definition clean_end (e : wal_error) : Prop := e = ErrIo_ EOF \/ e = ErrIo_ ErrUnexpectedEOF.

(** ** The relation *)

Lemma is_log_app c es1 es2 b1 b2 :
  is_log c es1 b1 -> is_log (chain_all c es1) es2 b2 -> is_log c (es1 ++ es2) (b1 ++ b2).
Proof.
  induction 1; cbn [chain_all foldl app]; [done|]. intros Hl2. rewrite <- app_assoc.
  constructor; auto.
Qed.

Lemma is_log_inv_app c es1 es2 b :
  is_log c (es1 ++ es2) b ->
  exists b1 b2, b = b1 ++ b2 /\ is_log c es1 b1 /\ is_log (chain_all c es1) es2 b2.
Proof.
  revert c b. induction es1 as [|e es1 IH]; intros c b H; cbn [app chain_all foldl] in *.
  { exists [], b. repeat split; [constructor|done]. }
  inversion H as [|? ? ? data b' ? ? ? ? Hb']; subst.
  destruct (IH _ _ Hb') as (b1 & b2 & -> & Hl1 & Hl2). exists (frame_of data ++ b1), b2.
  rewrite app_assoc. repeat split; [by constructor|done].
Qed.

Lemma is_log_inv_cons c e es B :
  is_log c (e :: es) B ->
  exists data b, B = frame_of data ++ b /\ record_ok (stamped c e) /\ e.1 <> 0 /\
    Marshal (stamped c e) = Some data /\ blen data <= maxRecordSize /\ is_log (chain c e.2) es b.
Proof. intros H. inversion H as [|? ? ? data b]; subst. by exists data, b. Qed.

Lemma is_log_aligned c es b : is_log c es b -> blen b mod 8 = 0.
Proof.
  induction 1 as [|c e es data b ? ? ? ? _ IH]; [done|].
  rewrite blen_app, Z.add_mod, frame_of_aligned, IH by lia. done.
Qed.

Lemma decodes_det d rs1 d1 e1 rs2 d2 e2 :
  decodes d rs1 d1 e1 -> decodes d rs2 d2 e2 -> rs1 = rs2 /\ d1 = d2 /\ e1 = e2.
Proof.
  intros Hd1. revert rs2 d2 e2. induction Hd1 as [|? ? ? ? ? ? Hdec _ IH]; intros rs2 d2 e2 Hd2.
  - inversion Hd2; subst; [|congruence]. split; [done|split; congruence].
  - inversion Hd2; subst; [congruence|].
    match goal with
    | Ha : Decode d = _, Hb : Decode d = _ |- _ => rewrite Ha in Hb; injection Hb as <- <-
    end.
    match goal with Hd : decodes _ _ d2 e2 |- _ => destruct (IH _ _ _ Hd) as (-> & -> & ->) end.
    auto.
Qed.

Context {laws : RecordCodec}.

(** Reading a log and then whatever follows it. *)
Lemma decodes_log c es b d rest rs d' e :
  is_log c es b -> 0 <= c < 2 ^ 32 -> seeded d c es -> r d = b ++ rest ->
  decodes (mkDecoder rest
             (match es with [] => crc d | _ => Digest.New (chain_all c es) crcTable end)
             (lastValidOff d + blen b)) rs d' e ->
  decodes d (stamp_all c es ++ rs) d' e.
Proof.
  intros Hlog. revert d. induction Hlog as [c|c en es data b Hok Ht Hm Hlen Hlog IH];
    intros d Hc [Htab Hseed] Hr Hrest.
  { rewrite blen_nil, Z.add_0_r in Hrest. cbn in Hr. subst rest. by destruct d. }
  cbn [stamp_all app]. rewrite <- app_assoc in Hr. eapply decodes_next.
  { apply (Decode_frame d (stamped c en) data (b ++ rest)); try done. cbn [stamped Type_ Data Crc].
    destruct Hseed as [->|(? & ? & [= <- <-] & ?)]; [by right|by left]. }
  apply IH; [by apply chain_bounds| |done|].
  - split; [done|]. by left.
  - cbn [r crc lastValidOff]. cbn [chain_all foldl] in Hrest.
    rewrite blen_app, Z.add_assoc in Hrest. by destruct es.
Qed.

(** ** Ends of a log *)

Lemma decodes_end d d' e :
  Decode d = Some (d', inl (ErrIo_ e)) -> e = EOF \/ e = ErrUnexpectedEOF ->
  decodes d [] d' (ErrIo_ e) /\ clean_end (ErrIo_ e).
Proof. intros ? [-> | ->]; (split; [by constructor|]); [by left|by right]. Qed.

(** A whole log followed by preallocated zeros or nothing. *)
Lemma decodes_whole c es b d n :
  is_log c es b -> 0 <= c < 2 ^ 32 -> seeded d c es -> r d = b ++ replicate n x00 ->
  exists d' x, decodes d (stamp_all c es) d' x /\ clean_end x /\
    lastValidOff d' = lastValidOff d + blen b /\
    (es <> [] -> LastCRC d' = chain_all c es).
Proof.
  intros Hlog Hc Hs Hr.
  set (d1 := mkDecoder (replicate n x00)
    (match es with [] => crc d | _ => Digest.New (chain_all c es) crcTable end)
    (lastValidOff d + blen b)).
  destruct (Decode_zeros d1 n eq_refl) as (d' & e & Hd & He & Hcrc & Hoff).
  destruct (decodes_end _ _ _ Hd He) as [H0 H1]. exists d', (ErrIo_ e).
  split; [|split; [done|split; [done|]]].
  - rewrite <- (app_nil_r (stamp_all c es)). by eapply decodes_log.
  - intros Hne. unfold LastCRC. rewrite Hcrc. by destruct es.
Qed.

Lemma marshaled_pos c e data :
  record_ok (stamped c e) -> e.1 <> 0 -> Marshal (stamped c e) = Some data -> 0 < blen data.
Proof.
  intros Hok Ht Hm. pose proof (marshal_nonempty _ _ Hok Hm Ht).
  destruct data; [done|rewrite blen_cons; blia].
Qed.

(** The first [k] bytes of a log. *)
Lemma decodes_prefix c es b d k :
  is_log c es b -> 0 <= c < 2 ^ 32 -> seeded d c es -> 0 <= k <= blen b ->
  r d = take (Z.to_nat k) b ->
  exists es1 es2 b1 b2 d' x,
    es = es1 ++ es2 /\ b = b1 ++ b2 /\ is_log c es1 b1 /\ is_log (chain_all c es1) es2 b2 /\
    blen b1 <= k /\
    (forall e es3 data, es2 = e :: es3 -> Marshal (stamped (chain_all c es1) e) = Some data ->
      k < blen b1 + blen (frame_of data)) /\
    decodes d (stamp_all c es1) d' x /\ clean_end x /\
    lastValidOff d' = lastValidOff d + blen b1 /\
    LastCRC d' = (match es1 with [] => LastCRC d | _ => chain_all c es1 end).
Proof.
  intros Hlog. revert d k. induction Hlog as [c|c en es data b Hok Ht Hm Hlen Hlog IH];
    intros d k Hc Hs Hk Hr.
  { assert (k = 0) as -> by (change (blen []) with 0 in Hk; lia).
    destruct (Decode_zeros d 0 Hr) as (d' & e & Hd & He & Hcr & Ho).
    destruct (decodes_end _ _ _ Hd He) as [Hd0 He0].
    exists [], [], [], [], d', (ErrIo_ e). rewrite blen_nil.
    repeat (split; [first [done|constructor|lia]|]). unfold LastCRC. by rewrite Hcr. }
  rewrite blen_app in Hk. pose proof (blen_nonneg b).
  pose proof (marshaled_pos _ _ _ Hok Ht Hm) as Hpos.
  destruct (decide (k < blen (frame_of data))) as [Hlt|Hge].
  - rewrite take_app_le in Hr by (unfold blen in *; lia).
    destruct (Decode_cut d data k ltac:(lia) ltac:(lia) Hr) as (d' & e & Hd & He & Hcr & Ho).
    destruct (decodes_end _ _ _ Hd He) as [Hd0 He0].
    exists [], (en :: es), [], (frame_of data ++ b), d', (ErrIo_ e). rewrite blen_nil.
    split; [done|]. split; [done|]. split; [constructor|]. split; [by constructor|].
    split; [lia|]. split; [intros ? ? ? [= <- <-]; change (chain_all c []) with c; rewrite Hm; intros [= <-]; lia|].
    split; [done|]. split; [done|]. split; [rewrite Ho; lia|]. unfold LastCRC. by rewrite Hcr.
  - replace k with (blen (frame_of data) + (k - blen (frame_of data))) in Hr by lia.
    rewrite take_app_take in Hr by lia. destruct Hs as [Htab Hseed].
    set (d1 := mkDecoder (take (Z.to_nat (k - blen (frame_of data))) b)
      (Digest.New (chain c en.2) crcTable) (lastValidOff d + blen (frame_of data))).
    destruct (IH d1 (k - blen (frame_of data))) as
      (es1 & es2 & b1 & b2 & d' & x & -> & -> & Hl1 & Hl2 & Hb1 & Hnext & Hd & Hx & Ho & Hcr);
      [by apply chain_bounds|split; [done|by left]|lia|done|].
    exists (en :: es1), es2, (frame_of data ++ b1), b2, d', x. rewrite blen_app.
    cbn [chain_all foldl]. rewrite <- app_assoc.
    split; [done|]. split; [done|]. split; [by constructor|]. split; [done|]. split; [lia|].
    split; [intros ? ? ? H1 H2; specialize (Hnext _ _ _ H1 H2); lia|].
    split; [|split; [done|split; [rewrite Ho; cbn [d1 lastValidOff]; lia|]]].
    2:{ rewrite Hcr. by destruct es1. }
    cbn [stamp_all]. eapply decodes_next; [|exact Hd].
    apply (Decode_frame d (stamped c en) data); try done. cbn [stamped Type_ Data Crc].
    destruct Hseed as [->|(? & ? & [= <- <-] & ?)]; [by right|by left].
Qed.

(** ** What the decoder does with the encoder's output *)

(** An entry the caller may log: a non-zero type and data within the limit
    the decoder has for a record. *)
Definition entry_ok (e : entry) : Prop :=
  0 < e.1 < 2 ^ 63 /\ blen e.2 + 40 <= maxRecordSize.

Lemma entry_stamped c e : 0 <= c < 2 ^ 32 -> entry_ok e ->
  record_ok (stamped c e) /\ e.1 <> 0.
Proof.
  intros Hc [Ht Hl]. unfold maxRecordSize in Hl.
  pose proof (chain_bounds c e.2 Hc). repeat split; cbn; lia.
Qed.

Lemma chain_all_bounds c es : 0 <= c < 2 ^ 32 -> 0 <= chain_all c es < 2 ^ 32.
Proof.
  revert c. induction es as [|e es IH]; intros c Hc; [done|]. by apply IH, chain_bounds.
Qed.

Context {W : Type} {writer : Writer W} {wlaws : WriterLaws W}.

(** A caller's sequence of [Encode] calls, up to the first error. *)
Fixpoint encode_all (e : Encoder W) (es : list entry) : option (Encoder W * option wal_error) :=
  match es with
  | [] => Some (e, None)
  | en :: es =>
      '(e, _, res) ← Encode e (mkRecord en.1 0 en.2);
      match res with inl x => Some (e, Some x) | inr _ => encode_all e es end
  end.

Lemma encode_all_spec start es e :
  enc_wf start e -> Forall entry_ok es ->
  exists e' err, encode_all e es = Some (e', err) /\
    match err with
    | None => enc_wf start e' /\ CRC e' = chain_all (CRC e) es /\
        exists b, is_log (CRC e) es b /\ stream (pw e') = stream (pw e) ++ b /\
          Encoder.offset e' = Encoder.offset e + blen b
    | Some x => exists y, x = ErrIo_ y
    end.
Proof.
  revert e. induction es as [|en es IH]; intros e He Hes; cbn [encode_all].
  { do 2 eexists. split; [reflexivity|]. split; [done|]. split; [done|].
    exists []. rewrite app_nil_r, blen_nil, Z.add_0_r. repeat split. constructor. }
  apply Forall_cons in Hes as [Hen Hes].
  assert (Hc : 0 <= CRC e < 2 ^ 32) by apply He.
  destruct (entry_stamped _ _ Hc Hen) as [Hok Hnz].
  destruct (Encode_spec start e (mkRecord en.1 0 en.2) He) as (e1 & rec' & res & -> & -> & Hcrc & Hres).
  cbn [mbind option_bind]. destruct res as [x|off].
  { do 2 eexists. split; [reflexivity|]. destruct x; try done; [|by eexists].
    destruct Hres as [Hm _]. destruct (record_marshals _ Hok) as [? Hm'].
    change (Marshal (stamped (CRC e) en) = None) in Hm. by rewrite Hm' in Hm. }
  destruct Hres as (_ & He1 & data & Hm & Hst & Hoff).
  destruct (IH e1 He1 Hes) as (e' & err & -> & Herr). do 2 eexists. split; [reflexivity|].
  destruct err as [x|]; [done|]. destruct Herr as (He' & Hc' & b & Hl & Hst' & Ho').
  cbn [Data] in Hcrc. rewrite Hcrc in *. split; [done|]. split; [done|].
  exists (frame_of data ++ b). split; [|split].
  - constructor; try done. pose proof (record_size _ _ Hok Hm) as Hsz. cbn [Data stamped] in Hsz.
    destruct Hen. lia.
  - by rewrite Hst', Hst, app_assoc.
  - rewrite Ho', Hoff, blen_app. lia.
Qed.

Lemma NewEncoder_wf (w0 : W) prev po bs :
  0 <= po -> 0 <= prev < 2 ^ 32 -> enc_wf (po - blen (written w0)) (NewEncoder w0 prev po bs).
Proof. intros Hpo Hp. split; [by apply NewPageWriter_wf|]. split; [apply NewPageWriter_in_phase|]. by split. Qed.

(** C13: Encoder and decoder are inverse on entries of a positive type and at
    most 64 MiB less 40 bytes of data ([entry_ok]; [oversized_record_corrupts]
    shows what happens beyond): whatever such entries are encoded on a lawful
    writer, if encoding and flushing succeed then the device has gained
    a byte string, 8-byte aligned and counted by the encoder's offset, from
    which a decoder that continues the CRC chain reads exactly these records,
    in order, whether the rest of the file is missing or preallocated zeros;
    it stops at a clean end, at the right offset and with the encoder's CRC.
    The only errors while encoding are those of the device. *)
Theorem log_roundtrip (w0 : W) (prev po bs : Z) (es : list entry) :
  0 <= po -> 0 <= prev < 2 ^ 32 -> Forall entry_ok es ->
  exists e err, encode_all (NewEncoder w0 prev po bs) es = Some (e, err) /\
    match err with
    | Some x => exists y, x = ErrIo_ y
    | None =>
        exists e2 ferr, Flush e = Some (e2, ferr) /\
        (ferr = None -> exists b,
           written (w (pw e2)) = written w0 ++ b /\ blen b mod 8 = 0 /\ Offset e2 = po + blen b /\
           forall d n, seeded d prev es -> r d = b ++ replicate n x00 ->
             exists d' x, decodes d (stamp_all prev es) d' x /\ clean_end x /\
               LastOffset d' = LastOffset d + blen b /\
               (es <> [] -> LastCRC d' = CRC e2))
    end.
Proof.
  intros Hpo Hp Hes. pose proof (NewEncoder_wf w0 prev po bs Hpo Hp) as He.
  destruct (encode_all_spec _ es _ He Hes) as (e & err & Hrun & Herr). exists e, err.
  split; [done|]. destruct err as [x|]; [done|]. destruct Herr as ((Hwf & Hph & _) & Hcrc & b & Hl & Hst & Ho).
  destruct (Flush_spec (pw e) _ Hwf Hph) as (p & ferr & Hf & _ & _ & _ & _ & Hw).
  unfold Flush. rewrite Hf. do 2 eexists. split; [reflexivity|]. intros ->. exists b.
  destruct Hw as [Hw _]. cbn [pw set_pw]. rewrite Hw, Hst. unfold NewEncoder at 1. cbn [pw].
  rewrite NewPageWriter_stream. split; [done|]. split; [by eapply is_log_aligned|]. split; [exact Ho|].
  intros d n Hs Hr. destruct (decodes_whole _ _ _ _ _ Hl Hp Hs Hr) as (d' & x & H1 & H2 & H3 & H4).
  exists d', x. split; [done|]. split; [done|]. split; [done|]. intros Hne. rewrite H4 by done.
  by rewrite <- Hcrc.
Qed.

(** A log file cut at any byte (a crash before the rest reached the disk)
    is read up to the cut: the decoder returns exactly the records that are
    complete in the file and stops at a clean end, at the end of the last of
    them; it never reports corruption. *)
Theorem truncated_log (c : Z) (es : list entry) (b : bytes) (d : Decoder) (k : Z) :
  is_log c es b -> 0 <= c < 2 ^ 32 -> seeded d c es -> 0 <= k <= blen b ->
  r d = take (Z.to_nat k) b ->
  exists es1 es2 b1 b2 d' x,
    es = es1 ++ es2 /\ b = b1 ++ b2 /\ is_log c es1 b1 /\
    blen b1 <= k /\
    (forall e es3 data, es2 = e :: es3 -> Marshal (stamped (chain_all c es1) e) = Some data ->
      k < blen b1 + blen (frame_of data)) /\
    decodes d (stamp_all c es1) d' x /\ clean_end x /\ LastOffset d' = LastOffset d + blen b1.
Proof.
  intros Hl Hc Hs Hk Hr.
  destruct (decodes_prefix _ _ _ _ _ Hl Hc Hs Hk Hr)
    as (es1 & es2 & b1 & b2 & d' & x & ? & ? & ? & _ & ? & ? & ? & ? & ? & _).
  exists es1, es2, b1, b2, d', x. auto 9.
Qed.

(** C22: A write torn at a sector boundary over preallocated zeros is
    recoverable: after any complete log, a frame of which only the bytes up to
    a 512-byte boundary reached the disk does not make the decoder report
    corruption; all records before it are returned, at most one more (only if
    its CRC verifies), and the reading ends cleanly. *)
Theorem torn_write_recoverable (c : Z) (es : list entry) (b data : bytes) (d : Decoder) (k : Z) (m : nat) :
  is_log c es b -> 0 <= c < 2 ^ 32 -> seeded d c es -> lastValidOff d = 0 ->
  0 < blen data <= maxRecordSize -> 0 <= k < blen (frame_of data) ->
  (blen b + k) mod minSectorSize = 0 ->
  r d = b ++ take (Z.to_nat k) (frame_of data) ++ replicate m x00 ->
  exists rs d' x, decodes d (stamp_all c es ++ rs) d' x /\ (length rs <= 1)%nat /\ clean_end x.
Proof.
  intros Hl Hc Hs Ho Hdata Hk Hsec Hr. pose proof (blen_nonneg b).
  set (d1 := mkDecoder (take (Z.to_nat k) (frame_of data) ++ replicate m x00)
    (match es with [] => crc d | _ => Digest.New (chain_all c es) crcTable end) (blen b)).
  assert (Hrun : forall rs d' x, decodes d1 rs d' x -> decodes d (stamp_all c es ++ rs) d' x).
  { intros rs d' x H1. eapply decodes_log; [done..|]. by rewrite Ho, Z.add_0_l. }
  destruct (Decode_torn d1 data k m) as (d' & res & Hd & Hres);
    [done|done|by eapply is_log_aligned|done|done|done|].
  destruct Hres as [-> | [-> | (rec & m' & -> & Hr')]].
  - exists [], d', (ErrIo_ EOF). split; [apply Hrun; by constructor|]. split; [cbn; lia|by left].
  - exists [], d', (ErrIo_ ErrUnexpectedEOF).
    split; [apply Hrun; by constructor|]. split; [cbn; lia|by right].
  - destruct (Decode_zeros d' m' Hr') as (d2 & e & Hd2 & He & _).
    destruct (decodes_end _ _ _ Hd2 He) as [H0 H1].
    exists [rec], d2, (ErrIo_ e). split; [|done]. apply Hrun. by econstructor.
Qed.

(** The encoder has no size limit but the decoder has: a record with more
    than 64 MiB of data is written without error, and reading it back reports
    corruption. *)
Theorem oversized_record_corrupts (e : Encoder W) (start ty : Z) (dat : bytes) :
  enc_wf start e -> 0 < ty < 2 ^ 63 -> maxRecordSize < blen dat < 2 ^ 30 ->
  exists e' rec' res, Encode e (mkRecord ty 0 dat) = Some (e', rec', res) /\
    (forall off, res = inr off -> exists data, stream (pw e') = stream (pw e) ++ frame_of data /\
       forall d rest, r d = frame_of data ++ rest -> exists d', Decode d = Some (d', inl ErrCorrupted)) /\
    (forall x, res = inl x -> exists y, x = ErrIo_ y).
Proof.
  intros He Ht Hlen. assert (Hc : 0 <= CRC e < 2 ^ 32) by apply He.
  destruct (Encode_spec start e (mkRecord ty 0 dat) He) as (e' & rec' & res & Hrun & -> & _ & Hres).
  assert (Hok : record_ok (stamped (CRC e) (ty, dat))).
  { pose proof (chain_bounds _ dat Hc). repeat split; cbn; lia. }
  do 3 eexists. split; [exact Hrun|]. split.
  - intros off ->. destruct Hres as (_ & _ & data & Hm & Hst & _). exists data. split; [done|].
    intros d rest Hr. pose proof (record_size _ _ Hok Hm) as Hsz. cbn [Data stamped snd] in Hsz.
    unfold frame_of in Hr. destruct (encodeFrameSize (blen data)) as [l p] eqn:El.
    rewrite <- !app_assoc in Hr.
    rewrite (Decode_len d (blen data) (data ++ replicate (Z.to_nat p) x00 ++ rest));
      [|unfold maxRecordSize in *; lia|by rewrite El].
    rewrite (proj2 (Z.ltb_lt _ _)) by lia. by eexists.
  - intros x ->. destruct x; try done; [|by eexists]. destruct Hres as [Hm _].
    destruct (record_marshals _ Hok) as [? Hm'].
    change (Marshal (stamped (CRC e) (ty, dat)) = None) in Hm. by rewrite Hm' in Hm.
Qed.
End log.

(** ** Examples, over the wire-format codec and an in-memory file *)

Import Wire.

(** The log of a list of entries, computed. *)
Fixpoint log_bytes (c : Z) (es : list entry) : option bytes :=
  match es with
  | [] => Some []
  | e :: es =>
      data ← Marshal (stamped c e); b ← log_bytes (chain c e.2) es; Some (frame_of data ++ b)
  end.

Lemma log_bytes_is_log c es b :
  0 <= c < 2 ^ 32 -> Forall entry_ok es -> log_bytes c es = Some b -> is_log c es b.
Proof.
  revert c b. induction es as [|e es IH]; intros c b Hc Hes; cbn [log_bytes].
  { intros [= <-]. constructor. }
  apply Forall_cons in Hes as [He Hes]. destruct (entry_stamped _ _ Hc He) as [Hok Hnz].
  destruct (Marshal _) as [data|] eqn:Hm; [|done]. cbn [mbind option_bind].
  destruct (log_bytes _ es) as [b'|] eqn:Hb; [|done]. intros [= <-].
  constructor; auto using chain_bounds. pose proof (record_size _ _ Hok Hm) as Hsz.
  cbn [Data stamped] in Hsz. destruct He. lia.
Qed.

Definition demo_entries : list entry := [(CrcType, []); (DataType, [x61; x62]); (DataType, [x63])].

Lemma demo_entries_ok : Forall entry_ok demo_entries.
Proof.
  unfold demo_entries, CrcType, DataType.
  repeat (apply Forall_cons; split; [unfold entry_ok, blen, maxRecordSize; cbn; lia|]).
  by apply Forall_nil.
Qed.

Definition demo_bytes : bytes := Eval vm_compute in default [] (log_bytes 0 demo_entries).

Lemma demo_is_log : is_log 0 demo_entries demo_bytes.
Proof. apply log_bytes_is_log; [lia|exact demo_entries_ok|by vm_compute]. Qed.

Lemma log_roundtrip_witness :
  exists e, encode_all (NewEncoder (mkFile [] 0 4096 true) 0 0 64) demo_entries = Some (e, None) /\
    exists d' x, decodes (NewDecoder (demo_bytes ++ replicate 100 x00))
      (stamp_all 0 demo_entries) d' x /\ clean_end x /\ LastOffset d' = blen demo_bytes.
Proof.
  destruct (log_roundtrip (mkFile [] 0 4096 true) 0 0 64 demo_entries ltac:(lia) ltac:(lia) demo_entries_ok)
    as (e & err & Hrun & Herr).
  vm_compute in Hrun. injection Hrun as He <-. exists e. subst e. split; [reflexivity|].
  destruct Herr as (e2 & ferr & Hf & Hok). vm_compute in Hf. injection Hf as He2 <-. subst e2.
  destruct (Hok eq_refl) as (b & Hb & _ & _ & Hdec).
  assert (b = demo_bytes) as -> by (vm_compute in Hb; symmetry; exact Hb).
  destruct (Hdec (NewDecoder (demo_bytes ++ replicate 100 x00)) 100%nat) as (d' & x & H1 & H2 & H3 & _).
  - split; [done|]. by left.
  - done.
  - exists d', x. auto.
Defined.

Lemma truncated_log_witness :
  is_log 0 demo_entries demo_bytes /\
  exists es1 d' x, decodes (NewDecoder (take 40 demo_bytes)) (stamp_all 0 es1) d' x /\ clean_end x.
Proof.
  split; [exact demo_is_log|].
  destruct (truncated_log 0 demo_entries demo_bytes (NewDecoder (take 40 demo_bytes)) 40
    demo_is_log ltac:(lia) ltac:(by split; [|left]) ltac:(by vm_compute) eq_refl)
    as (es1 & _ & _ & _ & d' & x & _ & _ & _ & _ & _ & Hd & Hx & _).
  by exists es1, d', x.
Defined.

(** A record of 1000 bytes after [demo_bytes], torn at the first sector
    boundary. *)
Definition big_entry : entry := (DataType, replicate 1000 x41).
Definition big_data : bytes :=
  Eval vm_compute in default [] (Marshal (stamped (chain_all 0 demo_entries) big_entry)).

Lemma torn_write_recoverable_witness :
  exists k, 0 <= k < blen (frame_of big_data) /\ (blen demo_bytes + k) mod minSectorSize = 0 /\
  exists rs d' x,
    decodes (NewDecoder (demo_bytes ++ take (Z.to_nat k) (frame_of big_data) ++ replicate 3000 x00))
      (stamp_all 0 demo_entries ++ rs) d' x /\ (length rs <= 1)%nat /\ clean_end x.
Proof.
  exists (512 - blen demo_bytes). split; [by vm_compute|]. split; [by vm_compute|].
  apply (torn_write_recoverable 0 demo_entries demo_bytes big_data _ (512 - blen demo_bytes) 3000
    demo_is_log);
    [lia|by split; [|left]|done|by vm_compute|by vm_compute|by vm_compute|reflexivity].
Defined.

Lemma oversized_record_corrupts_witness :
  let e := NewEncoder (mkFile [] 0 100000000 true) 0 0 4096 in
  let dat := replicate (Z.to_nat 70000000) x41 in
  exists e' rec' res, Encode e (mkRecord DataType 0 dat) = Some (e', rec', res) /\
    (forall off, res = inr off -> exists data, stream (pw e') = stream (pw e) ++ frame_of data /\
       forall d rest, r d = frame_of data ++ rest -> exists d', Decode d = Some (d', inl ErrCorrupted)).
Proof.
  intros e dat.
  assert (He : enc_wf (0 - blen (written (mkFile [] 0 100000000 true))) e) by (apply NewEncoder_wf; lia).
  assert (Hdat : blen dat = 70000000) by (unfold dat; rewrite blen_replicate, Z2Nat.id; lia).
  clearbody e dat.
  destruct (oversized_record_corrupts e _ DataType dat He) as (e' & rec' & res & H1 & H2 & _).
  - unfold DataType. lia.
  - rewrite Hdat. unfold maxRecordSize. lia.
  - by exists e', rec', res.
Defined.
