(* ===== verification/SyncGroup.v ===== *)
(** Group commit ([pkg/wal/sync_group.go]) as a transition system.  A state
    holds the group's fields, the leader's place in the loop of [sync], and two
    counters of what has happened: how many appends have completed ([total])
    and how many had completed when [syncFunc] last returned nil ([acked]).
    [syncFunc] runs under the log's mutex, so it is atomic with respect to
    appends; the steps under the group's mutex are atomic with respect to each
    other; the leader runs [syncFunc] and notifies its followers outside it.

    Nothing is said here about durability: [syncFunc] is a parameter of the
    group, and the outcome of a call of it is part of the event.  GroupCommit.v
    runs the group over the log, whose [Sync] decides the outcome, and shows
    what a nil from [sync] is worth.

    Callers are numbered; [need] records how many appends had completed when a
    caller entered [sync], for the callers that have not returned. *)
From S2P Require Import Prelude.

#[local] Open Scope nat_scope.

Inductive phase : Type :=
| Syncing (batch : list nat)                  (* before [sg.syncFunc()] *)
| Notifying (batch : list nat) (ok : bool).   (* sending [lastErr] to the batch *)

Record syncGroup : Type := mkSyncGroup {
  pending : list nat;
  syncing : bool;
  leader : option (nat * phase);
  total : nat;
  acked : nat;
  need : gmap nat nat;
  returned : list (nat * nat * bool) }.

Definition newSyncGroup : syncGroup := mkSyncGroup [] false None 0 0 ∅ [].

(** What can happen next: an append completes, a caller enters [sync], the
    leader's [syncFunc] returns, the leader notifies one follower, the leader
    looks for latecomers. *)
Inductive event : Type :=
| EAppend
| ECall (c : nat)
| ESync (ok : bool)
| ENotify
| ERecheck.

(** A caller returns from [sync]. *)
Definition return_caller (s : syncGroup) (c : nat) (ok : bool) : syncGroup :=
  mkSyncGroup (pending s) (syncing s) (leader s) (total s) (acked s) (delete c (need s))
    (match need s !! c with Some n => (c, n, ok) :: returned s | None => returned s end).

Definition set_leader (s : syncGroup) (l : option (nat * phase)) : syncGroup :=
  mkSyncGroup (pending s) (syncing s) l (total s) (acked s) (need s) (returned s).

(** [batch := sg.pending; sg.pending = nil]. *)
Definition take_batch (s : syncGroup) (l : nat) : syncGroup :=
  mkSyncGroup [] true (Some (l, Syncing (pending s))) (total s) (acked s) (need s) (returned s).

Definition step (s : syncGroup) (e : event) : option syncGroup :=
  match e with
  | EAppend =>
      Some (mkSyncGroup (pending s) (syncing s) (leader s) (S (total s)) (acked s) (need s) (returned s))
  | ECall c =>
      match need s !! c with
      | Some _ => None
      | None =>
          let s' := mkSyncGroup (pending s) (syncing s) (leader s) (total s) (acked s)
                      (<[c := total s]> (need s)) (returned s) in
          if syncing s'
          then Some (mkSyncGroup (pending s' ++ [c]) (syncing s') (leader s') (total s') (acked s')
                       (need s') (returned s'))
          else Some (take_batch s' c)
      end
  | ESync ok =>
      match leader s with
      | Some (l, Syncing batch) =>
          Some (mkSyncGroup (pending s) (syncing s) (Some (l, Notifying batch ok)) (total s)
                  (if ok then total s else acked s) (need s) (returned s))
      | _ => None
      end
  | ENotify =>
      match leader s with
      | Some (l, Notifying (c :: batch) ok) =>
          Some (return_caller (set_leader s (Some (l, Notifying batch ok))) c ok)
      | _ => None
      end
  | ERecheck =>
      match leader s with
      | Some (l, Notifying [] ok) =>
          match pending s with
          | [] =>
              Some (return_caller (mkSyncGroup [] false None (total s) (acked s) (need s) (returned s)) l ok)
          | _ => Some (take_batch s l)
          end
      | _ => None
      end
  end.

(** A run of the group; an event that is not enabled ends it. *)
Fixpoint run (s : syncGroup) (es : list event) : option syncGroup :=
  match es with
  | [] => Some s
  | e :: es => s ← step s e; run s es
  end.

Definition reachable (s : syncGroup) : Prop := exists es, run newSyncGroup es = Some s.

(** ** The invariant *)

(** The callers that wait for the leader. *)
Definition followers (s : syncGroup) : list nat :=
  match leader s with
  | None => pending s
  | Some (l, Syncing batch) => l :: batch ++ pending s
  | Some (l, Notifying batch _) => l :: batch ++ pending s
  end.

(** The callers covered by a [syncFunc] that returned nil. *)
Definition covered (s : syncGroup) : list nat :=
  match leader s with Some (l, Notifying batch true) => l :: batch | _ => [] end.

Record invariant (s : syncGroup) : Prop := {
  inv_leader : syncing s = true <-> leader s <> None;
  inv_idle : syncing s = false -> pending s = [];
  inv_waiting : forall c, c ∈ followers s <-> is_Some (need s !! c);
  inv_nodup : NoDup (followers s);
  inv_total : forall c n, need s !! c = Some n -> n <= total s;
  inv_acked : acked s <= total s;
  inv_covered : forall c n, c ∈ covered s -> need s !! c = Some n -> n <= acked s;
  inv_returned : forall c n, (c, n, true) ∈ returned s -> n <= acked s }.

Lemma invariant_new : invariant newSyncGroup.
Proof.
  split; cbn; try done; try lia; try constructor; try set_solver.
  intros []. done.
Qed.

Lemma lookup_need_insert (m : gmap nat nat) c n c' n' :
  <[c := n]> m !! c' = Some n' -> c' = c /\ n' = n \/ m !! c' = Some n'.
Proof. rewrite lookup_insert_Some. naive_solver. Qed.

Lemma covered_followers s c : c ∈ covered s -> c ∈ followers s.
Proof. unfold covered, followers. destruct (leader s) as [[l [b|b []]]|]; set_solver. Qed.

Lemma step_append s : invariant s -> invariant
  (mkSyncGroup (pending s) (syncing s) (leader s) (S (total s)) (acked s) (need s) (returned s)).
Proof.
  intros I. destruct I. split; cbn; try done.
  - intros c n H. specialize (inv_total0 c n H). lia.
  - lia.
Qed.

Lemma step_call s c s' : invariant s -> step s (ECall c) = Some s' -> invariant s'.
Proof.
  intros I. cbn. destruct (need s !! c) eqn:Ec; [done|].
  assert (Hnew : c ∉ followers s) by (rewrite (inv_waiting _ I), Ec; by intros []).
  assert (Hneed : forall x, is_Some (<[c := total s]> (need s) !! x) <-> x = c \/ x ∈ followers s).
  { intros x. rewrite (inv_waiting _ I), lookup_insert_is_Some. destruct (decide (x = c)); naive_solver. }
  assert (Htot : forall x n, <[c := total s]> (need s) !! x = Some n -> n <= total s).
  { intros x n [[-> ->]|H]%lookup_need_insert; [done|by eapply inv_total]. }
  destruct (syncing s) eqn:Es; intros [= <-].
  - assert (exists l ph, leader s = Some (l, ph)) as (l & ph & El).
    { apply (inv_leader _ I) in Es. destruct (leader s) as [[l ph]|]; [eauto|done]. }
    set (s' := mkSyncGroup _ _ _ _ _ _ _).
    assert (Hf : followers s' = followers s ++ [c]).
    { unfold followers. cbn. rewrite El. destruct ph; cbn; by rewrite app_assoc. }
    split; rewrite ?Hf; cbn; try apply I; try done.
    + by rewrite El.
    + intros x. rewrite Hneed. set_solver.
    + apply NoDup_app. split; [apply I|]. split; [set_solver|apply NoDup_singleton].
    + intros x n Hx [[-> ->]|H]%lookup_need_insert; [|by eapply (inv_covered _ I)].
      by apply (covered_followers s) in Hx.
  - assert (leader s = None) as El.
    { destruct (leader s) eqn:El; [|done]. assert (syncing s = true); [|congruence].
      by apply (inv_leader _ I); rewrite El. }
    pose proof (inv_idle _ I Es) as Hp. unfold followers in *. rewrite El, Hp in *.
    split; unfold followers; cbn; rewrite ?Hp; try apply I; try done.
    + intros x. rewrite Hneed. set_solver.
    + apply NoDup_singleton.
    + intros x n H. set_solver.
Qed.

Lemma leader_syncing s p : invariant s -> leader s = Some p -> syncing s = true.
Proof. intros I El. apply (inv_leader _ I). by rewrite El. Qed.

Lemma step_sync s ok s' : invariant s -> step s (ESync ok) = Some s' -> invariant s'.
Proof.
  intros I. cbn. destruct (leader s) as [[l [batch|]]|] eqn:El; try done. intros [= <-].
  pose proof (leader_syncing _ _ I El) as Es.
  assert (Hf : followers s = l :: batch ++ pending s) by (unfold followers; by rewrite El).
  pose proof (inv_acked _ I) as Hfl.
  split; unfold followers; cbn; rewrite <- ?Hf; try apply I; try done; try (by rewrite Es).
  - by destruct ok.
  - intros c n Hc Hn. destruct ok; [by eapply inv_total|set_solver].
  - intros c n Hr. pose proof (inv_returned _ I c n Hr). destruct ok; lia.
Qed.

(** Returning a caller that waits, and what follows for the rest. *)
Lemma step_return s s0 c ok :
  invariant s ->
  need s0 = need s -> total s0 = total s -> acked s0 = acked s -> returned s0 = returned s ->
  (syncing s0 = true <-> leader s0 <> None) -> (syncing s0 = false -> pending s0 = []) ->
  followers s ≡ₚ c :: followers s0 -> (ok = true -> c ∈ covered s) -> covered s0 ⊆ covered s ->
  invariant (return_caller s0 c ok).
Proof.
  intros I Hn Ht Hf Hr Hl Hi Hp Hok Hcov.
  assert (Hnd : NoDup (c :: followers s0)) by (rewrite <- Hp; apply I).
  apply NoDup_cons in Hnd as [Hc Hnd].
  assert (Hfo : followers (return_caller s0 c ok) = followers s0) by done.
  assert (Hco : covered (return_caller s0 c ok) = covered s0) by done.
  assert (Hsome : exists n, need s !! c = Some n) by (apply (inv_waiting _ I); rewrite Hp; by left).
  destruct Hsome as [n Hcn].
  split; rewrite ?Hfo, ?Hco; cbn; rewrite ?Hn, ?Ht, ?Hf, ?Hr, ?Hcn; try done.
  - intros x. rewrite lookup_delete_is_Some, <- (inv_waiting _ I), Hp. set_solver.
  - intros x m [_ Hx]%lookup_delete_Some. by eapply inv_total.
  - apply I.
  - intros x m Hx [_ Hm]%lookup_delete_Some. eapply (inv_covered _ I); [by apply Hcov|done].
  - intros x m [[= -> -> <-]|Hx]%elem_of_cons; [|by eapply inv_returned].
    eapply (inv_covered _ I); [by apply Hok|done].
Qed.

Lemma step_notify s s' : invariant s -> step s ENotify = Some s' -> invariant s'.
Proof.
  intros I. cbn. destruct (leader s) as [[l [|[|c batch] ok]]|] eqn:El; try done. intros [= <-].
  pose proof (leader_syncing _ _ I El) as Es.
  apply (step_return s); try done; cbn; rewrite ?Es; try done.
  - unfold followers. cbn. rewrite El. constructor.
  - intros ->. unfold covered. rewrite El. set_solver.
  - unfold covered. cbn. rewrite El. destruct ok; set_solver.
Qed.

Lemma step_recheck s s' : invariant s -> step s ERecheck = Some s' -> invariant s'.
Proof.
  intros I. cbn. destruct (leader s) as [[l [|[|] ok]]|] eqn:El; try done.
  assert (Hf : followers s = l :: pending s) by (unfold followers; by rewrite El).
  destruct (pending s) as [|c p] eqn:Ep; intros [= <-].
  - apply (step_return s); try done; cbn; try done; unfold covered; cbn; rewrite ?El.
    + by rewrite Hf.
    + intros ->. set_solver.
    + set_solver.
  - pose proof I as []. split; unfold followers; cbn; rewrite ?Ep, ?app_nil_r, <- ?Hf; try done.
    intros x n H. set_solver.
Qed.

Lemma step_invariant s e s' : invariant s -> step s e = Some s' -> invariant s'.
Proof.
  intros I. destruct e.
  - cbn. intros [= <-]. by apply step_append.
  - by apply step_call.
  - by apply step_sync.
  - by apply step_notify.
  - by apply step_recheck.
Qed.

Lemma run_invariant es s s' : invariant s -> run s es = Some s' -> invariant s'.
Proof.
  revert s. induction es as [|e es IH]; cbn; intros s I; [by intros [= <-]|].
  destruct (step s e) as [s1|] eqn:E; cbn; [|done]. apply IH. by eapply step_invariant.
Qed.

Lemma reachable_invariant s : reachable s -> invariant s.
Proof. intros [es H]. eapply run_invariant; [apply invariant_new|exact H]. Qed.

(** ** Progress *)

Lemma run_app s es1 es2 : run s (es1 ++ es2) = s1 ← run s es1; run s1 es2.
Proof.
  revert s. induction es1 as [|e es1 IH]; intros s; [done|]. cbn.
  destruct (step s e); [apply IH|done].
Qed.

Lemma notify_batch s l batch ok :
  leader s = Some (l, Notifying batch ok) ->
  exists s', run s (replicate (length batch) ENotify) = Some s' /\
    leader s' = Some (l, Notifying [] ok) /\ pending s' = pending s.
Proof.
  revert s. induction batch as [|c batch IH]; intros s El; cbn.
  { exists s. by rewrite El. }
  rewrite El. cbn. exact (IH (return_caller (set_leader s (Some (l, Notifying batch ok))) c ok) eq_refl).
Qed.

(** The events of the leader alone. *)
Definition leader_event (e : event) : Prop := e = ESync true \/ e = ENotify \/ e = ERecheck.

Lemma leader_replicate n : Forall leader_event (replicate n ENotify).
Proof. apply Forall_replicate. unfold leader_event. auto. Qed.

Lemma leader_recheck es : Forall leader_event es -> Forall leader_event (ERecheck :: es).
Proof. intros. constructor; [|done]. right. by right. Qed.

Lemma finish_idle s l ok :
  leader s = Some (l, Notifying [] ok) -> pending s = [] ->
  exists s', run s [ERecheck] = Some s' /\ followers s' = [].
Proof. intros El Hp. cbn. rewrite El, Hp. cbn. by eexists. Qed.

Lemma finish_syncing s l batch :
  leader s = Some (l, Syncing batch) -> pending s = [] ->
  exists es s', Forall leader_event es /\ run s es = Some s' /\ followers s' = [].
Proof.
  intros El Hp. set (s1 := mkSyncGroup [] (syncing s) (Some (l, Notifying batch true)) (total s)
    (total s) (need s) (returned s)).
  destruct (notify_batch s1 l batch true eq_refl) as (s2 & H2 & El2 & Hp2).
  destruct (finish_idle s2 l true El2 Hp2) as (s3 & H3 & Hf).
  exists (ESync true :: replicate (length batch) ENotify ++ [ERecheck]), s3.
  split.
  { constructor; [by left|]. apply Forall_app. split; [apply leader_replicate|].
    by apply leader_recheck. }
  split; [|done]. cbn [run]. unfold step at 1. rewrite El, Hp. cbn [mbind option_bind].
  fold s1. rewrite run_app, H2. exact H3.
Qed.

Lemma finish_notifying s l batch ok :
  leader s = Some (l, Notifying batch ok) ->
  exists es s', Forall leader_event es /\ run s es = Some s' /\ followers s' = [].
Proof.
  intros El. destruct (notify_batch s l batch ok El) as (s2 & H2 & El2 & Hp2).
  destruct (pending s) as [|c p] eqn:Ep.
  - destruct (finish_idle s2 l ok El2 Hp2) as (s3 & H3 & Hf).
    exists (replicate (length batch) ENotify ++ [ERecheck]), s3. split.
    { apply Forall_app. split; [apply leader_replicate|]. by apply leader_recheck. }
    by rewrite run_app, H2.
  - destruct (finish_syncing (take_batch s2 l) l (pending s2) eq_refl eq_refl) as (es & s3 & Hes & H3 & Hf).
    exists (replicate (length batch) ENotify ++ ERecheck :: es), s3. split.
    { apply Forall_app. split; [apply leader_replicate|]. by apply leader_recheck. }
    split; [|done]. rewrite run_app, H2. cbn [mbind option_bind run]. unfold step at 1.
    by rewrite El2, Hp2.
Qed.

Lemma finish s : invariant s ->
  exists es s', Forall leader_event es /\ run s es = Some s' /\ followers s' = [].
Proof.
  intros I. destruct (leader s) as [[l [batch|batch ok]]|] eqn:El.
  - set (s1 := mkSyncGroup (pending s) (syncing s) (Some (l, Notifying batch true)) (total s) (total s)
      (need s) (returned s)).
    destruct (finish_notifying s1 l batch true eq_refl) as (es & s' & Hes & Hrun & Hf).
    exists (ESync true :: es), s'. split; [constructor; [by left|done]|]. split; [|done].
    cbn [run]. unfold step at 1. by rewrite El.
  - by eapply finish_notifying.
  - exists [], s. split; [constructor|]. split; [done|]. unfold followers. rewrite El.
    apply (inv_idle _ I). destruct (syncing s) eqn:Es; [|done]. by apply (inv_leader _ I) in Es.
Qed.

Lemma return_caller_kept s c ok x n :
  need s !! x = Some n ->
  need (return_caller s c ok) !! x = Some n \/ (x, n, ok) ∈ returned (return_caller s c ok).
Proof.
  intros Hx. unfold return_caller. cbn. destruct (decide (c = x)) as [<-|Hne].
  - right. rewrite Hx. by left.
  - left. by rewrite lookup_delete_ne.
Qed.

Lemma return_caller_grows s c ok : returned s ⊆ returned (return_caller s c ok).
Proof. unfold return_caller. cbn. destruct (need s !! c); set_solver. Qed.

(** A caller that waits goes on waiting or returns. *)
Lemma run_kept es s s' c n :
  Forall leader_event es -> run s es = Some s' -> need s !! c = Some n ->
  need s' !! c = Some n \/ exists ok, (c, n, ok) ∈ returned s'.
Proof.
  intros Hes. assert (Hgen : forall s, run s es = Some s' ->
    (need s !! c = Some n \/ exists ok, (c, n, ok) ∈ returned s) ->
    need s' !! c = Some n \/ exists ok, (c, n, ok) ∈ returned s').
  { clear s. induction Hes as [|e es He Hes IH]; cbn; intros s; [by intros [= <-]|].
    destruct (step s e) as [s1|] eqn:E; cbn; [|done]. intros Hrun Hc. apply (IH s1 Hrun).
    assert (Hst : (exists x ok s0, s1 = return_caller s0 x ok /\ need s0 = need s /\ returned s0 = returned s) \/
      (need s1 = need s /\ returned s1 = returned s)).
    { destruct He as [-> | [-> | ->]]; cbn in E.
      - destruct (leader s) as [[l []]|]; try done. injection E as <-. by right.
      - destruct (leader s) as [[l [|[] ok]]|]; try done. injection E as <-. left. by do 3 eexists.
      - destruct (leader s) as [[l [|[] ok]]|]; try done.
        destruct (pending s); injection E as <-; [left; by do 3 eexists|by right]. }
    destruct Hst as [(x & ok & s0 & -> & Hn & Hr)|[Hn Hr]]; [|by rewrite Hn, Hr].
    destruct Hc as [Hc|[ok' Hc]].
    - rewrite <- Hn in Hc. destruct (return_caller_kept s0 x ok c n Hc); eauto.
    - right. exists ok'. apply (return_caller_grows s0 x ok). by rewrite Hr. }
  intros Hrun Hc. apply (Hgen s Hrun). by left.
Qed.

(** ** Theorems *)

(** A caller that got no error was covered by a call of [syncFunc] that
    returned nil after all appends it came with had completed. *)
Lemma returned_acked (s : syncGroup) (c n : nat) :
  reachable s -> (c, n, true) ∈ returned s -> n <= acked s <= total s.
Proof.
  intros Hs%reachable_invariant Hc. split; [by eapply inv_returned|by apply inv_acked].
Qed.

(** C29: Nobody is stranded: from every reachable state, steps of the leader
    alone (its [syncFunc] succeeding) lead to a state in which no caller waits
    and every caller that waited has returned with the position it came with;
    and while the group is idle nobody waits. *)
Theorem group_commit_progress (s : syncGroup) :
  reachable s ->
  (syncing s = false -> need s = ∅) /\
  exists es s', Forall leader_event es /\ run s es = Some s' /\ syncing s' = false /\ need s' = ∅ /\
    forall c n, need s !! c = Some n -> exists ok, (c, n, ok) ∈ returned s'.
Proof.
  intros Hr. pose proof (reachable_invariant _ Hr) as I.
  assert (Hempty : forall s, invariant s -> followers s = [] -> need s = ∅).
  { intros s0 I0 Hf. apply map_empty. intros c. destruct (need s0 !! c) eqn:Ec; [|done].
    assert (Hc : c ∈ followers s0) by (apply (inv_waiting _ I0); by rewrite Ec). rewrite Hf in Hc. set_solver. }
  assert (Hnone : forall s, invariant s -> followers s = [] -> syncing s = false).
  { intros s0 I0 Hf. destruct (syncing s0) eqn:Es; [|done]. apply (inv_leader _ I0) in Es.
    unfold followers in Hf. destruct (leader s0) as [[l []]|]; done. }
  split.
  - intros Es. apply Hempty; [done|]. unfold followers. destruct (leader s) as [p|] eqn:El.
    + by rewrite (leader_syncing _ _ I El) in Es.
    + by apply inv_idle.
  - destruct (finish s I) as (es & s' & Hes & Hrun & Hf). exists es, s'.
    pose proof (run_invariant _ _ _ I Hrun) as I'.
    split; [done|]. split; [done|]. split; [by apply Hnone|]. split; [by apply Hempty|].
    intros c n Hc. destruct (run_kept es s s' c n Hes Hrun Hc) as [H|H]; [|done].
    by rewrite (Hempty s' I' Hf) in H.
Qed.

Definition demo_run : list event :=
  [EAppend; ECall 1; EAppend; ECall 2; ESync true; EAppend; ECall 3; ERecheck; ESync true; ENotify].

Definition demo_state : syncGroup := Eval vm_compute in default newSyncGroup (run newSyncGroup demo_run).

Lemma demo_reachable : reachable demo_state.
Proof. by exists demo_run. Qed.

Lemma group_commit_progress_witness :
  reachable demo_state /\ exists es s', run demo_state es = Some s' /\ need s' = ∅ /\
    exists ok, (3, 3, ok) ∈ returned s'.
Proof.
  split; [exact demo_reachable|].
  destruct (group_commit_progress demo_state demo_reachable) as (_ & es & s' & _ & H1 & _ & H2 & H3).
  exists es, s'. split; [exact H1|]. split; [exact H2|]. apply H3. reflexivity.
Defined.

(** The leader returns the error of its last round only: a leader whose
    own [syncFunc] failed returns success when a later round, run for
    latecomers, succeeded. *)
Theorem leader_error_masked :
  exists s, run newSyncGroup [EAppend; ECall 1; ECall 2; ESync false; ERecheck] = Some s /\
    leader s = Some (1, Syncing [2]) /\ acked s = 0 /\
    exists s', run s [ESync true; ENotify; ERecheck] = Some s' /\ (1, 1, true) ∈ returned s'.
Proof. eexists. split; [reflexivity|]. do 2 (split; [reflexivity|]). eexists. split; [reflexivity|]. by left. Qed.
