(* ===== verification/Wal.v ===== *)
(** The write-ahead log ([pkg/wal/wal.go], [options.go], [errors.go]) over a
    directory of segment files: opening and recovery, appending, rotation,
    snapshot markers, syncing and reading back.  Every operation runs under the
    log's mutex, so operations are atomic; [Sync] is the [syncFunc] that the
    group commit of SyncGroup.v shares between callers.

    The operating system is modelled as far as the log sees it: a directory
    maps names to files and directories, an open file is [Io.File], writes fail
    when the device is full or the file closed, other calls succeed. *)
From Stdlib Require Import Strings.String.
From S2P Require Import Prelude SliceSort Binary Io PageWriter Proto Crc Walpb Encoder Decoder.

#[local] Open Scope Z_scope.

(** ** Names *)

Definition walFilePrefix : bytes := Eval compute in String.list_byte_of_string "wal-"%string.
Definition walFileSuffix : bytes := Eval compute in String.list_byte_of_string ".log"%string.

(** [strings.HasPrefix], [HasSuffix], [TrimPrefix] and [TrimSuffix]. *)
Definition HasPrefix (s p : bytes) : bool := bool_decide (take (length p) s = p).
Definition HasSuffix (s p : bytes) : bool :=
  (length p <=? length s)%nat && bool_decide (drop (length s - length p) s = p).
Definition TrimPrefix (s p : bytes) : bytes := if HasPrefix s p then drop (length p) s else s.
Definition TrimSuffix (s p : bytes) : bytes :=
  if HasSuffix s p then take (length s - length p) s else s.

(** [fmt.Sprintf("%016d", n)]. *)
Definition sprintf_016d (n : Z) : bytes :=
  let d := digits n in replicate (16 - length d) x30 ++ d.

(** [strconv.ParseUint(s, 10, 64)]; [None] is a syntax or range error. *)
Definition parse_digit (acc : option Z) (c : byte) : option Z :=
  n ← acc;
  if (48 <=? b2z c) && (b2z c <=? 57) then
    let n := n * 10 + (b2z c - 48) in if n <? 2 ^ 64 then Some n else None
  else None.
Definition ParseUint (s : bytes) : option Z :=
  match s with [] => None | _ => foldl parse_digit (Some 0) s end.

(** ** State *)

Record Options : Type := mkOptions { SegmentSize : Z; BufferSize : Z; PreallocSize : Z }.

Definition DefaultOptions : Options := mkOptions 0 (128 * 1024) 0.
Definition SchemaOptions : Options := mkOptions 0 (4 * 1024) 0.
Definition ResourceOptions : Options := mkOptions (64 * 1024 * 1024) (128 * 1024) (64 * 1024 * 1024).

Inductive dirent : Type :=
| DFile (c : bytes)
| DDir.

Abbreviation directory := (gmap bytes dirent).

(** [dir] holds the files of the directory other than the open segment, whose
    bytes are in [w.file] (the encoder's device); [path] is the open segment's
    name and [synced] its contents at the last [fsync]. *)
Record WAL : Type := mkWAL {
  opts : Options;
  dir : directory;
  path : bytes;
  encoder : Encoder File;
  seq : Z;
  offset : Z;
  closed : bool;
  synced : bytes;
  space : Z }.

Definition file (w : WAL) : File := PageWriter.w (pw (encoder w)).

(** The directory as the operating system shows it. *)
Definition files (w : WAL) : directory := <[path w := DFile (content (file w))]> (dir w).

Definition set_encoder (w : WAL) (e : Encoder File) : WAL :=
  mkWAL (opts w) (dir w) (path w) e (seq w) (offset w) (closed w) (synced w) (space w).
Definition set_offset (w : WAL) (o : Z) : WAL :=
  mkWAL (opts w) (dir w) (path w) (encoder w) (seq w) o (closed w) (synced w) (space w).
Definition set_closed (w : WAL) : WAL :=
  mkWAL (opts w) (dir w) (path w) (encoder w) (seq w) (offset w) true (synced w) (space w).
Definition set_synced (w : WAL) : WAL :=
  mkWAL (opts w) (dir w) (path w) (encoder w) (seq w) (offset w) (closed w) (content (file w))
    (space w).
Definition set_file (w : WAL) (f : File) : WAL :=
  let p := pw (encoder w) in
  set_encoder w (set_pw (encoder w) (mkPageWriter f (pageOffset p) (pageBytes p)
    (bufferedBytes p) (buf p) (bufWatermarkBytes p))).

Definition segmentPath (seq : Z) : bytes := walFilePrefix ++ sprintf_016d seq ++ walFileSuffix.

(** ** Segments *)

(** One directory entry of [listSegments]. *)
Definition segment_of (ent : bytes * dirent) : option (Z * bytes) :=
  match ent with
  | (_, DDir) => None
  | (name, DFile _) =>
      if negb (HasPrefix name walFilePrefix) || negb (HasSuffix name walFileSuffix) then None
      else
        let seqStr := TrimSuffix (TrimPrefix name walFilePrefix) walFileSuffix in
        seq ← ParseUint seqStr; Some (seq, name)
  end.

(** [sort.Slice] by sequence number; the order of segments with one number,
    as [wal-1.log] and [wal-01.log], is not specified. *)
Definition seq_less (a b : Z * bytes) : bool := a.1 <? b.1.

Definition listSegments {sorter : SliceSorter} (d : directory) : list (Z * bytes) :=
  sort_slice seq_less (omap segment_of (map_to_list d)).

(** [f.Sync()]. *)
Definition fsync (f : File) : option wal_error := if opened f then None else Some (ErrIo_ ErrIO).

Section wal.
Context {sorter : SliceSorter} {codec : Codec Record_} {snapshot_codec : Codec Snapshot}.

(** The CRC checkpoint, flush and [fsync] of [createSegment] on the new file:
    the directory afterwards, and the encoder or the error. *)
Definition write_checkpoint (o : Options) (d : directory) (p : bytes) (f : File) (prevCrc : Z)
    : option (directory * (wal_error + Encoder File)) :=
  let enc := NewEncoder f prevCrc 0 (BufferSize o) in
  let on_disk (e : Encoder File) := <[p := DFile (content (PageWriter.w (pw e)))]> d in
  '(enc, _, res) ← Encode enc (mkRecord CrcType prevCrc []);
  match res with
  | inl x => Some (on_disk enc, inl x)
  | inr _ =>
      '(enc, err) ← Flush enc;
      match err with
      | Some x => Some (on_disk enc, inl (ErrIo_ x))
      | None =>
          match fsync (PageWriter.w (pw enc)) with
          | Some x => Some (on_disk enc, inl x)
          | None => Some (on_disk enc, inr enc)
          end
      end
  end.

(** [createSegment] up to the point where it commits its state. *)
Definition createSegment_file (o : Options) (d : directory) (space seq prevCrc : Z)
    : option (directory * (wal_error + Encoder File)) :=
  let p := segmentPath seq in
  match d !! p with
  | Some DDir => Some (d, inl (ErrIo_ ErrIO))
  | _ =>
      let f := mkFile [] 0 space true in
      let f := if 0 <? PreallocSize o then seek_start (truncate f (PreallocSize o)) 0 else f in
      write_checkpoint o d p f prevCrc
  end.

(** [createSegment] as a method of an open log. *)
Definition createSegment (w : WAL) (s prevCrc : Z) : option (WAL * (wal_error + unit)) :=
  '(d, res) ← createSegment_file (opts w) (files w) (space w) s prevCrc;
  match res with
  | inl x =>
      Some (mkWAL (opts w) d (path w) (encoder w) (seq w) (offset w) (closed w) (synced w) (space w),
            inl x)
  | inr enc =>
      Some (mkWAL (opts w) d (segmentPath s) enc s (Encoder.Offset enc) (closed w)
              (content (PageWriter.w (pw enc))) (space w), inr tt)
  end.

(** The read loop of [openSegment]: stops without error at a clean end.  A
    record takes at least eight bytes, so [len + 1] rounds are enough. *)
Fixpoint openSegment_loop (fuel : nat) (d : Decoder) : option (Decoder * option wal_error) :=
  match fuel with
  | O => None
  | S fuel =>
      '(d, res) ← Decode d;
      match res with
      | inr _ => openSegment_loop fuel d
      | inl x =>
          if decide (x = ErrIo_ EOF \/ x = ErrIo_ ErrUnexpectedEOF) then Some (d, None)
          else Some (d, Some x)
      end
  end.

(** [zeroToEnd]: 4096 zeros a time, up to the end of the file. *)
Fixpoint zeroToEnd_loop (fuel : nat) (f : File) (remaining : Z) : option (File * option io_error) :=
  if 0 <? remaining then
    match fuel with
    | O => None
    | S fuel =>
        let n := Z.min 4096 remaining in
        let '(f, _, err) := write f (replicate (Z.to_nat n) x00) in
        match err with
        | Some x => Some (f, Some x)
        | None => zeroToEnd_loop fuel f (remaining - n)
        end
    end
  else Some (f, None).

Definition zeroToEnd (f : File) : option (File * option io_error) :=
  let p := seek_current f in
  let f := seek_end f in
  let e := pos f in
  if e <=? p then Some (f, None)
  else zeroToEnd_loop (length (content f)) (seek_start f p) (e - p).

(** [openSegment] up to the point where it commits its state: the file's
    contents afterwards, and the encoder with the valid offset or the error. *)
Definition openSegment_file (o : Options) (c : bytes) (space : Z)
    : option (bytes * (wal_error + Encoder File * Z)) :=
  let f := mkFile c 0 space true in
  '(d, err) ← openSegment_loop (S (length c)) (NewDecoder c);
  match err with
  | Some x => Some (c, inl x)
  | None =>
      let validOffset := LastOffset d in
      '(f, err) ← zeroToEnd (seek_start f validOffset);
      match err with
      | Some x => Some (content f, inl (ErrIo_ x))
      | None =>
          let f := seek_start f validOffset in
          Some (content f,
            inr (NewEncoder f (LastCRC d) (Z.rem validOffset walPageBytes) (BufferSize o), validOffset))
      end
  end.

(** [Open] on a directory. *)
Definition Open (d : directory) (o : Options) (space : Z) : option (directory * (wal_error + WAL)) :=
  match last (listSegments d) with
  | None =>
      '(d, res) ← createSegment_file o d space 0 0;
      Some (d, match res with
               | inl x => inl x
               | inr enc =>
                   inr (mkWAL o d (segmentPath 0) enc 0 (Encoder.Offset enc) false
                          (content (PageWriter.w (pw enc))) space)
               end)
  | Some (s, name) =>
      match d !! name with
      | Some (DFile c) =>
          '(c', res) ← openSegment_file o c space;
          let d := <[name := DFile c']> d in
          Some (d, match res with
                   | inl x => inl x
                   | inr (enc, validOffset) => inr (mkWAL o d name enc s validOffset false c space)
                   end)
      | _ => Some (d, inl (ErrIo_ ErrIO))
      end
  end.

(** ** Operations *)

Definition syncLocked (w : WAL) : option (WAL * option wal_error) :=
  '(e, err) ← Encoder.Flush (encoder w);
  let w := set_encoder w e in
  match err with
  | Some x => Some (w, Some (ErrIo_ x))
  | None =>
      match fsync (file w) with
      | Some x => Some (w, Some x)
      | None => Some (set_synced w, None)
      end
  end.

(** The [syncFunc] of [Open], and [Sync] for a caller that becomes the leader
    of a group of its own. *)
Definition Sync (w : WAL) : option (WAL * option wal_error) :=
  if closed w then Some (w, Some ErrClosed) else syncLocked w.

Definition rotate (w : WAL) : option (WAL * (wal_error + unit)) :=
  '(w, err) ← syncLocked w;
  match err with
  | Some x => Some (w, inl x)
  | None =>
      let prevCrc := CRC (encoder w) in
      let w := set_file w (close_file (file w)) in
      createSegment w (u64 (seq w + 1)) prevCrc
  end.

(** The rotation check that [Append] and [SaveSnapshot] share. *)
Definition maybe_rotate (w : WAL) : option (WAL * (wal_error + unit)) :=
  if (0 <? SegmentSize (opts w)) && (SegmentSize (opts w) <=? offset w)
  then rotate w else Some (w, inr tt).

Definition Append (w : WAL) (data : bytes) : option (WAL * (wal_error + Z)) :=
  if closed w then Some (w, inl ErrClosed)
  else
    '(w, res) ← maybe_rotate w;
    match res with
    | inl x => Some (w, inl x)
    | inr _ =>
        '(e, rec, res) ← Encode (encoder w) (mkRecord DataType 0 data);
        let w := set_encoder w e in
        match res with
        | inl x => Some (w, inl x)
        | inr off =>
            if (Crc rec =? 0) && (0 <? blen data) then Some (w, inl ErrCrcNotSet)
            else Some (set_offset w (Encoder.Offset (encoder w)), inr (u64 off))
        end
    end.

(** [SaveSnapshot]; [None] is a nil snapshot. *)
Definition SaveSnapshot (w : WAL) (snap : option Snapshot) : option (WAL * option wal_error) :=
  match snap with
  | None => Some (w, Some ErrNilSnapshot)
  | Some snap =>
      if closed w then Some (w, Some ErrClosed)
      else
        '(w, res) ← maybe_rotate w;
        match res with
        | inl x => Some (w, Some x)
        | inr _ =>
            match Marshal snap with
            | None => Some (w, Some ErrMarshal)
            | Some snapData =>
                '(e, _, res) ← Encode (encoder w) (mkRecord SnapshotType 0 snapData);
                let w := set_encoder w e in
                match res with
                | inl x => Some (w, Some x)
                | inr _ => Sync (set_offset w (Encoder.Offset (encoder w)))
                end
            end
        end
  end.

(** The loop of [readSegment]: the data of the [DataType] records. *)
Fixpoint readSegment_loop (fuel : nat) (d : Decoder) : option (wal_error + list bytes) :=
  match fuel with
  | O => None
  | S fuel =>
      '(d, res) ← Decode d;
      match res with
      | inl x =>
          if decide (x = ErrIo_ EOF) then Some (inr [])
          else if decide (x = ErrIo_ ErrUnexpectedEOF) then Some (inr [])
          else Some (inl x)
      | inr rec =>
          rest ← readSegment_loop fuel d;
          Some (match rest with
                | inl x => inl x
                | inr data => inr (if Type_ rec =? DataType then Data rec :: data else data)
                end)
      end
  end.

Definition readSegment (d : directory) (name : bytes) : option (wal_error + list bytes) :=
  match d !! name with
  | Some (DFile c) => readSegment_loop (S (length c)) (NewDecoder c)
  | _ => Some (inl (ErrIo_ ErrIO))
  end.

Fixpoint readSegments (d : directory) (segments : list (Z * bytes)) : option (wal_error + list bytes) :=
  match segments with
  | [] => Some (inr [])
  | (_, name) :: segments =>
      r ← readSegment d name;
      match r with
      | inl x => Some (inl x)
      | inr segData =>
          rest ← readSegments d segments;
          Some (match rest with inl x => inl x | inr data => inr (segData ++ data) end)
      end
  end.

Definition ReadAll (w : WAL) : option (WAL * (wal_error + list bytes)) :=
  if closed w then Some (w, inl ErrClosed)
  else
    '(e, err) ← Encoder.Flush (encoder w);
    let w := set_encoder w e in
    match err with
    | Some x => Some (w, inl (ErrIo_ x))
    | None => res ← readSegments (files w) (listSegments (files w)); Some (w, res)
    end.

Definition Close (w : WAL) : option (WAL * option wal_error) :=
  if closed w then Some (w, None)
  else
    let w := set_closed w in
    '(e, err) ← Encoder.Flush (encoder w);
    let w := set_encoder w e in
    match err with
    | Some x => Some (set_file w (close_file (file w)), Some (ErrIo_ x))
    | None =>
        match fsync (file w) with
        | Some x => Some (set_file w (close_file (file w)), Some x)
        | None =>
            let w := set_synced w in
            let w' := set_file w (close_file (file w)) in
            Some (w', if opened (file w) then None else Some (ErrIo_ ErrIO))
        end
    end.
End wal.
