(* ===== verification/WalNames.v ===== *)
(** Segment names of the log: the printed sequence number is parsed back, and a
    directory lists its segments in the order of their sequence numbers. *)
From S2P Require Import Prelude SliceSort Binary Io PageWriter Proto Crc Walpb Encoder Decoder Wal.
From stdpp Require Import sorting.

#[local] Open Scope Z_scope.

(** ** Decimal numbers *)

Lemma parse_digit_char acc d n :
  acc = Some n -> 0 <= d < 10 -> n * 10 + d < 2 ^ 64 ->
  parse_digit acc (z2b (48 + d)) = Some (n * 10 + d).
Proof.
  intros -> Hd Hn. unfold parse_digit. cbn [mbind option_bind].
  rewrite b2z_z2b_small by lia.
  rewrite (proj2 (Z.leb_le 48 _)), (proj2 (Z.leb_le _ 57)) by lia. cbn [andb].
  replace (48 + d - 48) with d by lia. by rewrite (proj2 (Z.ltb_lt _ _)) by lia.
Qed.

Lemma digits_nonempty fuel n : fuel <> O -> digits_loop fuel n <> [].
Proof. destruct fuel as [|fuel]; [done|]. intros _ E. by apply app_eq_nil in E as [_ E]. Qed.

Lemma parse_digits fuel n :
  0 <= n < 10 ^ Z.of_nat fuel -> n < 2 ^ 64 -> foldl parse_digit (Some 0) (digits_loop fuel n) = Some n.
Proof.
  revert n. induction fuel as [|fuel IH]; intros n Hn H64; [cbn in *; f_equal; lia|].
  cbn [digits_loop]. rewrite foldl_app. cbn [foldl].
  pose proof (Z.mod_pos_bound n 10 ltac:(lia)). pose proof (Z.div_mod n 10 ltac:(lia)).
  rewrite Nat2Z.inj_succ, Z.pow_succ_r in Hn by lia.
  assert (Hq : foldl parse_digit (Some 0) (if n <? 10 then [] else digits_loop fuel (n / 10)) = Some (n / 10)).
  { destruct (n <? 10) eqn:E; bool_hyps; [cbn; f_equal; symmetry; apply Z.div_small; lia|].
    apply IH; [|lia]. split; [lia|]. apply Z.div_lt_upper_bound; lia. }
  rewrite Hq, (parse_digit_char (Some (n / 10)) (n mod 10) (n / 10) eq_refl); [f_equal; lia|lia|lia].
Qed.

Lemma parse_zeros k s : foldl parse_digit (Some 0) (replicate k x30 ++ s) = foldl parse_digit (Some 0) s.
Proof. by induction k. Qed.

Lemma ParseUint_sprintf n : 0 <= n < 2 ^ 64 -> ParseUint (sprintf_016d n) = Some n.
Proof.
  intros Hn. unfold ParseUint, sprintf_016d, digits. destruct (replicate _ _ ++ _) eqn:E.
  - apply app_eq_nil in E as [_ E]. by apply digits_nonempty in E.
  - rewrite <- E, parse_zeros. apply parse_digits; [|lia].
    change (10 ^ Z.of_nat 20) with 100000000000000000000. lia.
Qed.

(** ** File names *)

Lemma HasPrefix_app p s : HasPrefix (p ++ s) p = true.
Proof. unfold HasPrefix. rewrite take_app_length. by apply bool_decide_eq_true. Qed.

Lemma HasSuffix_app p s : HasSuffix (s ++ p) p = true.
Proof.
  unfold HasSuffix. rewrite length_app. rewrite (proj2 (Nat.leb_le _ _)) by lia. cbn [andb].
  replace (length s + length p - length p)%nat with (length s) by lia.
  rewrite drop_app_length. by apply bool_decide_eq_true.
Qed.

Lemma TrimPrefix_app p s : TrimPrefix (p ++ s) p = s.
Proof. unfold TrimPrefix. by rewrite HasPrefix_app, drop_app_length. Qed.

Lemma TrimSuffix_app p s : TrimSuffix (s ++ p) p = s.
Proof.
  unfold TrimSuffix. rewrite HasSuffix_app, length_app.
  replace (length s + length p - length p)%nat with (length s) by lia. by rewrite take_app_length.
Qed.

(** The name written for a sequence number is recognised as that number. *)
Lemma segment_of_path n c : 0 <= n < 2 ^ 64 ->
  segment_of (segmentPath n, DFile c) = Some (n, segmentPath n).
Proof.
  intros Hn. unfold segment_of, segmentPath.
  rewrite HasPrefix_app, TrimPrefix_app, (app_assoc walFilePrefix), HasSuffix_app. cbn [negb orb].
  rewrite TrimSuffix_app, ParseUint_sprintf by done. done.
Qed.

(** ** Listings *)

Definition seq_le (a b : Z * bytes) : Prop := a.1 <= b.1.

Section listings.
Context {sorter : SliceSorter}.

Definition seqs (d : directory) : list Z := (listSegments d).*1.

Lemma seq_less_weak : weak_order seq_less.
Proof.
  unfold seq_less. split; [intros a b ?%Z.ltb_lt; apply Z.ltb_ge; lia|].
  intros a b c ?%Z.ltb_ge ?%Z.ltb_ge. apply Z.ltb_ge. lia.
Qed.

Lemma listSegments_perm d : listSegments d ≡ₚ omap segment_of (map_to_list d).
Proof. apply sort_slice_perm. Qed.

Lemma listSegments_sorted d : StronglySorted seq_le (listSegments d).
Proof.
  pose proof (sort_slice_sorted seq_less (omap segment_of (map_to_list d)) seq_less_weak) as Hs.
  unfold listSegments. induction Hs as [|x l _ IH Hx]; constructor; [exact IH|].
  eapply Forall_impl; [exact Hx|]. intros y. apply Z.ltb_ge.
Qed.

Lemma listSegments_elem d s name :
  (s, name) ∈ listSegments d <-> exists c, d !! name = Some (DFile c) /\ segment_of (name, DFile c) = Some (s, name).
Proof.
  rewrite (listSegments_perm d), list_elem_of_omap. split.
  - intros ([nm [c|]] & Hin & Hs); [|done]. apply elem_of_map_to_list in Hin.
    assert (nm = name) as ->; [|eauto]. unfold segment_of in Hs.
    destruct (_ || _); [done|]. destruct (ParseUint _); [|done]. by injection Hs.
  - intros (c & Hd & Hs). exists (name, DFile c). by rewrite elem_of_map_to_list.
Qed.

(** A sorted list with the same elements and distinct sequence numbers is the
    listing. *)
Lemma listSegments_unique d l :
  NoDup l.*1 -> StronglySorted seq_le l -> l ≡ₚ omap segment_of (map_to_list d) -> listSegments d = l.
Proof.
  intros Hnd Hs Hp. rewrite <- (listSegments_perm d) in Hp. symmetry.
  eapply StronglySorted_unique_strong; [|done|apply listSegments_sorted|done].
  intros [s1 n1] [s2 n2] H1 H2 Hle Hge. rewrite <- Hp in H2.
  assert (s1 = s2) as <- by (unfold seq_le in *; cbn in *; lia).
  apply list_elem_of_lookup in H1 as [i Hi], H2 as [j Hj].
  assert (i = j) as <-; [|congruence].
  eapply (NoDup_lookup _ _ _ s1 Hnd); by rewrite list_lookup_fmap, ?Hi, ?Hj.
Qed.

(** The entries of a directory after a file is created or rewritten. *)
Lemma segments_insert (d : directory) name c :
  omap segment_of (map_to_list (<[name := DFile c]> d)) ≡ₚ
  omap segment_of ((name, DFile c) :: map_to_list (delete name d)).
Proof.
  rewrite <- insert_delete_eq.
  by rewrite (map_to_list_insert (delete name d) name (DFile c)) by apply lookup_delete_eq.
Qed.

(** Rewriting a segment's contents does not change the listing. *)
Lemma listSegments_overwrite d name c c' :
  NoDup (seqs d) -> d !! name = Some (DFile c) ->
  listSegments (<[name := DFile c']> d) = listSegments d.
Proof.
  intros Hnd Hd. apply listSegments_unique; [done|apply listSegments_sorted|].
  rewrite segments_insert. rewrite <- (insert_id d name (DFile c) Hd) at 1.
  by rewrite listSegments_perm, segments_insert.
Qed.

(** Creating a segment with the next sequence number appends it. *)
Lemma listSegments_create d s c :
  0 <= s < 2 ^ 64 -> Forall (fun x => x < s) (seqs d) -> NoDup (seqs d) ->
  d !! segmentPath s = None ->
  listSegments (<[segmentPath s := DFile c]> d) = listSegments d ++ [(s, segmentPath s)].
Proof.
  intros Hs Hlt Hnd Hnew. unfold seqs in *. apply listSegments_unique.
  - rewrite fmap_app. apply NoDup_app. split; [done|]. split; [|apply NoDup_singleton].
    intros x Hx. cbn. rewrite list_elem_of_singleton. rewrite Forall_forall in Hlt.
    specialize (Hlt x Hx). lia.
  - apply StronglySorted_app_2; [|apply listSegments_sorted|repeat constructor].
    intros x y Hx Hy. apply list_elem_of_singleton in Hy as ->. unfold seq_le. cbn.
    rewrite Forall_forall in Hlt. specialize (Hlt x.1 (list_elem_of_fmap_2 fst _ _ Hx)). lia.
  - rewrite segments_insert, delete_id by done. cbn [omap list_omap].
    rewrite segment_of_path by done. rewrite listSegments_perm, Permutation_app_comm. done.
Qed.

Lemma seqs_path_fresh d s :
  0 <= s < 2 ^ 64 -> Forall (fun x => x < s) (seqs d) ->
  d !! segmentPath s = None \/ d !! segmentPath s = Some DDir.
Proof.
  intros Hs Hlt. destruct (d !! segmentPath s) as [[c|]|] eqn:E; [|by right|by left].
  exfalso. assert (Hin : (s, segmentPath s) ∈ listSegments d).
  { apply listSegments_elem. exists c. by rewrite segment_of_path. }
  rewrite Forall_forall in Hlt. specialize (Hlt s (list_elem_of_fmap_2 fst _ _ Hin)). lia.
Qed.
End listings.
