(* ===== verification/WalSpec.v ===== *)
(** Correctness of the write-ahead log: its directory as a sequence of logged
    entries per segment, what appending, rotating, syncing, reading back and
    reopening do to that sequence, and the cases in which recovery fails. *)
From S2P Require Import Prelude SliceSort Binary Io PageWriter Proto Crc Walpb Encoder Decoder LogSpec Wal WalNames.
From stdpp Require Import sorting.

#[local] Open Scope Z_scope.

(** Closes the branch of a device error. *)
Ltac io_error_branch := do 2 eexists; split; [reflexivity|cbn; first [assumption|eexists; reflexivity]].

(** ** Files *)

(** An open file written sequentially over zeros: its contents are what was
    written up to the position and zeros after it. *)
Definition tail_zero (f : File) : Prop :=
  opened f = true /\ 0 <= pos f /\ exists n, content f = written f ++ replicate n x00.

Lemma tail_zero_write f p f' n err :
  tail_zero f -> write f p = (f', n, err) -> tail_zero f'.
Proof.
  intros (Ho & Hp & k & Hc) Hw. cbn [written file_writer_laws] in Hc.
  unfold write, file_writer in Hw. rewrite Ho in Hw. cbn [negb] in Hw.
  set (m := Z.min _ _) in *. set (q := take _ p) in *. injection Hw as <- _ _.
  pose proof (blen_nonneg p).
  assert (Hq : length q = Z.to_nat m).
  { unfold q. rewrite length_take. unfold m, blen in *. lia. }
  split; [done|]. split; [cbn; lia|]. cbn [written file_writer_laws pos content].
  replace (Z.to_nat (Z.max 0 (pos f) + m)) with (Z.to_nat (pos f) + length q)%nat by lia.
  unfold overwrite at 1 2. rewrite resize_written. exists (k - length q)%nat.
  rewrite <- app_assoc. do 2 f_equal. rewrite Hc at 1.
  rewrite drop_app_ge by (rewrite length_resize; lia).
  rewrite length_resize, drop_replicate. f_equal. lia.
Qed.

Lemma written_start (f : File) : pos f = 0 -> written f = [].
Proof. intros Hp. cbn. rewrite Hp. apply resize_0. Qed.

Lemma tail_zero_fsync f : tail_zero f -> fsync f = None.
Proof. intros (Ho & _). unfold fsync. by rewrite Ho. Qed.

(** ** The zeroing of a file's tail *)

Lemma write_file_ok f p f' n :
  write f p = (f', n, None) -> 0 <= pos f ->
  opened f' = true /\ pos f' = pos f + blen p /\ content f' = overwrite (content f) (pos f) p.
Proof.
  unfold write, file_writer. destruct (opened f); cbn [negb]; [|done].
  destruct (_ <? _) eqn:E; [done|]. bool_hyps. intros [= <- <-] Hp. pose proof (blen_nonneg p).
  assert (Hm : Z.min (blen p) (Z.max 0 (room f)) = blen p) by lia.
  cbn [opened pos content]. rewrite Hm, take_blen. repeat split; lia.
Qed.

Lemma overwrite_fit (a b : bytes) p :
  (length p <= length b)%nat ->
  overwrite (a ++ b) (blen a) p = (a ++ p) ++ drop (length p) b.
Proof.
  intros Hl. unfold overwrite. rewrite length_blen, resize_app_le, resize_all by lia.
  by rewrite <- app_assoc, drop_app_ge, Nat.add_comm, Nat.add_sub by lia.
Qed.

Lemma zeroToEnd_loop_spec fuel f a b :
  content f = a ++ b -> pos f = blen a -> opened f = true -> (length b <= fuel)%nat ->
  exists f' err, zeroToEnd_loop fuel f (blen b) = Some (f', err) /\
    (err = None -> content f' = a ++ replicate (length b) x00 /\ opened f' = true).
Proof.
  revert f a b. induction fuel as [|fuel IH]; intros f a b Hc Hp Ho Hf; cbn [zeroToEnd_loop].
  { destruct b; [|cbn in Hf; lia]. change (blen []) with 0. cbn. by eexists _, _. }
  destruct (0 <? blen b) eqn:E; bool_hyps.
  2:{ destruct b; [|rewrite blen_cons in *; blia]. by eexists _, _. }
  set (m := Z.min 4096 (blen b)). destruct (write f _) as [[f' k] err] eqn:Ew.
  destruct err as [x|]; [by eexists _, _|].
  apply write_file_ok in Ew as (Ho' & Hp' & Hc'); [|rewrite Hp; apply blen_nonneg].
  rewrite Hc, Hp, overwrite_fit in Hc' by (rewrite length_replicate; unfold m, blen; lia).
  rewrite length_replicate in Hc'.
  destruct (IH f' _ _ Hc') as (f2 & err & Hrun & Hok).
  - by rewrite Hp', Hp, blen_app.
  - done.
  - rewrite length_drop. unfold m, blen in *. lia.
  - rewrite blen_drop in Hrun by (unfold m; lia).
    exists f2, err. split; [done|]. intros He. destruct (Hok He) as [-> Hop]. split; [|done]. rewrite <- app_assoc, <- replicate_add.
    rewrite length_drop. do 2 f_equal. unfold m, blen in *. lia.
Qed.

Lemma zeroToEnd_spec f a b :
  content f = a ++ b -> pos f = blen a -> opened f = true ->
  exists f' err, zeroToEnd f = Some (f', err) /\
    (err = None -> content f' = a ++ replicate (length b) x00 /\ opened f' = true).
Proof.
  intros Hc Hp Ho. unfold zeroToEnd, seek_current, seek_end. cbn [pos content seek_start].
  rewrite Hc, Hp, blen_app. destruct (_ <=? _) eqn:E; bool_hyps.
  - destruct b; [|rewrite blen_cons in *; blia]. do 2 eexists. by split; [reflexivity|].
  - replace (blen a + blen b - blen a) with (blen b) by lia.
    apply zeroToEnd_loop_spec; [done|done|done|]. rewrite length_app. lia.
Qed.

(** ** The read loops *)

Section loops.
Context {sorter : SliceSorter} {codec : Codec Record_}.

Lemma ReadFull_consumes s n s' x : ReadFull s n = (s', inr x) -> 0 <= n ->
  length s = (length s' + Z.to_nat n)%nat.
Proof.
  unfold ReadFull. destruct (_ <=? _) eqn:E; [|done]. bool_hyps. intros [= <- <-] Hn.
  rewrite length_drop. unfold blen in *. lia.
Qed.

Lemma ReadFull_shrinks s n s' x : ReadFull s n = (s', x) -> (length s' <= length s)%nat.
Proof.
  unfold ReadFull. destruct (_ <=? _); intros [= <- _]; [|cbn; lia]. rewrite length_drop. lia.
Qed.

(** A record takes at least the eight bytes of its length field. *)
Lemma Decode_consumes d d1 rec :
  Decode d = Some (d1, inr rec) -> (length (r d1) < length (r d))%nat.
Proof.
  unfold Decode. destruct (ReadFull (r d) 8) as [s [e|b8]] eqn:E1; [done|].
  apply ReadFull_consumes in E1; [|lia]. destruct (_ =? 0); [done|].
  destruct (decodeFrameSize _) as [rb pb]. destruct (maxRecordSize <? _); [done|].
  destruct (maxAlloc <? _); [done|]. cbn [r set_r].
  destruct (ReadFull s _) as [s' [e|data]] eqn:E2; [done|]. apply ReadFull_shrinks in E2.
  destruct (Unmarshal _) as [rc|]; [|done]. cbv zeta. cbn [r set_r crc].
  destruct (_ =? CrcType); [intros [= <- _]; cbn; lia|].
  destruct (_ =? Crc rc); [|done]. intros [= <- _]. cbn. lia.
Qed.

(** The decoder always stops: the log is finite. *)
Lemma decodes_exists d : exists rs d' x, decodes d rs d' x.
Proof.
  remember (length (r d)) as n eqn:Hn. revert d Hn. induction (lt_wf n) as [n _ IH]. intros d ->.
  destruct (Decode_total d) as (d1 & [x|rec] & E); [by exists [], d1, x; constructor|].
  destruct (IH _ (Decode_consumes _ _ _ E) d1 eq_refl) as (rs & d' & x & Hd).
  exists (rec :: rs), d', x. by econstructor.
Qed.

Lemma openSegment_loop_spec d rs d' x fuel :
  decodes d rs d' x -> (length (r d) < fuel)%nat ->
  openSegment_loop fuel d =
    Some (d', if decide (x = ErrIo_ EOF \/ x = ErrIo_ ErrUnexpectedEOF) then None else Some x).
Proof.
  intros Hd. revert fuel. induction Hd as [d d' x Hd|d d1 rec rs d' x Hd _ IH]; intros fuel Hf;
    (destruct fuel as [|fuel]; [lia|]); cbn [openSegment_loop]; rewrite Hd; cbn [mbind option_bind].
  - by destruct (decide _).
  - apply IH. pose proof (Decode_consumes _ _ _ Hd). lia.
Qed.

Definition data_of (rs : list Record_) : list bytes :=
  omap (fun rec => if Type_ rec =? DataType then Some (Data rec) else None) rs.

Lemma readSegment_loop_spec d rs d' x fuel :
  decodes d rs d' x -> (length (r d) < fuel)%nat ->
  readSegment_loop fuel d =
    Some (if decide (x = ErrIo_ EOF \/ x = ErrIo_ ErrUnexpectedEOF) then inr (data_of rs) else inl x).
Proof.
  intros Hd. revert fuel. induction Hd as [d d' x Hd|d d1 rec rs d' x Hd _ IH]; intros fuel Hf;
    (destruct fuel as [|fuel]; [lia|]); cbn [readSegment_loop]; rewrite Hd; cbn [mbind option_bind].
  - repeat destruct (decide _); naive_solver.
  - rewrite IH by (pose proof (Decode_consumes _ _ _ Hd); lia). cbn [mbind option_bind].
    destruct (decide _); [|done]. cbn [data_of omap list_omap]. by destruct (_ =? _).
Qed.
End loops.

(** ** The state of a log *)

Section rep.
Context {sorter : SliceSorter} {codec : Codec Record_} {laws : RecordCodec}.

(** The data the caller logged. *)
Definition payload (es : list entry) : list bytes :=
  omap (fun e : entry => if e.1 =? DataType then Some e.2 else None) es.

(** A segment can be read on its own: it starts the chain at zero or with a
    checkpoint record. *)
Definition seg_head (s : Z) (es : list entry) : Prop :=
  0 <= s < 2 ^ 32 /\ (s = 0 \/ exists e es', es = e :: es' /\ e.1 = CrcType).

(** The contents of a segment file. *)
Definition seg_holds (c : bytes) (es : list entry) : Prop :=
  exists s b n, seg_head s es /\ is_log s es b /\ c = b ++ replicate n x00.

Definition device (e : Encoder File) : File := PageWriter.w (pw e).

(** The open segment: everything encoded so far is the log of [es]. *)
Definition enc_state (e : Encoder File) (s : Z) (es : list entry) : Prop :=
  (exists start, enc_wf start e) /\ tail_zero (device e) /\ 0 <= s < 2 ^ 32 /\
  is_log s es (stream (pw e)) /\ CRC e = chain_all s es.

Definition wal_rep (w : WAL) (olds : list (list entry)) (es : list entry) : Prop :=
  closed w = false /\ (exists s, seg_head s es /\ enc_state (encoder w) s es) /\
  NoDup (seqs (files w)) /\
  exists names, listSegments (files w) = names ++ [(Wal.seq w, path w)] /\
    Forall2 (fun nm old => nm.2 <> path w /\ exists c, dir w !! nm.2 = Some (DFile c) /\ seg_holds c old)
      names olds.

(** All data logged, oldest first. *)
Definition wal_payload (olds : list (list entry)) (es : list entry) : list bytes :=
  concat (map payload olds) ++ payload es.

(** ** Segments *)

Lemma data_of_stamp c es : data_of (stamp_all c es) = payload es.
Proof.
  revert c. induction es as [|e es IH]; intros c; [done|].
  cbn [stamp_all data_of payload omap list_omap stamped Type_ Data].
  unfold data_of, payload in IH. by rewrite IH.
Qed.

Lemma seg_head_seeded c s es : seg_head s es -> seeded (NewDecoder c) s es.
Proof. intros [_ [->|H]]; split; auto. Qed.

Lemma seg_decodes s es b n :
  seg_head s es -> is_log s es b ->
  exists d' x, decodes (NewDecoder (b ++ replicate n x00)) (stamp_all s es) d' x /\ clean_end x /\
    LastOffset d' = blen b /\ (es <> [] -> LastCRC d' = chain_all s es) /\ (es = [] -> LastCRC d' = 0).
Proof.
  intros Hh Hl.
  destruct (decodes_whole s es b (NewDecoder (b ++ replicate n x00)) n Hl (proj1 Hh)
    (seg_head_seeded _ _ _ Hh) eq_refl) as (d' & x & H1 & H2 & H3 & H4).
  exists d', x. repeat (split; [done|]). intros ->. inversion Hl; subst.
  destruct (Decode_zeros (NewDecoder (replicate n x00)) n eq_refl) as (d2 & e & Hd & _ & Hc & _).
  inversion H1; subst. cbn [app] in *. unfold LastCRC.
  match goal with H : Decode _ = Some (d', _) |- _ => rewrite Hd in H; injection H as <- _ end.
  by rewrite Hc.
Qed.

Lemma clean_decide x : clean_end x -> forall {A} (a b : A),
  (if decide (x = ErrIo_ EOF \/ x = ErrIo_ ErrUnexpectedEOF) then a else b) = a.
Proof. intros Hx A a b. by rewrite decide_True by exact Hx. Qed.

Lemma seg_reads c es : seg_holds c es ->
  readSegment_loop (S (length c)) (NewDecoder c) = Some (inr (payload es)).
Proof.
  intros (s & b & n & Hh & Hl & ->). destruct (seg_decodes s es b n Hh Hl) as (d' & x & Hd & Hx & _).
  rewrite (readSegment_loop_spec _ _ _ _ _ Hd) by (cbn; lia).
  by rewrite (clean_decide x Hx), data_of_stamp.
Qed.

(** ** Encoding into the open segment *)

(** Encoding one more entry. *)
Lemma enc_state_encode e s es ty dat :
  enc_state e s es -> entry_ok (ty, dat) ->
  exists e' rec' res, Encode e (mkRecord ty 0 dat) = Some (e', rec', res) /\
    Crc rec' = chain (chain_all s es) dat /\ tail_zero (device e') /\
    match res with
    | inr off => off = Encoder.offset e /\ enc_state e' s (es ++ [(ty, dat)]) /\
        exists data, stream (pw e') = stream (pw e) ++ frame_of data /\
          Encoder.offset e' = Encoder.offset e + blen (frame_of data)
    | inl x => exists y, x = ErrIo_ y
    end.
Proof.
  intros ([start He] & Ht & Hh & Hl & Hc) Hok. assert (Hcb : 0 <= CRC e < 2 ^ 32) by apply He.
  destruct (entry_stamped _ _ Hcb Hok) as [Hrec Hnz].
  destruct (Encode_spec start e (mkRecord ty 0 dat) He) as (e' & rec' & res & Hrun & -> & Hcrc & Hres).
  exists e', (set_crc (mkRecord ty 0 dat) (chain (CRC e) dat)), res. split; [exact Hrun|].
  split; [cbn; by rewrite Hc|].
  assert (Ht' : tail_zero (device e')).
  { eapply (Encode_preserves tail_zero); [exact tail_zero_write|exact Ht|exact Hrun]. }
  split; [done|]. destruct res as [x|off].
  { destruct x; try done; [|by eexists]. destruct Hres as [Hm _].
    destruct (record_marshals _ Hrec) as [? Hm'].
    change (Marshal (stamped (CRC e) (ty, dat)) = None) in Hm. by rewrite Hm' in Hm. }
  destruct Hres as (-> & He' & data & Hm & Hst & Ho). split; [done|]. split; [|eauto].
  split; [eauto|]. split; [done|]. split; [done|]. split.
  - rewrite Hst. eapply is_log_app; [done|]. rewrite <- Hc. rewrite <- (app_nil_r (frame_of data)).
    constructor; [done|done|done| |constructor].
    pose proof (record_size _ _ Hrec Hm) as Hsz. destruct Hok. cbn [Data stamped snd] in Hsz.
    cbn [snd] in *. lia.
  - cbn [Data] in Hcrc. rewrite Hcrc, Hc. unfold chain_all. by rewrite foldl_app.
Qed.

(** Flushing puts the log of the open segment into its file. *)
Lemma enc_state_flush e s es :
  enc_state e s es ->
  exists e' err, Flush e = Some (e', err) /\ Encoder.offset e' = Encoder.offset e /\ tail_zero (device e') /\
    CRC e' = CRC e /\
    (err = None -> enc_state e' s es /\ stream (pw e') = stream (pw e) /\
       exists n, content (device e') = stream (pw e') ++ replicate n x00).
Proof.
  intros ([start He] & Ht & Hh & Hl & Hc).
  destruct (EncoderFlush_spec start e He) as (e' & err & Hf & Hcrc & Ho & _ & _ & Hr).
  assert (Ht' : tail_zero (device e')).
  { eapply (EncoderFlush_preserves tail_zero); [exact tail_zero_write|exact Ht|exact Hf]. }
  assert (HC : CRC e' = CRC e) by (unfold CRC; by rewrite Hcrc).
  exists e', err. repeat (split; [done|]). intros ->. destruct Hr as (He' & Hw & Hst).
  split; [|split; [done|]].
  - split; [eauto|]. repeat (split; [done|]). rewrite Hst, HC. by split.
  - destruct Ht' as (_ & _ & n & Hn). exists n. rewrite Hn. unfold device. by rewrite Hst, <- Hw.
Qed.

(** A flushed open segment is a well-formed segment file. *)
Lemma enc_state_holds e s es n c :
  seg_head s es -> enc_state e s es -> c = stream (pw e) ++ replicate n x00 -> seg_holds c es.
Proof. intros Hh (_ & _ & _ & Hl & _) ->. by exists s, (stream (pw e)), n. Qed.

Lemma seg_head_app s es l : seg_head s es -> seg_head s (es ++ l).
Proof.
  intros [Hs [->|(e1 & es' & -> & H1)]]; (split; [done|]); [by left|right].
  by exists e1, (es' ++ l).
Qed.

(** A new encoder on a file whose position follows the log of [es]. *)
Lemma enc_state_new f s es bs po :
  tail_zero f -> 0 <= s < 2 ^ 32 -> is_log s es (written f) -> 0 <= po ->
  enc_state (NewEncoder f (chain_all s es) po bs) s es.
Proof.
  intros Hf Hs Hl Hpo. split.
  { eexists. apply NewEncoder_wf; [done|]. by apply chain_all_bounds. }
  split; [done|]. split; [done|]. split; [|done]. unfold NewEncoder. cbn [pw]. by rewrite NewPageWriter_stream.
Qed.

(** ** Creating and opening segment files *)

Lemma write_checkpoint_spec o d p f prev :
  tail_zero f -> written f = [] -> 0 <= prev < 2 ^ 32 ->
  exists d' res, write_checkpoint o d p f prev = Some (d', res) /\
    match res with
    | inl x => exists y, x = ErrIo_ y
    | inr enc =>
        d' = <[p := DFile (content (device enc))]> d /\
        enc_state enc prev [(CrcType, [])] /\
        exists n, content (device enc) = stream (pw enc) ++ replicate n x00
    end.
Proof.
  intros Hf Hw Hp. unfold write_checkpoint. fold device.
  assert (Hnew : enc_state (NewEncoder f prev 0 (BufferSize o)) prev []).
  { apply (enc_state_new f prev [] (BufferSize o) 0 Hf Hp); [rewrite Hw; constructor|lia]. }
  assert (Hok : entry_ok (CrcType, [])).
  { unfold entry_ok, CrcType, maxRecordSize, blen. cbn. lia. }
  destruct (enc_state_encode _ _ _ _ _ Hnew Hok) as (e1 & rec' & res & Hrun & _ & _ & Hres).
  change (Encode _ (mkRecord CrcType prev [])) with
    (Encode (NewEncoder f prev 0 (BufferSize o)) (mkRecord CrcType 0 [])).
  rewrite Hrun. cbn [mbind option_bind]. destruct res as [x|off]; [io_error_branch|].
  destruct Hres as (_ & Hst & _). cbn [app] in Hst.
  destruct (enc_state_flush _ _ _ Hst) as (e2 & err & -> & _ & Ht & _ & Hok2).
  cbn [mbind option_bind]. destruct err as [x|]; [io_error_branch|].
  change (PageWriter.w (pw e2)) with (device e2). rewrite tail_zero_fsync by done.
  do 2 eexists. split; [reflexivity|]. destruct (Hok2 eq_refl) as (? & _ & ?). done.
Qed.

Lemma createSegment_file_spec o d sp s prev :
  0 <= prev < 2 ^ 32 ->
  exists d' res, createSegment_file o d sp s prev = Some (d', res) /\
    match res with
    | inl x => exists y, x = ErrIo_ y
    | inr enc =>
        d !! segmentPath s <> Some DDir /\
        d' = <[segmentPath s := DFile (content (device enc))]> d /\
        enc_state enc prev [(CrcType, [])] /\
        exists n, content (device enc) = stream (pw enc) ++ replicate n x00
    end.
Proof.
  intros Hp. unfold createSegment_file.
  set (f := if 0 <? PreallocSize o then _ else _).
  assert (Hw : written f = []) by (apply written_start; unfold f; by destruct (0 <? _)).
  assert (Hf : tail_zero f).
  { split; [unfold f; by destruct (0 <? _)|].
    split; [unfold f; destruct (0 <? _); cbn; lia|]. rewrite Hw. unfold f. destruct (0 <? _).
    - exists (Z.to_nat (PreallocSize o)). cbn. by destruct (Z.to_nat (PreallocSize o)).
    - by exists O. }
  destruct (write_checkpoint_spec o d (segmentPath s) f prev Hf Hw Hp) as (d' & res & Hrun & Hres).
  destruct (d !! segmentPath s) as [[c|]|] eqn:E; [|io_error_branch|];
    (exists d', res; split; [done|]; by destruct res; [|split; [by rewrite ?E|]]).
Qed.

(** A segment file from which exactly the entries [es] are recovered: complete
    frames, then bytes at which the reading ends cleanly with the chain of
    [es]. *)
Definition seg_recovers (c : bytes) (es : list entry) : Prop :=
  exists s b rest d' x, seg_head s es /\ is_log s es b /\ c = b ++ rest /\
    decodes (NewDecoder c) (stamp_all s es) d' x /\ clean_end x /\
    LastOffset d' = blen b /\ LastCRC d' = chain_all s es.

Lemma seg_holds_recovers c es : seg_holds c es -> seg_recovers c es.
Proof.
  intros (s & b & n & Hh & Hl & ->).
  destruct (seg_decodes s es b n Hh Hl) as (d' & x & Hd & Hx & Ho & Hcrc & Hcrc0).
  exists s, b, (replicate n x00), d', x. repeat (split; [done|]).
  destruct es as [|e es]; [|by apply Hcrc]. rewrite Hcrc0 by done. cbn.
  destruct Hh as [_ [->|(? & ? & ? & _)]]; done.
Qed.

(** A segment cut at any byte recovers the entries that are complete. *)
Lemma seg_cut_recovers s es b k :
  seg_head s es -> is_log s es b -> 0 <= k <= blen b ->
  exists es1 es2 b1, es = es1 ++ es2 /\ seg_recovers (take (Z.to_nat k) b) es1 /\
    is_log s es1 b1 /\ blen b1 <= k /\
    (forall e es3 data, es2 = e :: es3 -> Marshal (stamped (chain_all s es1) e) = Some data ->
      k < blen b1 + blen (frame_of data)).
Proof.
  intros Hh Hl Hk. set (c := take (Z.to_nat k) b).
  destruct (decodes_prefix s es b (NewDecoder c) k Hl (proj1 Hh) (seg_head_seeded _ _ _ Hh) Hk eq_refl)
    as (es1 & es2 & b1 & b2 & d' & x & -> & -> & Hl1 & Hl2 & Hb1 & Hnext & Hd & Hx & Ho & Hcr).
  exists es1, es2, b1. split; [done|]. split; [|done].
  - assert (Hcut : c = b1 ++ take (Z.to_nat (k - blen b1)) b2).
    { unfold c. rewrite <- take_app_take by lia. f_equal. lia. }
    destruct es1 as [|e es1].
    + exists 0, [], c, d', x. inversion Hl1; subst. repeat (split; [done|]).
      split; [split; [lia|by left]|]. split; [constructor|]. by repeat split.
    + exists s, b1, (take (Z.to_nat (k - blen b1)) b2), d', x.
      split; [|by repeat split]. destruct Hh as [Hs [->|(e1 & es' & [= <- <-] & H1)]];
        (split; [done|]); [by left|right; eauto].
Qed.

(** What [openSegment] does with a file that reads cleanly up to [b]: the
    rest is zeroed and the new encoder stands at the end of [b], with the CRC
    the decoder ended with. *)
Lemma openSegment_file_decodes o b rest sp rs d' x :
  decodes (NewDecoder (b ++ rest)) rs d' x -> clean_end x -> LastOffset d' = blen b ->
  exists c' res, openSegment_file o (b ++ rest) sp = Some (c', res) /\
    match res with
    | inl x => exists y, x = ErrIo_ y
    | inr (enc, validOffset) => exists f n,
        tail_zero f /\ written f = b /\ c' = b ++ replicate n x00 /\ content f = c' /\
        enc = NewEncoder f (LastCRC d') (Z.rem (blen b) walPageBytes) (BufferSize o) /\ validOffset = blen b
    end.
Proof.
  intros Hd Hx Ho. unfold openSegment_file.
  rewrite (openSegment_loop_spec _ _ _ _ _ Hd) by (cbn; lia). rewrite (clean_decide x Hx).
  cbn [mbind option_bind]. rewrite Ho.
  set (f0 := mkFile (b ++ rest) 0 sp true).
  destruct (zeroToEnd_spec (seek_start f0 (blen b)) b rest eq_refl eq_refl eq_refl)
    as (f1 & err & -> & Hok).
  cbn [mbind option_bind]. destruct err as [y|]; [io_error_branch|]. destruct (Hok eq_refl) as [Hc1 Hop].
  do 2 eexists. split; [reflexivity|]. exists (seek_start f1 (blen b)), (length rest).
  assert (Hw : written (seek_start f1 (blen b)) = b).
  { cbn. rewrite Hc1, length_blen, resize_app_le, resize_all by lia. done. }
  split; [|done]. split; [done|]. split; [apply blen_nonneg|]. by exists (length rest); rewrite Hw.
Qed.

Lemma rem_page_nonneg (b : bytes) : 0 <= Z.rem (blen b) walPageBytes.
Proof.
  pose proof (blen_nonneg b). rewrite Z.rem_mod_nonneg by (unfold walPageBytes, minSectorSize; lia).
  apply Z.mod_pos_bound. unfold walPageBytes, minSectorSize. lia.
Qed.

(** Recovery of a segment: its entries are found again, the file is zeroed
    after them, and the encoder continues the chain. *)
Lemma openSegment_file_spec o c sp es :
  seg_recovers c es ->
  exists c' res, openSegment_file o c sp = Some (c', res) /\
    match res with
    | inl x => exists y, x = ErrIo_ y
    | inr (enc, validOffset) =>
        exists s n, seg_head s es /\ enc_state enc s es /\ content (device enc) = c' /\
          c' = stream (pw enc) ++ replicate n x00 /\ validOffset = blen (stream (pw enc)) /\
          exists rest, c = stream (pw enc) ++ rest
    end.
Proof.
  intros (s & b & rest & d' & x & Hh & Hl & -> & Hd & Hx & Ho & HC).
  destruct (openSegment_file_decodes o b rest sp _ _ _ Hd Hx Ho) as (c' & res & -> & Hres).
  do 2 eexists. split; [reflexivity|]. destruct res as [y|[enc off]]; [done|].
  destruct Hres as (f & n & Hf & Hw & -> & Hc & -> & ->). exists s, n. split; [done|].
  assert (Hstr : stream (pw (NewEncoder f (LastCRC d') (Z.rem (blen b) walPageBytes) (BufferSize o))) = b).
  { unfold NewEncoder. cbn [pw]. by rewrite NewPageWriter_stream. }
  rewrite Hstr. split; [|eauto 9].
  rewrite HC. apply enc_state_new; [done|apply Hh|by rewrite Hw|apply rem_page_nonneg].
Qed.
End rep.
