(* ===== verification/WalOps.v ===== *)
(** The operations of the write-ahead log against its representation: each one
    keeps [wal_rep] and extends, returns or recovers the logged data. *)
From S2P Require Import Prelude SliceSort Binary Io PageWriter Proto Crc Walpb Encoder Decoder LogSpec Wal WalNames WalSpec.
From stdpp Require Import sorting.

#[local] Open Scope Z_scope.

Section ops.
Context {sorter : SliceSorter} {codec : Codec Record_} {laws : RecordCodec} {scodec : Codec Snapshot}.

(** Only device errors. *)
Definition io_failure (x : wal_error) : Prop := exists y, x = ErrIo_ y.

Lemma files_set_encoder w e :
  files (set_encoder w e) = <[path w := DFile (content (device e))]> (files w).
Proof. unfold files. by rewrite insert_insert_eq. Qed.

Lemma files_path w : files w !! path w = Some (DFile (content (file w))).
Proof. apply lookup_insert_eq. Qed.

(** Changing the open segment through its encoder. *)
Lemma rep_set_encoder w olds es e s es' :
  wal_rep w olds es -> seg_head s es' -> enc_state e s es' -> wal_rep (set_encoder w e) olds es'.
Proof.
  intros (Hcl & _ & Hnd & names & Hls & Hold) Hh He.
  assert (Hl : listSegments (files (set_encoder w e)) = listSegments (files w)).
  { rewrite files_set_encoder. eapply listSegments_overwrite; [done|apply files_path]. }
  split; [done|]. split; [eauto|]. unfold seqs. rewrite Hl. split; [done|].
  exists names. split; [exact Hls|exact Hold].
Qed.

Lemma rep_set_synced w olds es : wal_rep w olds es -> wal_rep (set_synced w) olds es.
Proof. done. Qed.

Lemma rep_set_offset w olds es o : wal_rep w olds es -> wal_rep (set_offset w o) olds es.
Proof. done. Qed.

(** After a successful sync the open segment's file holds its log. *)
Definition flushed (w : WAL) : Prop :=
  exists n, content (file w) = stream (pw (encoder w)) ++ replicate n x00.

Lemma syncLocked_spec w olds es :
  wal_rep w olds es ->
  exists w' err, syncLocked w = Some (w', err) /\
    match err with
    | None =>
        wal_rep w' olds es /\ flushed w' /\ synced w' = content (file w') /\
        CRC (encoder w') = CRC (encoder w) /\ stream (pw (encoder w')) = stream (pw (encoder w)) /\
        Wal.seq w' = Wal.seq w /\ path w' = path w /\ dir w' = dir w /\ opts w' = opts w /\ space w' = space w
    | Some x => io_failure x
    end.
Proof.
  intros Hrep. assert (Hrep' := Hrep). destruct Hrep' as (_ & (s & Hh & He) & _).
  unfold syncLocked. destruct (enc_state_flush _ _ _ He) as (e & err & -> & _ & Ht & Hcrc & Hok).
  cbn [mbind option_bind]. destruct err as [x|]; [io_error_branch|].
  destruct (Hok eq_refl) as (He' & Hst & Hn).
  change (file (set_encoder w e)) with (device e). rewrite tail_zero_fsync by done.
  do 2 eexists. split; [reflexivity|]. split.
  - apply rep_set_synced. by eapply rep_set_encoder.
  - destruct Hn as [n Hn]. repeat split; try done. exists n. exact Hn.
Qed.

(** ** Rotation *)

Lemma seqs_below w olds es :
  wal_rep w olds es -> Forall (fun x => x < Wal.seq w + 1) (seqs (files w)).
Proof.
  intros (_ & _ & _ & names & Hls & _). apply Forall_forall. intros x Hx.
  unfold seqs in Hx. apply list_elem_of_fmap in Hx as ([y nm] & -> & Hy). cbn [fst].
  pose proof (listSegments_sorted (files w)) as Hs. rewrite Hls in Hs, Hy.
  apply elem_of_app in Hy as [Hy|Hy].
  - pose proof (StronglySorted_app_1_elem_of _ _ _ _ _ Hs Hy (list_elem_of_here _ _)) as Hle.
    unfold seq_le in Hle. cbn in Hle. lia.
  - apply list_elem_of_singleton in Hy. injection Hy as -> ->. lia.
Qed.

(** The log after a new segment is created beside the ones it has. *)
Lemma created_rep w olds es q enc o off syn sp :
  wal_rep w olds es -> q = Wal.seq w + 1 -> 0 <= Wal.seq w < 2 ^ 64 - 1 ->
  (exists n, content (file w) = stream (pw (encoder w)) ++ replicate n x00) ->
  files w !! segmentPath q = None -> enc_state enc (CRC (encoder w)) [(CrcType, [])] ->
  wal_rep (mkWAL o (<[segmentPath q := DFile (content (device enc))]> (files w)) (segmentPath q) enc q off false syn sp)
    (olds ++ [es]) [(CrcType, [])].
Proof.
  intros Hrep Hq Hseq [n Hn] Hfresh Henc. pose proof (seqs_below _ _ _ Hrep) as Hlt. rewrite <- Hq in Hlt.
  destruct Hrep as (Hcl & (s & Hh & He) & Hnd & names & Hls & Hold). set (p := segmentPath q) in *.
  assert (Ef : files (mkWAL o (<[p := DFile (content (device enc))]> (files w)) p enc q off false syn sp) =
    <[p := DFile (content (device enc))]> (files w)) by (unfold files at 1, file; cbn; by rewrite insert_insert_eq).
  assert (Hls' : listSegments (<[p := DFile (content (device enc))]> (files w)) =
    (names ++ [(Wal.seq w, path w)]) ++ [(q, p)]).
  { unfold p. rewrite listSegments_create by (done || lia). by rewrite Hls. }
  split; [done|]. split; [|split].
  - exists (CRC (encoder w)). split; [|done]. split; [destruct He as ([? H] & _); apply H|]. right. by exists (CrcType, []), [].
  - unfold seqs in *. rewrite Ef, Hls', fmap_app. rewrite Hls in Hnd, Hlt.
    apply NoDup_app. split; [done|]. split; [|apply NoDup_singleton].
    intros x Hx. cbn. rewrite list_elem_of_singleton. rewrite Forall_forall in Hlt. specialize (Hlt x Hx). lia.
  - eexists. rewrite Ef. split; [exact Hls'|]. cbn [dir path].
    assert (Hne : forall nm c, files w !! nm = Some (DFile c) -> nm <> p) by (intros nm c Hnm ->; by rewrite Hfresh in Hnm).
    apply Forall2_app; [|repeat constructor].
    + eapply Forall2_impl; [exact Hold|]. intros nm old (Hnp & c & Hc & Hs').
      assert (Hfc : files w !! nm.2 = Some (DFile c)) by (unfold files; by rewrite lookup_insert_ne by done).
      split; [by eapply Hne|]. exists c. by rewrite lookup_insert_ne by (symmetry; by eapply Hne).
    + eapply Hne. apply files_path.
    + exists (content (file w)). cbn [snd]. rewrite lookup_insert_ne; [|symmetry; eapply Hne; apply files_path].
      split; [apply files_path|]. by eapply enc_state_holds.
Qed.

Lemma rotate_spec w olds es :
  wal_rep w olds es -> 0 <= Wal.seq w < 2 ^ 64 - 1 ->
  exists w' res, Wal.rotate w = Some (w', res) /\
    match res with
    | inr _ => wal_rep w' (olds ++ [es]) [(CrcType, [])] /\ Wal.seq w' = Wal.seq w + 1 /\ opts w' = opts w /\
        Wal.offset w' = Encoder.offset (encoder w') /\ flushed w' /\ synced w' = content (file w')
    | inl x => io_failure x
    end.
Proof.
  intros Hrep Hseq. unfold Wal.rotate.
  destruct (syncLocked_spec w olds es Hrep) as (w1 & err & -> & Herr). cbn [mbind option_bind].
  destruct err as [x|]; [io_error_branch|].
  destruct Herr as (Hrep1 & Hn & _ & _ & _ & Hs & Hp & Hd & Ho & Hsp).
  pose proof Hrep1 as (Hcl & (s & Hh & He) & _).
  cbv zeta. change (Wal.seq (set_file w1 (close_file (file w1)))) with (Wal.seq w1).
  rewrite Hs, u64_small by lia. unfold createSegment.
  set (w2 := set_file w1 (close_file (file w1))).
  assert (HC : 0 <= CRC (encoder w1) < 2 ^ 32) by (destruct He as ([? He] & _); apply He).
  destruct (createSegment_file_spec (opts w2) (files w2) (space w2) (Wal.seq w + 1) (CRC (encoder w1)) HC)
    as (d' & res & Hrun & Hres).
  rewrite Hrun. cbn [mbind option_bind].
  destruct res as [x|enc]; [by do 2 eexists; split; [reflexivity|]|].
  destruct Hres as (Hndir & -> & Henc & Hzero). change (files w2) with (files w1) in *.
  pose proof (seqs_below _ _ _ Hrep1) as Hlt. rewrite Hs in Hlt.
  assert (Hfresh : files w1 !! segmentPath (Wal.seq w + 1) = None).
  { destruct (seqs_path_fresh (files w1) (Wal.seq w + 1)) as [|]; [lia|done|done|done]. }
  do 2 eexists. split; [reflexivity|]. split; [|done]. change (closed w2) with (closed w1). rewrite Hcl.
  by apply created_rep; [|by rewrite Hs|rewrite Hs|..].
Qed.

(** ** Appending *)

Lemma wal_payload_rotate olds es :
  wal_payload (olds ++ [es]) [(CrcType, [])] = wal_payload olds es.
Proof.
  unfold wal_payload. rewrite map_app, concat_app. cbn [map concat].
  change (payload [(CrcType, [])]) with (@nil bytes). by rewrite !app_nil_r.
Qed.

Lemma wal_payload_app olds es e :
  wal_payload olds (es ++ [e]) = wal_payload olds es ++ payload [e].
Proof. unfold wal_payload, payload. by rewrite omap_app, app_assoc. Qed.

(** The log represents [ds], the data logged so far. *)
Definition logged (w : WAL) (ds : list bytes) : Prop :=
  exists olds es, wal_rep w olds es /\ wal_payload olds es = ds.

(** Rotation is off, or there is a next sequence number. *)
Definition seq_room (w : WAL) : Prop :=
  SegmentSize (opts w) <= 0 \/ 0 <= Wal.seq w < 2 ^ 64 - 1.

Lemma maybe_rotate_spec w ds :
  logged w ds -> seq_room w ->
  exists w' res, maybe_rotate w = Some (w', res) /\
    match res with inr _ => logged w' ds | inl x => io_failure x end.
Proof.
  intros (olds & es & Hrep & Hds) Hs. unfold maybe_rotate.
  destruct (_ && _) eqn:E; [|do 2 eexists; split; [reflexivity|]; by exists olds, es].
  bool_hyps. destruct Hs as [Hs|Hs]; [lia|].
  destruct (rotate_spec w olds es Hrep Hs) as (w' & res & -> & Hres).
  do 2 eexists. split; [reflexivity|]. destruct res as [x|]; [done|].
  destruct Hres as (Hrep' & _). exists (olds ++ [es]), [(CrcType, [])].
  split; [done|]. by rewrite wal_payload_rotate.
Qed.

(** Encoding one entry into the open segment. *)
Lemma encode_logged w ds ty dat :
  logged w ds -> entry_ok (ty, dat) ->
  exists e rec res, Encode (encoder w) (mkRecord ty 0 dat) = Some (e, rec, res) /\
    match res with
    | inr _ => logged (set_encoder w e) (ds ++ payload [(ty, dat)])
    | inl x => io_failure x
    end.
Proof.
  intros (olds & es & Hrep & Hds) Hok. assert (Hrep' := Hrep).
  destruct Hrep' as (_ & (s & Hh & He) & _).
  destruct (enc_state_encode _ _ _ _ _ He Hok) as (e & rec & res & -> & _ & _ & Hres).
  do 3 eexists. split; [reflexivity|]. destruct res as [x|off]; [done|].
  destruct Hres as (_ & He' & _). exists olds, (es ++ [(ty, dat)]).
  split; [|by rewrite wal_payload_app, Hds].
  eapply rep_set_encoder; [done|by apply seg_head_app|done].
Qed.

Lemma Append_spec w ds data :
  logged w ds -> seq_room w -> blen data + 40 <= maxRecordSize ->
  exists w' res, Append w data = Some (w', res) /\
    match res with
    | inr _ | inl ErrCrcNotSet => logged w' (ds ++ [data])
    | inl x => io_failure x
    end.
Proof.
  intros Hl Hs Hd. unfold Append.
  assert (Hcl : closed w = false) by (destruct Hl as (? & ? & (? & _) & _); done). rewrite Hcl.
  destruct (maybe_rotate_spec w ds Hl Hs) as (w1 & res & -> & Hres). cbn [mbind option_bind].
  destruct res as [x|[]].
  { do 2 eexists. split; [reflexivity|]. destruct Hres as [y ->]. by exists y. }
  assert (Hok : entry_ok (DataType, data)) by (unfold entry_ok, DataType; cbn; lia).
  destruct (encode_logged w1 ds DataType data Hres Hok) as (e & rec & res & -> & Hlog).
  cbn [mbind option_bind]. destruct res as [x|off].
  { do 2 eexists. split; [reflexivity|]. destruct Hlog as [y ->]. by exists y. }
  change (payload [(DataType, data)]) with [data] in Hlog.
  destruct (_ && _); do 2 eexists; (split; [reflexivity|]); [done|].
  destruct Hlog as (olds & es & Hrep & Hp). exists olds, es. by split; [apply rep_set_offset|].
Qed.

Lemma Sync_spec w ds :
  logged w ds ->
  exists w' err, Sync w = Some (w', err) /\
    match err with
    | None => logged w' ds /\ flushed w' /\ synced w' = content (file w')
    | Some x => io_failure x
    end.
Proof.
  intros (olds & es & Hrep & Hds). unfold Sync. rewrite (proj1 Hrep).
  destruct (syncLocked_spec w olds es Hrep) as (w' & err & -> & Herr).
  do 2 eexists. split; [reflexivity|]. destruct err as [x|]; [done|].
  destruct Herr as (Hrep' & Hf & Hsy & _). split; [by exists olds, es|done].
Qed.

(** A snapshot marker leaves the data as it is. *)
Lemma SaveSnapshot_spec w ds snap :
  logged w ds -> seq_room w ->
  (forall b, Marshal snap = Some b -> blen b + 40 <= maxRecordSize) ->
  exists w' err, SaveSnapshot w (Some snap) = Some (w', err) /\
    match err with
    | None => logged w' ds /\ flushed w' /\ synced w' = content (file w')
    | Some ErrMarshal => Marshal snap = None /\ logged w' ds
    | Some x => io_failure x
    end.
Proof.
  intros Hl Hs Hd. unfold SaveSnapshot.
  assert (Hcl : closed w = false) by (destruct Hl as (? & ? & (? & _) & _); done). rewrite Hcl.
  destruct (maybe_rotate_spec w ds Hl Hs) as (w1 & res & -> & Hres). cbn [mbind option_bind].
  destruct res as [x|[]].
  { do 2 eexists. split; [reflexivity|]. destruct Hres as [y ->]. by exists y. }
  destruct (Marshal snap) as [b|] eqn:Hm; [|by do 2 eexists; split; [reflexivity|]].
  assert (Hok : entry_ok (SnapshotType, b)).
  { specialize (Hd b eq_refl). unfold entry_ok, SnapshotType. cbn. lia. }
  destruct (encode_logged w1 ds SnapshotType b Hres Hok) as (e & rec & res & -> & Hlog).
  cbn [mbind option_bind]. destruct res as [x|off].
  { do 2 eexists. split; [reflexivity|]. destruct Hlog as [y ->]. by exists y. }
  change (payload [(SnapshotType, b)]) with (@nil bytes) in Hlog. rewrite app_nil_r in Hlog.
  destruct (Sync_spec (set_offset (set_encoder w1 e) (Encoder.Offset e)) ds) as (w' & err & Hrun & Herr).
  { destruct Hlog as (olds & es & Hrep & Hp). exists olds, es. by split; [apply rep_set_offset|]. }
  exists w', err. split; [exact Hrun|]. destruct err as [x|]; [|done].
  destruct Herr as [y ->]. by exists y.
Qed.

(** ** Reading back *)

Lemma readSegments_spec d names olds :
  Forall2 (fun nm old => exists c, d !! nm.2 = Some (DFile c) /\ seg_holds c old) names olds ->
  readSegments d names = Some (inr (concat (map payload olds))).
Proof.
  induction 1 as [|[s nm] old names olds (c & Hc & Hs) _ IH]; [done|].
  cbn [readSegments snd] in *. unfold readSegment. rewrite Hc, (seg_reads _ _ Hs).
  cbn [mbind option_bind]. by rewrite IH.
Qed.

(** The directory of a flushed log. *)
Lemma rep_dir w olds es :
  wal_rep w olds es -> flushed w ->
  exists names, listSegments (files w) = names ++ [(Wal.seq w, path w)] /\
    Forall2 (fun nm old => exists c, files w !! nm.2 = Some (DFile c) /\ seg_holds c old) names olds /\
    files w !! path w = Some (DFile (content (file w))) /\ seg_holds (content (file w)) es.
Proof.
  intros (_ & (s & Hh & He) & _ & names & Hls & Hold) [n Hn]. exists names. split; [done|].
  split; [|split; [apply files_path|by eapply enc_state_holds]].
  eapply Forall2_impl; [exact Hold|]. intros nm old (Hne & c & Hc & Hs). exists c.
  split; [|done]. unfold files. by rewrite lookup_insert_ne.
Qed.

Lemma ReadAll_spec w ds :
  logged w ds ->
  exists w' res, ReadAll w = Some (w', res) /\
    match res with
    | inr out => out = ds /\ logged w' ds
    | inl x => io_failure x
    end.
Proof.
  intros (olds & es & Hrep & Hds). unfold ReadAll. rewrite (proj1 Hrep).
  assert (Hrep' := Hrep). destruct Hrep' as (_ & (s & Hh & He) & _).
  destruct (enc_state_flush _ _ _ He) as (e & err & -> & _ & Ht & _ & Hok).
  cbn [mbind option_bind]. destruct err as [x|].
  { do 2 eexists. split; [reflexivity|]. by exists x. }
  destruct (Hok eq_refl) as (He' & _ & Hn).
  pose proof (rep_set_encoder w olds es e s es Hrep Hh He') as Hrep1.
  destruct (rep_dir _ _ _ Hrep1 Hn) as (names & Hls & Hall & Hp & Hs).
  rewrite Hls, (readSegments_spec _ _ (olds ++ [es])).
  - cbn [mbind option_bind]. do 2 eexists. split; [reflexivity|]. split.
    + rewrite <- Hds. unfold wal_payload. rewrite map_app, concat_app. cbn [map concat].
      by rewrite app_nil_r.
    + by exists olds, es.
  - apply Forall2_app; [done|]. constructor; [|constructor]. by eexists.
Qed.
End ops.
