(* ===== verification/WalRecovery.v ===== *)
(** Opening a log directory: a new log, a cleanly closed one, one cut by a
    crash; the theorems of the log's contract; and the recoveries that lose
    data. *)
From S2P Require Import Prelude SliceSort Binary Io PageWriter Proto Crc Walpb Encoder Decoder LogSpec Wal WalNames WalSpec WalOps.
From stdpp Require Import sorting.

#[local] Open Scope Z_scope.

Section recovery.
Context {sorter : SliceSorter} {codec : Codec Record_} {laws : RecordCodec} {scodec : Codec Snapshot}.

(** A directory from which the log [olds], [es] is recovered. *)
Definition dir_rep (d : directory) (olds : list (list entry)) (es : list entry) : Prop :=
  NoDup (seqs d) /\
  exists names s nm c, listSegments d = names ++ [(s, nm)] /\
    Forall2 (fun n old => exists c, d !! n.2 = Some (DFile c) /\ seg_holds c old) names olds /\
    d !! nm = Some (DFile c) /\ seg_recovers c es.

Lemma listing_names_differ d names s nm n :
  NoDup (seqs d) -> listSegments d = names ++ [(s, nm)] -> n ∈ names -> n.2 <> nm.
Proof.
  intros Hnd Hls Hn Heq. destruct n as [s1 n1]. cbn in Heq. subst n1.
  assert (H1 : (s1, nm) ∈ listSegments d) by (rewrite Hls; apply elem_of_app; by left).
  assert (H2 : (s, nm) ∈ listSegments d) by (rewrite Hls; apply elem_of_app; right; by left).
  apply listSegments_elem in H1 as (c1 & _ & Hs1), H2 as (c2 & _ & Hs2).
  assert (s1 = s) as -> by (cbn in Hs1, Hs2; congruence).
  unfold seqs in Hnd. rewrite Hls, fmap_app in Hnd. apply NoDup_app in Hnd as (_ & Hd & _).
  apply (Hd s); [|by left]. by apply (list_elem_of_fmap_2 fst _ _ Hn).
Qed.

(** Opening an existing log; what is on disk then holds the bytes of the log
    first. *)
Lemma Open_existing_synced d o sp olds es :
  dir_rep d olds es ->
  exists d' res, Open d o sp = Some (d', res) /\
    match res with
    | inr w => wal_rep w olds es /\ d' = files w /\ seg_recovers (synced w) es /\
        exists rest, synced w = stream (pw (encoder w)) ++ rest
    | inl x => io_failure x
    end.
Proof.
  intros (Hnd & names & s & nm & c & Hls & Hold & Hc & Hrec). unfold Open.
  rewrite Hls, last_snoc, Hc.
  destruct (openSegment_file_spec o c sp es Hrec) as (c' & res & -> & Hres).
  cbn [mbind option_bind]. destruct res as [x|[enc off]]; [io_error_branch|].
  destruct Hres as (s0 & n & Hh & He & Hdev & _ & Hoff & Hrest). do 2 eexists. split; [reflexivity|].
  set (w := mkWAL _ _ _ _ _ _ _ _ _).
  assert (Hf : files w = <[nm := DFile c']> d).
  { unfold files, file, w. cbn [dir path encoder]. fold (device enc). by rewrite Hdev, insert_insert_eq. }
  split; [|done]. split; [done|]. split; [by exists s0|].
  assert (Hl2 : listSegments (files w) = listSegments d).
  { rewrite Hf. by eapply listSegments_overwrite. }
  unfold seqs. rewrite Hl2. split; [done|]. exists names. split; [done|].
  apply Forall2_same_length_lookup_2; [by eapply Forall2_length|]. intros i n1 old H1 H2.
  pose proof (Forall2_lookup_lr _ _ _ _ _ _ Hold H1 H2) as (c1 & Hc1 & Hs1).
  assert (Hne : n1.2 <> nm) by (eapply listing_names_differ; eauto using list_elem_of_lookup_2).
  split; [done|]. exists c1. split; [|done]. unfold w. cbn [dir]. by rewrite lookup_insert_ne.
Qed.

Lemma Open_existing d o sp olds es :
  dir_rep d olds es ->
  exists d' res, Open d o sp = Some (d', res) /\
    match res with
    | inr w => wal_rep w olds es /\ d' = files w
    | inl x => io_failure x
    end.
Proof.
  intros Hd. destruct (Open_existing_synced d o sp olds es Hd) as (d' & res & Ho & Hres).
  exists d', res. split; [done|]. destruct res as [x|w]; [done|]. by destruct Hres as (? & ? & _).
Qed.
(** A new log; its checkpoint record is synced. *)
Lemma Open_new_synced d o sp :
  listSegments d = [] ->
  exists d' res, Open d o sp = Some (d', res) /\
    match res with
    | inr w => wal_rep w [] [(CrcType, [])] /\ d' = files w /\ flushed w /\ synced w = content (file w)
    | inl x => io_failure x
    end.
Proof.
  intros Hls. unfold Open. rewrite Hls. cbn [last].
  destruct (createSegment_file_spec o d sp 0 0 ltac:(lia)) as (d' & res & -> & Hres).
  cbn [mbind option_bind]. destruct res as [x|enc]; [io_error_branch|].
  destruct Hres as (Hnd & -> & He & Hzero). do 2 eexists. split; [reflexivity|].
  set (w := mkWAL _ _ _ _ _ _ _ _ _). set (d' := <[segmentPath 0 := _]> d) in *.
  assert (Hf : files w = d').
  { unfold files, file, w, d'. cbn [dir path encoder]. fold (device enc). by rewrite insert_insert_eq. }
  split; [|done]. split; [done|]. split.
  { exists 0. split; [|done]. split; [lia|by left]. }
  assert (Hs : seqs d = []) by (unfold seqs; by rewrite Hls).
  assert (Hl2 : listSegments (files w) = [(0, segmentPath 0)]).
  { rewrite Hf. unfold d'. rewrite listSegments_create; rewrite ?Hls, ?Hs; [done|lia|constructor|constructor|].
    destruct (seqs_path_fresh d 0) as [|]; [lia|by rewrite Hs|done|done]. }
  unfold seqs. rewrite Hl2. split; [apply NoDup_singleton|]. exists []. split; [done|constructor].
Qed.

Lemma Open_new d o sp :
  listSegments d = [] ->
  exists d' res, Open d o sp = Some (d', res) /\
    match res with
    | inr w => wal_rep w [] [(CrcType, [])] /\ d' = files w
    | inl x => io_failure x
    end.
Proof.
  intros Hd. destruct (Open_new_synced d o sp Hd) as (d' & res & Ho & Hres).
  exists d', res. split; [done|]. destruct res as [x|w]; [done|]. by destruct Hres as (? & ? & _).
Qed.

(** The directory left by a flushed log. *)
Lemma rep_dir_rep w olds es : wal_rep w olds es -> flushed w -> dir_rep (files w) olds es.
Proof.
  intros Hrep Hf. destruct (rep_dir w olds es Hrep Hf) as (names & Hls & Hall & Hp & Hs).
  split; [apply Hrep|]. exists names, (Wal.seq w), (path w), (content (file w)).
  repeat (split; [done|]). by apply seg_holds_recovers.
Qed.

(** The encoding of entries is a function. *)
Lemma is_log_det c es b b' : is_log c es b -> is_log c es b' -> b = b'.
Proof.
  intros H1. revert b'. induction H1 as [|? ? ? data b _ _ Hm _ _ IH]; intros b' H2; inversion H2; subst; [done|].
  match goal with Hm' : Marshal _ = Some ?x |- _ = frame_of ?x ++ _ => rewrite Hm in Hm'; injection Hm' as <- end.
  f_equal. by apply IH.
Qed.

(** The log of a prefix is no longer than the log. *)
Lemma is_log_prefix_le c es1 es2 b1 b2 :
  is_log c (es1 ++ es2) b2 -> is_log c es1 b1 -> blen b1 <= blen b2.
Proof.
  intros H2 H1. apply is_log_inv_app in H2 as (b1' & b & -> & H1' & _).
  rewrite (is_log_det _ _ _ _ H1 H1'), blen_app. pose proof (blen_nonneg b). lia.
Qed.

(** The entries a cut leaves whole: a prefix of the log is kept exactly when
    its bytes are before the cut. *)
Lemma seg_cut_whole s es B k :
  seg_head s es -> is_log s es B -> 0 <= k <= blen B ->
  exists es1, es1 `prefix_of` es /\ seg_recovers (take (Z.to_nat k) B) es1 /\
    forall es0 b0, es0 `prefix_of` es -> is_log s es0 b0 -> (es0 `prefix_of` es1 <-> blen b0 <= k).
Proof.
  intros Hh HB Hk.
  destruct (seg_cut_recovers s es B k Hh HB Hk) as (es1 & es2 & b1 & -> & Hrec & Hl1 & Hb1 & Hnext).
  exists es1. split; [by exists es2|]. split; [done|]. intros es0 b0 [r0 Heq] H0. split.
  - intros [r1 ->]. pose proof (is_log_prefix_le _ _ _ _ _ Hl1 H0). lia.
  - intros Hle. destruct (app_eq_inv _ _ _ _ Heq) as [(l & -> & ->)|(l & -> & ->)]; [by exists l|].
    destruct l as [|e l]; [by rewrite app_nil_r|]. exfalso.
    apply is_log_inv_app in H0 as (b1' & b2 & -> & Hl1' & Hl2).
    rewrite <- (is_log_det _ _ _ _ Hl1 Hl1') in *.
    inversion Hl2 as [|? ? ? data b3 ? ? Hm ? ?]; subst.
    specialize (Hnext e (l ++ r0) data eq_refl Hm).
    rewrite !blen_app in Hle. pose proof (blen_nonneg b3). lia.
Qed.

(** Replacing the open segment's file, as a crash does. *)
Lemma crash_dir_rep w olds es c es1 :
  wal_rep w olds es -> seg_recovers c es1 ->
  dir_rep (<[path w := DFile c]> (dir w)) olds es1.
Proof.
  intros (_ & _ & Hnd & names & Hls & Hold) Hc.
  assert (Hd : <[path w := DFile c]> (dir w) = <[path w := DFile c]> (files w)).
  { unfold files. by rewrite insert_insert_eq. }
  assert (Hl2 : listSegments (<[path w := DFile c]> (dir w)) = listSegments (files w)).
  { rewrite Hd. eapply listSegments_overwrite; [done|apply files_path]. }
  split; [unfold seqs; by rewrite Hl2|].
  exists names, (Wal.seq w), (path w), c. rewrite Hl2. split; [done|].
  split; [|split; [apply lookup_insert_eq|done]].
  eapply Forall2_impl; [exact Hold|]. intros nm old (Hne & c1 & Hc1 & Hs1). exists c1.
  by rewrite lookup_insert_ne.
Qed.

(** ** The contract of the log *)

(** The operations of a caller, and what they mean on the list of data. *)
Inductive op : Type :=
| OpAppend (data : bytes)
| OpSync
| OpSnapshot (snap : Snapshot)
| OpReadAll.

Inductive outcome : Type :=
| Done
| Failed (x : wal_error)
| Read (ds : list bytes).

Definition outcome_of (err : option wal_error) : outcome :=
  match err with None => Done | Some x => Failed x end.

Definition run_op (w : WAL) (o : op) : option (WAL * outcome) :=
  match o with
  | OpAppend data =>
      '(w, res) ← Append w data;
      Some (w, match res with inl x => Failed x | inr _ => Done end)
  | OpSync => '(w, err) ← Sync w; Some (w, outcome_of err)
  | OpSnapshot snap => '(w, err) ← SaveSnapshot w (Some snap); Some (w, outcome_of err)
  | OpReadAll =>
      '(w, res) ← ReadAll w;
      Some (w, match res with inl x => Failed x | inr ds => Read ds end)
  end.

Definition spec_op (ds : list bytes) (o : op) : list bytes :=
  match o with OpAppend data => ds ++ [data] | _ => ds end.

(** The sizes the decoder accepts. *)
Definition op_ok (o : op) : Prop :=
  match o with
  | OpAppend data => blen data + 40 <= maxRecordSize
  | OpSnapshot snap => forall b, Marshal snap = Some b -> blen b + 40 <= maxRecordSize
  | _ => True
  end.

(** C4: The log is an append-only list: on a log that represents the data
    [ds], [Append] adds one element, [Sync], [SaveSnapshot] and [ReadAll] keep
    the list and [ReadAll] returns it, across any number of segments and
    rotations, for data of the size the decoder accepts ([op_ok]).  No operation panics or diverges.  The only failures are those
    of the device, of marshalling a snapshot, and the CRC check of [Append],
    after which the data is in the log although an error was returned. *)
Theorem wal_refines_list (w : WAL) (ds : list bytes) (o : op) :
  logged w ds -> seq_room w -> op_ok o ->
  exists w' res, run_op w o = Some (w', res) /\
    match res with
    | Done => logged w' (spec_op ds o)
    | Read out => out = ds /\ logged w' ds
    | Failed ErrCrcNotSet | Failed ErrMarshal => logged w' (spec_op ds o)
    | Failed x => io_failure x
    end.
Proof.
  intros Hl Hs Ho. destruct o as [data| |snap|]; cbn [run_op spec_op op_ok] in *.
  - destruct (Append_spec w ds data Hl Hs Ho) as (w' & res & -> & Hr). cbn [mbind option_bind].
    do 2 eexists. split; [reflexivity|]. destruct res as [[]|]; try done; by destruct Hr.
  - destruct (Sync_spec w ds Hl) as (w' & err & -> & Hr). cbn [mbind option_bind].
    do 2 eexists. split; [reflexivity|]. destruct err as [x|]; [by destruct Hr as [y ->]; exists y|apply Hr].
  - destruct (SaveSnapshot_spec w ds snap Hl Hs Ho) as (w' & err & -> & Hr). cbn [mbind option_bind].
    do 2 eexists. split; [reflexivity|].
    destruct err as [[]|]; cbn [outcome_of]; try done; try apply Hr; by destruct Hr.
  - destruct (ReadAll_spec w ds Hl) as (w' & res & -> & Hr). cbn [mbind option_bind].
    do 2 eexists. split; [reflexivity|]. destruct res as [x|out]; [by destruct Hr as [y ->]; exists y|done].
Qed.

(** C30: What is synced survives: after a successful [Sync], opening the
    directory again gives a log of the same data, whose [fsync]ed file is what
    the directory holds, or reports a device error. *)
Theorem sync_then_reopen (w : WAL) (ds : list bytes) (o : Options) (sp : Z) :
  logged w ds ->
  exists w' err, Sync w = Some (w', err) /\
    (err = None ->
     files w' !! path w' = Some (DFile (synced w')) /\
     exists d' res, Open (files w') o sp = Some (d', res) /\
       match res with
       | inr w2 => logged w2 ds /\ d' = files w2
       | inl x => io_failure x
       end).
Proof.
  intros Hl. destruct (Sync_spec w ds Hl) as (w' & err & Hs & Hr). exists w', err.
  split; [done|]. intros ->. destruct Hr as ((olds & es & Hrep & Hp) & Hf & Hsy).
  rewrite Hsy. split; [apply files_path|].
  destruct (Open_existing (files w') o sp olds es (rep_dir_rep _ _ _ Hrep Hf)) as (d' & res & Ho & Hres).
  exists d', res. split; [done|]. destruct res as [x|w2]; [done|]. destruct Hres as [Hrep2 ->].
  split; [by exists olds, es|done].
Qed.

(** C5: Recovery after a crash that cuts the open segment's file at any byte
    [k]: the log reopens, or the device fails, with exactly the entries whose
    frames are complete before the cut.  The entries [es1] recovered are the
    longest such prefix of the segment: for every prefix [es0] of what was
    logged, all of [es0] is among them if and only if the bytes of [es0] are at
    most [k].  The earlier segments are kept, and the directory is the one the
    reopened log has. *)
Theorem crash_recovery (w : WAL) (olds : list (list entry)) (s : Z) (es : list entry)
    (k : Z) (o : Options) (sp : Z) :
  wal_rep w olds es -> seg_head s es -> enc_state (encoder w) s es ->
  0 <= k <= blen (stream (pw (encoder w))) ->
  let crashed := <[path w := DFile (take (Z.to_nat k) (stream (pw (encoder w))))]> (dir w) in
  exists es1, es1 `prefix_of` es /\
    (forall es0 b0, es0 `prefix_of` es -> is_log s es0 b0 -> (es0 `prefix_of` es1 <-> blen b0 <= k)) /\
    exists d' res, Open crashed o sp = Some (d', res) /\
      match res with
      | inr w2 => wal_rep w2 olds es1 /\ d' = files w2
      | inl x => io_failure x
      end.
Proof.
  intros Hrep Hh (_ & _ & _ & Hl & _) Hk crashed.
  destruct (seg_cut_whole s es _ k Hh Hl Hk) as (es1 & Hpre & Hrec & Hiff).
  exists es1. split; [done|]. split; [done|]. apply Open_existing. by eapply crash_dir_rep.
Qed.
End recovery.
