(* ===== verification/WalLimits.v ===== *)
(** The edges of the write-ahead log: opening terminates on every directory,
    and the cases in which the code does less than its comments promise, as
    theorems and as runs of the program on concrete bytes.

    A torn record costs the appends made after it: [Decode] feeds a record's
    data to its digest before it compares ([pkg/wal/decoder.go]), and
    [openSegment] continues from [LastCRC] ([pkg/wal/wal.go]). *)
From S2P Require Import Prelude SliceSort Binary Io PageWriter Proto Crc Walpb Encoder Decoder LogSpec Wal WalNames WalSpec WalOps WalRecovery.
From stdpp Require Import sorting.

#[local] Open Scope Z_scope.

Section limits.
Context {sorter : SliceSorter} {codec : Codec Record_} {laws : RecordCodec}.

(** ** Termination of recovery on arbitrary bytes *)

Lemma decodeFrameSize_nonneg z : 0 <= z < 2 ^ 64 ->
  let '(recBytes, padBytes) := decodeFrameSize (i64 z) in 0 <= recBytes /\ 0 <= padBytes.
Proof.
  intros Hz. rewrite decodeFrameSize_spec by done. pose proof (Z.mod_pos_bound z (2 ^ 56) ltac:(lia)).
  pose proof (Z.mod_pos_bound (z / 2 ^ 56) 8 ltac:(lia)). destruct (_ <=? _); lia.
Qed.

Lemma Decode_offset d d1 res : Decode d = Some (d1, res) -> lastValidOff d <= lastValidOff d1.
Proof.
  unfold Decode. destruct (ReadFull (r d) 8) as [s [e|b8]] eqn:E1; [by intros [= <- _]|].
  pose proof (le_value_bounds b8) as Hv.
  assert (Hb8 : blen b8 = 8).
  { unfold ReadFull in E1. destruct (_ <=? _) eqn:E; [|done]. bool_hyps. injection E1 as _ <-.
    apply blen_take. lia. }
  rewrite Hb8 in Hv. change (256 ^ 8) with (2 ^ 64) in Hv.
  destruct (_ =? 0); [by intros [= <- _]|]. pose proof (decodeFrameSize_nonneg _ Hv) as Hs.
  destruct (decodeFrameSize _) as [rb pb]. destruct Hs as [Hr Hp].
  destruct (maxRecordSize <? _); [by intros [= <- _]|]. destruct (maxAlloc <? _); [done|]. cbn [r set_r].
  destruct (ReadFull s _) as [s' [e|data]]; [by intros [= <- _]|].
  destruct (Unmarshal _) as [rc|]; [|by intros [= <- _]]. cbv zeta. cbn [r set_r crc lastValidOff].
  unfold frameSizeBytes.
  destruct (_ =? CrcType); [intros [= <- _]; cbn; lia|].
  destruct (_ =? Crc rc); intros [= <- _]; cbn; lia.
Qed.

Lemma decodes_offset d rs d' x : decodes d rs d' x -> lastValidOff d <= lastValidOff d'.
Proof.
  induction 1 as [d d' e Hd|d d1 rec rs d' e Hd _ IH]; apply Decode_offset in Hd; lia.
Qed.

Lemma zeroToEnd_total f : 0 <= pos f -> opened f = true -> exists p, zeroToEnd f = Some p.
Proof.
  intros Hp Ho. destruct (decide (pos f <= blen (content f))) as [Hle|Hgt].
  - destruct (zeroToEnd_spec f (take (Z.to_nat (pos f)) (content f)) (drop (Z.to_nat (pos f)) (content f)))
      as (f' & err & -> & _); [by rewrite take_drop|by rewrite blen_take|done|eauto].
  - unfold zeroToEnd, seek_current, seek_end. cbn [pos content].
    rewrite (proj2 (Z.leb_le _ _)) by lia. eauto.
Qed.

(** C35: Opening terminates without panic on every directory, whatever bytes
    its segment files hold.  A damaged frame may announce any length up to
    [2^56]; the decoder's size check keeps it from the allocation, which would
    panic beyond [maxAlloc]. *)
Theorem Open_total (d : directory) (o : Options) (sp : Z) : exists res, Open d o sp = Some res.
Proof.
  unfold Open. destruct (last (listSegments d)) as [[s name]|].
  - destruct (d !! name) as [[c|]|]; [|eauto..]. unfold openSegment_file.
    destruct (decodes_exists (NewDecoder c)) as (rs & d' & x & Hd).
    rewrite (openSegment_loop_spec _ _ _ _ _ Hd) by (cbn; lia). cbn [mbind option_bind].
    destruct (decide _); [|cbn [mbind option_bind]; eauto].
    apply decodes_offset in Hd. cbn in Hd.
    destruct (zeroToEnd_total (seek_start (mkFile c 0 sp true) (LastOffset d'))) as [[f err] ->]; [done..|].
    cbn [mbind option_bind]. destruct err; cbn [mbind option_bind]; eauto.
  - destruct (createSegment_file_spec o d sp 0 0 ltac:(lia)) as (d' & res & -> & _).
    cbn [mbind option_bind]. eauto.
Qed.

(** ** A torn record and the chain *)

(** After a torn record whose envelope still parses, the decoder has
    already fed the record's data to its digest.  The log continues from that
    digest, so the next record written, in the place of the torn one, fails the
    CRC check of every later reading: it is lost or reported as corruption. *)
Theorem torn_record_breaks_chain (d d' : Decoder) (e : entry) (data rest : bytes) :
  Digest.tab (crc d) = crcTable -> 0 <= LastCRC d < 2 ^ 32 ->
  0 <= LastCRC d' < 2 ^ 32 -> LastCRC d' <> LastCRC d ->
  (* the next record is encoded from the decoder's last CRC *)
  entry_ok e -> e.1 <> CrcType -> Marshal (stamped (LastCRC d') e) = Some data ->
  exists d2 x, Decode (mkDecoder (frame_of data ++ rest) (crc d) (lastValidOff d)) = Some (d2, inl x) /\
    (x = ErrCRCMismatch \/ x = ErrIo_ ErrUnexpectedEOF).
Proof.
  intros Htab Hc Hc' Hne Hok Hty Hm. destruct (entry_stamped _ _ Hc' Hok) as [Hrec Hnz].
  pose proof (marshaled_pos _ _ _ Hrec Hnz Hm) as Hpos.
  pose proof (record_size _ _ Hrec Hm) as Hsz. cbn [Data stamped] in Hsz.
  destruct Hok as [_ Hlen]. pose proof (pad_spec (blen data) ltac:(lia)) as [Hp _].
  assert (Hframe : frame_of data = put_le64 (encodeFrameSize (blen data)).1 ++ data ++
    replicate (Z.to_nat (encodeFrameSize (blen data)).2) x00).
  { unfold frame_of. by destruct (encodeFrameSize (blen data)). }
  set (pad := (encodeFrameSize (blen data)).2) in *. unfold maxRecordSize in Hlen.
  rewrite (Decode_len _ (blen data) ((data ++ replicate (Z.to_nat pad) x00) ++ rest));
    [|lia|cbn [r]; by rewrite Hframe, <- !app_assoc].
  rewrite (proj2 (Z.ltb_ge _ _)) by (unfold maxRecordSize; lia). fold pad.
  set (body := data ++ _).
  replace (blen data + pad) with (blen body) by (unfold body; rewrite blen_app, blen_replicate; lia).
  rewrite ReadFull_app. unfold body. rewrite take_blen_app, (record_roundtrip _ _ Hrec Hm).
  cbv zeta. cbn [set_r r crc lastValidOff stamped Type_ Data Crc].
  rewrite (proj2 (Z.eqb_neq _ _) Hty).
  assert (Hmis : Digest.Sum32 (Digest.Write (crc d) e.2).1 <> chain (LastCRC d') e.2).
  { unfold Digest.Write, chain, LastCRC in *. cbn. rewrite Htab. intros Heq.
    apply Hne. symmetry. by eapply crc32_update_inj. }
  rewrite (proj2 (Z.eqb_neq _ _) Hmis). do 2 eexists. split; [reflexivity|].
  destruct (isTornEntry _ _); auto.
Qed.
End limits.

(** ** What a torn record does to later appends *)

Section torn.
Context {sorter : SliceSorter} {codec : Codec Record_} {laws : RecordCodec}.

(** A segment file [b ++ rest] that reads cleanly up to the log [b] of [es]
    and leaves the decoder [d1] with a digest that is not the chain's: it was
    fed the data of a torn record. *)
Record off_chain (s : Z) (es : list entry) (b rest : bytes) (d1 : Decoder) : Prop := {
  off_head : seg_head s es;
  off_log : is_log s es b;
  off_reads : exists x, decodes (NewDecoder (b ++ rest)) (stamp_all s es) d1 x /\ clean_end x;
  off_offset : LastOffset d1 = blen b;
  off_bounds : 0 <= LastCRC d1 < 2 ^ 32;
  off_crc : LastCRC d1 <> chain_all s es }.

(** An error leaves the offset where it was. *)
Lemma Decode_error_offset d d' x : Decode d = Some (d', inl x) -> lastValidOff d' = lastValidOff d.
Proof.
  unfold Decode. destruct (ReadFull (r d) 8) as [s [e|b8]]; [by intros [= <- _]|].
  destruct (_ =? 0); [by intros [= <- _]|]. destruct (decodeFrameSize _) as [rb pb].
  destruct (maxRecordSize <? _); [by intros [= <- _]|]. destruct (maxAlloc <? _); [done|].
  destruct (ReadFull _ _) as [s' [e|data]]; [by intros [= <- _]|].
  destruct (Unmarshal _) as [rec|]; [|by intros [= <- _]]. cbv zeta.
  destruct (Type_ rec =? CrcType); [done|]. destruct (_ =? Crc rec); [done|]. by intros [= <- _].
Qed.

(** Reading the log [b] and then a record encoded off the chain. *)
Lemma off_chain_decodes s es b c0 e data rest :
  seg_head s es -> is_log s es b -> 0 <= c0 < 2 ^ 32 -> c0 <> chain_all s es ->
  entry_ok e -> e.1 <> CrcType -> Marshal (stamped c0 e) = Some data ->
  exists d2 x, decodes (NewDecoder (b ++ frame_of data ++ rest)) (stamp_all s es) d2 x /\
    LastOffset d2 = blen b /\ (x = ErrCRCMismatch \/ x = ErrIo_ ErrUnexpectedEOF).
Proof.
  intros Hh Hl Hc0 Hne Hok Hty Hm. set (d0 := NewDecoder (b ++ frame_of data ++ rest)).
  set (dig := match es with [] => crc d0 | _ => Digest.New (chain_all s es) crcTable end).
  set (dm := mkDecoder (frame_of data ++ rest) dig (blen b)).
  assert (HC : LastCRC dm = chain_all s es).
  { unfold dm, dig, LastCRC. cbn [crc]. destruct es as [|e1 es]; [|done].
    destruct Hh as [_ [->|(? & ? & [=] & _)]]. done. }
  assert (Htab : Digest.tab (crc dm) = crcTable) by (unfold dm, dig; cbn [crc]; by destruct es).
  pose proof (chain_all_bounds s es (proj1 Hh)) as Hb.
  destruct (torn_record_breaks_chain dm (mkDecoder [] (Digest.New c0 crcTable) 0) e data rest)
    as (d2 & x & Hd & Hx); [done|by rewrite HC|done|by rewrite HC|done|done|done|].
  exists d2, x. split; [|split; [|done]].
  - rewrite <- (app_nil_r (stamp_all s es)).
    eapply (decodes_log s es b d0 (frame_of data ++ rest)); [done|apply Hh|by apply seg_head_seeded|done|].
    by constructor.
  - unfold LastOffset. by rewrite (Decode_error_offset _ _ _ Hd).
Qed.

(** The log opened on such a file, and one record appended and synced. *)
Lemma off_chain_append d o sp q nm s es b rest d1 d' w data w1 off w2 :
  NoDup (seqs d) -> last (listSegments d) = Some (q, nm) -> d !! nm = Some (DFile (b ++ rest)) ->
  off_chain s es b rest d1 -> SegmentSize o <= 0 -> blen data + 40 <= maxRecordSize ->
  Open d o sp = Some (d', inr w) -> Append w data = Some (w1, inr off) -> Sync w1 = Some (w2, None) ->
  exists frame n,
    Marshal (stamped (LastCRC d1) (DataType, data)) = Some frame /\
    files w2 = <[nm := DFile (b ++ frame_of frame ++ replicate n x00)]> d.
Proof.
  intros Hnd Hlast Hnm [Hh Hl (x & Hd & Hx) Hoff Hbd _] Hseg Hlen Hopen Happ Hsync.
  unfold Open in Hopen. rewrite Hlast, Hnm in Hopen.
  destruct (openSegment_file_decodes o b rest sp _ _ _ Hd Hx Hoff) as (c' & res & Hrun & Hres).
  rewrite Hrun in Hopen. cbn [mbind option_bind] in Hopen. destruct res as [y|[enc vo]]; [done|].
  injection Hopen as _ <-. destruct Hres as (f & n & Hf & Hw & -> & Hc & Henc & ->).
  assert (Hwf : enc_wf (Z.rem (blen b) walPageBytes - blen (written f)) enc).
  { rewrite Henc. apply NewEncoder_wf; [apply rem_page_nonneg|done]. }
  assert (Hst : stream (pw enc) = b).
  { rewrite Henc. unfold NewEncoder. cbn [pw]. by rewrite NewPageWriter_stream. }
  assert (Ht : tail_zero (device enc)) by (by rewrite Henc).
  assert (Hcrc : CRC enc = LastCRC d1) by (by rewrite Henc).
  unfold Append, maybe_rotate in Happ. cbn [closed opts] in Happ.
  rewrite (proj2 (Z.ltb_ge 0 (SegmentSize o))) in Happ by done. cbn [andb mbind option_bind encoder] in Happ.
  destruct (Encode_spec _ enc (mkRecord DataType 0 data) Hwf) as (e' & rec' & res & Henc' & -> & _ & Hres').
  rewrite Henc' in Happ. cbn [mbind option_bind] in Happ. destruct res as [y|o1]; [done|].
  destruct Hres' as (_ & Hwf' & fr & Hm & Hst' & _).
  pose proof (Encode_preserves tail_zero _ _ _ _ _ tail_zero_write Ht Henc') as Ht'.
  assert (Hw1 : exists z, w1 = set_offset (set_encoder (mkWAL o (<[nm := DFile (b ++ replicate n x00)]> d) nm enc q
    (blen b) false (b ++ rest) sp) e') z).
  { destruct (_ && _) in Happ; [done|]. injection Happ as <- _. by eexists. }
  destruct Hw1 as [z ->]. unfold Sync, syncLocked in Hsync. cbn [closed set_offset set_encoder encoder] in Hsync.
  destruct (EncoderFlush_spec _ e' Hwf') as (e2 & err & Hfl & _ & _ & _ & _ & Hres2).
  rewrite Hfl in Hsync. cbn [mbind option_bind] in Hsync. destruct err as [y|]; [done|].
  destruct Hres2 as (_ & Hw2 & _).
  pose proof (EncoderFlush_preserves tail_zero _ _ _ tail_zero_write Ht' Hfl) as Ht2.
  change (file _) with (device e2) in Hsync. rewrite tail_zero_fsync in Hsync by done. injection Hsync as <-.
  destruct Ht2 as (_ & _ & m & Hm2). exists fr, m. split; [by rewrite <- Hcrc|].
  unfold files. cbn [path set_synced set_encoder set_offset dir]. rewrite insert_insert_eq. do 2 f_equal.
  change (file _) with (device e2). unfold device in *. by rewrite Hm2, Hw2, Hst', Hst, <- app_assoc.
Qed.

(** C38: A torn record loses the appends that follow it.  Take any directory
    whose last segment holds a complete log [b] and then a torn record whose
    data has reached the decoder's digest.  The log opens; an append is
    accepted and synced without error, and its record is in the file right
    after [b].  Yet opening the directory again never recovers it: the log
    opens at the end of [b], without the record, or [Open] refuses the
    directory with a CRC mismatch (or the device fails). *)
Theorem torn_tail_loses_appends (d : directory) (o : Options) (sp q : Z) (nm : bytes) (s : Z) (es : list entry)
    (b rest : bytes) (d1 : Decoder) (d' : directory) (w w1 w2 : WAL) (data : bytes) (off : Z) :
  NoDup (seqs d) -> last (listSegments d) = Some (q, nm) -> d !! nm = Some (DFile (b ++ rest)) ->
  off_chain s es b rest d1 -> SegmentSize o <= 0 -> blen data + 40 <= maxRecordSize ->
  Open d o sp = Some (d', inr w) -> Append w data = Some (w1, inr off) -> Sync w1 = Some (w2, None) ->
  (exists frame n, Marshal (stamped (LastCRC d1) (DataType, data)) = Some frame /\
    files w2 !! nm = Some (DFile (b ++ frame_of frame ++ replicate n x00))) /\
  forall sp', exists d3 res, Open (files w2) o sp' = Some (d3, res) /\
    match res with
    | inr w3 => stream (pw (encoder w3)) = b
    | inl x => x = ErrCRCMismatch \/ io_failure x
    end.
Proof.
  intros Hnd Hlast Hnm Hoc Hseg Hlen Hopen Happ Hsync.
  destruct (off_chain_append _ _ _ _ _ _ _ _ _ _ _ _ _ _ _ _ Hnd Hlast Hnm Hoc Hseg Hlen Hopen Happ Hsync)
    as (frame & n & Hm & Hfiles).
  destruct Hoc as [Hh Hl _ _ Hbd Hne]. split.
  { exists frame, n. split; [done|]. by rewrite Hfiles, lookup_insert_eq. }
  intros sp'.
  assert (Hok : entry_ok (DataType, data)) by (unfold entry_ok, DataType; cbn; lia).
  destruct (off_chain_decodes s es b (LastCRC d1) (DataType, data) frame (replicate n x00) Hh Hl Hbd Hne Hok
    ltac:(done) Hm) as (d2 & x & Hd & Ho & Hx).
  unfold Open. rewrite Hfiles, (listSegments_overwrite d nm _ _ Hnd Hnm), Hlast, lookup_insert_eq.
  destruct Hx as [-> | ->].
  - unfold openSegment_file. rewrite (openSegment_loop_spec _ _ _ _ _ Hd) by (cbn; lia).
    rewrite decide_False by (by intros []). cbn [mbind option_bind]. do 2 eexists. split; [reflexivity|]. by left.
  - destruct (openSegment_file_decodes o b _ sp' _ _ _ Hd ltac:(by right) Ho) as (c' & res & -> & Hres).
    cbn [mbind option_bind]. do 2 eexists. split; [reflexivity|].
    destruct res as [y|[enc vo]]; [by right|]. destruct Hres as (f & m & _ & Hw & _ & _ & -> & _).
    cbn [encoder]. unfold NewEncoder. cbn [pw]. by rewrite NewPageWriter_stream.
Qed.
End torn.

(** ** Offsets after reopening *)

Section offsets.
Context {sorter : SliceSorter} {codec : Codec Record_} {laws : RecordCodec}.

(** After reopening a log, [Append] does not report the record's offset in
    the segment but its offset modulo the page size, and the log's own offset,
    on which rotation is decided, continues from there. *)
Theorem reopened_offset_wraps (d d' : directory) (olds : list (list entry)) (es : list entry)
    (o : Options) (sp : Z) (w : WAL) (data : bytes) :
  dir_rep d olds es -> Open d o sp = Some (d', inr w) ->
  SegmentSize o <= 0 \/ Wal.offset w < SegmentSize o -> blen data + 40 <= maxRecordSize ->
  Wal.offset w = blen (stream (pw (encoder w))) /\
  exists w' res, Append w data = Some (w', res) /\
    forall off, res = inr off ->
      off = Wal.offset w mod walPageBytes /\
      exists frame, stream (pw (encoder w')) = stream (pw (encoder w)) ++ frame /\
        Wal.offset w' = Wal.offset w mod walPageBytes + blen frame.
Proof.
  intros (Hnd & names & s & nm & c & Hls & Hold & Hc & Hrec) Hopen Hrot Hlen.
  unfold Open in Hopen. rewrite Hls, last_snoc, Hc in Hopen.
  destruct (openSegment_file_spec o c sp es Hrec) as (c' & res & Hrun & Hres).
  rewrite Hrun in Hopen. cbn [mbind option_bind] in Hopen.
  destruct res as [x|[enc off]]; [done|]. injection Hopen as _ <-.
  destruct Hres as (s0 & n & Hh & He & _ & _ & Hoff & _). cbn [encoder Wal.offset] in *.
  split; [done|]. unfold Append, maybe_rotate. cbn [closed opts Wal.offset].
  assert (Hno : (0 <? SegmentSize o) && (SegmentSize o <=? off) = false).
  { apply andb_false_iff. destruct Hrot; [left; apply Z.ltb_ge|right; apply Z.leb_gt]; done. }
  rewrite Hno. cbn [mbind option_bind encoder].
  assert (Hok : entry_ok (DataType, data)) by (unfold entry_ok, DataType; cbn; lia).
  destruct (enc_state_encode _ _ _ _ _ He Hok) as (e & rec & res & -> & _ & _ & Hres).
  assert (Henc : Encoder.offset enc = off mod walPageBytes).
  { unfold openSegment_file in Hrun.
    destruct (openSegment_loop _ _) as [[d2 [x|]]|]; cbn [mbind option_bind] in Hrun; [done| |done].
    destruct (zeroToEnd _) as [[f [x|]]|]; cbn [mbind option_bind] in Hrun; [done| |done].
    injection Hrun as _ <- Ho. cbn [Encoder.offset NewEncoder]. rewrite Ho, Hoff.
    apply Z.rem_mod_nonneg; [apply blen_nonneg|done]. }
  pose proof (Z.mod_pos_bound off walPageBytes ltac:(done)) as Hb.
  cbn [mbind option_bind]. destruct res as [x|off1]; [by do 2 eexists; split; [reflexivity|]|].
  destruct Hres as (-> & _ & fr & Hst & Ho1). rewrite Henc in *.
  destruct ((Crc rec =? 0) && _); do 2 eexists; (split; [reflexivity|]); [done|].
  intros off2 [= <-]. rewrite u64_small by (unfold walPageBytes, minSectorSize in *; lia).
  split; [done|]. by exists (frame_of fr).
Qed.
End offsets.

(** ** Concrete runs, over the wire-format codecs *)

Import Wire.

Definition small_options : Options := mkOptions 0 64 0.

(** The directory of a log with one segment, given its bytes. *)
Definition one_segment (c : bytes) : directory := {[ segmentPath 0 := DFile c ]}.

Lemma one_segment_dir_rep c es : seg_recovers c es -> dir_rep (one_segment c) [] es.
Proof.
  intros Hs. assert (Hl : listSegments (one_segment c) = [(0, segmentPath 0)]).
  { unfold one_segment. rewrite <- insert_empty.
    rewrite (listSegments_create ∅ 0 c); [done|lia|constructor|constructor|done]. }
  split; [unfold seqs; rewrite Hl; apply NoDup_singleton|].
  exists [], 0, (segmentPath 0), c. split; [done|]. split; [constructor|].
  split; [by unfold one_segment; rewrite lookup_singleton_eq|done].
Qed.

Lemma demo_dir_rep : dir_rep (one_segment demo_bytes) [] demo_entries.
Proof.
  apply one_segment_dir_rep, seg_holds_recovers. exists 0, demo_bytes, O.
  split; [split; [lia|by left]|]. split; [exact demo_is_log|]. by rewrite app_nil_r.
Qed.

(** The log opened on [demo_bytes]. *)
Definition demo_open : option (directory * (wal_error + WAL)) :=
  Open (one_segment demo_bytes) small_options 100000.

Lemma demo_opens : exists d w, demo_open = Some (d, inr w) /\ wal_rep w [] demo_entries /\
  Wal.seq w = 0 /\ stream (pw (encoder w)) = demo_bytes.
Proof.
  destruct (Open_existing (one_segment demo_bytes) small_options 100000 [] demo_entries demo_dir_rep)
    as (d & res & Ho & Hres).
  assert (Hv : match demo_open with
    | Some (_, inr w) => Some (Wal.seq w, stream (pw (encoder w)))
    | _ => None end = Some (0, demo_bytes)) by (vm_compute; reflexivity).
  unfold demo_open in *. rewrite Ho in Hv.
  destruct res as [x|w]; [discriminate Hv|]. apply (inj Some), pair_equal_spec in Hv as [Hs Hst].
  exists d, w. split; [exact Ho|]. exact (conj (proj1 Hres) (conj Hs Hst)).
Qed.

(** The checkpoint record fixes the seed of the chain. *)
Lemma demo_seed s : 0 <= s < 2 ^ 32 -> is_log s demo_entries demo_bytes -> s = 0.
Proof.
  intros Hs Hl. apply (is_log_inv_cons s (CrcType, [])) in Hl as (data & b & Hb & Hok & Hnz & Hm & Hlen & _).
  pose proof (Decode_frame (NewDecoder demo_bytes) _ data b Hok Hnz Hm Hlen eq_refl (or_introl eq_refl)
    Hb) as Hd.
  assert (Hc : chain s [] = chain 0 []).
  { assert (Hv : match Decode (NewDecoder demo_bytes) with Some (_, inr rec) => Crc rec | _ => -1 end = chain 0 [])
      by (vm_compute; reflexivity).
    rewrite Hd in Hv. exact Hv. }
  by apply crc32_update_inj in Hc.
Qed.

(** *** Witnesses of the contract *)

Lemma wal_refines_list_witness :
  exists w w', logged w [[x61; x62]; [x63]] /\ seq_room w /\
    run_op w (OpAppend [x7a]) = Some (w', Done) /\ logged w' [[x61; x62]; [x63]; [x7a]].
Proof.
  destruct demo_opens as (d & w & Ho & Hrep & Hs & _).
  assert (Hl : logged w [[x61; x62]; [x63]]) by (exists [], demo_entries; by split).
  assert (Hr : seq_room w) by (right; lia).
  assert (Hop : op_ok (OpAppend [x7a])) by (cbn; unfold maxRecordSize, blen; cbn; lia).
  destruct (wal_refines_list w _ _ Hl Hr Hop) as (w' & res & Hrun & Hres).
  assert (Hd : match demo_open with
    | Some (_, inr w) => match run_op w (OpAppend [x7a]) with Some (_, Done) => true | _ => false end
    | _ => false end = true) by (vm_compute; reflexivity).
  rewrite Ho, Hrun in Hd. destruct res; try discriminate Hd.
  exists w, w'. exact (conj Hl (conj Hr (conj Hrun Hres))).
Defined.

Lemma sync_then_reopen_witness :
  exists w w', logged w [[x61; x62]; [x63]] /\ Sync w = Some (w', None) /\
    files w' !! path w' = Some (DFile (synced w')) /\
    exists d' res, Open (files w') small_options 100000 = Some (d', res).
Proof.
  destruct demo_opens as (d & w & Ho & Hrep & _).
  assert (Hl : logged w [[x61; x62]; [x63]]) by (exists [], demo_entries; by split).
  destruct (sync_then_reopen w _ small_options 100000 Hl) as (w' & err & Hrun & Hres).
  assert (Hd : match demo_open with
    | Some (_, inr w) => match Sync w with Some (_, None) => true | _ => false end
    | _ => false end = true) by (vm_compute; reflexivity).
  rewrite Ho, Hrun in Hd. destruct err; [discriminate Hd|].
  destruct (Hres eq_refl) as (Hf & d' & res & Hop & _).
  exists w, w'. split; [exact Hl|]. split; [exact Hrun|]. split; [exact Hf|]. by exists d', res.
Defined.

(** The log of the first two entries takes 40 bytes, that of all three 64. *)
Lemma demo_two_is_log : exists b, is_log 0 (take 2 demo_entries) b /\ blen b = 40.
Proof.
  exists (default [] (log_bytes 0 (take 2 demo_entries))). split; [|by vm_compute].
  apply log_bytes_is_log; [lia|apply Forall_take, demo_entries_ok|by vm_compute].
Qed.

Lemma prefix_two_of_three (l : list entry) :
  l `prefix_of` demo_entries -> take 2 demo_entries `prefix_of` l -> ~ demo_entries `prefix_of` l ->
  l = take 2 demo_entries.
Proof.
  intros H1 H2 H3. destruct H2 as [r ->]. destruct r as [|e r]; [by rewrite app_nil_r|]. exfalso. apply H3.
  destruct H1 as [r1 H1]. cbn in H1. unfold demo_entries in *. injection H1 as <- H1.
  destruct r, r1; try discriminate H1. by exists [].
Qed.

(** Cut within the third frame, the log reopens with exactly two entries. *)
Lemma crash_recovery_witness :
  exists w d' w2, wal_rep w [] demo_entries /\ blen (stream (pw (encoder w))) = 64 /\
  let crashed := <[path w := DFile (take (Z.to_nat 50) (stream (pw (encoder w))))]> (dir w) in
  Open crashed small_options 100000 = Some (d', inr w2) /\ wal_rep w2 [] (take 2 demo_entries).
Proof.
  destruct demo_opens as (d & w & Hdo & Hrep & _ & Hst).
  pose proof Hrep as (Hc & (s & Hh & He) & Hrest).
  assert (Hs : s = 0).
  { destruct He as (_ & _ & _ & Hl & _). rewrite Hst in Hl. apply demo_seed in Hl; [done|apply Hh]. }
  subst s.
  destruct (crash_recovery w [] 0 demo_entries 50 small_options 100000 Hrep Hh He) as (es1 & Hpre & Hiff & d' & res & Ho & Hres).
  { rewrite Hst. clear. by vm_compute. }
  assert (es1 = take 2 demo_entries) as ->.
  { destruct demo_two_is_log as (b & Hb & Hlen). apply prefix_two_of_three; [exact Hpre| |].
    - apply (Hiff _ b); [by apply prefix_take|exact Hb|rewrite Hlen; lia].
    - intros H3. apply (Hiff demo_entries demo_bytes) in H3; [|done|exact demo_is_log].
      assert (Hb64 : blen demo_bytes = 64) by (clear; by vm_compute). clear -H3 Hb64. lia. }
  assert (Hv : match demo_open with
    | Some (_, inr w) =>
        match Open (<[path w := DFile (take (Z.to_nat 50) (stream (pw (encoder w))))]> (dir w))
          small_options 100000 with Some (_, inr _) => true | _ => false end
    | _ => false end = true) by (vm_compute; reflexivity).
  rewrite Hdo, Ho in Hv. destruct res as [x|w2]; [discriminate Hv|].
  exists w, d', w2. split; [exact Hrep|]. split; [by rewrite Hst|]. exact (conj Ho (proj1 Hres)).
Defined.

Definition torn_decoder : Decoder :=
  mkDecoder (take (Z.to_nat (512 - blen demo_bytes)) (frame_of big_data) ++ replicate 3000 x00)
    (Digest.New (chain_all 0 demo_entries) crcTable) (blen demo_bytes).

Lemma torn_record_breaks_chain_witness :
  exists d' data,
    Decode torn_decoder = Some (d', inl (ErrIo_ ErrUnexpectedEOF)) /\ LastCRC d' <> LastCRC torn_decoder /\
    Marshal (stamped (LastCRC d') (DataType, [x7a])) = Some data /\
    exists d2 x, Decode (mkDecoder (frame_of data ++ []) (crc torn_decoder) (lastValidOff torn_decoder)) =
      Some (d2, inl x).
Proof.
  set (d' := (default (torn_decoder, inl ErrCorrupted) (Decode torn_decoder)).1).
  set (data := default [] (Marshal (stamped (LastCRC d') (DataType, [x7a])))).
  exists d', data. split; [by vm_compute|]. split; [by vm_compute|]. split; [done|].
  destruct (torn_record_breaks_chain torn_decoder d' (DataType, [x7a]) data []) as (d2 & x & H & _);
    [done|by vm_compute|by vm_compute|by vm_compute|split; by vm_compute|done|done|].
  by exists d2, x.
Defined.

Lemma reopened_offset_wraps_witness :
  exists d w, dir_rep (one_segment demo_bytes) [] demo_entries /\ demo_open = Some (d, inr w) /\
    Wal.offset w = blen (stream (pw (encoder w))) /\
    exists w' res, Append w [x7a] = Some (w', res).
Proof.
  destruct demo_opens as (d & w & Ho & _).
  destruct (reopened_offset_wraps (one_segment demo_bytes) d [] demo_entries small_options 100000 w [x7a]
    demo_dir_rep Ho) as (H1 & w' & res & H2 & _).
  - left. cbn. lia.
  - unfold maxRecordSize, blen. cbn. lia.
  - exists d, w. split; [exact demo_dir_rep|]. split; [exact Ho|]. split; [exact H1|]. by exists w', res.
Defined.

(** A frame that announces [2^54] bytes. *)
Definition huge_frame : bytes := [x00; x00; x00; x00; x00; x00; x40; x00; x61].

Lemma Open_total_witness :
  exists res, Open (one_segment huge_frame) small_options 100000 = Some res /\ res.2 = inl ErrCorrupted.
Proof.
  destruct (Open_total (one_segment huge_frame) small_options 100000) as [res Ho].
  assert (Hv : snd <$> Open (one_segment huge_frame) small_options 100000 = Some (inl ErrCorrupted))
    by (vm_compute; reflexivity).
  rewrite Ho in Hv. exists res. split; [exact Ho|]. by injection Hv.
Defined.

(** *** Runs *)

Definition right {A B} (x : A + B) : option B := match x with inr b => Some b | inl _ => None end.

(** [Append] rejects data whose chained CRC is zero although it has
    already encoded it: the error is returned and the data is in the log. *)
Theorem append_zero_crc :
  ('(_, res) ← Open ∅ small_options 100000;
   w ← right res;
   '(w, appended) ← Append w [xab; x9b; xe0; x9b];
   '(_, contents) ← ReadAll w;
   Some (appended, contents))
  = Some (inl ErrCrcNotSet, inr [[xab; x9b; xe0; x9b]]).
Proof. vm_compute. reflexivity. Qed.

(** A failed flush drops the buffer: after a [Sync] that failed on a full
    device the next [Sync] succeeds, and the data whose [Append] succeeded is
    gone. *)
Theorem failed_sync_drops_data :
  ('(_, res) ← Open ∅ small_options 20;
   w ← right res;
   '(w, appended) ← Append w [x61];
   '(w, first) ← Sync w;
   '(w, second) ← Sync w;
   '(_, contents) ← ReadAll w;
   Some (appended, first, second, contents))
  = Some (inr 16, Some (ErrIo_ ErrIO), None, inr []).
Proof. vm_compute. reflexivity. Qed.

(** A log of one 5000-byte record, reopened. *)
Definition long_bytes : bytes :=
  default [] (log_bytes 0 [(CrcType, []); (DataType, replicate 5000 x41)]).

(** The wrapped offset, on a run: after reopening a segment of more than
    one page the offset reported for the next record lies before the end of
    the data already in the file. *)
Theorem reopened_offset_run :
  ('(_, res) ← Open (one_segment long_bytes) small_options 100000;
   w ← right res;
   '(w', appended) ← Append w [x7a];
   Some (Wal.offset w, appended))
  = Some (blen long_bytes, inr (blen long_bytes - 4096)).
Proof. vm_compute. reflexivity. Qed.

(** *** The torn record *)

(** The log [demo_bytes], then a record torn at the first sector boundary, then
    preallocated zeros. *)
Definition torn_bytes : bytes :=
  demo_bytes ++ take (Z.to_nat (512 - blen demo_bytes)) (frame_of big_data) ++ replicate 3000 x00.

Definition torn_rest : bytes :=
  take (Z.to_nat (512 - blen demo_bytes)) (frame_of big_data) ++ replicate 3000 x00.

(** The decoder after the torn record. *)
Definition torn_end : Decoder :=
  (default (torn_decoder, inl ErrCorrupted) (Decode torn_decoder)).1.

Lemma demo_off_chain : off_chain 0 demo_entries demo_bytes torn_rest torn_end.
Proof.
  assert (Hd : Decode torn_decoder = Some (torn_end, inl (ErrIo_ ErrUnexpectedEOF))) by (vm_compute; reflexivity).
  split.
  - split; [lia|by left].
  - exact demo_is_log.
  - exists (ErrIo_ ErrUnexpectedEOF). split; [|by right]. rewrite <- (app_nil_r (stamp_all _ _)).
    eapply (decodes_log 0 demo_entries demo_bytes (NewDecoder (demo_bytes ++ torn_rest)) torn_rest);
      [exact demo_is_log|lia|by split; [|left]|reflexivity|].
    apply decodes_stop. rewrite Z.add_0_l. exact Hd.
  - vm_compute. reflexivity.
  - clear Hd. split; [apply Z.leb_le|apply Z.ltb_lt]; vm_compute; reflexivity.
  - clear Hd. apply Z.eqb_neq. vm_compute. reflexivity.
Qed.

Lemma torn_tail_loses_appends_witness :
  exists d' w w1 w2, Open (one_segment torn_bytes) small_options 100000 = Some (d', inr w) /\
    Append w [x7a] = Some (w1, inr (blen demo_bytes)) /\ Sync w1 = Some (w2, None) /\
    exists d3 res, Open (files w2) small_options 100000 = Some (d3, res) /\
      match res with
      | inr w3 => stream (pw (encoder w3)) = demo_bytes
      | inl x => x = ErrCRCMismatch \/ io_failure x
      end.
Proof.
  assert (Hv : ('(_, res) ← Open (one_segment torn_bytes) small_options 100000; w ← right res;
    '(w, appended) ← Append w [x7a]; '(_, err) ← Sync w; Some (appended, err)) =
    Some (inr (blen demo_bytes), None)) by (vm_compute; reflexivity).
  destruct (Open (one_segment torn_bytes) small_options 100000) as [[d' [x|w]]|] eqn:Ho; [discriminate Hv| |discriminate Hv].
  cbn [mbind option_bind right] in Hv. destruct (Append w [x7a]) as [[w1 ra]|] eqn:Ha; [|discriminate Hv].
  cbn [mbind option_bind] in Hv. destruct (Sync w1) as [[w2 rs]|] eqn:Hs; [|discriminate Hv].
  cbn [mbind option_bind] in Hv. apply (inj Some), pair_equal_spec in Hv as [-> ->].
  destruct (torn_tail_loses_appends (one_segment torn_bytes) small_options 100000 0 (segmentPath 0) 0 demo_entries
    demo_bytes torn_rest torn_end d' w w1 w2 [x7a] (blen demo_bytes)) as [_ Hlost].
  - apply (bool_decide_unpack _). vm_compute. exact I.
  - vm_compute. reflexivity.
  - reflexivity.
  - exact demo_off_chain.
  - cbn. lia.
  - unfold maxRecordSize, blen. cbn. lia.
  - exact Ho.
  - exact Ha.
  - exact Hs.
  - exists d', w, w1, w2. exact (conj eq_refl (conj Ha (conj Hs (Hlost 100000)))).
Defined.

(** The run itself: the log opens, an append
    and a sync succeed, and then neither reading nor reopening gets past the
    new record: both report a CRC mismatch. *)
Theorem torn_tail_run :
  ('(_, res) ← Open (one_segment torn_bytes) small_options 100000;
   w ← right res;
   '(w, appended) ← Append w [x7a];
   '(w, synced) ← Sync w;
   '(_, reopened) ← Open (files w) small_options 100000;
   '(_, contents) ← ReadAll w;
   Some (appended, synced, match reopened with inl x => Some x | inr _ => None end, contents))
  = Some (inr (blen demo_bytes), None, Some ErrCRCMismatch, inl ErrCRCMismatch).
Proof. vm_compute. reflexivity. Qed.
