(* ===== verification/GroupCommit.v ===== *)
(** Group commit over the write-ahead log ([pkg/wal/sync_group.go] with the
    [syncFunc] that [Open] gives it, [pkg/wal/wal.go]): what a caller of
    [Sync] may rely on when it gets nil.  The group of SyncGroup.v runs over a
    log; the outcome of every [syncFunc] is computed by the log, and durability
    is a statement about the directory a crash leaves.  The log is used through
    [Append] and [Sync]; it is not closed while the group runs, and a
    [SaveSnapshot] is one more record before a [Sync]. *)
From S2P Require Import Prelude SliceSort Binary Io PageWriter Proto Crc Walpb Encoder Decoder LogSpec SyncGroup Wal WalNames WalSpec WalOps WalRecovery WalLimits.

#[local] Open Scope Z_scope.

(** ** Definitions *)

Section group_commit.
Context {sorter : SliceSorter} {codec : Codec Record_}.

(** The log, the group that shares its [syncFunc], and two records of what has
    happened: the data appended so far, in order, and whether an operation of
    the log has failed. *)
Record groupCommit : Type := mkGroupCommit {
  group : syncGroup;
  wal : WAL;
  appended : list bytes;
  failed : bool }.

Definition start (w : WAL) : groupCommit := mkGroupCommit newSyncGroup w [] false.

Inductive group_event : Type :=
| GAppend (b : bytes)   (* a call of [Append] *)
| GCall (c : nat)       (* a caller enters [Sync] *)
| GSync                 (* the leader's [syncFunc] *)
| GNotify               (* the leader notifies a follower *)
| GRecheck.             (* the leader looks for latecomers *)

Definition set_group (g : groupCommit) (s : syncGroup) : groupCommit :=
  mkGroupCommit s (wal g) (appended g) (failed g).

(** One step.  The [ErrCrcNotSet] of [Append] leaves the data in the log. *)
Definition group_step (g : groupCommit) (e : group_event) : option groupCommit :=
  match e with
  | GAppend b =>
      '(w, res) ← Append (wal g) b;
      match res with
      | inr _ | inl ErrCrcNotSet =>
          s ← step (group g) EAppend; Some (mkGroupCommit s w (appended g ++ [b]) (failed g))
      | inl _ => Some (mkGroupCommit (group g) w (appended g) true)
      end
  | GCall c => s ← step (group g) (ECall c); Some (set_group g s)
  | GSync =>
      match leader (group g) with
      | Some (_, Syncing _) =>
          '(w, err) ← Sync (wal g);
          let ok := match err with None => true | Some _ => false end in
          s ← step (group g) (ESync ok); Some (mkGroupCommit s w (appended g) (failed g || negb ok))
      | _ => None
      end
  | GNotify => s ← step (group g) ENotify; Some (set_group g s)
  | GRecheck => s ← step (group g) ERecheck; Some (set_group g s)
  end.

Fixpoint group_run (g : groupCommit) (es : list group_event) : option groupCommit :=
  match es with
  | [] => Some g
  | e :: es => g ← group_step g e; group_run g es
  end.

(** The sizes the decoder accepts. *)
Definition group_event_ok (e : group_event) : Prop :=
  match e with GAppend b => blen b + 40 <= maxRecordSize | _ => True end.

(** Sequence numbers for [k] more rotations, unless rotation is off. *)
Definition rotations_left (w : WAL) (k : nat) : Prop :=
  SegmentSize (opts w) <= 0 \/ 0 <= Wal.seq w /\ Wal.seq w + Z.of_nat k < 2 ^ 64 - 1.
End group_commit.

Section durable.
Context {sorter : SliceSorter} {codec : Codec Record_} {laws : RecordCodec}.

(** The log holds [ds], and the file as it was last [fsync]ed holds at least
    the first [n] of them. *)
Definition durable_to (w : WAL) (ds : list bytes) (n : nat) : Prop :=
  exists olds s es more b rest,
    wal_rep w olds (es ++ more) /\ seg_head s (es ++ more) /\ enc_state (encoder w) s (es ++ more) /\
    is_log s es b /\ synced w = b ++ rest /\ seg_recovers (synced w) es /\
    wal_payload olds (es ++ more) = ds /\ (n <= length (wal_payload olds es))%nat.

Lemma durable_mono w ds n n' : (n' <= n)%nat -> durable_to w ds n -> durable_to w ds n'.
Proof.
  intros Hn (olds & s & es & more & b & rest & H1 & H2 & H3 & H4 & H5 & H6 & H7 & H8).
  exists olds, s, es, more, b, rest. repeat (split; [done|]). lia.
Qed.

Lemma durable_open w ds n : durable_to w ds n -> closed w = false.
Proof. by intros (? & ? & ? & ? & ? & ? & (? & _) & _). Qed.

(** Everything is durable once the open segment's file has been synced. *)
Lemma synced_durable w olds es :
  wal_rep w olds es -> flushed w -> synced w = content (file w) ->
  durable_to w (wal_payload olds es) (length (wal_payload olds es)).
Proof.
  intros Hrep [m Hm] Hsy. assert (Hrep' := Hrep). destruct Hrep' as (_ & (s & Hh & He) & _).
  exists olds, s, es, [], (stream (pw (encoder w))), (replicate m x00). rewrite app_nil_r.
  assert (He' := He). destruct He' as (_ & _ & _ & Hl & _).
  repeat (split; [done|]). split; [by rewrite Hsy|]. split; [|done].
  rewrite Hsy. apply seg_holds_recovers. by eapply enc_state_holds.
Qed.

(** A log just opened: what was read is on disk. *)
Lemma opened_durable d o sp olds es d' w :
  dir_rep d olds es -> Open d o sp = Some (d', inr w) ->
  durable_to w (wal_payload olds es) (length (wal_payload olds es)).
Proof.
  intros Hd Ho. destruct (Open_existing_synced d o sp olds es Hd) as (d1 & res & Ho' & Hres).
  rewrite Ho in Ho'. injection Ho' as <- <-. destruct Hres as (Hrep & _ & Hrec & rest & Hs).
  assert (Hrep' := Hrep). destruct Hrep' as (_ & (s & Hh & He) & _). pose proof He as (_ & _ & _ & Hl & _).
  exists olds, s, es, [], (stream (pw (encoder w))), rest. by rewrite app_nil_r.
Qed.

Lemma created_durable d o sp d' w :
  listSegments d = [] -> Open d o sp = Some (d', inr w) -> durable_to w [] 0.
Proof.
  intros Hd Ho. destruct (Open_new_synced d o sp Hd) as (d1 & res & Ho' & Hres).
  rewrite Ho in Ho'. injection Ho' as <- <-. destruct Hres as (Hrep & _ & Hf & Hs).
  exact (synced_durable w [] [(CrcType, [])] Hrep Hf Hs).
Qed.

(** ** What the operations of the log do to it *)

Lemma durable_encode w ds n ty dat :
  durable_to w ds n -> entry_ok (ty, dat) ->
  exists e rec res, Encode (encoder w) (mkRecord ty 0 dat) = Some (e, rec, res) /\
    match res with
    | inr _ => durable_to (set_encoder w e) (ds ++ payload [(ty, dat)]) n
    | inl x => io_failure x
    end.
Proof.
  intros (olds & s & es & more & b & rest & Hrep & Hh & He & Hl & Hsy & Hrec & <- & Hn) Hok.
  destruct (enc_state_encode _ _ _ _ _ He Hok) as (e & rec & res & -> & _ & _ & Hres).
  do 3 eexists. split; [reflexivity|]. destruct res as [x|off]; [done|]. destruct Hres as (_ & He' & _).
  rewrite <- app_assoc in He'.
  assert (Hh' : seg_head s (es ++ more ++ [(ty, dat)])) by (rewrite app_assoc; by apply seg_head_app).
  exists olds, s, es, (more ++ [(ty, dat)]), b, rest. split; [by eapply rep_set_encoder|].
  repeat (split; [done|]). split; [|done]. by rewrite app_assoc, wal_payload_app.
Qed.

Lemma durable_rotate w ds n :
  durable_to w ds n -> 0 <= Wal.seq w < 2 ^ 64 - 1 ->
  exists w' res, Wal.rotate w = Some (w', res) /\
    match res with
    | inr _ => durable_to w' ds n /\ Wal.seq w' = Wal.seq w + 1 /\ opts w' = opts w
    | inl x => io_failure x
    end.
Proof.
  intros (olds & s & es & more & b & rest & Hrep & _ & _ & _ & _ & _ & <- & Hn) Hs.
  destruct (rotate_spec w olds _ Hrep Hs) as (w' & res & -> & Hres). do 2 eexists. split; [reflexivity|].
  destruct res as [x|]; [done|]. destruct Hres as (Hrep' & Hs' & Ho & _ & Hf & Hsy).
  split; [|by split]. pose proof (synced_durable _ _ _ Hrep' Hf Hsy) as Hd.
  rewrite wal_payload_rotate in Hd. eapply durable_mono; [|exact Hd].
  unfold wal_payload, payload in *. rewrite omap_app, !length_app in *. lia.
Qed.

Lemma durable_maybe_rotate w ds n k :
  durable_to w ds n -> rotations_left w (S k) ->
  exists w' res, maybe_rotate w = Some (w', res) /\
    match res with inr _ => durable_to w' ds n /\ rotations_left w' k | inl x => io_failure x end.
Proof.
  intros Hd Hk. unfold maybe_rotate. destruct (_ && _) eqn:E.
  - bool_hyps. destruct Hk as [Hk|Hk]; [lia|].
    destruct (durable_rotate w ds n Hd ltac:(lia)) as (w' & res & -> & Hres).
    do 2 eexists. split; [reflexivity|]. destruct res as [x|]; [done|]. destruct Hres as (Hd' & Hs & Ho).
    split; [done|]. right. rewrite Hs. lia.
  - do 2 eexists. split; [reflexivity|]. split; [done|]. unfold rotations_left in *. lia.
Qed.

Lemma durable_append w ds n k dat :
  durable_to w ds n -> rotations_left w (S k) -> blen dat + 40 <= maxRecordSize ->
  exists w' res, Append w dat = Some (w', res) /\
    match res with
    | inr _ | inl ErrCrcNotSet => durable_to w' (ds ++ [dat]) n /\ rotations_left w' k
    | inl x => io_failure x
    end.
Proof.
  intros Hd Hk Hlen. unfold Append. rewrite (durable_open _ _ _ Hd).
  destruct (durable_maybe_rotate w ds n k Hd Hk) as (w1 & res & -> & Hres). cbn [mbind option_bind].
  destruct res as [x|[]]; [do 2 eexists; split; [reflexivity|]; by destruct Hres as [y ->]; exists y|].
  destruct Hres as [Hd1 Hk1].
  assert (Hok : entry_ok (DataType, dat)) by (unfold entry_ok, DataType; cbn; lia).
  destruct (durable_encode w1 ds n DataType dat Hd1 Hok) as (e & rec & res & -> & Hlog).
  cbn [mbind option_bind].
  destruct res as [x|off]; [do 2 eexists; split; [reflexivity|]; by destruct Hlog as [y ->]; exists y|].
  destruct (_ && _); do 2 eexists; (split; [reflexivity|]); done.
Qed.

Lemma durable_sync w ds n k :
  durable_to w ds n -> rotations_left w k ->
  exists w' err, Sync w = Some (w', err) /\
    match err with
    | None => durable_to w' ds (length ds) /\ rotations_left w' k
    | Some x => io_failure x
    end.
Proof.
  intros Hd Hk. unfold Sync. rewrite (durable_open _ _ _ Hd).
  destruct Hd as (olds & s & es & more & b & rest & Hrep & _ & _ & _ & _ & _ & <- & _).
  destruct (syncLocked_spec w olds _ Hrep) as (w' & err & -> & Herr). exists w', err. split; [done|].
  destruct err as [x|]; [done|]. destruct Herr as (Hrep' & Hf & Hsy & _ & _ & Hs & _ & _ & Ho & _).
  split; [by apply synced_durable|]. unfold rotations_left in *. by rewrite Hs, Ho.
Qed.
(** ** What a crash leaves *)

(** Opening [d] gives a log of data between [lo] and [hi], or the device
    fails. *)
Definition survives (d : directory) (lo hi : list bytes) : Prop :=
  forall o sp, exists d' res, Open d o sp = Some (d', res) /\
    match res with
    | inr w => exists ds, logged w ds /\ lo `prefix_of` ds /\ ds `prefix_of` hi
    | inl x => io_failure x
    end.

(** The directory with [c] in the file of the open segment. *)
Definition crash_dir (w : WAL) (c : bytes) : directory := <[path w := DFile c]> (dir w).

Lemma wal_payload_prefix olds es es' :
  es `prefix_of` es' -> wal_payload olds es `prefix_of` wal_payload olds es'.
Proof.
  intros [l ->]. exists (payload l). unfold wal_payload, payload. by rewrite omap_app, app_assoc.
Qed.

Lemma take_prefix_le {A} (l l' : list A) n : l `prefix_of` l' -> (n <= length l)%nat -> take n l' `prefix_of` l.
Proof. intros [r ->] Hn. rewrite take_app_le by done. apply prefix_take. Qed.

(** A file that recovers a prefix of the entries beyond the durable ones. *)
Lemma recovers_survives w olds es es1 c ds0 :
  wal_rep w olds es -> seg_recovers c es1 -> es1 `prefix_of` es -> ds0 `prefix_of` wal_payload olds es1 ->
  survives (crash_dir w c) ds0 (wal_payload olds es).
Proof.
  intros Hrep Hc Hpre Hds o sp.
  destruct (Open_existing _ o sp olds es1 (crash_dir_rep _ _ _ _ _ Hrep Hc)) as (d' & res & Ho & Hres).
  exists d', res. split; [done|]. destruct res as [x|w2]; [done|]. destruct Hres as [Hrep2 _].
  exists (wal_payload olds es1). split; [by exists olds, es1|]. split; [done|by apply wal_payload_prefix].
Qed.

(** The [fsync]ed file, and every cut of what was written that keeps the
    [fsync]ed bytes, hold the durable data. *)
Lemma durable_survives w ds n :
  durable_to w ds n ->
  survives (crash_dir w (synced w)) (take n ds) ds /\
  exists k0, 0 <= k0 <= blen (synced w) /\
    take (Z.to_nat k0) (synced w) = take (Z.to_nat k0) (stream (pw (encoder w))) /\
    forall k, k0 <= k <= blen (stream (pw (encoder w))) ->
      survives (crash_dir w (take (Z.to_nat k) (stream (pw (encoder w))))) (take n ds) ds.
Proof.
  intros (olds & s & es & more & b & rest & Hrep & Hh & He & Hl & Hsy & Hrec & <- & Hn).
  assert (Hpre : es `prefix_of` es ++ more) by by exists more.
  assert (Htake : take n (wal_payload olds (es ++ more)) `prefix_of` wal_payload olds es).
  { apply take_prefix_le; [by apply wal_payload_prefix|done]. }
  split; [by eapply recovers_survives|]. destruct He as (_ & _ & _ & HB & _).
  exists (blen b). pose proof (blen_nonneg b). split.
  { rewrite Hsy, blen_app. pose proof (blen_nonneg rest). lia. }
  split.
  { assert (HB' := HB). apply is_log_inv_app in HB' as (b' & b2 & Hst & Hl' & _).
    rewrite <- (is_log_det _ _ _ _ Hl Hl') in Hst. by rewrite Hst, Hsy, !take_blen_app. }
  intros k Hk. destruct (seg_cut_whole s _ _ k Hh HB ltac:(lia)) as (es1 & Hp1 & Hrec1 & Hiff).
  eapply recovers_survives; [done..|]. etrans; [exact Htake|]. apply wal_payload_prefix.
  apply (Hiff es b); [done|done|lia].
Qed.
End durable.

(** ** The group over the log *)

Section invariant.
Context {sorter : SliceSorter} {codec : Codec Record_} {laws : RecordCodec}.

(** After [k] more steps at most; [ds0] was in the log at the start. *)
Record group_invariant (ds0 : list bytes) (k : nat) (g : groupCommit) : Prop := {
  gi_group : invariant (group g);
  gi_total : total (group g) = length (appended g);
  gi_log : failed g = false ->
    durable_to (wal g) (ds0 ++ appended g) (length ds0 + acked (group g)) /\ rotations_left (wal g) k;
  gi_leader : failed g = false -> forall l batch ok, leader (group g) = Some (l, Notifying batch ok) -> ok = true;
  gi_returned : failed g = false -> forall c n ok, (c, n, ok) ∈ returned (group g) -> ok = true }.

Lemma rotations_left_le w k k' : (k' <= k)%nat -> rotations_left w k -> rotations_left w k'.
Proof. unfold rotations_left. lia. Qed.

(** The steps of the group that leave the log alone keep its counters. *)
Lemma group_only (e : event) s s' :
  (forall ok, e <> ESync ok) -> e <> EAppend -> step s e = Some s' ->
  total s' = total s /\ acked s' = acked s /\
  (forall l batch ok, leader s' = Some (l, Notifying batch ok) -> exists b, leader s = Some (l, Notifying b ok)) /\
  (forall c n ok, (c, n, ok) ∈ returned s' ->
    (c, n, ok) ∈ returned s \/ exists l b, leader s = Some (l, Notifying b ok)).
Proof.
  assert (Hret : forall s0 c ok' x n ok, (x, n, ok) ∈ returned (return_caller s0 c ok') ->
    (x, n, ok) ∈ returned s0 \/ ok = ok').
  { intros s0 c ok' x n ok. unfold return_caller. cbn. destruct (need s0 !! c); [|auto].
    intros [[= _ _ ->]|H]%elem_of_cons; auto. }
  intros Hs Ha. destruct e; try done; cbn [step].
  - destruct (need s !! c); [done|]. cbn. destruct (syncing s); intros [= <-]; cbn; naive_solver.
  - by destruct (Hs ok).
  - destruct (leader s) as [[l [|[|c batch] ok]]|] eqn:El; try done. intros [= <-].
    split; [done|]. split; [done|]. split; [cbn; naive_solver|].
    intros x n ok' [H| ->]%Hret; [by left|right; eauto].
  - destruct (leader s) as [[l [|[|c batch] ok]]|] eqn:El; try done.
    destruct (pending s); intros [= <-]; (split; [done|]); (split; [done|]); (split; [cbn; naive_solver|]).
    + intros x n ok' [H| ->]%Hret; [by left|right; eauto].
    + by left.
Qed.

Lemma group_only_invariant ds0 k g (e : event) s' :
  (forall ok, e <> ESync ok) -> e <> EAppend -> step (group g) e = Some s' ->
  group_invariant ds0 (S k) g -> group_invariant ds0 k (set_group g s').
Proof.
  intros Hs Ha Hstep I. destruct (group_only e _ _ Hs Ha Hstep) as (Ht & Hk & Hl & Hr).
  destruct I as [I1 I2 I3 I4 I5]. split; cbn; rewrite ?Ht, ?Hk.
  - by eapply step_invariant.
  - done.
  - intros Hf. destruct (I3 Hf) as [Hd Hro]. split; [done|]. eapply rotations_left_le; [|done]. lia.
  - intros Hf l batch ok Hl'. destruct (Hl _ _ _ Hl') as [b Hb]. by eapply I4.
  - intros Hf c n ok Hc. destruct (Hr _ _ _ Hc) as [H|(l & b & Hb)]; [by eapply I5|by eapply I4].
Qed.

Lemma group_append_invariant ds0 k g b g' :
  blen b + 40 <= maxRecordSize -> group_step g (GAppend b) = Some g' ->
  group_invariant ds0 (S k) g -> group_invariant ds0 k g'.
Proof.
  intros Hb Hstep I. destruct I as [I1 I2 I3 I4 I5]. cbn in Hstep.
  destruct (Append (wal g) b) as [[w res]|] eqn:Ea; [|done]. cbn [mbind option_bind] in Hstep.
  set (ok := match res with inr _ | inl ErrCrcNotSet => true | _ => false end).
  assert (Hg : g' = if ok
    then mkGroupCommit (mkSyncGroup (pending (group g)) (syncing (group g)) (leader (group g))
      (S (total (group g))) (acked (group g)) (need (group g)) (returned (group g))) w (appended g ++ [b]) (failed g)
    else mkGroupCommit (group g) w (appended g) true).
  { unfold ok. destruct res as [[]|]; by injection Hstep as <-. }
  rewrite Hg. destruct ok eqn:Eok; [|by split; cbn].
  split; cbn; try done; [by apply step_append|rewrite length_app, I2; cbn; lia|].
  intros Hf. destruct (I3 Hf) as [Hd Hro].
  destruct (durable_append _ _ _ _ b Hd Hro Hb) as (w' & res' & Ha & Hres).
  rewrite Ea in Ha. injection Ha as <- <-. rewrite app_assoc.
  unfold ok in Eok. by destruct res as [[]|].
Qed.

Lemma group_sync_invariant ds0 k g g' :
  group_step g GSync = Some g' -> group_invariant ds0 (S k) g -> group_invariant ds0 k g'.
Proof.
  intros Hstep I. pose proof I as [I1 I2 I3 I4 I5]. cbn [group_step] in Hstep.
  destruct (leader (group g)) as [[l [batch|]]|] eqn:El; try done.
  destruct (Sync (wal g)) as [[w err]|] eqn:Ea; [|done]. cbn [mbind option_bind] in Hstep.
  set (ok := match err with None => true | Some _ => false end) in *.
  destruct (step (group g) (ESync ok)) as [s|] eqn:Es; [|done]. injection Hstep as <-.
  pose proof (step_sync _ _ _ I1 Es) as I1'. cbn in Es. rewrite El in Es. injection Es as <-.
  split; cbn in *; try done.
  - intros [Hf Hok]%orb_false_iff. apply negb_false_iff in Hok. rewrite Hok.
    destruct (I3 Hf) as [Hd Hro].
    destruct (durable_sync _ _ _ k Hd ltac:(eapply rotations_left_le; [|done]; lia)) as (w' & err' & Ha & Hres).
    rewrite Ea in Ha. injection Ha as <- <-. unfold ok in Hok. destruct err; [done|].
    by rewrite I2, <- length_app.
  - intros [Hf Hok]%orb_false_iff. apply negb_false_iff in Hok. rewrite Hok. congruence.
  - intros [Hf _]%orb_false_iff. by apply I5.
Qed.

Lemma group_step_invariant ds0 k g e g' :
  group_event_ok e -> group_step g e = Some g' ->
  group_invariant ds0 (S k) g -> group_invariant ds0 k g'.
Proof.
  intros He Hstep I. destruct e as [b|c| | |]; [by eapply group_append_invariant| |by eapply group_sync_invariant| |];
    cbn [group_step] in Hstep; (destruct (step _ _) as [s|] eqn:Es; [|done]); injection Hstep as <-;
    (eapply group_only_invariant; [..|exact Es|exact I]; done).
Qed.

Lemma group_run_invariant ds0 es g g' :
  Forall group_event_ok es -> group_run g es = Some g' ->
  group_invariant ds0 (length es) g -> group_invariant ds0 0 g'.
Proof.
  intros Hes. revert g. induction Hes as [|e es He _ IH]; intros g Hrun I; cbn in Hrun.
  { by injection Hrun as <-. }
  destruct (group_step g e) as [g1|] eqn:Es; [|done]. apply (IH g1 Hrun).
  by eapply group_step_invariant.
Qed.

Lemma start_invariant ds0 w k :
  durable_to w ds0 (length ds0) -> rotations_left w k -> group_invariant ds0 k (start w).
Proof.
  intros Hd Hk. split; cbn; try done; [apply invariant_new| |by intros _ c n ok ?%elem_of_nil].
  intros _. by rewrite app_nil_r, Nat.add_0_r.
Qed.
End invariant.

(** ** Theorems *)

Section theorems.
Context {sorter : SliceSorter} {codec : Codec Record_} {laws : RecordCodec}.

End theorems.

(** ** Runs, over the wire-format codecs *)

Import Wire.

(** Two callers; the second arrives while the leader syncs and is served by a
    second round; a third append is not covered by it. *)
Definition group_demo : list group_event :=
  [GAppend [x61]; GCall 1; GAppend [x62]; GCall 2; GSync; GRecheck; GSync; GNotify; GAppend [x63]].

Lemma group_demo_ok : Forall group_event_ok group_demo.
Proof.
  unfold group_demo. repeat (apply Forall_cons; split; [cbn; unfold maxRecordSize, blen; cbn; lia|]).
  by apply Forall_nil.
Qed.


(** Without the condition that no operation has failed the claim is false.
    On a device that fails the flush of the first round, the buffer is dropped
    with the data in it; the second round, run for a latecomer, has nothing
    left to write and succeeds.  Both callers get nil, the leader too whose own
    [syncFunc] failed, and the data is nowhere. *)
Theorem failed_round_masked :
  ('(_, res) ← Open ∅ small_options 20; w ← right res;
   g ← group_run (start w) [GAppend [x61]; GCall 1; GCall 2; GSync; GRecheck; GSync; GNotify; GRecheck];
   '(_, contents) ← ReadAll (wal g);
   Some (returned (group g), failed g, contents))
  = Some ([(1%nat, 1%nat, true); (2%nat, 1%nat, true)], true, inr []).
Proof. vm_compute. reflexivity. Qed.
