(* ===== verification/LogInterface.v ===== *)
(** What a client of the write-ahead log may rely on: an append-only list of
    byte strings that can be read back.  The schema registry is proved against
    this interface; WalLog.v shows that the log keeps it. *)
From S2P Require Import Prelude Encoder.

(** The operations; [None] is a panic or divergence, which the laws exclude. *)
Class Log (L : Type) := {
  log_append : L -> bytes -> option (L * (wal_error + Z));
  log_sync : L -> option (L * option wal_error);
  log_read_all : L -> option (L * (wal_error + list bytes));
  log_close : L -> option (L * option wal_error) }.

Class LogLaws (L : Type) `{Log L} := {
  log_holds : L -> list bytes -> Prop;
  log_fits : bytes -> Prop;
  log_append_spec l ds b :
    log_holds l ds -> log_fits b ->
    exists l' res, log_append l b = Some (l', res) /\
      match res with inr _ => log_holds l' (ds ++ [b]) | inl _ => True end;
  log_sync_spec l ds :
    log_holds l ds ->
    exists l' err, log_sync l = Some (l', err) /\
      match err with None => log_holds l' ds | Some _ => True end;
  log_read_all_spec l ds :
    log_holds l ds ->
    exists l' res, log_read_all l = Some (l', res) /\
      match res with inr out => out = ds /\ log_holds l' ds | inl _ => True end;
  log_close_total l ds : log_holds l ds -> exists l' err, log_close l = Some (l', err) }.
