(* ===== verification/WalLog.v ===== *)
(** The write-ahead log keeps the interface its clients are proved against
    (LogInterface.v), when rotation is off, as it is for the schema log. *)
From S2P Require Import Prelude SliceSort Binary Io PageWriter Proto Crc Walpb Encoder Decoder LogSpec Wal WalNames WalSpec WalOps LogInterface.

#[local] Open Scope Z_scope.

Section wal_log.
Context {sorter : SliceSorter} {codec : Codec Record_} {laws : RecordCodec}.

#[export] Instance wal_log : Log WAL := {|
  log_append := Append;
  log_sync := Sync;
  log_read_all := ReadAll;
  log_close := Close |}.

(** The operations keep the options. *)
Lemma Append_opts w b w' res :
  SegmentSize (opts w) <= 0 -> Append w b = Some (w', res) -> opts w' = opts w.
Proof.
  intros Hs. unfold Append, maybe_rotate. destruct (closed w); [by intros [= <- _]|].
  rewrite (proj2 (Z.ltb_ge 0 (SegmentSize (opts w)))) by done. cbn [andb mbind option_bind].
  destruct (Encode _ _) as [[[e rec] [x|off]]|]; cbn [mbind option_bind]; [by intros [= <- _]| |done].
  destruct (_ && _); by intros [= <- _].
Qed.

Lemma Sync_opts w w' err : Sync w = Some (w', err) -> opts w' = opts w.
Proof.
  unfold Sync, syncLocked. destruct (closed w); [by intros [= <- _]|].
  destruct (Flush _) as [[e [x|]]|]; cbn [mbind option_bind]; [by intros [= <- _]| |done].
  destruct (fsync _); by intros [= <- _].
Qed.

Lemma ReadAll_opts w w' res : ReadAll w = Some (w', res) -> opts w' = opts w.
Proof.
  unfold ReadAll. destruct (closed w); [by intros [= <- _]|].
  destruct (Flush _) as [[e [x|]]|]; cbn [mbind option_bind]; [by intros [= <- _]| |done].
  destruct (readSegments _ _); cbn [mbind option_bind]; [by intros [= <- _]|done].
Qed.

Lemma Close_total w ds : logged w ds -> exists w' err, Close w = Some (w', err).
Proof.
  intros (olds & es & (Hc & (s & _ & He) & _) & _). unfold Close. rewrite Hc. cbn zeta.
  destruct (enc_state_flush _ _ _ He) as (e & err & Hf & _).
  change (encoder (set_closed w)) with (encoder w). rewrite Hf. cbn [mbind option_bind].
  destruct err; [by do 2 eexists|]. destruct (fsync _); by do 2 eexists.
Qed.

#[export, program] Instance wal_log_laws : LogLaws WAL := {|
  log_holds w ds := logged w ds /\ SegmentSize (opts w) <= 0;
  log_fits b := blen b + 40 <= maxRecordSize |}.
Next Obligation.
  intros w ds b [Hl Hs] Hb. destruct (Append_spec w ds b Hl (or_introl Hs) Hb) as (w' & res & Hrun & Hres).
  exists w', res. split; [exact Hrun|]. destruct res as [x|]; [done|].
  split; [done|]. by rewrite (Append_opts _ _ _ _ Hs Hrun).
Qed.
Next Obligation.
  intros w ds [Hl Hs]. destruct (Sync_spec w ds Hl) as (w' & err & Hrun & Hres).
  exists w', err. split; [exact Hrun|]. destruct err as [x|]; [done|].
  split; [apply Hres|]. by rewrite (Sync_opts _ _ _ Hrun).
Qed.
Next Obligation.
  intros w ds [Hl Hs]. destruct (ReadAll_spec w ds Hl) as (w' & res & Hrun & Hres).
  exists w', res. split; [exact Hrun|]. destruct res as [x|out]; [done|].
  destruct Hres as [Ho Hl']. split; [done|]. split; [done|]. by rewrite (ReadAll_opts _ _ _ Hrun).
Qed.
Next Obligation. intros w ds [Hl _]. exact (Close_total w ds Hl). Qed.
End wal_log.
