(* ===== verification/Schema.v ===== *)
(** Schemas ([pkg/schema/schema.go], [errors.go], [walentry.go]): the schema of
    a resource type, its validation, its conversion to and from the protobuf
    messages, and the entries the registry logs.  Strings are byte strings;
    the messages' codec is a parameter. *)
From S2P Require Import Prelude Binary Proto Encoder.

(** ** Errors *)

(** The reasons [Validate] and [AddIndex] wrap in [ErrInvalidSchema]. *)
Inductive invalid_reason : Type :=
| TypeRequired
| PrimaryKeyRequired
| PrimaryKeyWildcard
| IndexEmpty
| IndexDuplicatesPrimary (idx : bytes)
| WildcardNotAtEnd (idx : bytes)
| DuplicateIndex (idx : bytes).

Inductive schema_error : Type :=
| ErrTypeNotFound
| ErrTypeExists
| ErrIndexExists
| ErrIndexNotFound
| ErrInvalidSchema (why : invalid_reason)
| ErrRegistryClosed
| ErrMarshalEntry
| ErrUnmarshalEntry
| ErrNilSchema
| ErrUnknownOperation (n : Z)
| ErrWal (e : wal_error).

(** ** Schemas *)

Record Schema : Type := mkSchema {
  Type_ : bytes;
  PrimaryKey : bytes;
  SecondaryIndexes : list bytes }.

#[export] Instance schema_eq_dec : EqDecision Schema.
Proof. solve_decision. Defined.

(** The protobuf message of a schema. *)
Record SchemaDefinition : Type := mkSchemaDefinition {
  sd_Type : bytes;
  sd_PrimaryKey : bytes;
  sd_SecondaryIndexes : list bytes }.

(** Conversions; [None] is a nil pointer. *)
Definition FromProto (sd : option SchemaDefinition) : option Schema :=
  match sd with
  | None => None
  | Some sd => Some (mkSchema (sd_Type sd) (sd_PrimaryKey sd) (sd_SecondaryIndexes sd))
  end.

Definition ToProto (s : option Schema) : option SchemaDefinition :=
  match s with
  | None => None
  | Some s => Some (mkSchemaDefinition (Type_ s) (PrimaryKey s) (SecondaryIndexes s))
  end.

(** [".*"]. *)
Definition wildcard : bytes := [x2e; x2a].

(** [strings.HasSuffix] and [strings.Contains]. *)
Definition HasSuffix (s p : bytes) : bool :=
  (length p <=? length s)%nat && bool_decide (drop (length s - length p) s = p).

Fixpoint Contains (s p : bytes) : bool :=
  bool_decide (take (length p) s = p) || match s with [] => false | _ :: s => Contains s p end.

(** The loop of [Validate] over the secondary indexes. *)
Fixpoint Validate_loop (primary : bytes) (seen : gset bytes) (indexes : list bytes)
    : option schema_error :=
  match indexes with
  | [] => None
  | idx :: indexes =>
      if bool_decide (idx = []) then Some (ErrInvalidSchema IndexEmpty)
      else if bool_decide (idx = primary) then Some (ErrInvalidSchema (IndexDuplicatesPrimary idx))
      else if Contains idx wildcard && negb (HasSuffix idx wildcard)
      then Some (ErrInvalidSchema (WildcardNotAtEnd idx))
      else if bool_decide (idx ∈ seen) then Some (ErrInvalidSchema (DuplicateIndex idx))
      else Validate_loop primary ({[idx]} ∪ seen) indexes
  end.

Definition Validate (s : Schema) : option schema_error :=
  if bool_decide (Type_ s = []) then Some (ErrInvalidSchema TypeRequired)
  else if bool_decide (PrimaryKey s = []) then Some (ErrInvalidSchema PrimaryKeyRequired)
  else if HasSuffix (PrimaryKey s) wildcard then Some (ErrInvalidSchema PrimaryKeyWildcard)
  else Validate_loop (PrimaryKey s) ∅ (SecondaryIndexes s).

Fixpoint HasIndex_loop (indexes : list bytes) (indexPath : bytes) : bool :=
  match indexes with
  | [] => false
  | idx :: indexes => if bool_decide (idx = indexPath) then true else HasIndex_loop indexes indexPath
  end.

Definition HasIndex (s : Schema) (indexPath : bytes) : bool :=
  HasIndex_loop (SecondaryIndexes s) indexPath.

(** ** Log entries *)

Definition OperationRegister : Z := 1.
Definition OperationAddIndex : Z := 2.
Definition OperationRemoveIndex : Z := 3.

Record SchemaWALEntry : Type := mkEntry {
  Operation : Z;
  EntrySchema : option SchemaDefinition;
  EntryType : bytes;
  IndexPath : bytes }.

(** What the registry relies on of the entry codec: an entry that marshals is
    unmarshalled to itself. *)
Class EntryCodec `{Codec SchemaWALEntry} : Prop :=
  entry_roundtrip e b : Marshal e = Some b -> Unmarshal b = Some e.

Section entries.
Context {codec : Codec SchemaWALEntry}.

Definition marshalRegister (s : Schema) : option bytes :=
  Marshal (mkEntry OperationRegister (ToProto (Some s)) [] []).
Definition marshalAddIndex (typeName indexPath : bytes) : option bytes :=
  Marshal (mkEntry OperationAddIndex None typeName indexPath).
Definition marshalRemoveIndex (typeName indexPath : bytes) : option bytes :=
  Marshal (mkEntry OperationRemoveIndex None typeName indexPath).
Definition unmarshalEntry (data : bytes) : option SchemaWALEntry := Unmarshal data.
End entries.

(** ** Lemmas *)

Lemma FromProto_ToProto s : FromProto (ToProto s) = s.
Proof. destruct s as [[]|]; done. Qed.

Lemma HasIndex_spec s i : HasIndex s i = true <-> i ∈ SecondaryIndexes s.
Proof.
  unfold HasIndex. induction (SecondaryIndexes s) as [|x l IH]; cbn; [set_solver|].
  case_bool_decide; set_solver.
Qed.

Lemma Contains_spec s p : Contains s p = true <-> exists a b, s = a ++ p ++ b.
Proof.
  induction s as [|x s IH]; cbn; rewrite orb_true_iff, bool_decide_eq_true.
  - split.
    + intros [H|]; [|done]. exists [], []. rewrite app_nil_r. by rewrite <- H, take_nil.
    + intros (a & b & H). left. symmetry in H. apply app_eq_nil in H as [_ H].
      apply app_eq_nil in H as [-> _]. done.
  - rewrite IH. split.
    + intros [H|(a & b & ->)]; [|by exists (x :: a), b].
      exists [], (drop (length p) (x :: s)). cbn [app]. rewrite <- H at 1. by rewrite take_drop.
    + intros ([|y a] & b & H); cbn in H.
      * left. rewrite H. apply take_app_length.
      * right. injection H as _ ->. by exists a, b.
Qed.

Lemma HasSuffix_spec s p : HasSuffix s p = true <-> exists a, s = a ++ p.
Proof.
  unfold HasSuffix. rewrite andb_true_iff, bool_decide_eq_true, Nat.leb_le. split.
  - intros [_ H]. exists (take (length s - length p) s). by rewrite <- H at 2; rewrite take_drop.
  - intros [a ->]. rewrite length_app. split; [lia|].
    replace (length a + length p - length p)%nat with (length a) by lia. apply drop_app_length.
Qed.

(** An index path the package accepts beside a primary key. *)
Definition path_ok (primary idx : bytes) : Prop :=
  idx <> [] /\ idx <> primary /\
  ((exists a b, idx = a ++ wildcard ++ b) -> exists a, idx = a ++ wildcard).

(** A well-formed schema, as [Validate]'s comment says it. *)
Definition well_formed (s : Schema) : Prop :=
  Type_ s <> [] /\ PrimaryKey s <> [] /\ (forall a, PrimaryKey s <> a ++ wildcard) /\
  Forall (path_ok (PrimaryKey s)) (SecondaryIndexes s) /\ NoDup (SecondaryIndexes s).

Lemma Validate_loop_spec primary seen l :
  Validate_loop primary seen l = None <->
  Forall (path_ok primary) l /\ NoDup l /\ (forall i, i ∈ l -> i ∉ seen).
Proof.
  revert seen. induction l as [|i l IH]; intros seen; cbn.
  { split; [|done]. intros _. split; [constructor|]. split; [constructor|set_solver]. }
  rewrite Forall_cons, NoDup_cons. unfold path_ok at 1.
  case_bool_decide as H1; [naive_solver|]. case_bool_decide as H2; [naive_solver|].
  destruct (Contains i wildcard && negb (HasSuffix i wildcard)) eqn:Ew.
  { apply andb_true_iff in Ew as [Hc Hs]. apply Contains_spec in Hc.
    apply negb_true_iff in Hs. split; [done|]. intros (((_ & _ & Hw) & _) & _).
    apply Hw, HasSuffix_spec in Hc. congruence. }
  assert (Hw : (exists a b, i = a ++ wildcard ++ b) -> exists a, i = a ++ wildcard).
  { intros Hc%Contains_spec. apply HasSuffix_spec. rewrite Hc in Ew. cbn in Ew.
    by apply negb_false_iff in Ew. }
  case_bool_decide as H3.
  { split; [done|]. intros (_ & _ & Hn). exfalso. apply (Hn i); [by left|done]. }
  rewrite IH. split.
  - intros (Hf & Hnd & Hs). split; [done|]. split; [|set_solver]. split; [|done].
    intros Hi. apply (Hs i Hi). set_solver.
  - intros ((_ & Hf) & (Hi & Hnd) & Hs). split; [done|]. split; [done|]. set_solver.
Qed.

Lemma Validate_well_formed s : Validate s = None -> well_formed s.
Proof.
  unfold Validate, well_formed. case_bool_decide; [naive_solver|].
  case_bool_decide; [naive_solver|]. destruct (HasSuffix _ _) eqn:E; [done|].
  rewrite Validate_loop_spec. intros (Hf & Hnd & _). repeat split; try done. intros a Ha.
  assert (HasSuffix (PrimaryKey s) wildcard = true) by (apply HasSuffix_spec; by exists a). congruence.
Qed.

