(* ===== verification/Registry.v ===== *)
(** The schema registry ([pkg/schema/registry.go]): an in-memory map of schemas
    that is the replay of its log.  Schemas are objects on a heap that the map
    points to, as in the code: [Get] hands out the pointer, [AddIndex] and
    [RemoveIndex] change the object it points to. *)
From S2P Require Import Prelude Binary Proto Encoder LogInterface Schema.

(** ** Definitions *)

Record walRegistry (L : Type) : Type := mkRegistry {
  heap : list Schema;
  types : gmap bytes nat;
  w : L;
  closed : bool }.
Arguments mkRegistry {L}.
Arguments heap {L}.
Arguments types {L}.
Arguments w {L}.
Arguments closed {L}.

Section registry.
Context {L : Type} {log : Log L} {codec : Codec SchemaWALEntry}.

Definition set_w (r : walRegistry L) (l : L) : walRegistry L :=
  mkRegistry (heap r) (types r) l (closed r).

(** [r.types[typeName]]: the pointer and the schema it points to. *)
Definition lookup_type (r : walRegistry L) (typeName : bytes) : option (nat * Schema) :=
  p ← types r !! typeName; s ← heap r !! p; Some (p, s).

(** [applyRegister]: a copy of the schema in a new object. *)
Definition applyRegister (r : walRegistry L) (s : Schema) : walRegistry L :=
  mkRegistry (heap r ++ [mkSchema (Type_ s) (PrimaryKey s) (SecondaryIndexes s)])
    (<[Type_ s := length (heap r)]> (types r)) (w r) (closed r).

Definition add_index (s : Schema) (indexPath : bytes) : Schema :=
  if negb (HasIndex s indexPath)
  then mkSchema (Type_ s) (PrimaryKey s) (SecondaryIndexes s ++ [indexPath]) else s.

Definition applyAddIndex (r : walRegistry L) (typeName indexPath : bytes) : walRegistry L :=
  match lookup_type r typeName with
  | None => r
  | Some (p, s) =>
      mkRegistry (<[p := add_index s indexPath]> (heap r)) (types r) (w r) (closed r)
  end.

Definition remove_index (s : Schema) (indexPath : bytes) : Schema :=
  mkSchema (Type_ s) (PrimaryKey s) (filter (fun idx => idx <> indexPath) (SecondaryIndexes s)).

Definition applyRemoveIndex (r : walRegistry L) (typeName indexPath : bytes) : walRegistry L :=
  match lookup_type r typeName with
  | None => r
  | Some (p, s) =>
      mkRegistry (<[p := remove_index s indexPath]> (heap r)) (types r) (w r) (closed r)
  end.

(** The append and sync that persist an entry, shared by the three mutators. *)
Definition persist (r : walRegistry L) (data : option bytes) (apply : walRegistry L -> walRegistry L)
    : option (walRegistry L * option schema_error) :=
  match data with
  | None => Some (r, Some ErrMarshalEntry)
  | Some data =>
      '(l, res) ← log_append (w r) data;
      let r := set_w r l in
      match res with
      | inl x => Some (r, Some (ErrWal x))
      | inr _ =>
          '(l, err) ← log_sync (w r);
          let r := set_w r l in
          match err with
          | Some x => Some (r, Some (ErrWal x))
          | None => Some (apply r, None)
          end
      end
  end.

Definition Register (r : walRegistry L) (s : Schema) : option (walRegistry L * option schema_error) :=
  match Validate s with
  | Some x => Some (r, Some x)
  | None =>
      if closed r then Some (r, Some ErrRegistryClosed)
      else
        match types r !! Type_ s with
        | Some _ => Some (r, Some ErrTypeExists)
        | None => persist r (marshalRegister s) (fun r => applyRegister r s)
        end
  end.

Definition AddIndex (r : walRegistry L) (typeName indexPath : bytes)
    : option (walRegistry L * option schema_error) :=
  if bool_decide (indexPath = []) then Some (r, Some (ErrInvalidSchema IndexEmpty))
  else if closed r then Some (r, Some ErrRegistryClosed)
  else
    match lookup_type r typeName with
    | None => Some (r, Some ErrTypeNotFound)
    | Some (_, s) =>
        if HasIndex s indexPath then Some (r, Some ErrIndexExists)
        else if bool_decide (indexPath = PrimaryKey s)
        then Some (r, Some (ErrInvalidSchema (IndexDuplicatesPrimary indexPath)))
        else persist r (marshalAddIndex typeName indexPath)
               (fun r => applyAddIndex r typeName indexPath)
    end.

Definition RemoveIndex (r : walRegistry L) (typeName indexPath : bytes)
    : option (walRegistry L * option schema_error) :=
  if closed r then Some (r, Some ErrRegistryClosed)
  else
    match lookup_type r typeName with
    | None => Some (r, Some ErrTypeNotFound)
    | Some (_, s) =>
        if negb (HasIndex s indexPath) then Some (r, Some ErrIndexNotFound)
        else persist r (marshalRemoveIndex typeName indexPath)
               (fun r => applyRemoveIndex r typeName indexPath)
    end.

(** [Get] returns the pointer. *)
Definition Get (r : walRegistry L) (typeName : bytes) : schema_error + nat :=
  if closed r then inl ErrRegistryClosed
  else match lookup_type r typeName with None => inl ErrTypeNotFound | Some (p, _) => inr p end.

(** The schema behind a pointer, as a caller that holds it sees it. *)
Definition deref (r : walRegistry L) (p : nat) : option Schema := heap r !! p.

(** Map iteration has no defined order; some order of the keys. *)
Definition ListTypes (r : walRegistry L) : list bytes := (map_to_list (types r)).*1.

Definition Close (r : walRegistry L) : option (walRegistry L * option schema_error) :=
  if closed r then Some (r, None)
  else
    '(l, err) ← log_close (w r);
    Some (mkRegistry (heap r) (types r) l true,
          match err with None => None | Some x => Some (ErrWal x) end).

(** One entry of [recover]'s loop. *)
Definition recover_entry (r : walRegistry L) (data : bytes) : schema_error + walRegistry L :=
  match unmarshalEntry data with
  | None => inl ErrUnmarshalEntry
  | Some entry =>
      if Operation entry =? OperationRegister then
        match FromProto (EntrySchema entry) with
        | None => inl ErrNilSchema
        | Some s => inr (applyRegister r s)
        end
      else if Operation entry =? OperationAddIndex then
        inr (applyAddIndex r (EntryType entry) (IndexPath entry))
      else if Operation entry =? OperationRemoveIndex then
        inr (applyRemoveIndex r (EntryType entry) (IndexPath entry))
      else inl (ErrUnknownOperation (Operation entry))
  end.

Fixpoint recover_loop (r : walRegistry L) (entries : list bytes) : schema_error + walRegistry L :=
  match entries with
  | [] => inr r
  | data :: entries =>
      match recover_entry r data with
      | inl x => inl x
      | inr r => recover_loop r entries
      end
  end.

Definition recover (r : walRegistry L) : option (walRegistry L * option schema_error) :=
  '(l, res) ← log_read_all (w r);
  let r := set_w r l in
  match res with
  | inl x => Some (r, Some (ErrWal x))
  | inr entries =>
      match recover_loop r entries with
      | inl x => Some (r, Some x)
      | inr r => Some (r, None)
      end
  end.

(** [Open] once [wal.Open] returned the log [l]; a failed recovery closes the
    log. *)
Definition OpenWith (l : L) : option (schema_error + walRegistry L) :=
  '(r, err) ← recover (mkRegistry [] ∅ l false);
  match err with
  | Some x => '(_, _) ← log_close (w r); Some (inl x)
  | None => Some (inr r)
  end.

(** ** Specification *)

(** The registry as a map from type names to schemas. *)
Definition view (r : walRegistry L) : gmap bytes Schema := omap (fun p => heap r !! p) (types r).

(** Pointers are valid, and every type has an object of its own. *)
Definition heap_ok (r : walRegistry L) : Prop :=
  (forall t p, types r !! t = Some p -> is_Some (heap r !! p)) /\
  (forall t1 t2 p, types r !! t1 = Some p -> types r !! t2 = Some p -> t1 = t2).

(** The meaning of an entry on the map. *)
Definition spec_entry (m : gmap bytes Schema) (e : SchemaWALEntry) : gmap bytes Schema :=
  if Operation e =? OperationRegister then
    match FromProto (EntrySchema e) with Some s => <[Type_ s := s]> m | None => m end
  else if Operation e =? OperationAddIndex then
    alter (fun s => add_index s (IndexPath e)) (EntryType e) m
  else alter (fun s => remove_index s (IndexPath e)) (EntryType e) m.

Definition spec_replay (es : list SchemaWALEntry) : gmap bytes Schema := foldl spec_entry ∅ es.

(** The entries the registry writes. *)
Definition entry_wf (e : SchemaWALEntry) : Prop :=
  (Operation e = OperationRegister /\ EntrySchema e <> None) \/
  Operation e = OperationAddIndex \/ Operation e = OperationRemoveIndex.

(** Every schema is filed under its type, and satisfies all rules of [Validate]
    but the one on wildcards in index paths. *)
Definition schema_ok (t : bytes) (s : Schema) : Prop :=
  Type_ s = t /\ t <> [] /\ PrimaryKey s <> [] /\ (forall a, PrimaryKey s <> a ++ wildcard) /\
  Forall (fun i => i <> [] /\ i <> PrimaryKey s) (SecondaryIndexes s) /\ NoDup (SecondaryIndexes s).
End registry.
