(* ===== verification/RegistrySpec.v ===== *)
(** Correctness of the schema registry, against the log interface: the map in
    memory is the replay of the log after every operation, and recovery
    rebuilds it. *)
From S2P Require Import Prelude Binary Proto Encoder LogInterface Schema Registry.

Section spec.
Context {L : Type} {log : Log L} {codec : Codec SchemaWALEntry}.
Implicit Types r : walRegistry L.

(** ** The heap *)

Lemma view_lookup r t : view r !! t = snd <$> lookup_type r t.
Proof.
  unfold view, lookup_type. rewrite lookup_omap. destruct (types r !! t) as [p|]; [|done].
  cbn. by destruct (heap r !! p).
Qed.

Lemma lookup_type_Some r t p s :
  lookup_type r t = Some (p, s) <-> types r !! t = Some p /\ heap r !! p = Some s.
Proof.
  unfold lookup_type. destruct (types r !! t) as [q|]; cbn; [|naive_solver].
  destruct (heap r !! q) eqn:E; cbn; naive_solver.
Qed.

Lemma heap_ok_types r t : heap_ok r -> is_Some (types r !! t) <-> is_Some (view r !! t).
Proof.
  intros [Hv _]. rewrite view_lookup. unfold lookup_type. split.
  - intros [p Hp]. destruct (Hv t p Hp) as [s Hs]. rewrite Hp. cbn. rewrite Hs. by eexists.
  - intros [s Hs]. destruct (types r !! t); [by eexists|done].
Qed.

Lemma applyRegister_view r s :
  heap_ok r -> heap_ok (applyRegister r s) /\ view (applyRegister r s) = <[Type_ s := s]> (view r).
Proof.
  intros [Hv Hinj]. unfold applyRegister. split.
  - split; cbn.
    + intros t p Hp. apply lookup_insert_Some in Hp as [[<- <-]|[_ Hp]].
      * rewrite lookup_app_r, Nat.sub_diag by done. by eexists.
      * destruct (Hv t p Hp) as [x Hx]. exists x. by apply lookup_app_l_Some.
    + intros t1 t2 p H1 H2. apply lookup_insert_Some in H1 as [[<- <-]|[_ H1]], H2 as [[<- H2]|[_ H2]];
        [done| | |by eapply Hinj].
      * destruct (Hv _ _ H2) as [x Hx]. apply lookup_lt_Some in Hx. lia.
      * subst p. destruct (Hv _ _ H1) as [x Hx]. apply lookup_lt_Some in Hx. lia.
  - apply map_eq. intros t. unfold view. cbn. rewrite lookup_omap.
    destruct (decide (t = Type_ s)) as [->|Hne].
    + rewrite !lookup_insert_eq. cbn. rewrite lookup_app_r, Nat.sub_diag by done. by destruct s.
    + rewrite !lookup_insert_ne, lookup_omap by done. destruct (types r !! t) as [p|] eqn:Hp; [|done]. cbn.
      destruct (Hv t p Hp) as [x Hx]. rewrite Hx. by apply lookup_app_l_Some.
Qed.

(** Changing the object of one type. *)
Lemma update_view r t p s s' :
  heap_ok r -> lookup_type r t = Some (p, s) ->
  let r' := mkRegistry (<[p := s']> (heap r)) (types r) (w r) (closed r) in
  heap_ok r' /\ view r' = <[t := s']> (view r).
Proof.
  intros [Hv Hinj] [Ht Hp]%lookup_type_Some r'. pose proof (lookup_lt_Some _ _ _ Hp) as Hlt. split.
  - split; cbn; [|done]. intros t1 p1 H1. destruct (Hv t1 p1 H1) as [x Hx].
    apply lookup_lt_is_Some. rewrite length_insert. by apply lookup_lt_Some in Hx.
  - apply map_eq. intros t1. unfold view. cbn. rewrite lookup_omap.
    destruct (decide (t1 = t)) as [->|Hne].
    + rewrite lookup_insert_eq, Ht. cbn. by rewrite list_lookup_insert_eq.
    + rewrite lookup_insert_ne, lookup_omap by done. destruct (types r !! t1) as [p1|] eqn:H1; [|done].
      cbn. rewrite list_lookup_insert_ne; [done|]. intros ->. apply Hne. by eapply Hinj.
Qed.

Lemma alter_view r t f :
  heap_ok r ->
  let r' := match lookup_type r t with
            | None => r
            | Some (p, s) => mkRegistry (<[p := f s]> (heap r)) (types r) (w r) (closed r) end in
  heap_ok r' /\ view r' = alter f t (view r) /\ w r' = w r /\ closed r' = closed r.
Proof.
  intros Hok. destruct (lookup_type r t) as [[p s]|] eqn:E; cbn zeta.
  - destruct (update_view r t p s (f s) Hok E) as [H1 ->]. split; [done|]. split; [|done].
    apply map_eq. intros t1. destruct (decide (t1 = t)) as [->|Hne].
    + by rewrite lookup_insert_eq, lookup_alter_eq, view_lookup, E.
    + by rewrite lookup_insert_ne, lookup_alter_ne by done.
  - split; [done|]. split; [|done]. apply map_eq. intros t1. destruct (decide (t1 = t)) as [->|Hne].
    + by rewrite lookup_alter_eq, view_lookup, E.
    + by rewrite lookup_alter_ne by done.
Qed.

Lemma applyAddIndex_view r t i :
  heap_ok r ->
  heap_ok (applyAddIndex r t i) /\ view (applyAddIndex r t i) = alter (fun s => add_index s i) t (view r) /\
  w (applyAddIndex r t i) = w r /\ closed (applyAddIndex r t i) = closed r.
Proof. apply alter_view. Qed.

Lemma applyRemoveIndex_view r t i :
  heap_ok r ->
  heap_ok (applyRemoveIndex r t i) /\
  view (applyRemoveIndex r t i) = alter (fun s => remove_index s i) t (view r) /\
  w (applyRemoveIndex r t i) = w r /\ closed (applyRemoveIndex r t i) = closed r.
Proof. apply (alter_view r t (fun s => remove_index s i)). Qed.

(** ** Replay *)

Lemma recover_entry_spec r data e :
  heap_ok r -> unmarshalEntry data = Some e -> entry_wf e ->
  exists r', recover_entry r data = inr r' /\ heap_ok r' /\ view r' = spec_entry (view r) e /\
    w r' = w r /\ closed r' = closed r.
Proof.
  intros Hok Hu Hwf. unfold recover_entry, spec_entry. rewrite Hu.
  destruct Hwf as [[-> Hs]|[-> | ->]]; cbn.
  - destruct (EntrySchema e) as [sd|]; [|done]. cbn.
    destruct (applyRegister_view r (mkSchema (sd_Type sd) (sd_PrimaryKey sd) (sd_SecondaryIndexes sd)) Hok)
      as [H1 H2]. by eexists.
  - destruct (applyAddIndex_view r (EntryType e) (IndexPath e) Hok) as (H1 & H2 & H3 & H4). by eexists.
  - destruct (applyRemoveIndex_view r (EntryType e) (IndexPath e) Hok) as (H1 & H2 & H3 & H4). by eexists.
Qed.

Lemma recover_loop_spec ds es r :
  heap_ok r -> Forall2 (fun d e => unmarshalEntry d = Some e /\ entry_wf e) ds es ->
  exists r', recover_loop r ds = inr r' /\ heap_ok r' /\ view r' = foldl spec_entry (view r) es /\
    w r' = w r /\ closed r' = closed r.
Proof.
  intros Hok Hall. revert r Hok. induction Hall as [|d e ds es [Hu Hwf] _ IH]; intros r Hok; cbn.
  - by exists r.
  - destruct (recover_entry_spec r d e Hok Hu Hwf) as (r1 & -> & H1 & H2 & H3 & H4).
    destruct (IH r1 H1) as (r' & -> & ? & Hv & ? & ?). exists r'. rewrite Hv, H2. split; [done|]. split; [done|]. split; [done|]. split; congruence.
Qed.

(** ** The invariant *)

Context {laws : LogLaws L} {claws : EntryCodec}.

(** The log holds entries that the registry can replay, and the map is their
    replay. *)
Record registry_inv (r : walRegistry L) (es : list SchemaWALEntry) : Prop := {
  inv_heap : heap_ok r;
  inv_open : closed r = false;
  inv_log : exists ds, log_holds (w r) ds /\ Forall2 (fun d e => unmarshalEntry d = Some e /\ entry_wf e) ds es;
  inv_view : view r = spec_replay es;
  inv_schemas : forall t s, view r !! t = Some s -> schema_ok t s }.

(** An entry the log accepts. *)
Definition fits (b : option bytes) : Prop := forall d, b = Some d -> log_fits d.

(** Persisting an entry and applying it keeps the invariant. *)
Lemma persist_spec r es e apply :
  registry_inv r es -> entry_wf e -> fits (Marshal e) ->
  (forall r1, heap_ok r1 -> view r1 = view r ->
     heap_ok (apply r1) /\ view (apply r1) = spec_entry (view r1) e /\ w (apply r1) = w r1 /\
     closed (apply r1) = closed r1) ->
  (forall t s, spec_entry (view r) e !! t = Some s -> schema_ok t s) ->
  exists r' err, persist r (Marshal e) apply = Some (r', err) /\
    match err with
    | None => registry_inv r' (es ++ [e]) /\ view r' = spec_entry (view r) e
    | Some x => view r' = view r /\ (x = ErrMarshalEntry /\ Marshal e = None \/ exists y, x = ErrWal y)
    end.
Proof.
  intros I Hwf Hfit Hap Hok. destruct (inv_log _ _ I) as (ds & Hl & Hds). unfold persist.
  destruct (Marshal e) as [d|] eqn:Hm; [|by do 2 eexists; split; [reflexivity|]; split; [|left]].
  destruct (log_append_spec (w r) ds d Hl (Hfit d eq_refl)) as (l1 & res & -> & Hres).
  cbn [mbind option_bind]. destruct res as [x|off].
  { do 2 eexists. split; [reflexivity|]. split; [done|]. right. by eexists. }
  destruct (log_sync_spec (w (set_w r l1)) _ Hres) as (l2 & err & -> & Herr). cbn [mbind option_bind].
  destruct err as [x|].
  { do 2 eexists. split; [reflexivity|]. split; [done|]. right. by eexists. }
  do 2 eexists. split; [reflexivity|].
  destruct (Hap (set_w (set_w r l1) l2)) as (H1 & H2 & H3 & H4); [apply I|done|].
  assert (Hv : view (apply (set_w (set_w r l1) l2)) = spec_entry (view r) e) by exact H2.
  split; [|done]. split.
  - done.
  - rewrite H4. cbn. apply I.
  - exists (ds ++ [d]). rewrite H3. split; [exact Herr|]. apply Forall2_app; [done|].
    constructor; [|constructor]. split; [by apply entry_roundtrip|done].
  - rewrite Hv, (inv_view _ _ I). unfold spec_replay. by rewrite foldl_app.
  - rewrite Hv. exact Hok.
Qed.

(** ** The schemas stay well formed *)

Lemma schema_ok_insert (m : gmap bytes Schema) t0 s0 :
  (forall t s, m !! t = Some s -> schema_ok t s) -> schema_ok t0 s0 ->
  forall t s, <[t0 := s0]> m !! t = Some s -> schema_ok t s.
Proof. intros Hm Hs t s [[<- <-]|[_ Ht]]%lookup_insert_Some; [done|by apply Hm]. Qed.

Lemma schema_ok_alter (m : gmap bytes Schema) t0 f :
  (forall t s, m !! t = Some s -> schema_ok t s) ->
  (forall s, m !! t0 = Some s -> schema_ok t0 s -> schema_ok t0 (f s)) ->
  forall t s, alter f t0 m !! t = Some s -> schema_ok t s.
Proof.
  intros Hm Hf t s. rewrite lookup_alter_Some.
  intros [(<- & s0 & Hs & ->)|[_ Hs]]; [by auto|by apply Hm].
Qed.

Lemma schema_ok_register s : Validate s = None -> schema_ok (Type_ s) s.
Proof.
  intros (H1 & H2 & H3 & H4 & H5)%Validate_well_formed. repeat (split; [done|]). split; [|done].
  eapply Forall_impl; [exact H4|]. by intros i (? & ? & _).
Qed.

Lemma schema_ok_add s t i :
  schema_ok t s -> i <> [] -> HasIndex s i = false -> i <> PrimaryKey s -> schema_ok t (add_index s i).
Proof.
  intros (H1 & H2 & H3 & H4 & H5 & H6) Hi Hh Hp. unfold add_index. rewrite Hh. cbn.
  assert (Hn : i ∉ SecondaryIndexes s) by (rewrite <- HasIndex_spec, Hh; done).
  repeat (split; [done|]). cbn. split.
  - apply Forall_app. split; [done|by repeat constructor].
  - apply NoDup_app. split; [done|]. split; [|apply NoDup_singleton]. intros x Hx. set_solver.
Qed.

Lemma schema_ok_remove s t i : schema_ok t s -> schema_ok t (remove_index s i).
Proof.
  intros (H1 & H2 & H3 & H4 & H5 & H6). repeat (split; [done|]). cbn. split.
  - rewrite Forall_forall in *. intros x Hx. apply list_elem_of_filter in Hx as [_ Hx]. by apply H5.
  - by apply NoDup_filter.
Qed.

(** ** The operations *)

Inductive reg_op : Type :=
| OpRegister (s : Schema)
| OpAddIndex (typeName indexPath : bytes)
| OpRemoveIndex (typeName indexPath : bytes).

Definition run_op r (o : reg_op) : option (walRegistry L * option schema_error) :=
  match o with
  | OpRegister s => Register r s
  | OpAddIndex t i => AddIndex r t i
  | OpRemoveIndex t i => RemoveIndex r t i
  end.

Definition op_entry (o : reg_op) : SchemaWALEntry :=
  match o with
  | OpRegister s => mkEntry OperationRegister (ToProto (Some s)) [] []
  | OpAddIndex t i => mkEntry OperationAddIndex None t i
  | OpRemoveIndex t i => mkEntry OperationRemoveIndex None t i
  end.

(** What an operation is refused for, on the map of schemas. *)
Definition spec_check (m : gmap bytes Schema) (o : reg_op) : option schema_error :=
  match o with
  | OpRegister s =>
      match Validate s with
      | Some x => Some x
      | None => if decide (is_Some (m !! Type_ s)) then Some ErrTypeExists else None
      end
  | OpAddIndex t i =>
      if decide (i = []) then Some (ErrInvalidSchema IndexEmpty)
      else match m !! t with
           | None => Some ErrTypeNotFound
           | Some s =>
               if decide (i ∈ SecondaryIndexes s) then Some ErrIndexExists
               else if decide (i = PrimaryKey s) then Some (ErrInvalidSchema (IndexDuplicatesPrimary i))
               else None
           end
  | OpRemoveIndex t i =>
      match m !! t with
      | None => Some ErrTypeNotFound
      | Some s => if decide (i ∈ SecondaryIndexes s) then None else Some ErrIndexNotFound
      end
  end.

Lemma HasIndex_decide s i : HasIndex s i = bool_decide (i ∈ SecondaryIndexes s).
Proof. apply eq_bool_prop_intro. rewrite bool_decide_spec, <- HasIndex_spec. by destruct (HasIndex s i). Qed.

(** C15: The registry is the replay of its log.  Each of [Register], [AddIndex]
    and [RemoveIndex] is refused exactly when its check on the current schemas
    says so, leaving everything as it is; otherwise it logs one entry, syncs,
    and the map becomes the meaning of that entry, or it reports the log's
    error.  Then the map in memory is unchanged, but the entry may or may not
    have reached the log and may take effect when the registry is opened again
    ([refused_registration_reappears] in RegistryRuns.v is such a run).  Every schema in the map stays filed under its
    type, with distinct non-empty indexes other than the primary key. *)
Theorem registry_refines (r : walRegistry L) (es : list SchemaWALEntry) (o : reg_op) :
  registry_inv r es -> fits (Marshal (op_entry o)) ->
  exists r' err, run_op r o = Some (r', err) /\
    match spec_check (view r) o with
    | Some x => err = Some x /\ r' = r
    | None =>
        match err with
        | None => registry_inv r' (es ++ [op_entry o]) /\ view r' = spec_entry (view r) (op_entry o)
        | Some x => view r' = view r /\
            (x = ErrMarshalEntry /\ Marshal (op_entry o) = None \/ exists y, x = ErrWal y)
        end
    end.
Proof.
  intros I Hfit. pose proof (inv_heap _ _ I) as Hh. pose proof (inv_open _ _ I) as Ho.
  pose proof (inv_schemas _ _ I) as Hs.
  destruct o as [s|t i|t i]; cbn [run_op op_entry spec_check] in *.
  - unfold Register. rewrite Ho. destruct (Validate s) as [x|] eqn:Ev; [by do 2 eexists; split; [reflexivity|]|].
    pose proof (heap_ok_types r (Type_ s) Hh) as Hty.
    destruct (types r !! Type_ s) as [p|].
    { do 2 eexists. split; [reflexivity|]. by rewrite decide_True by (apply Hty; by eexists). }
    rewrite decide_False by (rewrite <- Hty; by intros []).
    apply (persist_spec r es (op_entry (OpRegister s))); [done|by left|done| |].
    + intros r1 H1 _. destruct (applyRegister_view r1 s H1) as [H2 H3].
      split; [done|]. split; [|done]. rewrite H3. unfold spec_entry. cbn. by destruct s.
    + unfold spec_entry. cbn. apply schema_ok_insert; [done|]. apply schema_ok_register in Ev. by destruct s.
  - unfold AddIndex. rewrite Ho, view_lookup. case_bool_decide as Hi; [rewrite decide_True by done; by do 2 eexists|].
    rewrite (decide_False (P := i = [])) by done.
    destruct (lookup_type r t) as [[p s]|] eqn:Et; cbn; [|by do 2 eexists].
    assert (Hv : view r !! t = Some s) by (by rewrite view_lookup, Et).
    destruct (HasIndex s i) eqn:Ei; rewrite HasIndex_decide in Ei.
    { apply bool_decide_eq_true in Ei. rewrite decide_True by done. by do 2 eexists. }
    assert (Ei' := Ei). apply bool_decide_eq_false in Ei. rewrite (decide_False (P := i ∈ _)) by done.
    destruct (decide (i = PrimaryKey s)) as [Hp|Hp];
      [rewrite bool_decide_eq_true_2 by done; by do 2 eexists|rewrite bool_decide_eq_false_2 by done].
    apply (persist_spec r es (op_entry (OpAddIndex t i))); [done|by right; left|done| |].
    + intros r1 H1 _. by apply applyAddIndex_view.
    + unfold spec_entry. cbn. apply schema_ok_alter; [done|]. intros s1 Hs1 Hok.
      rewrite Hv in Hs1. injection Hs1 as <-. apply schema_ok_add; try done. by rewrite HasIndex_decide.
  - unfold RemoveIndex. rewrite Ho, view_lookup.
    destruct (lookup_type r t) as [[p s]|] eqn:Et; cbn; [|by do 2 eexists].
    rewrite HasIndex_decide. destruct (decide (i ∈ SecondaryIndexes s)) as [Hi|Hi].
    2:{ rewrite bool_decide_eq_false_2 by done. by do 2 eexists. }
    rewrite bool_decide_eq_true_2 by done. cbn [negb].
    apply (persist_spec r es (op_entry (OpRemoveIndex t i))); [done|by right; right|done| |].
    + intros r1 H1 _. by apply applyRemoveIndex_view.
    + unfold spec_entry. cbn. apply schema_ok_alter; [done|]. intros s1 _ Hok. by apply schema_ok_remove.
Qed.

(** C20: Recovery rebuilds the registry: opening it again on its log gives a
    registry with the same schemas, unless reading the log fails; and what
    [Get] and [ListTypes] show is that map: the pointer [Get] returns leads to
    the schema of the type, and the listed types are the map's keys, each once. *)
Theorem registry_recovers (r : walRegistry L) (es : list SchemaWALEntry) :
  registry_inv r es ->
  (exists r2 err, recover (mkRegistry [] ∅ (w r) false) = Some (r2, err) /\
    match err with
    | None => registry_inv r2 es /\ view r2 = view r
    | Some x => exists y, x = ErrWal y
    end) /\
  (forall t, match Get r t with
             | inr p => deref r p = view r !! t
             | inl x => x = ErrTypeNotFound /\ view r !! t = None end) /\
  NoDup (ListTypes r) /\ forall t, t ∈ ListTypes r <-> is_Some (view r !! t).
Proof.
  intros I. pose proof (inv_heap _ _ I) as Hh. destruct (inv_log _ _ I) as (ds & Hl & Hds).
  split; [|split; [|split]].
  - unfold recover. cbn [w]. destruct (log_read_all_spec (w r) ds Hl) as (l & res & -> & Hres).
    cbn [mbind option_bind]. destruct res as [x|out].
    { do 2 eexists. split; [reflexivity|]. by eexists. }
    destruct Hres as [-> Hl']. set (r0 := set_w _ l).
    assert (H0 : heap_ok r0) by (split; cbn; intros *; rewrite lookup_empty; done).
    destruct (recover_loop_spec ds es r0 H0 Hds) as (r2 & -> & Hh2 & Hv2 & Hw2 & Hc2).
    do 2 eexists. split; [reflexivity|].
    assert (Hv0 : view r0 = ∅) by (apply map_eq; intros t; unfold view; cbn; by rewrite omap_empty).
    rewrite Hv0 in Hv2. assert (Hvv : view r2 = view r) by (rewrite Hv2; by rewrite (inv_view _ _ I)).
    split; [|done]. split; [done|by rewrite Hc2| |done|rewrite Hvv; apply I].
    exists ds. by rewrite Hw2.
  - intros t. unfold Get, deref. rewrite (inv_open _ _ I), view_lookup.
    destruct (lookup_type r t) as [[p s]|] eqn:Et; [|done]. apply lookup_type_Some in Et as [_ ->]. done.
  - apply NoDup_fst_map_to_list.
  - intros t. rewrite <- heap_ok_types by done. unfold ListTypes. rewrite list_elem_of_fmap. split.
    + intros ([t1 p] & -> & Hp%elem_of_map_to_list). by exists p.
    + intros [p Hp]. exists (t, p). by rewrite elem_of_map_to_list.
Qed.

(** ** Schemas as typed objects *)

(** Pointers are valid, and the objects are schemas of the types they are
    filed under. *)
Record well_typed (r : walRegistry L) : Prop := {
  wt_heap : heap_ok r;
  wt_schemas : forall t s, view r !! t = Some s -> schema_ok t s }.

(** A type stays where it is, and an object keeps its type and primary key, for
    every caller that holds a pointer to it. *)
Definition keeps (r r' : walRegistry L) : Prop :=
  (forall t p, types r !! t = Some p -> types r' !! t = Some p) /\
  forall p s, deref r p = Some s ->
    exists s', deref r' p = Some s' /\ Type_ s' = Type_ s /\ PrimaryKey s' = PrimaryKey s.

#[local] Instance keeps_preorder : PreOrder keeps.
Proof.
  split.
  - intros r. split; [done|]. intros p s Hp. by exists s.
  - intros r1 r2 r3 [T1 H1] [T2 H2]. split; [by auto|]. intros p s Hp. destruct (H1 p s Hp) as (s2 & Hp2 & ? & ?).
    destruct (H2 p s2 Hp2) as (s3 & Hp3 & ? & ?). exists s3. split; [done|]. split; congruence.
Qed.

(** The log is no part of this. *)
Lemma same_objects r r' : heap r' = heap r -> types r' = types r -> well_typed r -> well_typed r' /\ keeps r r'.
Proof.
  intros Eh Et [[H1 H2] H3]. unfold keeps, deref. split; [split|].
  - split; rewrite Et; [by rewrite Eh|done].
  - intros t s. unfold view. rewrite Eh, Et. apply H3.
  - split; [by rewrite Et|]. intros p s Hp. rewrite Eh. by exists s.
Qed.

Lemma applyRegister_typed r s : well_typed r -> types r !! Type_ s = None -> Validate s = None ->
  well_typed (applyRegister r s) /\ keeps r (applyRegister r s).
Proof.
  intros [H1 H2] Hn Hv. destruct (applyRegister_view r s H1) as [H3 H4]. split; [split; [done|]|split].
  - rewrite H4. apply schema_ok_insert; [done|]. by apply schema_ok_register.
  - intros t p Hp. cbn. rewrite lookup_insert_ne; [done|]. intros E. congruence.
  - intros p s' Hp. exists s'. split; [by apply lookup_app_l_Some|done].
Qed.

Lemma alter_typed r t f : well_typed r ->
  (forall s, view r !! t = Some s -> schema_ok t s -> schema_ok t (f s) /\ Type_ (f s) = Type_ s /\ PrimaryKey (f s) = PrimaryKey s) ->
  let r' := match lookup_type r t with
            | None => r
            | Some (p, s) => mkRegistry (<[p := f s]> (heap r)) (types r) (w r) (closed r) end in
  well_typed r' /\ keeps r r'.
Proof.
  intros [H1 H2] Hf. destruct (alter_view r t f H1) as (H3 & H4 & _). cbn zeta in *. split; [split; [done|]|].
  - rewrite H4. apply schema_ok_alter; [done|]. intros s Hs Hok. by apply Hf.
  - destruct (lookup_type r t) as [[p s]|] eqn:E; [|reflexivity]. split; [done|]. intros p' s' Hp'. cbn.
    assert (Hv : view r !! t = Some s) by (by rewrite view_lookup, E). apply lookup_type_Some in E as [_ Hp].
    destruct (Hf s Hv (H2 t s Hv)) as (_ & Et & Ek). destruct (decide (p' = p)) as [->|Hne].
    + exists (f s). unfold deref in *. cbn. rewrite list_lookup_insert_eq by (by eapply lookup_lt_Some).
      split; [done|]. split; congruence.
    + exists s'. unfold deref in *. cbn. by rewrite list_lookup_insert_ne.
Qed.

(** Whatever the log does, an operation has changed nothing or applied itself. *)
Lemma persist_typed r data apply r' e : well_typed r -> persist r data apply = Some (r', e) ->
  (forall l, well_typed (set_w r l) -> well_typed (apply (set_w r l)) /\ keeps (set_w r l) (apply (set_w r l))) ->
  well_typed r' /\ keeps r r'.
Proof.
  intros Hr E Hap. unfold persist in E. destruct data as [d|]; [|injection E as <- _; by split].
  apply bind_Some in E as ([l1 res] & _ & E). destruct res as [x|off]; [injection E as <- _; by apply same_objects|].
  apply bind_Some in E as ([l2 err] & _ & E). destruct err as [x|]; injection E as <- _; [by apply same_objects|].
  destruct (same_objects r (set_w r l2) eq_refl eq_refl Hr) as [H1 H2]. destruct (Hap l2 H1) as [H3 H4].
  split; [exact H3|]. etransitivity; [exact H2|exact H4].
Qed.

Lemma run_op_typed r o r' e : well_typed r -> run_op r o = Some (r', e) -> well_typed r' /\ keeps r r'.
Proof.
  intros Hr E. assert (Hsame : well_typed r /\ keeps r r) by (by split). destruct o as [s|t i|t i]; cbn [run_op] in E.
  - unfold Register in E. destruct (Validate s) eqn:Ev; [by injection E as <- _|].
    destruct (closed r); [by injection E as <- _|]. destruct (types r !! Type_ s) eqn:Et; [by injection E as <- _|].
    eapply persist_typed; [done|exact E|]. intros l Hl. by apply applyRegister_typed.
  - unfold AddIndex in E. case_bool_decide as Hi; [by injection E as <- _|]. destruct (closed r); [by injection E as <- _|].
    destruct (lookup_type r t) as [[p s]|] eqn:El; [|by injection E as <- _].
    destruct (HasIndex s i) eqn:Hh; [by injection E as <- _|]. case_bool_decide as Hk; [by injection E as <- _|].
    eapply persist_typed; [done|exact E|]. intros l Hl. apply (alter_typed (set_w r l) t (fun s => add_index s i)); [done|].
    intros s' Hs' Hok. rewrite view_lookup in Hs'. unfold lookup_type in *. cbn in Hs'. rewrite El in Hs'.
    injection Hs' as <-. split; [by apply schema_ok_add|]. unfold add_index. by rewrite Hh.
  - unfold RemoveIndex in E. destruct (closed r); [by injection E as <- _|].
    destruct (lookup_type r t) as [[p s]|] eqn:El; [|by injection E as <- _].
    destruct (negb (HasIndex s i)); [by injection E as <- _|].
    eapply persist_typed; [done|exact E|]. intros l Hl. apply (alter_typed (set_w r l) t (fun s => remove_index s i)); [done|].
    intros s' _ Hok. split; [by apply schema_ok_remove|done].
Qed.

Inductive reg_call : Type := Change (o : reg_op) | CallClose.

Fixpoint run_calls r (cs : list reg_call) : option (walRegistry L) :=
  match cs with
  | [] => Some r
  | c :: cs => '(r, _) ← match c with Change o => run_op r o | CallClose => Close r end; run_calls r cs
  end.

(** C21: The schemas are typed objects: through any sequence of [Register],
    [AddIndex], [RemoveIndex] and [Close], whatever errors the log reports,
    every type leads to an object of its own that is a schema of this type,
    with a primary key and distinct non-empty indexes other than that; a type
    never moves to another object, and the object behind a pointer that [Get]
    gave out keeps its type and its primary key. *)
Theorem schemas_stay_typed r cs r' :
  well_typed r -> run_calls r cs = Some r' -> well_typed r' /\ keeps r r'.
Proof.
  revert r. induction cs as [|c cs IH]; intros r Hr E; [injection E as <-; by split|].
  cbn [run_calls] in E. apply bind_Some in E as ([r1 e] & E1 & E).
  assert (H1 : well_typed r1 /\ keeps r r1).
  { destruct c as [o|]; [by eapply run_op_typed|]. unfold Close in E1. destruct (closed r); [by injection E1 as <- _|].
    apply bind_Some in E1 as ([l err] & _ & E1). injection E1 as <- _. by apply same_objects. }
  destruct H1 as [H1 H2]. destruct (IH r1 H1 E) as [H3 H4]. split; [done|]. by etransitivity.
Qed.
End spec.
