(* ===== verification/RegistryRuns.v ===== *)
(** The schema registry on the write-ahead log: its [Open] on a directory, the
    wire-format codec of its entries, and concrete runs, among them the
    schemas that [AddIndex] accepts although [Validate] would not. *)
From S2P Require Import Prelude SliceSort Binary Io PageWriter Proto Crc Walpb Encoder Decoder LogSpec Wal WalNames WalSpec WalOps WalRecovery WalLimits LogInterface WalLog Schema Registry RegistrySpec.

#[local] Open Scope Z_scope.

(** ** Opening a registry *)

(** [Open]: the directory after [wal.Open], and the registry or the error. *)
Definition Open `{Codec Record_, Codec SchemaWALEntry} (d : directory) (space : Z)
    : option (directory * (schema_error + walRegistry WAL)) :=
  '(d, res) ← Wal.Open d SchemaOptions space;
  match res with
  | inl x => Some (d, inl (ErrWal x))
  | inr w => res ← OpenWith w; Some (d, res)
  end.

(** ** The wire format of the entries *)

Module EntryWire.
Definition definition_fields (sd : SchemaDefinition) : list field :=
  put_len 1 (sd_Type sd) ++ put_len 2 (sd_PrimaryKey sd) ++
  map (fun i => (3, Len i)) (sd_SecondaryIndexes sd).

Definition definition_decode (b : bytes) : option SchemaDefinition :=
  fs ← wire_decode b; Some (mkSchemaDefinition (get_len fs 1) (get_len fs 2) (get_lens fs 3)).

Definition entry_fields (e : SchemaWALEntry) : list field :=
  put_varint 1 (Operation e) ++
  match EntrySchema e with
  | None => []
  | Some sd => [(2, Len (wire_encode (definition_fields sd)))]
  end ++
  put_len 3 (EntryType e) ++ put_len 4 (IndexPath e).

Definition field_okb (f : field) : bool :=
  (1 <=? f.1) && (f.1 <? 16) &&
  match f.2 with Varint v => (0 <=? v) && (v <? 2 ^ 64) | Len b => blen b <? 2 ^ 64 end.

Definition definition_okb (sd : option SchemaDefinition) : bool :=
  match sd with None => true | Some sd => forallb field_okb (definition_fields sd) end.

(** Entries whose parts do not fit the format are refused. *)
#[export] Instance entry_codec : Codec SchemaWALEntry := {|
  Marshal e :=
    if forallb field_okb (entry_fields e) && definition_okb (EntrySchema e)
    then Some (wire_encode (entry_fields e)) else None;
  Unmarshal b :=
    fs ← wire_decode b;
    sd ← match last (get_lens fs 2) with
         | None => Some None
         | Some b => sd ← definition_decode b; Some (Some sd)
         end;
    Some (mkEntry (get_varint fs 1) sd (get_len fs 3) (get_len fs 4)) |}.

Lemma field_okb_spec fs : forallb field_okb fs = true -> Forall field_ok fs.
Proof.
  intros H. apply Forall_forall. intros [n v] Hf. rewrite forallb_forall in H.
  specialize (H (n, v)). rewrite <- list_elem_of_In in H. specialize (H Hf).
  unfold field_okb, field_ok in *. cbn [fst snd] in *. bool_hyps. destruct v; bool_hyps; lia.
Qed.

Lemma get_len_app fs gs n d :
  foldl (fun d f => match f with (k, Len b) => if k =? n then b else d | _ => d end) d (fs ++ gs) =
  foldl (fun d f => match f with (k, Len b) => if k =? n then b else d | _ => d end)
    (foldl (fun d f => match f with (k, Len b) => if k =? n then b else d | _ => d end) d fs) gs.
Proof. apply foldl_app. Qed.

Lemma get_len_indexes n l d : n <> 3 ->
  foldl (fun d f => match f with (k, Len b) => if k =? n then b else d | _ => d end) d
    (map (fun i => (3, Len i)) l) = d.
Proof.
  intros Hn. revert d. induction l as [|i l IH]; intros d; cbn [map foldl]; [done|].
  rewrite (proj2 (Z.eqb_neq 3 n)) by lia. apply IH.
Qed.

Lemma get_lens_indexes l : get_lens (map (fun i => (3, Len i)) l) 3 = l.
Proof. induction l as [|i l IH]; [done|]. unfold get_lens in *. cbn. by rewrite IH. Qed.

Lemma definition_roundtrip sd :
  forallb field_okb (definition_fields sd) = true ->
  definition_decode (wire_encode (definition_fields sd)) = Some sd.
Proof.
  intros H%field_okb_spec. unfold definition_decode. rewrite wire_decode_encode by done.
  cbn [mbind option_bind]. destruct sd as [t p l]. unfold definition_fields, get_len, get_lens. cbn [sd_Type sd_PrimaryKey sd_SecondaryIndexes].
  rewrite !get_len_app, !get_len_indexes, !omap_app by done. fold (get_lens (map (fun i => (3, Len i)) l) 3).
  rewrite get_lens_indexes. by destruct t, p.
Qed.

#[export] Instance entry_codec_laws : EntryCodec.
Proof.
  intros e b. cbn [Marshal entry_codec]. destruct (_ && _) eqn:E; [|done]. intros [= <-].
  apply andb_true_iff in E as [Hf Hs]. apply field_okb_spec in Hf. cbn [Unmarshal entry_codec].
  rewrite wire_decode_encode by done. cbn [mbind option_bind].
  destruct e as [o [sd|] t p]; unfold entry_fields, put_varint in *; cbn [Operation EntrySchema EntryType IndexPath] in *.
  - cbn in Hs. pose proof (definition_roundtrip sd Hs) as Hd.
    destruct (o =? 0) eqn:Eo; bool_hyps; subst; destruct t, p; cbn; rewrite Hd; done.
  - destruct (o =? 0) eqn:Eo; bool_hyps; subst; destruct t, p; done.
Qed.
End EntryWire.

(** ** Runs over the wire-format codecs *)

Import Wire EntryWire.

Lemma empty_registry_inv w :
  logged w [] -> SegmentSize (opts w) <= 0 -> registry_inv (mkRegistry [] ∅ w false) [].
Proof.
  intros Hl Hs.
  assert (Hv : view (mkRegistry [] ∅ w false) = ∅).
  { apply map_eq. intros t. unfold view. cbn. by rewrite omap_empty. }
  split; [split; intros t1 t2 H|done|by exists []; split; [split|constructor]|exact Hv|].
  - by cbn in H; rewrite lookup_empty in H.
  - by cbn; rewrite lookup_empty.
  - intros t s. by rewrite Hv, lookup_empty.
Qed.

(** A schema of type "pods" with primary key "name". *)
Definition pods : Schema := mkSchema [x70; x6f; x64; x73] [x6e; x61; x6d; x65] [].

(** An index path "l.*.k", with the wildcard in the middle. *)
Definition bad_path : bytes := [x6c; x2e; x2a; x2e; x6b].

Definition fresh_log : option (directory * (wal_error + WAL)) := Wal.Open ∅ SchemaOptions 100000.

Lemma no_segments : listSegments ∅ = [].
Proof. vm_compute. reflexivity. Qed.

Lemma fresh_log_opens : exists d w, fresh_log = Some (d, inr w) /\ logged w [] /\ opts w = SchemaOptions.
Proof.
  destruct (Open_new ∅ SchemaOptions 100000 no_segments) as (d & res & Ho & Hres).
  assert (Hv : match fresh_log with Some (_, inr w) => Some (opts w) | _ => None end = Some SchemaOptions)
    by (vm_compute; reflexivity).
  unfold fresh_log in *. rewrite Ho in Hv. destruct res as [x|w]; [discriminate Hv|].
  exists d, w. split; [exact Ho|]. split; [by exists [], [(CrcType, [])]; split; [apply Hres|]|].
  by apply (inj Some) in Hv.
Qed.

Lemma small_fits (o : reg_op) b :
  Marshal (op_entry o) = Some b -> blen b <= 1000 -> fits (Marshal (op_entry o)).
Proof. intros Hm Hb d Hd. rewrite Hm in Hd. injection Hd as <-. cbn. unfold maxRecordSize. lia. Qed.

Lemma registry_refines_witness :
  exists r r', registry_inv r [] /\ run_op r (OpRegister pods) = Some (r', None) /\
    registry_inv r' [op_entry (OpRegister pods)] /\ view r' = {[ Type_ pods := pods ]}.
Proof.
  destruct fresh_log_opens as (d & w & Ho & Hl & Hopt).
  assert (I : registry_inv (mkRegistry [] ∅ w false) []).
  { apply empty_registry_inv; [exact Hl|]. rewrite Hopt. cbn. lia. }
  assert (Hfit : fits (Marshal (op_entry (OpRegister pods)))).
  { eapply small_fits; [vm_compute; reflexivity|]. vm_compute. discriminate. }
  destruct (registry_refines (mkRegistry [] ∅ w false) [] (OpRegister pods) I Hfit) as (r' & err & Hrun & Hres).
  assert (Hv : match fresh_log with
    | Some (_, inr w) =>
        match run_op (mkRegistry [] ∅ w false) (OpRegister pods) with Some (_, None) => true | _ => false end
    | _ => false end = true) by (vm_compute; reflexivity).
  rewrite Ho, Hrun in Hv. destruct err as [x|]; [discriminate Hv|].
  assert (Hview : view (mkRegistry (L := WAL) [] ∅ w false) = ∅).
  { apply map_eq. intros t. unfold view. cbn. by rewrite omap_empty. }
  rewrite Hview in Hres. destruct Hres as [I' Hv'].
  exists (mkRegistry [] ∅ w false), r'.
  exact (conj I (conj Hrun (conj I' Hv'))).
Defined.

Lemma registry_recovers_witness :
  exists r, registry_inv r [] /\
    (exists r2 err, recover (mkRegistry [] ∅ (Registry.w r) false) = Some (r2, err)) /\
    forall t, t ∈ ListTypes r <-> is_Some (view r !! t).
Proof.
  destruct fresh_log_opens as (d & w & Ho & Hl & Hopt).
  assert (I : registry_inv (mkRegistry [] ∅ w false) []).
  { apply empty_registry_inv; [exact Hl|]. rewrite Hopt. cbn. lia. }
  destruct (registry_recovers (mkRegistry [] ∅ w false) [] I) as ((r2 & err & H & _) & _ & _ & Hk).
  exists (mkRegistry [] ∅ w false). split; [exact I|]. split; [by exists r2, err|exact Hk].
Defined.

Lemma schemas_stay_typed_witness :
  let calls := [Change (OpRegister pods); Change (OpAddIndex (Type_ pods) [x6b]); Change (OpRegister pods);
                Change (OpAddIndex (Type_ pods) [x6c]); Change (OpRemoveIndex (Type_ pods) [x6b]);
                CallClose; Change (OpRemoveIndex (Type_ pods) [x6c])] in
  exists w r', run_calls (mkRegistry [] ∅ w false) calls = Some r' /\ well_typed r' /\
    view r' !! Type_ pods = Some (mkSchema (Type_ pods) (PrimaryKey pods) [[x6c]]).
Proof.
  intros calls. destruct fresh_log_opens as (d & w & Ho & Hl & Hopt).
  assert (E : (match fresh_log with
    | Some (_, inr w) => r ← run_calls (mkRegistry [] ∅ w false) calls; view r !! Type_ pods
    | _ => None end) = Some (mkSchema (Type_ pods) (PrimaryKey pods) [[x6c]])) by (vm_compute; reflexivity).
  rewrite Ho in E. apply bind_Some in E as (r' & Hr & Hv). exists w, r'.
  destruct (schemas_stay_typed (mkRegistry [] ∅ w false) calls r') as [Ht _]; [|exact Hr|exact (conj Hr (conj Ht Hv))].
  assert (I : registry_inv (mkRegistry [] ∅ w false) []).
  { apply empty_registry_inv; [exact Hl|]. rewrite Hopt. cbn. lia. }
  split; [exact (inv_heap _ _ I)|exact (inv_schemas _ _ I)].
Defined.

(** [AddIndex] does not apply [Validate]'s rule that a wildcard ends the path:
    the index is accepted and the schema it leaves does not validate. *)
Theorem add_index_skips_wildcard_rule :
  ('(_, res) ← Open ∅ 100000;
   r ← right res;
   '(r, registered) ← Register r pods;
   '(r, added) ← AddIndex r (Type_ pods) bad_path;
   s ← view r !! Type_ pods;
   Some (registered, added, Validate s))
  = Some (None, None, Some (ErrInvalidSchema (WildcardNotAtEnd bad_path))).
Proof. vm_compute. reflexivity. Qed.

(** The pointer [Get] returned sees later changes of the registry. *)
Theorem get_shares_the_schema :
  ('(_, res) ← Open ∅ 100000;
   r ← right res;
   '(r, _) ← Register r pods;
   p ← right (Get r (Type_ pods));
   before ← deref r p;
   '(r, _) ← AddIndex r (Type_ pods) [x6b];
   after ← deref r p;
   Some (SecondaryIndexes before, SecondaryIndexes after)) = Some ([], [[x6b]]).
Proof. vm_compute. reflexivity. Qed.

(** A schema "jqbb" with primary key "aayz": on a new log its entry has the
    chained CRC zero. *)
Definition zero_crc_schema : Schema := mkSchema [x6a; x71; x62; x62] [x61; x61; x79; x7a] [].

(** A registration can be refused and still happen: [Register] of a
    well-formed schema on a new registry returns the log's error and the schema
    is not in the map, but after reopening the directory it is. *)
Theorem refused_registration_reappears :
  Validate zero_crc_schema = None /\
  ('(_, res) ← Open ∅ 100000;
   r ← right res;
   '(r, registered) ← Register r zero_crc_schema;
   '(l, _) ← Wal.Close (Registry.w r);
   '(_, res) ← Open (files l) 100000;
   r2 ← right res;
   Some (registered, view r !! Type_ zero_crc_schema, view r2 !! Type_ zero_crc_schema))
  = Some (Some (ErrWal ErrCrcNotSet), None, Some zero_crc_schema).
Proof. split; vm_compute; reflexivity. Qed.
