(* ===== verification/Format.v ===== *)
(** The table file format ([pkg/lsm/sstable/format.go]): constants, block
    handles with their varint encoding, the block checksum and the metadata of
    a written table. *)
From S2P Require Import Prelude Binary Io Crc.

(** ** Definitions *)

(** [iwsstv01]. *)
Definition magic : bytes := [x69; x77; x73; x73; x74; x76; x30; x31].

Definition blockTrailerSize : Z := 5.
Definition footerSize : Z := 48.
Definition DefaultBlockSize : Z := 4096.
Definition DefaultRestartInterval : Z := 16.
Definition DefaultBloomBitsPerKey : Z := 10.
Definition compressionNone : byte := x00.

Record BlockHandle : Type := mkHandle { Offset : Z; Length : Z }.

#[export] Instance BlockHandle_eq_dec : EqDecision BlockHandle.
Proof. solve_decision. Defined.

(** The loop [for x >= 0x80]; a [uint64] is shifted out after nine rounds. *)
Fixpoint varintLen_loop (fuel : nat) (x n : Z) : Z :=
  match fuel with
  | O => n
  | S fuel => if 0x80 <=? x then varintLen_loop fuel (Z.shiftr x 7) (n + 1) else n
  end.
Definition varintLen (x : Z) : Z := varintLen_loop 9 x 1.

Definition encodedLen (h : BlockHandle) : Z := varintLen (Offset h) + varintLen (Length h).

(** [binary.PutUvarint(dst[off:], x)]: panics when the buffer is too small. *)
Definition PutUvarint (dst : bytes) (off x : Z) : option (bytes * Z) :=
  let p := put_uvarint x in
  if off + blen p <=? blen dst then d ← copy_at dst off p; Some (d, blen p) else None.

(** [h.encode(dst[off:])]: the buffer afterwards and the bytes written. *)
Definition encode (h : BlockHandle) (dst : bytes) (off : Z) : option (bytes * Z) :=
  '(dst, n1) ← PutUvarint dst off (Offset h);
  '(dst, n2) ← PutUvarint dst (off + n1) (Length h);
  Some (dst, n1 + n2).

(** [src[n1:]] panics after an overflowing varint, whose count is negative. *)
Definition decodeBlockHandle (src : bytes) : option (BlockHandle * Z) :=
  let '(offset, n1) := uvarint src in
  rest ← slice_from src n1;
  let '(length, n2) := uvarint rest in
  Some (mkHandle offset length, n1 + n2).

(** [crc32.New(crcTable)] is the digest with the zero seed. *)
Definition blockChecksum (data : bytes) (blockType : byte) : Z :=
  let c := Digest.New 0 crcTable in
  let c := (Digest.Write c data).1 in
  let c := (Digest.Write c [blockType]).1 in
  Digest.Sum32 c.

Record TableMeta : Type := mkMeta {
  Size : Z;
  KeyCount : Z;
  SmallestKey : bytes;
  LargestKey : bytes;
  DataBlockCount : Z }.

(** ** Lemmas *)

Definition handle_ok (h : BlockHandle) : Prop :=
  0 <= Offset h < 2 ^ 64 /\ 0 <= Length h < 2 ^ 64.

(** What [encode] writes. *)
Definition handle_bytes (h : BlockHandle) : bytes :=
  put_uvarint (Offset h) ++ put_uvarint (Length h).

Lemma varintLen_loop_put fuel x n :
  varintLen_loop fuel x n = n - 1 + blen (put_uvarint_loop fuel x).
Proof.
  revert x n. induction fuel as [|f IH]; intros x n; cbn [varintLen_loop put_uvarint_loop].
  - rewrite blen_cons, blen_nil. lia.
  - change 0x80 with 128. destruct (128 <=? x); rewrite blen_cons; [rewrite IH; lia|].
    rewrite blen_nil. lia.
Qed.

Lemma varintLen_put x : varintLen x = blen (put_uvarint x).
Proof. unfold varintLen, put_uvarint. rewrite varintLen_loop_put. lia. Qed.

Lemma encodedLen_bytes h : encodedLen h = blen (handle_bytes h).
Proof. unfold encodedLen, handle_bytes. by rewrite blen_app, !varintLen_put. Qed.

Lemma blen_handle_bytes h : 2 <= blen (handle_bytes h) <= 20.
Proof.
  unfold handle_bytes. rewrite blen_app.
  pose proof (blen_put_uvarint (Offset h)). pose proof (blen_put_uvarint (Length h)). lia.
Qed.

Lemma PutUvarint_into a b c off x :
  off = blen a -> blen b = blen (put_uvarint x) ->
  PutUvarint (a ++ b ++ c) off x = Some (a ++ put_uvarint x ++ c, blen (put_uvarint x)).
Proof.
  intros Ha Hb. unfold PutUvarint. rewrite !blen_app. pose proof (blen_nonneg c).
  rewrite (proj2 (Z.leb_le _ _)) by lia. by rewrite (copy_at_exact a b c).
Qed.

(** Encoding a handle overwrites as many bytes as it needs. *)
Lemma encode_into h a b c off :
  off = blen a -> blen b = blen (handle_bytes h) ->
  encode h (a ++ b ++ c) off = Some (a ++ handle_bytes h ++ c, blen (handle_bytes h)).
Proof.
  intros Ha Hb. unfold encode, handle_bytes in *. rewrite blen_app in Hb.
  pose proof (blen_put_uvarint (Offset h)). pose proof (blen_put_uvarint (Length h)).
  rewrite <- (take_drop (Z.to_nat (blen (put_uvarint (Offset h)))) b), <- app_assoc.
  rewrite (PutUvarint_into a _ _ off (Offset h) Ha) by (apply blen_take; lia).
  cbn [mbind option_bind]. rewrite (app_assoc a (put_uvarint (Offset h))).
  rewrite (PutUvarint_into (a ++ _) _ c) by (rewrite ?blen_app, ?blen_drop by lia; lia).
  cbn [mbind option_bind]. by rewrite <- !app_assoc, blen_app.
Qed.

Lemma decode_handle_bytes h rest :
  handle_ok h -> decodeBlockHandle (handle_bytes h ++ rest) = Some (h, blen (handle_bytes h)).
Proof.
  intros [Ho Hl]. unfold decodeBlockHandle, handle_bytes. rewrite <- app_assoc.
  rewrite uvarint_put_app by done. rewrite slice_from_app by done. cbn [mbind option_bind].
  rewrite uvarint_put_app by done. rewrite blen_app. by destruct h.
Qed.

Lemma blockChecksum_eq data t :
  blockChecksum data t = crc32_update 0 crcTable (data ++ [t]).
Proof.
  unfold blockChecksum, Digest.Sum32, Digest.Write, Digest.New. cbn.
  by rewrite <- crc32_update_app.
Qed.

Lemma blockChecksum_bounds data t : 0 <= blockChecksum data t < 2 ^ 32.
Proof. rewrite blockChecksum_eq. apply crc32_update_bounds. lia. Qed.
