(* ===== verification/Block.v ===== *)
(** Blocks of a table ([pkg/lsm/sstable/block.go]): the writer that packs
    key-value pairs with prefix compression and restart points, and the
    iterator that reads a finished block back and seeks in it.

    The scratch array of the writer holds three varints of at most ten bytes,
    which always fit its thirty bytes.  The iterator's [err] field is never
    assigned in the program and is left out.  A length taken from the block
    that exceeds what is there is a run-time panic in the code unless spare
    capacity of the backing array hides it; either way the model has no
    result ([None]). *)
From S2P Require Import Prelude Binary ByteOrder.

(** ** The writer *)

Record blockWriter : Type := mkBlockWriter {
  buf : bytes;
  restarts : list Z;
  nEntries : Z;
  restartInterval : Z;
  prevKey : bytes }.

Definition reset (w : blockWriter) : blockWriter :=
  mkBlockWriter [] [] 0 (restartInterval w) [].

Definition newBlockWriter (interval : Z) : blockWriter :=
  reset (mkBlockWriter [] [] 0 interval []).

(** [a[i] == b[i]] for an index in range of both. *)
Definition same_at (a b : bytes) (i : nat) : bool := bool_decide (a !!! i = b !!! i).

(** The loop over chunks of eight bytes and the loop over single bytes; each
    round advances [i], so [fuel = n] rounds are enough. *)
Fixpoint sharedPrefix_chunks (fuel : nat) (a b : bytes) (n i : nat) : nat :=
  match fuel with
  | O => i
  | S fuel =>
      if (i + 8 <=? n)%nat then
        if negb (same_at a b i) || negb (same_at a b (i + 1)) ||
           negb (same_at a b (i + 2)) || negb (same_at a b (i + 3)) ||
           negb (same_at a b (i + 4)) || negb (same_at a b (i + 5)) ||
           negb (same_at a b (i + 6)) || negb (same_at a b (i + 7))
        then i else sharedPrefix_chunks fuel a b n (i + 8)
      else i
  end.

Fixpoint sharedPrefix_bytes (fuel : nat) (a b : bytes) (n i : nat) : nat :=
  match fuel with
  | O => i
  | S fuel =>
      if (i <? n)%nat && same_at a b i then sharedPrefix_bytes fuel a b n (i + 1) else i
  end.

Definition sharedPrefix (a b : bytes) : Z :=
  let n := if blen b <? blen a then length b else length a in
  let i := sharedPrefix_chunks n a b n 0 in
  Z.of_nat (sharedPrefix_bytes n a b n i).

(** [add]; [%] by a zero interval panics. *)
Definition add (w : blockWriter) (key value : bytes) : option blockWriter :=
  if restartInterval w =? 0 then None
  else
    let '(rs, shared) :=
      if Z.rem (nEntries w) (restartInterval w) =? 0
      then (restarts w ++ [u32 (blen (buf w))], 0)
      else (restarts w, sharedPrefix (prevKey w) key) in
    let unshared := blen key - shared in
    let tmp := put_uvarint (u64 shared) ++ put_uvarint (u64 unshared) ++
               put_uvarint (u64 (blen value)) in
    suffix ← slice_from key shared;
    Some (mkBlockWriter (buf w ++ tmp ++ suffix ++ value) rs (nEntries w + 1)
            (restartInterval w) key).

(** [finish]: the writer, whose buffer now ends with the restart array, and
    the buffer. *)
Definition finish (w : blockWriter) : blockWriter * bytes :=
  let b := foldl (fun b r => b ++ put_le32 r) (buf w) (restarts w) in
  let b := b ++ put_le32 (u32 (blen (restarts w))) in
  (mkBlockWriter b (restarts w) (nEntries w) (restartInterval w) (prevKey w), b).

Definition estimatedSize (w : blockWriter) : Z := blen (buf w) + blen (restarts w) * 4 + 4.

(** ** Comparison *)

Definition compareBytes (a b : bytes) : Z :=
  let n := if blen b <? blen a then length b else length a in
  match compare_loop n a b with
  | Some r => r
  | None => if blen a <? blen b then -1 else if blen b <? blen a then 1 else 0
  end.

(** ** The iterator *)

Module It.

Record blockIterator : Type := mkIt {
  data : bytes;
  restarts : Z;
  numRestarts : Z;
  offset : Z;
  key : bytes;
  val : bytes;
  valid : bool }.

Definition newBlockIterator (data : bytes) : option blockIterator :=
  if blen data <? 4 then Some (mkIt [] 0 0 0 [] [] false)
  else
    tail ← slice_from data (blen data - 4);
    numRestarts ← get_le32 tail;
    let restartsOffset := blen data - 4 - numRestarts * 4 in
    Some (mkIt data restartsOffset numRestarts restartsOffset [] [] false).

Definition set_valid (it : blockIterator) (v : bool) : blockIterator :=
  mkIt (data it) (restarts it) (numRestarts it) (offset it) (key it) (val it) v.
Definition set_offset (it : blockIterator) (off : Z) : blockIterator :=
  mkIt (data it) (restarts it) (numRestarts it) off (key it) (val it) (valid it).
Definition clear_key (it : blockIterator) : blockIterator :=
  mkIt (data it) (restarts it) (numRestarts it) (offset it) [] (val it) (valid it).

(** [binary.Uvarint(it.data[it.offset:])] followed by [it.offset += n]; the
    value is missing when [n <= 0]. *)
Definition take_uvarint (it : blockIterator) : option (blockIterator * option Z) :=
  d ← slice_from (data it) (offset it);
  let '(x, n) := uvarint d in
  if n <=? 0 then Some (set_valid it false, None)
  else Some (set_offset it (offset it + n), Some x).

Definition next (it : blockIterator) : option (blockIterator * bool) :=
  if restarts it <=? offset it then Some (set_valid it false, false)
  else
    '(it, shared) ← take_uvarint it;
    match shared with None => Some (it, false) | Some shared =>
    '(it, unshared) ← take_uvarint it;
    match unshared with None => Some (it, false) | Some unshared =>
    '(it, valueLen) ← take_uvarint it;
    match valueLen with None => Some (it, false) | Some valueLen =>
    pre ← slice (key it) 0 (i64 shared);
    suf ← slice (data it) (offset it) (i64 (offset it + i64 unshared));
    let off := offset it + i64 unshared in
    v ← slice (data it) off (i64 (off + i64 valueLen));
    Some (mkIt (data it) (restarts it) (numRestarts it) (off + i64 valueLen) (pre ++ suf) v true,
          true)
    end end end.

Definition Next := next.

Definition First (it : blockIterator) : option (blockIterator * bool) :=
  next (clear_key (set_offset it 0)).

Definition Valid (it : blockIterator) : bool := valid it.
Definition Key (it : blockIterator) : bytes := key it.
Definition Value (it : blockIterator) : bytes := val it.

Definition getRestart (it : blockIterator) (i : Z) : option Z :=
  d ← slice_from (data it) (restarts it + i * 4); get_le32 d.

Definition decodeKeyAt (it : blockIterator) (offset : Z) : option bytes :=
  d ← slice_from (data it) offset;
  let '(_, n) := uvarint d in
  let offset := offset + n in
  d ← slice_from (data it) offset;
  let '(unshared, n) := uvarint d in
  let offset := offset + n in
  d ← slice_from (data it) offset;
  let '(_, n) := uvarint d in
  let offset := offset + n in
  slice (data it) offset (i64 (offset + i64 unshared)).

(** The binary search over the restart points; [hi - lo] shrinks every
    round. *)
Fixpoint search (fuel : nat) (it : blockIterator) (target : bytes) (lo hi : Z) : option Z :=
  if lo <? hi then
    match fuel with
    | O => None
    | S fuel =>
        let mid := lo + Z.quot (hi - lo) 2 in
        restartOffset ← getRestart it mid;
        key ← decodeKeyAt it restartOffset;
        if compareBytes key target <? 0 then search fuel it target (mid + 1) hi
        else search fuel it target lo mid
    end
  else Some lo.

(** The linear scan; each entry takes at least one byte of the block. *)
Fixpoint scan (fuel : nat) (it : blockIterator) (target : bytes)
    : option (blockIterator * bool) :=
  match fuel with
  | O => None
  | S fuel =>
      '(it, ok) ← next it;
      if (ok : bool) then
        if 0 <=? compareBytes (key it) target then Some (it, true) else scan fuel it target
      else Some (set_valid it false, false)
  end.

Definition SeekGE (it : blockIterator) (target : bytes) : option (blockIterator * bool) :=
  lo ← search (Z.to_nat (numRestarts it)) it target 0 (numRestarts it);
  let startRestart := if lo - 1 <? 0 then 0 else lo - 1 in
  off ← getRestart it startRestart;
  scan (S (length (data it))) (clear_key (set_offset it off)) target.

(** All pairs from the current position on. *)
Fixpoint collect (fuel : nat) (it : blockIterator) : option (list (bytes * bytes)) :=
  match fuel with
  | O => None
  | S fuel =>
      if Valid it then
        '(it', _) ← next it; l ← collect fuel it'; Some ((Key it, Value it) :: l)
      else Some []
  end.

Definition entries (data : bytes) : option (list (bytes * bytes)) :=
  it ← newBlockIterator data; '(it, _) ← First it; collect (S (length data)) it.

End It.

(** A block built from a list of pairs. *)
Definition add_all (w : blockWriter) (kvs : list (bytes * bytes)) : option blockWriter :=
  foldl (fun w kv => w ← w; add w kv.1 kv.2) (Some w) kvs.
