(* ===== verification/BlockSpec.v ===== *)
(** Correctness of blocks: the layout [add] produces, and the iterator as a
    cursor over the pairs that were added.  [cursor it l] says that [l] is
    what the iterator still shows, its current pair first; [First] gives all
    pairs, [Next] the tail, [SeekGE] the pairs from the target on. *)
From stdpp Require Import sorting.
From S2P Require Import Prelude Binary ByteOrder Sorted Block.

#[local] Open Scope Z_scope.

(** ** Common prefixes *)

(** The length of the longest common prefix. *)
Fixpoint common (a b : bytes) : nat :=
  match a, b with
  | x :: a, y :: b => if bool_decide (x = y) then S (common a b) else O
  | _, _ => O
  end.

Lemma common_le a b : (common a b <= length a)%nat /\ (common a b <= length b)%nat.
Proof.
  revert b. induction a as [|x a IH]; intros [|y b]; cbn; try lia.
  case_bool_decide; [|lia]. specialize (IH b). lia.
Qed.

Lemma common_take a b : take (common a b) a = take (common a b) b.
Proof.
  revert b. induction a as [|x a IH]; intros [|y b]; cbn; try done.
  case_bool_decide as E; [|done]. cbn. by rewrite E, IH.
Qed.

Lemma common_step a b i :
  (i < length a)%nat -> (i < length b)%nat -> (i <= common a b)%nat ->
  if same_at a b i then (S i <= common a b)%nat else common a b = i.
Proof.
  revert b i. induction a as [|x a IH]; intros [|y b] i; cbn; try lia.
  unfold same_at. destruct i as [|i].
  - intros _ _ _. change ((x :: a) !!! 0%nat) with x. change ((y :: b) !!! 0%nat) with y.
    case_bool_decide; lia.
  - intros Ha Hb. case_bool_decide as E; [|lia]. intros Hi.
    specialize (IH b i ltac:(lia) ltac:(lia) ltac:(lia)). unfold same_at in IH.
    change ((x :: a) !!! S i) with (a !!! i). change ((y :: b) !!! S i) with (b !!! i).
    case_bool_decide; lia.
Qed.

Lemma shared_bytes_spec fuel a b n i :
  n = Nat.min (length a) (length b) -> (i <= common a b)%nat -> (n - i <= fuel)%nat ->
  sharedPrefix_bytes fuel a b n i = common a b.
Proof.
  intros Hn. pose proof (common_le a b). revert i.
  induction fuel as [|f IH]; intros i Hi Hf; cbn [sharedPrefix_bytes]; [lia|].
  destruct (Nat.ltb_spec i n); cbn [andb]; [|lia].
  pose proof (common_step a b i ltac:(lia) ltac:(lia) Hi) as Hs.
  destruct (same_at a b i); [|done]. apply IH; lia.
Qed.

Lemma shared_chunks_spec fuel a b n i :
  n = Nat.min (length a) (length b) -> (i <= common a b)%nat ->
  (i <= sharedPrefix_chunks fuel a b n i <= common a b)%nat.
Proof.
  intros Hn. revert i. induction fuel as [|f IH]; intros i Hi; cbn [sharedPrefix_chunks]; [lia|].
  destruct (Nat.leb_spec (i + 8) n); [|lia].
  assert (Hs : forall j, (j < 8)%nat -> (i + j <= common a b)%nat ->
    same_at a b (i + j) = true -> (S (i + j) <= common a b)%nat).
  { intros j Hj Hc E. pose proof (common_step a b (i + j) ltac:(lia) ltac:(lia) Hc) as Hx.
    by rewrite E in Hx. }
  destruct (_ || _) eqn:E; [lia|]. bool_hyps.
  assert (i + 8 <= common a b)%nat; [|specialize (IH (i + 8)%nat ltac:(lia)); lia].
  pose proof (Hs 0%nat ltac:(lia)) as S0. rewrite Nat.add_0_r in S0.
  pose proof (Hs 1%nat ltac:(lia)). pose proof (Hs 2%nat ltac:(lia)).
  pose proof (Hs 3%nat ltac:(lia)). pose proof (Hs 4%nat ltac:(lia)).
  pose proof (Hs 5%nat ltac:(lia)). pose proof (Hs 6%nat ltac:(lia)).
  pose proof (Hs 7%nat ltac:(lia)).
  repeat match goal with H : same_at _ _ _ = true |- _ => rewrite H in *; clear H end.
  repeat match goal with H : _ -> true = true -> _ |- _ => specialize (fun x => H x eq_refl) end.
  lia.
Qed.

(** The two-speed loop finds the longest common prefix. *)
Lemma sharedPrefix_common a b : sharedPrefix a b = Z.of_nat (common a b).
Proof.
  unfold sharedPrefix. set (n := if _ <? _ then _ else _).
  assert (Hn : n = Nat.min (length a) (length b)) by (unfold n, blen; case_match; bool_hyps; lia).
  pose proof (shared_chunks_spec n a b n 0 Hn ltac:(lia)).
  f_equal. apply shared_bytes_spec; [done|lia|lia].
Qed.

Lemma compareBytes_lex a b : compareBytes a b = sign (lex a b).
Proof.
  unfold compareBytes. apply compare_loop_lex. unfold blen. case_match; bool_hyps; lia.
Qed.

Lemma compareBytes_lt a b : (compareBytes a b <? 0) = bool_decide (blt a b).
Proof. by rewrite compareBytes_lex, sign_lt. Qed.
Lemma compareBytes_eq a b : (compareBytes a b =? 0) = bool_decide (a = b).
Proof. by rewrite compareBytes_lex, sign_eq. Qed.
Lemma compareBytes_ge a b : (0 <=? compareBytes a b) = bool_decide (ble b a).
Proof.
  rewrite Z.leb_antisym, compareBytes_lt. rewrite <- bool_decide_not. by apply bool_decide_ext, not_blt.
Qed.
Lemma compareBytes_le a b : (compareBytes a b <=? 0) = bool_decide (ble a b).
Proof.
  rewrite Z.leb_antisym, compareBytes_lex, sign_gt, <- bool_decide_not. by apply bool_decide_ext, not_blt.
Qed.

(** ** The layout of a block *)

Section layout.
Variable r : Z.

Definition shared_at (n : Z) (prev key : bytes) : Z :=
  if Z.rem n r =? 0 then 0 else sharedPrefix prev key.

Definition entry_bytes (shared : Z) (key value : bytes) : bytes :=
  (put_uvarint shared ++ put_uvarint (blen key - shared) ++ put_uvarint (blen value)) ++
  drop (Z.to_nat shared) key ++ value.

Fixpoint layout (n : Z) (prev : bytes) (kvs : list (bytes * bytes)) : bytes :=
  match kvs with
  | [] => []
  | (k, v) :: kvs => entry_bytes (shared_at n prev k) k v ++ layout (n + 1) k kvs
  end.

Definition last_key (prev : bytes) (kvs : list (bytes * bytes)) : bytes :=
  default prev (last kvs.*1).

(** The entries at restart points, and their offsets. *)
Definition restart_points (kvs : list (bytes * bytes)) : list nat :=
  filter (fun j => Z.rem (Z.of_nat j) r = 0) (seq 0 (length kvs)).
Definition start_of (kvs : list (bytes * bytes)) (j : nat) : Z := blen (layout 0 [] (take j kvs)).
Definition restart_offs (kvs : list (bytes * bytes)) : list Z :=
  start_of kvs <$> restart_points kvs.

Definition block_bytes (kvs : list (bytes * bytes)) : bytes :=
  layout 0 [] kvs ++ concat (put_le32 <$> restart_offs kvs) ++ put_le32 (blen (restart_offs kvs)).

Lemma last_key_snoc prev kvs k v : last_key prev (kvs ++ [(k, v)]) = k.
Proof. unfold last_key. rewrite fmap_app. apply (f_equal (default prev) (last_snoc k _)). Qed.

Lemma last_key_cons prev k v kvs : last_key prev ((k, v) :: kvs) = last_key k kvs.
Proof.
  unfold last_key. rewrite fmap_cons, last_cons. by destruct (last kvs.*1).
Qed.

Lemma layout_app n prev l1 l2 :
  layout n prev (l1 ++ l2) = layout n prev l1 ++ layout (n + blen l1) (last_key prev l1) l2.
Proof.
  revert n prev. induction l1 as [|[k v] l1 IH]; intros n prev.
  - cbn [app]. by rewrite blen_nil, Z.add_0_r.
  - cbn [app layout]. rewrite IH, last_key_cons, blen_cons, app_assoc. do 2 f_equal. lia.
Qed.

Lemma shared_at_bounds n prev k :
  0 <= shared_at n prev k <= blen k /\ (shared_at n prev k = 0 \/ shared_at n prev k <= blen prev).
Proof.
  unfold shared_at. pose proof (common_le prev k). rewrite sharedPrefix_common. unfold blen.
  case_match; lia.
Qed.

Lemma entry_bytes_length shared k v :
  0 <= shared <= blen k -> blen k - shared + blen v + 3 <= blen (entry_bytes shared k v).
Proof.
  intros Hs. unfold entry_bytes. rewrite !blen_app, blen_drop by lia.
  pose proof (blen_put_uvarint shared). pose proof (blen_put_uvarint (blen k - shared)).
  pose proof (blen_put_uvarint (blen v)). lia.
Qed.

(** Every entry costs at least three bytes and its key never outgrows the
    layout so far. *)
Lemma layout_length n prev kvs : 3 * blen kvs <= blen (layout n prev kvs).
Proof.
  revert n prev. induction kvs as [|[k v] kvs IH]; intros n prev; [done|].
  cbn [layout]. rewrite blen_cons, blen_app. specialize (IH (n + 1) k).
  pose proof (shared_at_bounds n prev k) as [Hs _].
  pose proof (entry_bytes_length _ k v Hs). pose proof (blen_nonneg v). lia.
Qed.

Lemma layout_fields n prev kvs k v :
  (k, v) ∈ kvs -> blen k + blen v <= blen prev + blen (layout n prev kvs).
Proof.
  revert n prev. induction kvs as [|[k' v'] kvs IH]; intros n prev Hin;
    [by apply not_elem_of_nil in Hin|].
  cbn [layout]. rewrite blen_app. pose proof (shared_at_bounds n prev k') as [Hs Hs'].
  pose proof (entry_bytes_length _ k' v' Hs). pose proof (blen_nonneg v').
  pose proof (blen_nonneg (layout (n + 1) k' kvs)). pose proof (blen_nonneg prev).
  apply elem_of_cons in Hin as [[= -> ->]|Hin]; [lia|].
  specialize (IH (n + 1) k' Hin). lia.
Qed.

Lemma restart_points_snoc kvs kv :
  restart_points (kvs ++ [kv]) =
    restart_points kvs ++ (if Z.rem (blen kvs) r =? 0 then [length kvs] else []).
Proof.
  unfold restart_points. rewrite length_app, Nat.add_comm. cbn [length Nat.add].
  rewrite seq_S, filter_app. cbn [Nat.add]. f_equal. unfold blen.
  rewrite filter_cons, filter_nil. destruct (Z.eqb_spec (Z.rem (Z.of_nat (length kvs)) r) 0);
    by case_decide.
Qed.

Lemma restart_points_elem kvs j :
  j ∈ restart_points kvs -> (j < length kvs)%nat /\ Z.rem (Z.of_nat j) r = 0.
Proof.
  unfold restart_points. rewrite list_elem_of_filter, elem_of_seq. intros [? ?]. split; [lia|done].
Qed.

Lemma restart_offs_snoc kvs kv :
  restart_offs (kvs ++ [kv]) =
    restart_offs kvs ++ (if Z.rem (blen kvs) r =? 0 then [blen (layout 0 [] kvs)] else []).
Proof.
  unfold restart_offs. rewrite restart_points_snoc, fmap_app. f_equal.
  - apply list_fmap_ext. intros i j Hj. apply list_elem_of_lookup_2, restart_points_elem in Hj.
    unfold start_of. by rewrite take_app_le by lia.
  - case_match; [|done]. cbn. unfold start_of. by rewrite take_app_length.
Qed.

Lemma restart_points_length kvs : (length (restart_points kvs) <= length kvs)%nat.
Proof. unfold restart_points. etrans; [apply length_filter|]. by rewrite length_seq. Qed.
End layout.

(** ** The writer *)

Record packed (r : Z) (w : blockWriter) (kvs : list (bytes * bytes)) : Prop := {
  packed_buf : buf w = layout r 0 [] kvs;
  packed_restarts : restarts w = restart_offs r kvs;
  packed_count : nEntries w = blen kvs;
  packed_interval : restartInterval w = r;
  packed_prev : prevKey w = last_key [] kvs }.

Lemma reset_packed w : packed (restartInterval w) (reset w) [].
Proof. by split. Qed.

Lemma new_packed r : packed r (newBlockWriter r) [].
Proof. by split. Qed.

Lemma add_packed r w kvs k v :
  packed r w kvs -> 0 < r -> blen (buf w) < 2 ^ 32 -> blen k < 2 ^ 63 -> blen v < 2 ^ 63 ->
  exists w', add w k v = Some w' /\ packed r w' (kvs ++ [(k, v)]).
Proof.
  intros Hw Hr Hb Hk Hv. unfold add.
  rewrite (packed_interval _ _ _ Hw), (proj2 (Z.eqb_neq r 0)) by lia.
  rewrite (packed_count _ _ _ Hw).
  pose proof (shared_at_bounds r (blen kvs) (prevKey w) k) as [Hs _].
  pose proof (blen_nonneg (buf w)). pose proof (blen_nonneg v).
  assert (Hpair : (if Z.rem (blen kvs) r =? 0
      then (restarts w ++ [u32 (blen (buf w))], 0)
      else (restarts w, sharedPrefix (prevKey w) k)) =
    (restart_offs r (kvs ++ [(k, v)]), shared_at r (blen kvs) (prevKey w) k)).
  { rewrite restart_offs_snoc, <- (packed_restarts _ _ _ Hw), <- (packed_buf _ _ _ Hw).
    unfold shared_at. case_match; [by rewrite u32_small by lia|by rewrite app_nil_r]. }
  rewrite Hpair. set (s := shared_at _ _ _ _) in *.
  rewrite !u64_small by lia. rewrite slice_from_drop by lia. cbn [mbind option_bind].
  eexists. split; [done|]. split; cbn [buf Block.restarts nEntries restartInterval prevKey].
  - rewrite layout_app, <- (packed_prev _ _ _ Hw), <- (packed_buf _ _ _ Hw), Z.add_0_l.
    cbn [layout]. rewrite app_nil_r. fold s. unfold entry_bytes. by rewrite <- !app_assoc.
  - done.
  - rewrite blen_app, blen_cons, blen_nil. lia.
  - done.
  - by rewrite last_key_snoc.
Qed.

Lemma foldl_put_le32 b rs :
  foldl (fun b x => b ++ put_le32 x) b rs = b ++ concat (put_le32 <$> rs).
Proof.
  revert b. induction rs as [|x rs IH]; intros b; cbn; [by rewrite app_nil_r|].
  by rewrite IH, <- app_assoc.
Qed.

Lemma finish_packed r w kvs :
  packed r w kvs -> blen kvs < 2 ^ 32 -> (finish w).2 = block_bytes r kvs.
Proof.
  intros Hw Hn. unfold finish, block_bytes. cbn [snd].
  rewrite foldl_put_le32, (packed_buf _ _ _ Hw), (packed_restarts _ _ _ Hw), <- app_assoc.
  rewrite u32_small; [done|]. unfold restart_offs. unfold blen in *. rewrite length_fmap.
  pose proof (restart_points_length r kvs). lia.
Qed.

Lemma blen_restart_bytes rs : blen (concat (put_le32 <$> rs)) = 4 * blen rs.
Proof.
  induction rs as [|x rs IH]; [done|]. cbn [fmap list_fmap concat].
  change (list_fmap _ _ put_le32 rs) with (put_le32 <$> rs).
  rewrite blen_app, IH, blen_put_le32, blen_cons. lia.
Qed.

Lemma estimatedSize_exact r w kvs :
  packed r w kvs -> estimatedSize w = blen (block_bytes r kvs).
Proof.
  intros Hw. unfold estimatedSize, block_bytes.
  rewrite (packed_buf _ _ _ Hw), (packed_restarts _ _ _ Hw), !blen_app, blen_restart_bytes, blen_put_le32.
  lia.
Qed.

(** ** The iterator as a cursor *)

Lemma take_uvarint_spec it a x c :
  It.data it = a ++ put_uvarint x ++ c -> It.offset it = blen a -> 0 <= x < 2 ^ 64 ->
  It.take_uvarint it =
    Some (It.set_offset it (blen a + blen (put_uvarint x)), Some x).
Proof.
  intros Hd Ho Hx. unfold It.take_uvarint. rewrite Hd, Ho, slice_from_app by done.
  cbn [mbind option_bind]. rewrite uvarint_put_app by done.
  pose proof (blen_put_uvarint x). by rewrite (proj2 (Z.leb_gt _ _)) by lia.
Qed.

Lemma shared_prefix_take r n prev k :
  take (Z.to_nat (shared_at r n prev k)) prev = take (Z.to_nat (shared_at r n prev k)) k.
Proof.
  unfold shared_at. case_match; [done|]. rewrite sharedPrefix_common, Nat2Z.id. apply common_take.
Qed.

(** One entry in the middle of a block. *)
Lemma next_entry it A T s k v :
  It.data it = A ++ entry_bytes s k v ++ T -> It.offset it = blen A -> blen A < It.restarts it ->
  blen A + blen (entry_bytes s k v) < 2 ^ 32 -> blen k < 2 ^ 32 -> 0 <= s <= blen k ->
  s <= blen (It.key it) -> take (Z.to_nat s) (It.key it) = take (Z.to_nat s) k ->
  It.next it = Some (It.mkIt (It.data it) (It.restarts it) (It.numRestarts it)
                       (blen A + blen (entry_bytes s k v)) k v true, true).
Proof.
  intros Hd Ho Hlt Hlim Hk Hs Hsk Htk. destruct it as [dat res num off key va ok].
  cbn [It.data It.offset It.restarts It.numRestarts It.key] in *. subst dat off.
  set (p1 := put_uvarint s). set (p2 := put_uvarint (blen k - s)). set (p3 := put_uvarint (blen v)).
  assert (He : entry_bytes s k v = p1 ++ p2 ++ p3 ++ drop (Z.to_nat s) k ++ v)
    by (unfold entry_bytes; by rewrite <- !app_assoc).
  set (B := A ++ p1 ++ p2 ++ p3). pose proof (blen_nonneg v) as Hv. pose proof (blen_nonneg A) as HA.
  assert (HBl : blen A + blen (entry_bytes s k v) = blen B + (blen k - s) + blen v).
  { unfold B. rewrite He, !blen_app, blen_drop by lia. lia. }
  pose proof (blen_nonneg B) as HB0.
  unfold It.next. cbn [It.restarts It.offset]. rewrite (proj2 (Z.leb_gt _ _) Hlt).
  rewrite (take_uvarint_spec _ A s (p2 ++ p3 ++ (drop (Z.to_nat s) k ++ v) ++ T));
    [|cbn [It.data]; rewrite He; by rewrite <- !app_assoc|done|lia].
  cbn [mbind option_bind]. unfold It.set_offset. cbn [It.data It.restarts It.numRestarts It.key It.val It.valid].
  rewrite (take_uvarint_spec _ (A ++ p1) (blen k - s) (p3 ++ (drop (Z.to_nat s) k ++ v) ++ T));
    [|cbn [It.data]; rewrite He; by rewrite <- !app_assoc|cbn [It.offset]; by rewrite blen_app|lia].
  cbn [mbind option_bind]. unfold It.set_offset. cbn [It.data It.restarts It.numRestarts It.key It.val It.valid].
  rewrite (take_uvarint_spec _ (A ++ p1 ++ p2) (blen v) ((drop (Z.to_nat s) k ++ v) ++ T));
    [|cbn [It.data]; rewrite He; by rewrite <- !app_assoc
     |cbn [It.offset]; rewrite !blen_app; unfold p1, p2; lia|lia].
  cbn [mbind option_bind]. unfold It.set_offset. cbn [It.data It.restarts It.numRestarts It.offset It.key It.val It.valid].
  rewrite (i64_small s), slice_prefix, Htk by lia. cbn [mbind option_bind].
  rewrite (i64_small (blen k - s)), (i64_small (blen v)) by lia.
  replace (blen (A ++ p1 ++ p2) + blen (put_uvarint (blen v))) with (blen B)
    by (unfold B; rewrite !blen_app; unfold p3; lia).
  replace (A ++ entry_bytes s k v ++ T) with (B ++ drop (Z.to_nat s) k ++ v ++ T)
    by (unfold B; rewrite He; by rewrite <- !app_assoc).
  rewrite !i64_small by lia.
  rewrite (slice_app_mid B (drop (Z.to_nat s) k) (v ++ T) (blen B)) by (rewrite ?blen_drop by lia; lia).
  cbn [mbind option_bind].
  rewrite (app_assoc B), (slice_app_mid (B ++ drop (Z.to_nat s) k) v T)
    by (rewrite ?blen_app, ?blen_drop by lia; lia).
  cbn [mbind option_bind]. by rewrite take_drop, HBl.
Qed.

Section cursor.
Variables (r : Z) (kvs : list (bytes * bytes)).
Hypothesis Hr : 0 < r.
Hypothesis Hfits : blen (block_bytes r kvs) < 2 ^ 32.

Record block_of (it : It.blockIterator) : Prop := {
  it_data : It.data it = block_bytes r kvs;
  it_restarts : It.restarts it = blen (layout r 0 [] kvs);
  it_num : It.numRestarts it = blen (restart_offs r kvs) }.

(** The next entry to decode is the first of [rest]. *)
Record positioned (it : It.blockIterator) (done rest : list (bytes * bytes)) : Prop := {
  pos_block : block_of it;
  pos_split : kvs = done ++ rest;
  pos_offset : It.offset it = blen (layout r 0 [] done);
  pos_key : Z.rem (blen done) r = 0 \/ It.key it = last_key [] done }.

(** What the iterator still shows. *)
Definition cursor (it : It.blockIterator) (l : list (bytes * bytes)) : Prop :=
  match l with
  | [] => It.valid it = false /\ block_of it /\ It.restarts it <= It.offset it
  | (k, v) :: rest =>
      It.valid it = true /\ It.key it = k /\ It.val it = v /\
      exists done, positioned it (done ++ [(k, v)]) rest
  end.

Definition more (l : list (bytes * bytes)) : bool := match l with [] => false | _ => true end.

Lemma layout_le_block : blen (layout r 0 [] kvs) <= blen (block_bytes r kvs) - 4.
Proof.
  unfold block_bytes. rewrite !blen_app, blen_restart_bytes, blen_put_le32.
  pose proof (blen_nonneg (restart_offs r kvs)). lia.
Qed.

Lemma entry_fits k v : (k, v) ∈ kvs -> blen k + blen v < 2 ^ 32.
Proof.
  intros Hin. pose proof (layout_fields r 0 [] kvs k v Hin). pose proof layout_le_block.
  rewrite blen_nil in *. lia.
Qed.

Lemma pos_in it done k v rest : positioned it done ((k, v) :: rest) -> (k, v) ∈ kvs.
Proof. intros H. rewrite (pos_split _ _ _ H). set_solver. Qed.

(** Decoding the next entry. *)
Lemma next_cons it done k v rest :
  positioned it done ((k, v) :: rest) ->
  exists it', It.next it = Some (it', true) /\ cursor it' ((k, v) :: rest).
Proof.
  intros H. pose proof (entry_fits k v (pos_in _ _ _ _ _ H)) as Hkv.
  destruct H as [[Hd Hre Hn] Hsp Ho Hkey].
  set (prev := last_key [] done) in *. set (s := shared_at r (blen done) prev k).
  pose proof (shared_at_bounds r (blen done) prev k) as [Hs Hs']. fold s in Hs, Hs'.
  pose proof (blen_nonneg v). pose proof (blen_nonneg (It.key it)). pose proof (blen_nonneg prev).
  assert (Hfull : layout r 0 [] kvs =
    layout r 0 [] done ++ entry_bytes s k v ++ layout r (blen done + 1) k rest).
  { rewrite Hsp, layout_app. cbn [layout]. by rewrite Z.add_0_l. }
  pose proof (entry_bytes_length s k v Hs) as Hel. pose proof layout_le_block as HL.
  pose proof (blen_nonneg (layout r (blen done + 1) k rest)).
  rewrite Hfull in Hre, HL. rewrite !blen_app in Hre, HL.
  eexists. split.
  - apply (next_entry it (layout r 0 [] done)
      (layout r (blen done + 1) k rest ++ concat (put_le32 <$> restart_offs r kvs) ++
       put_le32 (blen (restart_offs r kvs))) s k v); try done || lia.
    + rewrite Hd. unfold block_bytes. rewrite Hfull. by rewrite <- !app_assoc.
    + destruct Hkey as [Hz | ->]; [unfold s, shared_at; by rewrite Hz|lia].
    + destruct Hkey as [Hz | ->]; [unfold s, shared_at; by rewrite Hz|apply shared_prefix_take].
  - cbn [cursor It.valid It.key It.val]. do 3 (split; [done|]). exists done.
    split; cbn [It.offset It.key].
    + split; cbn; [done|by rewrite Hfull, !blen_app|done].
    + by rewrite <- app_assoc.
    + rewrite layout_app. cbn [layout]. rewrite Z.add_0_l. fold prev s. by rewrite app_nil_r, blen_app.
    + right. by rewrite last_key_snoc.
Qed.

Lemma positioned_next it done rest :
  positioned it done rest ->
  exists it', It.next it = Some (it', more rest) /\ cursor it' rest.
Proof.
  destruct rest as [|[k v] rest]; intros H; [|by apply (next_cons it done)].
  pose proof (pos_block _ _ _ H) as Hb. pose proof (pos_split _ _ _ H) as Hsp.
  rewrite app_nil_r in Hsp. unfold It.next.
  rewrite (it_restarts _ Hb), (pos_offset _ _ _ H), Hsp, Z.leb_refl.
  eexists. split; [done|]. split; [done|]. split; [by destruct Hb|].
  cbn. rewrite (it_restarts _ Hb), (pos_offset _ _ _ H), Hsp. done.
Qed.

Lemma next_cursor it l :
  cursor it l -> exists it', It.next it = Some (it', more (tail l)) /\ cursor it' (tail l).
Proof.
  destruct l as [|[k v] rest].
  - intros (Hv & Hb & Ho). unfold It.next. rewrite (proj2 (Z.leb_le _ _) Ho).
    eexists. split; [done|]. split; [done|]. split; [by destruct Hb|done].
  - intros (_ & _ & _ & done & H). by apply (positioned_next it (done ++ [(k, v)])).
Qed.

Lemma clear_positioned it off done rest :
  block_of it -> kvs = done ++ rest -> off = blen (layout r 0 [] done) ->
  Z.rem (blen done) r = 0 -> positioned (It.clear_key (It.set_offset it off)) done rest.
Proof. intros [Hd Hre Hn] Hsp -> Hz. split; [by split|done|done|by left]. Qed.

Lemma First_cursor it :
  block_of it -> exists it', It.First it = Some (it', more kvs) /\ cursor it' kvs.
Proof.
  intros Hb. unfold It.First. by apply (positioned_next _ []), clear_positioned.
Qed.

Lemma start_of_bounds j : 0 <= start_of r kvs j <= blen (layout r 0 [] kvs).
Proof.
  unfold start_of. pose proof (blen_nonneg (layout r 0 [] (take j kvs))).
  rewrite <- (take_drop j kvs) at 3. rewrite layout_app, blen_app.
  pose proof (blen_nonneg (layout r (0 + blen (take j kvs)) (last_key [] (take j kvs)) (drop j kvs))). lia.
Qed.

Lemma restart_count : blen (restart_offs r kvs) < 2 ^ 32.
Proof.
  pose proof layout_le_block. pose proof (layout_length r 0 [] kvs).
  pose proof (restart_points_length r kvs). unfold restart_offs. unfold blen in *.
  rewrite length_fmap. lia.
Qed.

Lemma newBlockIterator_block :
  exists it, It.newBlockIterator (block_bytes r kvs) = Some it /\ cursor it [].
Proof.
  pose proof restart_count as Hc. pose proof (blen_nonneg (restart_offs r kvs)) as Hc0.
  pose proof (blen_nonneg (layout r 0 [] kvs)) as Hl0.
  assert (Hlen : blen (block_bytes r kvs) =
    blen (layout r 0 [] kvs) + 4 * blen (restart_offs r kvs) + 4).
  { unfold block_bytes. rewrite !blen_app, blen_restart_bytes, blen_put_le32. lia. }
  unfold It.newBlockIterator. rewrite (proj2 (Z.ltb_ge _ _)) by lia.
  assert (Ht : slice_from (block_bytes r kvs) (blen (block_bytes r kvs) - 4) =
    Some (put_le32 (blen (restart_offs r kvs)))).
  { rewrite Hlen. unfold block_bytes. rewrite app_assoc. apply slice_from_app.
    rewrite blen_app, blen_restart_bytes. lia. }
  rewrite Ht. cbn [mbind option_bind].
  pose proof (get_put_le32 (blen (restart_offs r kvs)) [] ltac:(lia)) as Hg.
  rewrite app_nil_r in Hg. rewrite Hg. cbn [mbind option_bind]. rewrite Hlen.
  eexists. split; [done|]. split; [done|]. split; [split; cbn; lia || done|cbn; lia].
Qed.

(** ** Seeking *)

Lemma getRestart_at it i off :
  0 <= i -> block_of it -> restart_offs r kvs !! Z.to_nat i = Some off -> It.getRestart it i = Some off.
Proof.
  intros Hi0 [Hd Hre Hn] Hi. unfold It.getRestart. rewrite Hd, Hre. unfold block_bytes.
  pose proof (list_elem_of_lookup_2 _ _ _ Hi) as Hin.
  apply list_elem_of_fmap in Hin as (j & -> & _). pose proof (start_of_bounds j) as Hb.
  pose proof layout_le_block.
  set (n := put_le32 (blen _)). rewrite <- (take_drop_middle _ _ _ Hi).
  rewrite fmap_app, fmap_cons, concat_app. cbn [concat].
  rewrite (app_assoc (layout r 0 [] kvs)), <- !app_assoc, (app_assoc (layout r 0 [] kvs)).
  rewrite slice_from_app.
  - cbn [mbind option_bind]. apply get_put_le32. lia.
  - rewrite blen_app, blen_restart_bytes. apply lookup_lt_Some in Hi.
    unfold blen. rewrite length_take. lia.
Qed.

Lemma getRestart_empty it : block_of it -> restart_offs r kvs = [] -> It.getRestart it 0 = Some 0.
Proof.
  intros [Hd Hre Hn] He. unfold It.getRestart. rewrite Hd, Hre. unfold block_bytes. rewrite He.
  rewrite slice_from_app by lia. reflexivity.
Qed.

Lemma decodeKeyAt_restart it j k v :
  block_of it -> j ∈ restart_points r kvs -> kvs !! j = Some (k, v) ->
  It.decodeKeyAt it (start_of r kvs j) = Some k.
Proof.
  intros [Hd Hre Hn] Hj Hk. apply restart_points_elem in Hj as [Hj Hz].
  pose proof (entry_fits k v (list_elem_of_lookup_2 _ _ _ Hk)) as Hkv.
  pose proof (blen_nonneg k) as Hk0. pose proof (blen_nonneg v) as Hv0.
  pose proof (start_of_bounds j) as Hb. pose proof layout_le_block as HL.
  assert (Htj : blen (take j kvs) = Z.of_nat j) by (unfold blen; rewrite length_take; lia).
  set (A := layout r 0 [] (take j kvs)). set (p2 := put_uvarint (blen k)). set (p3 := put_uvarint (blen v)).
  assert (Hdat : exists T, It.data it = A ++ put_uvarint 0 ++ p2 ++ p3 ++ k ++ T).
  { pose proof (layout_app r 0 [] (take j kvs) ((k, v) :: drop (S j) kvs)) as Hl.
    rewrite (take_drop_middle _ _ _ Hk), Htj in Hl. cbn [layout] in Hl. unfold shared_at in Hl.
    rewrite Z.add_0_l, Hz, Z.eqb_refl in Hl. unfold entry_bytes in Hl. rewrite Z.sub_0_r in Hl.
    rewrite Hd. unfold block_bytes. rewrite Hl. eexists. by rewrite <- !app_assoc. }
  destruct Hdat as [T Hdat]. unfold It.decodeKeyAt. rewrite Hdat.
  change (start_of r kvs j) with (blen A) in *.
  assert (HkL : blen A + blen k + 30 < 2 ^ 34) by lia.
  rewrite slice_from_app by done. cbn [mbind option_bind].
  rewrite (uvarint_put_app 0) by lia. change (blen (put_uvarint 0)) with 1.
  rewrite (app_assoc A), (slice_from_app (A ++ put_uvarint 0)) by (rewrite blen_app; done).
  cbn [mbind option_bind]. unfold p2. rewrite (uvarint_put_app (blen k)) by lia. fold p2.
  rewrite (app_assoc (A ++ _)), (slice_from_app ((A ++ put_uvarint 0) ++ p2))
    by (rewrite !blen_app; done).
  cbn [mbind option_bind]. unfold p3. rewrite (uvarint_put_app (blen v)) by lia. fold p3.
  rewrite (app_assoc ((A ++ _) ++ _)).
  pose proof (blen_put_uvarint (blen k)) as P2. pose proof (blen_put_uvarint (blen v)) as P3.
  fold p2 in P2. fold p3 in P3. rewrite (i64_small (blen k)), i64_small by lia.
  apply slice_app_mid; rewrite !blen_app; change (blen (put_uvarint 0)) with 1; lia.
Qed.

(** The pair at a restart point is below the target. *)
Definition below_at (target : bytes) (i : Z) : Prop :=
  exists j p, restart_points r kvs !! Z.to_nat i = Some j /\ kvs !! j = Some p /\ blt p.1 target.

Lemma search_spec fuel it target lo hi :
  block_of it -> 0 <= lo <= hi -> hi <= blen (restart_points r kvs) ->
  (Z.to_nat (hi - lo) <= fuel)%nat -> (lo = 0 \/ below_at target (lo - 1)) ->
  exists x, It.search fuel it target lo hi = Some x /\ 0 <= x <= blen (restart_points r kvs) /\
    (x = 0 \/ below_at target (x - 1)).
Proof.
  intros Hb. revert lo hi. induction fuel as [|f IH]; intros lo hi Hlo Hhi Hf Hbel; cbn [It.search].
  - rewrite (proj2 (Z.ltb_ge _ _)) by lia. exists lo. split; [done|]. split; [lia|done].
  - destruct (Z.ltb_spec lo hi) as [Hlt|]; [|exists lo; split; [done|]; split; [lia|done]].
    set (mid := lo + Z.quot (hi - lo) 2).
    assert (Hm : lo <= mid < hi).
    { unfold mid. rewrite Z.quot_div_nonneg by lia.
      pose proof (Z.div_pos (hi - lo) 2). pose proof (Z.div_lt_upper_bound (hi - lo) 2 (hi - lo)). lia. }
    destruct (lookup_lt_is_Some_2 (restart_points r kvs) (Z.to_nat mid)) as [j Hj];
      [unfold blen in *; lia|].
    pose proof (list_elem_of_lookup_2 _ _ _ Hj) as Hin.
    destruct (restart_points_elem r kvs j Hin) as [Hjl _].
    destruct (lookup_lt_is_Some_2 kvs j Hjl) as [[k v] Hk].
    rewrite (getRestart_at it mid (start_of r kvs j) ltac:(lia) Hb)
      by (unfold restart_offs; rewrite list_lookup_fmap, Hj; done).
    cbn [mbind option_bind]. rewrite (decodeKeyAt_restart it j k v Hb Hin Hk). cbn [mbind option_bind].
    rewrite compareBytes_lt. case_bool_decide as Hc; apply IH; try lia.
    + right. exists j, (k, v). split_and!; [by rewrite Z.add_simpl_r|done|done].
    + exact Hbel.
Qed.

Lemma scan_spec fuel it done rest target :
  ascending kvs -> positioned it done rest -> Forall (fun p => blt p.1 target) done ->
  (length rest < fuel)%nat ->
  exists it', It.scan fuel it target = Some (it', more (suffix_from target kvs)) /\
    cursor it' (suffix_from target kvs).
Proof.
  intros Ha. revert it done rest. induction fuel as [|f IH]; intros it done rest H Hlt Hf; [lia|].
  cbn [It.scan]. destruct (positioned_next it done rest H) as (it' & Hn & Hc). rewrite Hn.
  cbn [mbind option_bind]. pose proof (pos_split _ _ _ H) as Hsp. destruct rest as [|[k v] rest].
  - cbn [more]. rewrite Hsp, app_nil_r, suffix_from_none by done. eexists. split; [done|].
    destruct Hc as (Hv & Hb & Ho). split; [done|]. split; [by destruct Hb|done].
  - cbn [more]. destruct Hc as (Hv & Hk & Hva & done' & Hp). rewrite Hk, compareBytes_ge.
    assert (done' = done) as ->.
    { pose proof (pos_split _ _ _ Hp) as H2. rewrite Hsp, <- app_assoc in H2.
      by apply (inj (.++ (k, v) :: rest)) in H2. }
    case_bool_decide as Hle.
    + rewrite Hsp, (suffix_from_here target done (k, v) rest) by (rewrite <- ?Hsp; done).
      eexists. split; [done|]. split_and!; [done..|]. by exists done.
    + apply (IH it' (done ++ [(k, v)]) rest); [done| |cbn in Hf; lia].
      apply Forall_app. split; [done|]. constructor; [by apply not_ble|constructor].
Qed.

(** The restart point the scan starts from: no pair before it is wanted. *)
Lemma start_restart it target x :
  ascending kvs -> block_of it -> 0 <= x -> (x = 0 \/ below_at target (x - 1)) ->
  exists j, It.getRestart it (if x - 1 <? 0 then 0 else x - 1) = Some (start_of r kvs j) /\
    Z.rem (blen (take j kvs)) r = 0 /\ Forall (fun p => blt p.1 target) (take j kvs).
Proof.
  intros Ha Hb Hx Hbel. set (start := if _ <? _ then _ else _).
  destruct (decide (x = 0)) as [->|Hne].
  - assert (start = 0) as -> by done. exists O. split_and!; [|by rewrite Z.rem_0_l by lia|constructor].
    destruct (restart_points r kvs) as [|j pts] eqn:E.
    + rewrite getRestart_empty; [done..|]. unfold restart_offs. by rewrite E.
    + apply (getRestart_at it 0 _ ltac:(lia) Hb). unfold restart_offs. rewrite E. cbn. do 2 f_equal.
      unfold restart_points in E. destruct kvs as [|p l]; [done|]. cbn [length seq] in E.
      rewrite filter_cons in E. cbn [Z.of_nat] in E. rewrite decide_True in E by (by rewrite Z.rem_0_l by lia).
      by injection E as <-.
  - destruct Hbel as [|(j & p & Hj & Hp & Hlt)]; [done|]. exists j.
    assert (start = x - 1) as -> by (unfold start; by rewrite (proj2 (Z.ltb_ge _ _)) by lia).
    pose proof (restart_points_elem r kvs j (list_elem_of_lookup_2 _ _ _ Hj)) as [Hjl Hz].
    split_and!.
    + apply (getRestart_at _ (x - 1)); [lia|exact Hb|].
      unfold restart_offs. by rewrite list_lookup_fmap, Hj.
    + unfold blen. rewrite length_take. by replace (j `min` length kvs)%nat with j by lia.
    + rewrite <- (take_drop_middle _ _ _ Hp) in Ha. apply ascending_app in Ha as (_ & _ & Hall).
      eapply Forall_impl; [exact Hall|]. cbn. intros q Hq.
      apply Forall_cons in Hq as [Hq _]. eauto with iw.
Qed.

Lemma SeekGE_cursor it target :
  ascending kvs -> block_of it ->
  exists it', It.SeekGE it target = Some (it', more (suffix_from target kvs)) /\
    cursor it' (suffix_from target kvs).
Proof.
  intros Ha Hb. unfold It.SeekGE. rewrite (it_num _ Hb).
  assert (Hlen : blen (restart_offs r kvs) = blen (restart_points r kvs))
    by (unfold restart_offs, blen; by rewrite length_fmap).
  destruct (search_spec (Z.to_nat (blen (restart_offs r kvs))) it target 0 (blen (restart_offs r kvs)) Hb)
    as (x & Hs & Hx & Hbel); [pose proof (blen_nonneg (restart_offs r kvs)); lia|lia|lia|by left|].
  rewrite Hs. cbn [mbind option_bind].
  destruct (start_restart it target x Ha Hb ltac:(lia) Hbel) as (j & Hg & Hz & Hlt).
  rewrite Hg. cbn [mbind option_bind].
  apply (scan_spec _ _ (take j kvs) (drop j kvs)); [done| |done|].
  - apply clear_positioned; [done|by rewrite take_drop|done|done].
  - rewrite (it_data _ Hb). pose proof layout_le_block. pose proof (layout_length r 0 [] kvs).
    unfold blen in *. rewrite length_drop. lia.
Qed.

Lemma collect_cursor fuel it l :
  cursor it l -> (length l < fuel)%nat -> It.collect fuel it = Some l.
Proof.
  revert it l. induction fuel as [|f IH]; intros it l Hc Hf; [lia|]. cbn [It.collect].
  unfold It.Valid, It.Key, It.Value. destruct l as [|[k v] rest]; [by destruct Hc as [-> _]|].
  destruct (next_cursor _ _ Hc) as (it' & Hn & Hc'). destruct Hc as (-> & -> & -> & _).
  rewrite Hn. cbn [mbind option_bind tail] in *. rewrite (IH it' rest Hc') by (cbn in Hf; lia). done.
Qed.
End cursor.

(** ** Building a block *)

(** What a list of pairs can take in a block at most. *)
Definition payload (kvs : list (bytes * bytes)) : Z :=
  foldr (fun kv s => blen kv.1 + blen kv.2 + 34 + s) 4 kvs.

Lemma layout_payload r n prev kvs : blen (layout r n prev kvs) + 4 * blen kvs + 4 <= payload kvs.
Proof.
  revert n prev. induction kvs as [|[k v] kvs IH]; intros n prev; [done|].
  cbn [layout payload foldr fst snd]. fold (payload kvs). specialize (IH (n + 1) k).
  pose proof (shared_at_bounds r n prev k) as [Hs _]. unfold entry_bytes.
  rewrite !blen_app, blen_cons, blen_drop by lia.
  pose proof (blen_put_uvarint (shared_at r n prev k)).
  pose proof (blen_put_uvarint (blen k - shared_at r n prev k)).
  pose proof (blen_put_uvarint (blen v)). lia.
Qed.

Lemma block_payload r kvs : blen (block_bytes r kvs) <= payload kvs.
Proof.
  pose proof (layout_payload r 0 [] kvs). pose proof (restart_points_length r kvs).
  unfold block_bytes, restart_offs. rewrite !blen_app, blen_restart_bytes, blen_put_le32.
  unfold blen in *. rewrite length_fmap. lia.
Qed.

Lemma payload_app l1 l2 : payload (l1 ++ l2) = payload l1 + payload l2 - 4.
Proof.
  induction l1 as [|kv l1 IH]; [change (payload []) with 4; cbn [app]; lia|].
  cbn [app payload foldr]. fold (payload (l1 ++ l2)). fold (payload l1). lia.
Qed.

Lemma payload_min kvs : 4 <= payload kvs.
Proof.
  induction kvs as [|kv kvs IH]; [done|]. cbn [payload foldr]. fold (payload kvs).
  pose proof (blen_nonneg kv.1). pose proof (blen_nonneg kv.2). lia.
Qed.

Lemma add_all_snoc w l kv : add_all w (l ++ [kv]) = w ← add_all w l; add w kv.1 kv.2.
Proof. unfold add_all. by rewrite foldl_app. Qed.

Lemma add_all_packed r kvs :
  0 < r -> payload kvs < 2 ^ 32 ->
  exists w, add_all (newBlockWriter r) kvs = Some w /\ packed r w kvs.
Proof.
  intros Hr. induction kvs as [|[k v] kvs IH] using rev_ind; intros Hp.
  - eexists. split; [done|apply new_packed].
  - rewrite payload_app in Hp. pose proof (payload_min kvs).
    change (payload [(k, v)]) with (blen k + blen v + 34 + 4) in Hp.
    pose proof (blen_nonneg k). pose proof (blen_nonneg v).
    destruct IH as (w & Hw & Hpk); [lia|]. rewrite add_all_snoc, Hw.
    apply (add_packed r w kvs k v Hpk Hr); try lia.
    rewrite (packed_buf _ _ _ Hpk). pose proof (layout_payload r 0 [] kvs).
    pose proof (blen_nonneg kvs). lia.
Qed.

(** C23: Blocks round-trip and seek.  Whatever pairs are added to a block, for
    every restart interval, iterating the finished block gives exactly those
    pairs in order; and when the keys ascend, [SeekGE] succeeds exactly when
    some key is at or after the target and leaves the iterator at the first
    such pair with all later ones to come, as a linear search would.  Nothing
    panics and no loop runs out of rounds; [estimatedSize] is the exact size
    of the finished block. *)
Theorem block_roundtrip (r : Z) (kvs : list (bytes * bytes)) :
  0 < r -> payload kvs < 2 ^ 32 ->
  exists w, add_all (newBlockWriter r) kvs = Some w /\
    let data := (finish w).2 in
    blen data = estimatedSize w /\
    It.entries data = Some kvs /\
    (ascending kvs -> forall target, exists it it',
       It.newBlockIterator data = Some it /\
       It.SeekGE it target = Some (it', more (suffix_from target kvs)) /\
       It.collect (S (length kvs)) it' = Some (suffix_from target kvs)).
Proof.
  intros Hr Hp. destruct (add_all_packed r kvs Hr Hp) as (w & Hw & Hpk). exists w.
  split; [done|]. pose proof (block_payload r kvs) as Hbp. pose proof (layout_payload r 0 [] kvs) as Hlp.
  pose proof (blen_nonneg (layout r 0 [] kvs)) as Hl0.
  cbn zeta. rewrite (finish_packed r w kvs Hpk) by lia.
  split; [by rewrite (estimatedSize_exact r w kvs Hpk)|].
  assert (Hfit : blen (block_bytes r kvs) < 2 ^ 32) by lia.
  destruct (newBlockIterator_block r kvs Hfit) as (it & Hn & Hc). pose proof Hc as (_ & Hb & _). split.
  - unfold It.entries. rewrite Hn. cbn [mbind option_bind].
    destruct (First_cursor r kvs Hr Hfit it Hb) as (it' & HF & Hc'). rewrite HF. cbn [mbind option_bind].
    apply (collect_cursor r kvs Hr Hfit _ _ _ Hc').
    pose proof (layout_length r 0 [] kvs). pose proof (layout_le_block r kvs). unfold blen in *. lia.
  - intros Ha target. destruct (SeekGE_cursor r kvs Hr Hfit it target Ha Hb) as (it' & HS & Hc').
    exists it, it'. split_and!; [done..|]. apply (collect_cursor r kvs Hr Hfit _ _ _ Hc').
    destruct (suffix_from_suffix target kvs Ha) as [l1 Hl]. rewrite Hl at 2. rewrite length_app. lia.
Qed.

Lemma block_roundtrip_witness :
  payload [([x61], [x31]); ([x61; x62], [])] < 2 ^ 32 /\
  exists w, add_all (newBlockWriter 2) [([x61], [x31]); ([x61; x62], [])] = Some w /\
    It.entries (finish w).2 = Some [([x61], [x31]); ([x61; x62], [])].
Proof.
  split; [vm_compute; reflexivity|].
  destruct (block_roundtrip 2 [([x61], [x31]); ([x61; x62], [])] ltac:(lia)
    ltac:(vm_compute; reflexivity)) as (w & Hw & _ & He & _).
  exists w. exact (conj Hw He).
Defined.

(** The two-speed loop of [sharedPrefix] is the longest common prefix: the
    arguments agree up to it and differ, or one of them ends, right after. *)
Theorem sharedPrefix_longest (a b : bytes) :
  let n := Z.to_nat (sharedPrefix a b) in
  0 <= sharedPrefix a b /\ take n a = take n b /\ (n <= length a)%nat /\ (n <= length b)%nat /\
  forall p, p `prefix_of` a -> p `prefix_of` b -> (length p <= n)%nat.
Proof.
  cbn zeta. rewrite sharedPrefix_common, Nat2Z.id. split; [lia|]. split; [apply common_take|].
  pose proof (common_le a b) as [Ha Hb]. split_and!; [done..|].
  clear Ha Hb. revert b. induction a as [|x a IH]; intros b p Hpa Hpb.
  - apply prefix_nil_inv in Hpa as ->. cbn. lia.
  - destruct p as [|y p]; [cbn; lia|]. destruct b as [|z b]; [by apply prefix_nil_inv in Hpb|].
    pose proof (prefix_cons_inv_1 _ _ _ _ Hpa) as ->. pose proof (prefix_cons_inv_1 _ _ _ _ Hpb) as ->.
    cbn. rewrite bool_decide_eq_true_2 by done. apply le_n_S, IH; by eapply prefix_cons_inv_2.
Qed.
