(* ===== verification/Bloom.v ===== *)
(** The Bloom filter of a table ([pkg/lsm/sstable/bloom.go]): 32-bit hashes of
    the keys, spread over cache lines of 64 bytes.

    A key that was added is always reported as possibly present.  The number
    of probes is computed in floating point; the model uses the binary64
    arithmetic of the standard library. *)
From Stdlib Require Import Floats.SpecFloat.
From S2P Require Import Prelude Binary Io.

#[local] Open Scope Z_scope.

(** ** Hashing *)

Definition bloom_m : Z := 0xc6a4a793.

(** [uint32(int8(c))]. *)
Definition int8_u32 (c : byte) : Z := u32 (if b2z c <? 128 then b2z c else b2z c - 256).

(** The loop over chunks of four bytes, entered with the rest of the key. *)
Fixpoint bloomHash_loop (fuel : nat) (key : bytes) (h : Z) : bytes * Z :=
  match fuel with
  | O => (key, h)
  | S fuel =>
      if 4 <=? blen key then
        let h := u32 (h + le_value (take 4 key)) in
        let h := u32 (h * bloom_m) in
        let h := Z.lxor h (Z.shiftr h 16) in
        bloomHash_loop fuel (drop 4 key) h
      else (key, h)
  end.

(** The [case 1] branch; longer tails fall through to it. *)
Definition bloomHash_last (c : byte) (h : Z) : Z :=
  let h := u32 (h + int8_u32 c) in
  let h := u32 (h * bloom_m) in
  Z.lxor h (Z.shiftr h 24).

Definition bloomHash (key : bytes) : Z :=
  let h := Z.lxor 0xbc9f1d34 (u32 (u64 (blen key * bloom_m))) in
  let '(rest, h) := bloomHash_loop (length key) key h in
  match rest with
  | [a; b; c] =>
      bloomHash_last a (u32 (u32 (h + u32 (Z.shiftl (int8_u32 c) 16)) + u32 (Z.shiftl (int8_u32 b) 8)))
  | [a; b] => bloomHash_last a (u32 (h + u32 (Z.shiftl (int8_u32 b) 8)))
  | [a] => bloomHash_last a h
  | _ => h
  end.

(** ** Sizes *)

Definition cacheLineSize : Z := 64.
Definition cacheLineBits : Z := 512.

(** [float64(n)], [math.Ln2] as a [float64], and [int(f)] for a float in the
    range of [int]. *)
Definition float64 (n : Z) : spec_float := binary_normalize 53 1024 n 0 false.
Definition Ln2 : spec_float := S754_finite false 0x162E42FEFA39EF (-53).
Definition int_of (f : spec_float) : Z :=
  match f with
  | S754_finite s m e =>
      let a := if 0 <=? e then Z.shiftl (Z.pos m) e else Z.shiftr (Z.pos m) (- e) in
      if s then - a else a
  | _ => 0
  end.

Definition calcNumProbes (bitsPerKey : Z) : Z :=
  let n := int_of (SFmul 53 1024 (float64 bitsPerKey) Ln2) in
  let n := if n <? 1 then 1 else n in
  if 30 <? n then 30 else n.

Definition calcNLines (numKeys bitsPerKey : Z) : Z :=
  let nBits := i64 (numKeys * bitsPerKey) in
  let nLines := Z.quot (i64 (nBits + cacheLineBits - 1)) cacheLineBits in
  let nLines := if nLines <? 1 then 1 else nLines in
  if Z.rem nLines 2 =? 0 then nLines + 1 else nLines.

(** ** The writer *)

Record bloomFilterWriter : Type := mkBloomWriter { hashes : list Z; bitsPerKey : Z }.

Definition newBloomFilterWriter (bpk : Z) : bloomFilterWriter := mkBloomWriter [] bpk.
Definition addKey (w : bloomFilterWriter) (key : bytes) : bloomFilterWriter :=
  mkBloomWriter (hashes w ++ [bloomHash key]) (bitsPerKey w).
Definition reset (w : bloomFilterWriter) : bloomFilterWriter := mkBloomWriter [] (bitsPerKey w).

(** [(h >> 17) | (h << 15)]. *)
Definition delta_of (h : Z) : Z := Z.lor (Z.shiftr h 17) (u32 (Z.shiftl h 15)).

(** [buf[i] |= 1 << bit]. *)
Definition set_bit (buf : bytes) (i bit : Z) : option bytes :=
  x ← index buf i; Some (<[Z.to_nat i := z2b (Z.lor (b2z x) (Z.shiftl 1 bit))]> buf).

Fixpoint set_probes (n : nat) (buf : bytes) (lineOff h delta : Z) : option bytes :=
  match n with
  | O => Some buf
  | S n =>
      let byteIdx := Z.rem (h / 8) cacheLineSize in
      let bitIdx := Z.rem h 8 in
      buf ← set_bit buf (lineOff + byteIdx) bitIdx;
      set_probes n buf lineOff (u32 (h + delta)) delta
  end.

Fixpoint set_hashes (hs : list Z) (buf : bytes) (numProbes nLines : Z) : option bytes :=
  match hs with
  | [] => Some buf
  | h :: hs =>
      if u32 nLines =? 0 then None
      else
        let lineOff := Z.rem h (u32 nLines) * cacheLineSize in
        buf ← set_probes (Z.to_nat numProbes) buf lineOff h (delta_of h);
        set_hashes hs buf numProbes nLines
  end.

(** [finish]: [Some None] is the nil slice of an empty filter. *)
Definition finish (w : bloomFilterWriter) : option (option bytes) :=
  if blen (hashes w) =? 0 then Some None
  else
    let numProbes := calcNumProbes (bitsPerKey w) in
    let nLines := calcNLines (blen (hashes w)) (bitsPerKey w) in
    let filterSize := i64 (nLines * cacheLineSize) in
    if filterSize + 5 <? 0 then None
    else
      buf ← set_hashes (hashes w) (replicate (Z.to_nat (filterSize + 5)) x00) numProbes nLines;
      let buf := <[Z.to_nat filterSize := z2b numProbes]> buf in
      buf ← copy_at buf (filterSize + 1) (put_le32 (u32 nLines));
      Some (Some buf).

(** ** The reader *)

Record bloomFilter : Type := mkBloom { data : bytes; numProbes : Z; nLines : Z }.

Definition decodeBloomFilter (data : bytes) : option (option bloomFilter) :=
  if blen data <? 5 then Some None
  else
    p ← index data (blen data - 5);
    tail ← slice_from data (blen data - 4);
    nLines ← get_le32 tail;
    filterData ← slice data 0 (blen data - 5);
    if negb (blen filterData =? nLines * cacheLineSize) then Some None
    else Some (Some (mkBloom filterData (b2z p) nLines)).

Fixpoint test_probes (n : nat) (data : bytes) (lineOff h delta : Z) : option bool :=
  match n with
  | O => Some true
  | S n =>
      let byteIdx := Z.rem (h / 8) cacheLineSize in
      let bitIdx := Z.rem h 8 in
      x ← index data (lineOff + byteIdx);
      if Z.land (b2z x) (Z.shiftl 1 bitIdx) =? 0 then Some false
      else test_probes n data lineOff (u32 (h + delta)) delta
  end.

Definition mayContain (f : option bloomFilter) (key : bytes) : option bool :=
  match f with
  | None => Some true
  | Some f =>
      if nLines f =? 0 then Some true
      else
        let h := bloomHash key in
        let lineOff := Z.rem h (u32 (nLines f)) * cacheLineSize in
        test_probes (Z.to_nat (numProbes f)) (data f) lineOff h (delta_of h)
  end.

(** ** Lemmas *)

Lemma calcNumProbes_bounds b : 1 <= calcNumProbes b <= 30.
Proof.
  unfold calcNumProbes. set (n := int_of _). destruct (n <? 1) eqn:E1; [change (30 <? 1) with false; lia|].
  destruct (30 <? n) eqn:E2; bool_hyps; lia.
Qed.

Lemma calcNLines_bounds n b :
  0 <= n -> 0 <= b -> n * b < 2 ^ 40 -> 1 <= calcNLines n b < 2 ^ 32 - 1.
Proof.
  intros Hn Hb Hnb. unfold calcNLines, cacheLineBits.
  rewrite (i64_small (n * b)), i64_small by lia.
  pose proof (Z.quot_pos (n * b + 512 - 1) 512 ltac:(lia) ltac:(lia)).
  assert (Z.quot (n * b + 512 - 1) 512 < 2 ^ 32 - 2) by (rewrite Z.quot_div_nonneg by lia; apply Z.div_lt_upper_bound; lia).
  destruct (_ <? 1) eqn:E; [change (Z.rem 1 2 =? 0) with false; lia|]. bool_hyps. case_match; lia.
Qed.

Lemma u32_hash_loop fuel key h :
  0 <= h < 2 ^ 32 -> 0 <= (bloomHash_loop fuel key h).2 < 2 ^ 32.
Proof.
  revert key h. induction fuel as [|f IH]; intros key h Hh; cbn [bloomHash_loop]; [done|].
  case_match; [|done]. apply IH. pose proof (u32_bounds (u32 (h + le_value (take 4 key)) * bloom_m)) as Hb.
  apply (lxor_bounds _ _ 32); [lia|done|]. split; [apply Z.shiftr_nonneg; lia|].
  eapply Z.le_lt_trans; [|apply Hb]. rewrite Z.shiftr_div_pow2 by lia.
  apply Z.div_le_upper_bound; lia.
Qed.

Lemma bloomHash_last_bounds c h : 0 <= bloomHash_last c h < 2 ^ 32.
Proof.
  unfold bloomHash_last. set (x := u32 (_ * _)). pose proof (u32_bounds (u32 (h + int8_u32 c) * bloom_m)) as Hb.
  fold x in Hb. apply (lxor_bounds _ _ 32); [lia|done|]. split; [apply Z.shiftr_nonneg; lia|].
  eapply Z.le_lt_trans; [|apply Hb]. rewrite Z.shiftr_div_pow2 by lia.
  apply Z.div_le_upper_bound; lia.
Qed.

Lemma bloomHash_bounds key : 0 <= bloomHash key < 2 ^ 32.
Proof.
  unfold bloomHash. set (h0 := Z.lxor _ _).
  assert (Hh : 0 <= h0 < 2 ^ 32) by (apply (lxor_bounds _ _ 32); [lia|lia|apply u32_bounds]).
  pose proof (u32_hash_loop (length key) key h0 Hh) as Hb.
  destruct (bloomHash_loop _ _ _) as [rest h]. cbn [snd] in Hb.
  destruct rest as [|a [|b [|c [|]]]]; try done; apply bloomHash_last_bounds.
Qed.

(** Bit [bit] of byte [i] is set. *)
Definition has_bit (buf : bytes) (i bit : Z) : Prop :=
  exists x, index buf i = Some x /\ Z.testbit (b2z x) bit = true.

Lemma index_insert (b : bytes) i j x :
  0 <= i < blen b -> 0 <= j ->
  index (<[Z.to_nat i := x]> b) j = if bool_decide (j = i) then Some x else index b j.
Proof.
  intros Hi Hj. unfold index. rewrite (proj2 (Z.leb_le 0 j)) by lia. case_bool_decide as E.
  - subst j. apply list_lookup_insert_eq. unfold blen in Hi. lia.
  - apply list_lookup_insert_ne. lia.
Qed.

Lemma index_Some {A} (b : list A) i : 0 <= i < blen b -> exists x, index b i = Some x.
Proof.
  intros Hi. unfold index. rewrite (proj2 (Z.leb_le 0 i)) by lia.
  apply lookup_lt_is_Some_2. unfold blen in Hi. lia.
Qed.

Lemma index_nonneg {A} (b : list A) i x : index b i = Some x -> 0 <= i.
Proof. unfold index. case_match; [|done]. bool_hyps. lia. Qed.

Lemma set_bit_spec buf i bit :
  0 <= i < blen buf -> 0 <= bit < 8 ->
  exists buf', set_bit buf i bit = Some buf' /\ blen buf' = blen buf /\ has_bit buf' i bit /\
    forall j c, 0 <= c < 8 -> has_bit buf j c -> has_bit buf' j c.
Proof.
  intros Hi Hbit. destruct (index_Some buf i Hi) as [x Hx]. unfold set_bit. rewrite Hx.
  cbn [mbind option_bind]. eexists. split; [done|].
  assert (Hsh : 0 <= Z.shiftl 1 bit < 2 ^ 8).
  { rewrite Z.shiftl_1_l. split; [apply Z.pow_nonneg; lia|]. apply Z.pow_lt_mono_r; lia. }
  pose proof (lor_bounds (b2z x) _ 8 ltac:(lia) (b2z_bounds x) Hsh) as Hlb.
  split; [unfold blen; by rewrite length_insert|]. split.
  - exists (z2b (Z.lor (b2z x) (Z.shiftl 1 bit))).
    rewrite index_insert, bool_decide_eq_true_2 by lia. split; [done|].
    rewrite b2z_z2b_small by lia. rewrite Z.lor_spec, Z.shiftl_1_l, Z.pow2_bits_true by lia.
    apply orb_true_r.
  - intros j c Hc (y & Hy & Hb). pose proof (index_nonneg _ _ _ Hy).
    unfold has_bit. rewrite index_insert by lia. case_bool_decide as E; [|by exists y].
    subst j. rewrite Hx in Hy. injection Hy as ->. eexists. split; [done|].
    rewrite b2z_z2b_small by lia. by rewrite Z.lor_spec, Hb.
Qed.

(** All probe positions of a hash are set. *)
Fixpoint probed (n : nat) (buf : bytes) (lineOff h delta : Z) : Prop :=
  match n with
  | O => True
  | S n => has_bit buf (lineOff + Z.rem (h / 8) cacheLineSize) (Z.rem h 8) /\
      probed n buf lineOff (u32 (h + delta)) delta
  end.

Lemma bit_range h : 0 <= h -> 0 <= Z.rem h 8 < 8 /\ 0 <= Z.rem (h / 8) cacheLineSize < cacheLineSize.
Proof.
  intros Hh. unfold cacheLineSize. pose proof (Z.div_pos h 8 Hh ltac:(lia)).
  rewrite !Z.rem_mod_nonneg by lia. split; apply Z.mod_pos_bound; lia.
Qed.

Lemma probed_mono n buf buf' lineOff h delta :
  0 <= h -> (forall j c, 0 <= c < 8 -> has_bit buf j c -> has_bit buf' j c) ->
  probed n buf lineOff h delta -> probed n buf' lineOff h delta.
Proof.
  intros Hh Hm. revert h Hh. induction n as [|n IH]; intros h Hh; cbn; [done|]. intros [H1 H2].
  split; [apply Hm; [by apply bit_range|done]|]. apply IH; [apply u32_bounds|done].
Qed.

Lemma set_probes_spec n buf lineOff h delta :
  0 <= h -> 0 <= lineOff -> lineOff + cacheLineSize <= blen buf ->
  exists buf', set_probes n buf lineOff h delta = Some buf' /\ blen buf' = blen buf /\
    probed n buf' lineOff h delta /\
    forall j c, 0 <= c < 8 -> has_bit buf j c -> has_bit buf' j c.
Proof.
  revert buf h. induction n as [|n IH]; intros buf h Hh Ho Hl; cbn [set_probes probed];
    [by eexists|].
  destruct (bit_range h Hh) as [Hb Hi].
  destruct (set_bit_spec buf (lineOff + Z.rem (h / 8) cacheLineSize) (Z.rem h 8) ltac:(lia) Hb)
    as (b1 & -> & Hl1 & Hs1 & Hm1). cbn [mbind option_bind].
  destruct (IH b1 (u32 (h + delta))) as (b2 & -> & Hl2 & Hs2 & Hm2); [apply u32_bounds|lia|lia|].
  exists b2. split; [done|]. split; [lia|]. split; [|auto]. split; [by apply Hm2|done].
Qed.

Definition line_of (h nLines : Z) : Z := Z.rem h (u32 nLines) * cacheLineSize.

Lemma line_of_bounds h n : 0 <= h -> 1 <= n < 2 ^ 32 ->
  0 <= line_of h n /\ line_of h n + cacheLineSize <= n * cacheLineSize.
Proof.
  intros Hh Hn. unfold line_of, cacheLineSize. rewrite u32_small, Z.rem_mod_nonneg by lia.
  pose proof (Z.mod_pos_bound h n ltac:(lia)). lia.
Qed.

Lemma set_hashes_spec hs buf p n :
  Forall (fun h => 0 <= h) hs -> 1 <= n < 2 ^ 32 -> n * cacheLineSize <= blen buf ->
  exists buf', set_hashes hs buf p n = Some buf' /\ blen buf' = blen buf /\
    (forall h, h ∈ hs -> probed (Z.to_nat p) buf' (line_of h n) h (delta_of h)) /\
    forall j c, 0 <= c < 8 -> has_bit buf j c -> has_bit buf' j c.
Proof.
  intros Hhs Hn. revert buf. induction Hhs as [|h hs Hh Hhs IH]; intros buf Hl; cbn [set_hashes].
  - exists buf. split_and!; [done..| |auto]. intros h Hin. by apply not_elem_of_nil in Hin.
  - rewrite (proj2 (Z.eqb_neq (u32 n) 0)) by (rewrite u32_small; lia). fold (line_of h n).
    destruct (line_of_bounds h n Hh Hn).
    destruct (set_probes_spec (Z.to_nat p) buf (line_of h n) h (delta_of h) Hh ltac:(lia) ltac:(lia))
      as (b1 & -> & Hl1 & Hs1 & Hm1). cbn [mbind option_bind].
    destruct (IH b1 ltac:(lia)) as (b2 & -> & Hl2 & Hs2 & Hm2).
    exists b2. split; [done|]. split; [lia|]. split; [|auto].
    intros h' [-> | Hin]%elem_of_cons; [|by apply Hs2]. eapply probed_mono; [done|exact Hm2|done].
Qed.

Lemma test_probes_probed n buf (tl : bytes) lineOff h delta :
  0 <= h -> 0 <= lineOff -> lineOff + cacheLineSize <= blen buf ->
  probed n (buf ++ tl) lineOff h delta -> test_probes n buf lineOff h delta = Some true.
Proof.
  intros Hh Ho Hl. revert h Hh. induction n as [|n IH]; intros h Hh; cbn [probed test_probes]; [done|].
  intros [(x & Hx & Hb) Hp]. destruct (bit_range h Hh) as [Hbit Hi].
  destruct (index_Some buf (lineOff + Z.rem (h / 8) cacheLineSize) ltac:(lia)) as [y Hy].
  assert (y = x) as ->.
  { unfold index in Hx, Hy. rewrite (proj2 (Z.leb_le 0 _)) in Hx, Hy by lia.
    rewrite (lookup_app_l_Some _ _ _ _ Hy) in Hx. congruence. }
  rewrite Hy. cbn [mbind option_bind].
  rewrite (proj2 (Z.eqb_neq _ 0)); [apply IH; [apply u32_bounds|done]|].
  intros Hz. apply (f_equal (fun z => Z.testbit z (Z.rem h 8))) in Hz.
  rewrite Z.land_spec, Hb, Z.shiftl_1_l, Z.pow2_bits_true, Z.bits_0 in Hz by lia. done.
Qed.

Lemma tail5 (t : bytes) : blen t = 5 -> exists x t4, t = x :: t4 /\ blen t4 = 4.
Proof. destruct t as [|x t4]; rewrite ?blen_nil, ?blen_cons; [lia|]. exists x, t4. split; [done|lia]. Qed.

Definition add_keys (w : bloomFilterWriter) (keys : list bytes) : bloomFilterWriter :=
  foldl addKey w keys.

Lemma add_keys_hashes w keys :
  add_keys w keys = mkBloomWriter (hashes w ++ (bloomHash <$> keys)) (bitsPerKey w).
Proof.
  revert w. induction keys as [|k keys IH]; intros w; cbn; [rewrite app_nil_r; by destruct w|].
  change (foldl addKey) with add_keys. rewrite IH. cbn. by rewrite <- app_assoc.
Qed.

(** The finished filter: the bits, then the number of probes and of lines. *)
Lemma finish_spec hs bpk :
  hs <> [] -> Forall (fun h => 0 <= h) hs -> 0 <= bpk -> blen hs * bpk < 2 ^ 40 ->
  let n := calcNLines (blen hs) bpk in
  exists bits tl, finish (mkBloomWriter hs bpk) =
      Some (Some (bits ++ z2b (calcNumProbes bpk) :: put_le32 n)) /\
    blen bits = n * cacheLineSize /\
    forall h, h ∈ hs -> probed (Z.to_nat (calcNumProbes bpk)) (bits ++ tl) (line_of h n) h (delta_of h).
Proof.
  intros Hne Hhs Hb Hsz n. unfold finish. cbn [hashes bitsPerKey]. fold n.
  assert (Hpos : 1 <= blen hs) by (destruct hs; rewrite ?blen_cons; blia || done).
  rewrite (proj2 (Z.eqb_neq _ 0)) by lia.
  pose proof (calcNLines_bounds (blen hs) bpk ltac:(lia) Hb Hsz) as Hn. fold n in Hn.
  unfold cacheLineSize. rewrite (i64_small (n * 64)) by lia.
  rewrite (proj2 (Z.ltb_ge _ _)) by lia. rewrite u32_small by lia.
  destruct (set_hashes_spec hs (replicate (Z.to_nat (n * 64 + 5)) x00) (calcNumProbes bpk) n Hhs
    ltac:(lia)) as (b & -> & Hl & Hp & _); [rewrite blen_replicate; unfold cacheLineSize; lia|].
  rewrite blen_replicate in Hl. cbn [mbind option_bind].
  set (bits := take (Z.to_nat (n * 64)) b).
  assert (Hbl : blen bits = n * 64) by (apply blen_take; lia).
  destruct (tail5 (drop (Z.to_nat (n * 64)) b)) as (x & t4 & Ht & Ht4); [rewrite blen_drop; lia|].
  assert (Hbb : b = bits ++ x :: t4) by (rewrite <- Ht; symmetry; apply take_drop).
  rewrite Hbb. replace (Z.to_nat (n * 64)) with (length bits) by (unfold blen in Hbl; lia).
  rewrite insert_app_r_alt by lia.
  rewrite Nat.sub_diag. cbn [insert list_insert].
  pose proof (copy_at_exact (bits ++ [z2b (calcNumProbes bpk)]) t4 [] (put_le32 n) (n * 64 + 1)) as Hc.
  rewrite !app_nil_r, <- !app_assoc in Hc. cbn [app] in Hc. rewrite Hc; clear Hc;
    [|rewrite blen_app, Hbl; done|by rewrite Ht4].
  cbn [mbind option_bind]. exists bits, (x :: t4). split; [done|]. split; [done|].
  rewrite <- Hbb. exact Hp.
Qed.

Lemma decode_spec bits p n :
  blen bits = n * cacheLineSize -> 0 <= n < 2 ^ 32 ->
  decodeBloomFilter (bits ++ p :: put_le32 n) = Some (Some (mkBloom bits (b2z p) n)).
Proof.
  intros Hl Hn. unfold decodeBloomFilter.
  assert (Hlen : blen (bits ++ p :: put_le32 n) = blen bits + 5)
    by (rewrite blen_app, blen_cons, blen_put_le32; lia).
  pose proof (blen_nonneg bits). rewrite Hlen, (proj2 (Z.ltb_ge _ _)) by lia.
  rewrite (index_app_mid bits (put_le32 n) p) by lia. cbn [mbind option_bind].
  rewrite (app_assoc bits [p] (put_le32 n) : bits ++ p :: put_le32 n = _).
  rewrite slice_from_app by (rewrite blen_app, blen_cons, blen_nil; lia). cbn [mbind option_bind].
  rewrite <- (app_nil_r (put_le32 n)) at 1. rewrite get_put_le32 by done. cbn [mbind option_bind].
  rewrite <- app_assoc. cbn [app]. rewrite slice_prefix by (rewrite Hlen; lia).
  replace (blen bits + 5 - 5) with (blen bits) by lia. rewrite take_blen_app. cbn [mbind option_bind].
  by rewrite Hl, Z.eqb_refl.
Qed.

(** What a filter owes its keys: it decodes, and none of them is ruled out. *)
Definition covers (filter : option bytes) (keys : list bytes) : Prop :=
  match filter with
  | None => keys = []
  | Some d => exists f, decodeBloomFilter d = Some (Some f) /\
      forall k, exists b, mayContain (Some f) k = Some b /\ (k ∈ keys -> b = true)
  end.

Lemma test_probes_total n data lineOff h delta :
  0 <= h -> 0 <= lineOff -> lineOff + cacheLineSize <= blen data ->
  is_Some (test_probes n data lineOff h delta).
Proof.
  intros Hh Ho Hl. revert h Hh. induction n as [|n IH]; intros h Hh; cbn [test_probes]; [by eexists|].
  destruct (bit_range h Hh) as [_ Hi].
  destruct (index_Some data (lineOff + Z.rem (h / 8) cacheLineSize) ltac:(lia)) as [y ->].
  cbn [mbind option_bind]. case_match; [by eexists|]. apply IH, u32_bounds.
Qed.

Lemma finish_covers keys bpk :
  0 <= bpk -> blen keys * bpk < 2 ^ 40 ->
  exists filter, finish (add_keys (newBloomFilterWriter bpk) keys) = Some filter /\
    covers filter keys /\
    (forall d, filter = Some d -> blen d = calcNLines (blen keys) bpk * cacheLineSize + 5).
Proof.
  intros Hb Hsz. rewrite add_keys_hashes. cbn [hashes bitsPerKey newBloomFilterWriter app].
  destruct keys as [|k0 keys0]; [exists None; by split_and!|].
  remember (k0 :: keys0) as keys eqn:Ek.
  assert (Hlen : blen (bloomHash <$> keys) = blen keys) by (unfold blen; by rewrite length_fmap).
  destruct (finish_spec (bloomHash <$> keys) bpk) as (bits & tl & Hf & Hl & Hp);
    [by rewrite Ek| |done|by rewrite Hlen|].
  { apply Forall_fmap, Forall_forall. intros k _. apply bloomHash_bounds. }
  rewrite Hlen in *. set (n := calcNLines (blen keys) bpk) in *.
  pose proof (calcNLines_bounds (blen keys) bpk (blen_nonneg keys) Hb Hsz) as Hn. fold n in Hn.
  pose proof (calcNumProbes_bounds bpk) as Hpr.
  eexists. split; [exact Hf|]. split.
  - eexists. split; [apply decode_spec; [done|lia]|]. intros k. unfold mayContain. cbn [nLines data numProbes].
    rewrite (proj2 (Z.eqb_neq n 0)) by lia. rewrite b2z_z2b_small by lia. fold (line_of (bloomHash k) n).
    pose proof (bloomHash_bounds k) as Hk. destruct (line_of_bounds (bloomHash k) n ltac:(lia) ltac:(lia)).
    destruct (test_probes_total (Z.to_nat (calcNumProbes bpk)) bits (line_of (bloomHash k) n)
      (bloomHash k) (delta_of (bloomHash k)) ltac:(lia) ltac:(lia) ltac:(lia)) as [b Hbv].
    exists b. split; [done|]. intros Hin.
    rewrite (test_probes_probed _ bits tl) in Hbv; [congruence|lia|lia|lia|].
    apply Hp. by apply list_elem_of_fmap_2.
  - intros d [= <-]. rewrite blen_app, blen_cons, blen_put_le32. lia.
Qed.

(** C34: No false negatives.  A filter built from any keys decodes, and every
    key that was added may be contained in it, whatever the bits per key; a
    query never panics.  The bound keeps the number of lines in [uint32]. *)
Theorem bloom_no_false_negatives (keys : list bytes) (bpk : Z) (k : bytes) :
  0 <= bpk -> blen keys * bpk < 2 ^ 40 -> k ∈ keys ->
  exists d f, finish (add_keys (newBloomFilterWriter bpk) keys) = Some (Some d) /\
    decodeBloomFilter d = Some (Some f) /\ mayContain (Some f) k = Some true.
Proof.
  intros Hb Hsz Hk. destruct (finish_covers keys bpk Hb Hsz) as ([d|] & Hf & Hc & _).
  - destruct Hc as (f & Hd & Hm). destruct (Hm k) as (b & Hmk & Hin). exists d, f.
    split_and!; [done..|]. by rewrite Hmk, Hin.
  - cbn in Hc. subst keys. by apply not_elem_of_nil in Hk.
Qed.

Lemma bloom_no_false_negatives_witness :
  blen [[x61]; [x62; x63]] * 10 < 2 ^ 40 /\
  exists d f, finish (add_keys (newBloomFilterWriter 10) [[x61]; [x62; x63]]) = Some (Some d) /\
    decodeBloomFilter d = Some (Some f) /\ mayContain (Some f) [x61] = Some true.
Proof.
  split; [vm_compute; reflexivity|].
  apply (bloom_no_false_negatives [[x61]; [x62; x63]] 10 [x61]); [lia|vm_compute; reflexivity|by left].
Defined.
