(* ===== verification/Cache.v ===== *)
(** The block cache ([pkg/lsm/sstable/cache.go]): a map from block addresses to
    the nodes of a doubly linked list in order of use.  Nodes live on a heap
    and are reached by pointers, as in the code; a nil or dangling pointer
    would be a panic ([None]).  The mutex makes every method atomic.

    The theorem shows that the pointer structure implements a plain list in
    order of use: [Get] and [Set] move to the front, [Set] keeps the longest
    prefix that fits the capacity, [Evict] removes one file's blocks. *)
From S2P Require Import Prelude.

#[local] Open Scope Z_scope.

(** ** The code *)

Record cacheKey : Type := mkKey { k_fileID : Z; k_blockOffset : Z }.

#[export] Instance cacheKey_eq_dec : EqDecision cacheKey.
Proof. solve_decision. Defined.
#[export] Instance cacheKey_countable : Countable cacheKey :=
  inj_countable' (fun k => (k_fileID k, k_blockOffset k)) (fun p => mkKey p.1 p.2)
    (fun k => match k with mkKey _ _ => eq_refl end).

Record lruEntry : Type := mkEntry {
  e_key : cacheKey;
  e_data : bytes;
  e_prev : option nat;
  e_next : option nat }.

(** [heap] and [fresh] are the allocated nodes. *)
Record BlockCache : Type := mkCache {
  capacity : Z;
  size : Z;
  items : gmap cacheKey nat;
  head : option nat;
  tail : option nat;
  heap : gmap nat lruEntry;
  fresh : nat }.

Definition NewBlockCache (capacity : Z) : BlockCache := mkCache capacity 0 ∅ None None ∅ O.

Definition set_size (c : BlockCache) (s : Z) : BlockCache :=
  mkCache (capacity c) s (items c) (head c) (tail c) (heap c) (fresh c).
Definition set_items (c : BlockCache) (m : gmap cacheKey nat) : BlockCache :=
  mkCache (capacity c) (size c) m (head c) (tail c) (heap c) (fresh c).
Definition set_head (c : BlockCache) (p : option nat) : BlockCache :=
  mkCache (capacity c) (size c) (items c) p (tail c) (heap c) (fresh c).
Definition set_tail (c : BlockCache) (p : option nat) : BlockCache :=
  mkCache (capacity c) (size c) (items c) (head c) p (heap c) (fresh c).
Definition set_heap (c : BlockCache) (h : gmap nat lruEntry) : BlockCache :=
  mkCache (capacity c) (size c) (items c) (head c) (tail c) h (fresh c).

(** [p.prev = v] and [p.next = v] through the pointer. *)
Definition store_prev (c : BlockCache) (p : nat) (v : option nat) : option BlockCache :=
  e ← heap c !! p;
  Some (set_heap c (<[p := mkEntry (e_key e) (e_data e) v (e_next e)]> (heap c))).
Definition store_next (c : BlockCache) (p : nat) (v : option nat) : option BlockCache :=
  e ← heap c !! p;
  Some (set_heap c (<[p := mkEntry (e_key e) (e_data e) (e_prev e) v]> (heap c))).

Definition pushFront (c : BlockCache) (entry : nat) : option BlockCache :=
  c ← store_prev c entry None;
  c ← store_next c entry (head c);
  c ← match head c with Some h => store_prev c h (Some entry) | None => Some c end;
  let c := set_head c (Some entry) in
  Some (match tail c with None => set_tail c (Some entry) | Some _ => c end).

Definition remove (c : BlockCache) (entry : nat) : option BlockCache :=
  e ← heap c !! entry;
  c ← match e_prev e with
      | Some p => store_next c p (e_next e)
      | None => Some (set_head c (e_next e))
      end;
  e ← heap c !! entry;
  c ← match e_next e with
      | Some n => store_prev c n (e_prev e)
      | None => Some (set_tail c (e_prev e))
      end;
  c ← store_prev c entry None;
  store_next c entry None.

Definition moveToFront (c : BlockCache) (entry : nat) : option BlockCache :=
  if bool_decide (Some entry = head c) then Some c
  else c ← remove c entry; pushFront c entry.

Definition evictTail (c : BlockCache) : option BlockCache :=
  match tail c with
  | None => Some c
  | Some entry =>
      c ← remove c entry;
      e ← heap c !! entry;
      Some (set_size (set_items c (delete (e_key e) (items c))) (size c - blen (e_data e)))
  end.

Definition Get (c : BlockCache) (fileID blockOffset : Z) : option (BlockCache * option bytes) :=
  match items c !! mkKey fileID blockOffset with
  | None => Some (c, None)
  | Some entry =>
      c ← moveToFront c entry;
      e ← heap c !! entry;
      Some (c, Some (e_data e))
  end.

(** The eviction loop; every round removes a node. *)
Fixpoint evict_loop (fuel : nat) (c : BlockCache) : option BlockCache :=
  if (capacity c <? size c) && bool_decide (tail c <> None) then
    match fuel with
    | O => None
    | S fuel => c ← evictTail c; evict_loop fuel c
    end
  else Some c.

Definition Set_ (c : BlockCache) (fileID blockOffset : Z) (data : bytes) : option BlockCache :=
  let key := mkKey fileID blockOffset in
  match items c !! key with
  | Some entry => moveToFront c entry
  | None =>
      let entry := fresh c in
      let c := mkCache (capacity c) (size c) (<[key := entry]> (items c)) (head c) (tail c)
                 (<[entry := mkEntry key data None None]> (heap c)) (S entry) in
      c ← pushFront c entry;
      let c := set_size c (size c + blen data) in
      evict_loop (Datatypes.S (base.size (items c))) c
  end.

(** [Evict]: [order] is the order in which the range loop visits the map's
    keys, which Go leaves open. *)
Fixpoint Evict_loop (toDelete : list cacheKey) (c : BlockCache) : option BlockCache :=
  match toDelete with
  | [] => Some c
  | key :: toDelete =>
      entry ← items c !! key;
      c ← remove c entry;
      e ← heap c !! entry;
      Evict_loop toDelete
        (set_size (set_items c (delete key (items c))) (size c - blen (e_data e)))
  end.

Definition Evict (order : list cacheKey) (c : BlockCache) (fileID : Z) : option BlockCache :=
  Evict_loop (filter (fun key => k_fileID key = fileID) order) c.

(** ** The abstract cache: blocks in order of use *)

Abbreviation lru := (list (cacheKey * bytes)).

Definition total (l : lru) : Z := foldr (fun e s => blen e.2 + s) 0 l.

Definition without (key : cacheKey) (l : lru) : lru := filter (fun e => e.1 <> key) l.

Fixpoint find (key : cacheKey) (l : lru) : option bytes :=
  match l with
  | [] => None
  | (k, d) :: l => if decide (k = key) then Some d else find key l
  end.

(** The longest prefix that fits. *)
Fixpoint trim (cap : Z) (l : lru) : lru :=
  match l with
  | [] => []
  | e :: l => if blen e.2 <=? cap then e :: trim (cap - blen e.2) l else []
  end.

Definition touch (key : cacheKey) (l : lru) : lru :=
  match find key l with Some d => (key, d) :: without key l | None => l end.

Definition lru_set (cap : Z) (key : cacheKey) (data : bytes) (l : lru) : lru :=
  match find key l with
  | Some _ => touch key l
  | None => trim cap ((key, data) :: l)
  end.

(** ** Linked nodes *)

(** A node of the list: its address, key and data. *)
Definition node : Type := nat * (cacheKey * bytes).

Definition first_of (ns : list node) (nx : option nat) : option nat :=
  match ns with [] => nx | n :: _ => Some n.1 end.
Definition last_of (pv : option nat) (ns : list node) : option nat :=
  match last ns with Some n => Some n.1 | None => pv end.

(** [ns] is linked both ways, between [pv] and [nx]. *)
Fixpoint dll (h : gmap nat lruEntry) (pv : option nat) (ns : list node) (nx : option nat) : Prop :=
  match ns with
  | [] => True
  | n :: ns =>
      h !! n.1 = Some (mkEntry n.2.1 n.2.2 pv (first_of ns nx)) /\ dll h (Some n.1) ns nx
  end.

Record linked (c : BlockCache) (ns : list node) : Prop := {
  linked_dll : dll (heap c) None ns None;
  linked_nodup : NoDup ns.*1;
  linked_head : head c = first_of ns None;
  linked_tail : tail c = last_of None ns }.

Record rep (c : BlockCache) (ns : list node) : Prop := {
  rep_linked : linked c ns;
  rep_keys : NoDup (ns.*2).*1;
  rep_items : forall k p, items c !! k = Some p <-> exists d, (p, (k, d)) ∈ ns;
  rep_size : size c = total ns.*2;
  rep_fresh : forall p, is_Some (heap c !! p) -> (p < fresh c)%nat }.

(** The cache holds the blocks of [l], most recently used first. *)
Definition holds (c : BlockCache) (l : lru) : Prop := exists ns, rep c ns /\ l = ns.*2.
