(* ===== verification/CacheSpec.v ===== *)
(** The pointer structure of the block cache implements the list of blocks in
    order of use. *)
From S2P Require Import Prelude Cache.

#[local] Open Scope Z_scope.

(** ** Lists of nodes *)

Lemma last_of_snoc pv a q : last_of pv (a ++ [q]) = Some q.1.
Proof. unfold last_of. by rewrite last_snoc. Qed.

Lemma last_of_cons pv n ns : last_of pv (n :: ns) = last_of (Some n.1) ns.
Proof. unfold last_of. rewrite last_cons. by destruct (last ns). Qed.

Lemma last_of_app pv a b : last_of pv (a ++ b) = last_of (last_of pv a) b.
Proof.
  revert pv. induction a as [|n a IH]; intros pv; [done|]. cbn [app]. by rewrite !last_of_cons.
Qed.

Lemma first_of_app a b nx : first_of (a ++ b) nx = first_of a (first_of b nx).
Proof. by destruct a. Qed.

Lemma dll_app h pv a b nx :
  dll h pv (a ++ b) nx <-> dll h pv a (first_of b nx) /\ dll h (last_of pv a) b nx.
Proof.
  revert pv. induction a as [|n a IH]; intros pv; cbn [app dll]; [naive_solver|].
  rewrite IH, first_of_app, last_of_cons. naive_solver.
Qed.

Lemma dll_agree h h' pv ns nx :
  (forall p, p ∈ ns.*1 -> h' !! p = h !! p) -> dll h pv ns nx -> dll h' pv ns nx.
Proof.
  revert pv. induction ns as [|n ns IH]; intros pv Ha; cbn [dll]; [done|]. intros [Hn Hd].
  rewrite fmap_cons in Ha. split; [rewrite Ha by (by left); done|].
  apply IH; [|done]. intros p Hp. apply Ha. by right.
Qed.

Lemma dll_lookup h pv a n b nx :
  dll h pv (a ++ n :: b) nx -> h !! n.1 = Some (mkEntry n.2.1 n.2.2 (last_of pv a) (first_of b nx)).
Proof. intros H. apply dll_app in H as [_ [H _]]. exact H. Qed.

(** Relinking the two ends of a run of nodes. *)
Lemma dll_store_next h pv a q nx nx' :
  NoDup (a ++ [q]).*1 -> dll h pv (a ++ [q]) nx ->
  dll (<[q.1 := mkEntry q.2.1 q.2.2 (last_of pv a) nx']> h) pv (a ++ [q]) nx'.
Proof.
  rewrite fmap_app. intros Hnd H. apply dll_app in H as [Ha _]. apply dll_app. split.
  - eapply dll_agree; [|exact Ha]. intros p Hp. apply lookup_insert_ne. intros <-.
    apply NoDup_app in Hnd as (_ & Hd & _). apply (Hd _ Hp). cbn. by left.
  - cbn. split; [|done]. apply lookup_insert_eq.
Qed.

Lemma dll_store_prev h pv pv' q b nx :
  NoDup (q :: b).*1 -> dll h pv (q :: b) nx ->
  dll (<[q.1 := mkEntry q.2.1 q.2.2 pv' (first_of b nx)]> h) pv' (q :: b) nx.
Proof.
  rewrite fmap_cons. intros [Hq Hnd]%NoDup_cons [_ Hb]. cbn [dll]. split; [apply lookup_insert_eq|].
  eapply dll_agree; [|exact Hb]. intros p Hp. apply lookup_insert_ne. by intros <-.
Qed.

(** What the pointer operations leave alone. *)
Record same (c c' : BlockCache) : Prop := {
  same_capacity : capacity c' = capacity c;
  same_size : size c' = size c;
  same_items : items c' = items c;
  same_fresh : fresh c' = fresh c;
  same_dom : forall p, is_Some (heap c' !! p) <-> is_Some (heap c !! p) }.

#[export] Instance same_preorder : PreOrder same.
Proof.
  split; [by split|]. intros a b c [] []. split; try congruence. intros p. etrans; eauto.
Qed.

Lemma insert_dom (h : gmap nat lruEntry) p e q :
  is_Some (h !! p) -> is_Some (<[p := e]> h !! q) <-> is_Some (h !! q).
Proof.
  intros Hp. destruct (decide (q = p)) as [->|]; [|by rewrite lookup_insert_ne].
  rewrite lookup_insert_eq. split; [done|by eexists].
Qed.

Lemma same_set_heap c p e : is_Some (heap c !! p) -> same c (set_heap c (<[p := e]> (heap c))).
Proof. intros Hp. split; try done. intros q. by apply insert_dom. Qed.

(** [entry.prev.next = nx], or [c.head = nx]. *)
Lemma relink_left c a nx nx' :
  dll (heap c) None a nx -> NoDup a.*1 -> (a = [] \/ head c = first_of a None) ->
  exists c', match last_of None a with
             | Some p => store_next c p nx'
             | None => Some (set_head c nx')
             end = Some c' /\ same c c' /\ tail c' = tail c /\
    dll (heap c') None a nx' /\ head c' = first_of a nx' /\
    forall p, p ∉ a.*1 -> heap c' !! p = heap c !! p.
Proof.
  intros Hd Hnd Hh. destruct a as [|q a _] using rev_ind.
  - cbn. eexists. split; [done|]. by split_and!.
  - rewrite last_of_snoc. unfold store_next. rewrite (dll_lookup _ _ a q [] nx Hd).
    cbn [mbind option_bind e_key e_data e_prev]. eexists. split; [done|].
    split; [apply same_set_heap; by rewrite (dll_lookup _ _ a q [] nx Hd)|]. split; [done|].
    split; [by apply (dll_store_next _ None a q nx)|]. split.
    + cbn. destruct Hh as [Hh| ->]; [by apply app_eq_nil in Hh as [_ ?]|]. by destruct a.
    + intros p Hp. apply lookup_insert_ne. intros <-. apply Hp. rewrite fmap_app. set_solver.
Qed.

(** [entry.next.prev = pv], or [c.tail = pv]. *)
Lemma relink_right c b pv pv' :
  dll (heap c) pv b None -> NoDup b.*1 -> (b = [] \/ tail c = last_of None b) ->
  exists c', match first_of b None with
             | Some p => store_prev c p pv'
             | None => Some (set_tail c pv')
             end = Some c' /\ same c c' /\ head c' = head c /\
    dll (heap c') pv' b None /\ tail c' = last_of pv' b /\
    forall p, p ∉ b.*1 -> heap c' !! p = heap c !! p.
Proof.
  intros Hd Hnd Ht. destruct b as [|q b].
  - cbn. eexists. split; [done|]. by split_and!.
  - cbn [first_of]. unfold store_prev. pose proof Hd as [Hq _]. rewrite Hq.
    cbn [mbind option_bind e_key e_data e_next]. eexists. split; [done|].
    split; [apply same_set_heap; by rewrite Hq|]. split; [done|].
    split; [by apply (dll_store_prev _ pv)|]. split.
    + cbn. destruct Ht as [|Ht]; [done|]. by rewrite Ht, !last_of_cons.
    + intros p Hp. apply lookup_insert_ne. intros <-. apply Hp. rewrite fmap_cons. by left.
Qed.

(** ** The pointer operations *)

Lemma NoDup_middle {A} (a b : list A) n :
  NoDup (a ++ n :: b) -> NoDup a /\ NoDup b /\ n ∉ a /\ n ∉ b /\ (forall x, x ∈ a -> x ∉ b).
Proof.
  intros H. apply NoDup_app in H as (Ha & Hd & Hb). apply NoDup_cons in Hb as [Hn Hb].
  split_and!; try done; [intros Hx; apply (Hd _ Hx); by left|]. intros x Hx Hxb.
  apply (Hd _ Hx). by right.
Qed.

Lemma store_prev_eq c p v e : heap c !! p = Some e ->
  store_prev c p v = Some (set_heap c (<[p := mkEntry (e_key e) (e_data e) v (e_next e)]> (heap c))).
Proof. intros He. unfold store_prev. by rewrite He. Qed.

Lemma store_next_eq c p v e : heap c !! p = Some e ->
  store_next c p v = Some (set_heap c (<[p := mkEntry (e_key e) (e_data e) (e_prev e) v]> (heap c))).
Proof. intros He. unfold store_next. by rewrite He. Qed.

Lemma clear_links c p e :
  heap c !! p = Some e ->
  exists c', (c ← store_prev c p None; store_next c p None) = Some c' /\ same c c' /\
    head c' = head c /\ tail c' = tail c /\
    heap c' !! p = Some (mkEntry (e_key e) (e_data e) None None) /\
    forall q, q <> p -> heap c' !! q = heap c !! q.
Proof.
  intros He. unfold store_prev, store_next. rewrite He. cbn [mbind option_bind].
  cbn [heap set_heap]. rewrite lookup_insert_eq. cbn [mbind option_bind e_key e_data e_prev].
  eexists. split; [done|]. cbn. rewrite insert_insert_eq.
  split; [apply (same_set_heap c p); by rewrite He|]. split_and!; try done.
  - apply lookup_insert_eq.
  - intros q Hq. by apply lookup_insert_ne.
Qed.

Lemma remove_spec c a n b :
  linked c (a ++ n :: b) ->
  exists c', remove c n.1 = Some c' /\ linked c' (a ++ b) /\ same c c' /\
    heap c' !! n.1 = Some (mkEntry n.2.1 n.2.2 None None).
Proof.
  intros [Hd Hnd Hh Ht]. rewrite fmap_app in Hnd. change ((n :: b).*1) with (n.1 :: b.*1) in Hnd.
  destruct (NoDup_middle _ _ _ Hnd) as (Hna & Hnb & Hpa & Hpb & Hab).
  pose proof (dll_lookup _ _ _ _ _ _ Hd) as He.
  apply dll_app in Hd as [Hda [_ Hdb]]. cbn [first_of] in Hda.
  unfold remove. rewrite He. cbn [mbind option_bind e_prev e_next].
  destruct (relink_left c a (Some n.1) (first_of b None) Hda Hna) as
    (c1 & E1 & S1 & T1 & D1 & H1 & F1).
  { rewrite Hh, first_of_app. destruct a; [by left|by right]. }
  rewrite E1. cbn [mbind option_bind]. rewrite (F1 _ Hpa), He. cbn [mbind option_bind e_prev e_next].
  destruct (relink_right c1 b (Some n.1) (last_of None a)) as (c2 & E2 & S2 & H2 & D2 & T2 & F2).
  { eapply dll_agree; [|exact Hdb]. intros p Hp. apply F1. intros Hpa'. by apply (Hab p). }
  { done. }
  { rewrite T1, Ht, last_of_app, last_of_cons. destruct b; [by left|by right; rewrite !last_of_cons]. }
  rewrite E2. cbn [mbind option_bind].
  assert (He2 : heap c2 !! n.1 = Some (mkEntry n.2.1 n.2.2 (last_of None a) (first_of b None)))
    by (by rewrite (F2 _ Hpb), (F1 _ Hpa)).
  destruct (clear_links c2 n.1 _ He2) as (c3 & E3 & S3 & H3 & T3 & L3 & F3).
  exists c3. split; [exact E3|]. split; [|split; [by rewrite S1, S2, S3|exact L3]].
  split.
  - apply dll_app. split.
    + eapply dll_agree; [|exact D1]. intros p Hp. rewrite F3 by (by intros ->). apply F2. eauto.
    + eapply dll_agree; [|exact D2]. intros p Hp. apply F3. by intros ->.
  - rewrite fmap_app. apply NoDup_app. split_and!; [done|exact Hab|done].
  - by rewrite H3, H2, H1, first_of_app.
  - by rewrite T3, T2, last_of_app.
Qed.

Lemma pushFront_spec c ns p e :
  linked c ns -> heap c !! p = Some e -> p ∉ ns.*1 ->
  exists c', pushFront c p = Some c' /\ linked c' ((p, (e_key e, e_data e)) :: ns) /\ same c c' /\
    exists e', heap c' !! p = Some e' /\ e_key e' = e_key e /\ e_data e' = e_data e.
Proof.
  intros [Hd Hnd Hh Ht] He Hp. unfold pushFront.
  rewrite (store_prev_eq c p None e He). cbn [mbind option_bind].
  rewrite (store_next_eq _ p (head _) _ (lookup_insert_eq (heap c) p _)).
  cbn [mbind option_bind e_key e_data e_prev head set_heap heap].
  rewrite insert_insert_eq, Hh.
  set (h := <[p := mkEntry (e_key e) (e_data e) None (first_of ns None)]> (heap c)).
  assert (Hdh : dll h None ns None).
  { eapply dll_agree; [|exact Hd]. intros q Hq. apply lookup_insert_ne. by intros <-. }
  assert (Hsd : forall q, is_Some (h !! q) <-> is_Some (heap c !! q))
    by (intros q; apply insert_dom; by rewrite He).
  destruct ns as [|q ns]; cbn [first_of].
  - cbn in Ht. cbn [mbind option_bind set_head tail set_heap]. rewrite Ht. eexists. split; [done|].
    split; [|split; [split; [done..|exact Hsd]|]].
    + split; cbn; [by split; [apply lookup_insert_eq|]|apply NoDup_singleton|done|done].
    + eexists. split; [apply lookup_insert_eq|done].
  - pose proof Hdh as [Hq _]. unfold store_prev. cbn [heap set_heap]. rewrite Hq.
    cbn [mbind option_bind e_key e_data e_next set_head set_heap tail heap].
    rewrite last_of_cons in Ht. rewrite fmap_cons in Hp.
    assert (Hpq : q.1 <> p) by (intros <-; apply Hp; by left).
    destruct (tail c) as [t|] eqn:Et;
      [|exfalso; symmetry in Ht; unfold last_of in Ht; by destruct (last ns)].
    eexists. split; [done|]. split; [|split].
    + split; cbn [heap head tail set_head set_tail set_heap].
      * cbn [dll]. split; [|by apply (dll_store_prev h None)].
        cbn [fst snd]. rewrite (lookup_insert_ne h q.1 p) by done. apply lookup_insert_eq.
      * rewrite fmap_cons. by apply NoDup_cons.
      * done.
      * by rewrite !last_of_cons, <- Ht, Et.
    + split; try done. intros x. cbn. rewrite (insert_dom h q.1) by (by rewrite Hq). apply Hsd.
    + cbn. eexists. rewrite (lookup_insert_ne h q.1 p) by done. split; [apply lookup_insert_eq|done].
Qed.

Lemma moveToFront_spec c a n b :
  linked c (a ++ n :: b) ->
  exists c', moveToFront c n.1 = Some c' /\ linked c' (n :: a ++ b) /\ same c c' /\
    exists e, heap c' !! n.1 = Some e /\ e_data e = n.2.2.
Proof.
  intros Hl. unfold moveToFront. rewrite (linked_head _ _ Hl).
  destruct a as [|q a].
  - cbn [app first_of]. rewrite bool_decide_eq_true_2 by done. exists c. split; [done|].
    split; [done|]. split; [done|]. eexists.
    split; [exact (dll_lookup _ _ [] n b None (linked_dll _ _ Hl))|done].
  - cbn [app first_of]. pose proof (linked_nodup _ _ Hl) as Hnd.
    rewrite fmap_app in Hnd. change ((n :: b).*1) with (n.1 :: b.*1) in Hnd. destruct (NoDup_middle _ _ _ Hnd) as (_ & _ & Hpa & Hpb & _).
    rewrite bool_decide_eq_false_2 by (intros [= E]; apply Hpa; rewrite E, fmap_cons; by left).
    destruct (remove_spec c (q :: a) n b Hl) as (c1 & -> & L1 & S1 & H1). cbn [mbind option_bind].
    destruct (pushFront_spec c1 _ n.1 _ L1 H1) as (c2 & -> & L2 & S2 & (e & He & _ & Hdat));
      [rewrite fmap_app; set_solver|].
    exists c2. split; [done|]. cbn [e_key e_data] in *. destruct n as [p [k d]]. split; [exact L2|].
    split; [by rewrite S1|]. by exists e.
Qed.

(** ** The map and the list together *)

Lemma total_perm l1 l2 : l1 ≡ₚ l2 -> total l1 = total l2.
Proof.
  induction 1 as [|e l1 l2 _ IH|e1 e2 l|l1 l2 l3 _ IH1 _ IH2]; [done| | |congruence].
  - change (blen e.2 + total l1 = blen e.2 + total l2). lia.
  - change (blen e2.2 + (blen e1.2 + total l) = blen e1.2 + (blen e2.2 + total l)). lia.
Qed.

Lemma total_app l1 l2 : total (l1 ++ l2) = total l1 + total l2.
Proof.
  induction l1 as [|e l1 IH]; [done|].
  change (blen e.2 + total (l1 ++ l2) = blen e.2 + total l1 + total l2). lia.
Qed.

Lemma total_nonneg l : 0 <= total l.
Proof.
  induction l as [|e l IH]; [done|]. change (0 <= blen e.2 + total l). pose proof (blen_nonneg e.2). lia.
Qed.

(** Reordering the nodes keeps everything but the order. *)
Lemma rep_reorder c c' ns ns' :
  rep c ns -> linked c' ns' -> same c c' -> ns' ≡ₚ ns -> rep c' ns'.
Proof.
  intros [_ Hk Hi Hs Hf] Hl' [_ Es Ei Ef Ed] Hp. split; [done| | | |].
  - by rewrite Hp.
  - intros k p. rewrite Ei, Hi. by setoid_rewrite Hp.
  - rewrite Es, Hs. apply total_perm. by rewrite Hp.
  - intros p Hx. rewrite Ef. by apply Hf, Ed.
Qed.

Lemma keys_middle (a b : list node) n :
  NoDup ((a ++ n :: b).*2).*1 -> NoDup ((a ++ b).*2).*1 /\ forall m, m ∈ a ++ b -> m.2.1 <> n.2.1.
Proof.
  rewrite !fmap_app. change (((n :: b).*2).*1) with (n.2.1 :: (b.*2).*1).
  intros H. apply NoDup_middle in H as (Ha & Hb & Hna & Hnb & Hab). split.
  - by apply NoDup_app.
  - intros m Hm E. rewrite <- E in *. apply elem_of_app in Hm as [Hm|Hm].
    + apply Hna. rewrite <- list_fmap_compose. by apply (list_elem_of_fmap_2 (fst ∘ snd)).
    + apply Hnb. rewrite <- list_fmap_compose. by apply (list_elem_of_fmap_2 (fst ∘ snd)).
Qed.

(** Taking a node out of the list and its key out of the map. *)
Lemma rep_remove c a n b :
  rep c (a ++ n :: b) ->
  exists c1 e, remove c n.1 = Some c1 /\ heap c1 !! n.1 = Some e /\ e_key e = n.2.1 /\ e_data e = n.2.2 /\
    capacity c1 = capacity c /\ items c1 = items c /\
    rep (set_size (set_items c1 (delete n.2.1 (items c1))) (size c1 - blen n.2.2)) (a ++ b).
Proof.
  intros [Hl Hk Hi Hs Hf]. destruct (remove_spec c a n b Hl) as (c1 & E & L & S & He).
  exists c1. eexists. split; [exact E|]. split; [exact He|]. cbn [e_key e_data].
  destruct S as [Sc Ss Si Sf Sd]. do 2 (split; [done|]). split; [done|]. split; [done|].
  destruct (keys_middle a b n Hk) as [Hk' Hne]. split; cbn [heap items size set_size set_items fresh].
  - destruct L. by split.
  - done.
  - intros k p. rewrite Si, lookup_delete_Some, Hi. split.
    + intros [Hkn (d & Hd)]. exists d. apply elem_of_app in Hd as [Hd|Hd]; [set_solver|].
      apply elem_of_cons in Hd as [<-|Hd]; [done|set_solver].
    + intros (d & Hd). split; [|exists d; set_solver]. intros <-. by apply (Hne _ Hd).
  - rewrite Ss, Hs, !fmap_app. change ((n :: b).*2) with (n.2 :: b.*2). rewrite !total_app.
    change (total (n.2 :: b.*2)) with (blen n.2.2 + total (b.*2)). lia.
  - intros p Hx. rewrite Sf. by apply Hf, Sd.
Qed.

Lemma find_None key l : find key l = None <-> key ∉ l.*1.
Proof.
  induction l as [|[k d] l IH]; cbn [find]; [split; [by intros _ ?%not_elem_of_nil|done]|].
  rewrite fmap_cons, not_elem_of_cons. cbn [fst]. destruct (decide (k = key)) as [->|Hne].
  - split; [done|]. by intros [? _].
  - rewrite IH. split; [split; [congruence|done]|by intros [_ ?]].
Qed.

Lemma find_split key d l1 l2 : key ∉ l1.*1 -> find key (l1 ++ (key, d) :: l2) = Some d.
Proof.
  induction l1 as [|[k' d'] l1 IH]; cbn; [by rewrite decide_True by done|].
  rewrite not_elem_of_cons. intros [Hne Hin]. rewrite decide_False by congruence. by apply IH.
Qed.

Lemma without_split key d l1 l2 :
  key ∉ l1.*1 -> key ∉ l2.*1 -> without key (l1 ++ (key, d) :: l2) = l1 ++ l2.
Proof.
  intros H1 H2. unfold without. rewrite filter_app, filter_cons_False by (cbn; tauto).
  assert (Hid : forall l : lru, key ∉ l.*1 -> filter (fun e => e.1 <> key) l = l).
  { induction l as [|[k' d'] l IH]; [done|]. rewrite fmap_cons, not_elem_of_cons.
    cbn [fst]. intros [Hne Hin]. rewrite filter_cons_True by (cbn; congruence). by rewrite IH. }
  by rewrite !Hid.
Qed.

(** A cached block: its place in the list. *)
Lemma rep_hit c ns key p :
  rep c ns -> items c !! key = Some p ->
  exists a d b, ns = a ++ (p, (key, d)) :: b /\ find key ns.*2 = Some d /\
    touch key ns.*2 = ((p, (key, d)) :: a ++ b).*2.
Proof.
  intros Hr Hp. apply (rep_items _ _ Hr) in Hp as (d & Hd). apply list_elem_of_split in Hd as (a & b & ->).
  exists a, d, b. split; [done|]. pose proof (rep_keys _ _ Hr) as Hk.
  rewrite !fmap_app in Hk. apply NoDup_middle in Hk as (_ & _ & Hna & Hnb & _). cbn [fst snd] in *.
  assert (Hf : find key (a ++ (p, (key, d)) :: b).*2 = Some d)
    by (rewrite fmap_app; by apply find_split).
  split; [exact Hf|]. unfold touch. rewrite Hf, fmap_app. cbn [snd fmap list_fmap].
  change (list_fmap _ _ snd b) with (b.*2). rewrite without_split by done.
  cbn. by rewrite fmap_app.
Qed.

Lemma rep_miss c ns key : rep c ns -> items c !! key = None -> find key ns.*2 = None.
Proof.
  intros Hr Hn. apply find_None. rewrite <- list_fmap_compose.
  intros ([p [k d]] & -> & Hin)%list_elem_of_fmap. cbn in Hn.
  assert (items c !! k = Some p) by (apply (rep_items _ _ Hr); by exists d). congruence.
Qed.

Lemma moveToFront_rep c a n b :
  rep c (a ++ n :: b) ->
  exists c', moveToFront c n.1 = Some c' /\ rep c' (n :: a ++ b) /\ capacity c' = capacity c /\
    exists e, heap c' !! n.1 = Some e /\ e_data e = n.2.2.
Proof.
  intros Hr. destruct (moveToFront_spec c a n b (rep_linked _ _ Hr)) as (c' & E & L & S & He).
  exists c'. split; [done|]. split; [|by split; [apply S|]].
  apply (rep_reorder c c' _ _ Hr L S). by rewrite Permutation_middle.
Qed.

(** Dropping nodes from the end until the rest fits. *)
Lemma trim_fits cap l : total l <= cap -> trim cap l = l.
Proof.
  revert cap. induction l as [|e l IH]; intros cap H; [done|]. cbn [trim].
  change (total (e :: l)) with (blen e.2 + total l) in H. pose proof (total_nonneg l).
  rewrite (proj2 (Z.leb_le _ _)) by lia. by rewrite IH by lia.
Qed.

Lemma trim_drop_last cap l e : cap < total (l ++ [e]) -> trim cap (l ++ [e]) = trim cap l.
Proof.
  revert cap. induction l as [|x l IH]; intros cap H; cbn [app trim].
  - cbn in H. by rewrite (proj2 (Z.leb_gt _ _)) by lia.
  - change (total ((x :: l) ++ [e])) with (blen x.2 + total (l ++ [e])) in H.
    case_match; [|done]. f_equal. apply IH. lia.
Qed.

Lemma trim_total cap l : 0 <= cap -> total (trim cap l) <= cap.
Proof.
  revert cap. induction l as [|e l IH]; intros cap Hc; cbn [trim]; [done|].
  destruct (_ <=? _) eqn:E; [|done]. bool_hyps. specialize (IH (cap - blen e.2) ltac:(lia)).
  change (blen e.2 + total (trim (cap - blen e.2) l) <= cap). lia.
Qed.

Lemma evict_loop_spec fuel c ns :
  rep c ns -> (length ns <= fuel)%nat ->
  exists c' ns', evict_loop fuel c = Some c' /\ rep c' ns' /\ ns'.*2 = trim (capacity c) ns.*2 /\
    capacity c' = capacity c.
Proof.
  revert c ns. induction fuel as [|f IH]; intros c ns Hr Hf; cbn [evict_loop];
    rewrite (linked_tail _ _ (rep_linked _ _ Hr)), (rep_size _ _ Hr).
  - destruct ns; [|cbn in Hf; lia]. cbn [fmap list_fmap last_of last]. rewrite andb_false_r.
    exists c, []. by split_and!.
  - destruct ns as [|n ns _] using rev_ind.
    { rewrite andb_false_r. exists c, []. by split_and!. }
    rewrite last_of_snoc. rewrite bool_decide_eq_true_2, andb_true_r by done.
    destruct (Z.ltb_spec (capacity c) (total (ns ++ [n]).*2)) as [Hlt|Hge].
    + unfold evictTail. rewrite (linked_tail _ _ (rep_linked _ _ Hr)), last_of_snoc.
      destruct (rep_remove c ns n [] Hr) as (c1 & e & -> & He & Hek & Hed & Hcap & _ & Hr1).
      cbn [mbind option_bind]. rewrite He. cbn [mbind option_bind]. rewrite Hek, Hed.
      rewrite app_nil_r in Hr1. rewrite length_app in Hf. cbn [length] in Hf.
      destruct (IH _ ns Hr1 ltac:(lia)) as (c' & ns' & -> & Hr' & Hns & Hc').
      exists c', ns'. split_and!; [done..| |].
      * rewrite Hns. cbn. rewrite Hcap, fmap_app. symmetry. apply trim_drop_last. by rewrite fmap_app in Hlt.
      * by rewrite Hc'.
    + exists c, (ns ++ [n]). split_and!; [done..|by rewrite trim_fits|done].
Qed.

Lemma NewBlockCache_holds cap : holds (NewBlockCache cap) [].
Proof.
  exists []. split; [|done]. split; cbn; [split; try done; apply NoDup_nil_2|apply NoDup_nil_2| |done|].
  - intros k p. rewrite lookup_empty. split; [done|]. intros (d & Hd). by apply not_elem_of_nil in Hd.
  - intros p. rewrite lookup_empty. by intros [].
Qed.

Lemma Get_holds c l fid off :
  holds c l ->
  exists c', Get c fid off = Some (c', find (mkKey fid off) l) /\ holds c' (touch (mkKey fid off) l) /\
    capacity c' = capacity c.
Proof.
  intros (ns & Hr & ->). unfold Get. destruct (items c !! (mkKey fid off)) as [p|] eqn:E.
  - destruct (rep_hit c ns _ p Hr E) as (a & d & b & -> & Hf & Ht).
    destruct (moveToFront_rep c a _ b Hr) as (c' & Hm & Hr' & Hcap & (e & He & Hd)).
    cbn [fst snd] in Hm, He, Hd. rewrite Hm. cbn [mbind option_bind]. rewrite He. cbn [mbind option_bind].
    exists c'. rewrite Hf, Hd. split; [done|]. split; [|done]. eexists. split; [exact Hr'|exact Ht].
  - pose proof (rep_miss c ns _ Hr E) as Hf. exists c. unfold touch. rewrite Hf. split; [done|].
    split; [|done]. by exists ns.
Qed.

(** Inserting a fresh node at the front. *)
Lemma insert_front c ns key data :
  rep c ns -> items c !! key = None ->
  let entry := fresh c in
  let c0 := mkCache (capacity c) (size c) (<[key := entry]> (items c)) (head c) (tail c)
              (<[entry := mkEntry key data None None]> (heap c)) (S entry) in
  exists c1, pushFront c0 entry = Some c1 /\ capacity c1 = capacity c /\
    items c1 = <[key := entry]> (items c) /\
    rep (set_size c1 (size c1 + blen data)) ((entry, (key, data)) :: ns).
Proof.
  intros Hr Hn entry c0.
  assert (Hne : forall p, p ∈ ns.*1 -> p <> entry).
  { intros p (n & -> & Hin)%list_elem_of_fmap E. apply list_elem_of_split in Hin as (a & b & ->).
    pose proof (dll_lookup _ _ _ _ _ _ (linked_dll _ _ (rep_linked _ _ Hr))) as Hl.
    pose proof (rep_fresh _ _ Hr n.1 ltac:(by rewrite Hl)) as Hf. unfold entry in E. lia. }
  assert (L0 : linked c0 ns).
  { destruct (rep_linked _ _ Hr) as [Hd Hnd Hh Ht]. split; try done.
    eapply dll_agree; [|exact Hd]. intros p Hp. apply lookup_insert_ne. intros E. by apply (Hne p). }
  destruct (pushFront_spec c0 ns entry (mkEntry key data None None) L0) as (c1 & E & L & S & _);
    [apply lookup_insert_eq|intros Hin; by apply (Hne entry)|].
  exists c1. split; [done|]. destruct S as [Sc Ss Si Sf Sd]. split; [done|]. split; [done|].
  pose proof (rep_miss c ns key Hr Hn) as Hmiss. apply find_None in Hmiss.
  split; cbn [heap items size set_size fresh].
  - destruct L. by split.
  - cbn. apply NoDup_cons. split; [done|apply Hr].
  - intros k p. rewrite Si. cbn. destruct (decide (k = key)) as [->|Hk].
    + rewrite lookup_insert_eq. split; [intros [= <-]; exists data; by left|].
      intros (d & [[= ->]|Hd]%elem_of_cons); [done|]. exfalso. apply Hmiss.
      rewrite <- list_fmap_compose. by apply (list_elem_of_fmap_2 (fst ∘ snd) _ (p, (key, d))).
    + rewrite lookup_insert_ne by done. rewrite (rep_items _ _ Hr). split; intros (d & Hd); exists d.
      * by right.
      * apply elem_of_cons in Hd as [[= -> ->]|Hd]; done.
  - rewrite Ss. cbn. rewrite (rep_size _ _ Hr). unfold total. lia.
  - intros p Hx. rewrite Sf. cbn. apply Sd in Hx. cbn in Hx.
    destruct (decide (p = entry)) as [->|Hpe]; [lia|]. rewrite lookup_insert_ne in Hx by done.
    pose proof (rep_fresh _ _ Hr p Hx). unfold entry. lia.
Qed.

Lemma rep_count c ns : rep c ns -> (length ns <= base.size (items c))%nat.
Proof.
  intros Hr. assert (length ns = length (ns.*2).*1) as -> by (by rewrite !length_fmap).
  rewrite <- (size_list_to_set (C := gset cacheKey) _ (rep_keys _ _ Hr)), <- (size_dom (D := gset cacheKey)).
  apply subseteq_size. intros k Hk. apply elem_of_list_to_set in Hk. apply elem_of_dom.
  rewrite <- list_fmap_compose in Hk. apply list_elem_of_fmap in Hk as ([p [k' d]] & -> & Hin).
  exists p. apply (rep_items _ _ Hr). by exists d.
Qed.

Lemma Set_holds c l fid off data :
  holds c l ->
  exists c', Set_ c fid off data = Some c' /\ holds c' (lru_set (capacity c) (mkKey fid off) data l) /\
    capacity c' = capacity c.
Proof.
  intros (ns & Hr & ->). unfold Set_, lru_set. destruct (items c !! (mkKey fid off)) as [p|] eqn:E.
  - destruct (rep_hit c ns _ p Hr E) as (a & d & b & -> & Hf & Ht). rewrite Hf.
    destruct (moveToFront_rep c a _ b Hr) as (c' & Hm & Hr' & Hcap & _).
    exists c'. split; [exact Hm|]. split; [|done]. eexists. split; [exact Hr'|exact Ht].
  - rewrite (rep_miss c ns _ Hr E).
    destruct (insert_front c ns (mkKey fid off) data Hr E) as (c1 & -> & Hcap & Hit & Hr1).
    cbn [mbind option_bind]. pose proof (rep_count _ _ Hr1) as Hcnt. cbn in Hcnt.
    destruct (evict_loop_spec (Datatypes.S (base.size (items (set_size c1 (size c1 + blen data))))) _ _ Hr1)
      as (c' & ns' & -> & Hr' & Hns & Hc'); [cbn; lia|].
    exists c'. split; [done|]. split; [|by rewrite Hc']. exists ns'. split; [done|].
    rewrite Hns. cbn. by rewrite Hcap.
Qed.

Lemma holds_keys c l : holds c l -> NoDup l.*1.
Proof. intros (ns & Hr & ->). apply Hr. Qed.

Lemma without_keys key d l : NoDup l.*1 -> (key, d) ∈ l -> exists l1 l2,
  l = l1 ++ (key, d) :: l2 /\ without key l = l1 ++ l2.
Proof.
  intros Hnd (l1 & l2 & ->)%list_elem_of_split. exists l1, l2. split; [done|].
  rewrite fmap_app in Hnd. apply NoDup_middle in Hnd as (_ & _ & H1 & H2 & _). by apply without_split.
Qed.

Lemma remove_holds c l key p :
  holds c l -> items c !! key = Some p ->
  exists c1 e, remove c p = Some c1 /\ heap c1 !! p = Some e /\ items c1 = items c /\ capacity c1 = capacity c /\
    holds (set_size (set_items c1 (delete key (items c1))) (size c1 - blen (e_data e))) (without key l).
Proof.
  intros (ns & Hr & ->) Hp. destruct (rep_hit c ns key p Hr Hp) as (a & d & b & -> & _ & _).
  destruct (rep_remove c a _ b Hr) as (c1 & e & Hrm & He & Hek & Hed & Hcap & Hit & Hr1).
  cbn [fst snd] in *. exists c1, e. do 4 (split; [done|]). rewrite Hed. eexists. split; [exact Hr1|].
  pose proof (rep_keys _ _ Hr) as Hk. rewrite !fmap_app in Hk.
  apply NoDup_middle in Hk as (_ & _ & Hna & Hnb & _).
  rewrite !fmap_app. by apply without_split.
Qed.

Lemma Evict_loop_holds toDelete c l :
  holds c l -> NoDup toDelete -> (forall k, k ∈ toDelete -> k ∈ l.*1) ->
  exists c', Evict_loop toDelete c = Some c' /\ holds c' (filter (fun e => e.1 ∉ toDelete) l) /\
    capacity c' = capacity c.
Proof.
  revert c l. induction toDelete as [|key toDelete IH]; intros c l Hh Hnd Hin; cbn [Evict_loop].
  - exists c. split; [done|]. split; [|done].
    by rewrite filter_all by (intros x _; apply not_elem_of_nil).
  - apply NoDup_cons in Hnd as [Hk Hnd].
    destruct (items c !! key) as [p|] eqn:Hp.
    + cbn [mbind option_bind]. destruct (remove_holds c l key p Hh Hp) as (c1 & e & -> & He & Hit & Hcap & H1).
      cbn [mbind option_bind]. rewrite He. cbn [mbind option_bind].
      destruct (IH _ _ H1 Hnd) as (c' & -> & H' & Hc').
      { intros k Hkd. specialize (Hin k ltac:(by right)). apply list_elem_of_fmap in Hin as (x & -> & Hx).
        apply list_elem_of_fmap_2, list_elem_of_filter. split; [by intros <-|done]. }
      exists c'. split; [done|]. split; [|by rewrite Hc'].
      unfold without in H'. rewrite list_filter_filter in H'.
      rewrite (filter_ext_in _ (fun e => e.1 ∉ key :: toDelete)) in H'; [done|].
      intros x _. rewrite not_elem_of_cons. tauto.
    + exfalso. destruct Hh as (ns & Hr & ->). pose proof (rep_miss c ns key Hr Hp) as Hf.
      apply find_None in Hf. by apply Hf, Hin; left.
Qed.

(** ** The refinement *)

Inductive cache_op : Type :=
| OGet (fileID blockOffset : Z)
| OSet (fileID blockOffset : Z) (data : bytes)
| OEvict (order : list cacheKey) (fileID : Z).

Definition run_op (c : BlockCache) (o : cache_op) : option (BlockCache * option bytes) :=
  match o with
  | OGet f b => Get c f b
  | OSet f b d => c ← Set_ c f b d; Some (c, None)
  | OEvict order f => c ← Evict order c f; Some (c, None)
  end.

Definition spec_op (cap : Z) (l : lru) (o : cache_op) : lru * option bytes :=
  match o with
  | OGet f b => (touch (mkKey f b) l, find (mkKey f b) l)
  | OSet f b d => (lru_set cap (mkKey f b) d l, None)
  | OEvict _ f => (filter (fun e => k_fileID e.1 <> f) l, None)
  end.

(** The range loop of [Evict] visits every key once. *)
Definition op_ok (l : lru) (o : cache_op) : Prop :=
  match o with OEvict order _ => order ≡ₚ l.*1 | _ => True end.

Lemma find_elem key d l : find key l = Some d -> (key, d) ∈ l.
Proof.
  induction l as [|[k d'] l IH]; cbn [find]; [done|]. destruct (decide (k = key)) as [->|].
  - intros [= ->]. by left.
  - intros H. right. auto.
Qed.

Lemma touch_total key l : NoDup l.*1 -> total (touch key l) = total l.
Proof.
  intros Hnd. unfold touch. destruct (find key l) as [d|] eqn:E; [|done].
  destruct (without_keys key d l Hnd (find_elem _ _ _ E)) as (l1 & l2 & -> & ->).
  apply total_perm. by rewrite Permutation_middle.
Qed.

Lemma filter_total (P : cacheKey * bytes -> Prop) `{!forall x, Decision (P x)} l :
  total (filter P l) <= total l.
Proof.
  induction l as [|e l IH]; [done|]. rewrite filter_cons. pose proof (blen_nonneg e.2).
  change (total (e :: l)) with (blen e.2 + total l). case_decide; [|lia].
  change (total (e :: filter P l)) with (blen e.2 + total (filter P l)). lia.
Qed.

(** C24: The block cache is a least-recently-used list.  Whatever the pointers
    look like, an operation on a cache that holds the blocks [l], most recent
    first, never follows a nil pointer and leaves a cache that holds what the
    list operation gives: [Get] returns the block and moves it to the front,
    [Set] does the same or inserts and drops the oldest blocks that no longer
    fit, [Evict] drops the blocks of one file, in whatever order the map is
    visited.  The bytes held never exceed the capacity. *)
Theorem cache_refines_lru (c : BlockCache) (l : lru) (o : cache_op) :
  holds c l -> op_ok l o ->
  exists c', run_op c o = Some (c', (spec_op (capacity c) l o).2) /\
    holds c' (spec_op (capacity c) l o).1 /\ capacity c' = capacity c /\
    (total l <= capacity c -> total (spec_op (capacity c) l o).1 <= capacity c).
Proof.
  intros Hh Hok. pose proof (holds_keys _ _ Hh) as Hnd. pose proof (total_nonneg l) as Hpos.
  destruct o as [f b|f b d|order f]; cbn [run_op spec_op fst snd].
  - destruct (Get_holds c l f b Hh) as (c' & HG & H' & Hc). exists c'.
    split_and!; [done..|]. by rewrite touch_total.
  - destruct (Set_holds c l f b d Hh) as (c' & HS & H' & Hc). exists c'. rewrite HS.
    split_and!; [done..|]. intros Ht. unfold lru_set. destruct (find (mkKey f b) l) eqn:E.
    + by rewrite touch_total.
    + apply trim_total. lia.
  - unfold Evict. destruct (Evict_loop_holds (filter (fun key => k_fileID key = f) order) c l Hh) as (c' & HE & H' & Hc).
    + apply NoDup_filter. cbn in Hok. by rewrite Hok.
    + intros k [_ Hk]%list_elem_of_filter. cbn in Hok. by rewrite <- Hok.
    + exists c'. rewrite HE. split; [done|].
      rewrite (filter_ext_in _ (fun e => k_fileID e.1 <> f)) in H'.
      * split; [done|]. split; [done|]. intros Ht. etrans; [apply filter_total|done].
      * intros x Hx. cbn in Hok. rewrite list_elem_of_filter, Hok. split; [|tauto].
        intros Hn E. apply Hn. split; [done|]. by apply list_elem_of_fmap_2.
Qed.

Lemma cache_refines_lru_witness :
  holds (NewBlockCache 5) [] /\
  exists c', run_op (NewBlockCache 5) (OSet 1 0 [x61; x62]) = Some (c', None) /\
    holds c' [(mkKey 1 0, [x61; x62])].
Proof.
  split; [apply NewBlockCache_holds|].
  destruct (cache_refines_lru (NewBlockCache 5) [] (OSet 1 0 [x61; x62]) (NewBlockCache_holds 5) I)
    as (c' & Hr & Hh & _).
  exists c'. exact (conj Hr Hh).
Defined.
