(* ===== verification/TableWriter.v ===== *)
(** The table writer ([pkg/lsm/sstable/writer.go]): sorted pairs go into data
    blocks, every full block is written with its trailer, and [Close] writes
    the filter, index, properties and metaindex blocks and the footer.  The
    output is any [io.Writer]; an error of it is returned and leaves the
    writer as far as it got.  A [None] is a run-time panic. *)
From Stdlib Require Strings.String.
From S2P Require Import Prelude Binary Io Crc Format Block Bloom.

#[local] Open Scope Z_scope.

(** ** Names of the meta blocks and properties *)

Module Names.
Import String.
Definition text (s : string) : bytes := list_byte_of_string s.
Definition key_count : bytes := text "indexedwatch.key_count".
Definition data_blocks : bytes := text "indexedwatch.data_blocks".
Definition bloom_filter : bytes := text "indexedwatch.bloom_filter".
Definition properties : bytes := text "indexedwatch.properties".
End Names.

(** ** Separators *)

(** A short key that is at least [a] and below [b]; [b[shared]] is out of
    range when [b] is a proper prefix of [a]. *)
Definition shortSeparator (a b : bytes) : option bytes :=
  let n := if blen b <? blen a then length b else length a in
  let shared := sharedPrefix_bytes n a b n 0 in
  if (shared =? length a)%nat then Some a
  else
    x ← a !! shared;
    if b2z x <? 0xFF then
      y ← b !! shared;
      if b2z x + 1 <? b2z y then Some (take shared a ++ [z2b (b2z x + 1)]) else Some a
    else Some a.

(** The loop from the last byte down to the first. *)
Fixpoint shortSuccessor_loop (i : nat) (a : bytes) : bytes :=
  match i with
  | O => a
  | S i =>
      let x := a !!! i in
      if b2z x <? 0xFF then take i a ++ [z2b (b2z x + 1)] else shortSuccessor_loop i a
  end.
Definition shortSuccessor (a : bytes) : bytes := shortSuccessor_loop (length a) a.

(** [make] and [encode] into it. *)
Definition encodeHandle (h : BlockHandle) : option bytes :=
  '(buf, _) ← encode h (replicate (Z.to_nat (encodedLen h)) x00) 0; Some buf.

(** ** The writer *)

Record WriterOptions : Type := mkWriterOptions {
  BlockSize : Z;
  RestartInterval : Z;
  BloomBitsPerKey : Z }.

Definition DefaultWriterOptions : WriterOptions :=
  mkWriterOptions DefaultBlockSize DefaultRestartInterval DefaultBloomBitsPerKey.

Inductive writer_error : Type :=
| ErrOrder (key prevKey : bytes)
| ErrWrite (e : io_error).

Record Writer (W : Type) : Type := mkWriter {
  w : W;
  offset : Z;
  dataBlock : blockWriter;
  indexBlock : blockWriter;
  bloom : bloomFilterWriter;
  opts : WriterOptions;
  keyCount : Z;
  smallestKey : bytes;
  largestKey : bytes;
  prevKey : option bytes;
  pendingHandle : option BlockHandle;
  pendingKey : bytes;
  dataBlockCount : Z }.
Arguments mkWriter {W}.
Arguments w {W}. Arguments offset {W}. Arguments dataBlock {W}. Arguments indexBlock {W}.
Arguments bloom {W}. Arguments opts {W}. Arguments keyCount {W}. Arguments smallestKey {W}.
Arguments largestKey {W}. Arguments prevKey {W}. Arguments pendingHandle {W}.
Arguments pendingKey {W}. Arguments dataBlockCount {W}.

Section writer.
Context {W : Type} {writer : Io.Writer W}.

Definition set_out (t : Writer W) (o : W) (off : Z) : Writer W :=
  mkWriter o off (dataBlock t) (indexBlock t) (bloom t) (opts t) (keyCount t) (smallestKey t)
    (largestKey t) (prevKey t) (pendingHandle t) (pendingKey t) (dataBlockCount t).
Definition set_dataBlock (t : Writer W) (b : blockWriter) : Writer W :=
  mkWriter (w t) (offset t) b (indexBlock t) (bloom t) (opts t) (keyCount t) (smallestKey t)
    (largestKey t) (prevKey t) (pendingHandle t) (pendingKey t) (dataBlockCount t).
Definition set_index (t : Writer W) (b : blockWriter) (p : option BlockHandle) : Writer W :=
  mkWriter (w t) (offset t) (dataBlock t) b (bloom t) (opts t) (keyCount t) (smallestKey t)
    (largestKey t) (prevKey t) p (pendingKey t) (dataBlockCount t).
Definition set_prevKey (t : Writer W) (p : option bytes) : Writer W :=
  mkWriter (w t) (offset t) (dataBlock t) (indexBlock t) (bloom t) (opts t) (keyCount t)
    (smallestKey t) (largestKey t) p (pendingHandle t) (pendingKey t) (dataBlockCount t).

Definition NewWriter (o : W) (opts : WriterOptions) : Writer W :=
  let opts := mkWriterOptions
    (if BlockSize opts <=? 0 then DefaultBlockSize else BlockSize opts)
    (if RestartInterval opts <=? 0 then DefaultRestartInterval else RestartInterval opts)
    (if BloomBitsPerKey opts <=? 0 then DefaultBloomBitsPerKey else BloomBitsPerKey opts) in
  mkWriter o 0 (newBlockWriter (RestartInterval opts)) (newBlockWriter 1)
    (newBloomFilterWriter (BloomBitsPerKey opts)) opts 0 [] [] None None [] 0.

(** The five bytes after a block. *)
Definition trailer (data : bytes) : bytes :=
  compressionNone :: put_le32 (blockChecksum data compressionNone).

Definition writeBlock (t : Writer W) (data : bytes) : Writer W * (writer_error + BlockHandle) :=
  let handle := mkHandle (offset t) (u64 (blen data)) in
  let '(o, _, err) := write (w t) data in
  match err with
  | Some e => (set_out t o (offset t), inl (ErrWrite e))
  | None =>
      let '(o, _, err) := write o (trailer data) in
      match err with
      | Some e => (set_out t o (offset t), inl (ErrWrite e))
      | None => (set_out t o (u64 (offset t + (u64 (blen data) + blockTrailerSize))), inr handle)
      end
  end.

Definition flushDataBlock (t : Writer W) : Writer W * option writer_error :=
  let '(b, data) := Block.finish (dataBlock t) in
  let '(t, r) := writeBlock (set_dataBlock t b) data in
  match r with
  | inl e => (t, Some e)
  | inr handle =>
      (mkWriter (w t) (offset t) (Block.reset (dataBlock t)) (indexBlock t) (bloom t) (opts t)
         (keyCount t) (smallestKey t) (largestKey t) (prevKey t) (Some handle)
         (Block.prevKey (dataBlock t)) (dataBlockCount t + 1), None)
  end.

(** [addIndexEntry] and clearing the pending handle. *)
Definition addIndexEntry (t : Writer W) (separator : bytes) (handle : BlockHandle)
    : option (Writer W) :=
  h ← encodeHandle handle;
  b ← Block.add (indexBlock t) separator h;
  Some (set_index t b None).

(** [append(w.prevKey[:0], key...)]: appending nothing to nil gives nil. *)
Definition append_key (prev : option bytes) (key : bytes) : option bytes :=
  match prev, key with None, [] => None | _, _ => Some key end.

(** The part of [Add] after the order check. *)
Definition add_ordered (t : Writer W) (key value : bytes) : option (Writer W * option writer_error) :=
  t ← match pendingHandle t with
      | Some h => sep ← shortSeparator (pendingKey t) key; addIndexEntry t sep h
      | None => Some t
      end;
  db ← Block.add (dataBlock t) key value;
  let t := mkWriter (w t) (offset t) db (indexBlock t) (addKey (bloom t) key) (opts t)
             (u64 (keyCount t + 1)) (if keyCount t =? 0 then key else smallestKey t) key
             (prevKey t) (pendingHandle t) (pendingKey t) (dataBlockCount t) in
  let '(t, err) :=
    if BlockSize (opts t) <=? estimatedSize (dataBlock t) then flushDataBlock t else (t, None) in
  match err with
  | Some e => Some (t, Some e)
  | None => Some (set_prevKey t (append_key (prevKey t) key), None)
  end.

Definition Add (t : Writer W) (key value : bytes) : option (Writer W * option writer_error) :=
  match prevKey t with
  | Some prev =>
      if compareBytes key prev <=? 0 then Some (t, Some (ErrOrder key prev))
      else add_ordered t key value
  | None => add_ordered t key value
  end.

Definition writeFooter (t : Writer W) (metaindexHandle indexHandle : BlockHandle)
    : option (Writer W * option writer_error) :=
  '(footer, n) ← encode metaindexHandle (replicate (Z.to_nat footerSize) x00) 0;
  '(footer, _) ← encode indexHandle footer n;
  footer ← copy_at footer (footerSize - 8) magic;
  let '(o, _, err) := write (w t) footer in
  Some (set_out t o (u64 (offset t + footerSize)), ErrWrite <$> err).

(** The body of [Close] after the last data block: filter, index, properties
    and metaindex blocks and the footer. *)
Definition write_tail (t : Writer W) : option (Writer W * (writer_error + TableMeta)) :=
  filterData ← Bloom.finish (bloom t);
  let '(t, r) := match filterData with
                 | Some d => writeBlock t d
                 | None => (t, inr (mkHandle 0 0))
                 end in
  match r with inl e => Some (t, inl e) | inr filterHandle =>
  let '(ib, indexData) := Block.finish (indexBlock t) in
  let '(t, r) := writeBlock (set_index t ib (pendingHandle t)) indexData in
  match r with inl e => Some (t, inl e) | inr indexHandle =>
  props ← add_all (newBlockWriter 1)
    [(Names.key_count, digits (keyCount t)); (Names.data_blocks, digits (dataBlockCount t))];
  let '(t, r) := writeBlock t (Block.finish props).2 in
  match r with inl e => Some (t, inl e) | inr propsHandle =>
  fh ← encodeHandle filterHandle;
  ph ← encodeHandle propsHandle;
  meta ← add_all (newBlockWriter 1)
    ((match filterData with Some _ => [(Names.bloom_filter, fh)] | None => [] end) ++
     [(Names.properties, ph)]);
  let '(t, r) := writeBlock t (Block.finish meta).2 in
  match r with inl e => Some (t, inl e) | inr metaHandle =>
  '(t, err) ← writeFooter t metaHandle indexHandle;
  match err with
  | Some e => Some (t, inl e)
  | None =>
      Some (t, inr (mkMeta (offset t) (keyCount t) (smallestKey t) (largestKey t) (dataBlockCount t)))
  end end end end end.

Definition Close (t : Writer W) : option (Writer W * (writer_error + TableMeta)) :=
  let '(t, err) := if 0 <? nEntries (dataBlock t) then flushDataBlock t else (t, None) in
  match err with
  | Some e => Some (t, inl e)
  | None =>
      t ← match pendingHandle t with
          | Some h => addIndexEntry t (shortSuccessor (pendingKey t)) h
          | None => Some t
          end;
      write_tail t
  end.

(** Adding pairs until the first error. *)
Fixpoint Add_all (t : Writer W) (kvs : list (bytes * bytes)) : option (Writer W * option writer_error) :=
  match kvs with
  | [] => Some (t, None)
  | (k, v) :: kvs =>
      '(t, err) ← Add t k v;
      match err with Some e => Some (t, Some e) | None => Add_all t kvs end
  end.
End writer.

(** A whole table written to [o]. *)
Definition write_table {W} `{Io.Writer W} (o : W) (opts : WriterOptions) (kvs : list (bytes * bytes))
    : option (Writer W * (writer_error + TableMeta)) :=
  '(t, err) ← Add_all (NewWriter o opts) kvs;
  match err with Some e => Some (t, inl e) | None => Close t end.
