(* ===== verification/CacheInterface.v ===== *)
(** What a table reader needs of a block cache: operations that do not fail
    and never return a block that was not stored under the same address.
    [BlockCache] implements it. *)
From S2P Require Import Prelude Cache CacheSpec.

#[local] Open Scope Z_scope.

Class CacheOps (C : Type) := {
  cache_get : C -> Z -> Z -> option (C * option bytes);
  cache_set : C -> Z -> Z -> bytes -> option C }.

(** [sound P c]: every cached block satisfies [P] of its address. *)
Class CacheLaws (C : Type) `{CacheOps C} := {
  sound : (Z -> Z -> bytes -> Prop) -> C -> Prop;
  sound_get P c f o : sound P c -> exists c' r, cache_get c f o = Some (c', r) /\ sound P c' /\
    forall d, r = Some d -> P f o d;
  sound_set P c f o d : sound P c -> P f o d -> exists c', cache_set c f o d = Some c' /\ sound P c' }.

#[export] Instance lru_ops : CacheOps BlockCache := {|
  cache_get := Get;
  cache_set := Set_ |}.

Definition all_blocks (P : Z -> Z -> bytes -> Prop) (l : lru) : Prop :=
  forall k d, (k, d) ∈ l -> P (k_fileID k) (k_blockOffset k) d.

Lemma touch_elem key l e : e ∈ touch key l -> e ∈ l.
Proof.
  unfold touch. destruct (find key l) as [d|] eqn:E; [|done].
  intros [-> | H]%elem_of_cons; [by apply find_elem|]. by apply list_elem_of_filter in H as [_ H].
Qed.

Lemma trim_elem cap l e : e ∈ trim cap l -> e ∈ l.
Proof.
  revert cap. induction l as [|x l IH]; intros cap; cbn [trim]; [done|]. case_match; [|by intros ?%elem_of_nil].
  intros [-> | H0]%elem_of_cons; [by left|right; eauto].
Qed.

#[export, program] Instance lru_laws : CacheLaws BlockCache := {|
  sound P c := exists l, holds c l /\ all_blocks P l |}.
Next Obligation.
  intros P c f o (l & Hh & Hp). destruct (Get_holds c l f o Hh) as (c' & HG & Hh' & _).
  exists c', (find (mkKey f o) l). split; [exact HG|]. split.
  - eexists. split; [exact Hh'|]. intros k d Hin. by apply Hp, (touch_elem (mkKey f o)).
  - intros d Hf. by apply (Hp (mkKey f o)), find_elem.
Qed.
Next Obligation.
  intros P c f o d (l & Hh & Hp) Hd. destruct (Set_holds c l f o d Hh) as (c' & HS & Hh' & _).
  exists c'. split; [exact HS|]. eexists. split; [exact Hh'|]. intros k x Hin. unfold lru_set in Hin.
  destruct (find (mkKey f o) l); [by apply Hp, (touch_elem (mkKey f o))|].
  apply trim_elem in Hin as [[= -> ->]|Hin]%elem_of_cons; [done|by apply Hp].
Qed.

Lemma NewBlockCache_sound P cap : sound P (NewBlockCache cap).
Proof.
  exists []. split; [apply NewBlockCache_holds|]. intros k d Hin. by apply not_elem_of_nil in Hin.
Qed.

Lemma lru_sound_mono (P Q : Z -> Z -> bytes -> Prop) (c : BlockCache) :
  (forall f o d, P f o d -> Q f o d) -> sound P c -> sound Q c.
Proof. intros H (l & Hh & Hp). exists l. split; [done|]. intros k d Hk. by apply H, Hp. Qed.

(** Evicting a file, in whatever order the keys are visited. *)
Lemma Evict_sound P order (c : BlockCache) f :
  sound P c -> NoDup order -> (forall k, k ∈ order -> is_Some (items c !! k)) ->
  exists c', Evict order c f = Some c' /\ sound P c'.
Proof.
  intros (l & Hh & Hp) Hnd Hk. unfold Evict.
  destruct (Evict_loop_holds (filter (fun key => k_fileID key = f) order) c l Hh) as (c' & -> & H' & _).
  - by apply NoDup_filter.
  - intros k [_ Hin]%list_elem_of_filter. destruct (Hk k Hin) as [p Hi]. destruct Hh as (ns & Hr & ->).
    destruct (rep_hit c ns k p Hr Hi) as (a & d & b & -> & _ & _). apply list_elem_of_fmap. exists (k, d).
    split; [done|]. rewrite fmap_app, fmap_cons. apply elem_of_app. right. by left.
  - exists c'. split; [done|]. eexists. split; [exact H'|]. intros k d [_ Hin]%list_elem_of_filter. by apply Hp.
Qed.
