(* ===== verification/TableLayout.v ===== *)
(** What a well-formed table file is: data blocks, an index of separators, a
    filter, and a footer that leads to them.  The writer produces such a file
    (TableWriterSpec.v) and the reader answers from it (TableReaderSpec.v). *)
From stdpp Require Import sorting.
From S2P Require Import Prelude Binary ByteOrder Sorted Io Crc Format Block BlockSpec Bloom TableWriter.

#[local] Open Scope Z_scope.

(** ** Separators *)

Lemma blt_decomp a b : blt a b ->
  common a b = length a \/
  exists p x y a' b', a = p ++ x :: a' /\ b = p ++ y :: b' /\ length p = common a b /\ b2z x < b2z y.
Proof.
  unfold blt. revert b. induction a as [|x a IH]; intros [|y b]; cbn; try done; [by left|].
  destruct (Z.compare_spec (b2z x) (b2z y)) as [E|E|E]; intros H; try done.
  - apply b2z_inj in E as ->. rewrite bool_decide_eq_true_2 by done.
    destruct (IH b H) as [Hc|(p & x' & y' & a' & b' & -> & -> & Hl & Hlt)]; [left; by rewrite Hc|].
    right. exists (y :: p), x', y', a', b'. cbn. by rewrite Hl.
  - right. rewrite bool_decide_eq_false_2 by (intros ->; lia).
    by exists [], x, y, a, b.
Qed.

Lemma lex_bump p x a : b2z x < 255 -> lex (p ++ x :: a) (p ++ [z2b (b2z x + 1)]) = Lt.
Proof.
  intros Hx. rewrite lex_app_same. cbn. rewrite b2z_z2b_small by (pose proof (b2z_bounds x); lia).
  by rewrite (proj2 (Z.compare_lt_iff _ _)) by lia.
Qed.

(** Between adjacent keys there is a separator no longer than the first. *)
Lemma shortSeparator_spec a b : blt a b ->
  exists s, shortSeparator a b = Some s /\ ble a s /\ blt s b /\ blen s <= blen a.
Proof.
  intros Hab. unfold shortSeparator. set (n := if _ <? _ then _ else _).
  assert (Hn : n = Nat.min (length a) (length b)) by (unfold n, blen; case_match; bool_hyps; lia).
  rewrite (shared_bytes_spec n a b n 0 Hn) by lia.
  destruct (blt_decomp a b Hab) as [Hc|(p & x & y & a' & b' & -> & -> & Hl & Hlt)].
  - rewrite Hc, Nat.eqb_refl. exists a. split_and!; [done|apply ble_refl|done|done].
  - rewrite <- Hl. rewrite (proj2 (Nat.eqb_neq _ _)) by (rewrite length_app; cbn; lia).
    rewrite !list_lookup_middle by done. cbn [mbind option_bind].
    rewrite (proj2 (Z.ltb_lt _ 255)) by (pose proof (b2z_bounds y); lia).
    destruct (b2z x + 1 <? b2z y) eqn:E; bool_hyps.
    + rewrite take_app_length. eexists. split; [done|].
      pose proof (b2z_bounds y). split; [|split].
      * apply blt_ble. unfold blt. apply lex_bump. lia.
      * unfold blt. rewrite lex_app_same. cbn. rewrite b2z_z2b_small by (pose proof (b2z_bounds x); lia).
        by rewrite (proj2 (Z.compare_lt_iff _ _)) by lia.
      * rewrite !blen_app, !blen_cons, blen_nil. pose proof (blen_nonneg a'). lia.
    + eexists. split_and!; [done|apply ble_refl|done|done].
Qed.

Lemma shortSuccessor_spec a : ble a (shortSuccessor a) /\ blen (shortSuccessor a) <= blen a.
Proof.
  unfold shortSuccessor. assert (Hi : (length a <= length a)%nat) by lia. revert Hi.
  generalize (length a) at 1 3 4. intros i. induction i as [|i IH]; intros Hi; cbn [shortSuccessor_loop].
  - split; [apply ble_refl|done].
  - destruct (b2z (a !!! i) <? 255) eqn:E; [|apply IH; lia]. bool_hyps.
    destruct (lookup_lt_is_Some_2 a i ltac:(lia)) as [x Hx].
    rewrite (list_lookup_total_correct _ _ _ Hx) in *. split.
    + apply blt_ble. unfold blt. rewrite <- (take_drop_middle a i x Hx) at 1. by apply lex_bump.
    + rewrite blen_app, blen_cons, blen_nil. unfold blen. rewrite length_take. lia.
Qed.

Lemma encodeHandle_eq h : encodeHandle h = Some (handle_bytes h).
Proof.
  unfold encodeHandle. pose proof (blen_handle_bytes h).
  pose proof (encode_into h [] (replicate (Z.to_nat (encodedLen h)) x00) [] 0) as He.
  rewrite encodedLen_bytes in *. rewrite !app_nil_r in He. cbn [app] in He.
  rewrite He; [done|done|]. rewrite blen_replicate. lia.
Qed.

(** ** Blocks in a file *)

Definition block_at (f : bytes) (h : BlockHandle) (d : bytes) : Prop :=
  exists pre post, f = pre ++ d ++ trailer d ++ post /\
    Offset h = blen pre /\ Length h = blen d /\ blen pre + blen d < 2 ^ 40.

Lemma block_at_app f h d x : block_at f h d -> block_at (f ++ x) h d.
Proof.
  intros (pre & post & -> & Ho & Hl & Hb). exists pre, (post ++ x). split; [|done].
  by rewrite <- !app_assoc.
Qed.

Lemma block_at_handle_ok f h d : block_at f h d -> handle_ok h.
Proof.
  intros (pre & post & -> & Ho & Hl & Hb). unfold handle_ok. rewrite Ho, Hl.
  pose proof (blen_nonneg pre). pose proof (blen_nonneg d). lia.
Qed.

Lemma blen_trailer d : blen (trailer d) = 5.
Proof. unfold trailer. rewrite blen_cons, blen_put_le32. done. Qed.

Lemma block_at_before f h d : block_at f h d -> Offset h < blen f.
Proof.
  intros (pre & post & -> & -> & _). rewrite !blen_app, blen_trailer.
  pose proof (blen_nonneg d). pose proof (blen_nonneg post). lia.
Qed.

(** ** Tables *)

(** A data block with its index entry. *)
Record part : Type := mkPart { p_sep : bytes; p_handle : BlockHandle; p_pairs : list (bytes * bytes) }.

Definition pairs_of (ps : list part) : list (bytes * bytes) := concat (p_pairs <$> ps).
Definition index_of (ps : list part) : list (bytes * bytes) :=
  (fun p => (p_sep p, handle_bytes (p_handle p))) <$> ps.

(** Separators lie between their block and everything after it. *)
Fixpoint separated (ps : list part) (rest : list (bytes * bytes)) : Prop :=
  match ps with
  | [] => True
  | p :: ps =>
      Forall (fun q => ble q.1 (p_sep p)) (p_pairs p) /\
      Forall (fun q => blt (p_sep p) q.1) (pairs_of ps ++ rest) /\
      separated ps rest
  end.

Record parts_ok (f : bytes) (r : Z) (ps : list part) : Prop := {
  parts_blocks : Forall (fun p => p_pairs p <> [] /\ block_at f (p_handle p) (block_bytes r (p_pairs p)) /\
                                  blen (block_bytes r (p_pairs p)) < 2 ^ 32) ps;
  parts_offsets : NoDup ((fun p => Offset (p_handle p)) <$> ps) }.

(** The filter and the metaindex that leads to it. *)
Definition meta_of (filter : option BlockHandle) (props : BlockHandle) : list (bytes * bytes) :=
  match filter with
  | Some h => [(Names.bloom_filter, handle_bytes h)]
  | None => []
  end ++ [(Names.properties, handle_bytes props)].

Record table (f : bytes) (r : Z) (ps : list part) (mh ih : BlockHandle) : Prop := {
  table_interval : 0 < r;
  table_parts : parts_ok f r ps;
  table_separated : separated ps [];
  table_ascending : ascending (pairs_of ps);
  table_footer : exists pre zs, f = pre ++ handle_bytes mh ++ handle_bytes ih ++ zs ++ magic /\
    blen (handle_bytes mh ++ handle_bytes ih ++ zs) = footerSize - 8;
  table_index : block_at f ih (block_bytes 1 (index_of ps)) /\
    blen (block_bytes 1 (index_of ps)) < 2 ^ 32;
  table_meta : exists filter props d,
    block_at f mh (block_bytes 1 (meta_of filter props)) /\ covers d (pairs_of ps).*1 /\
    match filter, d with
    | Some h, Some d => block_at f h d
    | None, None => True
    | _, _ => False
    end }.

Lemma pairs_of_app a b : pairs_of (a ++ b) = pairs_of a ++ pairs_of b.
Proof. unfold pairs_of. by rewrite fmap_app, concat_app. Qed.

Lemma pairs_of_cons p ps : pairs_of (p :: ps) = p_pairs p ++ pairs_of ps.
Proof. done. Qed.

Lemma separated_app a b rest :
  separated (a ++ b) rest <-> separated a (pairs_of b ++ rest) /\ separated b rest.
Proof.
  induction a as [|p a IH]; cbn [app separated]; [naive_solver|].
  rewrite IH, pairs_of_app, <- app_assoc. naive_solver.
Qed.

(** Separators ascend. *)
Lemma index_ascending ps rest :
  separated ps rest -> Forall (fun p => p_pairs p <> []) ps -> ascending (index_of ps).
Proof.
  induction ps as [|p ps IH]; [intros _ _; apply SSorted_nil|]. intros (_ & Hlt & Hs) [_ Hne]%Forall_cons.
  apply ascending_cons. split; [by apply IH|]. cbn [fst].
  clear IH. revert Hlt Hs Hne. induction ps as [|p' ps IH]; intros Hlt Hs Hne; [constructor|].
  apply Forall_cons in Hne as [Hp Hne]. destruct Hs as (Hle & _ & Hs).
  rewrite pairs_of_cons, <- app_assoc, Forall_app in Hlt. destruct Hlt as [Hp1 Hp2].
  constructor; [|by apply IH]. cbn. destruct (p_pairs p') as [|q l]; [done|].
  apply Forall_cons in Hp1 as [H1 _]. apply Forall_cons in Hle as [H2 _]. eauto with iw.
Qed.
