(* ===== verification/TableWriterSpec.v ===== *)
(** The writer produces well-formed tables: the invariant that ties the bytes
    written so far to the blocks and separators they form, its preservation by
    [Add], and the table [Close] completes. *)
From stdpp Require Import sorting.
From S2P Require Import Prelude Binary ByteOrder Sorted Io Crc Format Block BlockSpec Bloom TableWriter TableLayout.

#[local] Open Scope Z_scope.

(** ** Sizes *)

(** What the pairs can take in the file at most, index entries and block
    overheads included. *)
Definition weight (kvs : list (bytes * bytes)) : Z :=
  foldr (fun kv s => blen kv.1 + blen kv.2 + 64 + s) 0 kvs.

Lemma weight_app l1 l2 : weight (l1 ++ l2) = weight l1 + weight l2.
Proof.
  induction l1 as [|kv l1 IH]; [done|]. cbn [app weight foldr]. fold (weight (l1 ++ l2)). fold (weight l1). lia.
Qed.

Lemma weight_cons kv l : weight (kv :: l) = blen kv.1 + blen kv.2 + 64 + weight l.
Proof. done. Qed.

Lemma weight_length l : 64 * blen l <= weight l.
Proof.
  induction l as [|kv l IH]; [done|]. rewrite weight_cons, blen_cons.
  pose proof (blen_nonneg kv.1). pose proof (blen_nonneg kv.2). lia.
Qed.

Lemma payload_weight l : payload l + 30 * blen l <= weight l + 4.
Proof.
  induction l as [|kv l IH]; [done|]. rewrite weight_cons, blen_cons.
  cbn [payload foldr]. fold (payload l). lia.
Qed.

Lemma last_key_weight l : blen (last_key [] l) + 64 * blen l <= weight l.
Proof.
  induction l as [|[k v] l IH] using rev_ind; [done|].
  rewrite last_key_snoc, weight_app, blen_app, weight_cons, blen_cons. cbn [fst snd].
  pose proof (weight_length l). pose proof (blen_nonneg v).
  change (weight []) with 0. change (blen (@nil (bytes * bytes))) with 0. lia.
Qed.

Section writer.
Context {W : Type} {writer : Io.Writer W} {laws : WriterLaws W}.

(** Only the output makes the table writer fail, and only one that does not
    take [table_limit] bytes. *)
Definition table_limit : Z := 2 ^ 40.
Definition failed (t : Writer W) (e : writer_error) : Prop :=
  (exists x, e = ErrWrite x) /\ reach (w t) < table_limit.

(** What a step of the writer without error leaves as it is. *)
Definition same_setup (t t' : Writer W) : Prop := opts t' = opts t /\ reach (w t') = reach (w t).

Lemma failed_same t t' e : same_setup t t' -> failed t' e -> failed t e.
Proof. unfold failed. by intros [_ ->]. Qed.

Lemma same_setup_trans t1 t2 t3 : same_setup t1 t2 -> same_setup t2 t3 -> same_setup t1 t3.
Proof. intros [? ?] [? ?]. split; congruence. Qed.

Lemma write_failed (t : Writer W) o p o' n x :
  write o p = (o', n, Some x) -> blen (written o) + blen p < table_limit -> reach o = reach (w t) ->
  failed t (ErrWrite x).
Proof.
  intros Hw Hl Hc. split; [by eexists|]. pose proof (reach_passed _ _ _ _ _ Hw). lia.
Qed.

(** ** Writing one block *)

Lemma writeBlock_spec (t : Writer W) d :
  offset t = blen (written (w t)) -> offset t + blen d + 5 < 2 ^ 40 ->
  exists t' res, writeBlock t d = (t', res) /\
    match res with
    | inl e => failed t e
    | inr h => t' = set_out t (w t') (offset t + blen d + 5) /\
        written (w t') = written (w t) ++ d ++ trailer d /\ Offset h = offset t /\
        block_at (written (w t')) h d /\ same_setup t t'
    end.
Proof.
  intros Ho Hlim. pose proof (blen_nonneg d) as Hd. pose proof (blen_nonneg (written (w t))) as Hw0.
  unfold writeBlock. destruct (write (w t) d) as [[o1 n1] [e1|]] eqn:E1.
  { eexists _, _. split; [done|]. eapply write_failed; [exact E1|unfold table_limit; lia|done]. }
  destruct (write_ok _ _ _ _ E1) as [_ W1]. pose proof (reach_kept _ _ _ _ _ E1) as C1.
  destruct (write o1 (trailer d)) as [[o2 n2] [e2|]] eqn:E2.
  { eexists _, _. split; [done|]. eapply write_failed; [exact E2| |done].
    rewrite W1, blen_app, blen_trailer. unfold table_limit. lia. }
  destruct (write_ok _ _ _ _ E2) as [_ W2]. pose proof (reach_kept _ _ _ _ _ E2) as C2.
  eexists _, _. split; [done|].
  unfold blockTrailerSize. rewrite !u64_small by (rewrite ?u64_small; lia).
  cbn [w set_out]. rewrite W2, W1. split_and!.
  - unfold set_out. cbn. f_equal. lia.
  - by rewrite <- app_assoc.
  - done.
  - exists (written (w t)), []. rewrite app_nil_r, <- app_assoc.
    split; [done|]. split; [done|]. split; [done|]. lia.
  - split; [done|]. cbn [w set_out]. congruence.
Qed.

(** ** The invariant *)

(** The last data block when it has no index entry yet. *)
Definition pending_ok (t : Writer W) (cur : list (bytes * bytes)) (tail : list (bytes * bytes)) : Prop :=
  match pendingHandle t with
  | Some h => cur = [] /\ tail <> [] /\ pendingKey t = last_key [] tail /\
      block_at (written (w t)) h (block_bytes (RestartInterval (opts t)) tail) /\
      blen (block_bytes (RestartInterval (opts t)) tail) < 2 ^ 32
  | None => tail = []
  end.

(** [ps]: indexed blocks, [tail]: the block waiting for its index entry,
    [cur]: the block being filled. *)
Record wstate (t : Writer W) (ps : list part) (tail cur kvs : list (bytes * bytes)) : Prop := {
  ws_interval : 0 < RestartInterval (opts t);
  ws_bits : 0 <= BloomBitsPerKey (opts t);
  ws_kvs : kvs = pairs_of ps ++ tail ++ cur;
  ws_offset : offset t = blen (written (w t));
  ws_size : offset t <= weight (pairs_of ps ++ tail);
  ws_data : packed (RestartInterval (opts t)) (dataBlock t) cur;
  ws_index : packed 1 (indexBlock t) (index_of ps);
  ws_index_size : payload (index_of ps) <= weight (pairs_of ps) + 4;
  ws_parts : parts_ok (written (w t)) (RestartInterval (opts t)) ps;
  ws_separated : separated ps (tail ++ cur);
  ws_pending : pending_ok t cur tail;
  ws_pending_offset : forall h, pendingHandle t = Some h -> Offset h ∉ (fun p => Offset (p_handle p)) <$> ps;
  ws_bloom : bloom t = add_keys (newBloomFilterWriter (BloomBitsPerKey (opts t))) kvs.*1;
  ws_ascending : ascending kvs;
  ws_count : keyCount t = blen kvs;
  ws_blocks : dataBlockCount t = blen ps + (match pendingHandle t with Some _ => 1 | None => 0 end);
  ws_range : smallestKey t = default [] (head kvs.*1) /\ largestKey t = last_key [] kvs }.

Lemma parts_ok_app f r ps x : parts_ok f r ps -> parts_ok (f ++ x) r ps.
Proof.
  intros [Hb Ho]. split; [|done]. eapply Forall_impl; [exact Hb|]. cbn. intros p (H1 & H2 & H3).
  split_and!; [done|by apply block_at_app|done].
Qed.

Lemma parts_offsets_before f r ps o :
  parts_ok f r ps -> blen f <= o -> o ∉ (fun p => Offset (p_handle p)) <$> ps.
Proof.
  intros [Hb _] Ho (p & -> & Hp)%list_elem_of_fmap. rewrite Forall_forall in Hb.
  destruct (Hb p Hp) as (_ & Hat & _). apply block_at_before in Hat. lia.
Qed.

Lemma NewWriter_state o opts :
  written o = [] -> exists t, NewWriter o opts = t /\ w t = o /\ wstate t [] [] [] [].
Proof.
  intros Ho. eexists. split; [done|]. unfold NewWriter. cbn. split; [done|].
  split; cbn; try done; try apply new_packed; try (by rewrite Ho).
  - case_match; bool_hyps; [unfold DefaultRestartInterval; lia|done].
  - case_match; bool_hyps; [unfold DefaultBloomBitsPerKey; lia|lia].
  - split; [constructor|apply NoDup_nil_2].
  - apply SSorted_nil.
Qed.

(** ** Flushing a data block *)

Lemma block_weight r c : c <> [] -> blen (block_bytes r c) + 5 <= weight c.
Proof.
  intros Hne. pose proof (block_payload r c). pose proof (payload_weight c).
  assert (1 <= blen c) by (destruct c; [done|]; rewrite blen_cons; blia). lia.
Qed.

Lemma flushDataBlock_spec t ps cur kvs :
  wstate t ps [] cur kvs -> pendingHandle t = None -> cur <> [] -> weight kvs < 2 ^ 31 ->
  exists t' err, flushDataBlock t = (t', err) /\
    match err with
    | Some e => failed t e
    | None => wstate t' ps cur [] kvs /\ prevKey t' = prevKey t /\ same_setup t t'
    end.
Proof.
  intros Hw Hnp Hne Hsz. destruct Hw as [Hr Hbp Hk Ho Hos Hd Hi His Hp Hs Hpe Hpo Hbl Ha Hc Hdb Hrg].
  rewrite app_nil_r in Hos. cbn [app] in Hk, Hs. rewrite Hk, weight_app in Hsz.
  pose proof (weight_length (pairs_of ps)) as Hw0. pose proof (blen_nonneg (pairs_of ps)).
  pose proof (block_weight (RestartInterval (opts t)) cur Hne) as Hbw.
  unfold flushDataBlock. destruct (Block.finish (dataBlock t)) as [b data] eqn:Ef.
  assert (Hdata : data = block_bytes (RestartInterval (opts t)) cur).
  { rewrite <- (finish_packed _ _ _ Hd); [by rewrite Ef|]. pose proof (weight_length cur). lia. }
  assert (Hpk : Block.prevKey b = last_key [] cur /\ restartInterval b = RestartInterval (opts t)).
  { injection Ef as <- _. cbn. by rewrite (packed_prev _ _ _ Hd), (packed_interval _ _ _ Hd). }
  destruct Hpk as [Hpk Hri].
  destruct (writeBlock_spec (set_dataBlock t b) data) as (t1 & res & -> & Hres); [exact Ho|rewrite Hdata; cbn [offset set_dataBlock]; lia|].
  destruct res as [e|h]; [by eexists _, _|]. destruct Hres as (Ht1 & Hwr & Hoh & Hat & Hsame).
  eexists _, _. split; [done|]. rewrite Ht1. cbn [w offset dataBlock indexBlock bloom opts keyCount smallestKey
    largestKey prevKey dataBlockCount set_out set_dataBlock]. cbn [offset set_dataBlock] in Hoh.
  split; [|split; [done|by split; [|apply Hsame]]]. cbn [w set_dataBlock] in Hwr.
  split; cbn [w offset dataBlock indexBlock bloom opts keyCount smallestKey largestKey prevKey dataBlockCount
    pendingHandle pendingKey]; try done.
  - by rewrite app_nil_r.
  - rewrite Hwr, !blen_app, blen_trailer. lia.
  - rewrite weight_app, Hdata. lia.
  - rewrite Hwr. by apply parts_ok_app.
  - by rewrite app_nil_r.
  - unfold pending_ok. cbn [pendingHandle pendingKey w opts]. rewrite Hpk, <- Hdata.
    split_and!; try done. rewrite Hdata. lia.
  - intros h' [= <-]. rewrite Hoh. apply (parts_offsets_before _ _ _ _ Hp). lia.
  - rewrite Hdb, Hnp. lia.
Qed.

(** ** The pending index entry *)

Lemma separated_snoc ps p rest :
  separated ps (p_pairs p ++ rest) -> Forall (fun q => ble q.1 (p_sep p)) (p_pairs p) ->
  Forall (fun q => blt (p_sep p) q.1) rest -> separated (ps ++ [p]) rest.
Proof.
  intros Hs Hle Hlt. apply separated_app. split; [|by split_and!].
  by rewrite pairs_of_cons, app_nil_r.
Qed.

(** A larger key at the end stays separated when something came before it. *)
Lemma separated_extend ps rest k v :
  separated ps rest -> rest <> [] -> Forall (fun q => blt q.1 k) rest ->
  separated ps (rest ++ [(k, v)]).
Proof.
  intros Hs Hne Hlt. induction ps as [|p ps IH]; [done|]. destruct Hs as (Hle & Hsep & Hs).
  split_and!; [done| |by apply IH]. rewrite app_assoc. apply Forall_app. split; [done|].
  constructor; [|constructor]. cbn. destruct rest as [|q rest]; [done|].
  apply Forall_app in Hsep as [_ Hsep]. apply Forall_cons in Hsep as [H1 _].
  apply Forall_cons in Hlt as [H2 _]. eauto with iw.
Qed.

(** The last key bounds an ascending block. *)
Lemma ascending_last l : ascending l -> Forall (fun q => ble q.1 (last_key [] l)) l.
Proof.
  destruct l as [|[k v] l _] using rev_ind; [constructor|]. intros Ha.
  rewrite last_key_snoc. apply ascending_app in Ha as (_ & _ & Hl). apply Forall_app. split.
  - eapply Forall_impl; [exact Hl|]. cbn. intros q Hq. apply Forall_cons in Hq as [Hq _]. by apply blt_ble.
  - constructor; [apply ble_refl|constructor].
Qed.

Lemma addIndexEntry_spec t ps tail kvs h sep rest :
  wstate t ps tail [] kvs -> pendingHandle t = Some h -> weight kvs < 2 ^ 31 ->
  ble (last_key [] tail) sep -> blen sep <= blen (last_key [] tail) ->
  Forall (fun q => blt sep q.1) rest -> separated ps (tail ++ rest) ->
  exists t' ps', addIndexEntry t sep h = Some t' /\ pairs_of ps' = kvs /\
    wstate t' ps' [] [] kvs /\ separated ps' rest /\
    pendingHandle t' = None /\ prevKey t' = prevKey t /\ same_setup t t'.
Proof.
  intros Hw Hh Hsz Hle Hsl Hrest Hsr.
  destruct Hw as [Hr Hbp Hk Ho Hos Hd Hi His Hp Hs Hpe Hpo Hbl Ha Hc Hdb Hrg].
  unfold pending_ok in Hpe. rewrite Hh in Hpe. destruct Hpe as (_ & Hne & Hpk & Hat & Hfit).
  rewrite app_nil_r in Hk, Hs. pose proof (last_key_weight tail) as Hlk.
  assert (Htl : 1 <= blen tail) by (destruct tail; [done|]; rewrite blen_cons; blia).
  pose proof (blen_handle_bytes h) as Hhb. rewrite Hk, weight_app in Hsz.
  pose proof (weight_length (pairs_of ps)). pose proof (blen_nonneg (pairs_of ps)). pose proof (blen_nonneg sep).
  unfold addIndexEntry. rewrite encodeHandle_eq. cbn [mbind option_bind].
  destruct (add_packed 1 (indexBlock t) (index_of ps) sep (handle_bytes h) Hi) as (ib & -> & Hib); try lia.
  { rewrite (packed_buf _ _ _ Hi). pose proof (layout_payload 1 0 [] (index_of ps)).
    pose proof (blen_nonneg (index_of ps)). lia. }
  cbn [mbind option_bind]. set (p := mkPart sep h tail). exists (set_index t ib None), (ps ++ [p]).
  assert (Hbelow : Forall (fun q => ble q.1 sep) tail).
  { rewrite Hk in Ha. apply ascending_app in Ha as (_ & Ha & _).
    eapply Forall_impl; [by apply ascending_last|]. cbn. eauto with iw. }
  assert (Hpairs : pairs_of (ps ++ [p]) = kvs).
  { rewrite pairs_of_app, pairs_of_cons, Hk. cbn. by rewrite app_nil_r. }
  assert (Hidx : index_of (ps ++ [p]) = index_of ps ++ [(sep, handle_bytes h)])
    by (unfold index_of; by rewrite fmap_app).
  split; [done|]. split; [done|]. split; [|split; [by apply separated_snoc|done]].
  split; cbn [w offset dataBlock indexBlock bloom opts keyCount smallestKey largestKey prevKey dataBlockCount
    pendingHandle pendingKey set_index]; try done.
  - by rewrite Hpairs, app_nil_r.
  - by rewrite Hpairs, app_nil_r, Hk.
  - by rewrite Hidx.
  - rewrite Hpairs, Hk, Hidx, payload_app, weight_app.
    change (payload [(sep, handle_bytes h)]) with (blen sep + blen (handle_bytes h) + 34 + 4). lia.
  - destruct Hp as [Hb1 Hb2]. split.
    + apply Forall_app. split; [done|]. by repeat constructor.
    + rewrite fmap_app. apply NoDup_app. split_and!; [done| |apply NoDup_singleton].
      intros x Hx. cbn. intros ->%list_elem_of_singleton. by apply (Hpo h Hh).
  - apply separated_snoc; [by rewrite app_nil_r|done|constructor].
  - rewrite Hdb, Hh, blen_app, blen_cons, blen_nil. lia.
Qed.

(** ** Adding a pair *)

Definition prev_ok (prev : option bytes) (kvs : list (bytes * bytes)) : Prop :=
  match prev with
  | Some p => kvs <> [] /\ p = last_key [] kvs
  | None => forall k, k ∈ kvs.*1 -> k = []
  end.

(** The state between two calls of [Add]. *)
Definition ready (t : Writer W) (kvs : list (bytes * bytes)) : Prop :=
  exists ps tail cur, wstate t ps tail cur kvs /\ (ps = [] \/ tail ++ cur <> []) /\ prev_ok (prevKey t) kvs.

Lemma NewWriter_ready o opts :
  written o = [] -> w (NewWriter o opts) = o /\ ready (NewWriter o opts) [].
Proof.
  intros Ho. destruct (NewWriter_state o opts Ho) as (t & <- & Hw & Hs). split; [done|].
  exists [], [], []. split; [done|]. split; [by left|]. intros k. by intros ?%not_elem_of_nil.
Qed.

Lemma last_below kvs k v : kvs <> [] -> ascending (kvs ++ [(k, v)]) -> blt (last_key [] kvs) k.
Proof.
  destruct kvs as [|[k' v'] kvs _] using rev_ind; [done|]. intros _ Ha.
  rewrite last_key_snoc. apply ascending_app in Ha as (_ & _ & Ha).
  apply Forall_app in Ha as [_ Ha]. apply Forall_cons in Ha as [Ha _]. by apply Forall_cons in Ha as [Ha _].
Qed.

Lemma last_key_app prev a b : b <> [] -> last_key prev (a ++ b) = last_key [] b.
Proof.
  destruct b as [|[k v] b _] using rev_ind; [done|]. intros _. by rewrite app_assoc, !last_key_snoc.
Qed.

(** The index entry of the block before, when there is one. *)
Lemma add_pending_spec t ps tail cur kvs k v :
  wstate t ps tail cur kvs -> (ps = [] \/ tail ++ cur <> []) -> ascending (kvs ++ [(k, v)]) ->
  weight kvs < 2 ^ 31 ->
  exists t' ps' cur', match pendingHandle t with
      | Some h => sep ← shortSeparator (pendingKey t) k; addIndexEntry t sep h
      | None => Some t
      end = Some t' /\
    wstate t' ps' [] cur' kvs /\ pendingHandle t' = None /\ separated ps' (cur' ++ [(k, v)]) /\
    prevKey t' = prevKey t /\ same_setup t t'.
Proof.
  intros Hw Haf Ha Hsz. pose proof (ws_pending _ _ _ _ _ Hw) as Hpe. unfold pending_ok in Hpe.
  assert (Hall : Forall (fun q => blt q.1 k) kvs).
  { apply ascending_app in Ha as (_ & _ & Ha). eapply Forall_impl; [exact Ha|]. cbn.
    intros q Hq. by apply Forall_cons in Hq as [Hq _]. }
  rewrite (ws_kvs _ _ _ _ _ Hw), !Forall_app in Hall. destruct Hall as (_ & Hat & Hac).
  destruct (pendingHandle t) as [h|] eqn:Eh.
  - destruct Hpe as (-> & Hne & Hpk & _).
    assert (Hlt : blt (pendingKey t) k).
    { rewrite Hpk, <- (last_key_app [] (pairs_of ps) tail) by done. pose proof (ws_kvs _ _ _ _ _ Hw) as Hk.
      rewrite app_nil_r in Hk. rewrite <- Hk. apply (last_below _ k v); [|done].
      rewrite Hk. intros E. by apply app_eq_nil in E as [_ ->]. }
    destruct (shortSeparator_spec _ _ Hlt) as (sep & -> & H1 & H2 & H3). cbn [mbind option_bind].
    rewrite Hpk in *.
    destruct (addIndexEntry_spec t ps tail kvs h sep [(k, v)] Hw Eh Hsz H1 H3) as (t' & ps' & -> & _ & Hw' & Hs' & Hp');
      [by constructor| |].
    { apply separated_extend; [|done..]. pose proof (ws_separated _ _ _ _ _ Hw) as Hs. by rewrite app_nil_r in Hs. }
    destruct Hp' as (? & ? & ?). by exists t', ps', [].
  - subst tail. exists t, ps, cur. split_and!; try done.
    destruct Haf as [->|Hne]; [done|]. by apply separated_extend; [apply Hw|..].
Qed.

Lemma prev_ok_snoc prev kvs k v :
  prev_ok prev kvs -> ascending (kvs ++ [(k, v)]) -> prev_ok (append_key prev k) (kvs ++ [(k, v)]).
Proof.
  intros Hp Ha. unfold append_key, prev_ok in *.
  assert (Hne : kvs ++ [(k, v)] <> []) by (intros E; by apply app_eq_nil in E as [_ ?]).
  destruct prev as [p|]; [by rewrite last_key_snoc|].
  destruct k as [|x k]; [|by rewrite last_key_snoc].
  intros k'. rewrite fmap_app, elem_of_app. intros [Hin|Hin]; [by apply Hp|].
  cbn in Hin. by apply list_elem_of_singleton in Hin.
Qed.

Lemma add_ordered_spec t kvs k v :
  ready t kvs -> ascending (kvs ++ [(k, v)]) -> weight (kvs ++ [(k, v)]) < 2 ^ 31 ->
  exists t' err, add_ordered t k v = Some (t', err) /\
    match err with
    | Some e => failed t e
    | None => ready t' (kvs ++ [(k, v)]) /\ same_setup t t'
    end.
Proof.
  intros (ps & tail & cur & Hw & Haf & Hpr) Ha Hsz. pose proof Hsz as Hsz'.
  rewrite weight_app, weight_cons in Hsz. cbn [fst snd] in Hsz. change (weight []) with 0 in Hsz.
  pose proof (blen_nonneg k). pose proof (blen_nonneg v).
  destruct (add_pending_spec t ps tail cur kvs k v Hw Haf Ha ltac:(lia))
    as (t1 & ps1 & cur1 & Hstep & Hw1 & Hnp & Hsep & Hpk1 & Hop1).
  unfold add_ordered. rewrite Hstep. cbn [mbind option_bind]. clear Hw Haf Hstep.
  destruct Hw1 as [Hr Hbp Hk Ho Hos Hd Hi His Hp Hs Hpe Hpo Hbl Hasc Hc Hdb Hrg].
  cbn [app] in Hk, Hs. rewrite app_nil_r in Hos.
  pose proof (weight_length kvs) as Hwl. pose proof (blen_nonneg kvs) as Hkl.
  assert (Hcw : weight cur1 <= weight kvs).
  { rewrite Hk, weight_app. pose proof (weight_length (pairs_of ps1)). pose proof (blen_nonneg (pairs_of ps1)). lia. }
  destruct (add_packed _ _ cur1 k v Hd Hr) as (db & -> & Hdb'); try lia.
  { rewrite (packed_buf _ _ _ Hd). pose proof (layout_payload (RestartInterval (opts t1)) 0 [] cur1).
    pose proof (payload_weight cur1). pose proof (blen_nonneg cur1). lia. }
  cbn [mbind option_bind]. rewrite (u64_small (keyCount t1 + 1)) by lia.
  set (t2 := mkWriter _ _ db _ _ _ _ _ _ _ _ _ _).
  assert (Hw2 : wstate t2 ps1 [] (cur1 ++ [(k, v)]) (kvs ++ [(k, v)])).
  { split; cbn [t2 w offset dataBlock indexBlock bloom opts keyCount smallestKey largestKey prevKey dataBlockCount
      pendingHandle pendingKey]; try done.
    - by rewrite Hk, <- app_assoc.
    - by rewrite app_nil_r.
    - unfold pending_ok in *. cbn [t2 pendingHandle]. by rewrite Hnp in *.
    - rewrite Hbl, fmap_app. unfold add_keys. by rewrite foldl_app.
    - rewrite Hc, blen_app, blen_cons, blen_nil. lia.
    - rewrite last_key_snoc. split; [|done]. destruct Hrg as [Hsm _]. rewrite Hc, Hsm.
      destruct kvs as [|q l]; [done|]. rewrite blen_cons. pose proof (blen_nonneg l).
      by rewrite (proj2 (Z.eqb_neq _ _)) by lia. }
  assert (Hprev : prev_ok (append_key (prevKey t2) k) (kvs ++ [(k, v)]))
    by (cbn [t2 prevKey]; rewrite Hpk1; by apply prev_ok_snoc).
  assert (Hne : cur1 ++ [(k, v)] <> []) by (intros E; by apply app_eq_nil in E as [_ ?]).
  change (opts t2) with (opts t1). destruct (BlockSize (opts t1) <=? estimatedSize (dataBlock t2)).
  - destruct (flushDataBlock_spec t2 ps1 _ _ Hw2 Hnp Hne Hsz') as (t3 & err & -> & Herr).
    destruct err as [e|]; [eexists _, _; split; [done|]; by apply (failed_same t t2)|]. destruct Herr as (Hw3 & Hp3 & Ho3).
    eexists _, _. split; [done|]. split; [|by apply (same_setup_trans t t2)].
    exists ps1, (cur1 ++ [(k, v)]), []. split; [by destruct Hw3|]. rewrite app_nil_r. split; [by right|].
    cbn [prevKey set_prevKey]. by rewrite Hp3.
  - eexists _, _. split; [done|]. split; [|done].
    exists ps1, [], (cur1 ++ [(k, v)]). split; [by destruct Hw2|]. by split; [right|].
Qed.

Lemma Add_spec t kvs k v :
  ready t kvs -> ascending (kvs ++ [(k, v)]) -> weight (kvs ++ [(k, v)]) < 2 ^ 31 ->
  exists t' err, Add t k v = Some (t', err) /\
    match err with
    | Some e => failed t e
    | None => ready t' (kvs ++ [(k, v)]) /\ same_setup t t'
    end.
Proof.
  intros Hr Ha Hsz. unfold Add. pose proof Hr as (ps & tail & cur & _ & _ & Hp).
  destruct (prevKey t) as [p|]; [|by apply add_ordered_spec]. destruct Hp as [Hne ->].
  rewrite compareBytes_le, bool_decide_eq_false_2; [by apply add_ordered_spec|].
  intros Hle. pose proof (last_below _ _ _ Hne Ha) as Hlt. apply (blt_irrefl k). eauto with iw.
Qed.

Lemma Add_all_spec t kvs l :
  ready t kvs -> ascending (kvs ++ l) -> weight (kvs ++ l) < 2 ^ 31 ->
  exists t' err, Add_all t l = Some (t', err) /\
    match err with
    | Some e => failed t e
    | None => ready t' (kvs ++ l) /\ same_setup t t'
    end.
Proof.
  revert t kvs. induction l as [|[k v] l IH]; intros t kvs Hr Ha Hsz; cbn [Add_all].
  - rewrite app_nil_r. by eexists _, _.
  - rewrite cons_middle, app_assoc in Ha, Hsz.
    pose proof (weight_app (kvs ++ [(k, v)]) l) as Hwa. pose proof (weight_length l). pose proof (blen_nonneg l).
    destruct (Add_spec t kvs k v Hr) as (t1 & err & -> & He);
      [by apply ascending_app in Ha as (Ha & _)|lia|].
    cbn [mbind option_bind]. destruct err as [e|]; [by eexists _, _|]. destruct He as [Hr1 Ho1].
    destruct (IH t1 _ Hr1 Ha Hsz) as (t2 & err & -> & He). eexists _, _. split; [done|].
    rewrite cons_middle, app_assoc. destruct err; [by eapply failed_same|]. destruct He as [? Ho2].
    split; [done|]. by eapply same_setup_trans.
Qed.

(** ** Closing *)

Lemma blen_digits_loop fuel n : blen (digits_loop fuel n) <= Z.of_nat fuel.
Proof.
  revert n. induction fuel as [|f IH]; intros n; cbn [digits_loop]; [done|].
  rewrite blen_app, blen_cons, blen_nil. case_match; [rewrite blen_nil; lia|]. specialize (IH (n / 10)). lia.
Qed.

Lemma blen_digits n : blen (digits n) <= 20.
Proof. apply (blen_digits_loop 20). Qed.

(** One more block, in terms of what is in the file. *)
Lemma writeBlock_grows (t : Writer W) d lim :
  offset t = blen (written (w t)) -> offset t + blen d + 5 <= lim -> lim < 2 ^ 40 ->
  exists t' res, writeBlock t d = (t', res) /\
    match res with
    | inl e => failed t e
    | inr h => t' = set_out t (w t') (offset t') /\ offset t' = blen (written (w t')) /\ offset t' <= lim /\
        block_at (written (w t')) h d /\ (exists x, written (w t') = written (w t) ++ x) /\ same_setup t t'
    end.
Proof.
  intros Ho Hl Hlim. destruct (writeBlock_spec t d Ho ltac:(lia)) as (t' & res & E & Hres).
  exists t', res. split; [done|]. destruct res as [e|h]; [done|]. destruct Hres as (Ht & Hw & _ & Hat & Hsame).
  assert (Hoff : offset t' = offset t + blen d + 5) by (by rewrite Ht).
  split; [by rewrite Hoff|]. split; [rewrite Hw, !blen_app, blen_trailer; lia|]. split; [lia|].
  split; [done|]. split; [by eexists|done].
Qed.

Lemma writeFooter_spec (t : Writer W) mh ih :
  offset t = blen (written (w t)) -> offset t + footerSize < table_limit ->
  exists t' err, writeFooter t mh ih = Some (t', err) /\
    match err with
    | Some e => failed t e
    | None => exists zs, blen (handle_bytes mh ++ handle_bytes ih ++ zs) = footerSize - 8 /\
        t' = set_out t (w t') (offset t') /\ offset t' = blen (written (w t')) /\
        written (w t') = written (w t) ++ handle_bytes mh ++ handle_bytes ih ++ zs ++ magic
    end.
Proof.
  intros Ho Hlim. pose proof (blen_handle_bytes mh) as Hm. pose proof (blen_handle_bytes ih) as Hi.
  set (A := handle_bytes mh) in *. set (B := handle_bytes ih) in *.
  unfold writeFooter. set (z := replicate (Z.to_nat footerSize) x00).
  assert (Hz : blen z = 48) by done.
  set (z1 := take (Z.to_nat (blen A)) z). set (z2 := drop (Z.to_nat (blen A)) z).
  assert (Hz1 : blen z1 = blen A) by (apply blen_take; lia).
  assert (Hz2 : blen z2 = 48 - blen A) by (unfold z2; rewrite blen_drop; lia).
  replace z with ([] ++ z1 ++ z2) by (apply take_drop).
  rewrite (encode_into mh [] z1 z2 0) by done. fold A. cbn [mbind option_bind app].
  set (z3 := take (Z.to_nat (blen B)) z2). set (z4 := drop (Z.to_nat (blen B)) z2).
  assert (Hz3 : blen z3 = blen B) by (apply blen_take; lia).
  assert (Hz4 : blen z4 = 48 - blen A - blen B) by (unfold z4; rewrite blen_drop; lia).
  replace (A ++ z2) with (A ++ z3 ++ z4) by (unfold z3, z4; by rewrite take_drop).
  rewrite (encode_into ih A z3 z4) by done. fold B. cbn [mbind option_bind].
  set (k := 40 - blen A - blen B). set (zs := take (Z.to_nat k) z4). set (z5 := drop (Z.to_nat k) z4).
  assert (Hzs : blen zs = k) by (apply blen_take; lia).
  assert (Hz5 : blen z5 = 8) by (unfold z5; rewrite blen_drop; lia).
  replace (A ++ B ++ z4) with ((A ++ B ++ zs) ++ z5 ++ [])
    by (rewrite app_nil_r, <- !app_assoc; unfold zs, z5; by rewrite take_drop).
  rewrite (copy_at_exact _ z5 [] magic) by (rewrite ?blen_app, ?Hz5; unfold footerSize; done || lia).
  cbn [mbind option_bind]. rewrite app_nil_r.
  destruct (write (w t) ((A ++ B ++ zs) ++ magic)) as [[o n] err] eqn:Ew.
  unfold table_limit in Hlim. eexists _, _. split; [done|]. destruct err as [e|]; cbn [fmap option_fmap option_map].
  { eapply write_failed; [exact Ew| |done]. rewrite !blen_app, Hzs. change (blen magic) with 8.
    unfold table_limit, footerSize in *. lia. }
  destruct (write_ok _ _ _ _ Ew) as [_ Hw]. exists zs. cbn [w offset set_out].
  split; [rewrite !blen_app; unfold footerSize; lia|]. split; [done|].
  rewrite Hw, !blen_app, Hzs. change (blen magic) with 8. unfold footerSize in *.
  pose proof (blen_nonneg (written (w t))). rewrite u64_small by lia.
  split; [lia|]. by rewrite <- !app_assoc.
Qed.

Definition meta_matches (m : TableMeta) (f : bytes) (ps : list part) : Prop :=
  Size m = blen f /\ KeyCount m = blen (pairs_of ps) /\ DataBlockCount m = blen ps /\
  SmallestKey m = default [] (head (pairs_of ps).*1) /\ LargestKey m = last_key [] (pairs_of ps).

Lemma props_fit n m :
  payload [(Names.key_count, digits n); (Names.data_blocks, digits m)] < 200.
Proof.
  cbn [payload foldr fst snd]. change (blen Names.key_count) with 22. change (blen Names.data_blocks) with 24.
  pose proof (blen_digits n). pose proof (blen_digits m). lia.
Qed.

Lemma meta_payload filter props : payload (meta_of filter props) < 200.
Proof.
  unfold meta_of. rewrite payload_app. pose proof (blen_handle_bytes props).
  destruct filter as [h|]; cbn [payload foldr fst snd]; [pose proof (blen_handle_bytes h)|];
    change (blen Names.bloom_filter) with 25; change (blen Names.properties) with 23; lia.
Qed.

(** A small block built and written. *)
Lemma write_small t kvs lim :
  payload kvs < 200 -> offset t = blen (written (w t)) -> offset t + 205 <= lim -> lim < 2 ^ 40 ->
  exists b t' res, add_all (newBlockWriter 1) kvs = Some b /\ writeBlock t (Block.finish b).2 = (t', res) /\
    match res with
    | inl e => failed t e
    | inr h => t' = set_out t (w t') (offset t') /\ offset t' = blen (written (w t')) /\ offset t' <= lim /\
        block_at (written (w t')) h (block_bytes 1 kvs) /\ (exists x, written (w t') = written (w t) ++ x) /\ same_setup t t'
    end.
Proof.
  intros Hp Ho Hl Hlim. destruct (add_all_packed 1 kvs ltac:(lia) ltac:(lia)) as (b & Hb & Hpk).
  pose proof (layout_payload 1 0 [] kvs). pose proof (blen_nonneg (layout 1 0 [] kvs)).
  pose proof (block_payload 1 kvs). rewrite <- (finish_packed 1 b kvs Hpk) by lia.
  destruct (writeBlock_grows t (Block.finish b).2 lim Ho) as (t' & res & E & Hres); [|lia|].
  { rewrite (finish_packed 1 b kvs Hpk) by lia. lia. }
  by exists b, t', res.
Qed.

(** The filter block, when there are keys. *)
Lemma write_filter t flt lim :
  offset t = blen (written (w t)) -> offset t <= lim -> lim < 2 ^ 40 ->
  (forall d, flt = Some d -> offset t + blen d + 5 <= lim) ->
  exists t1 res, match flt with
      | Some d => writeBlock t d
      | None => (t, inr (mkHandle 0 0))
      end = (t1, res) /\
    match res with
    | inl e => failed t e
    | inr h => t1 = set_out t (w t1) (offset t1) /\ offset t1 = blen (written (w t1)) /\ offset t1 <= lim /\
        (forall d, flt = Some d -> block_at (written (w t1)) h d) /\
        (exists x, written (w t1) = written (w t) ++ x) /\ same_setup t t1
    end.
Proof.
  intros Ho Hl Hlim Hd. destruct flt as [d|].
  - destruct (writeBlock_grows t d lim Ho (Hd d eq_refl) Hlim) as (t1 & res & E & Hres).
    exists t1, res. split; [done|]. destruct res as [|h]; [done|]. destruct Hres as (E1 & E2 & E3 & E4 & E5 & E6).
    split_and!; try done. by intros d' [= <-].
  - exists t, (inr (mkHandle 0 0)). split; [done|]. split; [by destruct t|]. split; [done|].
    split; [lia|]. split; [done|]. split; [exists []; by rewrite app_nil_r|done].
Qed.

(** The index block. *)
Lemma write_index t ps lim :
  packed 1 (indexBlock t) (index_of ps) -> payload (index_of ps) < 2 ^ 32 ->
  offset t = blen (written (w t)) -> offset t + payload (index_of ps) + 5 <= lim -> lim < 2 ^ 40 ->
  exists t' res, (let '(ib, indexData) := Block.finish (indexBlock t) in
      writeBlock (set_index t ib (pendingHandle t)) indexData) = (t', res) /\
    match res with
    | inl e => failed t e
    | inr h => (exists ib, t' = set_out (set_index t ib (pendingHandle t)) (w t') (offset t')) /\
        offset t' = blen (written (w t')) /\ offset t' <= lim /\
        block_at (written (w t')) h (block_bytes 1 (index_of ps)) /\
        (exists x, written (w t') = written (w t) ++ x) /\ same_setup t t'
    end.
Proof.
  intros Hi Hp Ho Hl Hlim. destruct (Block.finish (indexBlock t)) as [ib idx] eqn:Ef.
  pose proof (layout_payload 1 0 [] (index_of ps)). pose proof (blen_nonneg (layout 1 0 [] (index_of ps))).
  assert (Hidx : idx = block_bytes 1 (index_of ps))
    by (rewrite <- (finish_packed 1 _ _ Hi) by lia; by rewrite Ef).
  pose proof (block_payload 1 (index_of ps)) as Hbi. rewrite <- Hidx in Hbi.
  destruct (writeBlock_grows (set_index t ib (pendingHandle t)) idx lim Ho) as (t2 & res & -> & H2);
    [cbn [offset set_index]; lia|done|].
  eexists _, _. split; [done|]. destruct res as [e|h]; [done|]. rewrite <- Hidx.
  destruct H2 as (E2 & H2). split; [by exists ib|done].
Qed.

Lemma block_at_grow f g x h d : g = f ++ x -> block_at f h d -> block_at g h d.
Proof. intros ->. apply block_at_app. Qed.

(** The filter block, which covers all keys. *)
Lemma write_covering t ks :
  0 <= BloomBitsPerKey (opts t) -> blen ks * BloomBitsPerKey (opts t) < 2 ^ 40 ->
  offset t = blen (written (w t)) -> offset t <= 2 ^ 31 ->
  exists flt t1 res, Bloom.finish (add_keys (newBloomFilterWriter (BloomBitsPerKey (opts t))) ks) = Some flt /\ covers flt ks /\
    match flt with Some d => writeBlock t d | None => (t, inr (mkHandle 0 0)) end = (t1, res) /\
    match res with
    | inl e => failed t e
    | inr h => t1 = set_out t (w t1) (offset t1) /\ offset t1 = blen (written (w t1)) /\ offset t1 <= 2 ^ 31 + 2 ^ 38 + 10 /\
        (forall d, flt = Some d -> block_at (written (w t1)) h d) /\
        (exists x, written (w t1) = written (w t) ++ x) /\ same_setup t t1
    end.
Proof.
  intros Hbp Hbits Ho Hlim. destruct (finish_covers ks (BloomBitsPerKey (opts t)) Hbp Hbits) as (flt & E & Hcov & Hfl).
  pose proof (calcNLines_bounds (blen ks) (BloomBitsPerKey (opts t)) (blen_nonneg _) Hbp Hbits) as Hnl.
  destruct (write_filter t flt (2 ^ 31 + 2 ^ 38 + 10) Ho ltac:(lia) ltac:(lia)) as (t1 & res & E1 & H1).
  { intros d Hd1. specialize (Hfl d Hd1). unfold cacheLineSize in Hfl. lia. }
  exists flt, t1, res. split_and!; done.
Qed.

Lemma write_tail_spec t ps kvs :
  wstate t ps [] [] kvs -> pendingHandle t = None -> weight kvs < 2 ^ 31 ->
  blen kvs * BloomBitsPerKey (opts t) < 2 ^ 40 ->
  exists t' res, write_tail t = Some (t', res) /\
    match res with
    | inl e => failed t e
    | inr m => exists mh ih, table (written (w t')) (RestartInterval (opts t)) ps mh ih /\
        pairs_of ps = kvs /\ meta_matches m (written (w t')) ps
    end.
Proof.
  intros Hw Hnp Hsz Hbits. destruct Hw as [Hr Hbp Hk Ho Hos Hd Hi His Hp Hs Hpe Hpo Hbl Hasc Hc Hdb Hrg].
  rewrite app_nil_r in Hos, Hs. cbn [app] in Hk. rewrite app_nil_r in Hk. rewrite <- Hk in Hos, His.
  unfold write_tail. rewrite Hbl.
  destruct (write_covering t kvs.*1 Hbp ltac:(unfold blen in *; by rewrite length_fmap) Ho ltac:(lia)) as (flt & t1 & res & -> & Hcov & E & H1).
  cbn [mbind option_bind]. rewrite E.
  destruct res as [e|fh]; [by eexists _, _|]. destruct H1 as (E1 & O1 & L1 & F1 & (x1 & W1) & S1).
  assert (Hi1 : packed 1 (indexBlock t1) (index_of ps)) by (by rewrite E1).
  destruct (write_index t1 ps (2 ^ 32 + 2 ^ 38 + 20) Hi1 ltac:(lia) O1 ltac:(lia) ltac:(lia)) as (t2 & res & Ei & H2).
  destruct (Block.finish (indexBlock t1)) as [ib idx]. rewrite Ei.
  destruct res as [e|ih]; [eexists _, _; split; [done|by apply (failed_same t t1)]|].
  destruct H2 as ((ib' & E2) & O2 & L2 & F2 & (x2 & W2) & S2). pose proof (same_setup_trans _ _ _ S1 S2) as S02.
  destruct (write_small t2 _ (2 ^ 32 + 2 ^ 38 + 300) (props_fit (keyCount t2) (dataBlockCount t2)) O2 ltac:(lia) ltac:(lia))
    as (pb & t3 & res & -> & Ep & H3). cbn [mbind option_bind]. rewrite Ep.
  destruct res as [e|ph]; [eexists _, _; split; [done|by apply (failed_same t t2)]|].
  destruct H3 as (E3 & O3 & L3 & F3 & (x3 & W3) & S3). pose proof (same_setup_trans _ _ _ S02 S3) as S03.
  rewrite !encodeHandle_eq. cbn [mbind option_bind].
  set (fo := match flt with Some _ => Some fh | None => None end).
  assert (Hmeta : (match flt with Some _ => [(Names.bloom_filter, handle_bytes fh)] | None => [] end) ++
    [(Names.properties, handle_bytes ph)] = meta_of fo ph) by (unfold fo, meta_of; by destruct flt).
  rewrite Hmeta.
  destruct (write_small t3 _ (2 ^ 32 + 2 ^ 38 + 600) (meta_payload fo ph) O3 ltac:(lia) ltac:(lia))
    as (mb & t4 & res & -> & Em & H4). cbn [mbind option_bind]. rewrite Em.
  destruct res as [e|mh]; [eexists _, _; split; [done|by apply (failed_same t t3)]|].
  destruct H4 as (E4 & O4 & L4 & F4 & (x4 & W4) & S4). pose proof (same_setup_trans _ _ _ S03 S4) as S04.
  destruct (writeFooter_spec t4 mh ih O4 ltac:(unfold footerSize, table_limit; lia)) as (t5 & err & -> & H5).
  cbn [mbind option_bind]. destruct err as [e|]; [eexists _, _; split; [done|by apply (failed_same t t4)]|].
  destruct H5 as (zs & Hzs & E5 & O5 & W5). eexists _, _. split; [done|]. exists mh, ih.
  split; [|split; [done|]].
  - split; [done| |by rewrite ?app_nil_r in *|by rewrite <- Hk| | |].
    + rewrite W5, W4, W3, W2, W1. by repeat apply parts_ok_app.
    + exists (written (w t4)), zs. by rewrite W5.
    + split; [by eauto using block_at_grow|]. pose proof (block_payload 1 (index_of ps)). lia.
    + exists fo, ph, flt. split; [by eauto using block_at_grow|]. split; [by rewrite <- Hk|].
      unfold fo. destruct flt; [by eauto 6 using block_at_grow|done].
  - assert (Hsame : keyCount t5 = keyCount t /\ dataBlockCount t5 = dataBlockCount t /\
      smallestKey t5 = smallestKey t /\ largestKey t5 = largestKey t).
    { rewrite E5, E4, E3, E2, E1. done. }
    destruct Hsame as (K1 & K2 & K3 & K4). unfold meta_matches.
    cbn [Size KeyCount DataBlockCount SmallestKey LargestKey]. rewrite K1, K2, K3, K4, Hc, Hdb, Hnp, <- Hk.
    split_and!; [exact O5|done|lia|apply Hrg|apply Hrg].
Qed.
End writer.
