(* ===== verification/TableReader.v ===== *)
(** The table reader and the two-level iterator
    ([pkg/lsm/sstable/reader.go]) over the bytes of a file, with an optional
    block cache that is passed along as state.  [None] is a run-time panic;
    [make] panics above the largest allocation of the runtime. *)
From S2P Require Import Prelude Binary Io Crc Format Block Bloom TableWriter CacheInterface.

#[local] Open Scope Z_scope.

Inductive reader_error : Type :=
| ErrNotFound
| ErrCorrupted
| ErrRead (e : io_error).

(** [r.ReadAt(buf, off)] with [len(buf) = n]. *)
Definition ReadAt (f : bytes) (n off : Z) : io_error + bytes :=
  if off <? 0 then inl ErrIO
  else if off + n <=? blen f then inr (take (Z.to_nat n) (drop (Z.to_nat off) f))
  else inl EOF.

(** ** Opening *)

Record Reader : Type := mkReader {
  r : bytes;
  size : Z;
  fileID : Z;
  indexBlock : bytes;
  filter : option bloomFilter;
  metaindexHandle : BlockHandle;
  indexHandle : BlockHandle }.

Definition readRawBlock (f : bytes) (handle : BlockHandle) : option (reader_error + bytes) :=
  let n := u64 (Length handle + blockTrailerSize) in
  if maxAlloc <? n then None
  else
    match ReadAt f n (i64 (Offset handle)) with
    | inl e => Some (inl (ErrRead e))
    | inr buf =>
        data ← slice buf 0 (Length handle);
        blockType ← index buf (Length handle);
        tl ← slice_from buf (u64 (Length handle + 1));
        storedChecksum ← get_le32 tl;
        if blockChecksum data blockType =? storedChecksum then Some (inr data)
        else Some (inl ErrCorrupted)
    end.

Definition readFooter (f : bytes) (size : Z) : option (reader_error + (BlockHandle * BlockHandle)) :=
  match ReadAt f footerSize (size - footerSize) with
  | inl _ => Some (inl ErrCorrupted)
  | inr footer =>
      m ← slice_from footer (footerSize - 8);
      if negb (bool_decide (m = magic)) then Some (inl ErrCorrupted)
      else
        '(mh, n) ← decodeBlockHandle footer;
        rest ← slice_from footer n;
        '(ih, _) ← decodeBlockHandle rest;
        Some (inr (mh, ih))
  end.

(** The loop [for it.First(); it.Valid(); it.Next()]. *)
Fixpoint readFilter_loop (fuel : nat) (f : bytes) (it : It.blockIterator)
    : option (reader_error + option bloomFilter) :=
  match fuel with
  | O => None
  | S fuel =>
      if It.Valid it then
        if bool_decide (It.Key it = Names.bloom_filter) then
          '(h, _) ← decodeBlockHandle (It.Value it);
          res ← readRawBlock f h;
          match res with
          | inl e => Some (inl e)
          | inr d => flt ← decodeBloomFilter d; Some (inr flt)
          end
        else '(it, _) ← It.Next it; readFilter_loop fuel f it
      else Some (inr None)
  end.

Definition readFilter (f : bytes) (mh : BlockHandle) : option (reader_error + option bloomFilter) :=
  res ← readRawBlock f mh;
  match res with
  | inl e => Some (inl e)
  | inr metaData =>
      it ← It.newBlockIterator metaData;
      '(it, _) ← It.First it;
      readFilter_loop (S (length metaData)) f it
  end.

Definition NewReader (f : bytes) (size fileID : Z) : option (reader_error + Reader) :=
  if size <? footerSize then Some (inl ErrCorrupted)
  else
    res ← readFooter f size;
    match res with inl e => Some (inl e) | inr (mh, ih) =>
    res ← readRawBlock f ih;
    match res with inl e => Some (inl e) | inr idx =>
    res ← readFilter f mh;
    match res with inl e => Some (inl e) | inr flt =>
    Some (inr (mkReader f size fileID idx flt mh ih))
    end end end.

(** ** Point lookups *)

(** [for it.Next() {}]. *)
Fixpoint skip_all (fuel : nat) (it : It.blockIterator) : option It.blockIterator :=
  match fuel with
  | O => None
  | S fuel => '(it, ok) ← It.Next it; if (ok : bool) then skip_all fuel it else Some it
  end.

Definition findDataBlock (t : Reader) (key : bytes) : option (reader_error + BlockHandle) :=
  it ← It.newBlockIterator (indexBlock t);
  '(it, ok) ← It.SeekGE it key;
  if (ok : bool) then '(h, _) ← decodeBlockHandle (It.Value it); Some (inr h)
  else
    '(it, ok) ← It.First it;
    if negb ok then Some (inl ErrNotFound)
    else
      it ← skip_all (S (length (indexBlock t))) it;
      if negb (It.Valid it) then Some (inl ErrNotFound)
      else '(h, _) ← decodeBlockHandle (It.Value it); Some (inr h).

Section reader.
Context {C : Type} {ops : CacheOps C}.

(** The cache is shared by all readers; a nil cache is [None]. *)
Definition readDataBlock (t : Reader) (c : option C) (handle : BlockHandle)
    : option (option C * (reader_error + bytes)) :=
  '(c, hit) ← match c with
              | Some c => '(c, d) ← cache_get c (fileID t) (Offset handle); Some (Some c, d)
              | None => Some (None, None)
              end;
  match hit with
  | Some data => Some (c, inr data)
  | None =>
      res ← readRawBlock (r t) handle;
      match res with
      | inl e => Some (c, inl e)
      | inr data =>
          match c with
          | Some c => c ← cache_set c (fileID t) (Offset handle) data; Some (Some c, inr data)
          | None => Some (None, inr data)
          end
      end
  end.

Definition Get (t : Reader) (c : option C) (key : bytes)
    : option (option C * (reader_error + bytes)) :=
  may ← match filter t with Some f => mayContain (Some f) key | None => Some true end;
  if negb may then Some (c, inl ErrNotFound)
  else
    res ← findDataBlock t key;
    match res with inl e => Some (c, inl e) | inr handle =>
    '(c, res) ← readDataBlock t c handle;
    match res with inl e => Some (c, inl e) | inr blockData =>
    it ← It.newBlockIterator blockData;
    '(it, ok) ← It.SeekGE it key;
    if ok && (compareBytes (It.Key it) key =? 0) then Some (c, inr (It.Value it))
    else Some (c, inl ErrNotFound)
    end end.

(** ** The two-level iterator *)

Record TableIterator : Type := mkTableIterator {
  indexIter : option It.blockIterator;
  dataIter : option It.blockIterator;
  err : option reader_error }.

Definition NewIterator : TableIterator := mkTableIterator None None None.

Definition loadDataBlock (t : Reader) (c : option C) (it : TableIterator)
    : option (option C * TableIterator * option reader_error) :=
  ii ← indexIter it;
  '(h, _) ← decodeBlockHandle (It.Value ii);
  '(c, res) ← readDataBlock t c h;
  match res with
  | inl e => Some (c, it, Some e)
  | inr data =>
      di ← It.newBlockIterator data;
      Some (c, mkTableIterator (indexIter it) (Some di) (err it), None)
  end.

Definition set_data (it : TableIterator) (di : It.blockIterator) : TableIterator :=
  mkTableIterator (indexIter it) (Some di) (err it).

(** [return it.dataIter.First()]. *)
Definition data_first (it : TableIterator) : option (TableIterator * bool) :=
  di ← dataIter it; '(di, ok) ← It.First di; Some (set_data it di, ok).

Definition nextBlock (t : Reader) (c : option C) (it : TableIterator)
    : option (option C * TableIterator * bool) :=
  ii ← indexIter it;
  '(ii, ok) ← It.Next ii;
  if negb ok then Some (c, mkTableIterator (Some ii) None (err it), false)
  else
    '(c, it, e) ← loadDataBlock t c (mkTableIterator (Some ii) (dataIter it) (err it));
    match e with
    | Some e => Some (c, mkTableIterator (indexIter it) (dataIter it) (Some e), false)
    | None => '(it, ok) ← data_first it; Some (c, it, ok)
    end.

Definition SeekGE (t : Reader) (c : option C) (it : TableIterator) (target : bytes)
    : option (option C * TableIterator * bool) :=
  ii ← It.newBlockIterator (indexBlock t);
  '(ii, ok) ← It.SeekGE ii target;
  let it := mkTableIterator (Some ii) (dataIter it) None in
  if negb ok then Some (c, it, false)
  else
    '(c, it, e) ← loadDataBlock t c it;
    match e with
    | Some e => Some (c, mkTableIterator (indexIter it) (dataIter it) (Some e), false)
    | None =>
        di ← dataIter it;
        '(di, ok) ← It.SeekGE di target;
        let it := set_data it di in
        if (ok : bool) then Some (c, it, true) else nextBlock t c it
    end.

Definition First (t : Reader) (c : option C) (it : TableIterator)
    : option (option C * TableIterator * bool) :=
  ii ← It.newBlockIterator (indexBlock t);
  '(ii, ok) ← It.First ii;
  let it := mkTableIterator (Some ii) (dataIter it) None in
  if negb ok then Some (c, it, false)
  else
    '(c, it, e) ← loadDataBlock t c it;
    match e with
    | Some e => Some (c, mkTableIterator (indexIter it) (dataIter it) (Some e), false)
    | None => '(it, ok) ← data_first it; Some (c, it, ok)
    end.

Definition Next (t : Reader) (c : option C) (it : TableIterator)
    : option (option C * TableIterator * bool) :=
  match dataIter it with
  | None => Some (c, it, false)
  | Some di =>
      '(di, ok) ← It.Next di;
      let it := set_data it di in
      if (ok : bool) then Some (c, it, true) else nextBlock t c it
  end.

Definition Valid (it : TableIterator) : bool :=
  match dataIter it with
  | Some di => It.Valid di && match err it with None => true | Some _ => false end
  | None => false
  end.

Definition Key (it : TableIterator) : option bytes := It.Key <$> dataIter it.
Definition Value (it : TableIterator) : option bytes := It.Value <$> dataIter it.
Definition Error (it : TableIterator) : option reader_error := err it.

(** All pairs from the current position on. *)
Fixpoint collect (fuel : nat) (t : Reader) (c : option C) (it : TableIterator)
    : option (list (bytes * bytes)) :=
  match fuel with
  | O => None
  | S fuel =>
      if Valid it then
        k ← Key it; v ← Value it;
        '(c, it, _) ← Next t c it; l ← collect fuel t c it; Some ((k, v) :: l)
      else Some []
  end.
End reader.
