(* ===== verification/TableReaderSpec.v ===== *)
(** The reader on a well-formed table: opening succeeds, a lookup is the
    lookup in the pairs of the table, and the two-level iterator is a cursor
    over them, with any cache that keeps its interface. *)
From stdpp Require Import sorting.
From S2P Require Import Prelude Binary ByteOrder Sorted Io Crc Format Block BlockSpec Bloom TableWriter CacheInterface TableLayout TableReader.

#[local] Open Scope Z_scope.

(** ** Opening *)

Lemma ReadAt_app pre d post off n :
  off = blen pre -> n = blen d -> ReadAt (pre ++ d ++ post) n off = inr d.
Proof.
  intros -> ->. unfold ReadAt. pose proof (blen_nonneg pre). pose proof (blen_nonneg post).
  rewrite (proj2 (Z.ltb_ge _ 0)) by lia. rewrite !blen_app, (proj2 (Z.leb_le _ _)) by lia.
  by rewrite drop_blen_app, take_blen_app.
Qed.

(** Reading at a handle: data, type byte and stored checksum are what is
    there. *)
Lemma readRawBlock_raw pre d t c post h :
  Offset h = blen pre -> Length h = blen d -> blen pre + blen d < 2 ^ 40 -> blen c = 4 ->
  readRawBlock (pre ++ d ++ t :: c ++ post) h =
    Some (if blockChecksum d t =? le_value c then inr d else inl ErrCorrupted).
Proof.
  intros Ho Hl Hb Hc. unfold readRawBlock. rewrite Ho, Hl.
  pose proof (blen_nonneg pre). pose proof (blen_nonneg d).
  unfold blockTrailerSize, maxAlloc. rewrite u64_small, i64_small by lia.
  rewrite (proj2 (Z.ltb_ge _ _)) by lia.
  replace (pre ++ d ++ t :: c ++ post) with (pre ++ (d ++ t :: c) ++ post) by (by rewrite <- !app_assoc).
  rewrite (ReadAt_app pre (d ++ t :: c)) by (rewrite ?blen_app, ?blen_cons; lia).
  rewrite slice_prefix by (rewrite blen_app, blen_cons; lia). rewrite take_blen_app.
  cbn [mbind option_bind]. rewrite index_app_mid by done. cbn [mbind option_bind].
  rewrite (app_assoc d [t] c : d ++ t :: c = _).
  rewrite u64_small, slice_from_app by (rewrite ?blen_app, ?blen_cons, ?blen_nil; lia).
  cbn [mbind option_bind]. unfold get_le32. rewrite (proj2 (Z.leb_le 4 _)) by lia. cbn [mbind option_bind].
  rewrite (take_ge c) by (unfold blen in Hc; lia). by case_match.
Qed.

Lemma readRawBlock_spec f h d : block_at f h d -> readRawBlock f h = Some (inr d).
Proof.
  intros (pre & post & -> & Ho & Hl & Hb). unfold trailer. cbn [app].
  rewrite (readRawBlock_raw pre d _ _ post h Ho Hl Hb) by apply blen_put_le32.
  unfold put_le32. rewrite le_value_le_bytes. pose proof (blockChecksum_bounds d compressionNone).
  by rewrite Z.mod_small, Z.eqb_refl by (change (256 ^ Z.of_nat 4) with (2 ^ 32); lia).
Qed.

(** Only the blocks of the index and the metaindex are seen by [First]. *)
Lemma open_block r kvs :
  0 < r -> blen (block_bytes r kvs) < 2 ^ 32 ->
  exists it it', It.newBlockIterator (block_bytes r kvs) = Some it /\ block_of r kvs it /\
    It.valid it = false /\ It.First it = Some (it', more kvs) /\ cursor r kvs it' kvs.
Proof.
  intros Hr Hf. destruct (newBlockIterator_block r kvs Hf) as (it & Hn & Hc).
  pose proof Hc as (Hv & Hb & _). destruct (First_cursor r kvs Hr Hf it Hb) as (it' & HF & Hc').
  exists it, it'. by split_and!.
Qed.

Lemma meta_fits filter props : blen (block_bytes 1 (meta_of filter props)) < 2 ^ 32.
Proof.
  eapply Z.le_lt_trans; [apply block_payload|]. pose proof (blen_handle_bytes props).
  unfold meta_of. rewrite payload_app. destruct filter as [h|];
    cbn [payload foldr fst snd]; [pose proof (blen_handle_bytes h)|];
    change (blen Names.bloom_filter) with 25; change (blen Names.properties) with 23; lia.
Qed.

Definition filter_ok (flt : option bloomFilter) (keys : list bytes) : Prop :=
  forall k, exists b, mayContain flt k = Some b /\ (k ∈ keys -> b = true).

Lemma readFilter_spec f mh filter props d keys :
  block_at f mh (block_bytes 1 (meta_of filter props)) -> covers d keys ->
  match filter, d with Some h, Some d => block_at f h d | None, None => True | _, _ => False end ->
  exists flt, readFilter f mh = Some (inr flt) /\ filter_ok flt keys.
Proof.
  intros Hm Hc Hd. unfold readFilter. rewrite (readRawBlock_spec _ _ _ Hm). cbn [mbind option_bind].
  pose proof (meta_fits filter props) as Hfit.
  destruct (open_block 1 _ ltac:(lia) Hfit) as (it & it' & -> & _ & _ & HF & Hcur).
  cbn [mbind option_bind]. rewrite HF. cbn [mbind option_bind readFilter_loop].
  unfold It.Valid. destruct filter as [h|], d as [d|]; try done.
  - destruct Hcur as (-> & Hk & Hv & _). unfold It.Key, It.Value. rewrite Hk, bool_decide_eq_true_2 by done.
    rewrite Hv. rewrite <- (app_nil_r (handle_bytes h)), decode_handle_bytes by (by eapply block_at_handle_ok).
    cbn [mbind option_bind]. rewrite (readRawBlock_spec _ _ _ Hd). cbn [mbind option_bind].
    destruct Hc as (flt & -> & Hf). cbn [mbind option_bind]. by exists (Some flt).
  - pose proof (next_cursor 1 _ ltac:(lia) Hfit it' _ Hcur) as (it2 & Hn & Hcur2).
    destruct Hcur as (-> & Hk & Hv & _). unfold It.Key. rewrite Hk, bool_decide_eq_false_2 by done.
    unfold It.Next. rewrite Hn. cbn [mbind option_bind].
    assert (Hl : exists n, length (block_bytes 1 (meta_of None props)) = S n).
    { unfold block_bytes. rewrite !length_app. unfold put_le32. rewrite length_le_bytes.
      eexists. rewrite <- plus_n_Sm, Nat.add_comm. cbn [Nat.add]. done. }
    destruct Hl as [n ->]. cbn [readFilter_loop]. unfold It.Valid. destruct Hcur2 as (-> & _).
    exists None. split; [done|]. intros k. by exists true.
Qed.

Record opened (t : Reader) (fid r : Z) (ps : list part) : Prop := {
  op_interval : 0 < r;
  op_file : fileID t = fid;
  op_parts : parts_ok (TableReader.r t) r ps;
  op_separated : separated ps [];
  op_ascending : ascending (pairs_of ps);
  op_index : indexBlock t = block_bytes 1 (index_of ps);
  op_fits : blen (block_bytes 1 (index_of ps)) < 2 ^ 32;
  op_filter : filter_ok (TableReader.filter t) (pairs_of ps).*1 }.

Lemma readFooter_spec f mh ih pre zs :
  f = pre ++ handle_bytes mh ++ handle_bytes ih ++ zs ++ magic ->
  blen (handle_bytes mh ++ handle_bytes ih ++ zs) = footerSize - 8 -> handle_ok mh -> handle_ok ih ->
  footerSize <= blen f /\ readFooter f (blen f) = Some (inr (mh, ih)).
Proof.
  intros -> Hl Hm Hi. set (body := handle_bytes mh ++ handle_bytes ih ++ zs) in *.
  assert (Hf : pre ++ handle_bytes mh ++ handle_bytes ih ++ zs ++ magic = pre ++ (body ++ magic) ++ [])
    by (unfold body; by rewrite app_nil_r, <- !app_assoc).
  rewrite Hf. assert (Hb : blen (body ++ magic) = footerSize) by (rewrite blen_app, Hl; done).
  pose proof (blen_nonneg pre). rewrite !blen_app, blen_nil, Z.add_0_r, <- blen_app, Hb.
  split; [lia|]. unfold readFooter. rewrite ReadAt_app by lia.
  rewrite slice_from_app by lia. cbn [mbind option_bind]. rewrite bool_decide_eq_true_2 by done. cbn [negb].
  replace (body ++ magic) with (handle_bytes mh ++ handle_bytes ih ++ zs ++ magic)
    by (unfold body; by rewrite <- !app_assoc).
  rewrite decode_handle_bytes by done. cbn [mbind option_bind].
  rewrite slice_from_app by done. cbn [mbind option_bind].
  by rewrite decode_handle_bytes.
Qed.

Lemma NewReader_table f fid r ps mh ih :
  table f r ps mh ih ->
  exists t, NewReader f (blen f) fid = Some (inr t) /\ TableReader.r t = f /\ opened t fid r ps.
Proof.
  intros [Hr Hp Hs Ha (pre & zs & Hf & Hl) [Hi Hif] (filter & props & d & Hm & Hc & Hd)].
  destruct (readFooter_spec f mh ih pre zs Hf Hl) as [Hsz Hft]; [by eapply block_at_handle_ok..|].
  unfold NewReader. rewrite (proj2 (Z.ltb_ge _ _)) by lia. rewrite Hft. cbn [mbind option_bind].
  rewrite (readRawBlock_spec _ _ _ Hi). cbn [mbind option_bind].
  destruct (readFilter_spec f mh filter props d _ Hm Hc Hd) as (flt & -> & Hflt). cbn [mbind option_bind].
  eexists. split; [done|]. split; [done|]. by split.
Qed.

(** ** Finding the block of a key *)

Lemma locate ps target :
  separated ps [] -> Forall (fun p => p_pairs p <> []) ps -> ascending (pairs_of ps) ->
  (exists a p b, ps = a ++ p :: b /\ suffix_from target (index_of ps) = index_of (p :: b) /\
     suffix_from target (pairs_of ps) = suffix_from target (p_pairs p) ++ pairs_of b) \/
  (suffix_from target (index_of ps) = [] /\ suffix_from target (pairs_of ps) = []).
Proof.
  induction ps as [|p ps IH]; intros Hs Hne Ha; [by right|].
  pose proof (index_ascending _ _ Hs Hne) as Hia. destruct Hs as (Hle & Hlt & Hs).
  rewrite app_nil_r in Hlt. rewrite pairs_of_cons in *. rewrite suffix_from_app.
  apply ascending_app in Ha as (_ & Ha & _). apply Forall_cons in Hne as [_ Hne].
  destruct (decide (ble target (p_sep p))) as [Hc|Hc].
  - left. exists [], p, ps. split; [done|]. split.
    + apply (suffix_from_here target []); [exact Hia|constructor|exact Hc].
    + f_equal. apply suffix_from_all. eapply Forall_impl; [exact Hlt|]. cbn. eauto with iw.
  - apply not_ble in Hc. rewrite (suffix_from_none target (p_pairs p)).
    2:{ eapply Forall_impl; [exact Hle|]. cbn. eauto with iw. }
    assert (Hi : suffix_from target (index_of (p :: ps)) = suffix_from target (index_of ps)).
    { unfold suffix_from, index_of. rewrite fmap_cons, filter_cons_False; [done|]. by apply not_ble. }
    rewrite Hi. destruct (IH Hs Hne Ha) as [(a & q & b & -> & H1 & H2)|[H1 H2]].
    + left. exists (p :: a), q, b. split_and!; done.
    + right. by split.
Qed.

(** The cached blocks of a file are its blocks. *)
Definition blocks_of (P : Z -> Z -> bytes -> Prop) (fid r : Z) (ps : list part) : Prop :=
  forall p, p ∈ ps -> P fid (Offset (p_handle p)) (block_bytes r (p_pairs p)) /\
    forall d, P fid (Offset (p_handle p)) d -> d = block_bytes r (p_pairs p).

Section reading.
Context {C : Type} {ops : CacheOps C} {laws : CacheLaws C}.
Variables (P : Z -> Z -> bytes -> Prop) (t : Reader) (fid r : Z) (ps : list part).
Hypothesis Hop : opened t fid r ps.
Hypothesis Hblk : blocks_of P fid r ps.

Definition sound_opt (c : option C) : Prop := match c with Some c => sound P c | None => True end.

Lemma part_block p : p ∈ ps ->
  p_pairs p <> [] /\ block_at (TableReader.r t) (p_handle p) (block_bytes r (p_pairs p)) /\
  blen (block_bytes r (p_pairs p)) < 2 ^ 32.
Proof.
  intros Hp. pose proof (parts_blocks _ _ _ (op_parts _ _ _ _ Hop)) as Hb.
  rewrite Forall_forall in Hb. by apply Hb.
Qed.

Lemma parts_nonempty : Forall (fun p => p_pairs p <> []) ps.
Proof. apply Forall_forall. intros p Hp. by apply part_block. Qed.

Lemma part_ascending p : p ∈ ps -> ascending (p_pairs p).
Proof.
  intros (a & b & ->)%list_elem_of_split. pose proof (op_ascending _ _ _ _ Hop) as Ha.
  rewrite pairs_of_app, pairs_of_cons in Ha. apply ascending_app in Ha as (_ & Ha & _).
  by apply ascending_app in Ha as (Ha & _).
Qed.

Lemma index_ok : ascending (index_of ps).
Proof. apply (index_ascending ps []); [apply Hop|apply parts_nonempty]. Qed.

Lemma readDataBlock_spec c p :
  sound_opt c -> p ∈ ps ->
  exists c', readDataBlock t c (p_handle p) = Some (c', inr (block_bytes r (p_pairs p))) /\ sound_opt c'.
Proof.
  intros Hc Hp. destruct (part_block p Hp) as (_ & Hb & _). destruct (Hblk p Hp) as [HP Hu].
  unfold readDataBlock. rewrite (op_file _ _ _ _ Hop). destruct c as [c|].
  - destruct (sound_get P c fid (Offset (p_handle p)) Hc) as (c1 & [d|] & HG & Hs & Hd); rewrite HG;
      cbn [mbind option_bind].
    + rewrite (Hu d) by (by apply Hd). by exists (Some c1).
    + rewrite (readRawBlock_spec _ _ _ Hb). cbn [mbind option_bind].
      destruct (sound_set P c1 fid (Offset (p_handle p)) _ Hs HP) as (c2 & HS & Hs2). rewrite HS.
      by exists (Some c2).
  - cbn [mbind option_bind]. rewrite (readRawBlock_spec _ _ _ Hb). by exists None.
Qed.

Lemma skip_all_cursor fuel it l :
  cursor 1 (index_of ps) it l -> (length l <= fuel)%nat -> (0 < fuel)%nat ->
  exists it', skip_all fuel it = Some it' /\ It.Valid it' = false.
Proof.
  revert it l. induction fuel as [|f IH]; intros it l Hc Hf H0; [lia|]. cbn [skip_all].
  destruct (next_cursor 1 _ ltac:(lia) (op_fits _ _ _ _ Hop) it l Hc) as (it' & Hn & Hc').
  unfold It.Next. rewrite Hn. cbn [mbind option_bind]. destruct l as [|kv [|kv' l]]; cbn [tail more] in *.
  - exists it'. split; [done|]. apply Hc'.
  - exists it'. split; [done|]. apply Hc'.
  - apply (IH it' (kv' :: l) Hc'); cbn in *; lia.
Qed.

Lemma findDataBlock_spec key :
  (exists a p b, ps = a ++ p :: b /\ findDataBlock t key = Some (inr (p_handle p)) /\
     assoc key (pairs_of ps) = assoc key (p_pairs p)) \/
  (findDataBlock t key = Some (inl ErrNotFound) /\ assoc key (pairs_of ps) = None).
Proof.
  unfold findDataBlock. rewrite (op_index _ _ _ _ Hop). pose proof (op_fits _ _ _ _ Hop) as Hfit.
  destruct (open_block 1 _ ltac:(lia) Hfit) as (it & it0 & -> & Hb & _ & _). cbn [mbind option_bind].
  destruct (SeekGE_cursor 1 _ ltac:(lia) Hfit it key index_ok Hb) as (it1 & -> & Hc1). cbn [mbind option_bind].
  destruct (locate ps key (op_separated _ _ _ _ Hop) parts_nonempty (op_ascending _ _ _ _ Hop))
    as [(a & p & b & E & Hi & Hs)|[Hi Hs]]; rewrite Hi in *.
  - left. exists a, p, b. split; [exact E|]. assert (Hp : p ∈ ps) by (rewrite E; set_solver).
    destruct (part_block p Hp) as (_ & Hat & _). cbn [index_of more fmap list_fmap] in *.
    destruct Hc1 as (_ & _ & Hv & _). unfold It.Value. rewrite Hv.
    rewrite <- (app_nil_r (handle_bytes _)), decode_handle_bytes by (by eapply block_at_handle_ok).
    cbn [mbind option_bind]. split; [done|].
    rewrite !assoc_suffix, Hs by (apply Hop || by apply part_ascending).
    destruct (suffix_from key (p_pairs p)) as [|[k v] l] eqn:El; [|done]. cbn [app].
    destruct (pairs_of b) as [|[k v] l] eqn:Eb; [done|]. rewrite bool_decide_eq_false_2; [done|].
    intros ->. assert (Hin : (key, v) ∈ suffix_from key (pairs_of ps)) by (rewrite Hs; by left).
    pose proof (op_separated _ _ _ _ Hop) as Hsep. rewrite E in Hsep. apply separated_app in Hsep as [_ Hsep].
    destruct Hsep as (_ & Hlt & _). rewrite app_nil_r, Eb in Hlt. apply Forall_cons in Hlt as [Hlt _].
    assert (Hle : ble key (p_sep p)).
    { assert (H1 : (p_sep p, handle_bytes (p_handle p)) ∈ suffix_from key (index_of ps)) by (rewrite Hi; by left).
      by apply list_elem_of_filter in H1 as [H1 _]. }
    apply (blt_irrefl key). cbn in Hlt. eauto with iw.
  - right. cbn [more]. split.
    + destruct (First_cursor 1 _ ltac:(lia) Hfit it1) as (it2 & -> & Hc2); [by destruct Hc1 as (_ & H1 & _)|].
      cbn [mbind option_bind]. destruct (more (index_of ps)) eqn:Em; [|done]. cbn [negb].
      destruct (skip_all_cursor (S (length (block_bytes 1 (index_of ps)))) it2 _ Hc2) as (it3 & -> & Hv); [|lia|].
      { pose proof (layout_length 1 0 [] (index_of ps)). pose proof (layout_le_block 1 (index_of ps)).
        unfold blen in *. lia. }
      cbn [mbind option_bind]. by rewrite Hv.
    + by rewrite assoc_suffix, Hs by apply Hop.
Qed.

(** A lookup gives the value of the key in the table, or nothing. *)
Lemma table_Get_spec c key :
  sound_opt c ->
  exists c', Get t c key = Some (c', match assoc key (pairs_of ps) with
                                     | Some v => inr v
                                     | None => inl ErrNotFound
                                     end) /\ sound_opt c'.
Proof.
  intros Hc. unfold Get. destruct (op_filter _ _ _ _ Hop key) as (may & Hm & Hin).
  assert (Hmay : match TableReader.filter t with Some f => mayContain (Some f) key | None => Some true end =
    Some may) by (destruct (TableReader.filter t); done).
  rewrite Hmay. cbn [mbind option_bind]. destruct may; cbn [negb].
  - destruct (findDataBlock_spec key) as [(a & p & b & E & -> & ->)|[-> ->]]; cbn [mbind option_bind];
      [|by exists c].
    assert (Hp : p ∈ ps) by (rewrite E; set_solver). destruct (part_block p Hp) as (_ & _ & Hfit).
    destruct (readDataBlock_spec c p Hc Hp) as (c' & -> & Hc'). cbn [mbind option_bind].
    pose proof (op_interval _ _ _ _ Hop) as Hr.
    destruct (open_block r _ Hr Hfit) as (it & _ & -> & Hb & _). cbn [mbind option_bind].
    destruct (SeekGE_cursor r _ Hr Hfit it key (part_ascending p Hp) Hb) as (it1 & -> & Hc1).
    cbn [mbind option_bind]. exists c'. split; [|done].
    rewrite assoc_suffix by (by apply part_ascending).
    destruct (suffix_from key (p_pairs p)) as [|[k v] l]; [done|]. destruct Hc1 as (_ & Hk & Hv & _).
    cbn [more andb]. unfold It.Key, It.Value. rewrite Hk, Hv, compareBytes_eq. by case_bool_decide.
  - exists c. split; [|done]. rewrite assoc_None; [done|]. intros Hk. by apply Hin in Hk.
Qed.

(** ** The two-level iterator *)

(** The iterator shows [l]: the rest of one block and all later blocks. *)
Definition tcursor (it : TableIterator) (l : list (bytes * bytes)) : Prop :=
  match l with
  | [] => Valid it = false
  | _ => exists a p b rest ii di,
      ps = a ++ p :: b /\ rest <> [] /\ l = rest ++ pairs_of b /\
      it = mkTableIterator (Some ii) (Some di) None /\
      cursor 1 (index_of ps) ii (index_of (p :: b)) /\ cursor r (p_pairs p) di rest
  end.

Lemma loadDataBlock_spec c a p b ii od e :
  sound_opt c -> ps = a ++ p :: b -> cursor 1 (index_of ps) ii (index_of (p :: b)) ->
  exists c' di di', loadDataBlock t c (mkTableIterator (Some ii) od e) =
      Some (c', mkTableIterator (Some ii) (Some di) e, None) /\ sound_opt c' /\
    block_of r (p_pairs p) di /\ It.First di = Some (di', true) /\ cursor r (p_pairs p) di' (p_pairs p).
Proof.
  intros Hc E Hcur. assert (Hp : p ∈ ps) by (rewrite E; set_solver).
  destruct (part_block p Hp) as (Hne & Hat & Hfit). unfold loadDataBlock. cbn [indexIter mbind option_bind err].
  destruct Hcur as (_ & _ & Hv & _). unfold It.Value. rewrite Hv.
  rewrite <- (app_nil_r (handle_bytes _)), decode_handle_bytes by (by eapply block_at_handle_ok).
  cbn [mbind option_bind]. destruct (readDataBlock_spec c p Hc Hp) as (c' & -> & Hc'). cbn [mbind option_bind].
  destruct (open_block r _ (op_interval _ _ _ _ Hop) Hfit) as (di & di' & -> & Hb & _ & HF & Hcd).
  cbn [mbind option_bind]. exists c', di, di'. split_and!; try done. rewrite HF.
  by destruct (p_pairs p).
Qed.

Lemma tcursor_intro a p b rest ii di :
  ps = a ++ p :: b -> rest <> [] -> cursor 1 (index_of ps) ii (index_of (p :: b)) ->
  cursor r (p_pairs p) di rest ->
  tcursor (mkTableIterator (Some ii) (Some di) None) (rest ++ pairs_of b).
Proof.
  intros E Hne Hi Hd. unfold tcursor. destruct (rest ++ pairs_of b) eqn:El.
  - by apply app_eq_nil in El as [-> _].
  - rewrite <- El. by exists a, p, b, rest, ii, di.
Qed.

Lemma nextBlock_spec c a p b ii od :
  sound_opt c -> ps = a ++ p :: b -> cursor 1 (index_of ps) ii (index_of (p :: b)) ->
  exists c' it', nextBlock t c (mkTableIterator (Some ii) od None) =
      Some (c', it', more (pairs_of b)) /\ sound_opt c' /\ tcursor it' (pairs_of b).
Proof.
  intros Hc E Hcur. unfold nextBlock. cbn [indexIter dataIter err mbind option_bind].
  destruct (next_cursor 1 _ ltac:(lia) (op_fits _ _ _ _ Hop) ii _ Hcur) as (ii' & Hn & Hcur').
  unfold It.Next. rewrite Hn. cbn [mbind option_bind]. cbn [tail index_of fmap list_fmap] in *.
  change (list_fmap _ _ _ b) with (index_of b) in *. destruct b as [|q b]; cbn [more negb index_of fmap list_fmap].
  - eexists _, _. by split_and!.
  - assert (E' : ps = (a ++ [p]) ++ q :: b) by (by rewrite <- app_assoc).
    destruct (loadDataBlock_spec c _ q b ii' od None Hc E' Hcur') as (c' & di & di' & -> & Hc' & Hb & HF & Hcd).
    cbn [mbind option_bind]. unfold data_first. cbn [dataIter mbind option_bind]. rewrite HF.
    cbn [mbind option_bind]. eexists c', _.
    assert (Hq : q ∈ ps) by (rewrite E'; set_solver). destruct (part_block q Hq) as (Hne & _ & _).
    split; [|split; [exact Hc'|]].
    + rewrite pairs_of_cons. by destruct (p_pairs q).
    + unfold set_data. cbn [indexIter err]. rewrite pairs_of_cons.
      by apply (tcursor_intro (a ++ [p]) q b (p_pairs q)).
Qed.

Lemma Next_spec c it kv l :
  sound_opt c -> tcursor it (kv :: l) ->
  exists c' it', Next t c it = Some (c', it', more l) /\ sound_opt c' /\ tcursor it' l.
Proof.
  intros Hc (a & p & b & rest & ii & di & E & Hne & El & -> & Hi & Hd). unfold Next. cbn [dataIter].
  assert (Hp : p ∈ ps) by (rewrite E; set_solver). destruct (part_block p Hp) as (_ & _ & Hfit).
  destruct (next_cursor r _ (op_interval _ _ _ _ Hop) Hfit di rest Hd) as (di' & Hn & Hd').
  unfold It.Next. rewrite Hn. cbn [mbind option_bind]. unfold set_data. cbn [indexIter err].
  destruct rest as [|kv0 rest]; [done|]. cbn [app] in El. injection El as -> ->. cbn [tail] in *.
  destruct rest as [|kv1 rest]; cbn [more].
  - by apply (nextBlock_spec c a p b).
  - exists c. eexists. split; [done|]. split; [done|].
    by apply (tcursor_intro a p b (kv1 :: rest)).
Qed.

(** Positioning, from any state of the iterator.  With nothing to show, the
    iterator is invalid afterwards only if it had no data block before. *)
Definition shows (it it' : TableIterator) (l : list (bytes * bytes)) : Prop :=
  l <> [] \/ dataIter it = None -> tcursor it' l.

Lemma shows_nil it ii : shows it (mkTableIterator ii (dataIter it) None) [].
Proof. intros [[]|E]; [done|]. unfold tcursor, Valid. cbn [dataIter]. by rewrite E. Qed.

Lemma First_any c it :
  sound_opt c ->
  exists c' it', First t c it = Some (c', it', more (pairs_of ps)) /\ sound_opt c' /\ shows it it' (pairs_of ps).
Proof.
  intros Hc. unfold First. rewrite (op_index _ _ _ _ Hop). pose proof (op_fits _ _ _ _ Hop) as Hfit.
  destruct (open_block 1 _ ltac:(lia) Hfit) as (ii & ii' & -> & Hb & _ & HF & Hcur).
  cbn [mbind option_bind]. rewrite HF. cbn [mbind option_bind].
  assert (Hcase : ps = [] \/ exists p b, ps = p :: b) by (destruct ps; [by left|right; by eexists _, _]).
  destruct Hcase as [Eps|(p & b & Eps)].
  - rewrite Eps. eexists c, _. split_and!; [done..|apply shows_nil].
  - assert (Hm : more (index_of ps) = true) by (by rewrite Eps). rewrite Hm. cbn [negb].
    rewrite Eps in Hcur at 2.
    destruct (loadDataBlock_spec c [] p b ii' (dataIter it) None Hc Eps Hcur) as (c' & di & di' & -> & Hc' & _ & HF' & Hcd).
    cbn [mbind option_bind]. unfold data_first. cbn [dataIter mbind option_bind]. rewrite HF'.
    cbn [mbind option_bind]. eexists c', _. assert (Hp : p ∈ ps) by (rewrite Eps; by left).
    destruct (part_block p Hp) as (Hne & _ & _).
    assert (Hpairs : pairs_of ps = p_pairs p ++ pairs_of b) by (by rewrite Eps).
    rewrite Hpairs. split; [by destruct (p_pairs p)|]. split; [exact Hc'|]. intros _.
    unfold set_data. cbn [indexIter err]. by apply (tcursor_intro [] p b (p_pairs p)).
Qed.

Lemma SeekGE_any c it target :
  sound_opt c ->
  exists c' it', SeekGE t c it target = Some (c', it', more (suffix_from target (pairs_of ps))) /\
    sound_opt c' /\ shows it it' (suffix_from target (pairs_of ps)).
Proof.
  intros Hc. unfold SeekGE. rewrite (op_index _ _ _ _ Hop). pose proof (op_fits _ _ _ _ Hop) as Hfit.
  destruct (open_block 1 _ ltac:(lia) Hfit) as (ii & _ & -> & Hb & _ & _). cbn [mbind option_bind].
  destruct (SeekGE_cursor 1 _ ltac:(lia) Hfit ii target index_ok Hb) as (ii1 & -> & Hc1). cbn [mbind option_bind].
  destruct (locate ps target (op_separated _ _ _ _ Hop) parts_nonempty (op_ascending _ _ _ _ Hop))
    as [(a & p & b & E & Hi & Hs)|[Hi Hs]]; rewrite Hi, Hs in *; cbn [more negb index_of fmap list_fmap].
  - change (list_fmap _ _ _ b) with (index_of b).
    destruct (loadDataBlock_spec c a p b ii1 (dataIter it) None Hc E Hc1) as (c' & di & di' & -> & Hc' & Hbd & _ & _).
    cbn [mbind option_bind]. assert (Hp : p ∈ ps) by (rewrite E; set_solver).
    destruct (part_block p Hp) as (_ & _ & Hfd). cbn [dataIter mbind option_bind].
    destruct (SeekGE_cursor r _ (op_interval _ _ _ _ Hop) Hfd di target (part_ascending p Hp) Hbd)
      as (di1 & -> & Hcd). cbn [mbind option_bind]. unfold set_data. cbn [indexIter err].
    destruct (suffix_from target (p_pairs p)) as [|kv l]; cbn [more].
    + destruct (nextBlock_spec c' a p b ii1 (Some di1) Hc' E Hc1) as (c2 & it2 & -> & Hc2 & Ht).
      exists c2, it2. split_and!; [done..|by intros _].
    + exists c'. eexists. split; [done|]. split; [done|]. intros _. by apply (tcursor_intro a p b (kv :: l)).
  - exists c. eexists. split_and!; [done..|apply shows_nil].
Qed.

Lemma First_spec c it :
  sound_opt c -> dataIter it = None ->
  exists c' it', First t c it = Some (c', it', more (pairs_of ps)) /\ sound_opt c' /\ tcursor it' (pairs_of ps).
Proof. intros Hc Hd. destruct (First_any c it Hc) as (c' & it' & ? & ? & Hs). exists c', it'. unfold shows in Hs. auto. Qed.

Lemma SeekGE_spec c it target :
  sound_opt c -> dataIter it = None ->
  exists c' it', SeekGE t c it target = Some (c', it', more (suffix_from target (pairs_of ps))) /\
    sound_opt c' /\ tcursor it' (suffix_from target (pairs_of ps)).
Proof. intros Hc Hd. destruct (SeekGE_any c it target Hc) as (c' & it' & ? & ? & Hs). exists c', it'. unfold shows in Hs. auto. Qed.

Lemma tcursor_Key it p l : tcursor it (p :: l) -> Key it = Some p.1 /\ Value it = Some p.2.
Proof.
  intros (a & q & b & rest & ii & di & E & Hne & El & -> & Hi & Hd).
  destruct rest as [|[k' v'] rest]; [done|]. cbn [app] in El. injection El as -> _.
  destruct Hd as (_ & Hk & Hva & _). unfold Key, Value, It.Key, It.Value. cbn [dataIter fmap option_fmap option_map].
  by rewrite Hk, Hva.
Qed.

Lemma table_collect_spec fuel c it l :
  sound_opt c -> tcursor it l -> (length l < fuel)%nat -> collect fuel t c it = Some l.
Proof.
  revert c it l. induction fuel as [|f IH]; intros c it l Hc Ht Hf; [lia|]. cbn [collect].
  destruct l as [|[k v] l]; [by rewrite Ht|].
  destruct (Next_spec c it (k, v) l Hc Ht) as (c' & it' & Hn & Hc' & Ht'). rewrite Hn.
  destruct Ht as (a & p & b & rest & ii & di & E & Hne & El & -> & Hi & Hd).
  destruct rest as [|[k' v'] rest]; [done|]. cbn [app] in El. injection El as -> -> _.
  destruct Hd as (Hv & Hk & Hva & _). unfold Valid, Key, Value, It.Valid, It.Key, It.Value.
  cbn [dataIter err fmap option_fmap option_map]. rewrite Hv, Hk, Hva. cbn [andb mbind option_bind].
  rewrite (IH c' it' l Hc' Ht') by (cbn in Hf; lia). done.
Qed.
End reading.

(** ** A cache stays *)

(** No operation of a reader gives up its cache. *)
Section cache_stays.
Context {C : Type} {ops : CacheOps C}.

Lemma readDataBlock_cache t (c c' : option C) h r : readDataBlock t c h = Some (c', r) -> is_Some c -> is_Some c'.
Proof.
  intros E [x ->]. unfold readDataBlock in E. apply bind_Some in E as ([c1 hit] & E1 & E).
  apply bind_Some in E1 as ([c2 d] & _ & [= <- <-]). destruct d as [d|]; [by injection E as <- _|].
  apply bind_Some in E as (res & _ & E). destruct res as [e|d]; [by injection E as <- _|].
  apply bind_Some in E as (c3 & _ & [= <- _]). done.
Qed.

Lemma loadDataBlock_cache t (c c' : option C) it it' e : loadDataBlock t c it = Some (c', it', e) -> is_Some c -> is_Some c'.
Proof.
  unfold loadDataBlock. intros (ii & _ & ([h n] & _ & ([c1 res] & E1 & E)%bind_Some)%bind_Some)%bind_Some Hc.
  apply (readDataBlock_cache _ _ _ _ _ E1) in Hc. destruct res as [e1|d]; [by injection E as <- _ _|].
  by apply bind_Some in E as (di & _ & [= <- _ _]).
Qed.

Lemma nextBlock_cache t (c c' : option C) it it' ok : nextBlock t c it = Some (c', it', ok) -> is_Some c -> is_Some c'.
Proof.
  unfold nextBlock. intros (ii & _ & ([ii' ok'] & _ & E)%bind_Some)%bind_Some Hc. destruct ok'; cbn [negb] in E; [|by injection E as <- _ _].
  apply bind_Some in E as ([[c1 it1] e] & E1 & E). apply (loadDataBlock_cache _ _ _ _ _ _ E1) in Hc.
  destruct e as [e|]; [by injection E as <- _ _|]. by apply bind_Some in E as ([? ?] & _ & [= <- _ _]).
Qed.

Lemma SeekGE_cache t (c c' : option C) it it' target ok :
  SeekGE t c it target = Some (c', it', ok) -> is_Some c -> is_Some c'.
Proof.
  unfold SeekGE. intros (ii & _ & ([ii' ok'] & _ & E)%bind_Some)%bind_Some Hc. destruct ok'; cbn [negb] in E; [|by injection E as <- _ _].
  apply bind_Some in E as ([[c1 it1] e] & E1 & E). apply (loadDataBlock_cache _ _ _ _ _ _ E1) in Hc.
  destruct e as [e|]; [by injection E as <- _ _|]. apply bind_Some in E as (di & _ & ([di' ok'] & _ & E)%bind_Some).
  destruct ok'; [by injection E as <- _ _|]. by apply (nextBlock_cache _ _ _ _ _ _ E).
Qed.

Lemma First_cache t (c c' : option C) it it' ok : First t c it = Some (c', it', ok) -> is_Some c -> is_Some c'.
Proof.
  unfold First. intros (ii & _ & ([ii' ok'] & _ & E)%bind_Some)%bind_Some Hc. destruct ok'; cbn [negb] in E; [|by injection E as <- _ _].
  apply bind_Some in E as ([[c1 it1] e] & E1 & E). apply (loadDataBlock_cache _ _ _ _ _ _ E1) in Hc.
  destruct e as [e|]; [by injection E as <- _ _|]. by apply bind_Some in E as ([? ?] & _ & [= <- _ _]).
Qed.

Lemma Next_cache t (c c' : option C) it it' ok : Next t c it = Some (c', it', ok) -> is_Some c -> is_Some c'.
Proof.
  unfold Next. destruct (dataIter it) as [di|]; [|by intros [= <- _ _]]. intros ([di' ok'] & _ & E)%bind_Some Hc.
  destruct ok'; [by injection E as <- _ _|]. by apply (nextBlock_cache _ _ _ _ _ _ E).
Qed.
End cache_stays.
