(* ===== verification/TableSpec.v ===== *)
(** Tables end to end: what is written to any lawful writer without error is
    read back, key by key and in order, through any block cache; what is
    changed on disk is noticed; and the places where the code does less than
    it means to. *)
From stdpp Require Import sorting.
From S2P Require Import Prelude Binary ByteOrder Sorted Io Crc Format Block BlockSpec Bloom Cache CacheSpec TableWriter CacheInterface TableLayout TableWriterSpec TableReader TableReaderSpec.

#[local] Open Scope Z_scope.

(** ** Writing a table *)

Section tables.
Context {W : Type} {writer : Io.Writer W} {laws : WriterLaws W}.

Lemma Close_spec t kvs :
  ready t kvs -> weight kvs < 2 ^ 31 -> blen kvs * BloomBitsPerKey (opts t) < 2 ^ 40 ->
  exists t' res, Close t = Some (t', res) /\
    match res with
    | inl e => failed t e
    | inr m => exists r ps mh ih, table (written (w t')) r ps mh ih /\ pairs_of ps = kvs /\
        meta_matches m (written (w t')) ps
    end.
Proof.
  intros (ps & tail & cur & Hw & Haf & _) Hsz Hbits. unfold Close.
  rewrite (packed_count _ _ _ (ws_data _ _ _ _ _ Hw)).
  assert (H1 : exists t1 err tail1, (if 0 <? blen cur then flushDataBlock t else (t, None)) = (t1, err) /\
    match err with
    | Some e => failed t e
    | None => wstate t1 ps tail1 [] kvs /\ same_setup t t1
    end).
  { destruct cur as [|q cur].
    - exists t, None, tail. by split.
    - rewrite blen_cons, (proj2 (Z.ltb_lt _ _)) by blia.
      pose proof (ws_pending _ _ _ _ _ Hw) as Hpe. unfold pending_ok in Hpe.
      destruct (pendingHandle t) as [h|] eqn:Eh; [by destruct Hpe as [? _]|subst tail].
      destruct (flushDataBlock_spec t ps (q :: cur) kvs Hw Eh ltac:(done) Hsz) as (t1 & err & E & He).
      exists t1, err, (q :: cur). split; [done|]. destruct err; [done|]. destruct He as (? & _ & ?). by split. }
  destruct H1 as (t1 & err & tail1 & -> & H1). destruct err as [e|]; [by eexists _, _|].
  destruct H1 as [Hw1 Ho1]. clear Hw Haf.
  assert (H2 : exists t2 ps2, match pendingHandle t1 with
      | Some h => addIndexEntry t1 (shortSuccessor (pendingKey t1)) h | None => Some t1 end = Some t2 /\
    wstate t2 ps2 [] [] kvs /\ pendingHandle t2 = None /\ same_setup t t2).
  { pose proof (ws_pending _ _ _ _ _ Hw1) as Hpe. unfold pending_ok in Hpe.
    destruct (pendingHandle t1) as [h|] eqn:Eh.
    - destruct Hpe as (_ & Hne & Hpk & _). destruct (shortSuccessor_spec (pendingKey t1)) as [Hs1 Hs2].
      rewrite Hpk in *.
      destruct (addIndexEntry_spec t1 ps tail1 kvs h _ [] Hw1 Eh Hsz Hs1 Hs2 (Forall_nil_2 _) (ws_separated _ _ _ _ _ Hw1))
        as (t2 & ps2 & E & _ & Hw2 & _ & Hn2 & _ & Ho2).
      exists t2, ps2. split_and!; [done..|]. by eapply same_setup_trans.
    - subst tail1. by exists t1, ps. }
  destruct H2 as (t2 & ps2 & -> & Hw2 & Hn2 & Ho2). cbn [mbind option_bind].
  destruct (write_tail_spec t2 ps2 kvs Hw2 Hn2 Hsz ltac:(by rewrite (proj1 Ho2))) as (t3 & res & E & Hres).
  exists t3, res. split; [exact E|]. destruct res as [e|m]; [by eapply failed_same|].
  destruct Hres as (mh & ih & Ht & Hp & Hm). by exists (RestartInterval (opts t2)), ps2, mh, ih.
Qed.

(** The bits per key after the default. *)
Definition bits_of (opts : WriterOptions) : Z :=
  if BloomBitsPerKey opts <=? 0 then DefaultBloomBitsPerKey else BloomBitsPerKey opts.

Lemma write_table_spec o opts kvs :
  written o = [] -> ascending kvs -> weight kvs < 2 ^ 31 -> blen kvs * bits_of opts < 2 ^ 40 ->
  exists t res, write_table o opts kvs = Some (t, res) /\
    match res with
    | inl e => (exists x, e = ErrWrite x) /\ reach o < table_limit
    | inr m => exists r ps mh ih, table (written (w t)) r ps mh ih /\ pairs_of ps = kvs /\
        meta_matches m (written (w t)) ps
    end.
Proof.
  intros Ho Ha Hsz Hb. destruct (NewWriter_ready o opts Ho) as [_ Hr].
  destruct (Add_all_spec (NewWriter o opts) [] kvs Hr Ha Hsz) as (t & err & HA & He).
  unfold write_table. rewrite HA. cbn [mbind option_bind]. destruct err as [e|]; [by eexists _, _|].
  destruct He as [Hr' Ho']. destruct (Close_spec t kvs Hr' Hsz) as (t' & res & E & H); [by rewrite (proj1 Ho')|].
  exists t', res. split; [exact E|]. destruct res as [e|m]; [|done]. by apply (failed_same _ _ _ Ho') in H.
Qed.
End tables.

(** The blocks of the table by offset: what a cache may hold for it. *)
Definition part_blocks (r : Z) (ps : list part) (off : Z) (d : bytes) : Prop :=
  exists p, p ∈ ps /\ Offset (p_handle p) = off /\ d = block_bytes r (p_pairs p).

Lemma part_blocks_of f r ps (P : Z -> Z -> bytes -> Prop) fid :
  parts_ok f r ps -> (forall o d, P fid o d <-> part_blocks r ps o d) -> blocks_of P fid r ps.
Proof.
  intros [_ Hnd] HP p Hp. split.
  - apply HP. by exists p.
  - intros d (q & Hq & Ho & ->)%HP. f_equal. f_equal.
    apply list_elem_of_lookup in Hp as [i Hi]. apply list_elem_of_lookup in Hq as [j Hj].
    assert (i = j) as <-; [|congruence]. eapply (NoDup_lookup _ i j _ Hnd); rewrite list_lookup_fmap.
    + by rewrite Hi.
    + rewrite Hj. cbn. by rewrite Ho.
Qed.

(** What an open table answers, with a cache that holds at most [Q]'s blocks
    for it. *)
Definition serves {C} `{CacheLaws C} (rd : Reader) (fid : Z) (Q : Z -> bytes -> Prop)
    (kvs : list (bytes * bytes)) : Prop :=
  forall (P : Z -> Z -> bytes -> Prop) (c : option C),
    (forall o d, P fid o d <-> Q o d) -> sound_opt P c ->
    (forall key, exists c', Get rd c key = Some (c', match assoc key kvs with
                                                     | Some v => inr v
                                                     | None => inl ErrNotFound
                                                     end) /\ sound_opt P c') /\
    (exists c' it, First rd c NewIterator = Some (c', it, more kvs) /\ sound_opt P c' /\
       collect (S (length kvs)) rd c' it = Some kvs) /\
    (forall target, exists c' it,
       SeekGE rd c NewIterator target = Some (c', it, more (suffix_from target kvs)) /\ sound_opt P c' /\
       collect (S (length kvs)) rd c' it = Some (suffix_from target kvs)).

Lemma opened_serves {C} `{CacheLaws C} rd fid r ps :
  opened rd fid r ps -> serves (C := C) rd fid (part_blocks r ps) (pairs_of ps).
Proof.
  intros Hop P c HP Hc. pose proof (part_blocks_of _ r ps P fid (op_parts _ _ _ _ Hop) HP) as Hb.
  split_and!.
  - intros key. by apply (table_Get_spec P rd fid r ps Hop Hb).
  - destruct (First_spec P rd fid r ps Hop Hb c NewIterator Hc eq_refl) as (c' & it & HF & Hc' & Ht).
    exists c', it. split_and!; [done..|]. by apply (table_collect_spec P rd fid r ps Hop Hb); [..|lia].
  - intros target.
    destruct (SeekGE_spec P rd fid r ps Hop Hb c NewIterator target Hc eq_refl) as (c' & it & HS & Hc' & Ht).
    exists c', it. split_and!; [done..|]. apply (table_collect_spec P rd fid r ps Hop Hb); [done..|].
    destruct (suffix_from_suffix target (pairs_of ps) (op_ascending _ _ _ _ Hop)) as [l Hl].
    rewrite Hl at 2. rewrite length_app. lia.
Qed.

(** C16: Tables round-trip.  Write pairs with ascending keys to any lawful
    [io.Writer]: either the writer's error is reported, which one that takes
    2^40 bytes does not make, or the metadata is right and the bytes written open as a table that answers every lookup with
    the value of the key or [ErrNotFound], iterates over exactly the pairs in
    order, and seeks to the first pair at or after any target.  This holds
    with no cache and with any lawful cache shared with other files, whose
    soundness every read keeps; nothing panics and no loop runs out of
    rounds. *)
Theorem table_roundtrip {W} {writer : Io.Writer W} {wlaws : WriterLaws W}
    {C} {ops : CacheOps C} {claws : CacheLaws C}
    (o : W) (opts : WriterOptions) (kvs : list (bytes * bytes)) (fid : Z) :
  written o = [] -> ascending kvs -> weight kvs < 2 ^ 31 -> blen kvs * bits_of opts < 2 ^ 40 ->
  exists t res, write_table o opts kvs = Some (t, res) /\
    match res with
    | inl e => (exists x, e = ErrWrite x) /\ reach o < table_limit
    | inr m =>
        Size m = blen (written (w t)) /\ KeyCount m = blen kvs /\
        SmallestKey m = default [] (hd_error kvs.*1) /\ LargestKey m = default [] (last kvs.*1) /\
        exists rd Q, NewReader (written (w t)) (Size m) fid = Some (inr rd) /\ serves (C := C) rd fid Q kvs
    end.
Proof.
  intros Ho Ha Hsz Hb. destruct (write_table_spec o opts kvs Ho Ha Hsz Hb) as (t & res & E & Hres).
  exists t, res. split; [exact E|]. destruct res as [e|m]; [done|].
  destruct Hres as (r & ps & mh & ih & Ht & <- & (M1 & M2 & _ & M4 & M5)).
  split_and!; [done..|]. destruct (NewReader_table _ fid _ _ _ _ Ht) as (rd & Hn & _ & Hop).
  exists rd, (part_blocks r ps). rewrite M1. split; [exact Hn|]. by apply opened_serves.
Qed.

Definition demo_pairs : list (bytes * bytes) :=
  [([x61], [x31]); ([x61; x62], [x32]); ([x61; x63; x63], []); ([x62], [x34; x35]); ([x63; x63], [x37])].
Definition demo_file : File := mkFile [] 0 100000 true.
Definition demo_opts : WriterOptions := mkWriterOptions 30 2 10.

Lemma table_roundtrip_witness :
  exists t m rd, write_table demo_file demo_opts demo_pairs = Some (t, inr m) /\
    NewReader (written (w t)) (Size m) 7 = Some (inr rd) /\
    exists c', Get rd (Some (NewBlockCache 64)) [x62] = Some (c', inr [x34; x35]).
Proof.
  destruct (table_roundtrip (wlaws := file_writer_laws) (claws := lru_laws) demo_file demo_opts demo_pairs 7 ltac:(reflexivity)
    ltac:(apply (bool_decide_unpack _); vm_compute; exact I) ltac:(vm_compute; reflexivity)
    ltac:(vm_compute; reflexivity)) as (t & [e|m] & E & Hres).
  - exfalso. assert (Hok : match write_table demo_file demo_opts demo_pairs with
        | Some (_, inr _) => True | _ => False end) by (vm_compute; exact I).
    rewrite E in Hok. exact Hok.
  - destruct Hres as (_ & _ & _ & _ & rd & Q & Hn & Hs). exists t, m, rd. split; [exact E|]. split; [exact Hn|].
    destruct (Hs (fun f o d => Q o d) (Some (NewBlockCache 64)) (fun o d => iff_refl _)
      (NewBlockCache_sound _ 64)) as (HG & _ & _).
    destruct (HG [x62]) as (c' & HG' & _). exists c'. exact HG'.
Defined.

(** ** Corruption *)

Lemma app_cons_split {A} (a b c d : list A) x :
  a ++ x :: b = c ++ d -> (exists e, c = a ++ x :: e /\ b = e ++ d) \/ (exists e, a = c ++ e /\ d = e ++ x :: b).
Proof.
  revert c. induction a as [|y a IH]; intros c E.
  - destruct c as [|z c]; cbn in E; [right; by exists []|]. injection E as -> ->. left. by exists c.
  - destruct c as [|z c]; cbn in E; [right; by exists (y :: a)|]. injection E as -> E.
    destruct (IH c E) as [(e & -> & ->)|(e & -> & ->)]; [left; by exists e|right; by exists e].
Qed.

(** C33: Damage is noticed.  If any single byte of a block or of its trailer
    (data, compression type or checksum) is changed on disk, reading the block
    reports corruption. *)
Theorem corrupt_block_detected (pre post a b d : bytes) (x y : byte) (h : BlockHandle) :
  Offset h = blen pre -> Length h = blen d -> blen pre + blen d < 2 ^ 40 ->
  d ++ trailer d = a ++ x :: b -> x <> y ->
  readRawBlock (pre ++ (a ++ y :: b) ++ post) h = Some (inl ErrCorrupted).
Proof.
  intros Ho Hl Hb E Hxy. unfold trailer in E. set (c := put_le32 _) in E.
  assert (Hc : le_value c = blockChecksum d compressionNone).
  { unfold c, put_le32. rewrite le_value_le_bytes. apply Z.mod_small.
    change (256 ^ Z.of_nat 4) with (2 ^ 32). apply blockChecksum_bounds. }
  assert (Hcl : blen c = 4) by apply blen_put_le32.
  destruct (app_cons_split a b d (compressionNone :: c) x (eq_sym E)) as [(e & Hd & ->)|(e & -> & He)].
  - replace (pre ++ (a ++ y :: e ++ compressionNone :: c) ++ post)
      with (pre ++ (a ++ y :: e) ++ compressionNone :: c ++ post) by (by rewrite <- !app_assoc; cbn; rewrite <- !app_assoc).
    assert (Hlen : blen (a ++ y :: e) = blen d) by (rewrite Hd, !blen_app, !blen_cons; done).
    rewrite (readRawBlock_raw pre _ _ c post h Ho) by (rewrite ?Hlen; done).
    rewrite (proj2 (Z.eqb_neq _ _)); [done|]. rewrite Hc, Hd, !blockChecksum_eq, <- !app_assoc. cbn [app].
    intros Hcrc. apply Hxy. symmetry. by apply (crc32_update_byte 0 a (e ++ [compressionNone]) y x).
  - replace (pre ++ ((d ++ e) ++ y :: b) ++ post) with (pre ++ d ++ (e ++ y :: b) ++ post)
      by (by rewrite <- !app_assoc).
    destruct e as [|t e]; cbn [app] in *; injection He as Hx He.
    + subst x b.
      rewrite (readRawBlock_raw pre d y c post h Ho Hl Hb Hcl).
      rewrite (proj2 (Z.eqb_neq _ _)); [done|]. rewrite Hc, !blockChecksum_eq. intros Hcrc. apply Hxy.
      symmetry. by apply (crc32_update_byte 0 d [] y compressionNone).
    + subst t. assert (Hcl' : blen (e ++ y :: b) = 4) by (rewrite <- Hcl, He, !blen_app, !blen_cons; done).
      rewrite (readRawBlock_raw pre d compressionNone (e ++ y :: b) post h Ho Hl Hb Hcl').
      rewrite (proj2 (Z.eqb_neq _ _)); [done|]. rewrite <- Hc, He. intros Hv.
      apply le_value_inj in Hv; [|by rewrite !length_app]. apply app_inv_head in Hv. congruence.
Qed.

Lemma corrupt_block_detected_witness :
  let d := [x61; x62] in let t := trailer [x61; x62] in
  readRawBlock ([x00] ++ ([x61] ++ x63 :: t) ++ []) (mkHandle 1 2) = Some (inl ErrCorrupted).
Proof.
  apply (corrupt_block_detected [x00] [] [x61] (trailer [x61; x62]) [x61; x62] x62 x63 (mkHandle 1 2));
    [reflexivity|reflexivity|vm_compute; reflexivity|reflexivity|discriminate].
Defined.

(** A damaged footer is not reported but panics: a file of one footer in
    which the first handle is an overlong varint makes [NewReader] slice out of
    range, and so does a handle whose length no allocation can hold, although
    the magic number is right. *)
Theorem damaged_footer_panics :
  NewReader (replicate 40 xff ++ magic) 48 0 = None /\
  NewReader (handle_bytes (mkHandle 0 0) ++ handle_bytes (mkHandle 0 (2 ^ 60)) ++ replicate 28 x00 ++ magic) 48 0 = None.
Proof. split; vm_compute; reflexivity. Qed.

(** ** Order *)

(** Out-of-order keys are refused: once ascending pairs were added
    without error and the last key [k'] is not empty, adding a key at or below
    [k'] returns the order error and leaves the writer as it is. *)
Theorem disorder_refused {W} {writer : Io.Writer W} {wlaws : WriterLaws W}
    (o : W) (opts : WriterOptions) (t : Writer W) (kvs : list (bytes * bytes)) (k v k' : bytes) :
  written o = [] -> ascending kvs -> weight kvs < 2 ^ 31 ->
  Add_all (NewWriter o opts) kvs = Some (t, None) -> last kvs.*1 = Some k' -> k' <> [] -> ble k k' ->
  Add t k v = Some (t, Some (ErrOrder k k')).
Proof.
  intros Ho Ha Hsz HA Hl Hne Hle. destruct (NewWriter_ready o opts Ho) as [_ Hr].
  destruct (Add_all_spec (NewWriter o opts) [] kvs Hr Ha Hsz) as (t' & e & HA' & He).
  rewrite HA in HA'. injection HA' as <- <-. destruct He as [(ps & tl & cur & _ & _ & Hp) _].
  unfold Add, prev_ok, last_key in *. cbn [app] in Hp. destruct (prevKey t) as [p|].
  - destruct Hp as [_ ->]. rewrite Hl. cbn [default from_option]. by rewrite compareBytes_le, bool_decide_eq_true_2.
  - destruct Hne. apply Hp. apply last_Some_elem_of, Hl.
Qed.

Definition demo_writer : Writer File :=
  match Add_all (NewWriter demo_file demo_opts) demo_pairs with
  | Some (t, _) => t
  | None => NewWriter demo_file demo_opts
  end.

Lemma disorder_refused_witness :
  Add demo_writer [x62] [x39] = Some (demo_writer, Some (ErrOrder [x62] [x63; x63])).
Proof.
  apply (disorder_refused (wlaws := file_writer_laws) demo_file demo_opts demo_writer demo_pairs [x62] [x39] [x63; x63]).
  - reflexivity.
  - apply (bool_decide_unpack _). vm_compute. exact I.
  - vm_compute. reflexivity.
  - vm_compute. reflexivity.
  - reflexivity.
  - discriminate.
  - apply (bool_decide_unpack _). vm_compute. exact I.
Defined.

(** Writing a table to an empty file and opening it. *)
Definition write_open (kvs : list (bytes * bytes)) : option (TableMeta * Reader) :=
  '(t, res) ← write_table demo_file demo_opts kvs;
  match res with
  | inl _ => None
  | inr m =>
      rd ← NewReader (written (w t)) (Size m) 7;
      match rd with inl _ => None | inr rd => Some (m, rd) end
  end.

(** The order check tells "no key yet" by a nil slice, and appending the empty
    key to nil gives nil: the empty key is accepted twice and the table holds
    both. *)
Theorem empty_key_accepted_twice :
  ('(m, rd) ← write_open [([], [x31]); ([], [x32])];
   '(c, it, ok) ← First rd (None : option BlockCache) NewIterator;
   l ← collect 3 rd c it; Some (KeyCount m, ok, l)) =
  Some (2, true, [([], [x31]); ([], [x32])]).
Proof. vm_compute. reflexivity. Qed.

(** An iterator that is used and then sought past the end returns [false] but
    keeps its old data block: it stays [Valid] at its old key. *)
Theorem seek_past_end_stays_valid :
  ('(_, rd) ← write_open demo_pairs;
   '(c, it, _) ← First rd (None : option BlockCache) NewIterator;
   '(_, it, ok) ← SeekGE rd c it [xff; xff];
   k ← Key it; Some (ok, Valid it, k)) = Some (false, true, [x61]).
Proof. vm_compute. reflexivity. Qed.
