(* ===== verification/TableFile.v ===== *)
(** Tables written to files: what the writer's theorems say of any lawful
    [io.Writer], said of an [os.File] that is written from its start.  Flushes
    and compactions create their tables this way. *)
From stdpp Require Import sorting.
From S2P Require Import Prelude Binary ByteOrder Sorted Io Crc Format Block BlockSpec Bloom CacheInterface TableWriter TableLayout TableWriterSpec TableReader TableReaderSpec TableSpec.

#[local] Open Scope Z_scope.

(** ** What the writer does to its output *)

(** A property of the output kept by every write is kept by the writer. *)
Section keeps.
Context {W : Type} {writer : Io.Writer W} (R : W -> Prop).
Hypothesis write_keeps : forall o p o' n e, R o -> write o p = (o', n, e) -> R o'.

Lemma writeBlock_keeps (t : Writer W) d t' r : R (w t) -> writeBlock t d = (t', r) -> R (w t').
Proof.
  intros HR. unfold writeBlock. destruct (write (w t) d) as [[o1 n1] e1] eqn:E1.
  pose proof (write_keeps _ _ _ _ _ HR E1) as H1. destruct e1; [by intros [= <- _]|].
  destruct (write o1 _) as [[o2 n2] e2] eqn:E2. pose proof (write_keeps _ _ _ _ _ H1 E2) as H2.
  by destruct e2; intros [= <- _].
Qed.

Lemma flushDataBlock_keeps (t : Writer W) t' e : R (w t) -> flushDataBlock t = (t', e) -> R (w t').
Proof.
  intros HR. unfold flushDataBlock. destruct (Block.finish _) as [b d].
  destruct (writeBlock _ d) as [t1 r] eqn:E. apply writeBlock_keeps in E; [|done].
  by destruct r; intros [= <- _].
Qed.

Lemma addIndexEntry_w (t : Writer W) sep hd t' : addIndexEntry t sep hd = Some t' -> w t' = w t.
Proof.
  unfold addIndexEntry. destruct (encodeHandle hd); [|done]. cbn [mbind option_bind].
  destruct (Block.add _ _ _); [|done]. by intros [= <-].
Qed.

Lemma add_ordered_keeps (t : Writer W) k v t' e : R (w t) -> add_ordered t k v = Some (t', e) -> R (w t').
Proof.
  intros HR. unfold add_ordered. intros (t1 & E1 & H)%bind_Some. assert (H1 : R (w t1)).
  { destruct (pendingHandle t); [|by injection E1 as <-].
    apply bind_Some in E1 as (sep & _ & E1). by rewrite (addIndexEntry_w _ _ _ _ E1). }
  apply bind_Some in H as (db & _ & H). set (t2 := mkWriter _ _ _ _ _ _ _ _ _ _ _ _ _) in H.
  destruct (if _ <=? _ then _ else _) as [t3 e3] eqn:E3 in H. assert (H3 : R (w t3)).
  { destruct (_ <=? _) in E3; [by eapply flushDataBlock_keeps; [|exact E3]|by injection E3 as <- _]. }
  by destruct e3; injection H as <- _.
Qed.

Lemma Add_keeps (t : Writer W) k v t' e : R (w t) -> Add t k v = Some (t', e) -> R (w t').
Proof.
  intros HR. unfold Add. destruct (prevKey t); [|by apply add_ordered_keeps].
  destruct (_ <=? _); [by intros [= <- _]|by apply add_ordered_keeps].
Qed.

Lemma Add_all_keeps l : forall (t t' : Writer W) e, R (w t) -> Add_all t l = Some (t', e) -> R (w t').
Proof.
  induction l as [|[k v] l IH]; intros t t' e HR; cbn [Add_all]; [by intros [= <- _]|].
  intros ([t1 e1] & E1 & H)%bind_Some. apply Add_keeps in E1; [|done].
  destruct e1; [by injection H as <- _|by eapply IH].
Qed.

Lemma write_tail_keeps (t : Writer W) t' r : R (w t) -> write_tail t = Some (t', r) -> R (w t').
Proof.
  intros HR. unfold write_tail. intros (flt & _ & H)%bind_Some.
  destruct (match flt with Some d => _ | None => _ end) as [t1 r1] eqn:E1 in H. assert (H1 : R (w t1)).
  { destruct flt; [by eapply writeBlock_keeps|by injection E1 as <- _]. }
  destruct r1 as [e1|fh]; [by injection H as <- _|].
  destruct (Block.finish (TableWriter.indexBlock t1)) as [ib idx].
  destruct (writeBlock _ idx) as [t2 r2] eqn:E2. apply writeBlock_keeps in E2; [|done].
  destruct r2 as [e2|ih]; [by injection H as <- _|]. apply bind_Some in H as (props & _ & H).
  destruct (writeBlock t2 _) as [t3 r3] eqn:E3. apply writeBlock_keeps in E3; [|done].
  destruct r3 as [e3|ph]; [by injection H as <- _|].
  apply bind_Some in H as (fhb & _ & H). apply bind_Some in H as (phb & _ & H). apply bind_Some in H as (meta & _ & H).
  destruct (writeBlock t3 _) as [t4 r4] eqn:E4. apply writeBlock_keeps in E4; [|done].
  destruct r4 as [e4|mh]; [by injection H as <- _|]. apply bind_Some in H as ([t5 e5] & E5 & H).
  assert (H5 : R (w t5)).
  { unfold writeFooter in E5. apply bind_Some in E5 as ([f1 n1] & _ & E5). apply bind_Some in E5 as ([f2 n2] & _ & E5).
    apply bind_Some in E5 as (f3 & _ & E5). destruct (write (w t4) f3) as [[o n] e] eqn:Ew.
    injection E5 as <- _. exact (write_keeps _ _ _ _ _ E4 Ew). }
  by destruct e5; injection H as <- _.
Qed.

Lemma Close_keeps (t : Writer W) t' r : R (w t) -> Close t = Some (t', r) -> R (w t').
Proof.
  intros HR. unfold Close. destruct (if 0 <? _ then _ else _) as [t1 e1] eqn:E1. assert (H1 : R (w t1)).
  { destruct (0 <? _); [by eapply flushDataBlock_keeps|by injection E1 as <- _]. }
  destruct e1; [by intros [= <- _]|]. intros (t2 & E2 & H)%bind_Some. apply write_tail_keeps in H; [done|].
  destruct (pendingHandle t1); [by rewrite (addIndexEntry_w _ _ _ _ E2)|by injection E2 as <-].
Qed.
End keeps.

(** ** Files written from the start *)

(** The position is the end of the file. *)
Definition appending (f : File) : Prop := pos f = blen (content f).

Lemma write_appending f p f' n e : appending f -> write f p = (f', n, e) -> appending f'.
Proof.
  unfold appending. intros Hp. unfold write, file_writer. pose proof (blen_nonneg p). pose proof (blen_nonneg (content f)).
  destruct (Io.opened f); cbn [negb]; [|by intros [= <- _ _]]. set (n0 := Z.min _ _). intros [= <- _ _].
  cbn [pos content]. unfold overwrite. rewrite Hp, resize_all_alt by (unfold blen; lia).
  rewrite drop_ge, app_nil_r by (unfold blen; lia). rewrite blen_app, blen_take by lia. lia.
Qed.

Lemma appending_written f : appending f -> written f = content f.
Proof. unfold appending. intros Hp. cbn. apply resize_all_alt. rewrite Hp. unfold blen. lia. Qed.

(** The writer has taken the pairs [kvs], all of its output is the file. *)
Definition filling (t : Writer File) (kvs : list (bytes * bytes)) : Prop := ready t kvs /\ appending (w t).

(** The file [c] is the table of the pairs [kvs] that [m] describes. *)
Definition table_file (c : bytes) (m : TableMeta) (kvs : list (bytes * bytes)) : Prop :=
  exists r ps mh ih, table c r ps mh ih /\ pairs_of ps = kvs /\ meta_matches m c ps.

Lemma filling_new room o : filling (NewWriter (mkFile [] 0 room true) o) [].
Proof.
  split; [by apply NewWriter_ready|]. destruct (NewWriter_ready (laws := file_writer_laws) (mkFile [] 0 room true) o eq_refl) as [-> _]. done.
Qed.

Lemma filling_Add_all t kvs l :
  filling t kvs -> ascending (kvs ++ l) -> weight (kvs ++ l) < 2 ^ 31 ->
  exists t' err, Add_all t l = Some (t', err) /\
    match err with
    | Some e => failed t e
    | None => filling t' (kvs ++ l) /\ same_setup t t'
    end.
Proof.
  intros [Hr Hp] Ha Hsz. destruct (Add_all_spec t kvs l Hr Ha Hsz) as (t' & err & E & H). exists t', err.
  split; [done|]. destruct err; [done|]. destruct H as [? ?]. split; [|done]. split; [done|].
  by eapply (Add_all_keeps appending write_appending).
Qed.

Lemma filling_Add t kvs k v :
  filling t kvs -> ascending (kvs ++ [(k, v)]) -> weight (kvs ++ [(k, v)]) < 2 ^ 31 ->
  exists t' err, Add t k v = Some (t', err) /\
    match err with
    | Some e => failed t e
    | None => filling t' (kvs ++ [(k, v)]) /\ same_setup t t'
    end.
Proof.
  intros Hf Ha Hsz. destruct (filling_Add_all t kvs [(k, v)] Hf Ha Hsz) as (t' & err & E & H).
  cbn [Add_all] in E. destruct (Add t k v) as [[t1 e1]|]; [|done]. cbn [mbind option_bind] in E.
  exists t', err. split; [|done]. by destruct e1; injection E as <- <-.
Qed.

Lemma filling_Close t kvs :
  filling t kvs -> weight kvs < 2 ^ 31 -> blen kvs * BloomBitsPerKey (opts t) < 2 ^ 40 ->
  exists t' res, Close t = Some (t', res) /\
    match res with
    | inl e => failed t e
    | inr m => table_file (content (w t')) m kvs
    end.
Proof.
  intros [Hr Hp] Hsz Hb. destruct (Close_spec t kvs Hr Hsz Hb) as (t' & res & E & H). exists t', res.
  split; [done|]. destruct res as [|m]; [done|]. destruct H as (r & ps & mh & ih & Ht & Hps & Hm).
  rewrite appending_written in Ht, Hm by (by eapply (Close_keeps appending write_appending)).
  by exists r, ps, mh, ih.
Qed.

Lemma table_file_meta c m kvs : table_file c m kvs ->
  Size m = blen c /\ KeyCount m = blen kvs /\ SmallestKey m = default [] (hd_error kvs.*1) /\
  LargestKey m = last_key [] kvs.
Proof. intros (r & ps & mh & ih & _ & <- & (? & ? & _ & ? & ?)). done. Qed.

Lemma table_file_opens c m kvs fid : table_file c m kvs ->
  exists rd r ps, NewReader c (blen c) fid = Some (inr rd) /\ opened rd fid r ps /\ pairs_of ps = kvs.
Proof.
  intros (r & ps & mh & ih & Ht & Hps & _). destruct (NewReader_table c fid r ps mh ih Ht) as (rd & E & _ & Ho).
  by exists rd, r, ps.
Qed.

(** Opening the file gives a reader of the pairs, which answers with any lawful
    cache. *)
Definition holds_table (c : bytes) (fid : Z) (kvs : list (bytes * bytes)) : Prop :=
  exists rd r ps, NewReader c (blen c) fid = Some (inr rd) /\ opened rd fid r ps /\ pairs_of ps = kvs /\
    forall C (ops : CacheOps C) (claws : CacheLaws C), serves (C := C) rd fid (part_blocks r ps) kvs.

Lemma table_file_holds c m kvs fid : table_file c m kvs -> holds_table c fid kvs.
Proof.
  intros Ht. destruct (table_file_opens c m kvs fid Ht) as (rd & r & ps & E & Ho & <-).
  exists rd, r, ps. split_and!; [done..|]. intros C ops claws. by apply opened_serves.
Qed.
