(* ===== verification/Arena.v ===== *)
(** Package [arena] ([pkg/lsm/arena/arena.go]): the bump-pointer allocator the
    skiplist nodes live in.  The slab is a byte string, offsets are [uint32]
    and the allocation counter is an atomic [uint64]; all of them are integers
    here, with the truncations of the code written out.  [Alloc] touches shared
    state in a single atomic add, so every concurrent run is a sequence of the
    [Alloc] steps below. *)
From S2P Require Import Prelude.

(** ** The allocator *)

Inductive arena_error : Type := ErrFull.

Definition NodeAlignment : Z := 4.
Definition maxSize : Z := 2 ^ 32 - 1.

Record Arena : Type := mkArena { n : Z; buf : bytes }.

Definition New (b : bytes) : Arena :=
  mkArena 1 (if maxSize <? blen b then take (Z.to_nat maxSize) b else b).

Definition Alloc (a : Arena) (size alignment : Z) : Arena * result arena_error Z :=
  let padded := u64 (size + alignment - 1) in
  let newSize := u64 (n a + padded) in
  let a' := mkArena newSize (buf a) in
  if blen (buf a) <? newSize then (a', Err ErrFull)
  else
    let offset := Z.land (u32 (u32 newSize - size)) (2 ^ 32 - 1 - (alignment - 1)) in
    (a', Ok offset).

(** [a.buf[offset : offset+size : offset+size]]; the addition is a [uint32]
    one. *)
Definition GetBytes (a : Arena) (offset size : Z) : option bytes :=
  if offset =? 0 then Some [] else slice (buf a) offset (u32 (offset + size)).

(** [copy(b[offset:offset+len(src)], src)] on a byte string. *)
Definition splice (b : bytes) (offset : Z) (src : bytes) : bytes :=
  take (Z.to_nat offset) b ++ src ++ drop (Z.to_nat (offset + blen src)) b.

Definition PutBytes (a : Arena) (offset : Z) (src : bytes) : option Arena :=
  match slice (buf a) offset (u32 (offset + u32 (blen src))) with
  | Some dst => Some (mkArena (n a) (splice (buf a) offset (take (length dst) src)))
  | None => None
  end.

Definition Size (a : Arena) : Z :=
  if blen (buf a) <? n a then u32 (blen (buf a)) else u32 (n a).

Definition Capacity (a : Arena) : Z := u32 (blen (buf a)).

(** [&a.buf[offset]]: the address is the offset itself; out of range panics. *)
Definition Pointer (a : Arena) (offset : Z) : option Z :=
  if (0 <=? offset) && (offset <? blen (buf a)) then Some offset else None.

Definition Reset (a : Arena) : Arena := mkArena 1 (buf a).

(** A sequence of allocation requests [(size, alignment)], as concurrent
    callers serialise on the atomic add. *)
Fixpoint alloc_all (a : Arena) (reqs : list (Z * Z)) : Arena * list (result arena_error Z) :=
  match reqs with
  | [] => (a, [])
  | (size, alignment) :: reqs =>
      let (a1, r) := Alloc a size alignment in
      let (a2, rs) := alloc_all a1 reqs in
      (a2, r :: rs)
  end.

(** ** Invariant *)

Definition wf (a : Arena) : Prop := 1 <= n a < 2 ^ 63 /\ blen (buf a) <= maxSize.

(** A request the callers make: [uint32] size, power-of-two alignment. *)
Definition req_ok (r : Z * Z) : Prop :=
  0 <= r.1 < 2 ^ 32 /\ exists k, 0 <= k < 32 /\ r.2 = 2 ^ k.

Lemma New_wf b : wf (New b).
Proof.
  unfold wf, New, maxSize. cbn. split; [lia|]. case_match eqn:E; bool_hyps; [|lia].
  unfold blen. rewrite length_take. lia.
Qed.

Lemma Reset_wf a : wf a -> wf (Reset a).
Proof. unfold wf. cbn. lia. Qed.

(** Clearing the low [k] bits rounds down to a multiple of [2^k]. *)
Lemma land_align x k :
  0 <= k <= 32 -> 0 <= x < 2 ^ 32 ->
  Z.land x (2 ^ 32 - 1 - (2 ^ k - 1)) = x - x mod 2 ^ k.
Proof.
  intros Hk Hx.
  assert (Hp : 0 < 2 ^ k) by (apply Z.pow_pos_nonneg; lia).
  replace (2 ^ 32 - 1 - (2 ^ k - 1)) with (Z.ones (32 - k) * 2 ^ k).
  2: { rewrite Z.ones_equiv. unfold Z.pred. rewrite Z.mul_add_distr_r, <- Z.pow_add_r by lia.
       replace (32 - k + k) with 32 by lia. lia. }
  replace (x - x mod 2 ^ k) with (x / 2 ^ k * 2 ^ k)
    by (rewrite (Z.div_mod x (2 ^ k)) at 2 by lia; lia).
  rewrite <- Z.shiftr_div_pow2, <- !Z.shiftl_mul_pow2 by lia.
  apply Z.bits_inj'. intros i Hi.
  rewrite Z.land_spec, !Z.shiftl_spec by done.
  destruct (decide (i < k)).
  - rewrite !(Z.testbit_neg_r _ (i - k)) by lia. apply andb_false_r.
  - rewrite Z.shiftr_spec by lia. replace (i - k + k) with i by lia.
    destruct (decide (i < 32)).
    + rewrite Z.ones_spec_low by lia. apply andb_true_r.
    + rewrite (testbit_high x 32) by lia. done.
Qed.

(** What one [Alloc] does, success and failure. *)
Lemma Alloc_spec a size k :
  wf a -> 0 <= size < 2 ^ 32 -> 0 <= k < 32 ->
  let (a', r) := Alloc a size (2 ^ k) in
  buf a' = buf a /\ n a' = n a + size + 2 ^ k - 1 /\
  match r with
  | Ok off => n a <= off /\ off + size <= n a' <= blen (buf a) /\ off mod 2 ^ k = 0
  | Err ErrFull => blen (buf a) < n a'
  | Panic => False
  end.
Proof.
  intros [Hn Hb] Hs Hk. unfold Alloc, maxSize in *.
  assert (Hp : 0 < 2 ^ k < 2 ^ 32).
  { split; [apply Z.pow_pos_nonneg|apply Z.pow_lt_mono_r]; lia. }
  rewrite (u64_small (size + 2 ^ k - 1)), u64_small by lia.
  destruct (blen (buf a) <? _) eqn:E; bool_hyps; cbn [n buf].
  { split; [done|]. lia. }
  split; [done|]. split; [lia|].
  pose proof (blen_nonneg (buf a)).
  rewrite (u32_small (n a + _)), u32_small, land_align by lia.
  set (x := n a + (size + 2 ^ k - 1) - size).
  pose proof (Z.mod_pos_bound x (2 ^ k) ltac:(lia)).
  split; [lia|]. split; [lia|].
  rewrite (Z.div_mod x (2 ^ k)) at 1 by lia.
  rewrite Z.add_simpl_r, Z.mul_comm. apply Z.mod_mul. lia.
Qed.

(** ** The buffer as memory *)

(** Two buffers of the same length that hold the same bytes on [lo, hi). *)
Definition agree (b b' : bytes) (lo hi : Z) : Prop :=
  blen b = blen b' /\ forall i, lo <= i < hi -> index b i = index b' i.

Lemma agree_refl b lo hi : agree b b lo hi.
Proof. by split. Qed.

Lemma agree_sub b b' lo hi lo' hi' :
  agree b b' lo hi -> lo <= lo' -> hi' <= hi -> agree b b' lo' hi'.
Proof. intros [Hl Hi] ??. split; [done|]. intros. apply Hi. lia. Qed.

Lemma agree_trans b1 b2 b3 lo hi : agree b1 b2 lo hi -> agree b2 b3 lo hi -> agree b1 b3 lo hi.
Proof.
  intros [H1 H2] [H3 H4]. split; [congruence|]. intros i Hi. by rewrite H2, H4.
Qed.

Lemma slice_Some (b c : bytes) lo hi :
  slice b lo hi = Some c <->
  0 <= lo <= hi /\ hi <= blen b /\ c = take (Z.to_nat (hi - lo)) (drop (Z.to_nat lo) b).
Proof.
  unfold slice. destruct (_ && _ && _) eqn:E; bool_hyps.
  - naive_solver lia.
  - split; [done|]. intros (H1 & H2 & _).
    rewrite !andb_false_iff, !Z.leb_gt in E. lia.
Qed.

Lemma slice_agree b b' lo hi : agree b b' lo hi -> slice b lo hi = slice b' lo hi.
Proof.
  intros [Hl Hi]. unfold slice. rewrite <- Hl.
  destruct (_ && _ && _) eqn:E; [|done]. bool_hyps. f_equal.
  apply list_eq. intros i. destruct (decide (i < Z.to_nat (hi - lo))%nat).
  - rewrite !lookup_take_lt, !lookup_drop by lia.
    specialize (Hi (lo + Z.of_nat i) ltac:(lia)). unfold index in Hi.
    rewrite (proj2 (Z.leb_le _ _)) in Hi by lia.
    by replace (Z.to_nat lo + i)%nat with (Z.to_nat (lo + Z.of_nat i)) by lia.
  - rewrite !lookup_take_ge by lia. done.
Qed.

Lemma blen_splice b off src :
  0 <= off -> off + blen src <= blen b -> blen (splice b off src) = blen b.
Proof.
  intros H1 H2. unfold splice, blen in *. rewrite !length_app, length_take, length_drop. lia.
Qed.

Lemma index_splice_out b off src i :
  0 <= off -> off + blen src <= blen b -> (i < off \/ off + blen src <= i) ->
  index (splice b off src) i = index b i.
Proof.
  intros H1 H2 H3. unfold index, splice, blen in *.
  destruct (0 <=? i) eqn:E; [|done]. bool_hyps. destruct H3.
  - rewrite lookup_app_l by (rewrite length_take; lia). by rewrite lookup_take_lt by lia.
  - rewrite lookup_app_r by (rewrite length_take; lia).
    rewrite lookup_app_r by (rewrite length_take; lia).
    rewrite lookup_drop. f_equal. rewrite length_take. lia.
Qed.

Lemma agree_splice b off src lo hi :
  0 <= off -> off + blen src <= blen b -> (hi <= off \/ off + blen src <= lo) ->
  agree b (splice b off src) lo hi.
Proof.
  intros H1 H2 H3. split; [by rewrite blen_splice|]. intros i Hi.
  rewrite index_splice_out; [done..|]. lia.
Qed.

Lemma slice_splice b off src :
  0 <= off -> off + blen src <= blen b ->
  slice (splice b off src) off (off + blen src) = Some src.
Proof.
  intros H1 H2. pose proof (blen_nonneg src).
  unfold splice. apply slice_app_mid; rewrite blen_take; lia.
Qed.

(** ** Regions *)

(** The half-open byte ranges handed out by a sequence of allocations. *)
Fixpoint regions (reqs : list (Z * Z)) (rs : list (result arena_error Z)) : list (Z * Z) :=
  match reqs, rs with
  | (size, _) :: reqs, Ok off :: rs => (off, off + size) :: regions reqs rs
  | _ :: reqs, _ :: rs => regions reqs rs
  | _, _ => []
  end.

Definition disjoint_range (p q : Z * Z) : Prop := p.2 <= q.1 \/ q.2 <= p.1.

Lemma regions_bounds reqs : forall a,
  wf a -> Forall req_ok reqs ->
  n a + 2 ^ 33 * Z.of_nat (length reqs) < 2 ^ 63 ->
  Forall (fun p => n a <= p.1 /\ p.1 <= p.2 <= blen (buf a)) (regions reqs (alloc_all a reqs).2).
Proof.
  induction reqs as [|[size al] reqs IH]; intros a Hwf Hok Hlen; [by constructor|].
  apply Forall_cons in Hok as [[Hs (k & Hk & Hal)] Hok]. cbn [fst snd] in Hs, Hal. subst al.
  assert (Hp : 0 < 2 ^ k <= 2 ^ 32).
  { split; [apply Z.pow_pos_nonneg|apply Z.pow_le_mono_r]; lia. }
  cbn [alloc_all]. pose proof (Alloc_spec a size k Hwf Hs Hk) as Ha.
  destruct (Alloc a size (2 ^ k)) as [a1 r]. destruct Ha as (Hbuf & Hn & Hr).
  cbn [length] in Hlen. rewrite Nat2Z.inj_succ in Hlen.
  assert (Hwf1 : wf a1) by (destruct Hwf; unfold wf; rewrite Hbuf; lia).
  specialize (IH a1 Hwf1 Hok ltac:(lia)).
  destruct (alloc_all a1 reqs) as [a2 rs]. cbn [snd regions] in *.
  rewrite Hbuf in IH.
  assert (Hmono : Forall (fun p => n a <= p.1 /\ p.1 <= p.2 <= blen (buf a)) (regions reqs rs)).
  { eapply Forall_impl; [exact IH|]. cbn. intros p Hp'. lia. }
  destruct r as [off|[]|]; [|done|done]. constructor; [|done]. cbn. lia.
Qed.

Lemma regions_disjoint reqs : forall a,
  wf a -> Forall req_ok reqs ->
  n a + 2 ^ 33 * Z.of_nat (length reqs) < 2 ^ 63 ->
  ForallOrdPairs disjoint_range (regions reqs (alloc_all a reqs).2).
Proof.
  induction reqs as [|[size al] reqs IH]; intros a Hwf Hok Hlen; [by constructor|].
  apply Forall_cons in Hok as [[Hs (k & Hk & Hal)] Hok]. cbn [fst snd] in Hs, Hal. subst al.
  assert (Hp : 0 < 2 ^ k <= 2 ^ 32).
  { split; [apply Z.pow_pos_nonneg|apply Z.pow_le_mono_r]; lia. }
  cbn [alloc_all]. pose proof (Alloc_spec a size k Hwf Hs Hk) as Ha.
  destruct (Alloc a size (2 ^ k)) as [a1 r]. destruct Ha as (Hbuf & Hn & Hr).
  cbn [length] in Hlen. rewrite Nat2Z.inj_succ in Hlen.
  assert (Hwf1 : wf a1) by (destruct Hwf; unfold wf; rewrite Hbuf; lia).
  specialize (IH a1 Hwf1 Hok ltac:(lia)).
  pose proof (regions_bounds reqs a1 Hwf1 Hok ltac:(lia)) as Hb.
  destruct (alloc_all a1 reqs) as [a2 rs]. cbn [snd regions] in *.
  destruct r as [off|[]|]; [|done|done]. constructor; [|done].
  rewrite Forall_forall in Hb. apply List.Forall_forall.
  intros p Hin. left. cbn. specialize (Hb p). rewrite list_elem_of_In in Hb. specialize (Hb Hin). lia.
Qed.

(** ** Properties *)

(** C31: However the callers interleave, the regions the allocator hands out are
    inside the slab, never cover the nil offset 0, and are pairwise disjoint:
    no two nodes overlap.  The counter may run past the end of a full arena;
    the bound excludes only its wrap-around at [2^64]. *)
Theorem alloc_regions_disjoint (a : Arena) (reqs : list (Z * Z)) :
  wf a -> Forall req_ok reqs -> n a + 2 ^ 33 * Z.of_nat (length reqs) < 2 ^ 63 ->
  let rs := regions reqs (alloc_all a reqs).2 in
  Forall (fun p => 1 <= p.1 /\ p.1 <= p.2 <= blen (buf a)) rs /\
  ForallOrdPairs disjoint_range rs.
Proof.
  intros Hwf Hok Hlen rs. split; [|by apply regions_disjoint].
  eapply Forall_impl; [by apply regions_bounds|]. cbn. destruct Hwf. intros p. lia.
Qed.

Lemma alloc_regions_disjoint_witness :
  wf (New (replicate 40 x00)) /\
  regions [(10, 4); (20, 4); (30, 8)] (alloc_all (New (replicate 40 x00)) [(10, 4); (20, 4); (30, 8)]).2
    = [(4, 14); (16, 36)] /\
  ForallOrdPairs disjoint_range
    (regions [(10, 4); (20, 4); (30, 8)]
       (alloc_all (New (replicate 40 x00)) [(10, 4); (20, 4); (30, 8)]).2).
Proof.
  pose proof (New_wf (replicate 40 x00)) as Hwf.
  split; [exact Hwf|]. split; [vm_compute; reflexivity|].
  apply alloc_regions_disjoint; [exact Hwf| |vm_compute; reflexivity].
  repeat constructor; cbn; try lia; [exists 2|exists 2|exists 3]; lia.
Defined.
