(* ===== verification/Skiplist.v ===== *)
(** Package [skiplist] ([pkg/lsm/skiplist]): the arena-backed skiplist, at the
    level of the bytes of the arena.  A node is the 96-byte struct the code
    casts arena memory to: four [uint32] fields and a tower of 20 forward
    offsets, then the key and value bytes.  Field accesses read and write the
    arena buffer (in little-endian order; any fixed order would do).

    [Add] is the whole insertion with its compare-and-swap and retry path; here
    it is run by one writer, with the random number as an argument; SkiplistSteps.v
    has the same code cut into steps for any number of threads.  A [None]
    of the definitions is a panic (nil dereference, out-of-range slice) or an
    exhausted loop; the theorems show neither happens. *)
From S2P Require Import Prelude Binary ByteOrder Arena.

(** ** Nodes ([node.go]) *)

Definition MaxHeight : Z := 20.
Definition maxNodeSize : Z := 96.

(** Byte offsets of the struct's fields. *)
Definition f_keyOffset : Z := 0.
Definition f_keySize : Z := 4.
Definition f_valueOffset : Z := 8.
Definition f_valueSize : Z := 12.
Definition f_tower (level : Z) : Z := 16 + 4 * level.

(** A [uint32] load from, and store to, the arena. *)
Definition load32 (a : Arena) (off : Z) : option Z :=
  b ← slice (Arena.buf a) off (off + 4); Some (le_value b).

Definition store32 (a : Arena) (off v : Z) : option Arena :=
  _ ← slice (Arena.buf a) off (off + 4);
  Some (mkArena (Arena.n a) (splice (Arena.buf a) off (put_le32 v))).

(** The cast of a non-nil arena offset to a node; [None] is a nil pointer. *)
Definition getNode (a : Arena) (offset : Z) : option Z :=
  if offset =? 0 then None else Pointer a offset.

Definition getKey (a : Arena) (nd : Z) : option bytes :=
  off ← load32 a (nd + f_keyOffset); size ← load32 a (nd + f_keySize); GetBytes a off size.

Definition getValue (a : Arena) (nd : Z) : option bytes :=
  off ← load32 a (nd + f_valueOffset); size ← load32 a (nd + f_valueSize); GetBytes a off size.

(** [n.tower[level]]: the index is checked against the array's length. *)
Definition getNext (a : Arena) (nd level : Z) : option Z :=
  if (0 <=? level) && (level <? MaxHeight) then load32 a (nd + f_tower level) else None.

Definition setNext (a : Arena) (nd level v : Z) : option Arena :=
  if (0 <=? level) && (level <? MaxHeight) then store32 a (nd + f_tower level) v else None.

(** [CompareAndSwap] on one tower word. *)
Definition casNext (a : Arena) (nd level old new : Z) : option (Arena * bool) :=
  cur ← getNext a nd level;
  if cur =? old then a' ← setNext a nd level new; Some (a', true) else Some (a, false).

(** The node's fields and the key and value bytes, written into fresh memory. *)
Definition fillNode (a : Arena) (offset : Z) (key value : bytes) : option Arena :=
  let keySize := u32 (blen key) in
  let valueSize := u32 (blen value) in
  nd ← Pointer a offset;
  a ← store32 a (nd + f_keyOffset) (u32 (offset + maxNodeSize));
  a ← store32 a (nd + f_keySize) keySize;
  a ← store32 a (nd + f_valueOffset) (u32 (offset + maxNodeSize + keySize));
  a ← store32 a (nd + f_valueSize) valueSize;
  a ← PutBytes a (u32 (offset + maxNodeSize)) key;
  PutBytes a (u32 (offset + maxNodeSize + keySize)) value.

Definition newNode (a : Arena) (key value : bytes) : Arena * result arena_error Z :=
  let keySize := u32 (blen key) in
  let valueSize := u32 (blen value) in
  let (a, r) := Alloc a (u32 (maxNodeSize + keySize + valueSize)) NodeAlignment in
  match r with
  | Ok offset =>
      match fillNode a offset key value with
      | Some a => (a, Ok offset)
      | None => (a, Panic)
      end
  | Err e => (a, Err e)
  | Panic => (a, Panic)
  end.

(** ** The list ([skiplist.go]) *)

Record Skiplist : Type := mkSkiplist { arena : Arena; head : Z; height : Z }.

Inductive add_error : Type := ErrRecordExists | ErrArena (e : arena_error).

(** [probabilities[i] = uint32(float64(MaxUint32) * 0.25^i)]: the product is
    exact in binary floating point, the conversion truncates. *)
Definition probabilities (i : Z) : Z := (2 ^ 32 - 1) / 4 ^ i.

Fixpoint randomHeight_loop (fuel : nat) (rnd h : Z) : Z :=
  match fuel with
  | O => h
  | S fuel =>
      if (h <? MaxHeight) && (rnd <=? probabilities h)
      then randomHeight_loop fuel rnd (h + 1) else h
  end.
Definition randomHeight (rnd : Z) : Z := randomHeight_loop 20 rnd 1.

(** [skiplist.New]: [None] is the panic on an arena too small for the head. *)
Definition New (a : Arena) : option Skiplist :=
  match newNode a [] [] with
  | (a, Ok headOffset) => Some (mkSkiplist a headOffset 1)
  | _ => None
  end.

(** [compareKeys] of package [skiplist]. *)
Definition compareKeys (a b : bytes) : Z :=
  let n := if blen b <? blen a then length b else length a in
  match compare_loop n a b with
  | Some r => r
  | None => if blen a <? blen b then -1 else if blen b <? blen a then 1 else 0
  end.

(** The inner loop of a search: advance along one level while the next key is
    smaller than [key]; the flag is [cmp == 0] at the stopping node. *)
Fixpoint walk (fuel : nat) (a : Arena) (key : bytes) (level prev next : Z)
  : option (Z * Z * bool) :=
  match fuel with
  | O => None
  | S fuel =>
      if next =? 0 then Some (prev, next, false)
      else
        nd ← getNode a next;
        nextKey ← getKey a nd;
        let cmp := compareKeys key nextKey in
        if cmp <=? 0 then Some (prev, next, cmp =? 0)
        else next' ← getNext a nd level; walk fuel a key level next next'
  end.

(** Enough iterations for any walk: nodes take at least one byte each. *)
Definition walk_fuel (a : Arena) : nat := S (Z.to_nat (Arena.n a)).

Abbreviation splices := (list (Z * Z)).

Definition no_splices : splices := replicate (Z.to_nat MaxHeight) (0, 0).

(** [findSplice]: from level [k-1] down to 0. *)
Fixpoint findSplice_loop (k : nat) (s : Skiplist) (key : bytes) (prevOffset : Z)
  (found : bool) (spl : splices) : option (splices * bool) :=
  match k with
  | O => Some (spl, found)
  | S k =>
      let level := Z.of_nat k in
      nd ← getNode (arena s) prevOffset;
      nextOffset ← getNext (arena s) nd level;
      '(prev, next, eq) ← walk (walk_fuel (arena s)) (arena s) key level prevOffset nextOffset;
      findSplice_loop k s key prev (found || eq) (<[k := (prev, next)]> spl)
  end.

Definition findSplice (s : Skiplist) (key : bytes) : option (splices * bool) :=
  findSplice_loop (Z.to_nat (height s)) s key (head s) false no_splices.

Definition findSpliceForLevel (s : Skiplist) (key : bytes) (level start : Z)
  : option (Z * Z * bool) :=
  nd ← getNode (arena s) start;
  next ← getNext (arena s) nd level;
  walk (walk_fuel (arena s)) (arena s) key level start next.

Fixpoint seekGE_loop (k : nat) (s : Skiplist) (target : bytes) (prevOffset nextOffset : Z)
  : option (Z * Z) :=
  match k with
  | O => Some (prevOffset, nextOffset)
  | S k =>
      let level := Z.of_nat k in
      nd ← getNode (arena s) prevOffset;
      nextOffset ← getNext (arena s) nd level;
      '(prev, next, _) ← walk (walk_fuel (arena s)) (arena s) target level prevOffset nextOffset;
      seekGE_loop k s target prev next
  end.

Definition seekGE (s : Skiplist) (target : bytes) : option (Z * Z * bool) :=
  '(prevOffset, nextOffset) ← seekGE_loop (Z.to_nat (height s)) s target (head s) 0;
  if nextOffset =? 0 then Some (prevOffset, 0, false)
  else
    nd ← getNode (arena s) nextOffset;
    k ← getKey (arena s) nd;
    Some (prevOffset, nextOffset, compareKeys target k =? 0).

Definition Get (s : Skiplist) (key : bytes) : option (option bytes) :=
  '(_, nd, matched) ← seekGE s key;
  if (nd =? 0) || negb matched then Some None
  else n ← getNode (arena s) nd; v ← getValue (arena s) n; Some (Some v).

(** Linking the node at one level, with the retry after a failed CAS. *)
Fixpoint link_level (fuel : nat) (s : Skiplist) (key : bytes) (ndOffset i : Z) (sp : Z * Z)
  : option (Skiplist * result add_error unit) :=
  match fuel with
  | O => None
  | S fuel =>
      let '(prevOffset, nextOffset) := if sp.1 =? 0 then (head s, 0) else sp in
      nd ← getNode (arena s) ndOffset;
      a ← setNext (arena s) nd i nextOffset;
      prev ← getNode a prevOffset;
      '(a, swapped) ← casNext a prev i nextOffset ndOffset;
      let s := mkSkiplist a (head s) (height s) in
      if (swapped : bool) then Some (s, Ok tt)
      else
        '(prevOffset, nextOffset, found) ← findSpliceForLevel s key i prevOffset;
        if (found : bool) then
          if negb (i =? 0) then Some (s, Panic) else Some (s, Err ErrRecordExists)
        else link_level fuel s key ndOffset i (prevOffset, nextOffset)
  end.

(** The loop over the levels [i, i+1, ..., height-1], [k] of them left. *)
Fixpoint link_levels (k : nat) (s : Skiplist) (key : bytes) (ndOffset i : Z) (spl : splices)
  : option (Skiplist * result add_error unit) :=
  match k with
  | O => Some (s, Ok tt)
  | S k =>
      sp ← index spl i;
      '(s, r) ← link_level (walk_fuel (arena s)) s key ndOffset i sp;
      match r with
      | Ok _ => link_levels k s key ndOffset (i + 1) spl
      | _ => Some (s, r)
      end
  end.

Definition Add (s : Skiplist) (rnd : Z) (key value : bytes)
  : option (Skiplist * result add_error unit) :=
  '(spl, found) ← findSplice s key;
  if (found : bool) then Some (s, Err ErrRecordExists)
  else
    let h := randomHeight rnd in
    match newNode (arena s) key value with
    | (a, Ok ndOffset) =>
        let s := mkSkiplist a (head s) (if height s <? h then h else height s) in
        link_levels (Z.to_nat h) s key ndOffset 0 spl
    | (a, Err e) => Some (mkSkiplist a (head s) (height s), Err (ErrArena e))
    | (a, Panic) => Some (mkSkiplist a (head s) (height s), Panic)
    end.

(** ** Iteration ([iterator.go]): the position is a node offset, 0 = invalid *)

Definition Valid (nd : Z) : bool := negb (nd =? 0).

Definition SeekGE (s : Skiplist) (target : bytes) : option Z :=
  '(_, nd, _) ← seekGE s target; Some nd.

Definition First (s : Skiplist) : option Z :=
  h ← getNode (arena s) (head s); getNext (arena s) h 0.

Definition Next (s : Skiplist) (nd : Z) : option Z :=
  if nd =? 0 then Some 0 else n ← getNode (arena s) nd; getNext (arena s) n 0.

Definition Key (s : Skiplist) (nd : Z) : option bytes :=
  n ← getNode (arena s) nd; getKey (arena s) n.

Definition Value (s : Skiplist) (nd : Z) : option bytes :=
  n ← getNode (arena s) nd; getValue (arena s) n.

(** A full iteration: [for it.First(); it.Valid(); it.Next()]. *)
Fixpoint collect (fuel : nat) (s : Skiplist) (nd : Z) : option (list (bytes * bytes)) :=
  match fuel with
  | O => None
  | S fuel =>
      if Valid nd then
        k ← Key s nd; v ← Value s nd; nd' ← Next s nd;
        rest ← collect fuel s nd'; Some ((k, v) :: rest)
      else Some []
  end.

Definition entries (s : Skiplist) : option (list (bytes * bytes)) :=
  nd ← First s; collect (walk_fuel (arena s)) s nd.
