(* ===== verification/SkiplistMem.v ===== *)
(** The skiplist's view of the arena as memory: what loads, stores, node
    construction and tower updates do, and what they leave alone.  The frame
    conditions are stated with [Arena.agree] on byte ranges. *)
From S2P Require Import Prelude Binary ByteOrder Arena Skiplist.

Abbreviation abuf := Arena.buf.

(** A buffer position range inside the arena. *)
Definition in_buf (a : Arena) (lo hi : Z) : Prop := 0 <= lo <= hi /\ hi <= blen (abuf a).

Lemma load32_agree a a' off :
  agree (abuf a) (abuf a') off (off + 4) -> load32 a off = load32 a' off.
Proof. intros H. unfold load32. by rewrite (slice_agree _ _ _ _ H). Qed.

Lemma load32_bounds a off v : load32 a off = Some v -> 0 <= v < 2 ^ 32.
Proof.
  unfold load32. intros H. apply bind_Some in H as (b & Hb & [= <-]).
  apply slice_length in Hb. pose proof (le_value_bounds b) as Hl.
  rewrite Hb in Hl. replace (off + 4 - off) with 4 in Hl by lia. done.
Qed.

Lemma store32_spec a off v :
  in_buf a off (off + 4) -> 0 <= v < 2 ^ 32 ->
  exists a', store32 a off v = Some a' /\ Arena.n a' = Arena.n a /\
    blen (abuf a') = blen (abuf a) /\ load32 a' off = Some v /\
    forall lo hi, hi <= off \/ off + 4 <= lo -> agree (abuf a) (abuf a') lo hi.
Proof.
  intros [H1 H2] Hv. unfold store32.
  destruct (slice (abuf a) off (off + 4)) as [c|] eqn:E.
  2: { exfalso. rewrite (proj2 (slice_Some (abuf a) _ off (off + 4))
         (conj H1 (conj H2 eq_refl))) in E. done. }
  cbn [mbind option_bind]. eexists. split; [done|]. cbn [Arena.n Arena.buf].
  pose proof (blen_put_le32 v) as Hl.
  split; [done|]. split; [apply blen_splice; lia|]. split.
  - unfold load32. cbn [Arena.buf]. replace (off + 4) with (off + blen (put_le32 v)) by lia.
    rewrite slice_splice by lia. cbn [mbind option_bind]. f_equal. unfold put_le32.
    rewrite le_value_le_bytes. by apply Z.mod_small.
  - intros lo hi H. apply agree_splice; lia.
Qed.

Lemma PutBytes_spec a off src :
  in_buf a off (off + blen src) -> off + blen src < 2 ^ 32 ->
  exists a', PutBytes a off src = Some a' /\ Arena.n a' = Arena.n a /\
    blen (abuf a') = blen (abuf a) /\ slice (abuf a') off (off + blen src) = Some src /\
    forall lo hi, hi <= off \/ off + blen src <= lo -> agree (abuf a) (abuf a') lo hi.
Proof.
  intros [H1 H2] Hsz. unfold PutBytes. pose proof (blen_nonneg src).
  rewrite (u32_small (blen src)), u32_small by lia.
  destruct (slice (abuf a) off (off + blen src)) as [c|] eqn:E.
  2: { exfalso. rewrite (proj2 (slice_Some (abuf a) _ off (off + blen src))
         (conj H1 (conj H2 eq_refl))) in E. done. }
  apply slice_length in E. unfold blen in E at 1.
  rewrite (firstn_all2 src) by (unfold blen in *; lia).
  eexists. split; [done|]. cbn. split; [done|]. split; [apply blen_splice; lia|].
  split; [apply slice_splice; lia|]. intros lo hi Hout. apply agree_splice; lia.
Qed.

Lemma GetBytes_nonzero a off size :
  0 < off -> 0 <= size -> off + size < 2 ^ 32 ->
  GetBytes a off size = slice (abuf a) off (off + size).
Proof.
  intros. unfold GetBytes. rewrite (proj2 (Z.eqb_neq _ _)), u32_small by lia. done.
Qed.

(** ** Nodes *)

(** The node at [off] holds [key] and [value]; its bytes end at [hi]. *)
Record node_at (a : Arena) (off : Z) (key value : bytes) : Prop := {
  na_ko : load32 a (off + f_keyOffset) = Some (off + maxNodeSize);
  na_ks : load32 a (off + f_keySize) = Some (blen key);
  na_vo : load32 a (off + f_valueOffset) = Some (off + maxNodeSize + blen key);
  na_vs : load32 a (off + f_valueSize) = Some (blen value);
  na_key : slice (abuf a) (off + maxNodeSize) (off + maxNodeSize + blen key) = Some key;
  na_value : slice (abuf a) (off + maxNodeSize + blen key)
               (off + maxNodeSize + blen key + blen value) = Some value;
  na_pos : 0 < off;
  na_end : off + maxNodeSize + blen key + blen value <= blen (abuf a);
  na_u32 : blen (abuf a) < 2 ^ 32
}.

Definition node_end (off : Z) (key value : bytes) : Z :=
  off + maxNodeSize + blen key + blen value.

Lemma getNode_ok a off : 0 < off -> off < blen (abuf a) -> getNode a off = Some off.
Proof.
  intros H1 H2. unfold getNode, Pointer.
  by rewrite (proj2 (Z.eqb_neq _ _)), (proj2 (Z.leb_le _ _)), (proj2 (Z.ltb_lt _ _)) by lia.
Qed.

Lemma node_at_getNode a off k v : node_at a off k v -> getNode a off = Some off.
Proof.
  intros []. apply getNode_ok; [done|]. unfold maxNodeSize in *.
  pose proof (blen_nonneg k). pose proof (blen_nonneg v). lia.
Qed.

Lemma node_at_getKey a off k v : node_at a off k v -> getKey a off = Some k.
Proof.
  intros []. unfold getKey. rewrite na_ko0. cbn [mbind option_bind]. rewrite na_ks0.
  cbn [mbind option_bind]. unfold maxNodeSize in *.
  pose proof (blen_nonneg k). pose proof (blen_nonneg v).
  by rewrite GetBytes_nonzero by lia.
Qed.

Lemma node_at_getValue a off k v : node_at a off k v -> getValue a off = Some v.
Proof.
  intros []. unfold getValue. rewrite na_vo0. cbn [mbind option_bind]. rewrite na_vs0.
  cbn [mbind option_bind]. unfold maxNodeSize in *.
  pose proof (blen_nonneg k). pose proof (blen_nonneg v).
  by rewrite GetBytes_nonzero by lia.
Qed.

(** A node survives any change outside its fields, key and value: in
    particular any change of its own tower. *)
Lemma node_at_agree a a' off k v :
  node_at a off k v ->
  agree (abuf a) (abuf a') off (off + 16) ->
  agree (abuf a) (abuf a') (off + maxNodeSize) (node_end off k v) ->
  node_at a' off k v.
Proof.
  intros [] Hf Hd. unfold node_end, maxNodeSize, f_keyOffset, f_keySize, f_valueOffset,
    f_valueSize in *.
  pose proof (blen_nonneg k). pose proof (blen_nonneg v).
  assert (Hlen : blen (abuf a) = blen (abuf a')) by apply Hf.
  split; unfold f_keyOffset, f_keySize, f_valueOffset, f_valueSize, maxNodeSize;
    try lia;
    try (rewrite <- (load32_agree a a'); [done|eapply agree_sub; [exact Hf|lia|lia]]);
    rewrite <- (slice_agree (abuf a) (abuf a')); try done;
    (eapply agree_sub; [exact Hd|lia|lia]).
Qed.

Lemma tower_range level : 0 <= level < MaxHeight -> 16 <= f_tower level /\ f_tower level + 4 <= maxNodeSize.
Proof. unfold f_tower, MaxHeight, maxNodeSize. lia. Qed.

Lemma level_test level : 0 <= level < MaxHeight -> (0 <=? level) && (level <? MaxHeight) = true.
Proof. intros. by rewrite (proj2 (Z.leb_le _ _)), (proj2 (Z.ltb_lt _ _)) by lia. Qed.

Lemma getNext_agree a a' nd level :
  agree (abuf a) (abuf a') (nd + f_tower level) (nd + f_tower level + 4) ->
  getNext a nd level = getNext a' nd level.
Proof. intros. unfold getNext. case_match; [|done]. by apply load32_agree. Qed.

Lemma setNext_spec a nd level v :
  0 <= level < MaxHeight -> in_buf a nd (nd + maxNodeSize) -> 0 <= v < 2 ^ 32 ->
  exists a', setNext a nd level v = Some a' /\ Arena.n a' = Arena.n a /\
    blen (abuf a') = blen (abuf a) /\ getNext a' nd level = Some v /\
    forall lo hi, hi <= nd + f_tower level \/ nd + f_tower level + 4 <= lo ->
      agree (abuf a) (abuf a') lo hi.
Proof.
  intros Hl [H1 H2] Hv. unfold setNext, getNext. rewrite level_test by done.
  pose proof (tower_range level Hl). apply store32_spec; [|done]. split; lia.
Qed.

Lemma casNext_spec a nd level old new :
  0 <= level < MaxHeight -> in_buf a nd (nd + maxNodeSize) -> 0 <= new < 2 ^ 32 ->
  getNext a nd level = Some old ->
  exists a', casNext a nd level old new = Some (a', true) /\ Arena.n a' = Arena.n a /\
    blen (abuf a') = blen (abuf a) /\ getNext a' nd level = Some new /\
    forall lo hi, hi <= nd + f_tower level \/ nd + f_tower level + 4 <= lo ->
      agree (abuf a) (abuf a') lo hi.
Proof.
  intros Hl Hb Hv Hold. unfold casNext. rewrite Hold. cbn [mbind option_bind].
  rewrite Z.eqb_refl. destruct (setNext_spec a nd level new Hl Hb Hv) as (a' & -> & ?).
  cbn. eauto.
Qed.

(** ** Building a node *)

(** Everything outside [lo, hi) is the same in both arenas. *)
Definition frame (a a' : Arena) (lo hi : Z) : Prop :=
  Arena.n a' = Arena.n a /\ blen (abuf a') = blen (abuf a) /\
  forall x y, y <= lo \/ hi <= x -> agree (abuf a) (abuf a') x y.

Lemma frame_trans a b c lo hi : frame a b lo hi -> frame b c lo hi -> frame a c lo hi.
Proof.
  intros (H1 & H2 & H3) (H4 & H5 & H6). split; [congruence|]. split; [congruence|].
  intros. eapply agree_trans; eauto.
Qed.

Lemma frame_weaken a b lo hi lo' hi' : frame a b lo hi -> lo' <= lo -> hi <= hi' -> frame a b lo' hi'.
Proof. intros (H1 & H2 & H3) ??. split; [done|]. split; [done|]. intros. apply H3. lia. Qed.

Lemma frame_load32 a a' lo hi off :
  frame a a' lo hi -> off + 4 <= lo \/ hi <= off -> load32 a' off = load32 a off.
Proof. intros (_ & _ & H) Ho. symmetry. apply load32_agree, H. lia. Qed.

Lemma frame_slice a a' lo hi x y :
  frame a a' lo hi -> y <= lo \/ hi <= x -> slice (abuf a') x y = slice (abuf a) x y.
Proof. intros (_ & _ & H) Ho. symmetry. apply slice_agree, H. lia. Qed.

Lemma frame_in_buf a a' lo hi x y : frame a a' lo hi -> in_buf a x y -> in_buf a' x y.
Proof. intros (_ & H & _) [H1 H2]. split; [done|]. lia. Qed.

Lemma store32_frame a off v :
  in_buf a off (off + 4) -> 0 <= v < 2 ^ 32 ->
  exists a', store32 a off v = Some a' /\ frame a a' off (off + 4) /\ load32 a' off = Some v.
Proof.
  intros Hb Hv. destruct (store32_spec a off v Hb Hv) as (a' & ? & ? & ? & ? & ?).
  exists a'. split; [done|]. split; [split; [done|split; done]|done].
Qed.

Lemma PutBytes_frame a off src :
  in_buf a off (off + blen src) -> off + blen src < 2 ^ 32 ->
  exists a', PutBytes a off src = Some a' /\ frame a a' off (off + blen src) /\
    slice (abuf a') off (off + blen src) = Some src.
Proof.
  intros Hb Hv. destruct (PutBytes_spec a off src Hb Hv) as (a' & ? & ? & ? & ? & ?).
  exists a'. split; [done|]. split; [split; [done|split; done]|done].
Qed.

(** [fillNode] makes a node, and touches only the node's own bytes, sparing its
    tower. *)
(** The four fields at the head of a node. *)
Lemma store_fields a off x0 x1 x2 x3 :
  in_buf a off (off + 16) -> 0 <= x0 < 2 ^ 32 -> 0 <= x1 < 2 ^ 32 -> 0 <= x2 < 2 ^ 32 -> 0 <= x3 < 2 ^ 32 ->
  exists a1 a2 a3 a4, store32 a (off + 0) x0 = Some a1 /\ store32 a1 (off + 4) x1 = Some a2 /\
    store32 a2 (off + 8) x2 = Some a3 /\ store32 a3 (off + 12) x3 = Some a4 /\ frame a a4 off (off + 16) /\
    load32 a4 (off + 0) = Some x0 /\ load32 a4 (off + 4) = Some x1 /\
    load32 a4 (off + 8) = Some x2 /\ load32 a4 (off + 12) = Some x3.
Proof.
  intros Hb H0 H1 H2 H3.
  assert (Hib : forall a' i, frame a a' off (off + 16) -> 0 <= i <= 12 -> in_buf a' (off + i) (off + i + 4))
    by (intros a' i F Hi; apply (frame_in_buf _ _ _ _ _ _ F); unfold in_buf in *; lia).
  assert (Hgrow : forall b c i, frame a b off (off + 16) -> frame b c (off + i) (off + i + 4) -> 0 <= i <= 12 -> frame a c off (off + 16))
    by (intros b c i F G Hi; eapply frame_trans; [exact F|eapply frame_weaken; [exact G|lia|lia]]).
  destruct (store32_frame a (off + 0) x0) as (a1 & E1 & F1 & L1); [unfold in_buf in *; lia|done|].
  assert (G1 : frame a a1 off (off + 16)) by (eapply frame_weaken; [exact F1|lia|lia]).
  destruct (store32_frame a1 (off + 4) x1) as (a2 & E2 & F2 & L2); [apply Hib; [done|lia]|done|].
  assert (G2 : frame a a2 off (off + 16)) by (eapply Hgrow; [exact G1|exact F2|lia]).
  destruct (store32_frame a2 (off + 8) x2) as (a3 & E3 & F3 & L3); [apply Hib; [done|lia]|done|].
  assert (G3 : frame a a3 off (off + 16)) by (eapply Hgrow; [exact G2|exact F3|lia]).
  destruct (store32_frame a3 (off + 12) x3) as (a4 & E4 & F4 & L4); [apply Hib; [done|lia]|done|].
  exists a1, a2, a3, a4. do 4 (split; [done|]). split; [eapply Hgrow; [exact G3|exact F4|lia]|].
  rewrite !(frame_load32 _ _ _ _ _ F4) by lia. rewrite !(frame_load32 _ _ _ _ _ F3) by lia.
  by rewrite (frame_load32 _ _ _ _ _ F2) by lia.
Qed.

Lemma fillNode_spec a off k v :
  0 < off -> node_end off k v <= blen (abuf a) -> blen (abuf a) < 2 ^ 32 ->
  exists a', fillNode a off k v = Some a' /\ node_at a' off k v /\
    frame a a' off (node_end off k v) /\
    agree (abuf a) (abuf a') (off + 16) (off + maxNodeSize).
Proof.
  intros Hoff Hend Hsz. unfold node_end, maxNodeSize in *.
  pose proof (blen_nonneg k) as Hk. pose proof (blen_nonneg v) as Hv.
  assert (Hib : forall x y, off <= x -> x <= y -> y <= off + 96 + blen k + blen v -> in_buf a x y)
    by (unfold in_buf; lia).
  unfold fillNode, Pointer, maxNodeSize, f_keyOffset, f_keySize, f_valueOffset, f_valueSize.
  rewrite (u32_small (blen k)), (u32_small (blen v)), !u32_small by lia.
  rewrite (proj2 (Z.leb_le 0 off)), (proj2 (Z.ltb_lt off _)) by lia.
  cbn [andb mbind option_bind].
  destruct (store_fields a off (off + 96) (blen k) (off + 96 + blen k) (blen v)) as
    (a1 & a2 & a3 & a4 & -> & E2 & E3 & E4 & F14 & L1 & L2 & L3 & L4); [apply Hib; lia|lia..|].
  cbn [mbind option_bind]. rewrite E2. cbn [mbind option_bind]. rewrite E3. cbn [mbind option_bind].
  rewrite E4. cbn [mbind option_bind].
  destruct (PutBytes_frame a4 (off + 96) k) as (a5 & -> & F5 & L5);
    [apply (frame_in_buf _ _ _ _ _ _ F14), Hib; lia|lia|].
  cbn [mbind option_bind].
  destruct (PutBytes_frame a5 (off + 96 + blen k) v) as (a6 & -> & F6 & L6);
    [apply (frame_in_buf _ _ _ _ _ _ F5), (frame_in_buf _ _ _ _ _ _ F14), Hib; lia|lia|].
  exists a6. split; [done|].
  assert (F16 : frame a a6 off (off + 96 + blen k + blen v)).
  { eapply frame_trans; [eapply frame_weaken; [exact F14|lia..]|].
    eapply frame_trans; eapply frame_weaken; [exact F5|lia|lia|exact F6|lia|lia]. }
  split; [|split; [done|]].
  2: { destruct F14 as (_ & _ & G1), F5 as (_ & _ & G2), F6 as (_ & _ & G3).
       eapply agree_trans; [apply G1; lia|]. eapply agree_trans; [apply G2; lia|]. apply G3. lia. }
  assert (Hlen : blen (abuf a6) = blen (abuf a)) by apply F16.
  split; unfold maxNodeSize, f_keyOffset, f_keySize, f_valueOffset, f_valueSize; try lia; try done;
    rewrite ?(frame_load32 _ _ _ _ _ F6), ?(frame_load32 _ _ _ _ _ F5) by lia; try done.
  by rewrite (frame_slice _ _ _ _ _ _ F6) by lia.
Qed.

Lemma newNode_spec a k v :
  Arena.wf a -> Arena.n a + 2 ^ 33 < 2 ^ 63 -> maxNodeSize + blen k + blen v < 2 ^ 32 ->
  let (a', r) := newNode a k v in
  Arena.wf a' /\
  Arena.n a + maxNodeSize <= Arena.n a' <= Arena.n a + maxNodeSize + blen k + blen v + 3 /\
  blen (abuf a') = blen (abuf a) /\
  match r with
  | Ok off =>
      Arena.n a <= off /\ node_end off k v <= Arena.n a' /\ node_at a' off k v /\
      (forall lo hi, hi <= Arena.n a -> agree (abuf a) (abuf a') lo hi) /\
      Arena.n a' <= blen (abuf a') /\
      agree (abuf a) (abuf a') (off + 16) (off + maxNodeSize)
  | Err ErrFull => abuf a' = abuf a /\ blen (abuf a) < Arena.n a'
  | Panic => False
  end.
Proof.
  intros Hwf Hn Hsz. unfold newNode, maxNodeSize in *.
  pose proof (blen_nonneg k) as Hk. pose proof (blen_nonneg v) as Hv.
  rewrite (u32_small (blen k)), (u32_small (blen v)), u32_small by lia.
  pose proof (Alloc_spec a (96 + blen k + blen v) 2 Hwf ltac:(lia) ltac:(lia)) as HA.
  change NodeAlignment with (2 ^ 2).
  destruct (Alloc a (96 + blen k + blen v) (2 ^ 2)) as [a1 r].
  destruct HA as (Hb & Hn1 & Hr). destruct Hwf as [Hw1 Hw2].
  assert (Hwf1 : Arena.wf a1) by (unfold Arena.wf; rewrite Hb; lia).
  change (2 ^ 2) with 4 in *.
  destruct r as [off|[]|]; [|split; [done|]; split; [lia|]; split; [by rewrite Hb|by split]|done].
  destruct Hr as (Ho1 & Ho2 & _).
  assert (0 < off) by lia. unfold maxSize in Hw2.
  destruct (fillNode_spec a1 off k v) as (a2 & -> & Hnode & Hf & Htow);
    [done|unfold node_end, maxNodeSize; rewrite Hb; lia|rewrite Hb; lia|].
  destruct Hf as (Hfn & Hfl & Hfa).
  unfold node_end, maxNodeSize in *.
  split; [unfold Arena.wf; rewrite Hfn, Hfl; done|].
  split; [lia|]. split; [rewrite Hfl; by rewrite Hb|].
  split; [lia|]. split; [lia|]. split; [done|]. split.
  - intros lo hi Hhi. rewrite <- Hb. apply Hfa. lia.
  - rewrite Hfn, Hfl, Hb. split; [lia|]. by rewrite <- Hb.
Qed.
