(* ===== verification/SkiplistSpec.v ===== *)
(** Correctness of the skiplist: the representation invariant that ties the
    arena's bytes to a key-sorted list of entries, its preservation by [New]
    and [Add], and the results of searching, iterating and inserting. *)
From stdpp Require Import sorting.
From S2P Require Import Prelude Binary ByteOrder Sorted Arena Skiplist SkiplistMem.

#[local] Open Scope Z_scope.

(** ** The abstract state: entries in key order *)

Record entry : Type := mkEntry { e_off : Z; e_key : bytes; e_val : bytes; e_h : Z }.

Definition e_range (e : entry) : Z * Z := (e_off e, node_end (e_off e) (e_key e) (e_val e)).

(** The entries linked at a level. *)
Definition at_level (l : Z) (es : list entry) : list entry := filter (fun e => l < e_h e) es.

(** The list of nodes reachable from [p] at level [l]. *)
Fixpoint chain (a : Arena) (l p : Z) (es : list entry) : Prop :=
  match es with
  | [] => getNext a p l = Some 0
  | e :: es => getNext a p l = Some (e_off e) /\ chain a l (e_off e) es
  end.

Fixpoint seg (a : Arena) (l p : Z) (es : list entry) : Prop :=
  match es with
  | [] => True
  | e :: es => getNext a p l = Some (e_off e) /\ seg a l (e_off e) es
  end.

Definition lastof (p : Z) (es : list entry) : Z := default p (e_off <$> last es).
Definition headof (es : list entry) : Z := default 0 (e_off <$> hd_error es).

Definition node_ok (a : Arena) (e : entry) : Prop :=
  node_at a (e_off e) (e_key e) (e_val e) /\ (e_range e).2 <= Arena.n a.

Definition head_entry (s : Skiplist) : entry := mkEntry (Skiplist.head s) [] [] MaxHeight.

Definition apart (e e' : entry) : Prop := disjoint_range (e_range e) (e_range e').

(** The memory part of the invariant: nodes in place, pairwise apart. *)
Record layout (a : Arena) (all : list entry) : Prop := {
  lay_nodes : Forall (node_ok a) all;
  lay_apart : ForallOrdPairs apart all
}.

Record rep (s : Skiplist) (es : list entry) : Prop := {
  rep_wf : Arena.wf (arena s);
  rep_layout : layout (arena s) (head_entry s :: es);
  rep_height : 1 <= height s <= MaxHeight;
  rep_heights : Forall (fun e => 1 <= e_h e <= height s) es;
  rep_sorted : StronglySorted blt (e_key <$> es);
  rep_chain : forall l, 0 <= l < MaxHeight -> chain (arena s) l (Skiplist.head s) (at_level l es);
  rep_count : Z.of_nat (length es) < Arena.n (arena s)
}.

(** The contents, as the pairs a user of the list sees. *)
Definition contents (es : list entry) : list (bytes * bytes) := (fun e => (e_key e, e_val e)) <$> es.

(** The entries below, and from, a key. *)
Definition below (k : bytes) (es : list entry) : list entry := filter (fun e => blt (e_key e) k) es.
Definition from (k : bytes) (es : list entry) : list entry := filter (fun e => ble k (e_key e)) es.

(** ** Lists of entries *)

Lemma sorted_split k es :
  StronglySorted blt (e_key <$> es) -> es = below k es ++ from k es.
Proof.
  unfold below, from. induction es as [|e es IH]; [done|]. intros Hs. rewrite fmap_cons in Hs.
  apply StronglySorted_inv in Hs as [Hs He]. specialize (IH Hs).
  rewrite !filter_cons. destruct (decide (blt (e_key e) k)) as [Hlt|Hge].
  - rewrite (decide_False (P := ble k (e_key e))) by (by apply (proj2 (not_ble _ _))).
    cbn. by rewrite <- IH.
  - apply not_blt in Hge. rewrite decide_True by done.
    assert (filter (fun e => blt (e_key e) k) es = []) as E.
    { rewrite Forall_fmap in He. clear IH Hs. induction He as [|e' es' He' _ IH]; [done|].
      rewrite filter_cons, decide_False; [done|]. apply (proj2 (not_blt _ _)). cbn in He'. eauto with iw. }
    rewrite E in IH |- *. cbn in *. congruence.
Qed.

Lemma at_level_app l a b : at_level l (a ++ b) = at_level l a ++ at_level l b.
Proof. apply filter_app. Qed.

Lemma at_level_empty l es : Forall (fun e => e_h e <= l) es -> at_level l es = [].
Proof.
  unfold at_level. induction 1 as [|e es He _ IH]; [done|].
  rewrite filter_cons, decide_False by lia. done.
Qed.

Lemma at_level_zero es : Forall (fun e => 1 <= e_h e) es -> at_level 0 es = es.
Proof.
  unfold at_level. induction 1 as [|e es He _ IH]; [done|].
  rewrite filter_cons, decide_True by lia. by rewrite IH.
Qed.

Lemma at_level_elem l es e : e ∈ at_level l es -> e ∈ es /\ l < e_h e.
Proof. unfold at_level. rewrite list_elem_of_filter. naive_solver. Qed.

Lemma lastof_app p a b : lastof p (a ++ b) = lastof (lastof p a) b.
Proof. unfold lastof. rewrite last_app. by destruct (last b), (last a). Qed.

Lemma lastof_cons p e es : lastof p (e :: es) = lastof (e_off e) es.
Proof. apply (lastof_app p [e] es). Qed.

(** The last node of the level above is the head or on this level too. *)
Lemma lastof_level p l es :
  exists A B, at_level l es = A ++ B /\
    lastof p (at_level (l + 1) es) = lastof p A.
Proof.
  induction es as [|e es IH] using rev_ind; [by exists [], []|].
  destruct IH as (A & B & E1 & E2). rewrite !at_level_app, E1.
  unfold at_level at 1 3. rewrite !filter_cons, !filter_nil.
  destruct (decide (l + 1 < e_h e)).
  - rewrite decide_True by lia. exists ((A ++ B) ++ [e]), []. rewrite app_nil_r.
    split; [done|]. by rewrite !lastof_app, !lastof_cons.
  - rewrite app_nil_r. exists A. destruct (decide (l < e_h e)).
    + exists (B ++ [e]). by rewrite app_assoc.
    + exists B. by rewrite app_nil_r.
Qed.

Lemma pairs_elem all x y :
  ForallOrdPairs apart all -> x ∈ all -> y ∈ all -> x = y \/ apart x y.
Proof.
  intros H Hx Hy. rewrite !list_elem_of_In in *.
  destruct (ForallOrdPairs_In H x y Hx Hy) as [?|[?|Hr]]; auto.
  right. unfold apart, disjoint_range in *. tauto.
Qed.

Lemma pairs_insert x l1 l2 :
  ForallOrdPairs apart (l1 ++ l2) -> Forall (apart x) (l1 ++ l2) ->
  ForallOrdPairs apart (l1 ++ x :: l2).
Proof.
  induction l1 as [|y l1 IH]; cbn; intros Hp Hx.
  - by constructor.
  - inversion Hp as [|? ? H1 H2]; subst. apply Forall_cons in Hx as [Hy Hx].
    constructor; [|by apply IH].
    apply List.Forall_forall. intros z Hz. rewrite <- list_elem_of_In in Hz.
    rewrite List.Forall_forall in H1.
    apply elem_of_app in Hz as [Hz|[->|Hz]%elem_of_cons].
    + apply H1. apply list_elem_of_In, elem_of_app. by left.
    + unfold apart, disjoint_range in *. tauto.
    + apply H1. apply list_elem_of_In, elem_of_app. by right.
Qed.

(** ** Chains *)

Lemma chain_app a l p A B : chain a l p (A ++ B) <-> seg a l p A /\ chain a l (lastof p A) B.
Proof.
  revert p. induction A as [|e A IH]; intros p; cbn [app seg chain].
  - unfold lastof. cbn. tauto.
  - rewrite IH, lastof_cons. tauto.
Qed.

Lemma chain_next a l p B : chain a l p B -> getNext a p l = Some (headof B).
Proof. by destruct B; cbn; [|intros [? _]]. Qed.

Lemma range_size e : (e_range e).1 = e_off e /\ (e_range e).1 + maxNodeSize <= (e_range e).2.
Proof. cbn. unfold node_end. pose proof (blen_nonneg (e_key e)). pose proof (blen_nonneg (e_val e)). lia. Qed.

Lemma apart_off e e' : apart e e' -> e_off e <> e_off e'.
Proof.
  unfold apart, disjoint_range. pose proof (range_size e). pose proof (range_size e').
  unfold maxNodeSize in *. lia.
Qed.

(** A write confined to one tower word of node [x]. *)
Definition tower_write (a a' : Arena) (x : entry) (l v : Z) : Prop :=
  Arena.n a' = Arena.n a /\ blen (abuf a') = blen (abuf a) /\ getNext a' (e_off x) l = Some v /\
  forall lo hi, hi <= e_off x + f_tower l \/ e_off x + f_tower l + 4 <= lo ->
    agree (abuf a) (abuf a') lo hi.

Lemma tower_write_other a a' x l v y m :
  tower_write a a' x l v -> 0 <= l < MaxHeight -> 0 <= m < MaxHeight ->
  (apart x y \/ (x = y /\ l <> m)) -> getNext a' (e_off y) m = getNext a (e_off y) m.
Proof.
  intros (_ & _ & _ & H) Hl Hm Hxy. symmetry. apply getNext_agree, H.
  pose proof (tower_range l Hl). pose proof (tower_range m Hm).
  pose proof (range_size x). pose proof (range_size y).
  destruct Hxy as [Ha|[-> Hne]].
  - unfold apart, disjoint_range in Ha. lia.
  - unfold f_tower. lia.
Qed.

Lemma tower_write_node a a' x l v y :
  tower_write a a' x l v -> 0 <= l < MaxHeight -> apart x y \/ x = y ->
  node_ok a y -> node_ok a' y.
Proof.
  intros (Hn & _ & _ & H) Hl Hxy [Hy He]. split; [|by rewrite Hn].
  pose proof (tower_range l Hl). pose proof (range_size x). pose proof (range_size y).
  unfold f_tower, maxNodeSize in *.
  eapply node_at_agree; [exact Hy|apply H|apply H]; unfold maxNodeSize;
    (destruct Hxy as [Ha| ->]; [unfold apart, disjoint_range in Ha; cbn in *; lia|lia]).
Qed.

Lemma tower_write_layout a a' x l v all :
  tower_write a a' x l v -> 0 <= l < MaxHeight -> x ∈ all -> layout a all -> layout a' all.
Proof.
  intros Hw Hl Hx [H1 H2]. split; [|done].
  rewrite Forall_forall in *. intros y Hy.
  eapply tower_write_node; eauto. destruct (pairs_elem _ _ _ H2 Hx Hy); auto.
Qed.

(** Chains of other levels, or of other nodes, are not affected. *)
Lemma tower_write_chain a a' x l v p m es :
  tower_write a a' x l v -> 0 <= l < MaxHeight -> 0 <= m < MaxHeight ->
  Forall (fun y => apart x y \/ (x = y /\ l <> m)) (p :: es) ->
  chain a m (e_off p) es -> chain a' m (e_off p) es.
Proof.
  intros Hw Hl Hm. revert p. induction es as [|e es IH]; intros p Hf Hc;
    apply Forall_cons in Hf as [Hp Hf]; cbn in *.
  - by rewrite (tower_write_other a a' x l v p m).
  - destruct Hc as [Hn Hc]. split; [|auto]. by rewrite (tower_write_other a a' x l v p m).
Qed.

(** A chain from [p] is its first link and the chain from there. *)
Definition tail_chain (a : Arena) (l : Z) (L : list entry) : Prop :=
  match L with [] => True | e :: L => chain a l (e_off e) L end.

Lemma chain_tail a l p L : chain a l p L <-> getNext a p l = Some (headof L) /\ tail_chain a l L.
Proof. destruct L; cbn; tauto. Qed.

Lemma tower_write_tail a a' x l v L :
  tower_write a a' x l v -> 0 <= l < MaxHeight -> Forall (apart x) L ->
  tail_chain a l L -> tail_chain a' l L.
Proof.
  intros Hw Hl HL. destruct L as [|e L]; [done|]. cbn.
  eapply tower_write_chain; [done..|]. eapply Forall_impl; [exact HL|]. auto.
Qed.

Lemma tower_write_seg a a' x l v p m es :
  tower_write a a' x l v -> 0 <= l < MaxHeight -> 0 <= m < MaxHeight ->
  Forall (fun y => apart x y \/ (x = y /\ l <> m)) (removelast (p :: es)) ->
  seg a m (e_off p) es -> seg a' m (e_off p) es.
Proof.
  intros Hw Hl Hm. revert p. induction es as [|e es IH]; intros p Hf Hc; [done|].
  cbn [seg] in *. destruct Hc as [Hn Hc].
  change (removelast (p :: e :: es)) with (p :: removelast (e :: es)) in Hf.
  apply Forall_cons in Hf as [Hp Hf]. split; [|auto].
  by rewrite (tower_write_other a a' x l v p m).
Qed.

(** ** Searching *)

Lemma compareKeys_sign a b : Skiplist.compareKeys a b = sign (lex a b).
Proof.
  unfold Skiplist.compareKeys. apply compare_loop_lex. unfold blen. case_match; bool_hyps; lia.
Qed.

Lemma compareKeys_le a b : (Skiplist.compareKeys a b <=? 0) = bool_decide (ble a b).
Proof.
  rewrite compareKeys_sign. destruct (lex a b) eqn:E; cbn; symmetry;
    rewrite ?bool_decide_eq_true, ?bool_decide_eq_false; unfold ble; rewrite E; naive_solver.
Qed.

Lemma compareKeys_eq0 a b : (Skiplist.compareKeys a b =? 0) = bool_decide (a = b).
Proof. rewrite compareKeys_sign. apply sign_eq. Qed.

Lemma layout_node a all e : layout a all -> e ∈ all -> node_ok a e.
Proof. intros [H _]. rewrite Forall_forall in H. apply H. Qed.

Lemma node_ok_off a e : node_ok a e -> e_off e <> 0 /\ getNode a (e_off e) = Some (e_off e).
Proof. intros [H _]. split; [destruct H; lia|by eapply node_at_getNode]. Qed.

(** Does the first entry at a level carry this very key? *)
Definition hit (t : bytes) (L : list entry) : bool :=
  match hd_error L with Some e => bool_decide (t = e_key e) | None => false end.

Lemma walk_spec fuel a all t l p L1 L2 :
  layout a all -> Forall (fun e => e ∈ all) (L1 ++ L2) ->
  Forall (fun e => blt (e_key e) t) L1 -> Forall (fun e => ble t (e_key e)) L2 ->
  chain a l p (L1 ++ L2) -> (length L1 < fuel)%nat ->
  walk fuel a t l p (headof (L1 ++ L2)) = Some (lastof p L1, headof L2, hit t L2).
Proof.
  intros Hlay. revert p fuel. induction L1 as [|e L1 IH]; intros p [|fuel] Hall H1 H2 Hc Hf;
    cbn in Hf; try lia.
  - destruct L2 as [|e L2]; [done|]. cbn [app] in *.
    apply Forall_cons in Hall as [He _]. apply Forall_cons in H2 as [H2 _].
    pose proof (layout_node _ _ _ Hlay He) as Hn. destruct (node_ok_off _ _ Hn) as [Hne Hg].
    cbn [walk headof hd_error fmap option_fmap option_map default from_option].
    unfold headof. cbn. rewrite (proj2 (Z.eqb_neq _ _)), Hg by done. cbn.
    rewrite (node_at_getKey _ _ _ _ (proj1 Hn)). cbn.
    rewrite compareKeys_le, compareKeys_eq0, (bool_decide_eq_true_2 (ble _ _)) by done. done.
  - cbn [app] in *. apply Forall_cons in Hall as [He Hall]. apply Forall_cons in H1 as [Hlt H1].
    destruct Hc as [_ Hc]. pose proof (layout_node _ _ _ Hlay He) as Hn.
    destruct (node_ok_off _ _ Hn) as [Hne Hg]. unfold headof at 1. cbn.
    rewrite (proj2 (Z.eqb_neq _ _)), Hg by done. cbn.
    rewrite (node_at_getKey _ _ _ _ (proj1 Hn)). cbn.
    rewrite compareKeys_le, (bool_decide_eq_false_2 (ble _ _)) by (by apply (proj2 (not_ble _ _))).
    rewrite (chain_next _ _ _ _ Hc). cbn. rewrite lastof_cons. apply IH; auto. lia.
Qed.

Lemma lastof_elem h L : exists e, e ∈ h :: L /\ lastof (e_off h) L = e_off e.
Proof.
  destruct L as [|e L _] using rev_ind; [by exists h; split; [left|]|].
  exists e. rewrite lastof_app, lastof_cons. split; [|done].
  right. apply elem_of_app. right. by left.
Qed.

Section search.
Context (s : Skiplist) (es : list entry) (Hrep : rep s es) (t : bytes).

Let es1 := below t es.
Let es2 := from t es.
Let pos (l : Z) : Z := lastof (Skiplist.head s) (at_level l es1).

Lemma search_split : es = es1 ++ es2.
  Proof. apply sorted_split, (rep_sorted _ _ Hrep). Qed.

Lemma pos_node l : exists e, e ∈ head_entry s :: es /\ pos l = e_off e.
  Proof.
    destruct (lastof_elem (head_entry s) (at_level l es1)) as (e & He & Heq).
    exists e. split; [|done]. apply elem_of_cons in He as [->|He]; [left|right].
    apply at_level_elem in He as [He _]. rewrite search_split. apply elem_of_app. by left.
  Qed.

  (** One level of a search, from the position found on the level above. *)
Lemma search_level l :
    0 <= l < MaxHeight ->
    exists next,
      getNode (arena s) (pos (l + 1)) = Some (pos (l + 1)) /\
      getNext (arena s) (pos (l + 1)) l = Some next /\
      walk (walk_fuel (arena s)) (arena s) t l (pos (l + 1)) next =
        Some (pos l, headof (at_level l es2), hit t (at_level l es2)).
  Proof.
    intros Hl. destruct (pos_node (l + 1)) as (e & He & Hpe).
    destruct (lastof_level (Skiplist.head s) l es1) as (A & B & HAB & Hlast).
    pose proof (rep_chain _ _ Hrep l Hl) as Hc.
    rewrite search_split, at_level_app, HAB, <- app_assoc, chain_app in Hc.
    destruct Hc as [_ Hc]. rewrite <- Hlast in Hc. fold (pos (l + 1)) in Hc.
    exists (headof (B ++ at_level l es2)). split; [|split].
    - rewrite Hpe. eapply node_ok_off, layout_node; [apply Hrep|done].
    - by apply chain_next.
    - assert (Hsub : forall x, x ∈ at_level l es1 -> x ∈ es1) by (intros x Hx; by apply at_level_elem in Hx as [? _]).
      assert (HB : forall x, x ∈ B -> x ∈ es1).
      { intros x Hx. apply Hsub. rewrite HAB. apply elem_of_app. by right. }
      rewrite (walk_spec _ _ (head_entry s :: es)); try done.
      + unfold pos at 2. rewrite HAB, lastof_app, <- Hlast. done.
      + apply Hrep.
      + apply Forall_forall. intros x Hx. right. rewrite search_split.
        apply elem_of_app in Hx as [Hx|Hx]; apply elem_of_app; [left; auto|right].
        by apply at_level_elem in Hx as [? _].
      + apply Forall_forall. intros x Hx. apply HB in Hx.
        unfold es1, below in Hx. by apply list_elem_of_filter in Hx as [? _].
      + apply Forall_forall. intros x [Hx _]%at_level_elem.
        unfold es2, from in Hx. by apply list_elem_of_filter in Hx as [? _].
      + unfold walk_fuel. pose proof (rep_count _ _ Hrep) as Hcount.
        rewrite search_split, length_app in Hcount.
        assert (length B <= length es1)%nat; [|lia].
        transitivity (length (at_level l es1)); [rewrite HAB, length_app; lia|].
        unfold at_level. apply length_filter.
  Qed.

Lemma pos_top : pos (height s) = Skiplist.head s.
  Proof.
    unfold pos. rewrite at_level_empty; [done|].
    pose proof (rep_heights _ _ Hrep) as Hh. rewrite search_split, Forall_app in Hh.
    eapply Forall_impl; [apply Hh|]. cbn. lia.
  Qed.

Lemma seekGE_loop_spec k nx :
    Z.of_nat k <= MaxHeight ->
    seekGE_loop k s t (pos (Z.of_nat k)) nx =
      Some (pos 0, match k with O => nx | _ => headof (at_level 0 es2) end).
  Proof.
    revert nx. induction k as [|k IH]; intros nx Hk; [done|].
    rewrite Nat2Z.inj_succ in *. cbn [seekGE_loop].
    destruct (search_level (Z.of_nat k)) as (next & H1 & H2 & H3); [lia|].
    unfold Z.succ. rewrite H1. cbn [mbind option_bind]. rewrite H2. cbn [mbind option_bind].
    rewrite H3. cbn [mbind option_bind]. rewrite IH by lia. f_equal. f_equal. by destruct k.
  Qed.

Lemma at_level_0 : at_level 0 es1 = es1 /\ at_level 0 es2 = es2.
  Proof.
    pose proof (rep_heights _ _ Hrep) as Hh. rewrite search_split, Forall_app in Hh.
    split; apply at_level_zero; (eapply Forall_impl; [apply Hh|]); cbn; lia.
  Qed.

  (** [seekGE] finds the first entry at or after the target. *)
Lemma seekGE_spec : seekGE s t = Some (lastof (Skiplist.head s) es1, headof es2, hit t es2).
  Proof.
    destruct at_level_0 as [E1 E2]. unfold seekGE.
    pose proof (rep_height _ _ Hrep). pose proof (seekGE_loop_spec (Z.to_nat (height s)) 0) as HL.
    rewrite Z2Nat.id, pos_top in HL by lia. rewrite HL by lia. cbn [mbind option_bind].
    unfold pos. rewrite E1, E2. destruct (Z.to_nat (height s)) eqn:E; [lia|].
    destruct es2 as [|e L] eqn:Ees; [done|].
    assert (He : e ∈ es) by (rewrite search_split, Ees; apply elem_of_app; right; by left).
    pose proof (layout_node _ _ e (rep_layout _ _ Hrep) ltac:(by right)) as Hn.
    destruct (node_ok_off _ _ Hn) as [Hne Hg]. unfold headof, hit. cbn.
    rewrite (proj2 (Z.eqb_neq _ _)), Hg by done. cbn.
    rewrite (node_at_getKey _ _ _ _ (proj1 Hn)). cbn. by rewrite compareKeys_eq0.
  Qed.

Lemma hit_elem : hit t es2 = true <-> exists e, e ∈ es /\ e_key e = t.
  Proof.
    assert (Hs : StronglySorted blt (e_key <$> es2)).
    { pose proof (rep_sorted _ _ Hrep) as Hs. rewrite search_split, fmap_app in Hs.
      by apply StronglySorted_app_1_r in Hs. }
    assert (Hin : forall e, e_key e = t -> e ∈ es <-> e ∈ es2).
    { intros e He. unfold es2, from. rewrite list_elem_of_filter, He.
      split; [intros; split; [apply ble_refl|done]|naive_solver]. }
    split.
    - unfold hit. destruct es2 as [|e L] eqn:E; [done|]. cbn. intros H%bool_decide_eq_true.
      exists e. split; [|done]. rewrite Hin by done. by left.
    - intros (e & He & Hk). rewrite Hin in He by done.
      assert (Hge : Forall (fun e => ble t (e_key e)) es2).
      { apply Forall_forall. intros x Hx. unfold es2, from in Hx.
        by apply list_elem_of_filter in Hx as [? _]. }
      unfold hit. destruct es2 as [|e0 L] eqn:E; [by apply elem_of_nil in He|]. cbn.
      apply bool_decide_eq_true. apply Forall_cons in Hge as [Hge _].
      apply elem_of_cons in He as [->|He]; [done|].
      rewrite fmap_cons in Hs. apply StronglySorted_inv in Hs as [_ Hs].
      rewrite Forall_forall in Hs. specialize (Hs (e_key e) ltac:(by apply list_elem_of_fmap_2)).
      rewrite Hk in Hs. apply ble_antisym; [done|]. by apply blt_ble.
  Qed.
End search.

(** ** Insertion *)

Section find_splice.
Context (s : Skiplist) (es : list entry) (Hrep : rep s es) (t : bytes).

  (** The splice a level ends up with. *)
Definition level_splice (i : Z) : Z * Z :=
    (lastof (Skiplist.head s) (at_level i (below t es)), headof (at_level i (from t es))).

Lemma hit_level l : hit t (at_level l (from t es)) = true -> hit t (from t es) = true.
  Proof.
    unfold hit at 1. destruct (at_level l (from t es)) as [|e L] eqn:E; [done|]. cbn.
    intros Hk%bool_decide_eq_true. apply (hit_elem s es Hrep t). exists e. split; [|done].
    assert (e ∈ at_level l (from t es)) as [He _]%at_level_elem by (rewrite E; by left).
    unfold from in He. by apply list_elem_of_filter in He as [_ ?].
  Qed.

Lemma findSplice_loop_spec k found spl :
    Z.of_nat k <= MaxHeight -> length spl = Z.to_nat MaxHeight ->
    exists spl',
      findSplice_loop k s t (lastof (Skiplist.head s) (at_level (Z.of_nat k) (below t es))) found spl
        = Some (spl', found || match k with O => false | _ => hit t (from t es) end) /\
      forall i : nat, spl' !! i = if decide (i < k)%nat then Some (level_splice (Z.of_nat i)) else spl !! i.
  Proof.
    revert found spl. induction k as [|k IH]; intros found spl Hk Hlen.
    { exists spl. rewrite orb_false_r. split; [done|]. intros i. by rewrite decide_False by lia. }
    rewrite Nat2Z.inj_succ in *. unfold Z.succ. cbn [findSplice_loop].
    destruct (search_level s es Hrep t (Z.of_nat k)) as (next & H1 & H2 & H3); [lia|].
    rewrite H1. cbn [mbind option_bind]. rewrite H2. cbn [mbind option_bind].
    rewrite H3. cbn [mbind option_bind].
    edestruct (IH (found || hit t (at_level (Z.of_nat k) (from t es)))
      (<[k:=level_splice (Z.of_nat k)]> spl)) as (spl' & Heq & Hl); [lia|by rewrite length_insert|].
    exists spl'. unfold level_splice in Heq. rewrite Heq. split.
    - f_equal. f_equal. rewrite <- orb_assoc. f_equal.
      destruct k; [rewrite orb_false_r; change (Z.of_nat 0) with 0|].
      + by destruct (at_level_0 s es Hrep t) as [_ ->].
      + destruct (hit t (at_level _ _)) eqn:E; [|done]. cbn. symmetry. by eapply hit_level.
    - intros i. rewrite Hl. destruct (decide (i < k)%nat); [by rewrite decide_True by lia|].
      destruct (decide (i = k)) as [->|].
      + rewrite decide_True, list_lookup_insert_eq by (rewrite ?Hlen; unfold MaxHeight in *; lia). done.
      + by rewrite list_lookup_insert_ne, decide_False by lia.
  Qed.

  (** [findSplice] fills the levels in use and reports an exact match. *)
Lemma findSplice_spec :
    exists spl, findSplice s t = Some (spl, hit t (from t es)) /\
      forall i, 0 <= i < MaxHeight ->
        exists sp, index spl i = Some sp /\
          (if sp.1 =? 0 then (Skiplist.head s, 0) else sp) = level_splice i.
  Proof.
    pose proof (rep_height _ _ Hrep) as Hh.
    destruct (findSplice_loop_spec (Z.to_nat (height s)) false no_splices) as (spl & Heq & Hl);
      [lia|done|].
    rewrite Z2Nat.id, (pos_top s es Hrep t) in Heq by lia.
    exists spl. unfold findSplice. rewrite Heq. split.
    { f_equal. f_equal. destruct (Z.to_nat (height s)) eqn:E; [lia|done]. }
    intros i Hi. unfold index. rewrite (proj2 (Z.leb_le _ _)), Hl by lia.
    destruct (decide (Z.to_nat i < Z.to_nat (height s))%nat).
    - rewrite Z2Nat.id by lia. eexists. split; [done|]. unfold level_splice at 1. cbn [fst].
      destruct (pos_node s es Hrep t i) as (e & He & ->).
      pose proof (layout_node _ _ _ (rep_layout _ _ Hrep) He) as Hn.
      apply node_ok_off in Hn as [Hne _]. by rewrite (proj2 (Z.eqb_neq _ _)).
    - unfold no_splices. rewrite lookup_replicate_2 by (unfold MaxHeight in *; lia).
      eexists. split; [done|]. cbn. unfold level_splice.
      pose proof (rep_heights _ _ Hrep) as Hhs.
      rewrite (search_split s es Hrep t), Forall_app in Hhs.
      rewrite !at_level_empty; [done| |]; (eapply Forall_impl; [apply Hhs|]); cbn; lia.
  Qed.
End find_splice.

Lemma at_level_sublist l es : at_level l es `sublist_of` es.
Proof.
  unfold at_level. induction es as [|e es IH]; [constructor|]. rewrite filter_cons.
  destruct (decide _); by constructor.
Qed.

Lemma pairs_sublist L all : L `sublist_of` all -> ForallOrdPairs apart all -> ForallOrdPairs apart L.
Proof.
  induction 1 as [|e L all Hs IH|e L all Hs IH]; inversion_clear 1 as [|? ? H1 H2]; [constructor| |auto].
  constructor; [|auto]. rewrite List.Forall_forall in *. intros z Hz. apply H1.
  rewrite <- list_elem_of_In in *. by eapply sublist_subseteq.
Qed.

Lemma pairs_app A B x y :
  ForallOrdPairs apart (A ++ B) -> x ∈ A -> y ∈ B -> apart x y.
Proof.
  induction A as [|e A IH]; cbn; intros Hp Hx Hy; [by apply elem_of_nil in Hx|].
  inversion Hp as [|? ? H1 H2]; subst. apply elem_of_cons in Hx as [->|Hx]; [|auto].
  rewrite List.Forall_forall in H1. apply H1. apply list_elem_of_In, elem_of_app. by right.
Qed.

Lemma apart_sym x y : apart x y -> apart y x.
Proof. unfold apart, disjoint_range. tauto. Qed.

(** The last node before the insertion point, with what comes before it. *)
Lemma last_split h L :
  exists init y, h :: L = init ++ [y] /\ removelast (h :: L) = init /\ lastof (e_off h) L = e_off y.
Proof.
  destruct L as [|e L _] using rev_ind; [by exists [], h|].
  exists (h :: L), e. rewrite app_comm_cons. split; [done|].
  rewrite removelast_last, lastof_app, lastof_cons. done.
Qed.

Section link.
Context (h x : entry) (es1 es2 : list entry).

  (** The state of the towers after [i] levels have been linked. *)
Record linked (i : Z) (a : Arena) : Prop := {
    lk_layout : layout a (h :: es1 ++ x :: es2);
    lk_done : forall l, 0 <= l < i -> chain a l (e_off h) (at_level l (es1 ++ x :: es2));
    lk_todo : forall l, i <= l < MaxHeight -> chain a l (e_off h) (at_level l (es1 ++ es2))
  }.

Lemma entry_in_buf a e : layout a (h :: es1 ++ x :: es2) -> e ∈ h :: es1 ++ x :: es2 ->
    in_buf a (e_off e) (e_off e + maxNodeSize) /\ 0 <= e_off e < 2 ^ 32.
  Proof.
    intros Hl He. destruct (layout_node _ _ _ Hl He) as [[] _].
    pose proof (blen_nonneg (e_key e)). pose proof (blen_nonneg (e_val e)).
    unfold in_buf, maxNodeSize in *. lia.
  Qed.

  (** A write at another level keeps a whole chain. *)
Lemma other_level a a' y i v l L :
    layout a (h :: es1 ++ x :: es2) -> tower_write a a' y i v -> y ∈ h :: es1 ++ x :: es2 ->
    0 <= i < MaxHeight -> 0 <= l < MaxHeight -> i <> l ->
    Forall (fun e => e ∈ h :: es1 ++ x :: es2) L ->
    chain a l (e_off h) L -> chain a' l (e_off h) L.
  Proof.
    intros [_ Hp] Hw Hy Hi Hl Hne HL. eapply tower_write_chain; [done..|].
    apply Forall_cons. split.
    - destruct (pairs_elem _ y h Hp Hy ltac:(by left)); auto.
    - eapply Forall_impl; [exact HL|]. cbn. intros e He.
      destruct (pairs_elem _ y e Hp Hy He); auto.
  Qed.

Lemma at_level_sub l L e : e ∈ at_level l L -> e ∈ L.
  Proof. by intros [? _]%at_level_elem. Qed.

  (** [x] is apart from every other linked node. *)
Lemma pairs_at_x i e :
    ForallOrdPairs apart (h :: es1 ++ x :: es2) ->
    e = h \/ e ∈ at_level i es1 \/ e ∈ at_level i es2 -> apart x e.
  Proof.
    intros Hp He.
    assert (e ∈ h :: es1 \/ e ∈ es2) as [H|H].
    { destruct He as [->|[He%at_level_sub|He%at_level_sub]]; set_solver. }
    - apply apart_sym, (pairs_app (h :: es1) (x :: es2)); [done|done|by left].
    - apply (pairs_app ((h :: es1) ++ [x]) es2); [by rewrite <- app_assoc|set_solver|done].
  Qed.

  (** The compare-and-swap of [y]'s link puts [x] behind it, once [x] points
      to what follows. *)
Lemma link_chain_cas i a a2 y init L1 L2 :
    0 <= i < MaxHeight ->
    h :: L1 = init ++ [y] -> apart y x -> Forall (apart y) (init ++ L2) ->
    getNext a (e_off x) i = Some (headof L2) -> tower_write a a2 y i (e_off x) ->
    chain a i (e_off h) (L1 ++ L2) -> chain a2 i (e_off h) (L1 ++ x :: L2).
  Proof.
    intros Hi Hinit Hyx Hy Hx W Hc. apply chain_app in Hc as [Hseg Hc]. apply chain_app.
    destruct (last_split h L1) as (init' & y' & Hinit' & Hrm & Hlast).
    rewrite Hinit in Hinit'. apply app_inj_tail in Hinit' as [<- <-]. rewrite Hlast in *.
    apply Forall_app in Hy as [Hy1 Hy2]. split.
    - eapply (tower_write_seg a a2 y); [exact W|done|done| |done].
      rewrite Hrm. eapply Forall_impl; [exact Hy1|]. auto.
    - split; [apply W|]. apply chain_tail. split.
      + rewrite (tower_write_other a a2 y i (e_off x) x i); [done..|]. by left.
      + apply (tower_write_tail a a2 y i (e_off x)); [done..|]. by apply chain_tail in Hc as [_ ?].
  Qed.

  (** The two writes that link [x] at level [i] between [y] and [L2]. *)
Lemma link_chain i a a1 a2 y init L1 L2 :
    0 <= i < MaxHeight ->
    h :: L1 = init ++ [y] -> Forall (apart x) (h :: L1 ++ L2) -> Forall (apart y) (init ++ L2) ->
    tower_write a a1 x i (headof L2) -> tower_write a1 a2 y i (e_off x) ->
    chain a i (e_off h) (L1 ++ L2) -> chain a2 i (e_off h) (L1 ++ x :: L2).
  Proof.
    intros Hi Hinit Hx Hy W1 W2 Hc. eapply link_chain_cas; [done..| |done|apply W1|exact W2|].
    - apply apart_sym. rewrite Forall_forall in Hx. apply Hx.
      rewrite app_comm_cons, Hinit. set_solver.
    - eapply tower_write_chain; [exact W1|done|done| |exact Hc]. eapply Forall_impl; [exact Hx|]. auto.
  Qed.

Lemma link_writes i a a1 a2 y init :
    0 <= i < MaxHeight -> i < e_h x -> linked i a ->
    h :: at_level i es1 = init ++ [y] ->
    tower_write a a1 x i (headof (at_level i es2)) -> tower_write a1 a2 y i (e_off x) ->
    linked (i + 1) a2.
  Proof.
    intros Hi Hx [Hlay Hdone Htodo] Hinit W1 W2. pose proof (lay_apart _ _ Hlay) as Hp.
    assert (Hxin : x ∈ h :: es1 ++ x :: es2) by set_solver.
    assert (Hyin1 : y ∈ h :: es1).
    { assert (y ∈ h :: at_level i es1) as Hy by (rewrite Hinit; set_solver).
      apply elem_of_cons in Hy as [->|Hy%at_level_sub]; set_solver. }
    assert (Hyin : y ∈ h :: es1 ++ x :: es2) by set_solver.
    pose proof (tower_write_layout _ _ _ _ _ _ W1 Hi Hxin Hlay) as Hlay1.
    assert (Hother : forall l L, (forall e, e ∈ L -> e ∈ es1 ++ x :: es2) ->
      l <> i -> 0 <= l < MaxHeight -> chain a l (e_off h) L -> chain a2 l (e_off h) L).
    { intros l L HL Hne Hl Hc.
      assert (Forall (fun e => e ∈ h :: es1 ++ x :: es2) L)
        by (apply Forall_forall; intros; right; auto).
      eapply (other_level a1 a2 y i); eauto. eapply (other_level a a1 x i); eauto. }
    split; [by eapply tower_write_layout| |].
    - intros l Hl. destruct (decide (l = i)) as [->|Hne].
      2: { apply Hother; [|lia|lia|apply Hdone; lia]. intros e. apply at_level_sub. }
      rewrite at_level_app. unfold at_level at 2. rewrite filter_cons, decide_True by done.
      fold (at_level i es2).
      eapply (link_chain i a a1 a2 y init); [done..| | |done|done|].
      + apply Forall_forall. intros e He. apply (pairs_at_x i); [done|].
        by rewrite elem_of_cons, elem_of_app in *.
      + apply Forall_forall. intros e [He|He]%elem_of_app.
        * apply apart_sym. eapply (pairs_app init [y]); [|done|by left].
          rewrite <- Hinit. eapply pairs_sublist; [|exact Hp].
          apply sublist_skip, sublist_inserts_r, at_level_sublist.
        * apply (pairs_app (h :: es1) (x :: es2)); [done|done|].
          right. by eapply at_level_sub.
      + rewrite <- at_level_app. apply Htodo. lia.
    - intros l Hl. apply Hother; [|lia|lia|apply Htodo; lia].
      intros e He%at_level_sub. set_solver.
  Qed.
End link.

Lemma link_level_spec s x es1 es2 key i sp fuel :
  linked (head_entry s) x es1 es2 i (arena s) -> 0 <= i < MaxHeight -> i < e_h x ->
  (if sp.1 =? 0 then (Skiplist.head s, 0) else sp) =
    (lastof (Skiplist.head s) (at_level i es1), headof (at_level i es2)) ->
  exists a2, link_level (S fuel) s key (e_off x) i sp =
      Some (mkSkiplist a2 (Skiplist.head s) (height s), Ok tt) /\
    linked (head_entry s) x es1 es2 (i + 1) a2 /\
    Arena.n a2 = Arena.n (arena s) /\ blen (abuf a2) = blen (abuf (arena s)).
Proof.
  intros Hlk Hi Hx Hsp. set (h := head_entry s) in *.
  destruct (last_split h (at_level i es1)) as (init & y & Hinit & Hrm & Hlast).
  change (e_off h) with (Skiplist.head s) in Hlast.
  pose proof (lk_layout _ _ _ _ _ _ Hlk) as Hlay. pose proof (lay_apart _ _ Hlay) as Hp.
  assert (Hxin : x ∈ h :: es1 ++ x :: es2) by set_solver.
  assert (Hyin1 : y ∈ h :: es1).
  { assert (y ∈ h :: at_level i es1) as Hy by (rewrite Hinit; set_solver).
    apply elem_of_cons in Hy as [->|Hy%at_level_sub]; set_solver. }
  assert (Hyin : y ∈ h :: es1 ++ x :: es2) by set_solver.
  assert (Hxy : apart x y) by (apply apart_sym, (pairs_app (h :: es1) (x :: es2)); [done|done|by left]).
  destruct (entry_in_buf h x es1 es2 _ x Hlay Hxin) as [Hxb Hxr].
  destruct (entry_in_buf h x es1 es2 _ y Hlay Hyin) as [Hyb _].
  assert (Hnext : getNext (arena s) (e_off y) i = Some (headof (at_level i es2))).
  { pose proof (lk_todo _ _ _ _ _ _ Hlk i ltac:(lia)) as Hc.
    rewrite at_level_app, chain_app in Hc. destruct Hc as [_ Hc].
    change (e_off h) with (Skiplist.head s) in Hc. rewrite Hlast in Hc. by apply chain_next in Hc. }
  cbn [link_level]. rewrite Hsp, Hlast.
  rewrite (proj2 (node_ok_off _ _ (layout_node _ _ _ Hlay Hxin))). cbn [mbind option_bind].
  assert (Hv : 0 <= headof (at_level i es2) < 2 ^ 32).
  { unfold getNext in Hnext. rewrite level_test in Hnext by done. by eapply load32_bounds. }
  destruct (setNext_spec (arena s) (e_off x) i _ Hi Hxb Hv) as (a1 & -> & W1). cbn [mbind option_bind].
  pose proof (tower_write_layout (arena s) a1 x i _ _ W1 Hi Hxin Hlay) as Hlay1.
  rewrite (proj2 (node_ok_off _ _ (layout_node _ _ _ Hlay1 Hyin))). cbn [mbind option_bind].
  destruct (entry_in_buf h x es1 es2 _ y Hlay1 Hyin) as [Hyb1 _].
  destruct (casNext_spec a1 (e_off y) i (headof (at_level i es2)) (e_off x) Hi Hyb1 Hxr)
    as (a2 & -> & W2).
  { rewrite (tower_write_other (arena s) a1 x i _ y i W1); [done|done|done|by left]. }
  cbn [mbind option_bind]. exists a2. split; [done|].
  split; [by eapply link_writes|]. destruct W1 as (? & ? & _), W2 as (? & ? & _). split; congruence.
Qed.

Lemma link_levels_spec x es1 es2 key spl k : forall s i,
  linked (head_entry s) x es1 es2 i (arena s) -> 0 <= i -> i + Z.of_nat k = e_h x ->
  e_h x <= MaxHeight ->
  (forall j, 0 <= j < MaxHeight -> exists sp, index spl j = Some sp /\
     (if sp.1 =? 0 then (Skiplist.head s, 0) else sp) =
       (lastof (Skiplist.head s) (at_level j es1), headof (at_level j es2))) ->
  exists a2, link_levels k s key (e_off x) i spl =
      Some (mkSkiplist a2 (Skiplist.head s) (height s), Ok tt) /\
    linked (head_entry s) x es1 es2 (e_h x) a2 /\
    Arena.n a2 = Arena.n (arena s) /\ blen (abuf a2) = blen (abuf (arena s)).
Proof.
  induction k as [|k IH]; intros s i Hlk Hi Hk Hx Hspl.
  - exists (arena s). replace (e_h x) with i by lia. by destruct s.
  - rewrite Nat2Z.inj_succ in Hk. cbn [link_levels].
    destruct (Hspl i ltac:(lia)) as (sp & -> & Hsp). cbn [mbind option_bind].
    destruct (link_level_spec s x es1 es2 key i sp (Z.to_nat (Arena.n (arena s))) Hlk
      ltac:(lia) ltac:(lia) Hsp) as (a1 & Heq & Hlk1 & Hn1 & Hb1).
    unfold walk_fuel. rewrite Heq. cbn [mbind option_bind].
    destruct (IH (mkSkiplist a1 (Skiplist.head s) (height s)) (i + 1) Hlk1)
      as (a2 & -> & Hlk2 & Hn2 & Hb2); [lia|lia|lia|done|].
    exists a2. split; [done|]. split; [done|]. cbn in Hn2, Hb2. split; congruence.
Qed.

Lemma randomHeight_loop_bounds fuel rnd h :
  1 <= h <= MaxHeight -> 1 <= randomHeight_loop fuel rnd h <= MaxHeight.
Proof.
  revert h. induction fuel as [|fuel IH]; intros h Hh; cbn; [done|].
  destruct (h <? MaxHeight) eqn:E; cbn; [|done]. bool_hyps. case_match; [|done]. apply IH. lia.
Qed.

Lemma randomHeight_bounds rnd : 1 <= randomHeight rnd <= MaxHeight.
Proof. apply randomHeight_loop_bounds. unfold MaxHeight. lia. Qed.

Lemma contents_insert x es1 es2 k :
  Forall (fun e => blt (e_key e) k) es1 -> Forall (fun e => ble k (e_key e)) es2 ->
  e_key x = k ->
  contents (es1 ++ x :: es2) = insert_sorted k (e_val x) (contents (es1 ++ es2)).
Proof.
  intros H1 H2 <-. induction H1 as [|e es1 He _ IH]; cbn.
  - destruct H2 as [|e es2 He _]; cbn; [done|].
    by rewrite bool_decide_eq_false_2 by (by apply (proj2 (not_blt _ _))).
  - rewrite bool_decide_eq_true_2 by done. f_equal. exact IH.
Qed.

Lemma has_key_elem k es : has_key k (contents es) <-> exists e, e ∈ es /\ e_key e = k.
Proof.
  unfold has_key, contents. rewrite <- list_fmap_compose, list_elem_of_fmap. naive_solver.
Qed.

Lemma hit_key s es k : rep s es -> hit k (from k es) = true <-> has_key k (contents es).
Proof. intros Hr. by rewrite (hit_elem s es Hr k), has_key_elem. Qed.

(** ** Insertion is correct *)

Lemma node_ok_frame a a' e :
  Arena.n a <= Arena.n a' -> (forall lo hi, hi <= Arena.n a -> agree (abuf a) (abuf a') lo hi) ->
  node_ok a e -> node_ok a' e.
Proof.
  intros Hn Ha [H1 H2]. pose proof (range_size e). unfold maxNodeSize in *.
  split; [|lia]. eapply node_at_agree; [exact H1|apply Ha; lia|apply Ha; exact H2].
Qed.

Lemma chain_frame a a' l p es :
  (forall lo hi, hi <= Arena.n a -> agree (abuf a) (abuf a') lo hi) -> 0 <= l < MaxHeight ->
  Forall (node_ok a) (p :: es) -> chain a l (e_off p) es -> chain a' l (e_off p) es.
Proof.
  intros Ha Hl. revert p. induction es as [|e es IH]; intros p Hn Hc;
    apply Forall_cons in Hn as [[_ Hp] Hn];
    assert (Heq : getNext a' (e_off p) l = getNext a (e_off p) l)
      by (symmetry; apply getNext_agree, Ha; pose proof (tower_range l Hl);
          pose proof (range_size p); lia); cbn in *.
  - congruence.
  - destruct Hc. split; [congruence|auto].
Qed.

Lemma rep_frame s es a' :
  rep s es -> Arena.wf a' -> Arena.n (arena s) <= Arena.n a' ->
  (forall lo hi, hi <= Arena.n (arena s) -> agree (abuf (arena s)) (abuf a') lo hi) ->
  rep (mkSkiplist a' (Skiplist.head s) (height s)) es.
Proof.
  intros [H1 H2 H3 H4 H5 H6 H7] Hwf Hn Ha. destruct H2 as [Hnodes Hp].
  split; cbn; try done; [split|..].
  - eapply Forall_impl; [exact Hnodes|]. intros. by eapply node_ok_frame.
  - done.
  - intros l Hl. apply (chain_frame (arena s) a' l (head_entry s)); [done|done| |auto].
    apply Forall_cons in Hnodes as [? Hnodes]. apply Forall_cons. split; [done|].
    rewrite Forall_forall in *. intros e He%at_level_sub. auto.
  - lia.
Qed.

Lemma sorted_insert es1 x es2 k :
  StronglySorted blt (e_key <$> (es1 ++ es2)) -> e_key x = k ->
  Forall (fun e => blt (e_key e) k) es1 -> Forall (fun e => blt k (e_key e)) es2 ->
  StronglySorted blt (e_key <$> (es1 ++ x :: es2)).
Proof.
  intros Hs <- H1 H2. induction H1 as [|e es1 He _ IH]; cbn in *.
  - constructor; [done|]. by apply Forall_fmap.
  - apply StronglySorted_inv in Hs as [Hs Hle]. constructor; [auto|].
    rewrite fmap_app in *. cbn. rewrite Forall_app in Hle. destruct Hle as [Ha Hb].
    apply Forall_app. split; [done|]. constructor; done.
Qed.

Lemma below_from_bounds k es :
  Forall (fun e => blt (e_key e) k) (below k es) /\ Forall (fun e => ble k (e_key e)) (from k es).
Proof.
  split; apply Forall_forall; intros e He; unfold below, from in He;
    by apply list_elem_of_filter in He as [? _].
Qed.

Lemma from_sub k es e : e ∈ from k es -> e ∈ es.
Proof. unfold from. intros H. by apply list_elem_of_filter in H as [_ ?]. Qed.

(** After the allocation, before any link: all levels still to do. *)
Lemma linked_init s es a' x k :
  rep s es -> node_ok a' x -> Arena.n (arena s) <= e_off x -> Arena.n (arena s) <= Arena.n a' ->
  (forall lo hi, hi <= Arena.n (arena s) -> agree (abuf (arena s)) (abuf a') lo hi) ->
  linked (head_entry s) x (below k es) (from k es) 0 a'.
Proof.
  intros Hrep Hx Hoff Hn Ha. pose proof (sorted_split k es (rep_sorted _ _ Hrep)) as Hes.
  pose proof (rep_layout _ _ Hrep) as [Hnodes Hp]. rewrite Hes in Hnodes, Hp.
  split; [split| |].
  - rewrite app_comm_cons in *. apply Forall_app in Hnodes as [H1 H2].
    apply Forall_app. split; [|apply Forall_cons; split; [done|]];
      (eapply Forall_impl; [eassumption|]); intros; by eapply (node_ok_frame (arena s)).
  - rewrite app_comm_cons in *. apply pairs_insert; [done|].
    eapply Forall_impl; [exact Hnodes|]. intros e [_ He]. cbn in He |- *.
    unfold apart, disjoint_range. cbn. lia.
  - lia.
  - intros l Hl. rewrite <- Hes. apply (chain_frame (arena s) a' l (head_entry s)); [done|done| |].
    + rewrite Hes. apply Forall_cons in Hnodes as [? Hnodes]. apply Forall_cons. split; [done|].
      rewrite Forall_forall in *. intros e He%at_level_sub. auto.
    + by apply Hrep.
Qed.

Lemma Add_present s es rnd k v :
  rep s es -> has_key k (contents es) -> Skiplist.Add s rnd k v = Some (s, Err ErrRecordExists).
Proof.
  intros Hrep Hk. destruct (findSplice_spec s es Hrep k) as (spl & Heq & _).
  unfold Skiplist.Add. rewrite Heq. cbn [mbind option_bind].
  by rewrite (proj2 (hit_key s es k Hrep) Hk).
Qed.

(** What an insertion takes of the arena: at most the size of the node, and it
    succeeds when the arena is large enough. *)
Record room_used (a a' : Arena) (k v : bytes) (ok : bool) : Prop := {
  ru_n : Arena.n a <= Arena.n a' <= Arena.n a + maxNodeSize + blen k + blen v + 3;
  ru_buf : blen (abuf a') = blen (abuf a);
  ru_fits : if ok then Arena.n a' <= blen (abuf a') else blen (abuf a') < Arena.n a' }.

(** The list with a new node linked on all its levels. *)
Lemma rep_inserted s es x k a H :
  rep s es -> ~ has_key k (contents es) -> e_key x = k -> 1 <= e_h x -> e_h x <= H <= MaxHeight -> height s <= H ->
  linked (head_entry s) x (below k es) (from k es) (e_h x) a -> Arena.wf a ->
  Z.of_nat (length es) + 1 < Arena.n a ->
  rep (mkSkiplist a (Skiplist.head s) H) (below k es ++ x :: from k es).
Proof.
  intros Hrep Hk Hkx Hx HH Hs [Hlay Hdone Htodo] Hwf Hc. pose proof (sorted_split k es (rep_sorted _ _ Hrep)) as Hes.
  destruct (below_from_bounds k es) as [Hbel Hfrom]. pose proof (rep_heights _ _ Hrep) as Hheights. split; cbn.
  - done.
  - exact Hlay.
  - lia.
  - rewrite Hes, Forall_app in Hheights. destruct Hheights as [G1 G2].
    apply Forall_app. split; [|apply Forall_cons; split; [lia|]]; (eapply Forall_impl; [eassumption|]); cbn; lia.
  - apply (sorted_insert _ _ _ k); [rewrite <- Hes; apply Hrep|done|done|].
    rewrite Forall_forall in *. intros e He. destruct (proj1 (ble_lteq _ _) (Hfrom e He)) as [|E]; [done|].
    destruct Hk. apply has_key_elem. exists e. rewrite Hes, elem_of_app. auto.
  - intros l Hl. destruct (decide (l < e_h x)); [apply Hdone; lia|].
    specialize (Htodo l ltac:(lia)). rewrite at_level_app in *. unfold at_level at 2.
    rewrite filter_cons, decide_False by lia. exact Htodo.
  - rewrite Hes, length_app in Hc. rewrite length_app. cbn. lia.
Qed.

Lemma Add_absent_room s es rnd k v :
  rep s es -> ~ has_key k (contents es) ->
  Arena.n (arena s) + 2 ^ 33 < 2 ^ 63 -> maxNodeSize + blen k + blen v < 2 ^ 32 ->
  exists s' r, Skiplist.Add s rnd k v = Some (s', r) /\
    match r with
    | Ok _ => (exists es', rep s' es' /\ contents es' = insert_sorted k v (contents es)) /\
              room_used (arena s) (arena s') k v true
    | Err (ErrArena ErrFull) => rep s' es /\ room_used (arena s) (arena s') k v false
    | _ => False
    end.
Proof.
  intros Hrep Hk Hn Hsz. destruct (findSplice_spec s es Hrep k) as (spl & Heq & Hspl).
  unfold Skiplist.Add. rewrite Heq. cbn [mbind option_bind].
  assert (Hhit : hit k (from k es) = false).
  { apply not_true_is_false. by rewrite (hit_key s es k Hrep). }
  rewrite Hhit. pose proof (randomHeight_bounds rnd) as Hh. set (h := randomHeight rnd) in *.
  pose proof (newNode_spec (arena s) k v (rep_wf _ _ Hrep) Hn Hsz) as Hnew.
  destruct (newNode (arena s) k v) as [a1 [off|[]|]];
    destruct Hnew as (Hwf1 & Hn1 & Hb1 & Hnew); [| |done].
  - destruct Hnew as (Hoff & Hend & Hnode & Hagree & Hfit & _). unfold maxNodeSize in Hn1.
    set (x := mkEntry off k v h).
    assert (Hlk : linked (head_entry s) x (below k es) (from k es) 0 a1).
    { apply linked_init; [done|by split|done|lia|done]. }
    destruct (link_levels_spec x (below k es) (from k es) k spl (Z.to_nat h)
      (mkSkiplist a1 (Skiplist.head s) (if height s <? h then h else height s)) 0 Hlk)
      as (a2 & Heq2 & Hlk2 & Hn2 & Hb2); [lia|change (e_h x) with h; lia|change (e_h x) with h; lia|exact Hspl|].
    change (e_off x) with off in Heq2. rewrite Heq2. eexists _, _. split; [done|].
    pose proof (sorted_split k es (rep_sorted _ _ Hrep)) as Hes.
    destruct (below_from_bounds k es) as [Hbel Hfrom].
    split; [|by split; cbn; unfold maxNodeSize in *; rewrite ?Hn2, ?Hb2; cbn; lia].
    exists (below k es ++ x :: from k es).
    split; [|by rewrite (contents_insert x (below k es) (from k es) k), <- Hes].
    pose proof (rep_height _ _ Hrep) as Hheight. pose proof (rep_count _ _ Hrep) as Hc. cbn in Hn2, Hb2.
    assert (HH : h <= (if height s <? h then h else height s) <= MaxHeight /\ height s <= (if height s <? h then h else height s))
      by (case_match; bool_hyps; lia).
    apply (rep_inserted s es x k); [exact Hrep|exact Hk|reflexivity|change (e_h x) with h; lia|exact (proj1 HH)|exact (proj2 HH)|exact Hlk2|unfold Arena.wf in *; by rewrite Hn2, Hb2|lia].
  - eexists _, _. split; [done|]. cbn. destruct Hnew as [Hsame Hfull].
    split; [|by split; [unfold maxNodeSize in *; lia|done|cbn; rewrite Hsame]].
    apply rep_frame; [done|done| |].
    + unfold maxNodeSize in *. lia.
    + intros. rewrite Hsame. apply agree_refl.
Qed.

Lemma Add_absent s es rnd k v :
  rep s es -> ~ has_key k (contents es) ->
  Arena.n (arena s) + 2 ^ 33 < 2 ^ 63 -> maxNodeSize + blen k + blen v < 2 ^ 32 ->
  exists s' r, Skiplist.Add s rnd k v = Some (s', r) /\
    match r with
    | Ok _ => exists es', rep s' es' /\ contents es' = insert_sorted k v (contents es)
    | Err (ErrArena ErrFull) => rep s' es
    | _ => False
    end.
Proof.
  intros Hr Hk Hn Hsz. destruct (Add_absent_room s es rnd k v Hr Hk Hn Hsz) as (s' & r & E & H).
  exists s', r. split; [done|]. destruct r as [[]|[|[]]|]; by destruct H.
Qed.

(** The list on a zeroed arena is empty. *)
Lemma New_room cap :
  maxNodeSize + 4 <= cap < 2 ^ 32 ->
  exists s, Skiplist.New (Arena.New (replicate (Z.to_nat cap) x00)) = Some s /\ rep s [] /\
    blen (abuf (arena s)) = cap /\ Arena.n (arena s) <= maxNodeSize + 4.
Proof.
  intros Hcap. unfold Skiplist.New. unfold maxNodeSize in *.
  set (a := Arena.New (replicate (Z.to_nat cap) x00)).
  assert (Hbuf : abuf a = replicate (Z.to_nat cap) x00).
  { unfold a, Arena.New, maxSize. cbn. rewrite blen_replicate.
    rewrite (proj2 (Z.ltb_ge _ _)) by lia. done. }
  assert (Hlen : blen (abuf a) = cap) by (rewrite Hbuf, blen_replicate; lia).
  pose proof (newNode_spec a [] [] (Arena.New_wf _) ltac:(change (Arena.n a) with 1; lia) ltac:(by vm_compute)) as Hnew.
  change (Arena.n a) with 1 in Hnew. unfold maxNodeSize in *. change (blen []) with 0 in Hnew.
  destruct (newNode a [] []) as [a1 [off|[]|]]; destruct Hnew as (Hwf & Hn & Hb & Hnew); [|lia|done].
  destruct Hnew as (Ho & Hend & Hnode & _ & Hfit & Htow). change (blen []) with 0 in Hn.
  eexists. split; [done|]. split; [|cbn; split; lia]. split; cbn; [done|split|unfold MaxHeight; lia|constructor|constructor| |lia].
  - apply Forall_singleton. split; [done|]. exact Hend.
  - by repeat constructor.
  - intros l Hl. rewrite <- (getNext_agree a).
    2: { eapply agree_sub; [exact Htow|unfold f_tower in *; lia|].
         pose proof (tower_range l Hl). unfold maxNodeSize in *. lia. }
    unfold getNext. rewrite level_test by done. unfold load32. rewrite Hbuf.
    pose proof (tower_range l Hl). unfold node_end in Hend. unfold maxNodeSize in *. change (blen []) with 0 in Hend.
    unfold slice. rewrite blen_replicate.
    rewrite (proj2 (Z.leb_le _ _)), (proj2 (Z.leb_le _ _)), (proj2 (Z.leb_le _ _)) by lia.
    cbn [andb mbind option_bind]. f_equal. rewrite drop_replicate, take_replicate.
    replace (_ `min` _)%nat with 4%nat by lia. done.
Qed.

Lemma New_rep cap :
  maxNodeSize + 4 <= cap < 2 ^ 32 ->
  exists s, Skiplist.New (Arena.New (replicate (Z.to_nat cap) x00)) = Some s /\ rep s [].
Proof. intros Hc. destruct (New_room cap Hc) as (s & E & Hr & _). by exists s. Qed.

(** ** Reading *)

Lemma contents_from t es : contents (from t es) = suffix_from t (contents es).
Proof.
  unfold from, suffix_from, contents. induction es as [|e es IH]; [done|].
  rewrite fmap_cons, !filter_cons. cbn [fst]. destruct (decide (ble t (e_key e))); [|done].
  rewrite fmap_cons. by rewrite IH.
Qed.

Lemma assoc_below_from k es :
  assoc k (contents es) = assoc k (contents (below k es ++ from k es)) ->
  assoc k (contents es) = assoc k (contents (from k es)).
Proof.
  intros ->. destruct (below_from_bounds k es) as [Hb _]. unfold contents.
  induction Hb as [|e L He _ IH]; [done|]. cbn. rewrite bool_decide_eq_false_2; [exact IH|].
  intros E. cbn in He. rewrite E in He. by apply blt_irrefl in He.
Qed.

Lemma Get_spec s es k : rep s es -> Get s k = Some (assoc k (contents es)).
Proof.
  intros Hrep. unfold Get. rewrite (seekGE_spec s es Hrep k). cbn [mbind option_bind].
  pose proof (sorted_split k es (rep_sorted _ _ Hrep)) as Hes.
  rewrite (assoc_below_from k es) by (by rewrite <- Hes).
  destruct (hit k (from k es)) eqn:Ehit.
  - unfold hit in Ehit. destruct (from k es) as [|e L] eqn:Ef; [done|].
    cbn in Ehit. apply bool_decide_eq_true in Ehit as ->.
    assert (He : e ∈ es) by (eapply from_sub; rewrite Ef; by left).
    pose proof (layout_node _ _ e (rep_layout _ _ Hrep) ltac:(by right)) as Hn.
    destruct (node_ok_off _ _ Hn) as [Hne Hg]. unfold headof. cbn.
    rewrite (proj2 (Z.eqb_neq _ _)), Hg by done. cbn.
    rewrite (node_at_getValue _ _ _ _ (proj1 Hn)). cbn. by rewrite bool_decide_eq_true_2.
  - rewrite orb_true_r. f_equal. symmetry. apply assoc_None.
    rewrite has_key_elem. intros (e & He & Hk).
    assert (hit k (from k es) = true); [|congruence].
    apply (hit_elem s es Hrep k). exists e. split; [|done]. rewrite Hes. set_solver.
Qed.

(** Iterating from a node lists the entries from that node on. *)
Lemma collect_spec s all L fuel p :
  layout (arena s) all -> Forall (fun e => e ∈ all) L -> chain (arena s) 0 p L ->
  (length L < fuel)%nat -> collect fuel s (headof L) = Some (contents L).
Proof.
  intros Hlay. revert p fuel. induction L as [|e L IH]; intros p [|fuel] HL Hc Hf; cbn in Hf;
    try lia; [done|].
  apply Forall_cons in HL as [He HL]. destruct Hc as [_ Hc].
  pose proof (layout_node _ _ _ Hlay He) as Hn. destruct (node_ok_off _ _ Hn) as [Hne Hg].
  cbn [collect]. change (headof (e :: L)) with (e_off e). unfold Valid, Key, Value, Next.
  rewrite (proj2 (Z.eqb_neq _ _)), Hg by done. cbn [negb mbind option_bind].
  rewrite (node_at_getKey _ _ _ _ (proj1 Hn)). cbn [mbind option_bind].
  rewrite (node_at_getValue _ _ _ _ (proj1 Hn)). cbn [mbind option_bind].
  rewrite (chain_next _ _ _ _ Hc). cbn [mbind option_bind].
  rewrite (IH (e_off e)) by (auto; lia). done.
Qed.

(** The chain of level 0 from any split point. *)
Lemma rep_chain0 s es es1 es2 :
  rep s es -> es = es1 ++ es2 -> chain (arena s) 0 (lastof (Skiplist.head s) es1) es2.
Proof.
  intros Hrep ->. pose proof (rep_chain _ _ Hrep 0 ltac:(unfold MaxHeight; lia)) as Hc.
  rewrite at_level_zero in Hc; [by apply chain_app in Hc as [_ Hc]|].
  eapply Forall_impl; [apply Hrep|]. cbn. lia.
Qed.

Lemma collect_from s es es1 es2 :
  rep s es -> es = es1 ++ es2 ->
  collect (walk_fuel (arena s)) s (headof es2) = Some (contents es2).
Proof.
  intros Hrep Hes. eapply (collect_spec s (head_entry s :: es)).
  - apply Hrep.
  - apply Forall_forall. intros e He. right. rewrite Hes. set_solver.
  - by eapply rep_chain0.
  - pose proof (rep_count _ _ Hrep) as Hc. rewrite Hes, length_app in Hc. unfold walk_fuel. lia.
Qed.

Lemma entries_spec s es : rep s es -> entries s = Some (contents es).
Proof.
  intros Hrep. unfold entries, First.
  destruct (node_ok_off _ _ (layout_node _ _ (head_entry s) (rep_layout _ _ Hrep) ltac:(by left)))
    as [_ Hg].
  pose proof (rep_chain0 s es [] es Hrep eq_refl) as Hc.
  change (e_off (head_entry s)) with (Skiplist.head s) in Hg. rewrite Hg. cbn [mbind option_bind].
  change (Skiplist.head s) with (lastof (Skiplist.head s) []).
  rewrite (chain_next _ _ _ _ Hc). cbn [mbind option_bind]. by apply (collect_from s es []).
Qed.

Lemma seek_entries_spec s es t :
  rep s es ->
  exists nd, SeekGE s t = Some nd /\
    collect (walk_fuel (arena s)) s nd = Some (suffix_from t (contents es)).
Proof.
  intros Hrep. exists (headof (from t es)). unfold SeekGE.
  rewrite (seekGE_spec s es Hrep t). split; [done|]. rewrite <- contents_from.
  apply (collect_from s es (below t es)); [done|]. apply sorted_split, Hrep.
Qed.

(** The entry a seek stops at, and what its accessors return. *)
Lemma SeekGE_first s es t :
  rep s es ->
  exists nd, SeekGE s t = Some nd /\
    match suffix_from t (contents es) with
    | [] => nd = 0
    | (k, v) :: _ => nd <> 0 /\ Key s nd = Some k /\ Value s nd = Some v
    end.
Proof.
  intros Hrep. exists (headof (from t es)). unfold SeekGE.
  rewrite (seekGE_spec s es Hrep t). split; [done|]. rewrite <- contents_from.
  destruct (from t es) as [|e L] eqn:Ef; [done|]. cbn.
  assert (He : e ∈ es) by (eapply from_sub; rewrite Ef; by left).
  pose proof (layout_node _ _ e (rep_layout _ _ Hrep) ltac:(by right)) as Hn.
  destruct (node_ok_off _ _ Hn) as [Hne Hg]. unfold headof, Key, Value. cbn.
  rewrite Hg. cbn. rewrite (node_at_getKey _ _ _ _ (proj1 Hn)).
  by rewrite (node_at_getValue _ _ _ _ (proj1 Hn)).
Qed.

Lemma rep_contents_sorted s es : rep s es -> StronglySorted blt (contents es).*1.
Proof.
  intros Hrep. unfold contents. rewrite <- list_fmap_compose. apply Hrep.
Qed.

(** The position of an iterator: the entries from [nd] on. *)
Definition scursor (es : list entry) (nd : Z) (rest : list (bytes * bytes)) : Prop :=
  exists es1 es2, es = es1 ++ es2 /\ nd = headof es2 /\ rest = contents es2.

Lemma scursor_First s es : rep s es -> exists nd, First s = Some nd /\ scursor es nd (contents es).
Proof.
  intros Hrep. unfold First.
  destruct (node_ok_off _ _ (layout_node _ _ (head_entry s) (rep_layout _ _ Hrep) ltac:(by left))) as [_ Hg].
  pose proof (rep_chain0 s es [] es Hrep eq_refl) as Hc.
  change (e_off (head_entry s)) with (Skiplist.head s) in Hg. rewrite Hg. cbn [mbind option_bind].
  exists (headof es). split; [exact (chain_next _ _ _ _ Hc)|]. by exists [], es.
Qed.

Lemma scursor_SeekGE s es t : rep s es -> exists nd, SeekGE s t = Some nd /\ scursor es nd (suffix_from t (contents es)).
Proof.
  intros Hrep. exists (headof (from t es)). unfold SeekGE. rewrite (seekGE_spec s es Hrep t). split; [done|].
  exists (below t es), (from t es). split; [apply sorted_split, Hrep|]. by rewrite contents_from.
Qed.

Lemma scursor_node s es nd p rest :
  rep s es -> scursor es nd (p :: rest) ->
  nd <> 0 /\ Key s nd = Some p.1 /\ Value s nd = Some p.2 /\
  exists nd', Next s nd = Some nd' /\ scursor es nd' rest.
Proof.
  intros Hrep (es1 & [|e es2] & Hes & -> & Hp); [done|]. injection Hp as -> ->.
  assert (He : e ∈ es) by (rewrite Hes; set_solver).
  pose proof (layout_node _ _ e (rep_layout _ _ Hrep) ltac:(by right)) as Hn.
  destruct (node_ok_off _ _ Hn) as [Hne Hg]. change (headof (e :: es2)) with (e_off e).
  split; [done|]. unfold Key, Value, Next. rewrite Hg, (proj2 (Z.eqb_neq _ _)) by done. cbn [mbind option_bind].
  rewrite (node_at_getKey _ _ _ _ (proj1 Hn)), (node_at_getValue _ _ _ _ (proj1 Hn)). split_and!; [done..|].
  pose proof (rep_chain0 s es (es1 ++ [e]) es2 Hrep) as Hc. rewrite lastof_app in Hc.
  exists (headof es2). split.
  - apply (chain_next _ _ _ _ (Hc ltac:(by rewrite <- app_assoc))).
  - exists (es1 ++ [e]), es2. split; [by rewrite <- app_assoc|done].
Qed.

Lemma scursor_nil (es : list entry) (nd : Z) : scursor es nd [] -> nd = 0.
Proof. intros (es1 & [|e es2] & _ & -> & Hr); done. Qed.

(** ** Properties *)

(** A fresh list on a zeroed 2000-byte arena, and one with two entries. *)
Definition demo0 : Skiplist :=
  default (mkSkiplist (Arena.New []) 0 0) (Skiplist.New (Arena.New (replicate 2000 x00))).

Lemma demo0_rep : rep demo0 [].
Proof.
  destruct (New_rep 2000 ltac:(unfold maxNodeSize; lia)) as (s & Hs & Hrep).
  unfold demo0. change (replicate 2000 x00) with (replicate (Z.to_nat 2000) x00).
  rewrite Hs. exact Hrep.
Qed.

(** C11: [Add] inserts: on a well-formed list it never panics or loops, and
    either the key was present and nothing changes ([ErrRecordExists]), or the
    arena is full and the contents are kept, or the result is a well-formed
    list whose contents are the old ones with the pair inserted in key order,
    whatever the random height.  The size bound keeps the node size in
    [uint32], the counter bound excludes a wrap-around of [uint64]. *)
Theorem Add_inserts (s : Skiplist) (es : list entry) (rnd : Z) (key value : bytes) :
  rep s es -> Arena.n (arena s) + 2 ^ 33 < 2 ^ 63 ->
  maxNodeSize + blen key + blen value < 2 ^ 32 ->
  exists s' r, Skiplist.Add s rnd key value = Some (s', r) /\
    match r with
    | Ok _ => ~ has_key key (contents es) /\
        exists es', rep s' es' /\ contents es' = insert_sorted key value (contents es)
    | Err ErrRecordExists => has_key key (contents es) /\ s' = s
    | Err (ErrArena ErrFull) => ~ has_key key (contents es) /\ rep s' es
    | Panic => False
    end.
Proof.
  intros Hrep Hn Hsz. destruct (decide (has_key key (contents es))) as [Hk|Hk].
  - exists s, (Err ErrRecordExists). split; [by eapply Add_present|done].
  - destruct (Add_absent s es rnd key value Hrep Hk Hn Hsz) as (s' & r & HA & Hr).
    exists s', r. split; [exact HA|]. by destruct r as [|[|[]]|].
Qed.

Lemma Add_inserts_witness :
  rep demo0 [] /\
  exists s' r, Skiplist.Add demo0 7 [x61] [x62] = Some (s', r) /\
    match r with Ok _ => True | _ => False end.
Proof.
  split; [exact demo0_rep|].
  destruct (Add_inserts demo0 [] 7 [x61] [x62] demo0_rep ltac:(vm_compute; reflexivity)
    ltac:(vm_compute; reflexivity)) as (s' & r & HA & Hr).
  exists s', r. split; [exact HA|]. vm_compute in HA. injection HA as _ <-. exact I.
Defined.

(** C25: [Get] is the lookup of the contents, and both ways of starting an
    iteration list the sorted contents: all of them from [First], exactly those
    with keys at or after the target from [SeekGE].  None of them panics or
    runs out of iterations. *)
Theorem search_iterate_correct (s : Skiplist) (es : list entry) (t : bytes) :
  rep s es ->
  Get s t = Some (assoc t (contents es)) /\
  Skiplist.entries s = Some (contents es) /\ StronglySorted blt (contents es).*1 /\
  exists nd, SeekGE s t = Some nd /\
    collect (walk_fuel (arena s)) s nd = Some (suffix_from t (contents es)).
Proof.
  intros Hrep. split; [by apply Get_spec|]. split; [by apply entries_spec|].
  split; [by eapply rep_contents_sorted|by apply seek_entries_spec].
Qed.

Lemma search_iterate_correct_witness :
  exists s es, rep s es /\ contents es = [([x61], [x62])] /\ Get s [x61] = Some (Some [x62]).
Proof.
  destruct (Add_absent demo0 [] 7 [x61] [x62] demo0_rep ltac:(apply not_elem_of_nil) ltac:(vm_compute; reflexivity)
    ltac:(vm_compute; reflexivity)) as (s' & r & HA & Hr).
  assert (Hok : exists u, r = Ok u) by (vm_compute in HA; injection HA as _ <-; eexists; reflexivity).
  destruct Hok as [u ->]. destruct Hr as (es & Hrep & Hc).
  exists s', es. split; [exact Hrep|]. split; [exact Hc|].
  rewrite (proj1 (search_iterate_correct s' es [x61] Hrep)), Hc. reflexivity.
Defined.

(** The head node of [New] relies on zeroed memory: its tower is never
    written. *)
Definition reset_demo : option (list (bytes * bytes)) :=
  '(s, _) ← Skiplist.Add demo0 7 [x61] [x62];
  s ← Skiplist.New (Arena.Reset (arena s));
  Skiplist.entries s.

(** A list created on a zeroed arena is empty and well formed; a list
    created on an arena that was used and [Reset] (which keeps the buffer's
    bytes) is not: it still contains the old list's entry. *)
Theorem New_needs_zeroed_arena (cap : Z) :
  maxNodeSize + 4 <= cap < 2 ^ 32 ->
  (exists s, Skiplist.New (Arena.New (replicate (Z.to_nat cap) x00)) = Some s /\ rep s [] /\
     Skiplist.entries s = Some []) /\
  reset_demo = Some [([x61], [x62])].
Proof.
  intros Hcap. split; [|vm_compute; reflexivity].
  destruct (New_rep cap Hcap) as (s & Hs & Hrep).
  exists s. split; [exact Hs|]. split; [exact Hrep|]. by apply entries_spec in Hrep.
Qed.

Lemma New_needs_zeroed_arena_witness :
  maxNodeSize + 4 <= 100 < 2 ^ 32 /\ reset_demo = Some [([x61], [x62])].
Proof.
  assert (H : maxNodeSize + 4 <= 100 < 2 ^ 32) by (unfold maxNodeSize; lia).
  split; [exact H|]. exact (proj2 (New_needs_zeroed_arena 100 H)).
Defined.
