(* ===== verification/SkiplistSteps.v ===== *)
(** The skiplist shared by goroutines ([pkg/lsm/skiplist]): [Add], [Get] and
    the iterator's methods cut into steps, one atomic operation of the code (a
    load, a store or a compare-and-swap of a tower word or of the height, the
    atomic add of [Alloc]) to a step, and any number of threads that take
    their steps in any order on one list.  A step also reads the immutable
    fields and bytes of nodes; the step of the allocation fills the new node,
    which no other thread can see yet.

    A [None] of a step is a Go panic; SkiplistConc.v shows that there is none. *)
From S2P Require Import Prelude Binary ByteOrder Arena Skiplist.

(** ** Calls *)

Abbreviation pair := (bytes * bytes)%type.

(** A call of a thread; [rnd] is the number [rand.Uint32] will draw.  The last
    three are methods of the thread's iterator. *)
Inductive call : Type :=
| CAdd (rnd : Z) (key value : bytes)
| CGet (key : bytes)
| CSeekGE (target : bytes)
| CFirst
| CNext.

(** What a call returns.  Of an iterator one sees whether it is [Valid], and
    then its [Key] and [Value]. *)
Inductive answer : Type :=
| Added (r : result add_error unit)
| Got (value : option bytes)
| At (p : option pair).

(** ** Where a thread stands *)

(** Both users of [seekGE]. *)
Inductive seeker : Type := ForGet | ForIterator.

(** The local variables of [Add] once its node exists. *)
Record job : Type := mkJob { j_key : bytes; j_nd : Z; j_height : Z; j_spl : splices }.

Definition set_splice (j : job) (i : nat) (sp : Z * Z) : job :=
  mkJob (j_key j) (j_nd j) (j_height j) (<[i := sp]> (j_spl j)).

(** The next atomic operation of a thread, with the locals it needs. *)
Inductive pc : Type :=
| Idle
| AddStart (rnd : Z) (key value : bytes)              (* findSplice: load the height *)
| AddFind (rnd : Z) (key value : bytes) (level : nat) (prev : Z) (found : bool) (spl : splices)
                                                      (* load prev's link *)
| AddNode (rnd : Z) (key value : bytes) (spl : splices)  (* newNode: the atomic add *)
| AddHeight (j : job)                                 (* load the height *)
| AddGrow (j : job) (listHeight : Z)                  (* CAS the height *)
| AddStore (j : job) (i : nat)                        (* store the own link *)
| AddLink (j : job) (i : nat) (prev next : Z)         (* CAS prev's link *)
| AddFix (j : job) (i : nat) (prev : Z)               (* findSpliceForLevel: load prev's link *)
| SeekStart (w : seeker) (key : bytes)                (* seekGE: load the height *)
| SeekFind (w : seeker) (key : bytes) (level : nat) (prev : Z)  (* load prev's link *)
| FirstLoad                                           (* load the head's link *)
| NextLoad (nd : Z)                                   (* load nd's link *)
| Return (a : answer) (it : option Z).                (* with the iterator's new node *)

(** ** Steps *)

(** The test of the search loops at [next]: [None] to advance, else stop, and
    whether the key is found there. *)
Definition stop_at (a : Arena) (key : bytes) (next : Z) : option (option bool) :=
  if next =? 0 then Some (Some false)
  else
    nd ← getNode a next;
    nextKey ← getKey a nd;
    let cmp := compareKeys key nextKey in
    Some (if cmp <=? 0 then Some (cmp =? 0) else None).

(** [getNode(prev).getNext(level)]. *)
Definition load_next (a : Arena) (prev : Z) (level : nat) : option Z :=
  nd ← getNode a prev; getNext a nd (Z.of_nat level).

(** [findSplice] with [k] levels left, and what [Add] does after it. *)
Definition add_levels (rnd : Z) (key value : bytes) (k : nat) (prev : Z) (found : bool)
  (spl : splices) : pc :=
  match k with
  | S k => AddFind rnd key value k prev found spl
  | O => if found then Return (Added (Err ErrRecordExists)) None else AddNode rnd key value spl
  end.

(** The test [int32(height) > listHeight]. *)
Definition grow_test (j : job) (listHeight : Z) : pc :=
  if listHeight <? j_height j then AddGrow j listHeight else AddStore j 0.

(** The head of the loop over the levels. *)
Definition link_test (j : job) (i : nat) : pc :=
  if Z.of_nat i <? j_height j then AddStore j i else Return (Added (Ok tt)) None.

(** What [Valid], [Key] and [Value] say at a node. *)
Definition show (s : Skiplist) (nd : Z) : option (option pair) :=
  if Valid nd then k ← Key s nd; v ← Value s nd; Some (Some (k, v)) else Some None.

Definition move_to (s : Skiplist) (nd : Z) : option pc :=
  p ← show s nd; Some (Return (At p) (Some nd)).

(** The end of [seekGE], and what its two callers do with the node. *)
Definition seek_end (s : Skiplist) (w : seeker) (key : bytes) (next : Z) : option pc :=
  match w with
  | ForIterator => move_to s next
  | ForGet =>
      if next =? 0 then Some (Return (Got None) None)
      else
        nd ← getNode (arena s) next;
        k ← getKey (arena s) nd;
        if compareKeys key k =? 0 then
          v ← getValue (arena s) nd; Some (Return (Got (Some v)) None)
        else Some (Return (Got None) None)
  end.

(** [seekGE] with [k] levels left. *)
Definition seek_levels (s : Skiplist) (w : seeker) (key : bytes) (k : nat) (prev next : Z)
  : option pc :=
  match k with
  | S k => Some (SeekFind w key k prev)
  | O => seek_end s w key next
  end.

Definition with_arena (s : Skiplist) (a : Arena) : Skiplist := mkSkiplist a (head s) (height s).
Definition with_height (s : Skiplist) (h : Z) : Skiplist := mkSkiplist (arena s) (head s) h.

(** The splice [Add] links at: on a new level the head. *)
Definition splice_or_head (s : Skiplist) (sp : Z * Z) : Z * Z :=
  if sp.1 =? 0 then (head s, 0) else sp.

Definition tstep (s : Skiplist) (p : pc) : option (Skiplist * pc) :=
  match p with
  | Idle | Return _ _ => None
  | AddStart rnd key value =>
      Some (s, add_levels rnd key value (Z.to_nat (height s)) (head s) false no_splices)
  | AddFind rnd key value k prev found spl =>
      next ← load_next (arena s) prev k;
      stop ← stop_at (arena s) key next;
      match stop with
      | None => Some (s, AddFind rnd key value k next found spl)
      | Some eq => Some (s, add_levels rnd key value k prev (found || eq) (<[k := (prev, next)]> spl))
      end
  | AddNode rnd key value spl =>
      match newNode (arena s) key value with
      | (a, Ok nd) => Some (with_arena s a, AddHeight (mkJob key nd (randomHeight rnd) spl))
      | (a, Err e) => Some (with_arena s a, Return (Added (Err (ErrArena e))) None)
      | (a, Panic) => None
      end
  | AddHeight j => Some (s, grow_test j (height s))
  | AddGrow j listHeight =>
      if height s =? listHeight then Some (with_height s (j_height j), AddStore j 0)
      else Some (s, AddHeight j)
  | AddStore j i =>
      sp ← j_spl j !! i;
      let '(prev, next) := splice_or_head s sp in
      nd ← getNode (arena s) (j_nd j);
      a ← setNext (arena s) nd (Z.of_nat i) next;
      Some (with_arena s a, AddLink j i prev next)
  | AddLink j i prev next =>
      nd ← getNode (arena s) prev;
      '(a, swapped) ← casNext (arena s) nd (Z.of_nat i) next (j_nd j);
      if (swapped : bool) then Some (with_arena s a, link_test j (i + 1))
      else Some (with_arena s a, AddFix j i prev)
  | AddFix j i prev =>
      next ← load_next (arena s) prev i;
      stop ← stop_at (arena s) (j_key j) next;
      match stop with
      | None => Some (s, AddFix j i next)
      | Some true =>
          match i with
          | O => Some (s, Return (Added (Err ErrRecordExists)) None)
          | S _ => None    (* panic("duplicate found at non-base level") *)
          end
      | Some false => Some (s, AddStore (set_splice j i (prev, next)) i)
      end
  | SeekStart w key =>
      p ← seek_levels s w key (Z.to_nat (height s)) (head s) 0; Some (s, p)
  | SeekFind w key k prev =>
      next ← load_next (arena s) prev k;
      stop ← stop_at (arena s) key next;
      match stop with
      | None => Some (s, SeekFind w key k next)
      | Some _ => p ← seek_levels s w key k prev next; Some (s, p)
      end
  | FirstLoad => next ← First s; p ← move_to s next; Some (s, p)
  | NextLoad nd => next ← Next s nd; p ← move_to s next; Some (s, p)
  end.

(** ** The list and its threads *)

(** A call begins; [it] is the node of the thread's iterator. *)
Definition start (it : Z) (c : call) : pc :=
  match c with
  | CAdd rnd key value => AddStart rnd key value
  | CGet key => SeekStart ForGet key
  | CSeekGE target => SeekStart ForIterator target
  | CFirst => FirstLoad
  | CNext => NextLoad it
  end.

Record thread : Type := mkThread { iter : Z; at_pc : pc }.

Record world : Type := mkWorld { list_of : Skiplist; threads : list thread }.

Inductive event : Type := Inv (t : nat) (c : call) | Res (t : nat) (a : answer).

(** The scheduler's choices: a thread calls, takes a step or returns. *)
Inductive action : Type := Call (t : nat) (c : call) | Step (t : nat) | Reply (t : nat).

Definition set_thread (w : world) (s : Skiplist) (t : nat) (th : thread) : world :=
  mkWorld s (<[t := th]> (threads w)).

Definition exec (w : world) (act : action) : option (world * list event) :=
  match act with
  | Call t c =>
      th ← threads w !! t;
      match at_pc th with
      | Idle => Some (set_thread w (list_of w) t (mkThread (iter th) (start (iter th) c)), [Inv t c])
      | _ => None
      end
  | Step t =>
      th ← threads w !! t;
      '(s, p) ← tstep (list_of w) (at_pc th);
      Some (set_thread w s t (mkThread (iter th) p), [])
  | Reply t =>
      th ← threads w !! t;
      match at_pc th with
      | Return a it =>
          Some (set_thread w (list_of w) t (mkThread (default (iter th) it) Idle), [Res t a])
      | _ => None
      end
  end.

(** A schedule, with the history of calls and returns it produces. *)
Fixpoint execs (w : world) (acts : list action) : option (world * list event) :=
  match acts with
  | [] => Some (w, [])
  | act :: acts =>
      '(w, es) ← exec w act;
      '(w, hs) ← execs w acts;
      Some (w, es ++ hs)
  end.

(** [n] threads that have called nothing yet. *)
Definition idle_threads (n : nat) : list thread := replicate n (mkThread 0 Idle).
