(* ===== verification/SkiplistAtomic.v ===== *)
(** The atomic object that the shared skiplist implements, and the invariant
    that ties the two together: at every moment the arena holds a well-formed
    list [es] (a node counts with the levels linked so far), besides the nodes
    that no thread has linked yet, and the locals of every thread describe a
    place in that list which the steps of the other threads cannot spoil. *)
From stdpp Require Import sorting.
From S2P Require Import Prelude Binary ByteOrder Sorted Arena Skiplist SkiplistMem SkiplistSpec SkiplistSteps.

#[local] Open Scope Z_scope.

(** ** The atomic object *)

(** A call takes effect in one step, at some moment between call and return. *)
Inductive atomic_pc : Type := AIdle | APending (c : call) | ADone (a : answer).

Record athread : Type := mkAThread { a_iter : option pair; a_pc : atomic_pc }.

(** The contents in key order, and the threads with the pair their iterator
    is at. *)
Record aworld : Type := mkAWorld { a_map : list pair; a_threads : list athread }.

Definition after (k : bytes) (M : list pair) : list pair := base.filter (fun p => blt k p.1) M.

(** What a call may answer on contents [M], from iterator position [it]. *)
Inductive takes (M : list pair) (it : option pair) : call -> list pair -> answer -> Prop :=
| take_add rnd k v : ~ has_key k M ->
    takes M it (CAdd rnd k v) (insert_sorted k v M) (Added (Ok tt))
| take_exists rnd k v : has_key k M ->
    takes M it (CAdd rnd k v) M (Added (Err ErrRecordExists))
| take_full rnd k v : takes M it (CAdd rnd k v) M (Added (Err (ErrArena ErrFull)))
| take_get k : takes M it (CGet k) M (Got (assoc k M))
| take_seek t : takes M it (CSeekGE t) M (At (hd_error (suffix_from t M)))
| take_first : takes M it CFirst M (At (hd_error M))
| take_next : takes M it CNext M (At (p ← it; hd_error (after p.1 M))).

(** Where the answer leaves the iterator. *)
Definition moved (a : answer) (it : option pair) : option pair :=
  match a with At p => p | _ => it end.

Definition set_athread (w : aworld) (M : list pair) (t : nat) (th : athread) : aworld :=
  mkAWorld M (<[t := th]> (a_threads w)).

Inductive astep (w : aworld) : list event -> aworld -> Prop :=
| a_call t it c :
    a_threads w !! t = Some (mkAThread it AIdle) ->
    astep w [Inv t c] (set_athread w (a_map w) t (mkAThread it (APending c)))
| a_take t it c M a :
    a_threads w !! t = Some (mkAThread it (APending c)) -> takes (a_map w) it c M a ->
    astep w [] (set_athread w M t (mkAThread it (ADone a)))
| a_reply t it a :
    a_threads w !! t = Some (mkAThread it (ADone a)) ->
    astep w [Res t a] (set_athread w (a_map w) t (mkAThread (moved a it) AIdle)).

Inductive asteps (w : aworld) : list event -> aworld -> Prop :=
| asteps_nil : asteps w [] w
| asteps_cons w' w'' es hs : astep w es w' -> asteps w' hs w'' -> asteps w (es ++ hs) w''.

Definition idle_athreads (n : nat) : list athread := replicate n (mkAThread None AIdle).

Lemma asteps_one w es w' : astep w es w' -> asteps w es w'.
Proof. intros H. rewrite <- (app_nil_r es). econstructor; [exact H|constructor]. Qed.

Lemma asteps_trans w1 w2 w3 h1 h2 : asteps w1 h1 w2 -> asteps w2 h2 w3 -> asteps w1 (h1 ++ h2) w3.
Proof. induction 1; [done|]. intros. rewrite <- app_assoc. econstructor; eauto. Qed.

(** ** The shared state *)

(** The list, its linked nodes in key order, and the nodes not linked yet. *)
Record view : Type := mkView { v_list : Skiplist; v_es : list entry; v_new : list entry }.

Definition v_arena (v : view) : Arena := arena (v_list v).
Definition v_map (v : view) : list pair := contents (v_es v).

Record shared (v : view) : Prop := {
  sh_rep : rep (v_list v) (v_es v);
  sh_layout : layout (v_arena v) (head_entry (v_list v) :: v_es v ++ v_new v);
  sh_new : Forall (fun e => e_h e = 0) (v_new v);
  sh_count : Z.of_nat (length (v_es v) + length (v_new v)) < Arena.n (v_arena v) }.

(** Node [p] is on level [l] before [key]: a place to search [key] from. *)
Definition at_pos (v : view) (key : bytes) (l : nat) (p : Z) : Prop :=
  p = head (v_list v) \/
  exists e, e ∈ v_es v /\ e_off e = p /\ blt (e_key e) key /\ Z.of_nat l < e_h e.

(** Node [next] is behind [key], or none. *)
Definition beyond (v : view) (key : bytes) (next : Z) : Prop :=
  next = 0 \/ exists e, e ∈ v_es v /\ e_off e = next /\ blt key (e_key e).

Definition splice_ok (v : view) (key : bytes) (l : nat) (sp : Z * Z) : Prop :=
  let sp := splice_or_head (v_list v) sp in at_pos v key l sp.1 /\ beyond v key sp.2.

(** The splices of the levels from [lo] on. *)
Definition splices_ok (v : view) (key : bytes) (lo : nat) (spl : splices) : Prop :=
  length spl = Z.to_nat MaxHeight /\
  forall l sp, (lo <= l)%nat -> spl !! l = Some sp -> splice_ok v key l sp.

(** ** The threads *)

Definition iter_ok (v : view) (nd : Z) (p : option pair) : Prop :=
  (nd = 0 /\ p = None) \/
  exists e, e ∈ v_es v /\ e_off e = nd /\ p = Some (e_key e, e_val e).

Definition job_ok (v : view) (j : job) : Prop :=
  1 <= j_height j <= MaxHeight /\ splices_ok v (j_key j) 0 (j_spl j).

(** The thread's own node, linked on [i] levels: the call has taken effect
    when the first one is. *)
Definition owned (v : view) (st : atomic_pc) (j : job) (i : nat) : Prop :=
  exists value,
    let x := mkEntry (j_nd j) (j_key j) value (Z.of_nat i) in
    match i with
    | O => x ∈ v_new v /\ exists rnd, st = APending (CAdd rnd (j_key j) value)
    | S _ => x ∈ v_es v /\ st = ADone (Added (Ok tt))
    end.

Definition linking (v : view) (st : atomic_pc) (j : job) (i : nat) : Prop :=
  job_ok v j /\ owned v st j i /\ Z.of_nat i < j_height j <= height (v_list v).

Definition seek_call (w : seeker) (key : bytes) : call :=
  match w with ForGet => CGet key | ForIterator => CSeekGE key end.

(** What a thread knows where it stands. *)
Definition standing (v : view) (th : thread) (ath : athread) : Prop :=
  let st := a_pc ath in
  iter_ok v (iter th) (a_iter ath) /\
  match at_pc th with
  | Idle => st = AIdle
  | AddStart rnd key value => st = APending (CAdd rnd key value)
  | AddFind rnd key value l prev found spl =>
      st = APending (CAdd rnd key value) /\ Z.of_nat l < MaxHeight /\ at_pos v key l prev /\
      (found = true -> has_key key (v_map v)) /\ (found = false -> splices_ok v key (S l) spl)
  | AddNode rnd key value spl => st = APending (CAdd rnd key value) /\ splices_ok v key 0 spl
  | AddHeight j => job_ok v j /\ owned v st j 0
  | AddGrow j listHeight => job_ok v j /\ owned v st j 0 /\ listHeight < j_height j
  | AddStore j i => linking v st j i
  | AddLink j i prev next =>
      linking v st j i /\ at_pos v (j_key j) i prev /\ beyond v (j_key j) next /\
      getNext (v_arena v) (j_nd j) (Z.of_nat i) = Some next
  | AddFix j i prev => linking v st j i /\ at_pos v (j_key j) i prev
  | SeekStart w key => st = APending (seek_call w key)
  | SeekFind w key l prev =>
      st = APending (seek_call w key) /\ Z.of_nat l < MaxHeight /\ at_pos v key l prev
  | FirstLoad => st = APending CFirst
  | NextLoad nd => st = APending CNext /\ nd = iter th
  | Return a it => st = ADone a /\ iter_ok v (default (iter th) it) (moved a (a_iter ath))
  end.

(** The node only this thread links. *)
Definition own (p : pc) : option Z :=
  match p with
  | AddHeight j | AddGrow j _ | AddStore j _ | AddLink j _ _ _ | AddFix j _ _ => Some (j_nd j)
  | _ => None
  end.

(** What a call will take from the arena, and what it has still to take. *)
Definition cost (c : call) : Z :=
  match c with CAdd _ key value => maxNodeSize + blen key + blen value + 3 | _ => 0 end.

Definition unpaid (p : pc) : Z :=
  match p with
  | AddStart rnd key value | AddFind rnd key value _ _ _ _ | AddNode rnd key value _ =>
      cost (CAdd rnd key value)
  | _ => 0
  end.

(** ** How the shared state changes *)

(** A step that links no other node than [o]: the list only grows, and the
    nodes of the other threads are left alone. *)
Record evolves (o : option Z) (v v' : view) : Prop := {
  ev_head : head (v_list v') = head (v_list v);
  ev_height : height (v_list v) <= height (v_list v');
  ev_grows : forall e, e ∈ v_es v -> exists e', e' ∈ v_es v' /\
    e_off e' = e_off e /\ e_key e' = e_key e /\ e_val e' = e_val e /\ e_h e <= e_h e';
  ev_es : forall x, x ∈ v_es v -> o <> Some (e_off x) -> x ∈ v_es v';
  ev_new : forall x, x ∈ v_new v -> o <> Some (e_off x) -> x ∈ v_new v';
  ev_links : forall x l, x ∈ v_es v ++ v_new v -> o <> Some (e_off x) ->
    e_h x <= l < MaxHeight ->
    getNext (v_arena v') (e_off x) l = getNext (v_arena v) (e_off x) l }.

#[export] Instance evolves_refl o : Reflexive (evolves o).
Proof. intros v. split; try done. intros e He. by exists e. Qed.

Section stable.
Context (o : option Z) (v v' : view) (Hev : evolves o v v').

Lemma at_pos_stable key l p : at_pos v key l p -> at_pos v' key l p.
Proof.
  intros [-> | (e & He & Ho & Hk & Hh)]; [left; by rewrite (ev_head _ _ _ Hev)|right].
  destruct (ev_grows _ _ _ Hev e He) as (e' & ? & ? & E & ? & ?). exists e'. rewrite E.
  split_and!; [done|congruence|done|lia].
Qed.

Lemma beyond_stable key next : beyond v key next -> beyond v' key next.
Proof.
  intros [-> | (e & He & Ho & Hk)]; [by left|right].
  destruct (ev_grows _ _ _ Hev e He) as (e' & ? & ? & E & ? & ?). exists e'. rewrite E.
  split_and!; [done|congruence|done].
Qed.

Lemma iter_ok_stable nd p : iter_ok v nd p -> iter_ok v' nd p.
Proof.
  intros [? | (e & He & Ho & ->)]; [by left|right].
  destruct (ev_grows _ _ _ Hev e He) as (e' & ? & ? & Ek & Ev & ?). exists e'.
  split_and!; [done|congruence|]. by rewrite Ek, Ev.
Qed.

Lemma splices_stable key lo spl : splices_ok v key lo spl -> splices_ok v' key lo spl.
Proof.
  intros [Hl Hs]. split; [done|]. intros l sp Hlo Hsp. destruct (Hs l sp Hlo Hsp) as [Hp Hn].
  unfold splice_ok, splice_or_head in *. rewrite (ev_head _ _ _ Hev).
  split; [by apply at_pos_stable|by apply beyond_stable].
Qed.

Lemma has_key_stable key : has_key key (v_map v) -> has_key key (v_map v').
Proof.
  unfold v_map. rewrite !has_key_elem. intros (e & He & <-).
  destruct (ev_grows _ _ _ Hev e He) as (e' & ? & _ & Ek & _). by exists e'.
Qed.

Lemma owned_stable st j i : o <> Some (j_nd j) -> owned v st j i -> owned v' st j i.
Proof.
  intros Ho (value & H). exists value. destruct i; destruct H as [Hx Hst]; (split; [|done]).
  - by eapply ev_new.
  - by eapply ev_es.
Qed.

Lemma job_ok_stable j : job_ok v j -> job_ok v' j.
Proof. intros [? ?]. split; [done|by apply splices_stable]. Qed.

Lemma linking_stable st j i : o <> Some (j_nd j) -> linking v st j i -> linking v' st j i.
Proof.
  intros Ho (Hj & Hw & Hh). split; [by apply job_ok_stable|]. split; [by apply owned_stable|].
  pose proof (ev_height _ _ _ Hev). lia.
Qed.

(** The own links above the linked levels. *)
Lemma own_link_stable st j i next :
  o <> Some (j_nd j) -> linking v st j i ->
  getNext (v_arena v) (j_nd j) (Z.of_nat i) = Some next ->
  getNext (v_arena v') (j_nd j) (Z.of_nat i) = Some next.
Proof.
  intros Ho ((Hh & _) & (value & Hw) & Hi) <-.
  pose proof (ev_links _ _ _ Hev (mkEntry (j_nd j) (j_key j) value (Z.of_nat i)) (Z.of_nat i)) as E.
  cbn [e_off e_h] in E. apply E; [|done|lia]. apply elem_of_app. destruct i; destruct Hw as [Hw _]; auto.
Qed.
End stable.

#[export] Hint Resolve at_pos_stable beyond_stable iter_ok_stable splices_stable has_key_stable
  job_ok_stable linking_stable owned_stable : iw.

(** What a thread knows survives the steps of the others. *)
Lemma standing_stable o v v' th ath :
  evolves o v v' -> (forall x, own (at_pc th) = Some x -> o <> Some x) ->
  standing v th ath -> standing v' th ath.
Proof.
  intros Hev Ho [Hit Hst]. split; [by eapply iter_ok_stable|].
  destruct (at_pc th); cbn [own] in Ho; try specialize (Ho _ eq_refl); try done;
    destruct_and?; split_and?; eauto with iw.
  all: intros; eauto using own_link_stable with iw.
Qed.
