(* ===== verification/SkiplistMeasure.v ===== *)
(** A measure for the shared skiplist: what its threads can still do without
    new calls.  A compare-and-swap that succeeds uses up one of finitely many
    links (or raises the height); any other step brings its own thread closer
    to its next compare-and-swap or its return, and changes nothing that the
    other threads are waiting for.  A compare-and-swap can fail only because
    another one has succeeded since. *)
From stdpp Require Import sorting.
From S2P Require Import Prelude Binary ByteOrder Sorted Arena Skiplist SkiplistMem SkiplistSpec SkiplistSteps SkiplistAtomic.

#[local] Open Scope Z_scope.

(** ** Sums over the threads *)

Fixpoint sum_of {A} (f : A -> Z) (l : list A) : Z :=
  match l with [] => 0 | x :: l => f x + sum_of f l end.

Lemma sum_of_insert {A} (f : A -> Z) l t x y :
  l !! t = Some x -> sum_of f (<[t := y]> l) = sum_of f l - f x + f y.
Proof.
  revert t. induction l as [|z l IH]; intros [|t] H; try done.
  - injection H as ->. cbn. lia.
  - change (<[S t := y]> (z :: l)) with (z :: <[t := y]> l). cbn [sum_of]. rewrite (IH t H). lia.
Qed.

Lemma sum_of_pos {A} (f : A -> Z) l : (forall x, x ∈ l -> 0 <= f x) -> 0 <= sum_of f l.
Proof.
  induction l as [|x l IH]; cbn; intros H; [done|]. pose proof (H x ltac:(by left)).
  specialize (IH ltac:(intros y Hy; apply H; by right)). lia.
Qed.

Lemma sum_of_ext {A} (f g : A -> Z) l : (forall x, x ∈ l -> f x = g x) -> sum_of f l = sum_of g l.
Proof.
  induction l as [|x l IH]; cbn; intros H; [done|]. rewrite (H x) by (by left).
  rewrite IH; [done|]. intros y Hy. apply H. by right.
Qed.

(** ** The measure *)

(** The links a thread may still make. *)
Definition rem (p : pc) : Z :=
  match p with
  | AddStart _ _ _ | AddFind _ _ _ _ _ _ _ | AddNode _ _ _ _ => MaxHeight
  | AddHeight j | AddGrow j _ => j_height j
  | AddStore j i | AddLink j i _ _ | AddFix j i _ => j_height j - Z.of_nat i
  | _ => 0
  end.

(** With the times the height may still be raised. *)
Definition credit (v : view) (p : pc) : Z := MaxHeight - height (v_list v) + rem p.

(** The entries of the list behind the node [p]. *)
Fixpoint behind (p : Z) (es : list entry) : Z :=
  match es with
  | [] => 0
  | e :: es => if e_off e =? p then Z.of_nat (length es) else behind p es
  end.

Definition dist (v : view) (p : Z) : Z :=
  if p =? head (v_list v) then Z.of_nat (length (v_es v)) else behind p (v_es v).

(** The splice is up to date: a compare-and-swap would succeed. *)
Definition fresh (v : view) (i : nat) (sp : Z * Z) : bool :=
  bool_decide (getNext (v_arena v) sp.1 (Z.of_nat i) = Some sp.2).

(** A bound of the thread's own steps up to its next successful
    compare-and-swap. *)
Definition loc (v : view) (p : pc) : Z :=
  let m := Z.of_nat (length (v_es v)) + 1 in
  match p with
  | Idle => 0
  | Return _ _ => 1
  | AddStart _ _ _ => m + 10 + (MaxHeight + 1) * m
  | AddFind _ _ _ l prev _ _ => m + 10 + (Z.of_nat l + 1) * m + dist v prev
  | AddNode _ _ _ _ => m + 9
  | AddHeight _ => m + 7
  | AddGrow _ listHeight => if height (v_list v) =? listHeight then m + 6 else m + 8
  | AddStore j i =>
      match j_spl j !! i with
      | Some sp => if fresh v i (splice_or_head (v_list v) sp) then 2 else m + 5
      | None => 0
      end
  | AddLink _ i prev next => if fresh v i (prev, next) then 1 else m + 4
  | AddFix _ _ prev => 3 + dist v prev
  | SeekStart _ _ => 2 + (MaxHeight + 1) * m
  | SeekFind _ _ l prev => 2 + (Z.of_nat l + 1) * m + dist v prev
  | FirstLoad | NextLoad _ => 2
  end.

(** Nothing linked has changed. *)
Record quiet (v v' : view) : Prop := {
  qu_head : head (v_list v') = head (v_list v);
  qu_height : height (v_list v') = height (v_list v);
  qu_es : v_es v' = v_es v;
  qu_links : forall e l, e ∈ head_entry (v_list v) :: v_es v -> 0 <= l < e_h e -> l < MaxHeight ->
    getNext (v_arena v') (e_off e) l = getNext (v_arena v) (e_off e) l }.

#[export] Instance quiet_refl : Reflexive quiet.
Proof. by intros v. Qed.

(** What a step achieves. *)
Definition progress (v v' : view) (p p' : pc) : Prop :=
  credit v' p' < credit v p \/ (quiet v v' /\ rem p' <= rem p /\ loc v' p' < loc v p).

(** ** Distances *)

Lemma behind_bounds p es : 0 <= behind p es <= Z.of_nat (length es).
Proof. induction es as [|e es IH]; cbn [behind length]; [lia|]. case_match; lia. Qed.

Lemma dist_bounds v p : 0 <= dist v p <= Z.of_nat (length (v_es v)).
Proof. unfold dist. case_match; [lia|apply behind_bounds]. Qed.

Lemma behind_split A e B :
  (forall x, x ∈ A -> e_off x <> e_off e) -> behind (e_off e) (A ++ e :: B) = Z.of_nat (length B).
Proof.
  induction A as [|x A IH]; cbn; intros HA; [by rewrite Z.eqb_refl|].
  rewrite (proj2 (Z.eqb_neq _ _)) by (apply HA; by left). apply IH. intros y Hy. apply HA. by right.
Qed.

Lemma loc_pos v p : 0 <= loc v p.
Proof.
  unfold loc, MaxHeight. destruct p; repeat case_match; try lia; pose proof (dist_bounds v prev); lia.
Qed.

Section dist.
Context (v : view) (Hs : shared v).

#[local] Notation es := (v_es v).

Lemma es_split A e B :
  es = A ++ e :: B ->
  (forall x, x ∈ A -> blt (e_key x) (e_key e)) /\ (forall x, x ∈ B -> blt (e_key e) (e_key x)).
Proof.
  intros E. pose proof (rep_sorted _ _ (sh_rep _ Hs)) as Hsort. rewrite E, fmap_app, fmap_cons in Hsort.
  apply StronglySorted_app in Hsort as (HA & _ & HB). apply StronglySorted_inv in HB as [_ HB].
  rewrite Forall_fmap, Forall_forall in HB. split; [|done].
  intros x Hx. apply HA; [by apply list_elem_of_fmap_2|by left].
Qed.

Lemma es_off_inj x y : x ∈ head_entry (v_list v) :: es -> y ∈ head_entry (v_list v) :: es ->
  e_off x = e_off y -> x = y.
Proof.
  intros Hx Hy E. destruct (pairs_elem _ x y (lay_apart _ _ (rep_layout _ _ (sh_rep _ Hs))) Hx Hy) as [|H]; [done|].
  by apply apart_off in H.
Qed.

Lemma off_not_head e : e ∈ es -> e_off e <> head (v_list v).
Proof.
  intros He E. pose proof (lay_apart _ _ (rep_layout _ _ (sh_rep _ Hs))) as Hp.
  inversion Hp as [|? ? Ha _]; subst. rewrite List.Forall_forall in Ha.
  specialize (Ha e). rewrite <- list_elem_of_In in Ha. specialize (Ha He). apply apart_off in Ha. by apply Ha.
Qed.

Lemma dist_split A e B : es = A ++ e :: B -> dist v (e_off e) = Z.of_nat (length B).
Proof.
  intros E. destruct (es_split A e B E) as [HA _]. assert (He : e ∈ es) by (rewrite E; set_solver).
  unfold dist. rewrite (proj2 (Z.eqb_neq _ _)) by (by apply off_not_head). rewrite E. apply behind_split.
  intros x Hx Eo. specialize (HA x Hx). rewrite (es_off_inj x e) in HA; [by apply blt_irrefl in HA| |by right|done].
  right. rewrite E. set_solver.
Qed.

(** Advancing brings a search closer to the end of the list. *)
Lemma dist_head e : e ∈ es -> dist v (e_off e) < dist v (head (v_list v)).
Proof.
  intros He. pose proof He as (A & B & E)%list_elem_of_split. rewrite (dist_split A e B E).
  unfold dist. rewrite Z.eqb_refl, E, length_app. cbn. lia.
Qed.

Lemma dist_next e e' : e ∈ es -> e' ∈ es -> blt (e_key e) (e_key e') -> dist v (e_off e') < dist v (e_off e).
Proof.
  intros He He' Hlt. pose proof He as (A & B & E)%list_elem_of_split. rewrite (dist_split A e B E).
  destruct (es_split A e B E) as [HA _]. assert (Hin : e' ∈ B).
  { rewrite E in He'. apply elem_of_app in He' as [H|[->|H]%elem_of_cons]; [|by apply blt_irrefl in Hlt|done].
    destruct (blt_irrefl (e_key e)). eapply blt_trans; [exact Hlt|auto]. }
  apply list_elem_of_split in Hin as (B1 & B2 & EB). rewrite EB in E.
  rewrite (dist_split (A ++ e :: B1) e' B2) by (by rewrite E, <- app_assoc). rewrite EB, length_app. cbn. lia.
Qed.
End dist.

(** ** Other threads' quiet steps *)

Lemma quiet_link v v' key i p :
  quiet v v' -> at_pos v key i p -> Z.of_nat i < MaxHeight ->
  getNext (v_arena v') p (Z.of_nat i) = getNext (v_arena v) p (Z.of_nat i).
Proof.
  intros Hq [-> | (e & He & <- & _ & Hh)] Hi.
  - apply (qu_links _ _ Hq (head_entry (v_list v))); [by left|cbn; lia|done].
  - apply (qu_links _ _ Hq e); [by right|lia|done].
Qed.

Lemma quiet_fresh v v' key i sp :
  quiet v v' -> at_pos v key i sp.1 -> Z.of_nat i < MaxHeight -> fresh v' i sp = fresh v i sp.
Proof. intros. unfold fresh. by erewrite quiet_link. Qed.

Lemma loc_quiet v v' th ath : quiet v v' -> standing v th ath -> loc v' (at_pc th) = loc v (at_pc th).
Proof.
  intros Hq [_ Hst]. assert (Hd : forall p, dist v' p = dist v p).
  { intros p. unfold dist. by rewrite (qu_head _ _ Hq), (qu_es _ _ Hq). }
  destruct (at_pc th) as [| | | | | |j i|j i prev next| | | | | |]; unfold loc;
    rewrite ?Hd, ?(qu_es _ _ Hq), ?(qu_height _ _ Hq); try done.
  - destruct (j_spl j !! i) as [sp|] eqn:E; [|done]. cbn in Hst. destruct Hst as ((Hj & _ & Hok) & _ & Hi).
    destruct (Hok i sp ltac:(lia) E) as [Hp _]. unfold splice_or_head in *. rewrite (qu_head _ _ Hq).
    by rewrite (quiet_fresh v v' (j_key j) i _ Hq Hp ltac:(lia)).
  - cbn in Hst. destruct Hst as (((Hj & _) & _ & Hi) & Hp & _).
    by rewrite (quiet_fresh v v' (j_key j) i (prev, next) Hq Hp ltac:(lia)).
Qed.
