(* ===== verification/SkiplistReads.v ===== *)
(** Searching the shared skiplist while it changes: the steps of its threads
    that only read keep the invariant of SkiplistAtomic.v, and those that end a
    call take effect on the atomic object. *)
From stdpp Require Import sorting.
From S2P Require Import Prelude Binary ByteOrder Sorted Arena Skiplist SkiplistMem SkiplistSpec SkiplistSteps SkiplistAtomic SkiplistMeasure.

#[local] Open Scope Z_scope.

Lemma sorted_sublist (L L' : list entry) :
  L `sublist_of` L' -> StronglySorted blt (e_key <$> L') -> StronglySorted blt (e_key <$> L).
Proof.
  induction 1 as [|x L L' Hl IH|x L L' Hl IH]; cbn; [done| |]; intros [Hs Hx]%StronglySorted_inv; [|auto].
  constructor; [auto|]. rewrite Forall_fmap, Forall_forall in *. intros y Hy. apply Hx.
  by eapply sublist_subseteq.
Qed.

Lemma below_from_app key A B :
  Forall (fun e => blt (e_key e) key) A -> Forall (fun e => ble key (e_key e)) B ->
  below key (A ++ B) = A /\ from key (A ++ B) = B.
Proof.
  unfold below, from. rewrite !Forall_forall. intros HA HB. rewrite !filter_app.
  rewrite (filter_all _ A), (filter_none _ B), (filter_none _ A), (filter_all _ B), app_nil_r; try done.
  - intros e He. apply (proj2 (not_ble _ _)). by apply HA.
  - intros e He. apply (proj2 (not_blt _ _)). by apply HB.
Qed.

Lemma at_level_below key l es : at_level l (below key es) = below key (at_level l es).
Proof. unfold at_level, below. rewrite !list_filter_filter. apply list_filter_iff. tauto. Qed.

Lemma at_level_from key l es : at_level l (from key es) = from key (at_level l es).
Proof. unfold at_level, from. rewrite !list_filter_filter. apply list_filter_iff. tauto. Qed.

(** ** Searching a list that changes *)

Section search.
Context (v : view) (Hs : shared v) (key : bytes).

#[local] Notation es := (v_es v).
#[local] Notation s := (v_list v).

(** A place before the key splits its level. *)
Lemma at_pos_split l p :
  at_pos v key l p ->
  exists A B, at_level (Z.of_nat l) es = A ++ B /\ lastof (head s) A = p /\
    Forall (fun e => blt (e_key e) key) A.
Proof.
  intros [-> | (e & He & <- & Hk & Hh)]; [by exists [], (at_level (Z.of_nat l) es)|].
  assert (Hin : e ∈ at_level (Z.of_nat l) es) by (unfold at_level; by apply list_elem_of_filter).
  apply list_elem_of_split in Hin as (A & B & E). exists (A ++ [e]), B.
  split; [by rewrite <- app_assoc|]. rewrite lastof_app. split; [done|].
  apply Forall_app. split; [|by repeat constructor].
  assert (Hsort : StronglySorted blt (e_key <$> at_level (Z.of_nat l) es)).
  { eapply sorted_sublist; [apply at_level_sublist|apply (rep_sorted _ _ (sh_rep _ Hs))]. }
  rewrite E, fmap_app, fmap_cons in Hsort. apply Forall_forall. intros x Hx.
  apply StronglySorted_app in Hsort as (Hsort & _). specialize (Hsort (e_key x) (e_key e)).
  eapply blt_trans; [apply Hsort|exact Hk]; [by apply list_elem_of_fmap_2|by left].
Qed.

Lemma at_pos_node l p : at_pos v key l p -> exists e, e ∈ head_entry s :: es /\ e_off e = p.
Proof.
  intros [-> | (e & He & <- & _)]; [by exists (head_entry s); split; [left|]|].
  exists e. split; [by right|done].
Qed.

Lemma es_node e : e ∈ head_entry s :: es -> node_ok (arena s) e.
Proof. apply layout_node, (rep_layout _ _ (sh_rep _ Hs)). Qed.

(** The link loaded at a place before the key leads to the rest of the level. *)
Lemma load_split l p :
  at_pos v key l p -> Z.of_nat l < MaxHeight ->
  exists A B, at_level (Z.of_nat l) es = A ++ B /\ lastof (head s) A = p /\
    Forall (fun e => blt (e_key e) key) A /\ getNode (arena s) p = Some p /\
    getNext (arena s) p (Z.of_nat l) = Some (headof B).
Proof.
  intros Hp Hl. destruct (at_pos_split l p Hp) as (A & B & E & Hlast & HA). exists A, B.
  split_and!; [done..| |].
  - destruct (at_pos_node l p Hp) as (e & He & <-). by eapply node_ok_off, es_node.
  - pose proof (rep_chain _ _ (sh_rep _ Hs) (Z.of_nat l) ltac:(lia)) as Hc. fold s es in Hc.
    rewrite E, chain_app in Hc. destruct Hc as [_ Hc]. rewrite <- Hlast. by apply chain_next.
Qed.

Lemma stop_at_spec B :
  (forall e, e ∈ B -> e ∈ es) ->
  stop_at (arena s) key (headof B) =
    Some (match B with
          | [] => Some false
          | e :: _ => if bool_decide (ble key (e_key e)) then Some (bool_decide (key = e_key e)) else None
          end).
Proof.
  intros HB. destruct B as [|e B]; [done|]. assert (He : e ∈ es) by (apply HB; by left).
  pose proof (es_node e ltac:(by right)) as Hn. destruct (node_ok_off _ _ Hn) as [Hne Hg].
  unfold stop_at, headof. cbn. rewrite (proj2 (Z.eqb_neq _ _)), Hg by done. cbn.
  rewrite (node_at_getKey _ _ _ _ (proj1 Hn)). cbn. by rewrite compareKeys_le, compareKeys_eq0.
Qed.

(** The last place of a level before the key, with what follows. *)
Lemma level_splice_split l A B :
  at_level (Z.of_nat l) es = A ++ B ->
  Forall (fun e => blt (e_key e) key) A -> match B with e :: _ => ble key (e_key e) | [] => True end ->
  at_level (Z.of_nat l) (below key es) = A /\ at_level (Z.of_nat l) (from key es) = B.
Proof.
  intros E HA HB. rewrite at_level_below, at_level_from, E. apply below_from_app; [done|].
  destruct B as [|e B]; [done|]. constructor; [done|].
  assert (Hsort : StronglySorted blt (e_key <$> at_level (Z.of_nat l) es)).
  { eapply sorted_sublist; [apply at_level_sublist|apply (rep_sorted _ _ (sh_rep _ Hs))]. }
  rewrite E, fmap_app in Hsort. apply StronglySorted_app in Hsort as (_ & _ & Hsort).
  cbn in Hsort. apply StronglySorted_inv in Hsort as [_ Hsort]. rewrite Forall_fmap in Hsort.
  eapply Forall_impl; [exact Hsort|]. cbn. eauto with iw.
Qed.

(** The node a level's first part ends with is its last entry. *)
Lemma at_level_last A B l e :
  at_level (Z.of_nat l) es = A ++ B -> e ∈ es -> Z.of_nat l < e_h e -> lastof (head s) A = e_off e ->
  exists A', A = A' ++ [e].
Proof.
  intros E He Hh Hlast. destruct A as [|x A _] using rev_ind.
  - by destruct (off_not_head v Hs e He).
  - rewrite lastof_app in Hlast. change (e_off x = e_off e) in Hlast. exists A. do 2 f_equal.
    assert (Hx : x ∈ es) by (apply (at_level_elem (Z.of_nat l)); rewrite E; set_solver).
    apply (es_off_inj v Hs); [by right|by right|done].
Qed.

(** One iteration of a search loop: it advances, or ends at the splice. *)
Lemma search_here l p :
  at_pos v key l p -> Z.of_nat l < MaxHeight ->
  exists next stop, load_next (arena s) p l = Some next /\ stop_at (arena s) key next = Some stop /\
    match stop with
    | None => at_pos v key l next /\ dist v next < dist v p
    | Some eq => (p, next) = level_splice s es key (Z.of_nat l) /\
        if eq then exists e, e ∈ es /\ e_key e = key /\ Z.of_nat l < e_h e else beyond v key next
    end.
Proof.
  intros Hp Hl. destruct (load_split l p Hp Hl) as (A & B & E & Hlast & HA & Hg & Hn).
  assert (HB : forall e, e ∈ B -> e ∈ es /\ Z.of_nat l < e_h e).
  { intros e He. apply at_level_elem. rewrite E. apply elem_of_app. by right. }
  eexists _, _. split; [unfold load_next; by rewrite Hg|].
  split; [apply stop_at_spec; intros e He; by apply HB|].
  pose proof (level_splice_split l A B E HA) as Hsp. unfold level_splice.
  destruct B as [|e B]; [destruct (Hsp I) as [-> ->]; rewrite Hlast; split; [done|by left]|].
  destruct (HB e ltac:(by left)) as [He Hh]. case_bool_decide as Hle.
  - destruct (Hsp Hle) as [-> ->]. rewrite Hlast. split; [done|]. case_bool_decide as Heq; [by exists e|].
    right. exists e. split_and!; [done..|]. apply ble_lteq in Hle as [?|?]; done.
  - apply not_ble in Hle. split; [right; by exists e|]. change (headof (e :: B)) with (e_off e).
    destruct Hp as [-> | (e0 & He0 & <- & Hk0 & Hh0)]; [by apply dist_head|].
    apply dist_next; [done..|].
    destruct (at_level_last A (e :: B) l e0 E He0 Hh0 Hlast) as (A' & ->).
    assert (Hsort : StronglySorted blt (e_key <$> at_level (Z.of_nat l) es)).
    { eapply sorted_sublist; [apply at_level_sublist|apply (rep_sorted _ _ (sh_rep _ Hs))]. }
    rewrite E, fmap_app in Hsort. apply StronglySorted_app in Hsort as (Hsort & _).
    apply Hsort; [|by left]. rewrite fmap_app. set_solver.
Qed.
End search.

(** ** What a step has to do *)

(** A thread moves on without effect, or its call takes effect. *)
Definition effect (v v' : view) (ath ath' : athread) : Prop :=
  (ath' = ath /\ v_map v' = v_map v) \/
  exists c a, a_pc ath = APending c /\ ath' = mkAThread (a_iter ath) (ADone a) /\
    takes (v_map v) (a_iter ath) c (v_map v') a.

(** About to report a full arena. *)
Definition full_at (p : pc) : bool :=
  match p with Return (Added (Err (ErrArena ErrFull))) _ => true | _ => false end.

Record stepped (v v' : view) (th : thread) (p' : pc) (ath ath' : athread) : Prop := {
  st_shared : shared v';
  st_evolves : evolves (own (at_pc th)) v v';
  st_standing : standing v' (mkThread (iter th) p') ath';
  st_effect : effect v v' ath ath';
  st_own : forall x, own p' = Some x -> own (at_pc th) = Some x \/ Arena.n (v_arena v) <= x;
  st_paid : unpaid p' <= unpaid (at_pc th) /\
    Arena.n (v_arena v') + unpaid p' <= Arena.n (v_arena v) + unpaid (at_pc th);
  st_cap : blen (abuf (v_arena v')) = blen (abuf (v_arena v));
  st_progress : progress v v' (at_pc th) p';
  st_full : full_at p' = true -> blen (abuf (v_arena v')) < Arena.n (v_arena v') }.

Definition steps_to (v : view) (th : thread) (ath : athread) : Prop :=
  exists v' p' ath', tstep (v_list v) (at_pc th) = Some (v_list v', p') /\ stepped v v' th p' ath ath'.

(** A step that only reads. *)
Lemma read_step v th ath p' ath' :
  shared v -> tstep (v_list v) (at_pc th) = Some (v_list v, p') ->
  standing v (mkThread (iter th) p') ath' -> effect v v ath ath' ->
  (own p' = None \/ own p' = own (at_pc th)) -> unpaid p' <= unpaid (at_pc th) ->
  full_at p' = false -> rem p' <= rem (at_pc th) /\ loc v p' < loc v (at_pc th) ->
  steps_to v th ath.
Proof.
  intros Hs Ht Hst He Ho Hu Hf Hm. exists v, p', ath'. split; [done|].
  split; [done|reflexivity|done|done| |lia|done|by right|congruence].
  intros x Hx. left. destruct Ho as [Ho|Ho]; congruence.
Qed.

Lemma effect_none v ath : effect v v ath ath.
Proof. by left. Qed.

Lemma effect_take v ath c a :
  a_pc ath = APending c -> takes (v_map v) (a_iter ath) c (v_map v) a ->
  effect v v ath (mkAThread (a_iter ath) (ADone a)).
Proof. intros. right. eauto. Qed.

Lemma cost_pos c : 0 <= cost c.
Proof.
  destruct c; cbn; try lia. pose proof (blen_nonneg key). pose proof (blen_nonneg value).
  unfold maxNodeSize. lia.
Qed.

Lemma at_pos_head v key l : at_pos v key l (head (v_list v)).
Proof. by left. Qed.

Lemma at_pos_down v key l l' p : (l' <= l)%nat -> at_pos v key l p -> at_pos v key l' p.
Proof. intros Hl [-> | (e & ? & ? & ? & ?)]; [by left|right; exists e; split_and!; [done..|lia]]. Qed.

#[export] Hint Resolve effect_none at_pos_head : iw.

(** ** Iterators and [Get] *)

Section reads.
Context (v : view) (Hs : shared v).

#[local] Notation es := (v_es v).
#[local] Notation s := (v_list v).

Lemma show_head L :
  (forall e, e ∈ L -> e ∈ es) ->
  show s (headof L) = Some (hd_error (contents L)) /\ iter_ok v (headof L) (hd_error (contents L)).
Proof.
  intros HL. destruct L as [|e L]; [split; [done|by left]|].
  assert (He : e ∈ es) by (apply HL; by left).
  pose proof (es_node v Hs e ltac:(by right)) as Hn. destruct (node_ok_off _ _ Hn) as [Hne Hg].
  split; [|right; by exists e]. unfold show, Valid, Key, Value, headof. cbn.
  rewrite (proj2 (Z.eqb_neq _ _)) by done. fold s in Hg. rewrite Hg. cbn. fold s in Hn.
  rewrite (node_at_getKey _ _ _ _ (proj1 Hn)). cbn. by rewrite (node_at_getValue _ _ _ _ (proj1 Hn)).
Qed.

Lemma move_head L it p :
  (forall e, e ∈ L -> e ∈ es) ->
  move_to s (headof L) = Some (Return (At (hd_error (contents L))) (Some (headof L))) /\
  iter_ok v (default it (Some (headof L))) (moved (At (hd_error (contents L))) p).
Proof. intros HL. destruct (show_head L HL) as [E H]. unfold move_to. by rewrite E. Qed.

Lemma seek_end_spec w key it ait :
  iter_ok v it ait ->
  exists a it', seek_end s w key (headof (from key es)) = Some (Return a it') /\
    takes (v_map v) ait (seek_call w key) (v_map v) a /\
    iter_ok v (default it it') (moved a ait).
Proof.
  intros Hit. assert (HL : forall e, e ∈ from key es -> e ∈ es) by apply from_sub.
  assert (Hasc : ascending (contents es)) by (eapply rep_contents_sorted, (sh_rep _ Hs)).
  destruct w; cbn [seek_end seek_call].
  2: { destruct (move_head (from key es) it ait HL) as [-> H]. eexists _, _. split_and!; [done| |done].
       rewrite contents_from. apply take_seek. }
  pose proof (take_get (v_map v) ait key) as Ht.
  assert (E : assoc key (v_map v) = match contents (from key es) with
    | (k', x) :: _ => if bool_decide (k' = key) then Some x else None | [] => None end)
    by (rewrite contents_from; by apply assoc_suffix).
  rewrite E in Ht. clear E.
  destruct (from key es) as [|e L]; [by eexists _, _|]. assert (He : e ∈ es) by (apply HL; by left).
  pose proof (es_node v Hs e ltac:(by right)) as Hn. destruct (node_ok_off _ _ Hn) as [Hne Hg].
  fold s in Hn, Hg. unfold headof. cbn. rewrite (proj2 (Z.eqb_neq _ _)), Hg by done. cbn.
  rewrite (node_at_getKey _ _ _ _ (proj1 Hn)). cbn. rewrite compareKeys_eq0. cbn in Ht.
  rewrite (bool_decide_ext (e_key e = key) (key = e_key e)) in Ht by done.
  case_bool_decide; [rewrite (node_at_getValue _ _ _ _ (proj1 Hn)); cbn|]; by eexists _, _.
Qed.

(** The pairs behind a node. *)
Lemma after_split A e B :
  StronglySorted blt (e_key <$> (A ++ e :: B)) ->
  after (e_key e) (contents (A ++ e :: B)) = contents B.
Proof.
  intros Hsort. rewrite fmap_app, fmap_cons in Hsort.
  apply StronglySorted_app in Hsort as (HA & _ & Hsort). apply StronglySorted_inv in Hsort as [_ HB].
  rewrite Forall_fmap, Forall_forall in HB.
  unfold after, contents. rewrite fmap_app, fmap_cons, filter_app, filter_cons. cbn.
  rewrite decide_False by apply blt_irrefl.
  assert (base.filter (fun p => blt (e_key e) p.1) ((fun e => (e_key e, e_val e)) <$> A) = []) as ->.
  { apply filter_none. intros p (x & -> & Hx)%list_elem_of_fmap Hlt. cbn in Hlt.
    apply (blt_irrefl (e_key x)). eapply blt_trans; [|exact Hlt].
    apply HA; [by apply list_elem_of_fmap_2|by left]. }
  cbn. apply filter_all. intros p (x & -> & Hx)%list_elem_of_fmap. by apply HB.
Qed.
End reads.

(** ** The steps that only read *)

Section read_steps.
Context (v : view) (Hs : shared v) (it : Z) (ath : athread).
Hypothesis Hit : iter_ok v it (a_iter ath).

Lemma map_has_key key : (exists e, e ∈ v_es v /\ e_key e = key) -> has_key key (v_map v).
Proof. unfold v_map. by rewrite has_key_elem. Qed.

Lemma splices_insert key l p spl :
  (Z.of_nat l < MaxHeight) -> splices_ok v key (S l) spl -> at_pos v key l p.1 -> beyond v key p.2 ->
  splices_ok v key l (<[l := p]> spl).
Proof.
  intros Hl [Hlen Hok] Hp Hn. split; [by rewrite length_insert|]. intros m sp Hm Hsp.
  destruct (decide (m = l)) as [->|Hne].
  - rewrite list_lookup_insert_eq in Hsp by (rewrite Hlen; unfold MaxHeight in *; lia).
    injection Hsp as <-. unfold splice_ok, splice_or_head. case_match eqn:E; [|done].
    split; [by left|by left].
  - rewrite list_lookup_insert_ne in Hsp by done. apply Hok; [lia|done].
Qed.

Lemma no_splices_from key k : splices_ok v key k no_splices.
Proof.
  split; [done|]. intros l sp _ Hsp. apply lookup_replicate in Hsp as [-> _].
  split; by left.
Qed.

(** The head of the loop over the levels of [findSplice]. *)
Lemma add_levels_ok rnd key value k prev found spl :
  a_pc ath = APending (CAdd rnd key value) -> Z.of_nat k <= MaxHeight ->
  (forall l, (l < k)%nat -> at_pos v key l prev) ->
  (found = true -> has_key key (v_map v)) -> (found = false -> splices_ok v key k spl) ->
  exists ath', standing v (mkThread it (add_levels rnd key value k prev found spl)) ath' /\
    effect v v ath ath'.
Proof.
  intros Ha Hk Hp Hf Hsp. destruct k as [|k]; cbn [add_levels].
  - destruct found.
    + exists (mkAThread (a_iter ath) (ADone (Added (Err ErrRecordExists)))). split; [by split|].
      eapply effect_take; [done|]. apply take_exists. auto.
    + exists ath. split; [split; [done|by split; auto]|apply effect_none].
  - exists ath. split; [|apply effect_none]. split; [done|]. cbn. split_and!; [done|lia|auto..].
Qed.

Lemma add_levels_own rnd key value k prev found spl : own (add_levels rnd key value k prev found spl) = None.
Proof. by destruct k, found. Qed.

Lemma add_levels_unpaid rnd key value k prev found spl :
  unpaid (add_levels rnd key value k prev found spl) <= cost (CAdd rnd key value).
Proof. pose proof (cost_pos (CAdd rnd key value)). destruct k, found; cbn in *; lia. Qed.

#[local] Notation m := (Z.of_nat (length (v_es v)) + 1).

Lemma add_levels_measure rnd key value k prev found spl :
  rem (add_levels rnd key value k prev found spl) <= MaxHeight /\
  loc v (add_levels rnd key value k prev found spl) <= m + 10 + Z.of_nat k * m + dist v prev.
Proof.
  pose proof (dist_bounds v prev). destruct k as [|k]; cbn [add_levels].
  - destruct found; cbn [rem loc]; unfold MaxHeight; lia.
  - cbn [rem loc]. unfold MaxHeight. lia.
Qed.

Lemma height_nat : (1 <= Z.to_nat (height (v_list v)))%nat /\ Z.of_nat (Z.to_nat (height (v_list v))) <= MaxHeight.
Proof. pose proof (rep_height _ _ (sh_rep _ Hs)). lia. Qed.

Lemma add_start_ok rnd key value :
  standing v (mkThread it (AddStart rnd key value)) ath ->
  steps_to v (mkThread it (AddStart rnd key value)) ath.
Proof.
  intros [_ Ha]. cbn in Ha.
  destruct (add_levels_ok rnd key value (Z.to_nat (height (v_list v))) (head (v_list v)) false no_splices)
    as (ath' & Hst & He); [done|apply height_nat|by left|done|intros _; apply no_splices_from|].
  destruct (add_levels_measure rnd key value (Z.to_nat (height (v_list v))) (head (v_list v)) false no_splices) as [Hr Hm].
  eapply read_step; [done|reflexivity|exact Hst|exact He|left; apply add_levels_own|apply add_levels_unpaid| |].
  - by destruct (Z.to_nat _).
  - split; [exact Hr|]. eapply Z.le_lt_trans; [exact Hm|]. pose proof (dist_bounds v (head (v_list v))).
    pose proof height_nat as [_ Hh]. cbn [loc at_pc]. unfold MaxHeight in *. nia.
Qed.

Lemma add_find_ok rnd key value l prev found spl :
  standing v (mkThread it (AddFind rnd key value l prev found spl)) ath ->
  steps_to v (mkThread it (AddFind rnd key value l prev found spl)) ath.
Proof.
  intros (_ & Ha & Hl & Hp & Hf & Hsp).
  destruct (search_here v Hs key l prev Hp Hl) as (next & stop & E1 & E2 & Hstop).
  destruct stop as [eq|].
  - destruct Hstop as [_ Heq].
    destruct (add_levels_ok rnd key value l prev (found || eq) (<[l := (prev, next)]> spl))
      as (ath' & Hst & He); [done|lia| | | |].
    + intros m Hm. eapply at_pos_down; [|exact Hp]. lia.
    + intros [Hb| ->]%orb_true_iff; [auto|]. apply map_has_key. destruct Heq as (e & ? & ? & _). eauto.
    + intros [-> ->]%orb_false_iff. apply splices_insert; auto.
    + destruct (add_levels_measure rnd key value l prev (found || eq) (<[l := (prev, next)]> spl)) as [Hr Hm].
      eapply read_step; [done| |exact Hst|exact He|left; apply add_levels_own|apply add_levels_unpaid| |].
      * cbn. unfold v_arena in *. by rewrite E1; cbn; rewrite E2.
      * by destruct l, (found || eq).
      * split; [exact Hr|]. eapply Z.le_lt_trans; [exact Hm|]. cbn [loc at_pc]. lia.
  - destruct Hstop as [Hp' Hd].
    eapply (read_step _ _ _ (AddFind rnd key value l next found spl) ath);
      [done| | |apply effect_none|by left|done|done|cbn [rem loc at_pc]; lia].
    + cbn. by rewrite E1; cbn; rewrite E2.
    + by split.
Qed.

Lemma seek_levels_ok w key k prev next :
  a_pc ath = APending (seek_call w key) -> Z.of_nat k <= MaxHeight ->
  (forall l, (l < k)%nat -> at_pos v key l prev) ->
  (k = O -> next = headof (from key (v_es v))) ->
  exists p' ath', seek_levels (v_list v) w key k prev next = Some p' /\
    standing v (mkThread it p') ath' /\ effect v v ath ath' /\ own p' = None /\ unpaid p' = 0 /\
    full_at p' = false /\ rem p' = 0 /\ loc v p' <= 2 + Z.of_nat k * m + dist v prev.
Proof.
  intros Ha Hk Hp Hn. destruct k as [|k]; cbn [seek_levels].
  - rewrite Hn by done. destruct (seek_end_spec v Hs w key it (a_iter ath) Hit) as (a & it' & E & Ht & Hit').
    exists (Return a it'), (mkAThread (a_iter ath) (ADone a)). rewrite E.
    split_and!; [done|by split|by eapply effect_take|done|done|by destruct w; inversion Ht|done|].
    cbn [loc]. pose proof (dist_bounds v prev). lia.
  - exists (SeekFind w key k prev), ath. split_and!; [done| |apply effect_none|done|done|done|done|cbn [loc]; lia].
    split; [done|]. cbn. split_and!; [done|lia|auto].
Qed.

Lemma seek_start_ok w key :
  standing v (mkThread it (SeekStart w key)) ath -> steps_to v (mkThread it (SeekStart w key)) ath.
Proof.
  intros [_ Ha]. cbn in Ha. pose proof height_nat.
  destruct (seek_levels_ok w key (Z.to_nat (height (v_list v))) (head (v_list v)) 0)
    as (p' & ath' & E & Hst & He & Ho & Hu & Hf & Hr & Hm); [done|lia|by left|lia|].
  eapply read_step; [done| |exact Hst|exact He|by left|by rewrite Hu|done|].
  - cbn. by rewrite E.
  - split; [by rewrite Hr|]. eapply Z.le_lt_trans; [exact Hm|]. pose proof (dist_bounds v (head (v_list v))).
    cbn [loc at_pc]. unfold MaxHeight in *. nia.
Qed.

Lemma seek_find_ok w key l prev :
  standing v (mkThread it (SeekFind w key l prev)) ath -> steps_to v (mkThread it (SeekFind w key l prev)) ath.
Proof.
  intros (_ & Ha & Hl & Hp).
  destruct (search_here v Hs key l prev Hp Hl) as (next & stop & E1 & E2 & Hstop).
  destruct stop as [eq|].
  - destruct Hstop as [Hsp _].
    destruct (seek_levels_ok w key l prev next) as (p' & ath' & E & Hst & He & Ho & Hu & Hf & Hr & Hm); [done|lia| | |].
    + intros m Hm. eapply at_pos_down; [|exact Hp]. lia.
    + intros ->. injection Hsp as _ ->. change (Z.of_nat 0) with 0.
      by destruct (at_level_0 _ _ (sh_rep _ Hs) key) as [_ ->].
    + eapply read_step; [done| |exact Hst|exact He|by left|by rewrite Hu|done|].
      * cbn. by rewrite E1; cbn; rewrite E2; cbn; rewrite E.
      * split; [by rewrite Hr|]. eapply Z.le_lt_trans; [exact Hm|]. cbn [loc at_pc]. lia.
  - destruct Hstop as [Hp' Hd]. eapply (read_step _ _ _ (SeekFind w key l next) ath);
      [done| |by split|apply effect_none|by left|done|done|cbn [rem loc at_pc]; lia].
    cbn. by rewrite E1; cbn; rewrite E2.
Qed.

(** Both moves of an iterator end the same way. *)
Lemma move_ok p L c :
  tstep (v_list v) p = (p' ← move_to (v_list v) (headof L); Some (v_list v, p')) ->
  (forall e, e ∈ L -> e ∈ v_es v) -> unpaid p = 0 /\ rem p = 0 /\ loc v p = 2 ->
  a_pc ath = APending c -> takes (v_map v) (a_iter ath) c (v_map v) (At (hd_error (contents L))) ->
  steps_to v (mkThread it p) ath.
Proof.
  intros Ht HL (Hu & Hr & Hm) Ha Htk. destruct (move_head v Hs L it (a_iter ath) HL) as [E H].
  rewrite E in Ht. eapply read_step; [done|exact Ht| |by eapply effect_take|by left|cbn; lia|done|cbn; lia].
  by split.
Qed.

Lemma first_load_ok :
  standing v (mkThread it FirstLoad) ath -> steps_to v (mkThread it FirstLoad) ath.
Proof.
  intros [_ Ha]. apply (move_ok _ (v_es v) CFirst); [|done|done|done|apply take_first].
  cbn [tstep]. unfold First. destruct (node_ok_off _ _ (es_node v Hs (head_entry (v_list v)) ltac:(by left))) as [_ Hg].
  change (e_off (head_entry (v_list v))) with (head (v_list v)) in Hg. rewrite Hg. cbn [mbind option_bind].
  pose proof (rep_chain0 _ _ [] (v_es v) (sh_rep _ Hs) eq_refl) as Hc.
  change (lastof (head (v_list v)) []) with (head (v_list v)) in Hc.
  by rewrite (chain_next _ _ _ _ Hc).
Qed.

Lemma next_load_ok nd :
  standing v (mkThread it (NextLoad nd)) ath -> steps_to v (mkThread it (NextLoad nd)) ath.
Proof.
  intros (_ & Ha & ->). cbn in Ha. cbn [iter]. pose proof (take_next (v_map v) (a_iter ath)) as Ht.
  pose proof Hit as [[Hz Hp]|(e & He & Hoff & Hp)]; rewrite Hp in Ht.
  - apply (move_ok _ [] CNext); [by rewrite Hz| |done|done|by rewrite Hp].
    intros e He. by apply elem_of_nil in He.
  - pose proof He as (A & B & E)%list_elem_of_split. cbn in Ht. unfold v_map in Ht at 3. rewrite E, after_split in Ht.
    2: { rewrite <- E. apply (rep_sorted _ _ (sh_rep _ Hs)). }
    apply (move_ok _ B CNext); [|rewrite E; set_solver|done|done|by rewrite Hp].
    destruct (node_ok_off _ _ (es_node v Hs e ltac:(by right))) as [Hne Hg]. rewrite Hoff in Hne, Hg.
    cbn [tstep]. unfold Next. rewrite (proj2 (Z.eqb_neq _ _)), Hg by done. cbn [mbind option_bind].
    pose proof (rep_chain0 _ _ (A ++ [e]) B (sh_rep _ Hs)) as Hc. rewrite lastof_app in Hc.
    specialize (Hc ltac:(by rewrite <- app_assoc)). change (lastof _ [e]) with (e_off e) in Hc.
    rewrite Hoff in Hc. by rewrite (chain_next _ _ _ _ Hc).
Qed.
End read_steps.
