(* ===== verification/SkiplistWrites.v ===== *)
(** The steps of the shared skiplist's threads that write: allocating a node,
    raising the height, storing an own link, and the compare-and-swap that
    links a node on one level. *)
From stdpp Require Import sorting.
From S2P Require Import Prelude Binary ByteOrder Sorted Arena Skiplist SkiplistMem SkiplistSpec SkiplistSteps SkiplistAtomic SkiplistMeasure SkiplistReads.

#[local] Open Scope Z_scope.

(** ** Layouts *)

(** The part of an entry that memory knows: not how far it is linked. *)
Definition node_of (e : entry) : Z * bytes * bytes := (e_off e, e_key e, e_val e).

Lemma pairs_perm L L' : L ≡ₚ L' -> ForallOrdPairs apart L -> ForallOrdPairs apart L'.
Proof.
  induction 1 as [|x L L' HL IH|x y L|L1 L2 L3 _ IH1 _ IH2]; intros H; auto.
  - inversion H as [|? ? H1 H2]; subst. constructor; [by rewrite <- HL|auto].
  - inversion H as [|? ? H1 H2]; subst. inversion H2 as [|? ? H3 H4]; subst.
    apply Forall_cons in H1 as [H0 H1]. constructor; [|by constructor].
    apply Forall_cons. split; [by apply apart_sym|done].
Qed.

Lemma layout_perm a L L' : L ≡ₚ L' -> layout a L -> layout a L'.
Proof. intros HL [H1 H2]. split; [by rewrite <- HL|by eapply pairs_perm]. Qed.

Lemma node_ok_of a e e' : node_of e = node_of e' -> node_ok a e -> node_ok a e'.
Proof. intros [= E1 E2 E3]. unfold node_ok, e_range. by rewrite E1, E2, E3. Qed.

Lemma layout_of a L L' : node_of <$> L = node_of <$> L' -> layout a L -> layout a L'.
Proof.
  revert L'. induction L as [|e L IH]; intros [|e' L'] E [H1 H2]; try done.
  rewrite !fmap_cons in E. injection E as E1 E2 E3 E.
  apply Forall_cons in H1 as [He H1]. inversion H2 as [|? ? Ha H3]; subst.
  destruct (IH L' E) as [H1' H3']; [by split|].
  assert (Er : e_range e = e_range e') by (unfold e_range; congruence).
  split; constructor; try done.
  - eapply node_ok_of; [|exact He]. unfold node_of. congruence.
  - clear IH H1 H1' H3 H3' H2 He. revert L' E. induction Ha as [|x L Hx Ha IH]; intros [|x' L'] E; try done.
    rewrite !fmap_cons in E. injection E as F1 F2 F3 E. constructor; [|auto].
    unfold apart in *. rewrite <- Er. unfold e_range at 2. rewrite <- F1, <- F2, <- F3. exact Hx.
Qed.

(** Only the nodes matter, in any order. *)
Lemma layout_nodes a L L' : node_of <$> L ≡ₚ node_of <$> L' -> layout a L -> layout a L'.
Proof.
  intros E%Permutation_sym HL. apply Permutation_map_inv in E as (L2 & E & HP).
  eapply layout_of; [symmetry; exact E|]. eapply layout_perm; [|exact HL]. by symmetry.
Qed.

Lemma chain_offs a l p L L' : e_off <$> L = e_off <$> L' -> chain a l p L -> chain a l p L'.
Proof.
  revert p L'. induction L as [|e L IH]; intros p [|e' L'] E; try done.
  rewrite !fmap_cons in E. injection E as E1 E. cbn. rewrite <- E1. intros [? ?]. auto.
Qed.

Lemma layout_off_inj a L x y : layout a L -> x ∈ L -> y ∈ L -> e_off x = e_off y -> x = y.
Proof.
  intros [_ Hp] Hx Hy E. destruct (pairs_elem L x y Hp Hx Hy) as [|H]; [done|].
  by apply apart_off in H.
Qed.

(** ** Memory writes *)

Section memory.
Context (v : view) (Hs : shared v).

#[local] Notation es := (v_es v).
#[local] Notation s := (v_list v).
#[local] Notation all := (head_entry s :: es ++ v_new v).

Lemma all_node e : e ∈ all -> node_ok (v_arena v) e.
Proof. apply layout_node, (sh_layout _ Hs). Qed.

Lemma linked_all e : e ∈ head_entry s :: es -> e ∈ all.
Proof. set_solver. Qed.

Lemma all_bounds e : e ∈ all -> in_buf (v_arena v) (e_off e) (e_off e + maxNodeSize) /\ 0 <= e_off e < 2 ^ 32.
Proof.
  intros He. destruct (all_node e He) as [[] _]. pose proof (blen_nonneg (e_key e)).
  pose proof (blen_nonneg (e_val e)). unfold in_buf, maxNodeSize in *. lia.
Qed.

(** More memory in use, and the nodes as they were. *)
Definition extends (a' : Arena) : Prop :=
  Arena.wf a' /\ Arena.n (v_arena v) <= Arena.n a' /\
  forall lo hi, hi <= Arena.n (v_arena v) -> agree (abuf (v_arena v)) (abuf a') lo hi.

Lemma extend_getNext a' x l :
  extends a' -> x ∈ all -> 0 <= l < MaxHeight -> getNext a' (e_off x) l = getNext (v_arena v) (e_off x) l.
Proof.
  intros (_ & _ & Ha) Hx Hl. symmetry. apply getNext_agree, Ha.
  destruct (all_node x Hx) as [_ Hend]. pose proof (range_size x). pose proof (tower_range l Hl). lia.
Qed.

(** An allocation by another thread, or one that fails. *)
Lemma extend_view a' :
  extends a' ->
  let v' := mkView (with_arena s a') es (v_new v) in shared v' /\ forall o, evolves o v v'.
Proof.
  intros Hx v'. pose proof Hx as (Hwf & Hn & Ha). destruct Hs as [Hr Hl Hnew Hcnt]. split.
  - split; cbn; [by apply rep_frame| |done|unfold v_arena in *; cbn; lia].
    destruct Hl as [Hl1 Hl2]. split; [|exact Hl2]. eapply Forall_impl; [exact Hl1|].
    intros e He. by eapply node_ok_frame.
  - intros o. split; cbn; try done; [intros e He; by exists e|].
    intros x l Hin _ [Hl1 Hl2]. apply extend_getNext; [done|by right|].
    split; [|done]. apply elem_of_app in Hin as [Hin|Hin].
    + pose proof (rep_heights _ _ Hr) as Hh. rewrite Forall_forall in Hh. specialize (Hh x Hin). cbn in Hh. lia.
    + rewrite Forall_forall in Hnew. specialize (Hnew x Hin). cbn in Hnew. lia.
Qed.

(** A new node, not linked yet. *)
Lemma alloc_view a' x :
  extends a' -> node_ok a' x -> e_h x = 0 -> Arena.n (v_arena v) <= e_off x -> Arena.n (v_arena v) < Arena.n a' ->
  let v' := mkView (with_arena s a') es (x :: v_new v) in shared v' /\ forall o, evolves o v v'.
Proof.
  intros Hx Hok Hh Hoff Hlt v'. destruct (extend_view a' Hx) as [[Hr Hl Hnew Hcnt] Hev]. cbn in *. split.
  - split; cbn; [done| |by constructor|pose proof (sh_count _ Hs); unfold v_arena in *; cbn in *; lia].
    eapply (layout_perm _ (x :: head_entry s :: es ++ v_new v)).
    { rewrite Permutation_swap. constructor. by rewrite Permutation_middle. }
    destruct Hl as [Hl1 Hl2]. split; [by constructor|]. constructor; [|done].
    pose proof (lay_nodes _ _ (sh_layout _ Hs)) as Hold. eapply Forall_impl; [exact Hold|].
    intros e [_ He]. cbn in He. unfold apart, disjoint_range. cbn.  unfold v_arena in *. lia.
  - intros o. destruct (Hev o). split; cbn in *; try done. intros y Hy ?. right. auto.
Qed.

(** A raised height. *)
Lemma height_view h :
  height s <= h <= MaxHeight ->
  let v' := mkView (with_height s h) es (v_new v) in shared v' /\ forall o, evolves o v v'.
Proof.
  intros Hh v'. destruct Hs as [[] Hl Hnew Hcnt]. split.
  - split; [split|..]; cbn; try done; [lia|].
    eapply Forall_impl; [exact rep_heights|]. cbn. lia.
  - intros o. split; cbn; try done; [lia|]. intros e He. by exists e.
Qed.

(** A link of a node above its linked levels is in no list. *)
Lemma store_view a' x l w :
  tower_write (v_arena v) a' x l w -> 0 <= l < MaxHeight -> x ∈ es ++ v_new v -> e_h x <= l ->
  let v' := mkView (with_arena s a') es (v_new v) in shared v' /\ evolves (Some (e_off x)) v v'.
Proof.
  intros W Hl Hx Hh v'. destruct Hs as [Hr Hlay Hnew Hcnt]. pose proof W as (Hn & Hb & _).
  assert (Hlay' : layout a' all) by (eapply tower_write_layout; [exact W|done| |exact Hlay]; by right).
  split; [split; cbn; [split; cbn|..]|split; cbn]; try done.
  - destruct Hr as [Hwf _ _ _ _ _ _]. unfold Arena.wf, v_arena in *. by rewrite Hn, Hb.
  - destruct Hlay' as [H1 H2]. rewrite app_comm_cons in H1, H2. split.
    + by apply Forall_app in H1 as [? _].
    + eapply pairs_sublist; [|exact H2]. by apply sublist_inserts_r.
  - by apply Hr.
  - by apply Hr.
  - apply Hr.
  - intros m Hm. eapply (tower_write_chain _ a' x l w (head_entry s) m); [exact W|done|done| |].
    2: { apply (rep_chain _ _ Hr m Hm). }
    apply Forall_forall. intros y Hy.
    assert (Hyall : y ∈ all).
    { apply elem_of_cons in Hy as [->|[Hy _]%at_level_elem]; set_solver. }
    destruct (pairs_elem _ x y (lay_apart _ _ Hlay) ltac:(by right) Hyall) as [->|]; [right|by left].
    split; [done|]. apply elem_of_cons in Hy as [->|[_ Hy]%at_level_elem]; [|lia]. cbn in Hh. lia.
  - unfold v_arena in *. cbn. rewrite Hn. by apply Hr.
  - unfold v_arena in *. cbn. by rewrite Hn.
  - intros e He. by exists e.
  - intros y m Hy Hne Hm. eapply tower_write_other; [exact W|done| |].
    + apply elem_of_app in Hy as [Hy|Hy].
      * pose proof (rep_heights _ _ Hr) as Hhs. rewrite Forall_forall in Hhs. specialize (Hhs y Hy). cbn in Hhs. lia.
      * rewrite Forall_forall in Hnew. specialize (Hnew y Hy). cbn in Hnew. lia.
    + left. destruct (pairs_elem _ x y (lay_apart _ _ Hlay) ltac:(by right) ltac:(by right)) as [->|]; done.
Qed.

Lemma extend_quiet a' new' : extends a' -> quiet v (mkView (with_arena s a') es new').
Proof.
  intros Hx. split; cbn; [done|done|done|]. intros e l He Hl Hl'. apply extend_getNext; [done| |lia].
  by apply linked_all.
Qed.

Lemma store_quiet a' x l w :
  tower_write (v_arena v) a' x l w -> 0 <= l < MaxHeight -> x ∈ es ++ v_new v -> e_h x <= l ->
  quiet v (mkView (with_arena s a') es (v_new v)).
Proof.
  intros W Hl Hx Hh. split; cbn; [done|done|done|]. intros e i He Hi Hi'.
  eapply tower_write_other; [exact W|done|lia|].
  destruct (pairs_elem _ x e (lay_apart _ _ (sh_layout _ Hs)) ltac:(by right) (linked_all e He)) as [->|]; [|by left].
  right. split; [done|lia].
Qed.
End memory.

(** ** Linking a node on one more level *)

Lemma at_level_gone l e : e_h e <= l -> at_level l [e] = [].
Proof. intros H. unfold at_level. by rewrite filter_cons, decide_False by lia. Qed.

Lemma at_level_there l e : l < e_h e -> at_level l [e] = [e].
Proof. intros H. unfold at_level. by rewrite filter_cons, decide_True by lia. Qed.

Section link.
Context (v : view) (Hs : shared v) (x : entry) (i : Z) (es1 old es2 new' : list entry).
Hypothesis Hi : 0 <= i < MaxHeight.
Hypothesis Hx : e_h x = i + 1 /\ e_h x <= height (v_list v).

(** [x] was not linked at all, or linked below level [i]. *)
Hypothesis Hes : v_es v = es1 ++ old ++ es2.
Hypothesis Hold : (old = [] /\ i = 0 /\ node_of <$> v_new v ≡ₚ node_of x :: (node_of <$> new')) \/
  (0 < i /\ new' = v_new v /\ exists x0, old = [x0] /\ node_of x0 = node_of x /\ e_h x0 = i).
Hypothesis Hnew' : forall y, y ∈ v_new v -> e_off y <> e_off x -> y ∈ new'.
Hypothesis Hsub : forall y, y ∈ new' -> y ∈ v_new v.

Hypothesis H1 : Forall (fun e => blt (e_key e) (e_key x)) es1.
Hypothesis H2 : Forall (fun e => blt (e_key x) (e_key e)) es2.

Context (a' : Arena) (y : entry) (init : list entry).
Hypothesis Hinit : head_entry (v_list v) :: at_level i es1 = init ++ [y].
Hypothesis Hnext : getNext (v_arena v) (e_off x) i = Some (headof (at_level i es2)).
Hypothesis W : tower_write (v_arena v) a' y i (e_off x).

#[local] Notation h := (head_entry (v_list v)).
#[local] Notation v' := (mkView (with_arena (v_list v) a') (es1 ++ x :: es2) new').

Lemma link_nodes : node_of <$> (h :: v_es v ++ v_new v) ≡ₚ node_of <$> (h :: (es1 ++ x :: es2) ++ new').
Proof.
  rewrite Hes, !fmap_cons, !fmap_app, fmap_cons. constructor.
  destruct Hold as [(-> & _ & ->)|(_ & -> & x0 & -> & E & _)]; cbn; [|rewrite E]; solve_Permutation.
Qed.

Lemma link_layout0 : layout (v_arena v) (h :: (es1 ++ x :: es2) ++ new').
Proof. eapply layout_nodes; [apply link_nodes|apply Hs]. Qed.

Lemma prev_in : y ∈ h :: es1.
Proof.
  assert (y ∈ h :: at_level i es1) as Hy by (rewrite Hinit; set_solver).
  apply elem_of_cons in Hy as [->|[Hy _]%at_level_elem]; set_solver.
Qed.

Lemma prev_level : i < e_h y.
Proof.
  assert (y ∈ h :: at_level i es1) as Hy by (rewrite Hinit; set_solver).
  apply elem_of_cons in Hy as [->|[_ Hy]%at_level_elem]; [cbn; lia|done].
Qed.

Lemma link_layout : layout a' (h :: (es1 ++ x :: es2) ++ new').
Proof.
  eapply tower_write_layout; [exact W|done| |apply link_layout0]. pose proof prev_in. set_solver.
Qed.

Lemma link_layout_es a : layout a (h :: (es1 ++ x :: es2) ++ new') -> layout a (h :: es1 ++ x :: es2).
Proof.
  intros [L1 L2]. rewrite app_comm_cons in L1, L2. split; [by apply Forall_app in L1 as [? _]|].
  eapply pairs_sublist; [|exact L2]. by apply sublist_inserts_r.
Qed.

Lemma link_sorted0 : StronglySorted blt (e_key <$> (es1 ++ es2)).
Proof.
  eapply sorted_sublist; [|apply (rep_sorted _ _ (sh_rep _ Hs))]. rewrite Hes.
  apply sublist_app; [done|]. by apply sublist_inserts_l.
Qed.

(** The other levels see the same offsets before and after. *)
Lemma level_offs l :
  0 <= l -> l <> i -> e_off <$> at_level l (v_es v) = e_off <$> at_level l (es1 ++ x :: es2).
Proof.
  intros Hl Hne. destruct Hx as [Ex _]. rewrite Hes. change (x :: es2) with ([x] ++ es2).
  rewrite !at_level_app, !fmap_app. do 2 f_equal.
  destruct Hold as [(-> & -> & _)|(Hpos & _ & x0 & -> & E & E0)].
  - by rewrite (at_level_gone l x) by lia.
  - injection E as Eo _ _. destruct (decide (l < i)).
    + rewrite !at_level_there by lia. cbn. by rewrite Eo.
    + by rewrite !at_level_gone by lia.
Qed.

Lemma old_gone : at_level i old = [].
Proof.
  destruct Hold as [(-> & _)|(_ & _ & x0 & -> & _ & E)]; [done|]. apply at_level_gone. lia.
Qed.

Lemma link_chains l : 0 <= l < MaxHeight -> chain a' l (e_off h) (at_level l (es1 ++ x :: es2)).
Proof.
  intros Hl. pose proof (link_layout_es _ link_layout0) as Hlay.
  pose proof (lay_apart _ _ Hlay) as Hp. pose proof prev_in as Hyin.
  pose proof (rep_chain _ _ (sh_rep _ Hs) l Hl) as Hc. destruct (decide (l = i)) as [->|Hne].
  - change (x :: es2) with ([x] ++ es2). rewrite !at_level_app, (at_level_there i x) by lia.
    rewrite Hes, !at_level_app, old_gone in Hc.
    eapply (link_chain_cas h x i (v_arena v)); [done|exact Hinit| | |done|exact W|exact Hc].
    + apply (pairs_app (h :: es1) (x :: es2)); [done|done|by left].
    + apply Forall_forall. intros e [He|He]%elem_of_app.
      * apply apart_sym. eapply (pairs_app init [y]); [|done|by left].
        rewrite <- Hinit. eapply pairs_sublist; [|exact Hp].
        apply sublist_skip, sublist_inserts_r, at_level_sublist.
      * apply (pairs_app (h :: es1) (x :: es2)); [done|done|]. right. by eapply at_level_sub.
  - eapply (other_level h x es1 es2 (v_arena v)); [exact Hlay|exact W|set_solver|done|done|done| |].
    + apply Forall_forall. intros e He%at_level_sub. by right.
    + eapply chain_offs; [apply level_offs; [lia|done]|exact Hc].
Qed.

Lemma link_rep : rep (with_arena (v_list v) a') (es1 ++ x :: es2).
Proof.
  destruct Hs as [[] _ _ Hcnt]. destruct W as (Wn & Wb & _). split; cbn.
  - unfold Arena.wf, v_arena in *. by rewrite Wn, Wb.
  - apply link_layout_es, link_layout.
  - done.
  - rewrite Hes, !Forall_app in rep_heights. destruct rep_heights as (? & _ & ?).
    rewrite Forall_app, Forall_cons. split_and!; [done|lia|lia|done].
  - by apply (sorted_insert _ _ _ (e_key x)); [apply link_sorted0| | |].
  - apply link_chains.
  - unfold v_arena in *. rewrite Wn. enough (length (es1 ++ x :: es2) <= length (v_es v) + length (v_new v))%nat by lia.
    pose proof (Permutation_length link_nodes) as E. cbn in E. rewrite !length_fmap, !length_app in E.
    rewrite length_app in *. lia.
Qed.

Lemma link_shared : shared v'.
Proof.
  split; [exact link_rep|exact link_layout| |].
  - apply Forall_forall. intros e He%Hsub. pose proof (sh_new _ Hs) as Hn.
    rewrite Forall_forall in Hn. by apply Hn.
  - pose proof (Permutation_length link_nodes) as E. cbn in E. rewrite !length_fmap, !length_app in E.
    pose proof (sh_count _ Hs) as Hcnt. destruct W as (Wn & _). unfold v_arena in *. cbn. rewrite Wn, length_app. lia.
Qed.

Lemma link_evolves : evolves (Some (e_off x)) v v'.
Proof.
  split; cbn.
  - done.
  - done.
  - intros e He. rewrite Hes in He.
    assert (He' : (e ∈ es1 ++ x :: es2) \/ e ∈ old) by set_solver. destruct He' as [He'|He']; [by exists e|].
    exists x. destruct Hold as [(-> & _)|(_ & _ & x0 & -> & E & E0)]; [by apply elem_of_nil in He'|].
    apply list_elem_of_singleton in He' as ->. injection E as -> -> ->. split_and!; [set_solver|done..|lia].
  - intros e He Hne. rewrite Hes in He. destruct Hold as [(-> & _)|(_ & _ & x0 & -> & E & _)]; [set_solver|].
    injection E as E _ _. assert (e <> x0) by (intros ->; by rewrite E in Hne). set_solver.
  - intros e He Hne. apply Hnew'; congruence.
  - intros z l Hz Hne Hl. pose proof prev_level. pose proof link_layout0 as Hlay.
    assert (Hz' : z ∈ (es1 ++ x :: es2) ++ new').
    { apply elem_of_app in Hz as [Hz|Hz]; [|apply elem_of_app; right; apply Hnew'; congruence].
      rewrite Hes in Hz. destruct Hold as [(-> & _)|(_ & _ & x0 & -> & E & _)]; [set_solver|].
      injection E as E _ _. assert (z <> x0) by (intros ->; by rewrite E in Hne). set_solver. }
    assert (Hl0 : 0 <= e_h z).
    { apply elem_of_app in Hz as [Hz|Hz].
      - pose proof (rep_heights _ _ (sh_rep _ Hs)) as Hh. rewrite Forall_forall in Hh. specialize (Hh z Hz). cbn in Hh. lia.
      - pose proof (sh_new _ Hs) as Hh. rewrite Forall_forall in Hh. specialize (Hh z Hz). cbn in Hh. lia. }
    eapply tower_write_other; [exact W|done|lia|]. pose proof prev_in as Hy.
    destruct (pairs_elem _ y z (lay_apart _ _ Hlay) ltac:(set_solver) ltac:(by right)) as [->|]; [|by left].
    right. split; [done|lia].
Qed.

(** The contents change when the first level is linked, and only then. *)
Lemma link_map :
  v_map v' = match old with [] => insert_sorted (e_key x) (e_val x) (v_map v) | _ => v_map v end.
Proof.
  unfold v_map. cbn [v_es]. rewrite Hes. destruct Hold as [(-> & _)|(_ & _ & x0 & -> & E & _)].
  - apply (contents_insert x es1 es2 (e_key x)); [done| |done]. eapply Forall_impl; [exact H2|]. cbn. eauto with iw.
  - injection E as _ Ek Ev. unfold contents. rewrite !fmap_app, !fmap_cons. by rewrite Ek, Ev.
Qed.
End link.

(** ** The steps of [Add] after its search *)

Section add_steps.
Context (v : view) (Hs : shared v) (it : Z) (ath : athread).
Hypothesis Hit : iter_ok v it (a_iter ath).

Lemma own_node j i : owned v (a_pc ath) j i -> exists x, x ∈ v_es v ++ v_new v /\
  e_off x = j_nd j /\ e_key x = j_key j /\ e_h x = Z.of_nat i.
Proof.
  intros (value & Hw). exists (mkEntry (j_nd j) (j_key j) value (Z.of_nat i)). split; [|done].
  apply elem_of_app. destruct i; destruct Hw as [Hw _]; auto.
Qed.

Lemma splice_lookup key lo spl l :
  splices_ok v key lo spl -> (lo <= l)%nat -> Z.of_nat l < MaxHeight ->
  exists sp, spl !! l = Some sp /\ splice_ok v key l sp.
Proof.
  intros [Hlen Hok] Hlo Hl. destruct (lookup_lt_is_Some_2 spl l) as [sp Hsp]; [unfold MaxHeight in *; lia|].
  exists sp. split; [done|by apply (Hok l sp)].
Qed.

Lemma beyond_u32 key next : beyond v key next -> 0 <= next < 2 ^ 32.
Proof.
  intros [-> | (e & He & <- & _)]; [lia|]. apply (all_bounds v Hs). set_solver.
Qed.

Lemma add_node_ok rnd key value spl :
  standing v (mkThread it (AddNode rnd key value spl)) ath ->
  Arena.n (v_arena v) + 2 ^ 33 < 2 ^ 63 -> cost (CAdd rnd key value) < 2 ^ 32 ->
  steps_to v (mkThread it (AddNode rnd key value spl)) ath.
Proof.
  intros (_ & Ha & Hsp) Hn Hsz. pose proof (cost_pos (CAdd rnd key value)) as Hc. cbn in Ha, Hsz, Hc. pose proof (sh_rep _ Hs) as Hr.
  pose proof (newNode_spec (v_arena v) key value (rep_wf _ _ Hr) Hn ltac:(lia)) as Hnew.
  unfold steps_to. cbn [tstep at_pc iter]. fold (v_arena v).
  destruct (newNode (v_arena v) key value) as [a' [nd|[]|]] eqn:E;
    destruct Hnew as (Hwf & Hna & Hb & Hnew); [| |done].
  - destruct Hnew as (Hoff & Hend & Hnode & Hagree & Hfit & _). set (x := mkEntry nd key value 0).
    destruct (alloc_view v Hs a' x) as [Hs' Hev]; [split; [done|split; [unfold maxNodeSize in *; lia|done]]|by split|done|done|unfold maxNodeSize in *; lia|].
    eexists (mkView _ _ _), _, ath. split; [reflexivity|]. pose proof (randomHeight_bounds rnd).
    split; [exact Hs'|apply Hev| | | |cbn; unfold v_arena in *; cbn in *; lia|done| |done].
    4: { right. split; [|cbn [rem loc at_pc v_es j_height]; unfold MaxHeight in *; lia]. apply (extend_quiet v Hs). split; [done|].
         split; [unfold maxNodeSize in *; lia|done]. }
    + split; [by eapply iter_ok_stable, Hit; apply (Hev None)|]. cbn. split.
      * split; [cbn; done|]. eapply splices_stable; [apply (Hev None)|exact Hsp].
      * exists value. split; [by left|eauto].
    + by left.
    + intros y [= <-]. right. exact Hoff.
  - destruct Hnew as [Hbuf Hfull]. destruct (extend_view v Hs a') as [Hs' Hev].
    { split; [done|]. split; [unfold maxNodeSize in *; lia|]. intros. rewrite Hbuf. apply agree_refl. }
    eexists (mkView _ _ _), _, (mkAThread (a_iter ath) (ADone _)). split; [reflexivity|].
    split; [exact Hs'|apply Hev| | |done|cbn; unfold v_arena in *; cbn in *; lia|done| |unfold v_arena in *; cbn in *; congruence].
    3: { right. split; [apply (extend_quiet v Hs)|cbn; unfold MaxHeight; lia].
         split; [done|]. split; [unfold maxNodeSize in *; lia|]. intros. rewrite Hbuf. apply agree_refl. }
    + split; [by eapply iter_ok_stable, Hit; apply (Hev None)|]. split; [done|]. by eapply iter_ok_stable, Hit; apply (Hev None).
    + right. eexists _, _. split; [exact Ha|]. split; [done|]. apply take_full.
Qed.

(** The next store is close. *)
Lemma add_store_loc j i : loc v (AddStore j i) <= Z.of_nat (length (v_es v)) + 6.
Proof. cbn [loc]. repeat case_match; lia. Qed.

Lemma add_height_ok j :
  standing v (mkThread it (AddHeight j)) ath -> steps_to v (mkThread it (AddHeight j)) ath.
Proof.
  intros (_ & Hj & Hw). cbn in Hj, Hw.
  eapply (read_step _ _ _ (grow_test j (height (v_list v))) ath); [done|done| |apply effect_none| | | |];
    unfold grow_test; destruct (Z.ltb_spec (height (v_list v)) (j_height j)) as [E|E]; try done; try (by right).
  - split; [done|]. cbn. split; [done|]. split; [done|]. destruct Hj as [? _]. cbn. lia.
  - cbn [rem loc at_pc]. rewrite Z.eqb_refl. lia.
  - pose proof (add_store_loc j 0). cbn [rem at_pc]. cbn [loc at_pc] in *. lia.
Qed.

Lemma add_grow_ok j old :
  standing v (mkThread it (AddGrow j old)) ath -> steps_to v (mkThread it (AddGrow j old)) ath.
Proof.
  intros (_ & Hj & Hw & Hold). cbn in Hj, Hw, Hold. destruct (Z.eqb_spec (height (v_list v)) old) as [E|E].
  - destruct (height_view v Hs (j_height j)) as [Hs' Hev]; [destruct Hj; lia|].
    eexists (mkView _ _ _), _, ath. split; [cbn; rewrite E, Z.eqb_refl; reflexivity|].
    split; [exact Hs'|apply Hev| |by left|by left|cbn; unfold v_arena in *; cbn in *; lia|done| |done].
    2: { left. unfold credit. cbn. lia. }
    split; [by eapply iter_ok_stable, Hit; apply (Hev None)|]. cbn. split; [by eapply job_ok_stable, Hj; apply (Hev None)|]. split; [done|].
    destruct Hj as [? _]. cbn. lia.
  - eapply (read_step _ _ _ (AddHeight j) ath); [done| |by split|apply effect_none|by right|done|done|].
    + cbn. by rewrite (proj2 (Z.eqb_neq _ _)).
    + cbn [rem loc at_pc]. rewrite (proj2 (Z.eqb_neq _ _)) by done. lia.
Qed.

Lemma add_store_ok j i :
  standing v (mkThread it (AddStore j i)) ath -> steps_to v (mkThread it (AddStore j i)) ath.
Proof.
  intros (_ & Hl). cbn in Hl. pose proof Hl as ((Hjh & Hsp) & Hw & Hi).
  destruct (splice_lookup _ _ _ i Hsp) as (sp & Esp & Hok); [lia|lia|].
  destruct (own_node j i Hw) as (x & Hx & Exo & _ & Exh).
  assert (Hxall : x ∈ head_entry (v_list v) :: v_es v ++ v_new v) by (by right).
  destruct (all_bounds v Hs x Hxall) as [Hb _].
  unfold splice_ok in Hok. destruct (splice_or_head (v_list v) sp) as [prev next] eqn:Eh. cbn in Hok.
  destruct Hok as [Hprev Hnext].
  destruct (setNext_spec (v_arena v) (e_off x) (Z.of_nat i) next ltac:(lia) Hb (beyond_u32 _ _ Hnext))
    as (a' & Ea & W).
  destruct (store_view v Hs a' x (Z.of_nat i) next W ltac:(lia) Hx ltac:(lia)) as [Hs' Hev].
  eexists (mkView _ _ _), _, ath. split.
  - cbn [tstep at_pc]. rewrite Esp. cbn [mbind option_bind]. rewrite Eh, <- Exo.
    destruct (node_ok_off _ _ (all_node v Hs x Hxall)) as [_ Hg]. unfold v_arena in *. rewrite Hg.
    cbn [mbind option_bind]. rewrite Ea. reflexivity.
  - pose proof (store_quiet v Hs a' x (Z.of_nat i) next W ltac:(lia) Hx ltac:(lia)) as Hq.
    destruct W as (Wn & Wb & Wx & _). split; [exact Hs'| | |by left|by left| |exact Wb| |done].
    4: { right. split; [exact Hq|]. split; [done|]. cbn [loc at_pc v_es]. rewrite Esp, Eh.
         pose proof (quiet_fresh v _ (j_key j) i (prev, next) Hq Hprev ltac:(lia)) as E.
         unfold with_arena in E. rewrite E. case_match; lia. }
    + cbn. rewrite <- Exo. exact Hev.
    + split; [exact Hit|]. cbn. split; [exact Hl|]. split; [exact Hprev|]. split; [exact Hnext|by rewrite <- Exo].
    + cbn. unfold v_arena in *. cbn. lia.
Qed.

(** Keys are unique in the list. *)
Lemma es_key_inj e e' : e ∈ v_es v -> e' ∈ v_es v -> e_key e = e_key e' -> e = e'.
Proof.
  pose proof (rep_sorted _ _ (sh_rep _ Hs)) as Hsort. induction (v_es v) as [|z L IH]; [by intros ?%elem_of_nil|].
  cbn in Hsort. apply StronglySorted_inv in Hsort as [Hsort Hz]. rewrite Forall_fmap, Forall_forall in Hz.
  intros [->|He]%elem_of_cons [->|He']%elem_of_cons E; auto.
  - specialize (Hz _ He'). cbn in Hz. rewrite E in Hz. by apply blt_irrefl in Hz.
  - specialize (Hz _ He). cbn in Hz. rewrite E in Hz. by apply blt_irrefl in Hz.
Qed.

Lemma set_splice_linking j i sp :
  linking v (a_pc ath) j i -> splice_ok v (j_key j) i sp -> linking v (a_pc ath) (set_splice j i sp) i.
Proof.
  intros ((Hjh & Hlen & Hok) & Hw & Hi) Hsp. split; [|done]. split; [done|]. cbn.
  split; [by rewrite length_insert|]. intros l sp' _ Hl. destruct (decide (l = i)) as [->|Hne].
  - rewrite list_lookup_insert_eq in Hl by (rewrite Hlen; unfold MaxHeight in *; lia). by injection Hl as <-.
  - rewrite list_lookup_insert_ne in Hl by done. apply (Hok l); [lia|done].
Qed.

(** The duplicate that [Add] panics on cannot be there: the key is linked at
    the base level by this very call. *)
Lemma no_duplicate_above st j i e :
  owned v st j (S i) -> e ∈ v_es v -> e_key e = j_key j -> ~ Z.of_nat (S i) < e_h e.
Proof.
  intros (value & Hw & _) He Hk Hlt. rewrite (es_key_inj e _ He Hw Hk) in Hlt. cbn in Hlt. lia.
Qed.

(** A splice just computed is up to date. *)
Lemma fix_fresh j i prev next :
  at_pos v (j_key j) i prev -> Z.of_nat i < MaxHeight -> load_next (v_arena v) prev i = Some next ->
  job_ok v j ->
  loc v (AddStore (set_splice j i (prev, next)) i) < loc v (AddFix j i prev).
Proof.
  intros Hp Hi Hn (_ & Hlen & _). destruct (load_split v Hs (j_key j) i prev Hp Hi) as (A & B & _ & _ & _ & Hg & Hn').
  unfold load_next in Hn. unfold v_arena in *. rewrite Hg in Hn. cbn [mbind option_bind] in Hn.
  cbn [loc set_splice j_spl]. rewrite list_lookup_insert_eq by (rewrite Hlen; unfold MaxHeight in *; lia).
  unfold splice_or_head. cbn [fst]. destruct (Z.eqb_spec prev 0) as [->|_]; [done|].
  unfold fresh, v_arena. cbn [fst snd]. rewrite bool_decide_eq_true_2 by done.
  pose proof (dist_bounds v prev). lia.
Qed.

Lemma add_fix_ok j i prev :
  standing v (mkThread it (AddFix j i prev)) ath -> steps_to v (mkThread it (AddFix j i prev)) ath.
Proof.
  intros (_ & Hl & Hp). cbn in Hl, Hp. pose proof Hl as ((Hjh & _) & Hw & Hi).
  destruct (search_here v Hs (j_key j) i prev Hp ltac:(lia)) as (next & stop & E1 & E2 & Hstop).
  destruct stop as [[|]|].
  - destruct Hstop as (_ & e & He & Hk & Hh).
    destruct i as [|i]; [|by destruct (no_duplicate_above _ j i e Hw He Hk)].
    destruct Hw as (value & _ & rnd & Hst).
    eapply (read_step _ _ _ (Return (Added (Err ErrRecordExists)) None)
              (mkAThread (a_iter ath) (ADone (Added (Err ErrRecordExists)))));
      [done| |by split| |by left|done|done|cbn [rem loc at_pc]; pose proof (dist_bounds v prev); lia].
    + cbn. rewrite E1. cbn. rewrite E2. reflexivity.
    + eapply effect_take; [exact Hst|]. apply take_exists, map_has_key. eauto.
  - destruct Hstop as (_ & Hb).
    eapply (read_step _ _ _ (AddStore (set_splice j i (prev, next)) i) ath);
      [done| | |apply effect_none|by right|done|done|].
    3: { split; [done|]. apply fix_fresh; [exact Hp|lia|exact E1|apply Hl]. }
    + cbn. rewrite E1. cbn. by rewrite E2.
    + split; [done|]. apply set_splice_linking; [exact Hl|]. unfold splice_ok, splice_or_head. cbn.
      case_match; [split; by left|by split].
  - destruct Hstop as [Hp' Hd].
    eapply (read_step _ _ _ (AddFix j i next) ath);
      [done| | |apply effect_none|by right|done|done|cbn [rem loc at_pc]; lia].
    + cbn. rewrite E1. cbn. by rewrite E2.
    + by split.
Qed.

(** The compare-and-swap fails: someone else has linked a node behind [prev]. *)
Lemma add_link_fails j i prev next cur :
  standing v (mkThread it (AddLink j i prev next)) ath ->
  getNode (v_arena v) prev = Some prev -> getNext (v_arena v) prev (Z.of_nat i) = Some cur -> cur <> next ->
  steps_to v (mkThread it (AddLink j i prev next)) ath.
Proof.
  intros (_ & Hl & Hp & _) Hg Hn Hne. cbn in Hl, Hp.
  eapply (read_step _ _ _ (AddFix j i prev) ath); [done| |by split|apply effect_none|by right|done|done|].
  2: { split; [done|]. cbn [loc at_pc]. unfold fresh. cbn [fst snd].
       rewrite bool_decide_eq_false_2 by congruence. pose proof (dist_bounds v prev). lia. }
  cbn. unfold v_arena in *. rewrite Hg. cbn. unfold casNext. rewrite Hn. cbn.
  rewrite (proj2 (Z.eqb_neq _ _)) by done. cbn. by destruct (v_list v).
Qed.

(** The compare-and-swap succeeds: the node is linked between the nodes
    before and behind its key. *)
Lemma link_step j i prev next value es1 old es2 new' :
  let x := mkEntry (j_nd j) (j_key j) value (Z.of_nat i + 1) in
  standing v (mkThread it (AddLink j i prev next)) ath ->
  v_es v = es1 ++ old ++ es2 ->
  (old = [] /\ Z.of_nat i = 0 /\ node_of <$> v_new v ≡ₚ node_of x :: (node_of <$> new')) \/
    (0 < Z.of_nat i /\ new' = v_new v /\ exists x0, old = [x0] /\ node_of x0 = node_of x /\ e_h x0 = Z.of_nat i) ->
  (forall y, y ∈ v_new v -> e_off y <> e_off x -> y ∈ new') -> (forall y, y ∈ new' -> y ∈ v_new v) ->
  Forall (fun e => blt (e_key e) (j_key j)) es1 -> Forall (fun e => blt (j_key j) (e_key e)) es2 ->
  prev = lastof (head (v_list v)) (at_level (Z.of_nat i) es1) -> next = headof (at_level (Z.of_nat i) es2) ->
  getNode (v_arena v) prev = Some prev -> getNext (v_arena v) prev (Z.of_nat i) = Some next ->
  owned v (a_pc ath) j i ->
  (old = [] -> exists rnd, a_pc ath = APending (CAdd rnd (j_key j) value)) ->
  steps_to v (mkThread it (AddLink j i prev next)) ath.
Proof.
  intros x (_ & Hl & _ & _ & Hown) Hes Hold Hnew' Hsub H1 H2 Hprev Hnext Hg Hn Hw Hpend. cbn in Hl, Hown.
  pose proof Hl as ((Hjh & Hsp) & _ & Hi).
  destruct (last_split (head_entry (v_list v)) (at_level (Z.of_nat i) es1)) as (init & y & Hinit & _ & Hlast).
  change (e_off (head_entry (v_list v))) with (head (v_list v)) in Hlast. rewrite <- Hprev in Hlast.
  assert (Hy : y ∈ head_entry (v_list v) :: v_es v ++ v_new v).
  { assert (y ∈ head_entry (v_list v) :: at_level (Z.of_nat i) es1) as Hy by (rewrite Hinit; set_solver).
    apply elem_of_cons in Hy as [->|[Hy _]%at_level_elem]; [by left|rewrite Hes; set_solver]. }
  destruct (all_bounds v Hs y Hy) as [Hyb _].
  assert (Hnd : 0 <= j_nd j < 2 ^ 32).
  { destruct (own_node j i Hw) as (z & Hz & <- & _). apply (all_bounds v Hs). by right. }
  rewrite Hlast in Hn, Hg.
  destruct (casNext_spec (v_arena v) (e_off y) (Z.of_nat i) next (j_nd j) ltac:(lia) Hyb Hnd Hn) as (a' & Ecas & W).
  rewrite Hnext in Hown. assert (Hxh : e_h x = Z.of_nat i + 1 /\ e_h x <= height (v_list v)) by (cbn; lia).
  pose proof (link_shared v Hs x (Z.of_nat i) es1 old es2 new' ltac:(lia) Hxh Hes Hold Hnew' Hsub H1 H2 a' y init Hinit Hown W) as Hs'.
  pose proof (link_evolves v Hs x (Z.of_nat i) es1 old es2 new' ltac:(lia) Hxh Hes Hold Hnew' Hsub H1 H2 a' y init Hinit Hown W) as Hev.
  pose proof (link_map v x (Z.of_nat i) es1 old es2 new' Hes Hold H1 H2 a') as Hmap.
  set (v' := mkView (with_arena (v_list v) a') (es1 ++ x :: es2) new') in *.
  exists v', (link_test j (i + 1)), (mkAThread (a_iter ath) (ADone (Added (Ok tt)))). split.
  { cbn [tstep at_pc]. rewrite Hlast. unfold v_arena in *. rewrite Hg. cbn [mbind option_bind]. by rewrite Ecas. }
  destruct W as (Wn & Wb & _). pose proof (iter_ok_stable _ _ _ Hev _ _ Hit) as Hit'.
  assert (Hj' : job_ok v' j) by (eapply job_ok_stable; [exact Hev|done]).
  split; [exact Hs'|exact Hev| | | | |exact Wb| |unfold link_test; by destruct (_ <? _)].
  5: { left. unfold credit, link_test. destruct (_ <? _); cbn [rem at_pc v_list v' with_arena height]; lia. }
  - unfold link_test. destruct (Z.ltb_spec (Z.of_nat (i + 1)) (j_height j)); [|by split]. split; [done|]. cbn.
    split; [done|]. split; [|cbn; lia]. exists value. rewrite Nat.add_1_r, Nat2Z.inj_succ. split; [|done].
    cbn. unfold Z.succ. fold x. set_solver.
  - destruct Hold as [(-> & _)|(Hpos & _ & x0 & -> & _)].
    + right. destruct (Hpend eq_refl) as (rnd & Hst). eexists _, _. split; [exact Hst|]. split; [done|].
      rewrite Hmap. cbn. apply take_add. unfold v_map. rewrite Hes, has_key_elem. cbn.
      rewrite Forall_forall in H1, H2. intros (e & [He|He]%elem_of_app & Hk).
      * specialize (H1 e He). cbn in H1. rewrite Hk in H1. by apply blt_irrefl in H1.
      * specialize (H2 e He). cbn in H2. rewrite Hk in H2. by apply blt_irrefl in H2.
    + left. split; [|exact Hmap]. destruct i; [lia|]. destruct Hw as (? & _ & Hst). destruct ath; cbn in *. by rewrite Hst.
  - unfold link_test. destruct (_ <? _); [|done]. intros o Ho. by left.
  - unfold link_test, v_arena in *. destruct (_ <? _); cbn in *; lia.
Qed.

(** Which entries the compare-and-swap finds the node between. *)
Lemma link_between j i prev next :
  standing v (mkThread it (AddLink j i prev next)) ath ->
  getNext (v_arena v) prev (Z.of_nat i) = Some next ->
  exists A B, at_level (Z.of_nat i) (below (j_key j) (v_es v)) = A /\
    at_level (Z.of_nat i) (from (j_key j) (v_es v)) = B /\
    prev = lastof (head (v_list v)) A /\ next = headof B /\
    Forall (fun e => blt (j_key j) (e_key e)) B /\ getNode (v_arena v) prev = Some prev.
Proof.
  intros (_ & Hl & Hp & Hb & _) Hn. cbn in Hl, Hp, Hb. destruct Hl as ((Hjh & _) & _ & Hi).
  destruct (load_split v Hs (j_key j) i prev Hp ltac:(lia)) as (A & B & E & Hlast & HA & Hg & Hn').
  unfold v_arena in *. rewrite Hn in Hn'. injection Hn' as ->.
  assert (HB : match B with e :: _ => blt (j_key j) (e_key e) | [] => True end).
  { destruct B as [|e B]; [done|]. assert (He : e ∈ v_es v).
    { apply (at_level_elem (Z.of_nat i)). rewrite E. set_solver. }
    destruct Hb as [Hb|(e' & He' & Ho & Hk)].
    - destruct (node_ok_off _ _ (es_node v Hs e ltac:(by right))) as [Hne _]. done.
    - by rewrite <- (layout_off_inj _ _ e' e (rep_layout _ _ (sh_rep _ Hs)) ltac:(by right) ltac:(by right) Ho). }
  destruct (level_splice_split v Hs (j_key j) i A B E HA) as [-> ->].
  { destruct B; [done|]. by apply blt_ble. }
  exists A, B. split_and!; try done. destruct B as [|e B]; [done|]. constructor; [done|].
  assert (Hsort : StronglySorted blt (e_key <$> at_level (Z.of_nat i) (v_es v))).
  { eapply sorted_sublist; [apply at_level_sublist|apply (rep_sorted _ _ (sh_rep _ Hs))]. }
  rewrite E, fmap_app in Hsort. apply StronglySorted_app in Hsort as (_ & _ & Hsort).
  cbn in Hsort. apply StronglySorted_inv in Hsort as [_ Hsort]. rewrite Forall_fmap in Hsort.
  eapply Forall_impl; [exact Hsort|]. cbn. eauto with iw.
Qed.

Lemma add_link_ok j i prev next :
  standing v (mkThread it (AddLink j i prev next)) ath -> steps_to v (mkThread it (AddLink j i prev next)) ath.
Proof.
  intros Hst. pose proof Hst as (_ & Hl & Hp & _). cbn in Hl, Hp. destruct Hl as ((Hjh & _) & Hw & Hi).
  destruct (load_split v Hs (j_key j) i prev Hp ltac:(lia)) as (A0 & B0 & _ & _ & _ & Hg & Hn).
  destruct (decide (headof B0 = next)) as [Eq|Hne]; [rewrite Eq in Hn|by eapply add_link_fails].
  destruct (link_between j i prev next Hst Hn) as (A & B & EA & EB & Hprev & Hnext & HB & _).
  destruct (below_from_bounds (j_key j) (v_es v)) as [Hbel _].
  pose proof Hw as (value & Hw'). destruct i as [|i].
  - destruct Hw' as [Hin (rnd & Hpend)]. change (Z.of_nat 0) with 0 in *.
    destruct (at_level_0 _ _ (sh_rep _ Hs) (j_key j)) as [E1 E2]. rewrite E1 in EA. rewrite E2 in EB. subst A B.
    pose proof Hin as (N1 & N2 & EN)%list_elem_of_split.
    eapply (link_step j 0 prev next value (below (j_key j) (v_es v)) [] (from (j_key j) (v_es v)) (N1 ++ N2));
      try done.
    + apply sorted_split, (rep_sorted _ _ (sh_rep _ Hs)).
    + left. split; [done|]. split; [done|]. rewrite EN, !fmap_app, fmap_cons. by rewrite Permutation_middle.
    + intros y Hy Hne. rewrite EN in Hy. cbn in Hne. set_solver.
    + intros y Hy. rewrite EN. set_solver.
    + change (Z.of_nat 0) with 0. by rewrite E1.
    + change (Z.of_nat 0) with 0. by rewrite E2.
    + intros _. by exists rnd.
  - destruct Hw' as [Hin Hst']. pose proof Hin as (A' & B' & EN)%list_elem_of_split.
    set (x0 := mkEntry (j_nd j) (j_key j) value (Z.of_nat (S i))) in *.
    assert (Hsort := rep_sorted _ _ (sh_rep _ Hs)). rewrite EN, fmap_app, fmap_cons in Hsort.
    apply StronglySorted_app in Hsort as (HA' & _ & HB'). apply StronglySorted_inv in HB' as [_ HB'].
    rewrite Forall_fmap in HB'.
    assert (HA : Forall (fun e => blt (e_key e) (j_key j)) A').
    { apply Forall_forall. intros e He. apply HA'; [by apply list_elem_of_fmap_2|by left]. }
    destruct (below_from_app (j_key j) A' (x0 :: B')) as [F1 F2]; [done| |].
    { constructor; [apply ble_refl|]. eapply Forall_impl; [exact HB'|]. cbn. eauto with iw. }
    rewrite EN, F1 in EA. rewrite EN, F2 in EB. change (x0 :: B') with ([x0] ++ B') in EB.
    rewrite at_level_app, at_level_gone in EB by (cbn; lia). cbn [app] in EB. subst A B.
    eapply (link_step j (S i) prev next value A' [x0] B' (v_new v)); try done.
    right. split; [lia|]. split; [done|]. by exists x0.
Qed.
End add_steps.
