(* ===== verification/SkiplistConc.v ===== *)
(** The shared skiplist is linearizable: every run of its threads, in whatever
    order their atomic operations come, is a run of the atomic object of
    SkiplistAtomic.v with the same calls and answers. *)
From stdpp Require Import sorting.
From S2P Require Import Prelude Binary ByteOrder Sorted Arena Skiplist SkiplistMem SkiplistSpec SkiplistSteps SkiplistAtomic SkiplistMeasure SkiplistReads SkiplistWrites.

#[local] Open Scope Z_scope.

(** ** One step of one thread *)

Definition busy (p : pc) : bool := match p with Idle | Return _ _ => false | _ => true end.

Lemma step_ok v th ath :
  shared v -> standing v th ath -> busy (at_pc th) = true ->
  Arena.n (v_arena v) + 2 ^ 33 < 2 ^ 63 -> unpaid (at_pc th) < 2 ^ 32 -> steps_to v th ath.
Proof.
  intros Hs Hst Hb Hn Hu. pose proof (proj1 Hst) as Hit. destruct th as [it p].
  destruct p; try done.
  - by apply add_start_ok.
  - by apply add_find_ok.
  - by apply add_node_ok.
  - by apply add_height_ok.
  - by apply add_grow_ok.
  - by apply add_store_ok.
  - by apply add_link_ok.
  - by apply add_fix_ok.
  - by apply seek_start_ok.
  - by apply seek_find_ok.
  - by apply first_load_ok.
  - by apply next_load_ok.
Qed.

Lemma own_lt v th ath o :
  shared v -> standing v th ath -> own (at_pc th) = Some o -> o < Arena.n (v_arena v).
Proof.
  intros Hs [_ Hst] Ho. assert (exists j i, owned v (a_pc ath) j i /\ j_nd j = o) as (j & i & Hw & <-).
  { destruct th as [it p]; cbn in *. destruct p; try done; injection Ho as <-; unfold linking in Hst;
      destruct_and?; eauto. }
  destruct (own_node v ath j i Hw) as (x & Hx & <- & _).
  destruct (all_node v Hs x ltac:(by right)) as [_ Hend]. pose proof (range_size x). cbn in *.
  unfold maxNodeSize in *. lia.
Qed.

(** ** The simulation *)

(** What the threads have still to take from the arena. *)
Definition debt (ths : list thread) : Z := sum_of (fun th => unpaid (at_pc th)) ths.

#[local] Arguments debt : simpl never.

Lemma debt_insert ths t th th' :
  ths !! t = Some th -> debt (<[t := th']> ths) = debt ths - unpaid (at_pc th) + unpaid (at_pc th').
Proof. apply (sum_of_insert (fun th => unpaid (at_pc th))). Qed.

Lemma unpaid_pos p : 0 <= unpaid p.
Proof. destruct p; try done; apply cost_pos. Qed.

Lemma debt_pos ths : 0 <= debt ths.
Proof. apply (sum_of_pos (fun th => unpaid (at_pc th))). intros th _. apply unpaid_pos. Qed.

(** [cap] is the size of the arena, [limit] what the calls may take of it. *)
Record sim (cap limit : Z) (v : view) (w : world) (aw : aworld) : Prop := {
  sim_list : v_list v = list_of w;
  sim_shared : shared v;
  sim_map : v_map v = a_map aw;
  sim_standing : Forall2 (standing v) (threads w) (a_threads aw);
  sim_cap : blen (abuf (v_arena v)) = cap;
  sim_limit : Arena.n (v_arena v) + debt (threads w) <= limit;
  sim_own : forall t1 t2 th1 th2 o, threads w !! t1 = Some th1 -> threads w !! t2 = Some th2 ->
    own (at_pc th1) = Some o -> own (at_pc th2) = Some o -> t1 = t2;
  sim_small : Forall (fun th => unpaid (at_pc th) < 2 ^ 32) (threads w);
  sim_full : Forall (fun th => full_at (at_pc th) = true -> cap < limit) (threads w) }.

Lemma insert_lookup_cases {A} (l : list A) t x t' y :
  <[t := x]> l !! t' = Some y -> (t' = t /\ y = x) \/ (t' <> t /\ l !! t' = Some y).
Proof.
  intros H. destruct (decide (t' = t)) as [->|Hne].
  - left. split; [done|]. pose proof (lookup_lt_Some _ _ _ H) as Hl. rewrite length_insert in Hl.
    rewrite list_lookup_insert_eq in H by done. congruence.
  - right. by rewrite list_lookup_insert_ne in H.
Qed.

(** A thread moves within its call, or between calls, on the same list. *)
Lemma sim_set cap limit v w aw t th th' ath ath' :
  sim cap limit v w aw -> threads w !! t = Some th -> a_threads aw !! t = Some ath ->
  (standing v th ath -> standing v th' ath') -> own (at_pc th') = None ->
  unpaid (at_pc th') < 2 ^ 32 -> full_at (at_pc th') = false ->
  sim cap (limit + unpaid (at_pc th')) v (set_thread w (list_of w) t th')
    (set_athread aw (a_map aw) t ath').
Proof.
  intros [Hl Hs Hm Hst Hcap Hlim Ho Hsm Hf] Ht Hat Hnew Hown Hu Hfull. split; cbn; try done.
  - apply Forall2_insert; [done|]. apply Hnew. eapply Forall2_lookup_lr; eauto.
  - rewrite (debt_insert _ _ th) by done. pose proof (unpaid_pos (at_pc th)). lia.
  - intros t1 t2 y1 y2 o [[-> ->]|[N1 Hy1]]%insert_lookup_cases [[-> ->]|[N2 Hy2]]%insert_lookup_cases E1 E2;
      try congruence. by eapply Ho.
  - by apply Forall_insert.
  - apply Forall_insert; [|congruence]. eapply Forall_impl; [exact Hf|]. cbn. intros y H E. specialize (H E).
    pose proof (unpaid_pos (at_pc th')). lia.
Qed.

(** A step of a thread is a step of the object, or none. *)
Lemma sim_step cap limit v w aw t th :
  sim cap limit v w aw -> limit + 2 ^ 33 < 2 ^ 63 -> threads w !! t = Some th -> busy (at_pc th) = true ->
  exists v' p' aw', exec w (Step t) = Some (set_thread w (v_list v') t (mkThread (iter th) p'), []) /\
    asteps aw [] aw' /\ sim cap limit v' (set_thread w (v_list v') t (mkThread (iter th) p')) aw' /\
    progress v v' (at_pc th) p'.
Proof.
  intros [Hl Hs Hm Hst Hcap Hlim Ho Hsm Hf] Hbound Ht Hb.
  destruct (Forall2_lookup_l _ _ _ _ _ Hst Ht) as (ath & Hat & Hth).
  pose proof (debt_pos (threads w)).
  assert (Hu : unpaid (at_pc th) < 2 ^ 32) by (rewrite Forall_lookup in Hsm; by apply (Hsm t)).
  destruct (step_ok v th ath Hs Hth Hb ltac:(lia) Hu)
    as (v' & p' & ath' & Et & [Hs' Hev Hth' Heff Hown [Hpu Hpaid] Hcap' Hprog Hfull]).
  rewrite Hl in Et. exists v', p', (set_athread aw (v_map v') t ath').
  split; [cbn; rewrite Ht; cbn; by rewrite Et|]. split; [|split; [|done]].
  { destruct Heff as [[-> Em]|(c & a & Ea & -> & Htk)].
    - assert (set_athread aw (v_map v') t ath = aw) as ->; [|constructor].
      unfold set_athread. rewrite list_insert_id by done. rewrite Em, Hm. by destruct aw.
    - apply asteps_one. apply (a_take _ t (a_iter ath) c); [rewrite Hat; f_equal; destruct ath; cbn in *; congruence|].
      by rewrite <- Hm. }
  assert (Hdebt : debt (<[t := mkThread (iter th) p']> (threads w)) = debt (threads w) - unpaid (at_pc th) + unpaid p')
    by (by rewrite (debt_insert _ _ th)).
  split; cbn; try done.
  - apply Forall2_same_length_lookup. split; [rewrite !length_insert; by eapply Forall2_length|].
    intros t' y ay [[-> ->]|[Hne Hy]]%insert_lookup_cases Hay; apply insert_lookup_cases in Hay as [[? ->]|[? Hay]]; try done.
    eapply standing_stable; [exact Hev| |by eapply Forall2_lookup_lr].
    intros x Hx E. apply Hne. eapply Ho; [exact Hy|exact Ht|exact Hx|exact E].
  - congruence.
  - lia.
  - assert (Hout : forall t' y o, t' <> t -> threads w !! t' = Some y -> own (at_pc y) = Some o -> own p' <> Some o).
    { intros t' y o Hne Hy E E'. destruct (Forall2_lookup_l _ _ _ _ _ Hst Hy) as (ay & _ & Hay).
      destruct (Hown o E') as [E2|Hlt]; [apply Hne; by eapply Ho|].
      pose proof (own_lt v y ay o Hs Hay E). lia. }
    intros t1 t2 y1 y2 o [[-> ->]|[N1 Hy1]]%insert_lookup_cases [[-> ->]|[N2 Hy2]]%insert_lookup_cases E1 E2;
      try done; [by destruct (Hout t2 y2 o N2 Hy2 E2)|by destruct (Hout t1 y1 o N1 Hy1 E1)|by eapply Ho].
  - apply Forall_insert; [done|]. cbn. lia.
  - apply Forall_insert; [done|]. cbn. intros E. specialize (Hfull E).
    pose proof (debt_pos (<[t := mkThread (iter th) p']> (threads w))). lia.
Qed.

(** ** Runs *)

Definition act_cost (act : action) : Z := match act with Call _ c => cost c | _ => 0 end.

(** What a schedule's calls can take from the arena. *)
Fixpoint demand (acts : list action) : Z :=
  match acts with [] => 0 | act :: acts => act_cost act + demand acts end.

(** A node fits the [uint32] of its size. *)
Definition fits_node (act : action) : Prop := act_cost act < 2 ^ 32.

Lemma act_cost_pos act : 0 <= act_cost act.
Proof. destruct act; [apply cost_pos|done|done]. Qed.

Lemma demand_pos acts : 0 <= demand acts.
Proof. induction acts as [|act acts IH]; cbn; [done|]. pose proof (act_cost_pos act). lia. Qed.

Definition full_answer (e : event) : Prop := exists t, e = Res t (Added (Err (ErrArena ErrFull))).

Lemma start_unpaid it c : unpaid (start it c) = cost c.
Proof. by destruct c. Qed.

Lemma start_own it c : own (start it c) = None /\ full_at (start it c) = false.
Proof. by destruct c. Qed.

Lemma start_standing v it ath c :
  standing v (mkThread it Idle) ath ->
  standing v (mkThread it (start it c)) (mkAThread (a_iter ath) (APending c)).
Proof. intros [Hit _]. split; [done|]. by destruct c. Qed.

Lemma sim_exec cap limit v w aw act w' hs :
  sim cap limit v w aw -> limit + act_cost act + 2 ^ 33 < 2 ^ 63 -> fits_node act ->
  exec w act = Some (w', hs) ->
  exists v' aw', asteps aw hs aw' /\ sim cap (limit + act_cost act) v' w' aw' /\
    (forall e, e ∈ hs -> full_answer e -> cap < limit + act_cost act).
Proof.
  intros Hsim Hb Hfit He. pose proof He as He0. pose proof Hsim as [_ _ _ Hst _ _ _ _ Hfull].
  destruct act as [t c|t|t]; cbn [exec act_cost] in He, Hb |- *;
    apply bind_Some in He as ([it p] & Ht & He);
    destruct (Forall2_lookup_l _ _ _ _ _ Hst Ht) as ([ait ap] & Hat & Hth).
  - destruct p; try done. injection He as <- <-. pose proof (proj2 Hth) as Hi. cbn in Hi. subst ap.
    exists v. eexists. split; [apply asteps_one; by apply a_call|]. split; [|by intros e ->%list_elem_of_singleton [t' ?]].
    destruct (start_own it c) as [Hso Hsf]. rewrite <- (start_unpaid it c).
    apply (sim_set cap limit v w aw t (mkThread it Idle) (mkThread it (start it c)) (mkAThread ait AIdle)
             (mkAThread ait (APending c))); try done; cbn; [|by rewrite start_unpaid].
    apply start_standing.
  - destruct (busy p) eqn:Hbusy; [|by destruct p].
    destruct (sim_step cap limit v w aw t _ Hsim ltac:(lia) Ht Hbusy) as (v2 & p2 & aw2 & Hex & Has & Hsim2 & _).
    rewrite Hex in He0. injection He0 as <- <-.
    exists v2, aw2. rewrite Z.add_0_r. split_and!; [done|done|]. by intros e ?%elem_of_nil.
  - destruct p as [| | | | | | | | | | | | |a o]; try done. injection He as <- <-.
    pose proof (proj2 Hth) as [Hi _]. cbn in Hi. subst ap.
    exists v. eexists. split; [apply asteps_one; by apply a_reply|]. split.
    + apply (sim_set cap limit v w aw t (mkThread it (Return a o)) (mkThread (default it o) Idle)
               (mkAThread ait (ADone a)) (mkAThread (moved a ait) AIdle)); try done.
      intros (_ & _ & Hit). by split.
    + intros e ->%list_elem_of_singleton [t' [= <- ->]]. rewrite Forall_lookup in Hfull.
      specialize (Hfull t _ Ht eq_refl). lia.
Qed.

Lemma sim_execs cap acts : forall limit v w aw w' hs,
  sim cap limit v w aw -> limit + demand acts + 2 ^ 33 < 2 ^ 63 -> Forall fits_node acts ->
  execs w acts = Some (w', hs) ->
  exists v' aw', asteps aw hs aw' /\ sim cap (limit + demand acts) v' w' aw' /\
    (forall e, e ∈ hs -> full_answer e -> cap < limit + demand acts).
Proof.
  induction acts as [|act acts IH]; intros limit v w aw w' hs Hsim Hb Hfit He; cbn [execs demand] in *.
  - injection He as <- <-. exists v, aw. rewrite Z.add_0_r. split_and!; [constructor|done|by intros e ?%elem_of_nil].
  - apply Forall_cons in Hfit as [Hf Hfit]. pose proof (demand_pos acts).
    apply bind_Some in He as ([w1 h1] & He1 & He). apply bind_Some in He as ([w2 h2] & He2 & He).
    injection He as <- <-.
    destruct (sim_exec cap limit v w aw act w1 h1 Hsim ltac:(lia) Hf He1) as (v1 & aw1 & Ha1 & Hs1 & Hc1).
    destruct (IH (limit + act_cost act) v1 w1 aw1 w2 h2 Hs1 ltac:(lia) Hfit He2) as (v2 & aw2 & Ha2 & Hs2 & Hc2).
    exists v2, aw2. rewrite Z.add_assoc. split_and!; [by eapply asteps_trans|done|].
    intros e [He|He]%elem_of_app Hfull; [specialize (Hc1 e He Hfull); lia|by apply (Hc2 e)].
Qed.

Lemma sim_init s es k :
  rep s es ->
  sim (blen (abuf (arena s))) (Arena.n (arena s)) (mkView s es []) (mkWorld s (idle_threads k))
    (mkAWorld (contents es) (idle_athreads k)).
Proof.
  intros Hr. split; cbn; try done.
  - split; cbn; [done|rewrite app_nil_r; apply Hr|constructor|pose proof (rep_count _ _ Hr); cbn; unfold v_arena; cbn; lia].
  - apply Forall2_replicate. split; [by left|done].
  - assert (debt (idle_threads k) = 0) as ->; [|unfold v_arena; cbn; lia].
    induction k as [|k IH]; [done|]. exact IH.
  - intros t1 t2 th1 th2 o [-> _]%lookup_replicate _ E. done.
  - apply Forall_replicate. done.
  - apply Forall_replicate. done.
Qed.

(** ** Properties *)

(** C3: Linearizability of the lock-free skiplist: take any list, any number of
    goroutines that call [Add], [Get] and the methods of their iterators, and
    any order of their atomic operations.  Every call takes effect at one
    moment between its call and its return, as if the list were a sorted map
    behind a lock: the same calls get the same answers in a run of the atomic
    object; and at every moment the list in the arena holds exactly the pairs
    of the object.  No step panics, in particular not with "duplicate found at
    non-base level", whatever the other threads do in between; and as long as
    the calls fit the arena none reports that it is full. *)
Theorem skiplist_linearizable (s : Skiplist) (es : list entry) (k : nat) (acts : list action)
  (w : world) (hs : list event) :
  rep s es -> Forall fits_node acts -> Arena.n (arena s) + demand acts + 2 ^ 33 < 2 ^ 63 ->
  execs (mkWorld s (idle_threads k)) acts = Some (w, hs) ->
  exists aw, asteps (mkAWorld (contents es) (idle_athreads k)) hs aw /\
    Skiplist.entries (list_of w) = Some (a_map aw) /\ ascending (a_map aw) /\
    (forall t th, threads w !! t = Some th -> busy (at_pc th) = true -> is_Some (exec w (Step t))) /\
    (Arena.n (arena s) + demand acts <= blen (abuf (arena s)) -> forall e, e ∈ hs -> ~ full_answer e).
Proof.
  intros Hr Hfit Hb He.
  destruct (sim_execs _ acts _ _ _ _ _ _ (sim_init s es k Hr) Hb Hfit He) as (v & aw & Ha & Hsim & Hfull).
  exists aw. split; [exact Ha|]. pose proof Hsim as [Hl Hs Hm _ _ _ _ _ _].
  pose proof (sh_rep _ Hs) as Hr'. rewrite Hl in Hr'. rewrite <- Hm. split_and!.
  - by apply entries_spec.
  - by eapply rep_contents_sorted.
  - intros t th Ht Hbusy. destruct (sim_step _ _ _ _ _ t th Hsim Hb Ht Hbusy) as (v' & p' & _ & E & _). by rewrite E.
  - intros Hcap e Hin Hans. specialize (Hfull e Hin Hans). lia.
Qed.

(** Three writers on a small list, two of them with the same key: the loser
    finds out when its compare-and-swap fails, after the first has returned. *)
Definition demo_schedule : list action :=
  [Call 0 (CAdd 3000000000 [x62] [x31]); Call 1 (CAdd 900000000 [x61] [x32]);
   Call 2 (CAdd 3000000000 [x62] [x33])] ++
  concat (replicate 6 [Step 1; Step 0; Step 2]) ++
  [Step 1; Reply 0; Step 2; Step 1; Reply 2; Step 1; Step 1; Step 1; Step 1; Reply 1].

Definition demo_history : list event :=
  [Inv 0 (CAdd 3000000000 [x62] [x31]); Inv 1 (CAdd 900000000 [x61] [x32]);
   Inv 2 (CAdd 3000000000 [x62] [x33]);
   Res 0 (Added (Ok tt)); Res 2 (Added (Err ErrRecordExists)); Res 1 (Added (Ok tt))].

Lemma demo_run :
  exists w, execs (mkWorld demo0 (idle_threads 3)) demo_schedule = Some (w, demo_history) /\
    Skiplist.entries (list_of w) = Some [([x61], [x32]); ([x62], [x31])].
Proof.
  assert (E : ('(w, hs) ← execs (mkWorld demo0 (idle_threads 3)) demo_schedule;
               es ← Skiplist.entries (list_of w); Some (hs, es)) =
    Some (demo_history, [([x61], [x32]); ([x62], [x31])])) by (vm_compute; reflexivity).
  apply bind_Some in E as ([w hs] & Hw & E). apply bind_Some in E as (es & He & E).
  injection E as E1 E2. rewrite E1 in Hw. rewrite E2 in He. exists w. exact (conj Hw He).
Qed.

Lemma skiplist_linearizable_witness :
  exists aw, asteps (mkAWorld [] (idle_athreads 3)) demo_history aw /\
    a_map aw = [([x61], [x32]); ([x62], [x31])].
Proof.
  destruct demo_run as (w & Hw & He).
  destruct (skiplist_linearizable demo0 [] 3 demo_schedule w demo_history demo0_rep) as (aw & Ha & Hm & _).
  - unfold demo_schedule. repeat constructor.
  - vm_compute. reflexivity.
  - exact Hw.
  - exists aw. split; [exact Ha|]. rewrite He in Hm. injection Hm as Hm. exact (eq_sym Hm).
Defined.
