(* ===== verification/SkiplistProgress.v ===== *)
(** The shared skiplist is lock-free: without new calls its threads cannot go
    on for ever, however they are scheduled, and when none of them can move
    every call has returned. *)
From stdpp Require Import sorting relations.
From S2P Require Import Prelude Binary ByteOrder Sorted Arena Skiplist SkiplistMem SkiplistSpec SkiplistSteps SkiplistAtomic SkiplistMeasure SkiplistReads SkiplistWrites SkiplistConc.

#[local] Open Scope Z_scope.

(** A move of some thread that is no new call. *)
Inductive moves (w : world) : world -> Prop :=
| moves_step t w' : exec w (Step t) = Some (w', []) -> moves w w'
| moves_reply t w' hs : exec w (Reply t) = Some (w', hs) -> moves w w'.

(** ** The measure of a world *)

Definition credits (v : view) (w : world) : Z :=
  MaxHeight - height (v_list v) + sum_of (fun th => rem (at_pc th)) (threads w).

Definition locs (v : view) (w : world) : Z := sum_of (fun th => loc v (at_pc th)) (threads w).

Lemma rem_pos v th ath : standing v th ath -> 0 <= rem (at_pc th).
Proof.
  intros [_ Hst]. destruct (at_pc th); cbn in *; try done; unfold linking, job_ok in Hst; lia.
Qed.

Lemma credits_pos cap limit v w aw : sim cap limit v w aw -> 0 <= credits v w.
Proof.
  intros Hsim. pose proof (rep_height _ _ (sh_rep _ (sim_shared _ _ _ _ _ Hsim))) as Hh. unfold credits.
  enough (0 <= sum_of (fun th => rem (at_pc th)) (threads w)) by lia. apply sum_of_pos.
  intros th [t Ht]%list_elem_of_lookup.
  destruct (Forall2_lookup_l _ _ _ _ _ (sim_standing _ _ _ _ _ Hsim) Ht) as (ath & _ & Hst).
  by eapply rem_pos.
Qed.

Lemma locs_pos v w : 0 <= locs v w.
Proof. apply (sum_of_pos (fun th => loc v (at_pc th))). intros th _. apply loc_pos. Qed.

(** Every move makes the measure smaller. *)
Lemma sim_moves cap limit v w aw w' :
  sim cap limit v w aw -> limit + 2 ^ 33 < 2 ^ 63 -> moves w w' ->
  exists v' aw', sim cap limit v' w' aw' /\
    (credits v' w' < credits v w \/ (credits v' w' <= credits v w /\ locs v' w' < locs v w)).
Proof.
  intros Hsim Hb Hm. inversion Hm as [t w1 He|t w1 hs He]; subst w1.
  - pose proof He as He0. cbn in He0. apply bind_Some in He0 as (th & Ht & He0).
    assert (Hbusy : busy (at_pc th) = true).
    { destruct (busy (at_pc th)) eqn:E; [done|]. by destruct (at_pc th). }
    destruct (sim_step cap limit v w aw t th Hsim Hb Ht Hbusy) as (v' & p' & aw' & Hex & _ & Hsim' & Hp).
    rewrite Hex in He. injection He as <-. exists v', aw'. split; [done|]. unfold credits, locs. cbn [threads set_thread].
    rewrite !(sum_of_insert _ _ _ th) by done. cbn [at_pc]. destruct Hp as [Hp|(Hq & Hr & Hl)]; [left; unfold credit in Hp; lia|].
    right. rewrite (qu_height _ _ Hq). split; [lia|].
    assert (Hloc : forall y, y ∈ threads w -> loc v' (at_pc y) = loc v (at_pc y)).
    { intros y [t' Hy]%list_elem_of_lookup.
      destruct (Forall2_lookup_l _ _ _ _ _ (sim_standing _ _ _ _ _ Hsim) Hy) as (ay & _ & Hst).
      by eapply loc_quiet. }
    rewrite (sum_of_ext _ _ _ Hloc), (Hloc th) by (by eapply list_elem_of_lookup_2). lia.
  - cbn in He. apply bind_Some in He as ([it p] & Ht & He). destruct p as [| | | | | | | | | | | | |a o]; try done.
    injection He as <- <-.
    destruct (Forall2_lookup_l _ _ _ _ _ (sim_standing _ _ _ _ _ Hsim) Ht) as ([ait ap] & Hat & Hst).
    exists v. eexists. split.
    + rewrite <- (Z.add_0_r limit).
      apply (sim_set cap limit v w aw t (mkThread it (Return a o)) (mkThread (default it o) Idle)
               (mkAThread ait ap) (mkAThread (moved a ait) AIdle)); try done.
      intros (_ & _ & Hit). by split.
    + right. unfold credits, locs. cbn [threads set_thread].
      rewrite !(sum_of_insert _ _ _ (mkThread it (Return a o))) by done. cbn [at_pc rem loc]. lia.
Qed.

(** No run of moves is infinite. *)
Lemma moves_end cap limit : limit + 2 ^ 33 < 2 ^ 63 -> forall n m v w aw,
  credits v w < Z.of_nat n -> locs v w < Z.of_nat m -> sim cap limit v w aw -> sn moves w.
Proof.
  intros Hb. induction n as [|n IHn]; intros m v w aw Hn Hm Hsim;
    [pose proof (credits_pos _ _ _ _ _ Hsim); lia|].
  revert v w aw Hn Hm Hsim. induction m as [|m IHm]; intros v w aw Hn Hm Hsim; [pose proof (locs_pos v w); lia|].
  constructor. intros w' Hw'. destruct (sim_moves _ _ _ _ _ _ Hsim Hb Hw') as (v' & aw' & Hsim' & [Hc|[Hc Hl]]).
  - apply (IHn (S (Z.to_nat (locs v' w'))) v' w' aw'); [lia|lia|done].
  - apply (IHm v' w' aw'); [lia|lia|done].
Qed.

Lemma sim_rtc cap limit w w' :
  limit + 2 ^ 33 < 2 ^ 63 -> rtc moves w w' ->
  (exists v aw, sim cap limit v w aw) -> exists v aw, sim cap limit v w' aw.
Proof.
  intros Hb. induction 1 as [w|w w1 w2 Hm _ IH]; [done|]. intros (v & aw & Hsim). apply IH.
  destruct (sim_moves _ _ _ _ _ _ Hsim Hb Hm) as (v' & aw' & Hsim' & _). by exists v', aw'.
Qed.

(** ** Properties *)

(** C9: Lock freedom: from any state that goroutines can reach on a skiplist,
    the pending calls come to an end whatever the scheduler does, without any
    fairness: there is no infinite run without new calls, although a
    compare-and-swap may fail and be tried again.  And a state in which no
    thread can move is one in which every call has returned: none is stuck and
    none has panicked. *)
Theorem skiplist_lock_free (s : Skiplist) (es : list entry) (k : nat) (acts : list action)
  (w : world) (hs : list event) :
  rep s es -> Forall fits_node acts -> Arena.n (arena s) + demand acts + 2 ^ 33 < 2 ^ 63 ->
  execs (mkWorld s (idle_threads k)) acts = Some (w, hs) ->
  sn moves w /\
  forall w', rtc moves w w' -> nf moves w' -> Forall (fun th => at_pc th = Idle) (threads w').
Proof.
  intros Hr Hfit Hb He.
  destruct (sim_execs _ acts _ _ _ _ _ _ (sim_init s es k Hr) Hb Hfit He) as (v & aw & _ & Hsim & _).
  split.
  - apply (moves_end (blen (abuf (arena s))) (Arena.n (arena s) + demand acts) Hb (S (Z.to_nat (credits v w))) (S (Z.to_nat (locs v w))) v w aw); [lia|lia|done].
  - intros w' Hw' Hnf. destruct (sim_rtc (blen (abuf (arena s))) _ _ _ Hb Hw' (ex_intro _ v (ex_intro _ aw Hsim))) as (v' & aw' & Hsim').
    apply Forall_lookup. intros t th Ht. destruct (busy (at_pc th)) eqn:Hbusy.
    + destruct (sim_step _ _ _ _ _ t th Hsim' Hb Ht Hbusy) as (v2 & p2 & _ & Hex & _). destruct Hnf.
      eexists. eapply moves_step, Hex.
    + destruct (at_pc th) as [| | | | | | | | | | | | |a o] eqn:E; try done. destruct Hnf. eexists.
      eapply (moves_reply _ t). cbn. rewrite Ht. cbn. rewrite E. reflexivity.
Qed.

(** In the middle of the run of three writers, all of them are busy. *)
Lemma demo_pending :
  exists w hs, execs (mkWorld demo0 (idle_threads 3)) (take 15 demo_schedule) = Some (w, hs) /\
    (fun th => busy (at_pc th)) <$> threads w = [true; true; true].
Proof.
  assert (E : ('(w, hs) ← execs (mkWorld demo0 (idle_threads 3)) (take 15 demo_schedule);
               Some ((fun th => busy (at_pc th)) <$> threads w)) = Some [true; true; true])
    by (vm_compute; reflexivity).
  apply bind_Some in E as ([w hs] & Hw & E). injection E as E. exists w, hs. exact (conj Hw E).
Qed.

Lemma skiplist_lock_free_witness :
  exists w, (fun th => busy (at_pc th)) <$> threads w = [true; true; true] /\ sn moves w.
Proof.
  destruct demo_pending as (w & hs & Hw & Hb). exists w. split; [exact Hb|].
  destruct (skiplist_lock_free demo0 [] 3 (take 15 demo_schedule) w hs demo0_rep) as [Hsn _].
  - repeat constructor.
  - vm_compute. reflexivity.
  - exact Hw.
  - exact Hsn.
Defined.
