(* ===== verification/SkiplistSolo.v ===== *)
(** The two models of the skiplist agree: [Skiplist.Add], [Get], [SeekGE],
    [First] and [Next] of Skiplist.v are what a thread of SkiplistSteps.v does
    when no other thread takes a step between its own. *)
From stdpp Require Import relations.
From S2P Require Import Prelude Binary ByteOrder Sorted Arena Skiplist SkiplistMem SkiplistSpec SkiplistSteps.

#[local] Open Scope Z_scope.

(** One thread alone with the list. *)
Definition alone (x y : Skiplist * pc) : Prop := tstep x.1 x.2 = Some y.

(** A load of the link of a place, as the loops of Skiplist.v begin. *)
Lemma load_next_eq a prev k nd next :
  getNode a prev = Some nd -> getNext a nd (Z.of_nat k) = Some next -> load_next a prev k = Some next.
Proof. intros H1 H2. unfold load_next. by rewrite H1. Qed.

(** The walk along one level, from any of the three loops: [mk p] is the
    thread about to load the link of [p]. *)
Lemma walk_alone s key k (mk : Z -> pc) :
  (forall p next, load_next (arena s) p k = Some next -> stop_at (arena s) key next = Some None ->
     alone (s, mk p) (s, mk next)) ->
  forall fuel prev next prev' next' f,
  load_next (arena s) prev k = Some next ->
  walk fuel (arena s) key (Z.of_nat k) prev next = Some (prev', next', f) ->
  rtc alone (s, mk prev) (s, mk prev') /\ load_next (arena s) prev' k = Some next' /\
  stop_at (arena s) key next' = Some (Some f).
Proof.
  intros Hmk. induction fuel as [|fuel IH]; intros prev next prev' next' f Hl Hw; [done|]. cbn [walk] in Hw.
  destruct (next =? 0) eqn:E0.
  - injection Hw as <- <- <-. split_and!; [done|done|]. unfold stop_at. by rewrite E0.
  - apply bind_Some in Hw as (nd & Hg & Hw). apply bind_Some in Hw as (nk & Hk & Hw).
    assert (Hst : stop_at (arena s) key next =
      Some (if compareKeys key nk <=? 0 then Some (compareKeys key nk =? 0) else None)).
    { unfold stop_at. by rewrite E0, Hg; cbn; rewrite Hk. }
    destruct (compareKeys key nk <=? 0).
    + injection Hw as <- <- <-. by split_and!.
    + apply bind_Some in Hw as (next2 & Hn & Hw).
      destruct (IH next next2 prev' next' f) as (Hr & Hl' & Hs'); [by eapply load_next_eq|done|].
      split_and!; [|done|done]. eapply rtc_l; [by apply Hmk|exact Hr].
Qed.

(** The loop of [findSplice]. *)
Lemma findSplice_alone s rnd key value k : forall prev found spl spl' found',
  findSplice_loop k s key prev found spl = Some (spl', found') ->
  rtc alone (s, add_levels rnd key value k prev found spl) (s, add_levels rnd key value 0 prev found' spl').
Proof.
  induction k as [|k IH]; intros prev found spl spl' found' H; cbn [findSplice_loop] in H.
  - by injection H as <- <-.
  - apply bind_Some in H as (nd & Hg & H). apply bind_Some in H as (next & Hn & H).
    apply bind_Some in H as ([[prev' next'] eq] & Hw & H). cbn [add_levels].
    destruct (walk_alone s key k (fun p => AddFind rnd key value k p found spl)) with (2 := load_next_eq _ _ _ _ _ Hg Hn) (3 := Hw)
      as (Hr & Hl & Hs).
    { intros p nx H1 H2. unfold alone. cbn. rewrite H1. cbn. by rewrite H2. }
    etrans; [exact Hr|]. eapply rtc_l; [unfold alone; cbn; rewrite Hl; cbn; rewrite Hs; reflexivity|].
    apply IH in H. exact H.
Qed.

(** The loop of [seekGE]. *)
Lemma seekGE_alone s w key k : forall prev next prev' next',
  seekGE_loop k s key prev next = Some (prev', next') ->
  forall p, seek_end s w key next' = Some p ->
  exists q, seek_levels s w key k prev next = Some q /\ rtc alone (s, q) (s, p).
Proof.
  induction k as [|k IH]; intros prev next prev' next' H p Hp; cbn [seekGE_loop] in H.
  - injection H as <- <-. by exists p.
  - apply bind_Some in H as (nd & Hg & H). apply bind_Some in H as (nx & Hn & H).
    apply bind_Some in H as ([[pr nx'] eq] & Hw & H). eexists. split; [reflexivity|].
    destruct (walk_alone s key k (SeekFind w key k)) with (2 := load_next_eq _ _ _ _ _ Hg Hn) (3 := Hw)
      as (Hr & Hl & Hs).
    { intros p1 n1 H1 H2. unfold alone. cbn. rewrite H1. cbn. by rewrite H2. }
    destruct (IH pr nx' prev' next' H p Hp) as (q & Hq & Hr').
    etrans; [exact Hr|]. eapply rtc_l; [|exact Hr'].
    unfold alone. cbn. rewrite Hl. cbn. rewrite Hs. cbn. by rewrite Hq.
Qed.

(** Linking on one level. *)
Lemma link_level_alone j i : forall fuel s sp s' r spl,
  link_level fuel s (j_key j) (j_nd j) (Z.of_nat i) sp = Some (s', r) -> r <> Panic ->
  spl !! i = Some sp ->
  exists spl', (forall m, m <> i -> spl' !! m = spl !! m) /\ length spl' = length spl /\
    rtc alone (s, AddStore (mkJob (j_key j) (j_nd j) (j_height j) spl) i)
      (s', match r with
           | Ok _ => link_test (mkJob (j_key j) (j_nd j) (j_height j) spl') (i + 1)
           | _ => Return (Added r) None
           end).
Proof.
  induction fuel as [|fuel IH]; intros s sp s' r spl H Hr Hsp; [done|]. cbn [link_level] in H.
  fold (splice_or_head s sp) in H. destruct (splice_or_head s sp) as [prev next] eqn:Esp.
  apply bind_Some in H as (nd & Hg & H). apply bind_Some in H as (a & Ha & H).
  apply bind_Some in H as (pr & Hp & H). apply bind_Some in H as ([a2 sw] & Hc & H).
  set (j0 := mkJob (j_key j) (j_nd j) (j_height j) spl).
  assert (Hst : alone (s, AddStore j0 i) (with_arena s a, AddLink j0 i prev next)).
  { unfold alone. cbn. rewrite Hsp. cbn. rewrite Esp, Hg. cbn. by rewrite Ha. }
  destruct sw.
  - injection H as <- <-. exists spl. split_and!; [done|done|].
    eapply rtc_l; [exact Hst|]. apply rtc_once. unfold alone. cbn. rewrite Hp. cbn. by rewrite Hc.
  - apply bind_Some in H as ([[p2 n2] found] & Hf & H).
    unfold findSpliceForLevel in Hf. apply bind_Some in Hf as (nd2 & Hg2 & Hf).
    apply bind_Some in Hf as (nx2 & Hn2 & Hw). cbn [arena] in Hg2, Hn2, Hw.
    destruct (walk_alone (with_arena s a2) (j_key j) i (AddFix j0 i)) with
      (2 := load_next_eq _ _ _ _ _ Hg2 Hn2) (3 := Hw) as (Hwr & Hl & Hs).
    { intros p1 n1 H1 H2. unfold alone. cbn in *. rewrite H1. cbn. by rewrite H2. }
    assert (Hmid : rtc alone (s, AddStore j0 i) (with_arena s a2, AddFix j0 i p2)).
    { eapply rtc_l; [exact Hst|]. eapply rtc_l; [|exact Hwr]. unfold alone. cbn. rewrite Hp. cbn. by rewrite Hc. }
    destruct found.
    + destruct (Z.eqb_spec (Z.of_nat i) 0) as [Ei|Ei]; cbn in H; injection H as <- <-; [|done].
      assert (i = O) as -> by lia. exists spl. split_and!; [done|done|]. etrans; [exact Hmid|].
      apply rtc_once. unfold alone. cbn in *. rewrite Hl. cbn. by rewrite Hs.
    + assert (Hlen : (i < length spl)%nat) by (by eapply lookup_lt_Some).
      destruct (IH _ _ _ _ (<[i := (p2, n2)]> spl) H Hr) as (spl' & H1 & H2 & H3);
        [by apply list_lookup_insert_eq|].
      exists spl'. split_and!.
      * intros m Hm. rewrite H1 by done. by apply list_lookup_insert_ne.
      * by rewrite H2, length_insert.
      * etrans; [exact Hmid|]. eapply rtc_l; [|exact H3]. unfold alone. cbn in *. rewrite Hl. cbn. by rewrite Hs.
Qed.

(** The loop over the levels. *)
Lemma link_levels_alone key nd h spl : forall k s i s' r spl',
  link_levels k s key nd (Z.of_nat i) spl = Some (s', r) -> r <> Panic ->
  Z.of_nat i + Z.of_nat k = h -> (forall m, (i <= m)%nat -> spl' !! m = spl !! m) ->
  rtc alone (s, link_test (mkJob key nd h spl') i) (s', Return (Added r) None).
Proof.
  induction k as [|k IH]; intros s i s' r spl' H Hr Hh Hspl; cbn [link_levels] in H.
  - injection H as <- <-. unfold link_test. cbn. by rewrite (proj2 (Z.ltb_ge _ _)) by lia.
  - apply bind_Some in H as (sp & Hsp & H). apply bind_Some in H as ([s1 r1] & Hl & H).
    unfold index in Hsp. rewrite (proj2 (Z.leb_le 0 (Z.of_nat i))), Nat2Z.id in Hsp by lia.
    assert (Hr1 : r1 <> Panic) by (intros ->; by injection H as <- <-).
    destruct (link_level_alone (mkJob key nd h spl') i _ _ _ _ _ spl' Hl Hr1) as (spl2 & H1 & H2 & H3);
      [by rewrite Hspl|].
    unfold link_test. cbn [j_height] in *. rewrite (proj2 (Z.ltb_lt _ _)) by lia.
    destruct r1 as [u|e|]; [|injection H as <- <-; exact H3|done].
    etrans; [exact H3|]. replace (Z.of_nat i + 1) with (Z.of_nat (i + 1)) in H by lia.
    eapply IH; [exact H|done|lia|]. intros m Hm. rewrite H1 by lia. apply Hspl. lia.
Qed.

Lemma grow_test_alone s j :
  rtc alone (s, AddHeight j)
    (with_height s (if height s <? j_height j then j_height j else height s), AddStore j 0).
Proof.
  eapply rtc_l; [unfold alone; cbn; reflexivity|]. unfold grow_test.
  destruct (height s <? j_height j); [|by destruct s].
  apply rtc_once. unfold alone. cbn. by rewrite Z.eqb_refl.
Qed.

Lemma Add_alone s rnd key value s' r :
  Skiplist.Add s rnd key value = Some (s', r) -> r <> Panic ->
  rtc alone (s, AddStart rnd key value) (s', Return (Added r) None).
Proof.
  intros H Hr. unfold Skiplist.Add, findSplice in H. apply bind_Some in H as ([spl found] & Hf & H).
  apply (findSplice_alone s rnd key value) in Hf.
  eapply rtc_l; [unfold alone; cbn; reflexivity|]. etrans; [exact Hf|]. cbn [add_levels].
  destruct found; [by injection H as <- <-|].
  destruct (newNode (arena s) key value) as [a [nd|e|]] eqn:En; [|injection H as <- <-|by injection H as <- <-].
  2: { apply rtc_once. unfold alone. cbn. by rewrite En. }
  pose proof (randomHeight_bounds rnd) as Hh. set (h := randomHeight rnd) in *.
  eapply rtc_l; [unfold alone; cbn; rewrite En; fold h; reflexivity|].
  etrans; [apply grow_test_alone|]. cbn [j_height with_arena height].
  pose proof (link_levels_alone key nd h spl (Z.to_nat h) _ 0 s' r spl H Hr ltac:(lia) (fun _ _ => eq_refl)) as Hl.
  unfold link_test in Hl. cbn [j_height] in Hl. rewrite (proj2 (Z.ltb_lt (Z.of_nat 0) h)) in Hl by lia. exact Hl.
Qed.

Lemma seek_alone s w key prev next p :
  seekGE_loop (Z.to_nat (height s)) s key (head s) 0 = Some (prev, next) -> seek_end s w key next = Some p ->
  rtc alone (s, SeekStart w key) (s, p).
Proof.
  intros H Hp. destruct (seekGE_alone s w key _ _ _ _ _ H p Hp) as (q & Hq & Hr).
  eapply rtc_l; [|exact Hr]. unfold alone. cbn. by rewrite Hq.
Qed.

(** ** Properties *)

(** A thread that runs alone behaves as the sequential model says: from the
    start of [Add], [Get], [SeekGE], [First] or [Next] its steps lead to the
    return of exactly the result, and to exactly the list, that the definition
    of Skiplist.v computes, on any list, well formed or not. *)
Theorem sequential_is_alone (s : Skiplist) :
  (forall rnd key value s' r, Skiplist.Add s rnd key value = Some (s', r) -> r <> Panic ->
     rtc alone (s, AddStart rnd key value) (s', Return (Added r) None)) /\
  (forall key v, Skiplist.Get s key = Some v -> rtc alone (s, SeekStart ForGet key) (s, Return (Got v) None)) /\
  (forall target nd p, Skiplist.SeekGE s target = Some nd -> show s nd = Some p ->
     rtc alone (s, SeekStart ForIterator target) (s, Return (At p) (Some nd))) /\
  (forall nd p, Skiplist.First s = Some nd -> show s nd = Some p ->
     rtc alone (s, FirstLoad) (s, Return (At p) (Some nd))) /\
  (forall nd nd' p, Skiplist.Next s nd = Some nd' -> show s nd' = Some p ->
     rtc alone (s, NextLoad nd) (s, Return (At p) (Some nd'))).
Proof.
  split_and!.
  - intros rnd key value s' r. apply Add_alone.
  - intros key v H. unfold Skiplist.Get, seekGE in H. apply bind_Some in H as ([[p nd] m] & Hs & H).
    apply bind_Some in Hs as ([prev next] & Hl & Hs). eapply seek_alone; [exact Hl|]. unfold seek_end.
    destruct (next =? 0) eqn:E0; [injection Hs as <- <- <-; by injection H as <-|].
    apply bind_Some in Hs as (n & Hg & Hs). apply bind_Some in Hs as (k & Hk & Hs).
    injection Hs as <- <- <-. rewrite Hg. cbn. rewrite Hk. cbn. rewrite E0 in H. cbn in H.
    destruct (compareKeys key k =? 0); cbn in H; [|by injection H as <-].
    rewrite Hg in H. cbn in H. apply bind_Some in H as (v' & Hv & H). rewrite Hv. by injection H as <-.
  - intros target nd p H Hp. unfold Skiplist.SeekGE, seekGE in H. apply bind_Some in H as ([[p0 nd0] m] & Hs & H).
    injection H as ->. apply bind_Some in Hs as ([prev next] & Hl & Hs). eapply seek_alone; [exact Hl|].
    assert (next = nd) as ->.
    { destruct (next =? 0) eqn:E0; [injection Hs as _ <- _; by apply Z.eqb_eq|].
      apply bind_Some in Hs as (n & _ & Hs). by apply bind_Some in Hs as (k & _ & [= _ <- _]). }
    cbn. unfold move_to. by rewrite Hp.
  - intros nd p H Hp. apply rtc_once. unfold alone. cbn. rewrite H. cbn. unfold move_to. by rewrite Hp.
  - intros nd nd' p H Hp. apply rtc_once. unfold alone. cbn. rewrite H. cbn. unfold move_to. by rewrite Hp.
Qed.

Lemma sequential_is_alone_witness :
  exists s', Skiplist.Add demo0 7 [x61] [x62] = Some (s', Ok tt) /\
    rtc alone (demo0, AddStart 7 [x61] [x62]) (s', Return (Added (Ok tt)) None).
Proof.
  assert (E : ('(_, r) ← Skiplist.Add demo0 7 [x61] [x62]; Some r) = Some (Ok tt)) by (vm_compute; reflexivity).
  apply bind_Some in E as ([s' r] & HA & E). injection E as E. rewrite E in HA. exists s'. split; [exact HA|].
  apply (proj1 (sequential_is_alone demo0) 7 [x61] [x62] s' (Ok tt) HA). discriminate.
Defined.
