(* ===== verification/InternalKey.v ===== *)
(** Internal keys ([pkg/lsm/memtable/internalkey.go]): the user key followed by
    the complemented, big-endian trailer [(seqNum << 8) | kind].

    The lemmas give the order of internal keys exactly: versions of one user
    key are ordered newest first, and keys of which neither is a prefix of the
    other keep the order of the user keys.  When one user key is a prefix of
    another the trailer of the shorter one is compared with the bytes of the
    longer one, and the order of user keys is lost. *)
From S2P Require Import Prelude Binary ByteOrder.

(** ** The code *)

Definition KindSet : Z := 1.
Definition KindDelete : Z := 0.
Definition trailerSize : Z := 8.

(** Bitwise complement of a [uint64]. *)
Definition not64 (x : Z) : Z := Z.lxor x (2 ^ 64 - 1).

Definition MakeInternalKey (userKey : bytes) (seqNum kind : Z) : bytes :=
  let trailer := not64 (Z.lor (u64 (Z.shiftl seqNum 8)) kind) in
  userKey ++ put_be64 trailer.

Definition ParseInternalKey (ikey : bytes) : bytes * Z * Z :=
  if blen ikey <? trailerSize then (ikey, 0, 0)
  else
    let split := Z.to_nat (blen ikey - trailerSize) in
    let trailer := default 0 (get_be64 (drop split ikey)) in
    let val := not64 trailer in
    (take split ikey, Z.shiftr val 8, Z.land val 255).

Definition UserKey (ikey : bytes) : bytes :=
  if blen ikey <? trailerSize then ikey
  else take (Z.to_nat (blen ikey - trailerSize)) ikey.

(** ** The trailer *)

(** Sequence number and kind, as the code can hold them: 56 and 8 bits. *)
Definition seq_ok (seqNum : Z) : Prop := 0 <= seqNum < 2 ^ 56.
Definition kind_ok (kind : Z) : Prop := 0 <= kind < 256.

Definition stamp (seqNum kind : Z) : Z := seqNum * 256 + kind.

Lemma not64_sub x : 0 <= x < 2 ^ 64 -> not64 x = 2 ^ 64 - 1 - x.
Proof.
  intros Hx. unfold not64. rewrite (Z.sub_nocarry_ldiff (2 ^ 64 - 1) x).
  - apply Z.bits_inj'. intros i Hi. rewrite Z.lxor_spec, Z.ldiff_spec.
    change (2 ^ 64 - 1) with (Z.ones 64). destruct (decide (i < 64)).
    + rewrite Z.ones_spec_low by lia. apply xorb_true_r.
    + rewrite Z.ones_spec_high, (testbit_high x 64) by lia. done.
  - apply Z.bits_inj'. intros i Hi. rewrite Z.ldiff_spec, Z.bits_0.
    change (2 ^ 64 - 1) with (Z.ones 64). destruct (decide (i < 64)).
    + rewrite Z.ones_spec_low by lia. apply andb_false_r.
    + by rewrite (testbit_high x 64) by lia.
Qed.

Lemma stamp_bounds s k : seq_ok s -> kind_ok k -> 0 <= stamp s k < 2 ^ 64.
Proof. unfold seq_ok, kind_ok, stamp. lia. Qed.

Lemma stamp_code s k :
  seq_ok s -> kind_ok k -> Z.lor (u64 (Z.shiftl s 8)) k = stamp s k.
Proof.
  unfold seq_ok, kind_ok, stamp. intros Hs Hk.
  rewrite Z.shiftl_mul_pow2, u64_small, <- Z.shiftl_mul_pow2, Z.lor_comm, lor_shiftl_add by lia. lia.
Qed.

Lemma MakeInternalKey_eq u s k :
  seq_ok s -> kind_ok k -> MakeInternalKey u s k = u ++ put_be64 (2 ^ 64 - 1 - stamp s k).
Proof.
  intros Hs Hk. unfold MakeInternalKey. rewrite stamp_code, not64_sub; auto using stamp_bounds.
Qed.

Lemma blen_MakeInternalKey u s k : blen (MakeInternalKey u s k) = blen u + 8.
Proof. unfold MakeInternalKey. by rewrite blen_app, blen_put_be64. Qed.

Lemma split_MakeInternalKey u s k :
  Z.to_nat (blen (MakeInternalKey u s k) - trailerSize) = length u.
Proof. rewrite blen_MakeInternalKey. unfold blen, trailerSize. lia. Qed.

Lemma long_MakeInternalKey u s k : (blen (MakeInternalKey u s k) <? trailerSize) = false.
Proof.
  rewrite blen_MakeInternalKey. unfold trailerSize. pose proof (blen_nonneg u).
  apply Z.ltb_ge. lia.
Qed.

(** Parsing inverts construction. *)
Lemma Parse_Make u s k :
  seq_ok s -> kind_ok k -> ParseInternalKey (MakeInternalKey u s k) = (u, s, k).
Proof.
  intros Hs Hk. unfold ParseInternalKey. rewrite long_MakeInternalKey, split_MakeInternalKey.
  pose proof (stamp_bounds s k Hs Hk) as Hb.
  rewrite MakeInternalKey_eq by done. rewrite take_app_length, drop_app_length.
  rewrite <- (app_nil_r (put_be64 _)), get_put_be64 by lia. cbn [default from_option id].
  rewrite not64_sub by lia.
  replace (2 ^ 64 - 1 - (2 ^ 64 - 1 - stamp s k)) with (stamp s k) by lia.
  rewrite Z.shiftr_div_pow2 by lia. change 255 with (2 ^ 8 - 1). rewrite land_ones_low by lia.
  unfold stamp, kind_ok in *. change (2 ^ 8) with 256.
  by rewrite Z.div_add_l, Z.div_small, Z.add_0_r, Z.add_comm, Z.mod_add, Z.mod_small by lia.
Qed.

Lemma UserKey_Make u s k : UserKey (MakeInternalKey u s k) = u.
Proof.
  unfold UserKey. rewrite long_MakeInternalKey, split_MakeInternalKey.
  unfold MakeInternalKey. by rewrite take_app_length.
Qed.

Lemma Make_inj u s k u' s' k' :
  seq_ok s -> kind_ok k -> seq_ok s' -> kind_ok k' ->
  MakeInternalKey u s k = MakeInternalKey u' s' k' -> u = u' /\ s = s' /\ k = k'.
Proof.
  intros Hs Hk Hs' Hk' E. apply (f_equal ParseInternalKey) in E.
  rewrite !Parse_Make in E by done. naive_solver.
Qed.

(** ** The order *)

(** Big-endian strings of one length are ordered by the numbers they hold. *)
Lemma lex_be a b : length a = length b -> lex a b = (le_value (rev a) ?= le_value (rev b)).
Proof.
  assert (Hsnoc : forall l x, le_value (l ++ [x]) = le_value l + 256 ^ blen l * b2z x).
  { induction l as [|y l IH]; intros x; cbn [app le_value].
    - change (256 ^ blen []) with 1. lia.
    - pose proof (blen_nonneg l). rewrite IH, blen_cons, Z.pow_add_r by lia. ring. }
  assert (Hrev : forall l : bytes, blen (rev l) = blen l) by (intros; unfold blen; by rewrite length_rev).
  revert b. induction a as [|x a IH]; intros [|y b] Hl; try done. cbn [lex rev].
  rewrite !Hsnoc, !Hrev. cbn in Hl. injection Hl as Hl.
  assert (blen a = blen b) as -> by (unfold blen; lia).
  pose proof (le_value_bounds (rev a)) as Ba. pose proof (le_value_bounds (rev b)) as Bb.
  rewrite Hrev in Ba, Bb. assert (E : blen a = blen b) by (unfold blen; lia). rewrite E in Ba.
  destruct (Z.compare_spec (b2z x) (b2z y)) as [->|Hlt|Hlt].
  - rewrite IH by done. symmetry. destruct (Z.compare_spec (le_value (rev a)) (le_value (rev b)));
      [apply Z.compare_eq_iff|apply Z.compare_lt_iff|apply Z.compare_gt_iff]; lia.
  - symmetry. apply Z.compare_lt_iff. nia.
  - symmetry. apply Z.compare_gt_iff. nia.
Qed.

Lemma lex_put_be64 x y :
  0 <= x < 2 ^ 64 -> 0 <= y < 2 ^ 64 -> lex (put_be64 x) (put_be64 y) = (x ?= y).
Proof.
  intros Hx Hy. rewrite lex_be by (unfold put_be64; by rewrite !length_rev, !length_le_bytes).
  unfold put_be64. rewrite !rev_involutive, !le_value_le_bytes. by rewrite !Z.mod_small.
Qed.

(** One user key: the larger stamp comes first. *)
Lemma order_same u s k s' k' :
  seq_ok s -> kind_ok k -> seq_ok s' -> kind_ok k' ->
  lex (MakeInternalKey u s k) (MakeInternalKey u s' k') = (stamp s' k' ?= stamp s k).
Proof.
  intros Hs Hk Hs' Hk'. pose proof (stamp_bounds s k Hs Hk). pose proof (stamp_bounds s' k' Hs' Hk').
  rewrite !MakeInternalKey_eq, lex_app_same, lex_put_be64 by (done || lia).
  destruct (Z.compare_spec (stamp s' k') (stamp s k));
    [apply Z.compare_eq_iff|apply Z.compare_lt_iff|apply Z.compare_gt_iff]; lia.
Qed.

(** Neither user key a prefix of the other. *)
Definition unrelated (u u' : bytes) : Prop := ~ u `prefix_of` u' /\ ~ u' `prefix_of` u.

#[export] Instance unrelated_dec u u' : Decision (unrelated u u').
Proof. unfold unrelated. apply _. Defined.

Lemma order_unrelated u u' s k s' k' :
  unrelated u u' -> lex (MakeInternalKey u s k) (MakeInternalKey u' s' k') = lex u u'.
Proof. intros [H1 H2]. unfold MakeInternalKey. by apply lex_app_noprefix. Qed.

Lemma unrelated_sym u u' : unrelated u u' -> unrelated u' u.
Proof. unfold unrelated. tauto. Qed.

(** A set of user keys in which internal keys order as [(userKey, newest)]. *)
Definition prefix_free (us : list bytes) : Prop :=
  forall u u', u ∈ us -> u' ∈ us -> u = u' \/ unrelated u u'.

Lemma prefix_free_Forall us :
  prefix_free us <-> Forall (fun u => Forall (fun u' => u = u' \/ unrelated u u') us) us.
Proof.
  unfold prefix_free. rewrite Forall_forall. split.
  - intros H u Hu. apply Forall_forall. intros u' Hu'. by apply H.
  - intros H u u' Hu Hu'. by apply (proj1 (Forall_forall _ _) (H u Hu)).
Qed.

#[export] Instance prefix_free_dec us : Decision (prefix_free us).
Proof.
  destruct (decide (Forall (fun u => Forall (fun u' => u = u' \/ unrelated u u') us) us)); [left|right];
    by rewrite prefix_free_Forall.
Defined.

#[export] Hint Rewrite UserKey_Make : iw.

(** C28: Internal keys round-trip, and order as the format intends as long as
    neither user key is a proper prefix of the other: by user key ascending,
    then by sequence number and kind descending. *)
Theorem internal_key_order (u u' : bytes) (s k s' k' : Z) :
  seq_ok s -> kind_ok k -> seq_ok s' -> kind_ok k' ->
  ParseInternalKey (MakeInternalKey u s k) = (u, s, k) /\
  InternalKey.UserKey (MakeInternalKey u s k) = u /\
  (u = u' \/ unrelated u u' ->
   compareKeys (MakeInternalKey u s k) (MakeInternalKey u' s' k') =
     sign (match lex u u' with Eq => (stamp s' k' ?= stamp s k) | c => c end)).
Proof.
  intros Hs Hk Hs' Hk'. split; [by apply Parse_Make|]. split; [apply UserKey_Make|].
  intros [<-|Hu]; rewrite compareKeys_lex.
  - by rewrite order_same, lex_refl.
  - rewrite order_unrelated by done. destruct (lex u u') eqn:E; [|done|done].
    apply lex_eq in E as ->. by destruct Hu as [[] _].
Qed.

Lemma internal_key_order_witness :
  seq_ok 5 /\ kind_ok 1 /\ seq_ok 9 /\ kind_ok 0 /\
  compareKeys (MakeInternalKey [x61; x62] 5 1) (MakeInternalKey [x61; x62] 9 0) = 1.
Proof.
  assert (H5 : seq_ok 5) by (unfold seq_ok; lia). assert (H9 : seq_ok 9) by (unfold seq_ok; lia).
  assert (K1 : kind_ok 1) by (unfold kind_ok; lia). assert (K0 : kind_ok 0) by (unfold kind_ok; lia).
  repeat (split; [assumption|]).
  destruct (internal_key_order [x61; x62] [x61; x62] 5 1 9 0 H5 K1 H9 K0) as (_ & _ & H).
  rewrite H; [reflexivity|left; reflexivity].
Defined.

(** Without that condition the order of user keys is lost: an iteration of
    a memtable holding [a] and [ab] yields [ab] first, for any sequence numbers
    below [2^48]. *)
Theorem prefix_keys_disordered (u w : bytes) (x : byte) (s k s' k' : Z) :
  0 <= s < 2 ^ 48 -> kind_ok k -> seq_ok s' -> kind_ok k' -> b2z x < 255 ->
  compareKeys u (u ++ x :: w) = -1 /\
  compareKeys (MakeInternalKey u s k) (MakeInternalKey (u ++ x :: w) s' k') = 1.
Proof.
  intros Hs Hk Hs' Hk' Hx. rewrite !compareKeys_lex. split.
  - rewrite <- (app_nil_r u) at 1. by rewrite lex_app_same.
  - rewrite !MakeInternalKey_eq by (unfold seq_ok, kind_ok in *; lia).
    rewrite <- app_assoc, lex_app_same. set (t := 2 ^ 64 - 1 - stamp s k).
    assert (Ht : 255 * 256 ^ 7 <= t < 2 ^ 64) by (unfold t, stamp, kind_ok in *; lia).
    unfold put_be64. cbn [le_bytes rev app].
    assert (E : t / 256 / 256 / 256 / 256 / 256 / 256 / 256 = 255).
    { rewrite !Z.div_div by lia. symmetry. apply (Z.div_unique_pos _ _ _ (t - 255 * 256 ^ 7)); lia. }
    rewrite E. cbn [lex]. change (b2z (z2b 255)) with 255.
    by rewrite (proj2 (Z.compare_gt_iff _ _)) by lia.
Qed.

Lemma prefix_keys_disordered_witness :
  0 <= 1 < 2 ^ 48 /\ kind_ok 1 /\ seq_ok 2 /\ b2z x62 < 255 /\
  compareKeys [x61] [x61; x62] = -1 /\
  compareKeys (MakeInternalKey [x61] 1 1) (MakeInternalKey [x61; x62] 2 1) = 1.
Proof.
  assert (K : kind_ok 1) by (unfold kind_ok; lia). assert (S : seq_ok 2) by (unfold seq_ok; lia).
  split; [lia|]. split; [exact K|]. split; [exact S|]. split; [reflexivity|].
  apply (prefix_keys_disordered [x61] [] x62 1 1 2 1); [lia|exact K|exact S|exact K|reflexivity].
Defined.
