(* ===== verification/Memtable.v ===== *)
(** Package [memtable] ([pkg/lsm/memtable/memtable.go]): the skiplist of
    internal keys with its sequence-number range and reference count.  The
    atomic fields are read and written by one thread here; the
    compare-and-swap loops of [updateSeqRange] then run once.  A [None] is a
    panic in the layers below. *)
From S2P Require Import Prelude Binary ByteOrder Arena Skiplist InternalKey.

Record Memtable : Type := mkMemtable {
  skl : Skiplist;
  minSeqNum : Z;
  maxSeqNum : Z;
  refs : Z
}.

Definition arena_of (m : Memtable) : Arena := Skiplist.arena (skl m).

Definition New (arenaSize : Z) : option Memtable :=
  s ← Skiplist.New (Arena.New (replicate (Z.to_nat arenaSize) x00));
  Some (mkMemtable s 0 0 1).

Definition updateSeqRange (m : Memtable) (seqNum : Z) : Memtable :=
  let old := minSeqNum m in
  let newMin := if negb (old =? 0) && (old <=? seqNum) then old else seqNum in
  let old := maxSeqNum m in
  let newMax := if seqNum <=? old then old else seqNum in
  mkMemtable (skl m) newMin newMax (refs m).

(** The insertion both [Set] and [Delete] make, with the random number of the
    skiplist as an argument. *)
Definition add_internal (m : Memtable) (rnd : Z) (ikey value : bytes) (seqNum : Z)
  : option (Memtable * result add_error unit) :=
  let m := updateSeqRange m seqNum in
  '(s, r) ← Skiplist.Add (skl m) rnd ikey value;
  Some (mkMemtable s (minSeqNum m) (maxSeqNum m) (refs m), r).

Definition Set_ (m : Memtable) (rnd : Z) (key value : bytes) (seqNum : Z) :=
  let ikey := MakeInternalKey key seqNum KindSet in
  add_internal m rnd ikey value seqNum.

Definition Delete (m : Memtable) (rnd : Z) (key : bytes) (seqNum : Z) :=
  let ikey := MakeInternalKey key seqNum KindDelete in
  add_internal m rnd ikey [] seqNum.

(** [bytesEqual]: the loop runs over equal lengths. *)
Fixpoint bytesEqual_loop (a b : bytes) : bool :=
  match a, b with
  | x :: a, y :: b => if negb (b2z x =? b2z y) then false else bytesEqual_loop a b
  | _, _ => true
  end.
Definition bytesEqual (a b : bytes) : bool :=
  if negb (blen a =? blen b) then false else bytesEqual_loop a b.

Definition Get (m : Memtable) (key : bytes) (seqNum : Z) : option (option bytes) :=
  let seekKey := MakeInternalKey key seqNum KindSet in
  it ← Skiplist.SeekGE (skl m) seekKey;
  if negb (Skiplist.Valid it) then Some None
  else
    ikey ← Skiplist.Key (skl m) it;
    let '(foundUserKey, _, kind) := ParseInternalKey ikey in
    if negb (bytesEqual foundUserKey key) then Some None
    else if kind =? KindDelete then Some None
    else v ← Skiplist.Value (skl m) it; Some (Some v).

Definition ApproxSize (m : Memtable) : Z := Arena.Size (arena_of m).

(** [Size() > Capacity()*95/100], all in [uint32]. *)
Definition IsFull (m : Memtable) : bool :=
  u32 (Arena.Capacity (arena_of m) * 95) / 100 <? Arena.Size (arena_of m).

(** [int32] reference counts. *)
Definition Ref (m : Memtable) : Memtable :=
  mkMemtable (skl m) (minSeqNum m) (maxSeqNum m) (i32 (refs m + 1)).
Definition Unref (m : Memtable) : Memtable * bool :=
  let n := i32 (refs m - 1) in (mkMemtable (skl m) (minSeqNum m) (maxSeqNum m) n, n =? 0).

(** The iterator: a skiplist position with internal-key accessors. *)
Module Iterator.
Definition Valid (it : Z) : bool := Skiplist.Valid it.
Definition First (m : Memtable) : option Z := Skiplist.First (skl m).
Definition Next (m : Memtable) (it : Z) : option Z := Skiplist.Next (skl m) it.
Definition SeekGE (m : Memtable) (target : bytes) : option Z := Skiplist.SeekGE (skl m) target.
Definition InternalKey (m : Memtable) (it : Z) : option bytes := Skiplist.Key (skl m) it.
Definition UserKey (m : Memtable) (it : Z) : option bytes :=
    k ← Skiplist.Key (skl m) it; Some (InternalKey.UserKey k).
Definition Value (m : Memtable) (it : Z) : option bytes := Skiplist.Value (skl m) it.
Definition SeqNum (m : Memtable) (it : Z) : option Z :=
    k ← Skiplist.Key (skl m) it; let '(_, seqNum, _) := ParseInternalKey k in Some seqNum.
Definition Kind (m : Memtable) (it : Z) : option Z :=
    k ← Skiplist.Key (skl m) it; let '(_, _, kind) := ParseInternalKey k in Some kind.
End Iterator.

(** C40: [IsFull] compares with [Capacity*95/100] computed in [uint32]: for the
    default 64 MiB memtable the product wraps and the threshold is about 31% of
    the arena, not the documented 95%. *)
Theorem IsFull_overflows (m : Memtable) :
  blen (Arena.buf (arena_of m)) = 64 * 1024 * 1024 ->
  1 <= Arena.n (arena_of m) <= 64 * 1024 * 1024 ->
  IsFull m = true <-> 20803747 < Arena.n (arena_of m).
Proof.
  intros Hcap Hle. unfold IsFull, Arena.Capacity, Arena.Size. rewrite Hcap.
  rewrite (proj2 (Z.ltb_ge (64 * 1024 * 1024) _)), (u32_small (Arena.n _)) by lia.
  change (u32 (u32 (64 * 1024 * 1024) * 95) / 100) with 20803747. apply Z.ltb_lt.
Qed.

Lemma IsFull_overflows_witness :
  exists m, blen (Arena.buf (arena_of m)) = 64 * 1024 * 1024 /\
    Arena.n (arena_of m) = 30000000 /\ IsFull m = true.
Proof.
  set (m := mkMemtable (mkSkiplist
    (mkArena 30000000 (replicate (Z.to_nat (64 * 1024 * 1024)) x00)) 4 1) 0 0 1).
  exists m.
  assert (Hb : blen (Arena.buf (arena_of m)) = 64 * 1024 * 1024).
  { unfold m, arena_of. cbn [Arena.buf Skiplist.arena skl]. rewrite blen_replicate.
    rewrite Z2Nat.id; lia. }
  split; [exact Hb|]. split; [reflexivity|].
  apply (IsFull_overflows m Hb); change (Arena.n (arena_of m)) with 30000000; lia.
Defined.
