(* ===== verification/MemtableSpec.v ===== *)
(** Correctness of the memtable: its contents as a set of versions, what [Set],
    [Delete] and [Get] do to and return from that set, and the cases in which
    they do not do what their comments say. *)
From stdpp Require Import sorting.
From S2P Require Import Prelude Binary ByteOrder Sorted Arena Skiplist SkiplistMem SkiplistSpec InternalKey Memtable.

#[local] Open Scope Z_scope.

(** ** Versions *)

Record version : Type := mkVersion { v_key : bytes; v_seq : Z; v_kind : Z; v_val : bytes }.

#[export] Instance version_eq_dec : EqDecision version.
Proof. solve_decision. Defined.

(** Sequence numbers start at 1 (0 marks an empty range); a kind is a set or a
    delete. *)
Definition ver_ok (v : version) : Prop :=
  1 <= v_seq v < 2 ^ 56 /\ (v_kind v = KindSet \/ v_kind v = KindDelete).

Definition ver_ikey (v : version) : bytes := MakeInternalKey (v_key v) (v_seq v) (v_kind v).
Definition enc (v : version) : bytes * bytes := (ver_ikey v, v_val v).

(** A version of [key] that a read at [seq] may see. *)
Definition visible (vs : list version) (key : bytes) (seq : Z) (v : version) : Prop :=
  v ∈ vs /\ v_key v = key /\ v_seq v <= seq.

(** The newest of them: the one a read at [seq] must return. *)
Definition newest (vs : list version) (key : bytes) (seq : Z) (v : version) : Prop :=
  visible vs key seq v /\
  forall v', visible vs key seq v' -> stamp (v_seq v') (v_kind v') <= stamp (v_seq v) (v_kind v).

(** What a read that sees the versions [vs] must answer. *)
Definition answers (vs : list version) (key : bytes) (seq : Z) (r : option bytes) : Prop :=
  match r with
  | Some val => exists v, newest vs key seq v /\ v_kind v = KindSet /\ v_val v = val
  | None => (forall v, ~ visible vs key seq v) \/
            exists v, newest vs key seq v /\ v_kind v = KindDelete
  end.

(** What a read answers depends on what it can see. *)
Lemma answers_ext vs vs' u seq seq' r :
  (forall w, visible vs u seq w <-> visible vs' u seq' w) -> answers vs u seq r -> answers vs' u seq' r.
Proof.
  intros Hvis. assert (Hnew : forall w, newest vs u seq w -> newest vs' u seq' w).
  { intros w [Hw Hm]. split; [by apply Hvis|]. intros w' Hw'. apply Hm. by apply Hvis. }
  unfold answers. destruct r; [|intros [Hn|(w & Hw & ?)]].
  - intros (w & Hw & ?). exists w. auto.
  - left. intros w Hw. apply Hvis in Hw. by apply (Hn w).
  - right. exists w. auto.
Qed.

Lemma answers_other vs v u seq r : v_key v <> u -> answers vs u seq r -> answers (v :: vs) u seq r.
Proof. intros Hne. apply answers_ext. intros w. unfold visible. rewrite elem_of_cons. naive_solver. Qed.

Lemma answers_perm vs vs' u seq r : vs ≡ₚ vs' -> answers vs u seq r -> answers vs' u seq r.
Proof. intros Hp. apply answers_ext. intros w. unfold visible. by rewrite Hp. Qed.

(** No stored user key is a proper prefix of [key] or properly extends it. *)
Definition key_separate (vs : list version) (key : bytes) : Prop :=
  Forall (fun v => v_key v = key \/ unrelated key (v_key v)) vs.

Lemma ver_ok_seq v : ver_ok v -> seq_ok (v_seq v) /\ kind_ok (v_kind v).
Proof. unfold ver_ok, seq_ok, kind_ok, KindSet, KindDelete. lia. Qed.

(** The newest visible version is unique up to its value. *)
Lemma newest_stamp vs key seq v v' :
  newest vs key seq v -> newest vs key seq v' -> stamp (v_seq v) (v_kind v) = stamp (v_seq v') (v_kind v').
Proof. intros [H1 H2] [H3 H4]. specialize (H2 _ H3). specialize (H4 _ H1). lia. Qed.

(** ** Sorted lists of encoded versions *)

Lemma suffix_head t l k v rest k2 v2 :
  StronglySorted blt l.*1 -> suffix_from t l = (k, v) :: rest ->
  (k2, v2) ∈ l -> ble t k2 -> ble k k2.
Proof.
  intros Hs Hsuf Hin Hle. unfold suffix_from in Hsuf.
  assert (Hin2 : (k2, v2) ∈ (k, v) :: rest).
  { rewrite <- Hsuf. apply list_elem_of_filter. done. }
  assert (Hss : StronglySorted blt ((k, v) :: rest).*1).
  { rewrite <- Hsuf. clear -Hs. induction l as [|[k v] l IH]; [constructor|].
    cbn in Hs. apply StronglySorted_inv in Hs as [Hs Hle]. rewrite filter_cons.
    destruct (decide _); [|auto]. cbn. constructor; [auto|].
    rewrite Forall_fmap in *. rewrite Forall_forall in *. intros p Hp.
    apply Hle. by apply list_elem_of_filter in Hp as [_ ?]. }
  cbn in Hss. apply StronglySorted_inv in Hss as [_ Hle2].
  apply elem_of_cons in Hin2 as [[= -> ->]|Hin2]; [apply ble_refl|].
  rewrite Forall_forall in Hle2. apply blt_ble, Hle2.
  apply (list_elem_of_fmap_2 fst) in Hin2. exact Hin2.
Qed.

Section seek.
Context (l : list (bytes * bytes)) (vs : list version) (key : bytes) (seq : Z).
Context (Hsorted : StronglySorted blt l.*1) (Hperm : l ≡ₚ enc <$> vs).
Context (Hok : Forall ver_ok vs) (Hseq : seq_ok seq) (Hsep : key_separate vs key).

Let target := MakeInternalKey key seq KindSet.

Lemma kind_set_ok : kind_ok KindSet.
  Proof. unfold kind_ok, KindSet. lia. Qed.

  (** Visible versions sit at or after the seek target. *)
Lemma visible_after v : visible vs key seq v -> ble target (ver_ikey v).
  Proof.
    intros (Hin & Hk & Hs). rewrite Forall_forall in Hok. specialize (Hok v Hin).
    destruct (ver_ok_seq v Hok) as [H1 H2]. unfold ble, target, ver_ikey. rewrite Hk.
    rewrite order_same by (done || apply kind_set_ok). apply Z.compare_le_iff.
    unfold stamp. destruct Hok as [_ [-> | ->]]; unfold KindSet, KindDelete; lia.
  Qed.

Lemma in_list v : v ∈ vs -> (ver_ikey v, v_val v) ∈ l.
  Proof. intros Hin. rewrite Hperm. by apply (list_elem_of_fmap_2 enc). Qed.

Lemma head_version ik val rest :
    suffix_from target l = (ik, val) :: rest ->
    exists v, v ∈ vs /\ ik = ver_ikey v /\ val = v_val v /\ ble target ik.
  Proof.
    intros Hsuf. assert (Hin : (ik, val) ∈ suffix_from target l) by (rewrite Hsuf; by left).
    unfold suffix_from in Hin. apply list_elem_of_filter in Hin as [Hle Hin].
    rewrite Hperm in Hin. apply list_elem_of_fmap in Hin as (v & [= -> ->] & Hv). eauto.
  Qed.

  (** Seeking the internal key of [(key, seq)] finds the newest visible version
      of [key], or proves there is none. *)
Lemma seek_newest :
    match suffix_from target l with
    | [] => forall v, ~ visible vs key seq v
    | (ik, val) :: _ =>
        exists v, v ∈ vs /\ ik = ver_ikey v /\ val = v_val v /\
          if decide (v_key v = key) then newest vs key seq v
          else forall v', ~ visible vs key seq v'
    end.
  Proof.
    destruct (suffix_from target l) as [|[ik val] rest] eqn:Hsuf.
    - intros v Hv. assert ((ver_ikey v, v_val v) ∈ suffix_from target l) as Hin.
      { apply list_elem_of_filter. split; [by apply visible_after|]. apply in_list, Hv. }
      rewrite Hsuf in Hin. by apply elem_of_nil in Hin.
    - destruct (head_version _ _ _ Hsuf) as (v & Hv & -> & -> & Hle).
      assert (Hmin : forall v', visible vs key seq v' -> ble (ver_ikey v) (ver_ikey v')).
      { intros v' Hv'. eapply suffix_head; [exact Hsorted|exact Hsuf| |by apply visible_after].
        apply in_list, Hv'. }
      exists v. split; [done|]. split; [done|]. split; [done|].
      pose proof (proj1 (Forall_forall _ _) Hok v Hv) as Hvok.
      destruct (ver_ok_seq v Hvok) as [H1 H2]. unfold ver_ikey, target in *.
      destruct (decide (v_key v = key)) as [Hk|Hk].
      + unfold ble in *. rewrite Hk in *. rewrite order_same in Hle by (done || apply kind_set_ok).
        rewrite Z.compare_le_iff in Hle. split.
        * split; [done|]. split; [done|]. unfold stamp, KindSet, kind_ok in *. lia.
        * intros v' Hv'. specialize (Hmin v' Hv'). destruct Hv' as (Hin' & Hk' & _).
          destruct (ver_ok_seq v' (proj1 (Forall_forall _ _) Hok v' Hin')) as [H1' H2'].
          rewrite Hk', order_same in Hmin by done. by rewrite Z.compare_le_iff in Hmin.
      + intros v' Hv'. specialize (Hmin v' Hv'). destruct Hv' as (Hin' & Hk' & _).
        destruct (proj1 (Forall_forall _ _) Hsep v Hv) as [?|Hun]; [done|].
        unfold ble in *. rewrite order_unrelated in Hle by done.
        rewrite Hk', order_unrelated in Hmin by (by apply unrelated_sym).
        apply Hk. by apply ble_antisym.
  Qed.
End seek.

(** ** The memtable's state *)

Record mrep (m : Memtable) (vs : list version) : Prop := {
  mr_list : exists es, rep (skl m) es /\ contents es ≡ₚ enc <$> vs;
  mr_ok : Forall ver_ok vs;
  mr_range : Forall (fun v => minSeqNum m <= v_seq v <= maxSeqNum m) vs;
  mr_empty : minSeqNum m = 0 -> vs = []
}.

(** Room for the [uint64] allocation counter and the [uint32] node size. *)
Definition add_fits (m : Memtable) (key value : bytes) : Prop :=
  Arena.n (arena_of m) + 2 ^ 33 < 2 ^ 63 /\ maxNodeSize + (blen key + 8) + blen value < 2 ^ 32.

Lemma range_update m vs seq :
  mrep m vs -> 1 <= seq ->
  let m' := updateSeqRange m seq in
  skl m' = skl m /\ refs m' = refs m /\ minSeqNum m' <> 0 /\
  minSeqNum m' <= seq <= maxSeqNum m' /\
  Forall (fun v => minSeqNum m' <= v_seq v <= maxSeqNum m') vs.
Proof.
  intros [_ Hok Hr He] Hseq. cbn. split; [done|]. split; [done|].
  set (mn := if negb _ && _ then _ else _). set (mx := if _ <=? _ then _ else _).
  assert (Hmn : mn <> 0 /\ mn <= seq /\ (minSeqNum m <> 0 -> mn <= minSeqNum m)).
  { unfold mn. destruct (negb _ && _) eqn:E.
    - bool_hyps. lia.
    - apply andb_false_iff in E as [E|E]; bool_hyps; lia. }
  assert (Hmx : seq <= mx /\ maxSeqNum m <= mx) by (unfold mx; case_match; bool_hyps; lia).
  split; [lia|]. split; [lia|]. rewrite Forall_forall in *. intros v Hv. specialize (Hr v Hv).
  destruct (decide (minSeqNum m = 0)) as [E|]; [|lia].
  rewrite (He E) in Hv. by apply elem_of_nil in Hv.
Qed.

(** The common part of [Set] and [Delete]. *)
(** What an insertion does to the arena, by its outcome. *)
Definition mem_used (m m' : Memtable) (v : version) (r : result add_error unit) : Prop :=
  match r with
  | Ok _ => room_used (arena_of m) (arena_of m') (ver_ikey v) (v_val v) true
  | Err ErrRecordExists => arena_of m' = arena_of m
  | _ => room_used (arena_of m) (arena_of m') (ver_ikey v) (v_val v) false
  end.

Lemma add_internal_room m vs rnd v :
  mrep m vs -> ver_ok v -> add_fits m (v_key v) (v_val v) ->
  exists m' r, add_internal m rnd (ver_ikey v) (v_val v) (v_seq v) = Some (m', r) /\ mem_used m m' v r /\
    match r with
    | Ok _ => mrep m' (v :: vs)
    | Err ErrRecordExists => mrep m' vs /\
        exists v', v' ∈ vs /\ v_key v' = v_key v /\ v_seq v' = v_seq v /\ v_kind v' = v_kind v
    | Err (ErrArena ErrFull) => mrep m' vs
    | Panic => False
    end.
Proof.
  intros Hm Hv [Hfit1 Hfit2]. pose proof Hv as [Hseq _].
  destruct (range_update m vs (v_seq v) Hm ltac:(lia)) as (Hskl & _ & Hne & Hin & Hr).
  unfold add_internal. set (m1 := updateSeqRange m (v_seq v)) in *. rewrite Hskl.
  destruct Hm as [(es & Hrep & Hperm) Hok _ _].
  assert (Hkeys : has_key (ver_ikey v) (contents es) <-> exists v', v' ∈ vs /\ ver_ikey v' = ver_ikey v).
  { unfold has_key. rewrite Hperm, <- list_fmap_compose, list_elem_of_fmap. naive_solver. }
  destruct (decide (has_key (ver_ikey v) (contents es))) as [Hk|Hk].
  - rewrite (Add_present _ _ _ _ _ Hrep Hk). cbn [mbind option_bind]. eexists _, _. split; [done|]. split; [done|].
    split; [split; cbn [skl minSeqNum maxSeqNum]; eauto; done|]. apply Hkeys in Hk as (v' & Hv' & E). exists v'. split; [done|].
    destruct (ver_ok_seq v Hv). destruct (ver_ok_seq v' (proj1 (Forall_forall _ _) Hok v' Hv')).
    by apply Make_inj in E.
  - destruct (Add_absent_room (skl m) es rnd (ver_ikey v) (v_val v) Hrep Hk Hfit1)
      as (s' & r & -> & Hr'); [unfold ver_ikey; rewrite blen_MakeInternalKey; done|].
    cbn [mbind option_bind]. eexists _, _. split; [done|].
    destruct r as [[]|[|[]]|]; try done; destruct Hr' as [Hr' Hroom]; (split; [exact Hroom|]).
    + destruct Hr' as (es' & Hrep' & Hc). split; cbn [skl minSeqNum maxSeqNum].
      * exists es'. split; [done|]. by rewrite Hc, insert_sorted_perm, Hperm.
      * by constructor.
      * constructor; [lia|done].
      * done.
    + split; cbn [skl minSeqNum maxSeqNum]; eauto. done.
Qed.

Lemma add_internal_spec m vs rnd v :
  mrep m vs -> ver_ok v -> add_fits m (v_key v) (v_val v) ->
  exists m' r, add_internal m rnd (ver_ikey v) (v_val v) (v_seq v) = Some (m', r) /\
    match r with
    | Ok _ => mrep m' (v :: vs)
    | Err ErrRecordExists => mrep m' vs /\
        exists v', v' ∈ vs /\ v_key v' = v_key v /\ v_seq v' = v_seq v /\ v_kind v' = v_kind v
    | Err (ErrArena ErrFull) => mrep m' vs
    | Panic => False
    end.
Proof.
  intros Hm Hv Hf. destruct (add_internal_room m vs rnd v Hm Hv Hf) as (m' & r & E & _ & H). by exists m', r.
Qed.

(** ** Operations *)

Lemma New_mrep_room arenaSize :
  maxNodeSize + 4 <= arenaSize < 2 ^ 32 -> exists m, Memtable.New arenaSize = Some m /\ mrep m [] /\
    blen (Arena.buf (arena_of m)) = arenaSize /\ Arena.n (arena_of m) <= maxNodeSize + 4.
Proof.
  intros Hsz. destruct (New_room arenaSize Hsz) as (s & Hs & Hrep & Hroom).
  unfold Memtable.New. rewrite Hs. cbn [mbind option_bind]. eexists. split; [done|]. split; [|exact Hroom].
  split; cbn; try done. by exists [].
Qed.

Lemma New_mrep arenaSize :
  maxNodeSize + 4 <= arenaSize < 2 ^ 32 -> exists m, Memtable.New arenaSize = Some m /\ mrep m [].
Proof. intros Hsz. destruct (New_mrep_room arenaSize Hsz) as (m & E & H & _). by exists m. Qed.

Lemma bytesEqual_spec a b : bytesEqual a b = bool_decide (a = b).
Proof.
  unfold bytesEqual. destruct (blen a =? blen b) eqn:E; cbn; bool_hyps.
  - revert b E. induction a as [|x a IH]; intros [|y b] E; try (unfold blen in E; cbn in E; lia); [done|].
    cbn [bytesEqual_loop]. rewrite !blen_cons in E. destruct (b2z x =? b2z y) eqn:Exy; cbn; bool_hyps.
    + apply b2z_inj in Exy as ->. rewrite IH by lia. apply bool_decide_ext. naive_solver.
    + symmetry. apply bool_decide_eq_false. naive_solver.
  - symmetry. apply bool_decide_eq_false. naive_solver.
Qed.

(** What an iterator positioned by a seek for [(key, seq)] sees. *)
Lemma mem_seek m vs key seq :
  mrep m vs -> seq_ok seq -> key_separate vs key ->
  exists it, Skiplist.SeekGE (skl m) (MakeInternalKey key seq KindSet) = Some it /\
    (it = 0 /\ (forall v, ~ visible vs key seq v) \/
     it <> 0 /\ exists v, v ∈ vs /\ Skiplist.Key (skl m) it = Some (ver_ikey v) /\
       Skiplist.Value (skl m) it = Some (v_val v) /\
       if decide (v_key v = key) then newest vs key seq v
       else forall v', ~ visible vs key seq v').
Proof.
  intros [(es & Hrep & Hperm) Hok _ _] Hseq Hsep.
  destruct (SeekGE_first (skl m) es (MakeInternalKey key seq KindSet) Hrep) as (it & Hit & Hfirst).
  exists it. split; [done|].
  pose proof (seek_newest (contents es) vs key seq (rep_contents_sorted _ _ Hrep) Hperm Hok Hseq Hsep)
    as Hs.
  destruct (suffix_from _ _) as [|[ik val] rest]; [by left|right].
  destruct Hfirst as (Hne & Hkey & Hval). split; [done|].
  destruct Hs as (v & Hv & -> & -> & Hnew). eauto.
Qed.

Lemma Get_answers m vs key seq :
  mrep m vs -> seq_ok seq -> key_separate vs key ->
  exists r, Memtable.Get m key seq = Some r /\ answers vs key seq r.
Proof.
  intros Hm Hseq Hsep. destruct (mem_seek m vs key seq Hm Hseq Hsep) as (it & Hit & Hcase).
  unfold Memtable.Get. rewrite Hit. cbn [mbind option_bind].
  destruct Hcase as [[-> Hnone]|(Hne & v & Hv & Hkey & Hval & Hnew)].
  { exists None. split; [done|]. by left. }
  unfold Skiplist.Valid. rewrite (proj2 (Z.eqb_neq _ _)) by done. cbn [negb].
  rewrite Hkey. cbn [mbind option_bind].
  pose proof (proj1 (Forall_forall _ _) (mr_ok _ _ Hm) v Hv) as Hvok.
  destruct (ver_ok_seq v Hvok) as [H1 H2]. unfold ver_ikey. rewrite Parse_Make by done.
  rewrite bytesEqual_spec. destruct (decide (v_key v = key)) as [Hk|Hk].
  - rewrite bool_decide_eq_true_2 by done. cbn [negb].
    destruct Hvok as [_ [Hkind|Hkind]]; rewrite Hkind; cbn.
    + rewrite Hval. cbn. exists (Some (v_val v)). split; [done|]. exists v. done.
    + exists None. split; [done|]. right. by exists v.
  - rewrite bool_decide_eq_false_2 by done. exists None. split; [done|]. by left.
Qed.

(** Iterating over the memtable lists every version once, in internal-key
    order. *)
Lemma mem_entries m vs :
  mrep m vs ->
  exists l, Skiplist.entries (skl m) = Some l /\ l ≡ₚ enc <$> vs /\ StronglySorted blt l.*1.
Proof.
  intros [(es & Hrep & Hperm) _ _ _]. exists (contents es). split; [by apply entries_spec|].
  split; [done|]. by eapply rep_contents_sorted.
Qed.

(** ** Properties *)

Definition mem0 : Memtable := default (mkMemtable demo0 0 0 0) (Memtable.New 2000).

Lemma mem0_rep : mrep mem0 [].
Proof.
  destruct (New_mrep 2000 ltac:(unfold maxNodeSize; lia)) as (m & Hm & Hrep).
  unfold mem0. rewrite Hm. exact Hrep.
Qed.

(** Running a list of writes, dropping the results. *)
Fixpoint write_all (m : Memtable) (vs : list version) : Memtable :=
  match vs with
  | [] => m
  | v :: vs =>
      let r := if v_kind v =? KindSet then Memtable.Set_ m 7 (v_key v) (v_val v) (v_seq v)
               else Memtable.Delete m 7 (v_key v) (v_seq v) in
      write_all (match r with Some (m', _) => m' | None => m end) vs
  end.

(** C26: [Set] and [Delete] add exactly one version, and keep the memtable well
    formed with its sequence range covering every version, or leave the
    versions alone and return the skiplist's error: [ErrRecordExists] only for
    a version with the same key, number and kind, [ErrFull] when the arena
    cannot take the node. *)
Theorem memtable_write (m : Memtable) (vs : list version) (rnd seq : Z) (key value : bytes) (del : bool) :
  mrep m vs -> 1 <= seq < 2 ^ 56 -> add_fits m key value ->
  let v := if del then mkVersion key seq KindDelete [] else mkVersion key seq KindSet value in
  exists m' r,
    (if del then Memtable.Delete m rnd key seq else Memtable.Set_ m rnd key value seq) = Some (m', r) /\
    match r with
    | Ok _ => mrep m' (v :: vs)
    | Err ErrRecordExists => mrep m' vs /\
        exists v', v' ∈ vs /\ v_key v' = key /\ v_seq v' = seq /\ v_kind v' = v_kind v
    | Err (ErrArena ErrFull) => mrep m' vs
    | Panic => False
    end.
Proof.
  intros Hm Hseq [Hf1 Hf2] v.
  assert (Hv : ver_ok v) by (unfold v; destruct del; split; cbn; auto).
  assert (Hfit : add_fits m (v_key v) (v_val v)).
  { split; [done|]. pose proof (blen_nonneg value). unfold v. destruct del; cbn; [|done].
    change (blen []) with 0. lia. }
  destruct (add_internal_spec m vs rnd v Hm Hv Hfit) as (m' & r & HA & Hr).
  exists m', r. unfold v in *. destruct del; (split; [exact HA|exact Hr]).
Qed.

Lemma memtable_write_witness :
  mrep mem0 [] /\
  exists m' r, Memtable.Set_ mem0 7 [x61] [x62] 3 = Some (m', r) /\ r = Ok tt /\
    mrep m' [mkVersion [x61] 3 KindSet [x62]].
Proof.
  split; [exact mem0_rep|].
  destruct (memtable_write mem0 [] 7 3 [x61] [x62] false mem0_rep ltac:(lia)
    ltac:(split; vm_compute; reflexivity)) as (m' & r & HA & Hr).
  exists m', r. split; [exact HA|].
  assert (E : r = Ok tt) by (vm_compute in HA; injection HA as _ <-; reflexivity).
  split; [exact E|]. rewrite E in Hr. exact Hr.
Defined.

(** C12: [Get] is multi-version lookup: at sequence number [seq] it returns the
    value of the newest visible version of the key, and nothing when there is
    none or it is a tombstone, provided no stored user key is a proper prefix
    of the key or extends it. *)
Theorem memtable_get (m : Memtable) (vs : list version) (key : bytes) (seq : Z) :
  mrep m vs -> seq_ok seq -> key_separate vs key ->
  exists r, Memtable.Get m key seq = Some r /\ answers vs key seq r.
Proof. apply Get_answers. Qed.

Lemma memtable_get_witness :
  exists m vs, mrep m vs /\ key_separate vs [x61] /\
    exists r, Memtable.Get m [x61] 5 = Some r /\ answers vs [x61] 5 r.
Proof.
  destruct (add_internal_spec mem0 [] 7 (mkVersion [x61] 3 KindSet [x62]) mem0_rep) as (m' & r & HA & Hr);
    [split; [cbn; lia|by left]|split; vm_compute; reflexivity|].
  assert (E : r = Ok tt) by (vm_compute in HA; injection HA as _ <-; reflexivity).
  rewrite E in Hr. exists m', [mkVersion [x61] 3 KindSet [x62]].
  assert (Hsep : key_separate [mkVersion [x61] 3 KindSet [x62]] [x61])
    by (constructor; [left; reflexivity|constructor]).
  split; [exact Hr|]. split; [exact Hsep|].
  apply memtable_get; [exact Hr|unfold seq_ok; lia|exact Hsep].
Defined.

Definition ff6_fb : bytes := [xff; xff; xff; xff; xff; xff; xfb].

(** C39: The condition of [memtable_get] is needed: [Get] looks at one internal
    key only, the first at or after the one it seeks.  In any memtable, if the
    internal key of a version [w] of another user key lies between the seek key
    and the newest visible version [v] of the key, then [Get] finds nothing,
    although [v] is there and visible. *)
Theorem memtable_get_shadowed (m : Memtable) (vs : list version) (key : bytes) (seq : Z) (v w : version) :
  mrep m vs -> seq_ok seq -> newest vs key seq v -> w ∈ vs ->
  ble (MakeInternalKey key seq KindSet) (ver_ikey w) -> blt (ver_ikey w) (ver_ikey v) ->
  Memtable.Get m key seq = Some None.
Proof.
  intros [(es & Hrep & Hperm) Hok _ _] Hseq [(Hv & Hvk & Hvs) Hnew] Hw Hle Hlt.
  set (t := MakeInternalKey key seq KindSet) in *. pose proof (rep_contents_sorted _ _ Hrep) as Hsort.
  destruct (SeekGE_first (skl m) es t Hrep) as (it & Hit & Hfirst).
  pose proof (in_list (contents es) vs Hperm w Hw) as Hwin.
  destruct (suffix_from t (contents es)) as [|[ik val] rest] eqn:Hsuf.
  { assert (Hin : (ver_ikey w, v_val w) ∈ suffix_from t (contents es)) by (by apply list_elem_of_filter).
    rewrite Hsuf in Hin. by apply elem_of_nil in Hin. }
  destruct Hfirst as (Hne & Hkey & _).
  destruct (head_version (contents es) vs key seq Hperm _ _ _ Hsuf) as (x & Hx & -> & -> & Hlex).
  pose proof (suffix_head _ _ _ _ _ _ _ Hsort Hsuf Hwin Hle) as Hxw.
  pose proof (proj1 (Forall_forall _ _) Hok x Hx) as Hxok. destruct (ver_ok_seq x Hxok) as [H1 H2].
  destruct (ver_ok_seq v (proj1 (Forall_forall _ _) Hok v Hv)) as [H3 H4].
  assert (Hxk : v_key x <> key).
  { intros Hxk. assert (Hvis : visible vs key seq x).
    { split; [done|]. split; [done|]. unfold ble, ver_ikey in Hlex. rewrite Hxk, order_same in Hlex by (done || apply kind_set_ok).
      rewrite Z.compare_le_iff in Hlex. unfold stamp, KindSet, kind_ok in *. lia. }
    apply (blt_irrefl (ver_ikey v)). eapply ble_blt_trans; [|exact Hlt]. eapply ble_trans; [|exact Hxw].
    unfold ble, ver_ikey. rewrite Hvk, Hxk, order_same by done. apply Z.compare_le_iff. by apply Hnew. }
  unfold Memtable.Get. fold t. rewrite Hit. cbn [mbind option_bind].
  unfold Skiplist.Valid. rewrite (proj2 (Z.eqb_neq _ _)) by done. cbn [negb].
  rewrite Hkey. cbn [mbind option_bind]. unfold ver_ikey. rewrite Parse_Make by done.
  by rewrite bytesEqual_spec, bool_decide_eq_false_2.
Qed.

(** For instance with the keys [k] (number 3) and [k] followed
    by six bytes 0xFF and 0xFB (number 9) in the memtable, reading [k] at number
    5 finds nothing, because the longer key's internal key lies between the
    seek target and the version to be found. *)
Theorem memtable_get_shadowed_run :
  let vs := [mkVersion ([x6b] ++ ff6_fb) 9 KindSet [x32]; mkVersion [x6b] 3 KindSet [x31]] in
  let m := write_all mem0 (rev vs) in
  newest vs [x6b] 5 (mkVersion [x6b] 3 KindSet [x31]) /\
  Memtable.Get m [x6b] 3 = Some (Some [x31]) /\ Memtable.Get m [x6b] 5 = Some None.
Proof.
  cbn zeta. split; [|split; vm_compute; reflexivity].
  split; [split; [set_solver|done]|]. intros v' (Hin & Hk & Hs).
  apply elem_of_cons in Hin as [->|Hin]; [done|]. by apply list_elem_of_singleton in Hin as ->.
Qed.

Lemma memtable_get_shadowed_witness :
  let vs := [mkVersion ([x6b] ++ ff6_fb) 9 KindSet [x32]; mkVersion [x6b] 3 KindSet [x31]] in
  exists m, mrep m vs /\ newest vs [x6b] 5 (mkVersion [x6b] 3 KindSet [x31]) /\
    Memtable.Get m [x6b] 5 = Some None.
Proof.
  intros vs. set (v := mkVersion [x6b] 3 KindSet [x31]). set (w := mkVersion ([x6b] ++ ff6_fb) 9 KindSet [x32]).
  destruct (add_internal_spec mem0 [] 9 v mem0_rep) as (m1 & r1 & HA1 & Hr1);
    [split; [cbn; lia|by left]|split; vm_compute; reflexivity|].
  assert (E1 : r1 = Ok tt) by (vm_compute in HA1; injection HA1 as _ <-; reflexivity).
  rewrite E1 in Hr1.
  destruct (add_internal_spec m1 [v] 9 w Hr1) as (m2 & r2 & HA2 & Hr2);
    [split; [cbn; lia|by left]|vm_compute in HA1; injection HA1 as <- _; split; vm_compute; reflexivity|].
  assert (E2 : r2 = Ok tt).
  { vm_compute in HA1. injection HA1 as HA1 _. subst m1. vm_compute in HA2. injection HA2 as _ <-. reflexivity. }
  rewrite E2 in Hr2. exists m2. split; [exact Hr2|].
  assert (Hn : newest vs [x6b] 5 v) by exact (proj1 memtable_get_shadowed_run).
  split; [exact Hn|].
  apply (memtable_get_shadowed m2 vs [x6b] 5 v w); [exact Hr2|unfold seq_ok; lia|exact Hn|by left| |];
    vm_compute; first [reflexivity|discriminate].
Defined.
