(* ===== verification/Version.v ===== *)
(** The file structure of the tree ([pkg/lsm/version.go], first part): levels
    of table files, the edits that lead from one version to the next, their
    encoding, and the queries on a version.

    A [Panic] is a run-time panic: a slice or index out of range, or an
    allocation larger than the runtime allows.  [sort.Slice] is not stable, so
    it enters through the interface [SliceSorter], which states what the
    standard library promises. *)
From stdpp Require Import sorting.
From S2P Require Import Prelude SliceSort Binary ByteOrder Io.

#[local] Open Scope Z_scope.

(** ** Constants *)

Definition NumLevels : nat := 7.
Definition L0CompactionThreshold : Z := 4.
Definition LevelMultiplier : Z := 10.
Definition BaseLevelTargetSize : Z := 4 * 1024 * 1024.
Definition TargetFileSize : Z := 2 * 1024 * 1024.

(** ** Files and edits *)

Record FileMeta : Type := mkFileMeta {
  FileNum : Z;
  Level : Z;
  Size : Z;
  SmallestKey : bytes;
  LargestKey : bytes }.

#[export] Instance FileMeta_eq_dec : EqDecision FileMeta.
Proof. solve_decision. Defined.

Record VersionEdit : Type := mkEdit {
  NewFiles : list FileMeta;
  DeletedFiles : list (Z * Z);
  LastSeqNum : Z;
  NextFileNum : Z;
  HasLastSeqNum : bool;
  HasNextFileNum : bool }.

Definition emptyEdit : VersionEdit := mkEdit [] [] 0 0 false false.

(** What can be wrong in a manifest, by the message of the error. *)
Inductive manifest_field : Type :=
| F_lastSeqNum | F_nextFileNum
| F_newFile_level | F_newFile_fileNum | F_newFile_size | F_newFile_smallestKey | F_newFile_largestKey
| F_deletedFile_level | F_deletedFile_fileNum.

Inductive manifest_error : Type :=
| ErrBadField (f : manifest_field)
| ErrUnknownTag (tag : byte)
| ErrReadLength (e : io_error)
| ErrReadRecord (e : io_error)
| ErrOpen
| ErrCreate
| ErrWrite (e : io_error)
| ErrSync.

(** ** Encoding *)

Definition encode_new (f : FileMeta) : bytes :=
  x03 :: put_uvarint (u64 (Level f)) ++ put_uvarint (FileNum f) ++ put_uvarint (Size f) ++
  put_uvarint (blen (SmallestKey f)) ++ SmallestKey f ++
  put_uvarint (blen (LargestKey f)) ++ LargestKey f.

Definition encode_deleted (d : Z * Z) : bytes := x04 :: put_uvarint (u64 d.1) ++ put_uvarint d.2.

Definition encode (ve : VersionEdit) : bytes :=
  (if HasLastSeqNum ve then x01 :: put_uvarint (LastSeqNum ve) else []) ++
  (if HasNextFileNum ve then x02 :: put_uvarint (NextFileNum ve) else []) ++
  concat (encode_new <$> NewFiles ve) ++
  concat (encode_deleted <$> DeletedFiles ve).

(** ** Decoding *)

(** [binary.Uvarint(data[i:])] with the check [n <= 0], and [i += n]. *)
Definition take_uvarint (f : manifest_field) (s : bytes) : result manifest_error (Z * bytes) :=
  let '(v, n) := uvarint s in
  if n <=? 0 then Err (ErrBadField f) else Ok (v, drop (Z.to_nat n) s).

(** A key: its length, [make] and [copy] from [data[i:i+int(keyLen)]]. *)
Definition take_key (f : manifest_field) (s : bytes) : result manifest_error (bytes * bytes) :=
  '(keyLen, s) ← take_uvarint f s;
  if maxAlloc <? keyLen then Panic
  else key ← or_panic (slice s 0 keyLen); Ok (key, drop (Z.to_nat keyLen) s).

(** One round of the loop, entered after the tag. *)
Definition decode_field (ve : VersionEdit) (tag : byte) (s : bytes)
    : result manifest_error (VersionEdit * bytes) :=
  match tag with
  | x01 =>
      '(v, s) ← take_uvarint F_lastSeqNum s;
      Ok (mkEdit (NewFiles ve) (DeletedFiles ve) v (NextFileNum ve) true (HasNextFileNum ve), s)
  | x02 =>
      '(v, s) ← take_uvarint F_nextFileNum s;
      Ok (mkEdit (NewFiles ve) (DeletedFiles ve) (LastSeqNum ve) v (HasLastSeqNum ve) true, s)
  | x03 =>
      '(level, s) ← take_uvarint F_newFile_level s;
      '(fileNum, s) ← take_uvarint F_newFile_fileNum s;
      '(size, s) ← take_uvarint F_newFile_size s;
      '(smallest, s) ← take_key F_newFile_smallestKey s;
      '(largest, s) ← take_key F_newFile_largestKey s;
      let f := mkFileMeta fileNum (i64 level) size smallest largest in
      Ok (mkEdit (NewFiles ve ++ [f]) (DeletedFiles ve) (LastSeqNum ve) (NextFileNum ve)
            (HasLastSeqNum ve) (HasNextFileNum ve), s)
  | x04 =>
      '(level, s) ← take_uvarint F_deletedFile_level s;
      '(fileNum, s) ← take_uvarint F_deletedFile_fileNum s;
      Ok (mkEdit (NewFiles ve) (DeletedFiles ve ++ [(i64 level, fileNum)]) (LastSeqNum ve)
            (NextFileNum ve) (HasLastSeqNum ve) (HasNextFileNum ve), s)
  | _ => Err (ErrUnknownTag tag)
  end.

(** Every round consumes the tag, so the length of the data is enough fuel. *)
Fixpoint decode_loop (fuel : nat) (ve : VersionEdit) (s : bytes) : result manifest_error VersionEdit :=
  match s with
  | [] => Ok ve
  | tag :: s =>
      match fuel with
      | O => Panic
      | S fuel => '(ve, s) ← decode_field ve tag s; decode_loop fuel ve s
      end
  end.

Definition decodeVersionEdit (data : bytes) : result manifest_error VersionEdit :=
  decode_loop (length data) emptyEdit data.

(** ** Versions *)

(** The reference count of a version is never read, and left out. *)
Record Version : Type := mkLevels { Levels : list (list FileMeta) }.

Definition newVersion : Version := mkLevels (replicate NumLevels []).

Definition less_smallest (f g : FileMeta) : bool := compareKeys (SmallestKey f) (SmallestKey g) <? 0.

(** [nv.Levels[f.Level] = append(nv.Levels[f.Level], fm)]. *)
Definition add_file (levels : option (list (list FileMeta))) (f : FileMeta)
    : option (list (list FileMeta)) :=
  levels ← levels;
  fs ← index levels (Level f);
  Some (<[Z.to_nat (Level f) := fs ++ [f]]> levels).

Section versions.
Context {sorter : SliceSorter}.

Definition apply (v : Version) (edit : VersionEdit) : option Version :=
  let deleted : gset Z := list_to_set (DeletedFiles edit).*2 in
  let levels := filter (fun f => FileNum f ∉ deleted) <$> Levels v in
  levels ← foldl add_file (Some levels) (NewFiles edit);
  Some (mkLevels (match levels with
                  | [] => []
                  | l0 :: ls => l0 :: (sort_slice less_smallest <$> ls)
                  end)).
End versions.

Definition files_at (v : Version) (level : Z) : option (list FileMeta) := index (Levels v) level.

Fixpoint overlapping_loop (fs : list FileMeta) (smallest largest : bytes) : list FileMeta :=
  match fs with
  | [] => []
  | f :: fs =>
      if (0 <? compareKeys (SmallestKey f) largest) || (compareKeys (LargestKey f) smallest <? 0)
      then overlapping_loop fs smallest largest
      else f :: overlapping_loop fs smallest largest
  end.

Definition overlapping (v : Version) (level : Z) (smallest largest : bytes) : option (list FileMeta) :=
  fs ← files_at v level; Some (overlapping_loop fs smallest largest).

Definition levelSize (v : Version) (level : Z) : option Z :=
  fs ← files_at v level; Some (foldl (fun total f => u64 (total + Size f)) 0 fs).
