(* ===== verification/VersionSpec.v ===== *)
(** Versions and edits: an edit is read back from its encoding, and applying
    one gives exactly the files it says, the levels from one on in the order of
    their smallest keys. *)
From stdpp Require Import sorting.
From S2P Require Import Prelude SliceSort Binary ByteOrder Io Version.

#[local] Open Scope Z_scope.

(** ** Encoding round trip *)

(** Values the encoding can hold: unsigned 64-bit numbers, a level that is a
    non-negative [int], keys below the allocation limit. *)
Definition u64_ok (x : Z) : Prop := 0 <= x < 2 ^ 64.
Definition file_ok (f : FileMeta) : Prop :=
  0 <= Level f < 2 ^ 63 /\ u64_ok (FileNum f) /\ u64_ok (Size f) /\
  blen (SmallestKey f) <= maxAlloc /\ blen (LargestKey f) <= maxAlloc.
Definition deleted_ok (d : Z * Z) : Prop := 0 <= d.1 < 2 ^ 63 /\ u64_ok d.2.

Record edit_ok (ve : VersionEdit) : Prop := {
  eo_new : Forall file_ok (NewFiles ve);
  eo_deleted : Forall deleted_ok (DeletedFiles ve);
  eo_last : u64_ok (LastSeqNum ve);
  eo_next : u64_ok (NextFileNum ve);
  eo_no_last : HasLastSeqNum ve = false -> LastSeqNum ve = 0;
  eo_no_next : HasNextFileNum ve = false -> NextFileNum ve = 0 }.

Lemma take_uvarint_put f x rest :
  u64_ok x -> take_uvarint f (put_uvarint x ++ rest) = Ok (x, rest).
Proof.
  intros Hx. unfold take_uvarint. rewrite uvarint_put_app by done.
  pose proof (blen_put_uvarint x). rewrite (proj2 (Z.leb_gt _ _)) by lia. by rewrite drop_blen_app.
Qed.

Lemma take_key_put f k rest :
  blen k <= maxAlloc -> take_key f (put_uvarint (blen k) ++ k ++ rest) = Ok (k, rest).
Proof.
  intros Hk. pose proof (blen_nonneg k). unfold take_key.
  rewrite take_uvarint_put by (unfold u64_ok, maxAlloc in *; lia). cbn [mbind result_bind].
  rewrite (proj2 (Z.ltb_ge _ _)) by done.
  rewrite (slice_app_mid [] k rest) by done. cbn [or_panic mbind result_bind]. by rewrite drop_blen_app.
Qed.

(** Fuel beyond the length changes nothing. *)
Lemma decode_field_shrinks ve tag s ve' s' :
  decode_field ve tag s = Ok (ve', s') -> (length s' <= length s)%nat.
Proof.
  assert (U : forall f s v s', take_uvarint f s = Ok (v, s') -> (length s' <= length s)%nat).
  { intros f s0 v s1. unfold take_uvarint. destruct (uvarint s0) as [? n]. destruct (n <=? 0); [done|].
    intros [= <- <-]. rewrite length_drop. lia. }
  assert (K : forall f s v s', take_key f s = Ok (v, s') -> (length s' <= length s)%nat).
  { intros f s0 v s1. unfold take_key. intros ([k s2] & E & H)%result_bind_ok. apply U in E.
    destruct (maxAlloc <? k); [done|]. apply result_bind_ok in H as (key & _ & [= <- <-]).
    rewrite length_drop. lia. }
  destruct tag; try done; cbn [decode_field]; intros H;
    repeat (apply result_bind_ok in H as ([? ?] & ?E & H));
    injection H as <- <-;
    repeat match goal with
    | E : take_uvarint _ _ = Ok _ |- _ => apply U in E
    | E : take_key _ _ = Ok _ |- _ => apply K in E
    end; lia.
Qed.

Lemma decode_loop_fuel n ve s :
  (length s <= n)%nat -> decode_loop n ve s = decode_loop (length s) ve s.
Proof.
  revert ve s. induction (lt_wf n) as [n _ IH]; intros ve [|tag s] Hn; [by destruct n|].
  destruct n as [|n]; [cbn in Hn; lia|]. cbn [decode_loop length]. cbn in Hn.
  destruct (decode_field ve tag s) as [[ve' s']| |] eqn:E; [|done..]. cbn [mbind result_bind].
  apply decode_field_shrinks in E. rewrite (IH n) by lia. symmetry.
  destruct (decide (length s = n)) as [<-|]; [apply IH; lia|]. by rewrite (IH (length s)) by lia.
Qed.

(** [s] turns the edit [ve] into [ve'], whatever follows. *)
Definition decodes (s : bytes) (ve ve' : VersionEdit) : Prop :=
  forall rest, decode_loop (length (s ++ rest)) ve (s ++ rest) = decode_loop (length rest) ve' rest.

Lemma decodes_nil ve : decodes [] ve ve.
Proof. done. Qed.

Lemma decodes_app s1 s2 ve1 ve2 ve3 :
  decodes s1 ve1 ve2 -> decodes s2 ve2 ve3 -> decodes (s1 ++ s2) ve1 ve3.
Proof. intros H1 H2 rest. by rewrite <- app_assoc, H1, H2. Qed.

Lemma decodes_field tag s ve ve' :
  (forall rest, decode_field ve tag (s ++ rest) = Ok (ve', rest)) -> decodes (tag :: s) ve ve'.
Proof.
  intros H rest. cbn [app length decode_loop]. rewrite H. cbn [mbind result_bind].
  apply decode_loop_fuel. rewrite length_app. lia.
Qed.

Lemma decodes_new ve f :
  file_ok f ->
  decodes (encode_new f) ve
    (mkEdit (NewFiles ve ++ [f]) (DeletedFiles ve) (LastSeqNum ve) (NextFileNum ve)
       (HasLastSeqNum ve) (HasNextFileNum ve)).
Proof.
  intros (Hl & Hn & Hs & Hk1 & Hk2). apply decodes_field. intros rest. cbn [decode_field].
  rewrite <- !app_assoc. unfold u64_ok in *.
  rewrite take_uvarint_put by apply u64_bounds. cbn [mbind result_bind].
  do 2 (rewrite take_uvarint_put by done; cbn [mbind result_bind]).
  do 2 (rewrite take_key_put by done; cbn [mbind result_bind]).
  do 4 f_equal. rewrite u64_small, i64_small by lia. by destruct f.
Qed.

Lemma decodes_deleted ve d :
  deleted_ok d ->
  decodes (encode_deleted d) ve
    (mkEdit (NewFiles ve) (DeletedFiles ve ++ [d]) (LastSeqNum ve) (NextFileNum ve)
       (HasLastSeqNum ve) (HasNextFileNum ve)).
Proof.
  intros (Hl & Hn). apply decodes_field. intros rest. cbn [decode_field].
  rewrite <- !app_assoc.
  rewrite take_uvarint_put by apply u64_bounds. cbn [mbind result_bind].
  rewrite take_uvarint_put by done. cbn [mbind result_bind].
  do 4 f_equal. rewrite u64_small, i64_small by lia. by destruct d.
Qed.

Lemma decodes_new_all fs ve :
  Forall file_ok fs ->
  decodes (concat (encode_new <$> fs)) ve
    (mkEdit (NewFiles ve ++ fs) (DeletedFiles ve) (LastSeqNum ve) (NextFileNum ve)
       (HasLastSeqNum ve) (HasNextFileNum ve)).
Proof.
  intros Hf. revert ve. induction Hf as [|f fs Hf _ IH]; intros ve.
  - rewrite app_nil_r. destruct ve. apply decodes_nil.
  - rewrite fmap_cons. cbn [concat]. eapply decodes_app; [by apply decodes_new|].
    replace (NewFiles ve ++ f :: fs) with ((NewFiles ve ++ [f]) ++ fs) by (by rewrite <- app_assoc).
    apply (IH (mkEdit _ _ _ _ _ _)).
Qed.

Lemma decodes_deleted_all ds ve :
  Forall deleted_ok ds ->
  decodes (concat (encode_deleted <$> ds)) ve
    (mkEdit (NewFiles ve) (DeletedFiles ve ++ ds) (LastSeqNum ve) (NextFileNum ve)
       (HasLastSeqNum ve) (HasNextFileNum ve)).
Proof.
  intros Hd. revert ve. induction Hd as [|d ds Hd _ IH]; intros ve.
  - rewrite app_nil_r. destruct ve. apply decodes_nil.
  - rewrite fmap_cons. cbn [concat]. eapply decodes_app; [by apply decodes_deleted|].
    replace (DeletedFiles ve ++ d :: ds) with ((DeletedFiles ve ++ [d]) ++ ds) by (by rewrite <- app_assoc).
    apply (IH (mkEdit _ _ _ _ _ _)).
Qed.

Lemma decode_encode ve : edit_ok ve -> decodeVersionEdit (encode ve) = Ok ve.
Proof.
  intros [Hnew Hdel Hl Hn Hl0 Hn0]. destruct ve as [new del last nxt hl hn]. cbn in *.
  assert (D : decodes (encode (mkEdit new del last nxt hl hn)) emptyEdit (mkEdit new del last nxt hl hn)).
  { apply (decodes_app _ _ _ (mkEdit [] [] last 0 hl false)).
    { destruct hl; [|rewrite Hl0 by done; apply decodes_nil].
      apply decodes_field. intros rest. cbn [decode_field]. by rewrite take_uvarint_put. }
    apply (decodes_app _ _ _ (mkEdit [] [] last nxt hl hn)).
    { destruct hn; [|rewrite Hn0 by done; apply decodes_nil].
      apply decodes_field. intros rest. cbn [decode_field]. by rewrite take_uvarint_put. }
    apply (decodes_app _ _ _ (mkEdit new [] last nxt hl hn)).
    - by apply (decodes_new_all new (mkEdit [] [] last nxt hl hn)).
    - by apply (decodes_deleted_all del (mkEdit new [] last nxt hl hn)). }
  specialize (D []). rewrite app_nil_r in D. exact D.
Qed.

(** ** Applying an edit *)

(** Smallest keys in order, as far as sorting gives it. *)
Definition in_order (fs : list FileMeta) : Prop :=
  StronglySorted (fun f g => ble (SmallestKey f) (SmallestKey g)) fs.

Lemma less_smallest_ble f g : less_smallest f g = false <-> ble (SmallestKey g) (SmallestKey f).
Proof. unfold less_smallest. rewrite compareKeys_lt, bool_decide_eq_false. apply not_blt. Qed.

Lemma less_smallest_weak : weak_order less_smallest.
Proof.
  split.
  - intros f g. unfold less_smallest. rewrite !compareKeys_lt, bool_decide_eq_true, bool_decide_eq_false.
    intros H1 H2. apply (blt_irrefl (SmallestKey f)). by eapply blt_trans.
  - intros f g h. rewrite !less_smallest_ble. eauto using ble_trans.
Qed.

(** What an edit leaves of a level, and what it adds to it. *)
Definition kept (edit : VersionEdit) (fs : list FileMeta) : list FileMeta :=
  filter (fun f => FileNum f ∉ (DeletedFiles edit).*2) fs.
Definition added (edit : VersionEdit) (level : Z) : list FileMeta :=
  filter (fun f => Level f = level) (NewFiles edit).

Lemma files_at_lookup v (l : nat) : files_at v (Z.of_nat l) = Levels v !! l.
Proof. unfold files_at, index. by rewrite (proj2 (Z.leb_le 0 _)), Nat2Z.id by lia. Qed.

Definition levels_ok (v : Version) : Prop := length (Levels v) = NumLevels.

Lemma add_files_spec new levels :
  (Forall (fun f => 0 <= Level f < blen levels) new /\
   exists levels', foldl add_file (Some levels) new = Some levels' /\ length levels' = length levels /\
     forall l, levels' !! l = (fun fs => fs ++ filter (fun f => Level f = Z.of_nat l) new) <$> levels !! l) \/
  (~ Forall (fun f => 0 <= Level f < blen levels) new /\ foldl add_file (Some levels) new = None).
Proof.
  revert levels. induction new as [|f new IH]; intros levels.
  - left. split; [done|]. exists levels. split_and!; [done..|]. intros l.
    destruct (levels !! l); cbn; [by rewrite app_nil_r|done].
  - cbn [foldl]. assert (Hnone : foldl add_file None new = None) by (clear; induction new; done).
    unfold add_file at 2 4. cbn [mbind option_bind]. unfold index.
    destruct (0 <=? Level f) eqn:E0; bool_hyps.
    2:{ right. split; [|exact Hnone]. intros H%Forall_cons. lia. }
    destruct (levels !! Z.to_nat (Level f)) as [fs|] eqn:Efs; cbn [mbind option_bind].
    2:{ right. split; [|exact Hnone]. intros H%Forall_cons. apply lookup_ge_None in Efs. unfold blen in *. lia. }
    assert (Hlt : (Z.to_nat (Level f) < length levels)%nat) by (by eapply lookup_lt_Some).
    set (levels1 := <[_ := _]> levels).
    assert (Hlen : blen levels1 = blen levels) by (unfold blen, levels1; by rewrite length_insert).
    destruct (IH levels1) as [(Hf & levels' & E & Hl & Hs)|(Hf & E)]; rewrite Hlen in Hf.
    + left. split; [constructor; [unfold blen in *; lia|done]|]. exists levels'. split; [exact E|].
      split; [by rewrite Hl; unfold levels1; rewrite length_insert|]. intros l. rewrite Hs.
      rewrite filter_cons. unfold levels1. destruct (decide (l = Z.to_nat (Level f))) as [->|Hne].
      * rewrite list_lookup_insert_eq, Efs by done. rewrite decide_True by lia. cbn. by rewrite <- app_assoc.
      * rewrite list_lookup_insert_ne by done. rewrite decide_False by lia. done.
    + right. split; [|exact E]. by intros [_ H]%Forall_cons.
Qed.

Lemma add_files_concat fs : forall levels levels',
  foldl add_file (Some levels) fs = Some levels' -> concat levels' ≡ₚ concat levels ++ fs.
Proof.
  induction fs as [|f fs IH]; intros levels levels' E; cbn [foldl] in E; [injection E as <-; by rewrite app_nil_r|].
  unfold add_file at 2 in E. cbn [mbind option_bind] in E. destruct (index levels (Level f)) as [l|] eqn:Ei; cbn [mbind option_bind] in E.
  2:{ exfalso. clear -E. by induction fs; [|auto]. }
  rewrite (IH _ _ E). unfold index in Ei. destruct (0 <=? Level f); [|done].
  pose proof (take_drop_middle _ _ _ Ei) as Hm. apply lookup_lt_Some in Ei as Hlt.
  rewrite insert_take_drop by done. set (a := take _ levels) in *. set (b := drop _ levels) in *.
  rewrite <- Hm, !concat_app. cbn [concat]. rewrite <- !app_assoc. do 2 f_equiv. cbn [app].
  by rewrite Permutation_middle.
Qed.

Section apply.
Context {sorter : SliceSorter}.

Lemma apply_outcome (v : Version) (edit : VersionEdit) :
  levels_ok v ->
  match apply v edit with
  | Some v' =>
      Forall (fun f => 0 <= Level f < 7) (NewFiles edit) /\ levels_ok v' /\
      (forall l fs, files_at v l = Some fs -> exists fs', files_at v' l = Some fs' /\
         fs' ≡ₚ kept edit fs ++ added edit l /\ (l = 0 -> fs' = kept edit fs ++ added edit l) /\
         (0 < l -> in_order fs'))
  | None => ~ Forall (fun f => 0 <= Level f < 7) (NewFiles edit)
  end.
Proof.
  unfold levels_ok. intros Hlen. unfold apply.
  set (levels := filter _ <$> Levels v).
  assert (Hb : blen levels = 7) by (unfold blen, levels; by rewrite length_fmap, Hlen).
  destruct (add_files_spec (NewFiles edit) levels) as [(Hf & levels' & E & Hl & Hs)|(Hf & E)];
    rewrite E; cbn [mbind option_bind]; rewrite Hb in Hf; [|done].
  split; [done|]. destruct levels' as [|l0 ls]; [unfold blen in Hb; cbn in Hl; lia|].
  split; [cbn [Levels length]; rewrite length_fmap; unfold blen, NumLevels in *; cbn in Hl; lia|].
  intros l fs Hfs. assert (exists n, l = Z.of_nat n) as [n ->].
  { unfold files_at, index in Hfs. destruct (0 <=? l) eqn:El; [|done]. bool_hyps. exists (Z.to_nat l). lia. }
  rewrite files_at_lookup in *. specialize (Hs n).
  assert (Hk : levels !! n = Some (kept edit fs)).
  { unfold levels. rewrite list_lookup_fmap, Hfs. cbn. f_equal. unfold kept.
    apply list_filter_iff. intros f. by rewrite elem_of_list_to_set. }
  rewrite Hk in Hs. cbn [fmap option_fmap option_map] in Hs. fold (added edit (Z.of_nat n)) in Hs.
  destruct n as [|n]; cbn [Levels lookup list_lookup] in *.
  - injection Hs as ->. eexists. split_and!; [done|done|done|lia].
  - change (ls !! n = Some (kept edit fs ++ added edit (Z.of_nat (S n)))) in Hs.
    set (fs1 := kept edit fs ++ added edit (Z.of_nat (S n))) in *.
    exists (sort_slice less_smallest fs1).
    split; [change ((sort_slice less_smallest <$> ls) !! n = Some (sort_slice less_smallest fs1)); by rewrite list_lookup_fmap, Hs|].
    split_and!; [apply sort_slice_perm|lia|].
    intros _. pose proof (sort_slice_sorted less_smallest fs1 less_smallest_weak) as H.
    unfold in_order. clear -H. induction H as [|f l _ IH Hf]; constructor; [done|].
    eapply Forall_impl; [exact Hf|]. intros g. apply less_smallest_ble.
Qed.

(** Over all levels: the files kept and the files added. *)
Lemma apply_all v edit v' : levels_ok v -> apply v edit = Some v' ->
  levels_ok v' /\ concat (Levels v') ≡ₚ kept edit (concat (Levels v)) ++ NewFiles edit.
Proof.
  intros Hl E. split; [pose proof (apply_outcome v edit Hl) as Ha; rewrite E in Ha; by destruct Ha as (_ & ? & _)|].
  unfold apply in E. apply bind_Some in E as (levels & E & [= <-]). apply add_files_concat in E. cbn [Levels].
  assert (Hs : concat (match levels with [] => [] | l0 :: ls => l0 :: (sort_slice less_smallest <$> ls) end) ≡ₚ concat levels).
  { destruct levels as [|l0 ls]; [done|]. cbn [concat]. f_equiv. clear E. induction ls as [|l ls IH]; [done|].
    cbn [fmap list_fmap concat]. by rewrite sort_slice_perm, IH. }
  rewrite Hs, E. f_equiv. clear. set (g := filter _). assert (Hg : forall l, g l = kept edit l).
  { intros l. apply list_filter_iff. intros f. by rewrite elem_of_list_to_set. }
  induction (Levels v) as [|l ls IH]; [done|]. cbn [fmap list_fmap concat]. rewrite IH, Hg. unfold kept. by rewrite filter_app.
Qed.

(** C27: Applying an edit to a version gives exactly the files it says, level
    by level: those kept, then those added, in this order at level 0 and in the
    order of the smallest keys from level 1 on; and it panics exactly when a new
    file names a level the tree does not have. *)
Theorem apply_exact (v : Version) (edit : VersionEdit) :
  levels_ok v ->
  match apply v edit with
  | Some v' =>
      Forall (fun f => 0 <= Level f < 7) (NewFiles edit) /\ levels_ok v' /\
      (forall l fs, files_at v l = Some fs -> exists fs', files_at v' l = Some fs' /\
         fs' ≡ₚ kept edit fs ++ added edit l /\ (l = 0 -> fs' = kept edit fs ++ added edit l) /\
         (0 < l -> in_order fs'))
  | None => ~ Forall (fun f => 0 <= Level f < 7) (NewFiles edit)
  end.
Proof. apply apply_outcome. Qed.
End apply.

(** The order is determined by the files when their smallest keys differ, so
    that any sorting function gives the same version. *)
Lemma in_order_unique l1 l2 :
  NoDup (SmallestKey <$> l1) -> in_order l1 -> in_order l2 -> l1 ≡ₚ l2 -> l1 = l2.
Proof.
  revert l2. induction l1 as [|f l1 IH]; intros l2 Hnd H1 H2 Hp.
  - by apply Permutation_nil_l in Hp.
  - destruct l2 as [|g l2]; [by apply Permutation_nil_r in Hp|].
    apply NoDup_cons in Hnd as [Hf Hnd]. inversion H1 as [|? ? H1' Hle1]; subst. inversion H2 as [|? ? H2' Hle2]; subst.
    rewrite Forall_forall in Hle1, Hle2.
    assert (f = g) as <-.
    { assert (Hg : g ∈ f :: l1) by (rewrite Hp; by left). assert (Hf' : f ∈ g :: l2) by (rewrite <- Hp; by left).
      apply elem_of_cons in Hg as [|Hg]; [done|]. apply elem_of_cons in Hf' as [|Hf']; [done|].
      destruct Hf. apply list_elem_of_fmap. exists g. split; [|done].
      apply ble_antisym; auto. }
    f_equal. apply IH; [done..|]. by apply Permutation_cons_inv in Hp.
Qed.

(** ** Queries *)

Lemma overlapping_exact v level s l fs :
  files_at v level = Some fs ->
  overlapping v level s l = Some (filter (fun f => ble (SmallestKey f) l /\ ble s (LargestKey f)) fs).
Proof.
  intros Hfs. unfold overlapping. rewrite Hfs. cbn [mbind option_bind]. f_equal. clear Hfs.
  induction fs as [|f fs IH]; [done|]. cbn [overlapping_loop]. rewrite filter_cons, IH.
  rewrite compareKeys_gt, compareKeys_lt.
  case_decide as H; repeat case_bool_decide; cbn [orb]; rewrite <- ?not_ble in *; naive_solver.
Qed.

Definition demo_meta (n level : Z) (a b : byte) : FileMeta := mkFileMeta n level 100 [a] [b].
Definition demo_version : Version :=
  mkLevels [[demo_meta 9 0 x61 x7a]; [demo_meta 3 1 x61 x63; demo_meta 5 1 x66 x68]; []; []; []; []; []].
Definition demo_edit : VersionEdit :=
  mkEdit [demo_meta 12 1 x64 x65; demo_meta 13 1 x62 x62] [(0, 9); (1, 3)] 0 0 false false.

Lemma apply_exact_witness :
  exists v', apply demo_version demo_edit = Some v' /\
    files_at v' 0 = Some [] /\ exists fs, files_at v' 1 = Some fs /\ in_order fs /\ length fs = 3%nat.
Proof.
  pose proof (apply_exact demo_version demo_edit eq_refl) as H.
  destruct (apply demo_version demo_edit) as [v'|]; [|destruct H; repeat constructor; done].
  destruct H as (_ & _ & H). exists v'. split; [done|].
  destruct (H 0 [demo_meta 9 0 x61 x7a] eq_refl) as (f0 & E0 & _ & H0 & _).
  destruct (H 1 [demo_meta 3 1 x61 x63; demo_meta 5 1 x66 x68] eq_refl) as (f1 & E1 & P1 & _ & H1).
  rewrite (H0 eq_refl) in E0. split; [exact E0|]. exists f1. split; [exact E1|].
  split; [apply H1; lia|]. apply Permutation_length in P1. exact P1.
Defined.
