(* ===== verification/Manifest.v ===== *)
(** The version set and its MANIFEST file ([pkg/lsm/version.go], second part):
    every edit is appended to the manifest as a length-prefixed record, synced
    and applied; recovery replays the records.

    The mutex makes the methods atomic.  What the device does is an argument:
    whether a sync succeeds, and how a file opens. *)
From S2P Require Import Prelude SliceSort Binary ByteOrder Io Version.

#[local] Open Scope Z_scope.

(** ** The code *)

Record VersionSet : Type := mkVersionSet {
  current : Version;
  nextFileNum : Z;
  lastSeqNum : Z;
  manifestFile : option File }.

Definition newVersionSet : VersionSet := mkVersionSet newVersion 1 0 None.

Definition set_current (vs : VersionSet) (v : Version) : VersionSet :=
  mkVersionSet v (nextFileNum vs) (lastSeqNum vs) (manifestFile vs).
Definition set_lastSeqNum (vs : VersionSet) (n : Z) : VersionSet :=
  mkVersionSet (current vs) (nextFileNum vs) n (manifestFile vs).
Definition set_manifest (vs : VersionSet) (f : option File) : VersionSet :=
  mkVersionSet (current vs) (nextFileNum vs) (lastSeqNum vs) f.

Definition currentVersion (vs : VersionSet) : Version := current vs.

(** [vs.nextFileNum.Add(1) - 1]. *)
Definition allocFileNum (vs : VersionSet) : VersionSet * Z :=
  let n := u64 (nextFileNum vs + 1) in
  (mkVersionSet (current vs) n (lastSeqNum vs) (manifestFile vs), u64 (n - 1)).

Definition record_bytes (data : bytes) : bytes := put_le32 (u32 (blen data)) ++ data.

(** The edit as it is written: with the counters of the version set. *)
Definition stamped (vs : VersionSet) (edit : VersionEdit) : VersionEdit :=
  mkEdit (NewFiles edit) (DeletedFiles edit) (lastSeqNum vs) (nextFileNum vs) true true.

(** Methods of a nil [*os.File] return an error. *)
Definition write_manifest (f : option File) (p : bytes) : option File * option io_error :=
  match f with
  | Some f => let '(f, _, e) := write f p in (Some f, e)
  | None => (None, Some ErrIO)
  end.

Section set.
Context {sorter : SliceSorter}.

Definition logAndApply (sync_ok : bool) (vs : VersionSet) (edit : VersionEdit)
    : option (VersionSet * option manifest_error) :=
  let edit := stamped vs edit in
  let '(f, e) := write_manifest (manifestFile vs) (record_bytes (encode edit)) in
  let vs := set_manifest vs f in
  match e with
  | Some e => Some (vs, Some (ErrWrite e))
  | None =>
      if negb sync_ok then Some (vs, Some ErrSync)
      else v ← apply (current vs) edit; Some (set_current vs v, None)
  end.

(** The loop over the records; each takes at least the four bytes of its
    length. *)
Fixpoint recover_loop (fuel : nat) (s : bytes) (v : Version) (next last : Z)
    : result manifest_error (Version * Z * Z) :=
  match fuel with
  | O => Panic
  | S fuel =>
      match ReadFull s 4 with
      | (_, inl EOF) => Ok (v, next, last)
      | (_, inl e) => Err (ErrReadLength e)
      | (s, inr lenBuf) =>
          recordLen ← or_panic (get_le32 lenBuf);
          match ReadFull s recordLen with
          | (_, inl e) => Err (ErrReadRecord e)
          | (s, inr data) =>
              edit ← decodeVersionEdit data;
              v ← or_panic (apply v edit);
              let next := if HasNextFileNum edit && (next <? NextFileNum edit)
                          then NextFileNum edit else next in
              let last := if HasLastSeqNum edit then LastSeqNum edit else last in
              recover_loop fuel s v next last
          end
      end
  end.

(** What [os.Open] of the manifest finds. *)
Inductive opened_file : Type :=
| NotExist
| OpenError
| Contents (c : bytes).

(** [createManifest] on a file that holds [c]: opened for appending, with the
    given room on the device, unless that fails. *)
Definition createManifest (vs : VersionSet) (c : bytes) (create : option Z) : result manifest_error VersionSet :=
  match create with
  | None => Err ErrCreate
  | Some space => Ok (set_manifest vs (Some (mkFile c (blen c) space true)))
  end.

Definition recover (vs : VersionSet) (m : opened_file) (create : option Z) : result manifest_error VersionSet :=
  match m with
  | NotExist => createManifest vs [] create
  | OpenError => Err ErrOpen
  | Contents c =>
      '(v, next, last) ← recover_loop (S (length c)) c newVersion (nextFileNum vs) (lastSeqNum vs);
      createManifest (mkVersionSet v next last (manifestFile vs)) c create
  end.

(** [close]: the error of closing the file. *)
Definition close (vs : VersionSet) : VersionSet * option io_error :=
  match manifestFile vs with
  | Some f => (set_manifest vs (Some (close_file f)), if opened f then None else Some ErrIO)
  | None => (vs, None)
  end.
End set.
