(* ===== verification/ManifestSpec.v ===== *)
(** The manifest and the version set stay in step: whatever was logged without
    error is what recovery finds.  And where they do not: a record that was
    written in part makes the manifest unreadable. *)
From S2P Require Import Prelude SliceSort Binary ByteOrder Io Version VersionSpec Manifest.

#[local] Open Scope Z_scope.

Section manifest.
Context {sorter : SliceSorter}.

(** The manifest [c] replays to the version [v] and the two counters. *)
Definition replays (c : bytes) (v : Version) (next last : Z) : Prop :=
  recover_loop (S (length c)) c newVersion 1 0 = Ok (v, next, last).

(** ** Records *)

Lemma ReadFull_4 z rest : ReadFull (put_le32 z ++ rest) 4 = (rest, inr (put_le32 z)).
Proof. rewrite <- (blen_put_le32 z). apply ReadFull_app. Qed.

Lemma get_le32_put z : 0 <= z < 2 ^ 32 -> get_le32 (put_le32 z) = Some z.
Proof. intros. rewrite <- (app_nil_r (put_le32 z)). by apply get_put_le32. Qed.

Lemma recover_loop_record n data rest v next last :
  blen data < 2 ^ 32 ->
  recover_loop (S n) (record_bytes data ++ rest) v next last =
  (edit ← decodeVersionEdit data;
   v ← or_panic (apply v edit);
   recover_loop n rest v
     (if HasNextFileNum edit && (next <? NextFileNum edit) then NextFileNum edit else next)
     (if HasLastSeqNum edit then LastSeqNum edit else last)).
Proof.
  intros Hd. pose proof (blen_nonneg data). unfold record_bytes. rewrite u32_small by lia.
  cbn [recover_loop]. rewrite <- app_assoc, ReadFull_4. cbn [mbind result_bind].
  rewrite get_le32_put by lia. cbn [or_panic mbind result_bind]. by rewrite ReadFull_app.
Qed.

Lemma recover_loop_nil n v next last : recover_loop (S n) [] v next last = Ok (v, next, last).
Proof. done. Qed.

(** Fuel beyond the length changes nothing, and reading on is reading what
    follows. *)
Lemma recover_loop_app s tail n m v next last v' next' last' :
  (length s < n)%nat -> (length (s ++ tail) < m)%nat ->
  recover_loop n s v next last = Ok (v', next', last') ->
  exists k, (length tail < k)%nat /\
    recover_loop m (s ++ tail) v next last = recover_loop k tail v' next' last'.
Proof.
  revert s m v next last. induction (lt_wf n) as [n _ IH]; intros s m v next last Hn Hm.
  destruct n as [|n]; [done|]. destruct m as [|m]; [lia|]. cbn [recover_loop].
  unfold ReadFull at 1. pose proof (blen_nonneg s). destruct (4 <=? blen s) eqn:E4; bool_hyps.
  2:{ destruct (blen s =? 0) eqn:E0; [|done]. bool_hyps. intros [= <- <- <-].
      assert (s = []) as -> by (destruct s; [done|rewrite blen_cons in *; blia]).
      exists (S m). cbn [app] in *. split; [lia|]. done. }
  assert (R4 : forall x y, ReadFull (s ++ tail) 4 = (x, y) ->
    x = drop (Z.to_nat 4) s ++ tail /\ y = inr (take (Z.to_nat 4) s)).
  { intros x y. unfold ReadFull. pose proof (blen_nonneg tail).
    rewrite blen_app, (proj2 (Z.leb_le _ _)) by lia. unfold blen in *.
    rewrite drop_app_le, take_app_le by lia. by intros [= <- <-]. }
  destruct (ReadFull (s ++ tail) 4) as [x y] eqn:E. destruct (R4 x y eq_refl) as [-> ->]. clear R4 E.
  destruct (get_le32 (take (Z.to_nat 4) s)) as [recordLen|] eqn:Eg; [|done].
  apply get_le32_bounds in Eg. cbn [or_panic mbind result_bind].
  set (s1 := drop (Z.to_nat 4) s). assert (Hs1 : (length s1 + 4 = length s)%nat).
  { unfold s1. rewrite length_drop. unfold blen in *. lia. }
  unfold ReadFull. destruct (recordLen <=? blen s1) eqn:E1; bool_hyps; [|done].
  rewrite blen_app. pose proof (blen_nonneg tail). rewrite (proj2 (Z.leb_le _ _)) by lia.
  unfold blen in E1. rewrite drop_app_le, take_app_le by lia.
  intros (edit & Ee & H1)%result_bind_ok. rewrite Ee. cbn [mbind result_bind].
  apply result_bind_ok in H1 as (v1 & E2 & H1). rewrite E2. cbn [mbind result_bind].
  rewrite length_app in Hm. eapply IH; [| | |exact H1]; rewrite ?length_app, ?length_drop; lia.
Qed.

Lemma replays_app c tail v next last n :
  replays c v next last -> (length (c ++ tail) < n)%nat ->
  exists k, (length tail < k)%nat /\
    recover_loop n (c ++ tail) newVersion 1 0 = recover_loop k tail v next last.
Proof. intros Hr Hn. eapply recover_loop_app; [| |exact Hr]; lia. Qed.

(** A complete record extends the replay by its edit. *)
Lemma replays_record c v next last edit v' :
  replays c v next last -> edit_ok edit -> blen (encode edit) < 2 ^ 32 -> apply v edit = Some v' ->
  replays (c ++ record_bytes (encode edit)) v'
    (if HasNextFileNum edit && (next <? NextFileNum edit) then NextFileNum edit else next)
    (if HasLastSeqNum edit then LastSeqNum edit else last).
Proof.
  intros Hr Hok Hlen Ha. unfold replays.
  destruct (replays_app c (record_bytes (encode edit)) v next last
    (S (length (c ++ record_bytes (encode edit)))) Hr) as (k & Hk & ->); [lia|].
  destruct k as [|k]; [lia|]. rewrite <- (app_nil_r (record_bytes _)) at 1.
  rewrite recover_loop_record, decode_encode by done. cbn [mbind result_bind]. rewrite Ha.
  cbn [or_panic mbind result_bind].
  assert (Hl : (4 <= length (record_bytes (encode edit)))%nat).
  { unfold record_bytes. rewrite length_app. pose proof (blen_put_le32 (u32 (blen (encode edit)))).
    unfold blen in *. lia. }
  destruct k as [|k]; [lia|]. apply recover_loop_nil.
Qed.

(** ** The version set and its manifest *)

(** The manifest is open for appending and replays to the current version; the
    counters it holds are those of the last edit. *)
Record logged (vs : VersionSet) (next last : Z) : Prop := {
  lg_file : exists f, manifestFile vs = Some f /\ opened f = true /\ pos f = blen (content f) /\
              replays (content f) (current vs) next last;
  lg_next : next <= nextFileNum vs;
  lg_next_ok : 1 <= nextFileNum vs < 2 ^ 64;
  lg_last_ok : u64_ok (lastSeqNum vs) }.

(** What happens to a version set between two openings.  Sequence numbers are
    stored by the writers, file numbers are allocated by flushes and
    compactions, and [2^64 - 1] numbers are not exhausted. *)
Inductive vop : Type :=
| VSeq (n : Z)
| VAlloc
| VLog (edit : VersionEdit).

Definition vop_ok (vs : VersionSet) (o : vop) : Prop :=
  match o with
  | VSeq n => u64_ok n
  | VAlloc => nextFileNum vs < 2 ^ 64 - 1
  | VLog edit => Forall file_ok (NewFiles edit) /\ Forall deleted_ok (DeletedFiles edit) /\
                 blen (encode (stamped vs edit)) < 2 ^ 32
  end.

(** The state after one operation; [None] when logging fails or panics. *)
Definition vstep (vs : VersionSet) (o : vop) : option VersionSet :=
  match o with
  | VSeq n => Some (set_lastSeqNum vs n)
  | VAlloc => Some (allocFileNum vs).1
  | VLog edit =>
      '(vs, e) ← logAndApply true vs edit; match e with None => Some vs | Some _ => None end
  end.

Inductive vsteps : VersionSet -> list vop -> VersionSet -> Prop :=
| vsteps_nil vs : vsteps vs [] vs
| vsteps_cons vs o vs1 os vs2 :
    vop_ok vs o -> vstep vs o = Some vs1 -> vsteps vs1 os vs2 -> vsteps vs (o :: os) vs2.

Lemma write_append f p f' n :
  opened f = true -> pos f = blen (content f) -> write f p = (f', n, None) ->
  opened f' = true /\ pos f' = blen (content f') /\ content f' = content f ++ p.
Proof.
  intros Ho Hp. unfold write, file_writer. rewrite Ho. cbn [negb]. pose proof (blen_nonneg p).
  destruct (_ <? _) eqn:E; [done|]. bool_hyps. intros [= <- <-]. cbn [opened pos content].
  assert (Z.min (blen p) (Z.max 0 (room f)) = blen p) as -> by lia. rewrite take_blen.
  pose proof (blen_nonneg (content f)). rewrite Hp. unfold overwrite.
  rewrite resize_all_alt by (unfold blen; lia).
  rewrite drop_ge, app_nil_r by (unfold blen; lia).
  rewrite blen_app. split_and!; [done|lia|done].
Qed.

Lemma stamped_ok vs edit :
  1 <= nextFileNum vs < 2 ^ 64 -> u64_ok (lastSeqNum vs) ->
  Forall file_ok (NewFiles edit) -> Forall deleted_ok (DeletedFiles edit) -> edit_ok (stamped vs edit).
Proof. intros. split; cbn; unfold u64_ok in *; (done || lia). Qed.

Lemma apply_stamped v vs edit : apply v (stamped vs edit) = apply v edit.
Proof. done. Qed.

(** Logging an edit keeps the manifest in step. *)
Lemma logAndApply_logged vs next last edit vs' :
  logged vs next last -> vop_ok vs (VLog edit) -> logAndApply true vs edit = Some (vs', None) ->
  logged vs' (nextFileNum vs') (lastSeqNum vs') /\
  nextFileNum vs' = nextFileNum vs /\ lastSeqNum vs' = lastSeqNum vs.
Proof.
  intros [(f & Hf & Ho & Hp & Hr) Hn Hno Hlo] (Hnew & Hdel & Hlen) Hla. unfold logAndApply, write_manifest in Hla.
  rewrite Hf in Hla. destruct (write f _) as [[f' m] e] eqn:Ew. destruct e as [e|]; [done|]. cbn [negb] in Hla.
  destruct (write_append _ _ _ _ Ho Hp Ew) as (Ho' & Hp' & Hc).
  change (current (set_manifest vs (Some f'))) with (current vs) in Hla.
  destruct (apply (current vs) (stamped vs edit)) as [v|] eqn:Ea; [|done].
  cbn [mbind option_bind] in Hla. injection Hla as <-. split; [|done].
  split; [|cbn; lia|done|done]. exists f'. split_and!; [done..|]. cbn [current set_current nextFileNum lastSeqNum set_manifest].
  rewrite Hc. pose proof (replays_record _ _ _ _ _ v Hr (stamped_ok vs edit Hno Hlo Hnew Hdel) Hlen Ea) as H.
  cbn [stamped HasNextFileNum HasLastSeqNum NextFileNum LastSeqNum andb] in H.
  destruct (next <? nextFileNum vs) eqn:E; bool_hyps; [exact H|]. by assert (next = nextFileNum vs) as <- by lia.
Qed.

Lemma vstep_logged vs next last o vs' :
  logged vs next last -> vop_ok vs o -> vstep vs o = Some vs' ->
  exists next' last', logged vs' next' last' /\
    match o with VLog _ => next' = nextFileNum vs' /\ last' = lastSeqNum vs' | _ => True end.
Proof.
  intros Hl Hok Hs. destruct o as [n| |edit]; cbn [vstep vop_ok] in *.
  - injection Hs as <-. exists next, last. destruct Hl. by split; [split|].
  - injection Hs as <-. exists next, last. split; [|done]. destruct Hl as [Hf Hn Hno Hlo].
    split; cbn; [done|rewrite u64_small by lia; lia..|done].
  - destruct (logAndApply true vs edit) as [[vs1 e]|] eqn:E; [|done]. cbn [mbind option_bind] in Hs.
    destruct e; [done|]. injection Hs as <-.
    destruct (logAndApply_logged _ _ _ _ _ Hl Hok E) as (H & _ & _). by eexists _, _.
Qed.

(** A version set opened on no manifest. *)
Lemma fresh_logged space vs :
  recover newVersionSet NotExist (Some space) = Ok vs -> logged vs 1 0.
Proof.
  intros [= <-]. split; cbn; [|lia|lia|done]. eexists. split_and!; done.
Qed.

Lemma recover_logged vs next last f space :
  logged vs next last -> manifestFile vs = Some f ->
  recover newVersionSet (Contents (content f)) (Some space) =
    Ok (mkVersionSet (current vs) next last (Some (mkFile (content f) (blen (content f)) space true))).
Proof.
  intros [(f' & Hf & _ & _ & Hr) _ _ _] Hf'. rewrite Hf in Hf'. injection Hf' as ->.
  unfold recover. cbn [newVersionSet nextFileNum lastSeqNum]. rewrite Hr. done.
Qed.

(** C19: What was logged is recovered.  From a fresh directory, any sequence of
    allocations, sequence number updates and edits that are logged without
    error leaves a manifest from which a later opening recovers the same
    version; the file number recovered is at most the one reached, and when the
    last operation was an edit both counters are recovered too. *)
Theorem manifest_recovers (space space' : Z) (vs0 vs : VersionSet) (ops : list vop) :
  recover newVersionSet NotExist (Some space) = Ok vs0 -> vsteps vs0 ops vs ->
  exists f vs', manifestFile vs = Some f /\
    recover newVersionSet (Contents (content f)) (Some space') = Ok vs' /\
    current vs' = current vs /\ nextFileNum vs' <= nextFileNum vs /\
    match last ops with
    | Some (VLog _) => nextFileNum vs' = nextFileNum vs /\ lastSeqNum vs' = lastSeqNum vs
    | _ => True
    end.
Proof.
  intros H0%fresh_logged Hs.
  assert (H : exists next lst, logged vs next lst /\
    match last ops with
    | Some (VLog _) => next = nextFileNum vs /\ lst = lastSeqNum vs
    | _ => True
    end).
  { generalize dependent 0. generalize 1 as next. intros next lst H0. revert next lst H0.
    induction Hs as [vs|vs o vs1 os vs2 Hok Hst Hs IH]; intros next lst H0; [by exists next, lst|].
    destruct (vstep_logged _ _ _ _ _ H0 Hok Hst) as (n1 & l1 & H1 & Ho).
    destruct os as [|o' os]; [|apply (IH n1 l1 H1)]. inversion Hs; subst. exists n1, l1. by split. }
  destruct H as (next & lst & Hl & Hlast). pose proof Hl as [(f & Hf & _) Hn _ _].
  exists f. eexists. split; [done|]. split; [by apply recover_logged|]. cbn. split_and!; [done|done|].
  destruct (last ops) as [[| |]|]; done.
Qed.

(** A torn record is fatal.  If the device stops within the last record of
    a manifest, opening the database reports an error, however much was logged
    before. *)
Theorem torn_manifest_refused (c p data : bytes) (v : Version) (next last : Z) (create : option Z) :
  replays c v next last -> p `prefix_of` record_bytes data -> p <> [] -> p <> record_bytes data ->
  blen data < 2 ^ 32 ->
  exists e, recover newVersionSet (Contents (c ++ p)) create = Err e.
Proof.
  intros Hr [q Hq] Hp Hne Hd. unfold recover. cbn [newVersionSet nextFileNum lastSeqNum].
  destruct (replays_app c p v next last (S (length (c ++ p))) Hr) as (k & Hk & ->); [lia|].
  destruct k as [|k]; [lia|]. cbn [recover_loop]. pose proof (blen_nonneg data).
  assert (Hpp : 0 < blen p) by (destruct p; [done|blia]).
  assert (Hqq : 0 < blen q) by (destruct q; [by rewrite app_nil_r in Hq|blia]).
  unfold record_bytes in Hq. rewrite u32_small in Hq by lia.
  assert (Hlen : blen p + blen q = 4 + blen data) by (rewrite <- blen_app, <- Hq, blen_app, blen_put_le32; done).
  unfold ReadFull at 1. destruct (4 <=? blen p) eqn:E4; bool_hyps.
  2:{ rewrite (proj2 (Z.eqb_neq _ 0)) by lia. by eexists. }
  assert (Ep : p = put_le32 (blen data) ++ drop (Z.to_nat 4) p).
  { rewrite <- (firstn_skipn (Z.to_nat 4) p) at 1. f_equal.
    transitivity (take (Z.to_nat 4) (p ++ q)); [unfold blen in *; by rewrite take_app_le by lia|].
    rewrite <- Hq. rewrite <- (blen_put_le32 (blen data)) at 1. apply take_blen_app. }
  set (s1 := drop (Z.to_nat 4) p) in *.
  assert (Et : take (Z.to_nat 4) p = put_le32 (blen data)).
  { rewrite Ep. rewrite <- (blen_put_le32 (blen data)) at 1. apply take_blen_app. }
  rewrite Et, get_le32_put by lia. cbn [or_panic mbind result_bind].
  assert (Hs1 : blen p = 4 + blen s1) by (rewrite Ep, blen_app, blen_put_le32; done).
  rewrite ReadFull_short by lia. by eexists.
Qed.
End manifest.

(** ** Runs *)

Definition demo_new (n : Z) : VersionEdit :=
  mkEdit [mkFileMeta n 0 700 [x61; x01] [x7a; x02]] [] 0 0 false false.
Definition demo_move (n : Z) : VersionEdit :=
  mkEdit [mkFileMeta n 1 700 [x61; x01] [x7a; x02]] [(0, 1)] 0 0 false false.
Definition demo_ops : list vop := [VAlloc; VSeq 41; VLog (demo_new 1); VSeq 90; VAlloc; VLog (demo_move 2)].

Definition demo_set : VersionSet :=
  match recover newVersionSet NotExist (Some 1000) with Ok vs => vs | _ => newVersionSet end.
Definition demo_end : VersionSet :=
  default newVersionSet (foldl (fun vs o => vs ≫= fun vs => vstep vs o) (Some demo_set) demo_ops).

Lemma demo_steps : vsteps demo_set demo_ops demo_end.
Proof.
  assert (Hf : forall n l, 0 <= l < 7 -> u64_ok n -> file_ok (mkFileMeta n l 700 [x61; x01] [x7a; x02])).
  { intros n l Hl Hn. unfold file_ok, u64_ok in *. cbn [Level FileNum Version.Size SmallestKey LargestKey].
    change (blen [x61; x01]) with 2. change (blen [x7a; x02]) with 2. unfold maxAlloc. lia. }
  unfold demo_ops. repeat (eapply vsteps_cons; [|reflexivity|]); [..|apply vsteps_nil];
    cbn [vop_ok demo_new demo_move NewFiles DeletedFiles].
  - vm_compute. done.
  - unfold u64_ok. lia.
  - split; [repeat constructor; apply Hf; unfold u64_ok; lia|]. split; [constructor|]. vm_compute. done.
  - unfold u64_ok. lia.
  - vm_compute. done.
  - split; [repeat constructor; apply Hf; unfold u64_ok; lia|].
    split; [repeat constructor; unfold deleted_ok, u64_ok; cbn; lia|]. vm_compute. done.
Qed.

Lemma manifest_recovers_witness :
  exists f vs', manifestFile demo_end = Some f /\
    recover newVersionSet (Contents (content f)) (Some 500) = Ok vs' /\
    files_at (current vs') 1 = Some [mkFileMeta 2 1 700 [x61; x01] [x7a; x02]] /\
    nextFileNum vs' = 3 /\ lastSeqNum vs' = 90.
Proof.
  destruct (manifest_recovers 1000 500 demo_set demo_end demo_ops eq_refl demo_steps)
    as (f & vs' & Hf & Hr & Hc & _ & Hn & Hl).
  exists f, vs'. split; [exact Hf|]. split; [exact Hr|]. rewrite Hc, Hn, Hl. vm_compute. auto.
Defined.

Lemma torn_manifest_refused_witness :
  exists e, recover newVersionSet (Contents (record_bytes (encode (stamped demo_set (demo_new 1))) ++ [x12; x00; x00; x00; x01]))
    (Some 500) = Err e.
Proof.
  apply (torn_manifest_refused _ _ (replicate 18 x01) (mkLevels [[mkFileMeta 1 0 700 [x61; x01] [x7a; x02]]; []; []; []; []; []; []]) 1 0).
  - vm_compute. reflexivity.
  - apply (bool_decide_unpack _). vm_compute. exact I.
  - discriminate.
  - discriminate.
  - vm_compute. reflexivity.
Defined.

(** The device has space again. *)
Definition free_space (vs : VersionSet) (space : Z) : VersionSet :=
  set_manifest vs ((fun f => mkFile (content f) (pos f) space (opened f)) <$> manifestFile vs).

(** A write of the manifest that fails half-way is reported, but the torn
    record stays: the next edit is appended after it without error, and the
    database cannot be opened any more. *)
Theorem failed_log_corrupts :
  match recover newVersionSet NotExist (Some 60) with
  | Ok vs =>
      match logAndApply true vs (demo_new 1) with
      | Some (vs, None) =>
          match logAndApply true (free_space vs 9) (demo_new 2) with
          | Some (vs, Some (ErrWrite ErrIO)) =>
              match logAndApply true (free_space vs 1000) (demo_new 3) with
              | Some (vs, None) =>
                  (c ← content <$> manifestFile vs; Some (recover newVersionSet (Contents c) (Some 1000))) =
                  Some (Err (ErrBadField F_newFile_fileNum))
              | _ => False
              end
          | _ => False
          end
      | _ => False
      end
  | _ => False
  end.
Proof. vm_compute. reflexivity. Qed.
