(* ===== verification/Heap.v ===== *)
(** [container/heap] of the standard library, as [pkg/lsm/merge_iterator.go]
    uses it: a binary heap in a slice of items, ordered by a [Less] that may
    panic.  [IterHeap] and [Swap] are the program's; [Push], [Pop] and [Fix],
    with the sifting [up] and [down], are the library's, written out.  Items are the numbers of the merge iterator's sources.

    The lemmas: [Push], [Pop] and [Fix] at the root permute the items and
    restore the heap order, whatever total preorder [Less] decides. *)
From S2P Require Import Prelude.

#[local] Open Scope nat_scope.

(** ** The code *)

Definition parent (j : nat) : nat := (j - 1) / 2.

(** The slice operations [iterHeap] gives to [container/heap]. *)
Module IterHeap.
Definition Push (h : list nat) (x : nat) : list nat := h ++ [x].

(** [old[n-1]] panics on an empty slice. *)
Definition Pop (h : list nat) : option (list nat * nat) :=
  let n := length h in
  item ← h !! (n - 1); Some (take (n - 1) h, item).
End IterHeap.

Section heap.
Context (less : nat -> nat -> option bool).

Definition Less (h : list nat) (i j : nat) : option bool := a ← h !! i; b ← h !! j; less a b.
Definition Swap (h : list nat) (i j : nat) : option (list nat) :=
  a ← h !! i; b ← h !! j; Some (<[j := a]> (<[i := b]> h)).

(** The index falls every round. *)
Fixpoint up (fuel : nat) (h : list nat) (j : nat) : option (list nat) :=
  match fuel with
  | O => None
  | S fuel =>
      let i := parent j in
      if i =? j then Some h
      else
        lt ← Less h j i;
        if negb lt then Some h else h ← Swap h i j; up fuel h i
  end.

(** The index rises every round; the result is the slice and the index
    reached. *)
Fixpoint down (fuel : nat) (h : list nat) (i n : nat) : option (list nat * nat) :=
  match fuel with
  | O => None
  | S fuel =>
      let j1 := 2 * i + 1 in
      if n <=? j1 then Some (h, i)
      else
        let j2 := j1 + 1 in
        j ← (if j2 <? n then lt ← Less h j2 j1; Some (if (lt : bool) then j2 else j1) else Some j1);
        lt ← Less h j i;
        if negb lt then Some (h, i) else h ← Swap h i j; down fuel h j n
  end.

(** [heap.Push]: [iterHeap.Push], then up. *)
Definition Push (h : list nat) (x : nat) : option (list nat) :=
  let h := IterHeap.Push h x in up (length h) h (length h - 1).

(** [heap.Pop]: the rest and the item. *)
Definition Pop (h : list nat) : option (list nat * nat) :=
  let n := length h - 1 in
  h ← Swap h 0 n;
  '(h, _) ← down (S n) h 0 n;
  IterHeap.Pop h.

Definition Fix (h : list nat) (i : nat) : option (list nat) :=
  '(h, i') ← down (S (length h)) h i (length h);
  if i <? i' then Some h else up (S i) h i.
End heap.

(** ** Swapping *)

Lemma swap_perm (h : list nat) i j a b :
  h !! i = Some a -> h !! j = Some b -> <[j := a]> (<[i := b]> h) ≡ₚ h.
Proof.
  assert (W : forall i j a b, i < j -> h !! i = Some a -> h !! j = Some b -> <[j := a]> (<[i := b]> h) ≡ₚ h).
  { clear. intros i j a b Hij Ha Hb. pose proof (lookup_lt_Some _ _ _ Hb).
    apply take_drop_middle in Ha as Ea. rewrite <- Ea. set (l1 := take i h). set (l2 := drop (S i) h).
    assert (Hl1 : length l1 = i) by (unfold l1; rewrite length_take; lia).
    assert (Hb2 : l2 !! (j - S i) = Some b) by (unfold l2; rewrite lookup_drop, <- Hb; f_equal; lia).
    rewrite (insert_app_r_alt l1 _ i) by lia. replace (i - length l1) with 0 by lia.
    change (<[0 := b]> (a :: l2)) with (b :: l2).
    rewrite (insert_app_r_alt l1 _ j) by lia. replace (j - length l1) with (S (j - S i)) by lia.
    change (<[S (j - S i) := a]> (b :: l2)) with (b :: <[j - S i := a]> l2).
    apply Permutation_app_head. apply take_drop_middle in Hb2 as Eb.
    rewrite insert_take_drop by (by eapply lookup_lt_Some). rewrite <- Eb at 3.
    rewrite <- !Permutation_middle. apply perm_swap. }
  intros Ha Hb. destruct (Nat.lt_trichotomy i j) as [H|[<-|H]]; [by apply W| |].
  - assert (a = b) as <- by congruence. rewrite list_insert_insert_eq. by rewrite list_insert_id.
  - rewrite list_insert_insert_ne by lia. by apply W.
Qed.

Lemma Swap_spec h i j :
  i < length h -> j < length h -> i <> j -> exists h', Swap h i j = Some h' /\
    h' ≡ₚ h /\ length h' = length h /\
    h' !!! i = h !!! j /\ h' !!! j = h !!! i /\ (forall k, k <> i -> k <> j -> h' !!! k = h !!! k).
Proof.
  intros Hi Hj Hne. destruct (lookup_lt_is_Some_2 h i Hi) as [a Ha].
  destruct (lookup_lt_is_Some_2 h j Hj) as [b Hb]. unfold Swap. rewrite Ha, Hb. cbn [mbind option_bind].
  eexists. split; [done|]. split; [by apply swap_perm|]. split; [by rewrite !length_insert|].
  rewrite (list_lookup_total_correct _ _ _ Ha), (list_lookup_total_correct _ _ _ Hb). split_and!.
  - rewrite list_lookup_total_insert_ne, list_lookup_total_insert_eq by done. done.
  - by rewrite list_lookup_total_insert_eq by (by rewrite length_insert).
  - intros k H1 H2. by rewrite !list_lookup_total_insert_ne by done.
Qed.

(** ** The order *)

Section order.
Context (less : nat -> nat -> option bool) (le : nat -> nat -> Prop).
Context `{le_dec : !RelDecision le}.
Context (le_trans : forall a b c, le a b -> le b c -> le a c).
Context (le_total : forall a b, le a b \/ le b a).

(** [less] decides the strict part of [le] on the items of [h], and on the
    first [n] of them. *)
Definition agrees (h : list nat) : Prop :=
  forall a b, a ∈ h -> b ∈ h -> less a b = Some (negb (bool_decide (le b a))).
Definition decides (n : nat) (h : list nat) : Prop :=
  forall i j, i < n -> j < n -> less (h !!! i) (h !!! j) = Some (negb (bool_decide (le (h !!! j) (h !!! i)))).

Lemma elem_of_total (h : list nat) i : i < length h -> h !!! i ∈ h.
Proof.
  intros [a Ha]%lookup_lt_is_Some_2. rewrite (list_lookup_total_correct _ _ _ Ha). by eapply list_elem_of_lookup_2.
Qed.

Lemma agrees_decides h : agrees h -> decides (length h) h.
Proof. intros H i j Hi Hj. apply H; by apply elem_of_total. Qed.

(** Swapping keeps what the first [n] items are. *)
Lemma decides_swap n h h' i j :
  i < n -> j < n -> h' !!! i = h !!! j -> h' !!! j = h !!! i -> (forall k, k <> i -> k <> j -> h' !!! k = h !!! k) ->
  decides n h -> decides n h'.
Proof.
  intros Hi Hj Ei Ej Ho Hd.
  assert (H : forall k, k < n -> exists k', k' < n /\ h' !!! k = h !!! k').
  { intros k Hk. destruct (decide (k = i)) as [->|]; [by exists j|].
    destruct (decide (k = j)) as [->|]; [by exists i|]. exists k. auto. }
  intros a b (a' & Ha' & ->)%H (b' & Hb' & ->)%H. by apply Hd.
Qed.

(** The first [n] items are in heap order. *)
Definition heap_upto (n : nat) (h : list nat) : Prop :=
  forall k, 0 < k < n -> le (h !!! parent k) (h !!! k).

Lemma parent_lt k : 0 < k -> parent k < k.
Proof. intros. unfold parent. pose proof (Nat.div_lt_upper_bound (k - 1) 2 k). lia. Qed.

Lemma children k i : 0 < k -> parent k = i <-> k = 2 * i + 1 \/ k = 2 * i + 2.
Proof.
  intros Hk. unfold parent. pose proof (Nat.div_mod_eq (k - 1) 2). pose proof (Nat.mod_upper_bound (k - 1) 2). lia.
Qed.

Lemma root_least n h k : heap_upto n h -> k < n -> le (h !!! 0) (h !!! k).
Proof.
  intros Hh. induction (lt_wf k) as [k _ IH]. intros Hk. destruct (decide (k = 0)) as [->|Hne].
  - destruct (le_total (h !!! 0) (h !!! 0)); done.
  - eapply le_trans; [|apply Hh; lia]. pose proof (parent_lt k). apply IH; lia.
Qed.

Lemma Less_spec n h i j :
  decides n h -> n <= length h -> i < n -> j < n ->
  Less less h i j = Some (negb (bool_decide (le (h !!! j) (h !!! i)))).
Proof.
  intros Hd Hn Hi Hj. destruct (lookup_lt_is_Some_2 h i) as [a Ha]; [lia|].
  destruct (lookup_lt_is_Some_2 h j) as [b Hb]; [lia|]. unfold Less. rewrite Ha, Hb. cbn [mbind option_bind].
  specialize (Hd i j Hi Hj).
  by rewrite (list_lookup_total_correct _ _ _ Ha), (list_lookup_total_correct _ _ _ Hb) in *.
Qed.

Lemma not_le a b : ~ le a b -> le b a.
Proof. destruct (le_total a b); tauto. Qed.

(** Heap order except between [i] and its children, which are above the
    parent of [i]. *)
Definition loose_below (n i : nat) (h : list nat) : Prop :=
  (forall k, 0 < k < n -> parent k <> i -> le (h !!! parent k) (h !!! k)) /\
  (forall k, 0 < k < n -> parent k = i -> 0 < i -> le (h !!! parent i) (h !!! k)).

(** Heap order except between [j] and its parent. *)
Definition loose_above (n j : nat) (h : list nat) : Prop :=
  (forall k, 0 < k < n -> k <> j -> le (h !!! parent k) (h !!! k)) /\
  (forall k, 0 < k < n -> parent k = j -> 0 < j -> le (h !!! parent j) (h !!! k)).

Lemma up_spec n h : forall fuel j,
  decides n h -> j < fuel -> j < n -> n <= length h -> loose_above n j h ->
  exists h', up less fuel h j = Some h' /\ h' ≡ₚ h /\ heap_upto n h'.
Proof.
  intros fuel. revert h. induction fuel as [|fuel IH]; intros h j Hd Hf Hj Hn [H1 H2]; [lia|]. cbn [up].
  destruct (Nat.eqb_spec (parent j) j) as [E|E].
  - exists h. split_and!; [done..|]. intros k Hk. apply H1; [done|]. intros ->.
    pose proof (parent_lt j). lia.
  - assert (Hj0 : 0 < j) by (destruct j; [done|lia]). pose proof (parent_lt j Hj0) as Hp.
    rewrite (Less_spec n) by (done || lia). cbn [mbind option_bind]. rewrite negb_involutive.
    case_bool_decide as Hle.
    + exists h. split_and!; [done..|]. intros k Hk. destruct (decide (k = j)) as [->|]; [done|by apply H1].
    + apply not_le in Hle. destruct (Swap_spec h (parent j) j) as (h' & -> & Hp' & Hl' & Hi' & Hj' & Ho); [lia..|].
      cbn [mbind option_bind]. destruct (IH h' (parent j)) as (h'' & E'' & Hp'' & Hh);
        [apply (decides_swap n h h' (parent j) j); (done || lia)|lia..| |].
      2:{ exists h''. split_and!; [done|by rewrite Hp''|done]. }
      split.
      * intros k Hk Hki. pose proof (parent_lt k). destruct (decide (k = j)) as [->|Hkj]; [by rewrite Hi', Hj'|].
        rewrite (Ho k) by done. destruct (decide (parent k = parent j)) as [Ep|Ep].
        { rewrite Ep, Hi'. eapply le_trans; [exact Hle|]. rewrite <- Ep. by apply H1. }
        destruct (decide (parent k = j)) as [Ep'|Ep'].
        { rewrite Ep', Hj'. by apply H2. }
        rewrite Ho by done. by apply H1.
      * intros k Hk Ep Hi0. pose proof (parent_lt k). pose proof (parent_lt (parent j)).
        rewrite (Ho (parent (parent j))) by lia. assert (le (h !!! parent (parent j)) (h !!! parent j)) by (apply H1; lia).
        destruct (decide (k = j)) as [->|Hkj]; [by rewrite Hj'|]. rewrite (Ho k) by lia.
        eapply le_trans; [done|]. rewrite <- Ep. by apply H1.
Qed.

Lemma down_spec n h : forall fuel i,
  decides n h -> n <= i + fuel -> 0 < fuel -> n <= length h -> loose_below n i h ->
  exists h' i', down less fuel h i n = Some (h', i') /\ h' ≡ₚ h /\ heap_upto n h' /\
    i <= i' /\ (forall k, n <= k -> h' !!! k = h !!! k).
Proof.
  intros fuel. revert h. induction fuel as [|fuel IH]; intros h i Hd Hf Hf0 Hn [H1 H2]; [lia|]. cbn [down].
  destruct (Nat.leb_spec n (2 * i + 1)) as [E|E].
  { exists h, i. split_and!; [done..| |lia|done]. intros k Hk. apply H1; [done|].
    intros [-> | ->]%children; lia. }
  assert (Hj : exists j, (if 2 * i + 1 + 1 <? n
       then lt ← Less less h (2 * i + 1 + 1) (2 * i + 1); Some (if (lt : bool) then 2 * i + 1 + 1 else 2 * i + 1)
       else Some (2 * i + 1)) = Some j /\ 0 < j < n /\ parent j = i /\
       forall k, 0 < k < n -> parent k = i -> le (h !!! j) (h !!! k)).
  { assert (Hr : forall a, le a a) by (intros a; destruct (le_total a a); done).
    destruct (Nat.ltb_spec (2 * i + 1 + 1) n) as [E2|E2].
    - rewrite (Less_spec n) by (done || lia). cbn [mbind option_bind]. case_bool_decide as Hle; cbn [negb].
      + exists (2 * i + 1). split; [done|]. split; [lia|]. split; [apply children; lia|].
        intros k Hk [-> | ->]%children; [done| |lia]. by replace (2 * i + 2) with (2 * i + 1 + 1) by lia.
      + exists (2 * i + 1 + 1). split; [done|]. split; [lia|]. split; [apply children; lia|].
        intros k Hk [-> | ->]%children; [by apply not_le| |lia]. by replace (2 * i + 2) with (2 * i + 1 + 1) by lia.
    - exists (2 * i + 1). split; [done|]. split; [lia|]. split; [apply children; lia|].
      intros k Hk [-> | ->]%children; [done|lia|lia]. }
  destruct Hj as (j & -> & Hjn & Hpj & Hmin). cbn [mbind option_bind].
  pose proof (parent_lt j ltac:(lia)). rewrite (Less_spec n) by (done || lia). cbn [mbind option_bind].
  rewrite negb_involutive. case_bool_decide as Hle.
  { exists h, i. split_and!; [done..| |lia|done]. intros k Hk.
    destruct (decide (parent k = i)) as [Ek|Ek]; [|by apply H1]. rewrite Ek. eapply le_trans; [exact Hle|by apply Hmin]. }
  apply not_le in Hle. destruct (Swap_spec h i j) as (h' & -> & Hp' & Hl' & Hi' & Hj' & Ho); [lia..|].
  cbn [mbind option_bind]. destruct (IH h' j) as (h'' & i'' & E'' & Hp'' & Hh & Hi2 & Hk2);
    [apply (decides_swap n h h' i j); (done || lia)|lia..| |].
  2:{ exists h'', i''. split_and!; [done|by rewrite Hp''|done|lia|]. intros k Hk.
      rewrite Hk2 by done. apply Ho; lia. }
  split.
  - intros k Hk Hkj. pose proof (parent_lt k). destruct (decide (k = i)) as [->|Hki].
    { rewrite Hi', Ho by lia. by apply H2; [..|lia]. }
    destruct (decide (k = j)) as [->|Hkj']; [by rewrite Hpj, Hi', Hj'|].
    rewrite (Ho k) by done. destruct (decide (parent k = i)) as [Ek|Ek].
    { rewrite Ek, Hi'. by apply Hmin. }
    rewrite Ho by done. by apply H1.
  - intros k Hk Ek Hj0. rewrite Hpj, Hi'. pose proof (parent_lt k). rewrite (Ho k) by lia.
    rewrite <- Ek at 1. apply H1; lia.
Qed.

(** ** The operations *)

Definition heap (h : list nat) : Prop := heap_upto (length h) h.

Lemma Push_spec h x :
  agrees (x :: h) -> heap h -> exists h', Push less h x = Some h' /\ h' ≡ₚ x :: h /\ heap h'.
Proof.
  intros Hd Hh. unfold Push, IterHeap.Push. rewrite length_app. cbn [length].
  replace (length h + 1 - 1) with (length h) by lia.
  destruct (up_spec (length h + 1) (h ++ [x]) (length h + 1) (length h)) as (h' & E & Hp & Hh');
    [|lia|lia|rewrite length_app; cbn; lia| |].
  - replace (length h + 1) with (length (h ++ [x])) by (rewrite length_app; cbn; lia).
    apply agrees_decides. intros a b Ha Hb. apply Hd; set_solver.
  - split.
    + intros k Hk Hne. pose proof (parent_lt k). rewrite !lookup_total_app_l by lia. apply Hh. lia.
    + intros k Hk Hpk. pose proof (parent_lt k). lia.
  - exists h'. split; [done|]. split; [by rewrite Hp, Permutation_app_comm|].
    unfold heap. by rewrite (Permutation_length Hp), length_app.
Qed.

Lemma Fix_root_spec h :
  agrees h -> (forall k, 0 < k < length h -> 0 < parent k -> le (h !!! parent k) (h !!! k)) ->
  exists h', Fix less h 0 = Some h' /\ h' ≡ₚ h /\ heap h'.
Proof.
  intros Hd Hh. unfold Fix.
  destruct (down_spec (length h) h (S (length h)) 0) as (h' & i' & -> & Hp & Hh' & _ & _); [by apply agrees_decides|lia..| |].
  { split; [intros k Hk Hne; apply Hh; lia|lia]. }
  cbn [mbind option_bind]. exists h'. split_and!; [|done|unfold heap; by rewrite (Permutation_length Hp)].
  by destruct (Nat.ltb_spec 0 i').
Qed.

Lemma Pop_spec x h :
  agrees h -> (forall k, 0 < k < length (x :: h) -> 0 < parent k -> le ((x :: h) !!! parent k) ((x :: h) !!! k)) -> exists h', Pop less (x :: h) = Some (h', x) /\ h' ≡ₚ h /\ heap h'.
Proof.
  intros Hd Hh. unfold Pop. set (n := length (x :: h) - 1). assert (Hn : n = length h) by (unfold n; cbn; lia). clearbody n.
  assert (exists h1, Swap (x :: h) 0 n = Some h1 /\ h1 ≡ₚ x :: h /\ h1 !!! n = x /\
    (0 < n -> h1 !!! 0 = (x :: h) !!! n) /\
    (forall k, 0 < k < n -> h1 !!! k = (x :: h) !!! k)) as (h1 & -> & Hp1 & Hx & Hx0 & Ho).
  { destruct (decide (n = 0)) as [E|E].
    - rewrite E. destruct h; [|cbn in Hn; lia]. exists [x]. split_and!; [done..|lia|]. intros; lia.
    - destruct (Swap_spec (x :: h) 0 n) as (h1 & -> & Hp & _ & Hx0 & Hx & Ho); [cbn; lia..|].
      exists h1. split_and!; [done..|]. intros k Hk. apply Ho; lia. }
  cbn [mbind option_bind]. assert (Hl1 : length h1 = S n) by (rewrite Hp1; cbn; lia).
  destruct (down_spec n h1 (S n) 0) as (h2 & i2 & -> & Hp2 & Hh2 & _ & Hk2);
    [|lia..| |].
  { assert (He : forall k, k < n -> h1 !!! k ∈ h).
    { intros k Hk. destruct (decide (k = 0)) as [->|].
      - assert (H0 : h1 !!! 0 = (x :: h) !!! n) by (by apply Hx0).
        rewrite H0. destruct n as [|n']; [lia|]. change ((x :: h) !!! S n') with (h !!! n'). apply elem_of_total. lia.
      - rewrite Ho by lia. destruct k as [|k]; [done|]. change ((x :: h) !!! S k) with (h !!! k). apply elem_of_total. lia. }
    intros i j Hi Hj. by apply Hd; apply He. }
  { split; [|intros; lia]. intros k Hk Hne. pose proof (parent_lt k). rewrite !Ho by lia. apply Hh; cbn [length]; lia. }
  cbn [mbind option_bind]. assert (Hl2 : length h2 = S n) by (by rewrite Hp2).
  destruct (lookup_lt_is_Some_2 h2 n) as [y Hy]; [lia|].
  unfold IterHeap.Pop. rewrite Hl2. replace (S n - 1) with n by lia. rewrite Hy. cbn [mbind option_bind].
  assert (y = x) as ->.
  { rewrite <- Hx, <- (Hk2 n) by lia. symmetry. by apply list_lookup_total_correct. }
  exists (take n h2). split; [done|]. apply take_drop_middle in Hy as Et.
  rewrite (drop_ge h2) in Et by lia. split.
  - apply (Permutation_cons_inv (a := x)). transitivity h2; [|by rewrite Hp2].
    rewrite <- Et at 2. by rewrite Permutation_app_comm.
  - intros k Hk. rewrite length_take in Hk. pose proof (parent_lt k).
    rewrite !list_lookup_total_alt, !lookup_take_lt by lia. rewrite <- !list_lookup_total_alt.
    apply Hh2. lia.
Qed.
End order.
