(* ===== verification/Merged.v ===== *)
(** Merging sorted association lists, earlier ones winning: the reference
    definition of what the merge iterator yields, and its theory.  A sorted list
    is determined by its lookups, so every equation is proved by looking up. *)
From stdpp Require Import sorting.
From S2P Require Import Prelude ByteOrder Sorted.

#[local] Open Scope Z_scope.

Abbreviation pairs := (list (bytes * bytes)).

(** One pair into a sorted list, replacing one with its key. *)
Fixpoint put (k v : bytes) (l : pairs) : pairs :=
  match l with
  | [] => [(k, v)]
  | (k', v') :: l' =>
      if decide (blt k k') then (k, v) :: l
      else if decide (k = k') then (k, v) :: l'
      else (k', v') :: put k v l'
  end.

Definition merge_into (l acc : pairs) : pairs := foldr (fun p acc => put p.1 p.2 acc) acc l.
Definition merged (ls : list pairs) : pairs := foldr merge_into [] ls.

(** The value of a key in the first list that has it. *)
Fixpoint first_assoc (k : bytes) (ls : list pairs) : option bytes :=
  match ls with
  | [] => None
  | l :: ls => match assoc k l with Some v => Some v | None => first_assoc k ls end
  end.

(** ** Lookups determine a sorted list *)

Lemma assoc_None_iff k l : assoc k l = None <-> ~ has_key k l.
Proof.
  split; [|apply assoc_None]. unfold has_key. induction l as [|[k' v] l IH]; cbn; [by intros _ ?%elem_of_nil|].
  case_bool_decide; [done|]. rewrite elem_of_cons. naive_solver.
Qed.

Lemma ascending_head_least p l k : ascending (p :: l) -> has_key k (p :: l) -> ble p.1 k.
Proof.
  intros [_ Hl]%ascending_cons. unfold has_key. rewrite fmap_cons, elem_of_cons.
  intros [->|(q & -> & Hq)%list_elem_of_fmap]; [apply ble_refl|].
  rewrite Forall_forall in Hl. by apply blt_ble, Hl.
Qed.

Lemma ascending_tail_above p l k : ascending (p :: l) -> has_key k l -> blt p.1 k.
Proof.
  intros [_ Hl]%ascending_cons (q & -> & Hq)%list_elem_of_fmap. rewrite Forall_forall in Hl. by apply Hl.
Qed.

Lemma assoc_cons_ne k p l : k <> p.1 -> assoc k (p :: l) = assoc k l.
Proof. destruct p as [k' v]. intros H. cbn. by rewrite bool_decide_eq_false_2 by (cbn in H; congruence). Qed.

Lemma assoc_cons_eq p l : assoc p.1 (p :: l) = Some p.2.
Proof. destruct p. cbn. by rewrite bool_decide_eq_true_2. Qed.

Lemma assoc_tail k p l : ascending (p :: l) -> assoc k l = if decide (k = p.1) then None else assoc k (p :: l).
Proof.
  intros Ha. case_decide as E; [|by rewrite assoc_cons_ne]. subst k. apply assoc_None.
  intros H. apply (blt_irrefl p.1). by eapply ascending_tail_above.
Qed.

Lemma has_key_assoc k l : has_key k l <-> is_Some (assoc k l).
Proof.
  rewrite <- not_eq_None_Some, assoc_None_iff. split; [tauto|]. apply dec_stable.
Qed.

Lemma ascending_ext l1 l2 :
  ascending l1 -> ascending l2 -> (forall k, assoc k l1 = assoc k l2) -> l1 = l2.
Proof.
  revert l2. induction l1 as [|p l1 IH]; intros [|q l2] H1 H2 He.
  - done.
  - specialize (He q.1). rewrite assoc_cons_eq in He. done.
  - specialize (He p.1). rewrite assoc_cons_eq in He. done.
  - assert (p = q) as <-.
    { assert (Hk : p.1 = q.1).
      { apply ble_antisym.
        - apply (ascending_head_least p l1); [done|]. apply has_key_assoc. by rewrite He, assoc_cons_eq.
        - apply (ascending_head_least q l2); [done|]. apply has_key_assoc. by rewrite <- He, assoc_cons_eq. }
      pose proof (He p.1) as Hv. rewrite assoc_cons_eq, Hk, assoc_cons_eq in Hv.
      destruct p, q; cbn in *; congruence. }
    f_equal. apply IH; [by apply ascending_cons in H1 as []|by apply ascending_cons in H2 as []|].
    intros k. rewrite (assoc_tail k p l1), (assoc_tail k p l2) by done. by rewrite He.
Qed.

(** ** Merging *)

Lemma assoc_put k v l k0 : ascending l -> assoc k0 (put k v l) = if decide (k0 = k) then Some v else assoc k0 l.
Proof.
  induction l as [|[k' v'] l IH]; intros Ha; cbn [put].
  - cbn. repeat case_decide; case_bool_decide; congruence.
  - pose proof Ha as Ha0. apply ascending_cons in Ha as [Ha Hl]. destruct (decide (blt k k')) as [H|H].
    { case_decide; [subst; apply (assoc_cons_eq (k, v))|by rewrite (assoc_cons_ne k0 (k, v))]. }
    destruct (decide (k = k')) as [<-|Hne].
    { case_decide; [subst; apply (assoc_cons_eq (k, v))|]. rewrite !(assoc_cons_ne k0 (k, _)) by done. done. }
    cbn [assoc]. rewrite IH by done. case_bool_decide; [|done]. subst k'. by rewrite decide_False.
Qed.

Lemma put_keys k v l k0 : has_key k0 (put k v l) -> k0 = k \/ has_key k0 l.
Proof.
  unfold has_key. induction l as [|[k' v'] l IH]; cbn [put].
  - rewrite fmap_cons, elem_of_cons. tauto.
  - repeat case_decide; subst; cbn; rewrite ?elem_of_cons; naive_solver.
Qed.

Lemma put_ascending k v l : ascending l -> ascending (put k v l).
Proof.
  induction l as [|[k' v'] l IH]; intros Ha; cbn [put]; [repeat constructor|].
  pose proof Ha as Ha0. apply ascending_cons in Ha as [Ha Hl]. destruct (decide (blt k k')) as [H|H].
  { apply ascending_cons. split; [done|]. constructor; [done|]. eapply Forall_impl; [exact Hl|].
    intros q Hq. by eapply blt_trans. }
  destruct (decide (k = k')) as [<-|Hne]; [by apply ascending_cons|].
  apply ascending_cons. split; [by apply IH|]. apply Forall_forall. intros q Hq.
  assert (Hk : has_key q.1 (put k v l)) by (by apply list_elem_of_fmap_2).
  apply put_keys in Hk as [->|Hk].
  - destruct (blt_total k k') as [?|[?|?]]; done.
  - by apply (ascending_tail_above (k', v') l).
Qed.

Lemma merge_into_spec l acc :
  ascending l -> ascending acc ->
  ascending (merge_into l acc) /\
  forall k, assoc k (merge_into l acc) = match assoc k l with Some v => Some v | None => assoc k acc end.
Proof.
  intros Hl Ha. induction l as [|p l IH]; [done|]. pose proof Hl as Hl0. apply ascending_cons in Hl as [Hl _].
  destruct (IH Hl) as [H1 H2]. split; [by apply put_ascending|]. intros k. cbn [merge_into foldr].
  change (foldr _ acc l) with (merge_into l acc). rewrite assoc_put by done. case_decide as E.
  - subst. by rewrite assoc_cons_eq.
  - rewrite (assoc_cons_ne k p l) by done. apply H2.
Qed.

Lemma merged_spec ls :
  Forall ascending ls -> ascending (merged ls) /\ forall k, assoc k (merged ls) = first_assoc k ls.
Proof.
  induction 1 as [|l ls Hl _ [IH1 IH2]]; [split; [constructor|done]|].
  destruct (merge_into_spec l (merged ls) Hl IH1) as [H1 H2]. split; [exact H1|].
  intros k. cbn [merged foldr first_assoc]. change (foldr merge_into [] ls) with (merged ls). rewrite H2.
  by rewrite IH2.
Qed.

Lemma merged_ascending ls : Forall ascending ls -> ascending (merged ls).
Proof. apply merged_spec. Qed.

Lemma assoc_merged k ls : Forall ascending ls -> assoc k (merged ls) = first_assoc k ls.
Proof. intros H. by apply merged_spec. Qed.

(** The merge is the list with these lookups. *)
Lemma merged_unique ls l :
  Forall ascending ls -> ascending l -> (forall k, assoc k l = first_assoc k ls) -> merged ls = l.
Proof.
  intros Hls Hl He. apply ascending_ext; [by apply merged_ascending|done|].
  intros k. by rewrite assoc_merged.
Qed.

Lemma first_assoc_None k ls : first_assoc k ls = None <-> Forall (fun l => assoc k l = None) ls.
Proof.
  induction ls as [|l ls IH]; [done|]. cbn. rewrite Forall_cons, <- IH. destruct (assoc k l); naive_solver.
Qed.

Lemma first_assoc_app k ls1 ls2 :
  first_assoc k (ls1 ++ ls2) = match first_assoc k ls1 with Some v => Some v | None => first_assoc k ls2 end.
Proof. induction ls1 as [|l ls1 IH]; [done|]. cbn. by destruct (assoc k l). Qed.

(** Seeking commutes with merging. *)
Lemma assoc_suffix_from t k l : assoc k (suffix_from t l) = if decide (ble t k) then assoc k l else None.
Proof.
  unfold suffix_from. induction l as [|[k' v] l IH]; [by case_decide|]. rewrite filter_cons. cbn [fst].
  destruct (decide (ble t k')) as [H|H].
  - cbn [assoc]. case_bool_decide; [subst; by rewrite decide_True|done].
  - rewrite IH. cbn [assoc]. case_decide; [|done]. case_bool_decide; [by subst|done].
Qed.

Lemma suffix_from_ascending t l : ascending l -> ascending (suffix_from t l).
Proof.
  intros Ha. destruct (suffix_from_suffix t l Ha) as [l1 E]. rewrite E in Ha. by apply ascending_app in Ha as (_ & Ha & _).
Qed.

Lemma merged_suffix_from t ls :
  Forall ascending ls -> merged (suffix_from t <$> ls) = suffix_from t (merged ls).
Proof.
  intros Hls. apply merged_unique.
  - apply Forall_fmap. eapply Forall_impl; [exact Hls|]. intros l. apply suffix_from_ascending.
  - by apply suffix_from_ascending, merged_ascending.
  - intros k. rewrite assoc_suffix_from, assoc_merged by done. clear Hls.
    induction ls as [|l ls IH]; cbn; [by case_decide|]. rewrite assoc_suffix_from.
    case_decide; [|done]. by destruct (assoc k l).
Qed.

(** ** Taking the least pair *)

(** A list without its first pair if that has the key [k]. *)
Definition drop_head (k : bytes) (l : pairs) : pairs :=
  match l with
  | p :: l' => if decide (p.1 = k) then l' else l
  | [] => []
  end.

Lemma drop_head_ascending k l : ascending l -> ascending (drop_head k l).
Proof.
  destruct l as [|p l]; [done|]. cbn. case_decide; [|done]. by intros [? _]%ascending_cons.
Qed.

Lemma assoc_drop_head k k0 l : ascending l -> k <> k0 -> assoc k (drop_head k0 l) = assoc k l.
Proof.
  intros Ha Hne. destruct l as [|p l]; [done|]. cbn [drop_head]. case_decide as E; [|done].
  rewrite assoc_cons_ne; [done|congruence].
Qed.

Lemma first_assoc_fmap k (f : pairs -> pairs) ls :
  Forall (fun l => assoc k (f l) = assoc k l) ls -> first_assoc k (f <$> ls) = first_assoc k ls.
Proof. induction 1 as [|l ls Hl _ IH]; [done|]. cbn. by rewrite Hl, IH. Qed.

Lemma first_assoc_at k ls i l v :
  ls !! i = Some l -> assoc k l = Some v ->
  (forall j l', (j < i)%nat -> ls !! j = Some l' -> assoc k l' = None) -> first_assoc k ls = Some v.
Proof.
  intros Hi Hv Hj. apply take_drop_middle in Hi as E. rewrite <- E, first_assoc_app.
  replace (first_assoc k (take i ls)) with (@None bytes).
  - cbn. by rewrite Hv.
  - symmetry. apply first_assoc_None, Forall_lookup. intros j l' [Hl Hlt]%lookup_take_Some. by eapply Hj.
Qed.

Lemma first_assoc_elem k ls v : first_assoc k ls = Some v -> exists l, l ∈ ls /\ assoc k l = Some v.
Proof.
  induction ls as [|l ls IH]; [done|]. cbn. destruct (assoc k l) as [v'|] eqn:E.
  - intros [= <-]. exists l. split; [by left|done].
  - intros (l' & Hl & Hv)%IH. exists l'. split; [by right|done].
Qed.

(** The least head, in the first list that has it, is the head of the merge. *)
Lemma merged_step ls i p rest :
  Forall ascending ls -> ls !! i = Some (p :: rest) ->
  (forall j q r, ls !! j = Some (q :: r) -> ble p.1 q.1 /\ ((j < i)%nat -> blt p.1 q.1)) ->
  merged ls = p :: merged (drop_head p.1 <$> ls).
Proof.
  intros Hls Hi Hmin.
  assert (Hd : Forall ascending (drop_head p.1 <$> ls)).
  { apply Forall_fmap. eapply Forall_impl; [exact Hls|]. intros l. apply drop_head_ascending. }
  assert (Hd2 : forall k v, first_assoc k (drop_head p.1 <$> ls) = Some v -> blt p.1 k).
  { intros k v (l' & Hin & Hv)%first_assoc_elem. apply list_elem_of_fmap in Hin as (l & -> & Hin).
    apply list_elem_of_lookup in Hin as [j Hj]. destruct l as [|q r]; [done|].
    destruct (Hmin j q r Hj) as [Hle _]. rewrite Forall_lookup in Hls. pose proof (Hls j _ Hj) as Ha.
    cbn [drop_head] in Hv. case_decide as E.
    - rewrite <- E. apply (ascending_tail_above q r); [done|]. apply has_key_assoc. by rewrite Hv.
    - assert (blt p.1 q.1) by (apply ble_lteq in Hle as [?|?]; congruence).
      eapply blt_ble_trans; [done|]. apply (ascending_head_least q r); [done|]. apply has_key_assoc. by rewrite Hv. }
  apply merged_unique; [done| |].
  - apply ascending_cons. split; [by apply merged_ascending|]. apply Forall_forall. intros q Hq.
    assert (Hk : has_key q.1 (merged (drop_head p.1 <$> ls))) by (by apply list_elem_of_fmap_2).
    apply has_key_assoc in Hk as [v Hv]. rewrite assoc_merged in Hv by done. by eapply Hd2.
  - intros k. destruct (decide (k = p.1)) as [->|Hne].
    + rewrite assoc_cons_eq. symmetry. apply (first_assoc_at _ _ i (p :: rest)); [done|apply assoc_cons_eq|].
      intros j [|q r] Hlt Hj; [done|]. destruct (Hmin j q r Hj) as [_ Hb]. apply assoc_None. intros Hk.
      rewrite Forall_lookup in Hls. apply (ascending_head_least q r) in Hk; [|by eapply Hls].
      apply (blt_irrefl p.1). eapply blt_ble_trans; [by apply Hb|done].
    + rewrite assoc_cons_ne, assoc_merged by done. apply first_assoc_fmap.
      eapply Forall_impl; [exact Hls|]. intros l Hl. by apply assoc_drop_head.
Qed.

Lemma merged_all_nil ls : Forall (fun l => l = []) ls -> merged ls = [].
Proof. induction 1 as [|l ls -> _ IH]; [done|]. exact IH. Qed.
