(* ===== verification/MergeIterator.v ===== *)
(** The merge iterator ([pkg/lsm/merge_iterator.go]): several sorted sources
    seen as one, the source with the lowest number winning for equal keys.

    The Go interface [Iterator] is the class [Iterator]: a source has its own
    state [I] and works on a store [S] shared by all sources (block cache,
    memtables), and every call returns both.  [None] is a run-time panic. *)
From S2P Require Import Prelude ByteOrder Sorted Heap.

#[local] Open Scope Z_scope.

(** ** Sources *)

Class Iterator (S I : Type) := {
  it_SeekGE : S -> I -> bytes -> option (S * I * bool);
  it_First : S -> I -> option (S * I * bool);
  it_Next : S -> I -> option (S * I * bool);
  it_Key : S -> I -> option bytes;
  it_Value : S -> I -> option bytes }.

(** ** The code *)

(** The sources and the heap of the numbers of those that stand at an entry:
    [iterItem] is a number here, since its iterator is the source of that
    number. *)
Record MergeIterator (I : Type) : Type := mkMerge { iters : list I; h : list nat }.
Arguments mkMerge {I}.
Arguments iters {I}.
Arguments h {I}.

Definition NewMergeIterator {I} (iters : list I) : MergeIterator I := mkMerge iters [].

Section merge.
Context {S I : Type} {iterator : Iterator S I}.

Definition source_Key (s : S) (its : list I) (i : nat) : option bytes := it ← its !! i; it_Key s it.

(** [iterHeap.Less] on items. *)
Definition item_less (s : S) (its : list I) (a b : nat) : option bool :=
  ka ← source_Key s its a;
  kb ← source_Key s its b;
  let cmp := compareKeys ka kb in
  Some (if negb (cmp =? 0) then cmp <? 0 else (a <? b)%nat).

(** The loops of [SeekGE] and [First]: every source is positioned with [move]
    and pushed when it stands at an entry; [i] sources are done. *)
Fixpoint position (move : S -> I -> option (S * I * bool)) (s : S) (done todo : list I) (h : list nat)
    : option (S * MergeIterator I) :=
  match todo with
  | [] => Some (s, mkMerge done h)
  | it :: todo =>
      '(s, it, ok) ← move s it;
      let its := done ++ [it] in
      h ← (if (ok : bool) then Push (item_less s its) h (length done) else Some h);
      position move s its todo h
  end.

Definition SeekGE (s : S) (m : MergeIterator I) (key : bytes) : option (S * MergeIterator I * bool) :=
  '(s, m) ← position (fun s it => it_SeekGE s it key) s [] (iters m) [];
  Some (s, m, 0 <? blen (h m)).

Definition First (s : S) (m : MergeIterator I) : option (S * MergeIterator I * bool) :=
  '(s, m) ← position it_First s [] (iters m) [];
  Some (s, m, 0 <? blen (h m)).

(** The loop of [Next]; sources with strictly ascending keys leave the current
    key in one step, so the size of the heap bounds the rounds. *)
Fixpoint Next_loop (fuel : nat) (s : S) (m : MergeIterator I) (prevKey : bytes)
    : option (S * MergeIterator I) :=
  match h m with
  | [] => Some (s, m)
  | top :: _ =>
      k ← source_Key s (iters m) top;
      if negb (compareKeys k prevKey =? 0) then Some (s, m)
      else
        match fuel with
        | O => None
        | Datatypes.S fuel =>
            it ← iters m !! top;
            '(s, it, ok) ← it_Next s it;
            let its := <[top := it]> (iters m) in
            h ← (if (ok : bool) then Fix (item_less s its) (h m) 0
                 else '(h, _) ← Pop (item_less s its) (h m); Some h);
            Next_loop fuel s (mkMerge its h) prevKey
        end
  end.

Definition Next (s : S) (m : MergeIterator I) : option (S * MergeIterator I * bool) :=
  match h m with
  | [] => Some (s, m, false)
  | top :: _ =>
      prevKey ← source_Key s (iters m) top;
      '(s, m) ← Next_loop (length (h m)) s m prevKey;
      Some (s, m, 0 <? blen (h m))
  end.

Definition Valid (m : MergeIterator I) : bool := 0 <? blen (h m).

Definition Key (s : S) (m : MergeIterator I) : option bytes :=
  top ← head (h m); source_Key s (iters m) top.
Definition Value (s : S) (m : MergeIterator I) : option bytes :=
  top ← head (h m); it ← iters m !! top; it_Value s it.

(** All entries from the current position on. *)
Fixpoint collect (fuel : nat) (s : S) (m : MergeIterator I) : option (S * list (bytes * bytes)) :=
  if Valid m then
    match fuel with
    | O => None
    | Datatypes.S fuel =>
        k ← Key s m; v ← Value s m;
        '(s, m, _) ← Next s m;
        '(s, l) ← collect fuel s m;
        Some (s, (k, v) :: l)
    end
  else Some (s, []).
End merge.
