(* ===== verification/MergeSpec.v ===== *)
(** The merge iterator yields the merge of its sources: proved against an
    interface that says what a source promises, so that it holds for table
    iterators, memtable iterators and any mixture of them. *)
From stdpp Require Import sorting.
From S2P Require Import Prelude ByteOrder Sorted Heap Merged MergeIterator.

#[local] Open Scope Z_scope.

(** ** What a source promises *)

(** [steady s]: the store is in order; [evolves s s']: [s'] can follow [s]
    while iterators run.  [on s i l]: the iterator [i], wherever it stands,
    iterates over [l]; [at_ s i rest]: it stands at the first pair of [rest]. *)
Class IteratorLaws (S I : Type) `{Iterator S I} := {
  steady : S -> Prop;
  evolves : S -> S -> Prop;
  evolves_preorder :: PreOrder evolves;
  on : S -> I -> pairs -> Prop;
  at_ : S -> I -> pairs -> Prop;
  on_ascending s i l : on s i l -> ascending l;
  at_ascending s i rest : at_ s i rest -> ascending rest;
  on_evolves s s' i l : evolves s s' -> on s i l -> on s' i l;
  at_evolves s s' i rest : evolves s s' -> at_ s i rest -> at_ s' i rest;
  First_law s i l : steady s -> on s i l -> exists s' i',
    it_First s i = Some (s', i', bool_decide (l <> [])) /\
    steady s' /\ evolves s s' /\ on s' i' l /\ (l <> [] -> at_ s' i' l);
  SeekGE_law s i l t : steady s -> on s i l -> exists s' i',
    it_SeekGE s i t = Some (s', i', bool_decide (suffix_from t l <> [])) /\
    steady s' /\ evolves s s' /\ on s' i' l /\ (suffix_from t l <> [] -> at_ s' i' (suffix_from t l));
  Next_law s i l p rest : steady s -> on s i l -> at_ s i (p :: rest) -> exists s' i',
    it_Next s i = Some (s', i', bool_decide (rest <> [])) /\
    steady s' /\ evolves s s' /\ on s' i' l /\ (rest <> [] -> at_ s' i' rest);
  Key_law s i p rest : steady s -> at_ s i (p :: rest) -> it_Key s i = Some p.1 /\ it_Value s i = Some p.2 }.

Section merge.
Context {S I : Type} `{IteratorLaws S I}.

(** ** The state of a merge iterator *)

(** The key a source stands at. *)
Definition key_of (rs : list pairs) (i : nat) : bytes := default [] (fst <$> hd_error (rs !!! i)).

(** The order of the heap: by key, then by number. *)
Definition before (rs : list pairs) (a b : nat) : Prop :=
  blt (key_of rs a) (key_of rs b) \/ (key_of rs a = key_of rs b /\ (a <= b)%nat).

#[local] Instance before_dec rs : RelDecision (before rs).
Proof. intros a b. unfold before. apply _. Defined.

Lemma before_trans rs a b c : before rs a b -> before rs b c -> before rs a c.
Proof.
  unfold before. intros [H1|[H1 H1']] [H2|[H2 H2']].
  - left. by eapply blt_trans.
  - left. congruence.
  - left. congruence.
  - right. split; [congruence|lia].
Qed.

Lemma before_total rs a b : before rs a b \/ before rs b a.
Proof.
  unfold before. destruct (blt_total (key_of rs a) (key_of rs b)) as [?|[E|?]]; [tauto| |tauto].
  rewrite E. destruct (Nat.le_ge_cases a b); tauto.
Qed.

(** The sources [its] iterate over [ls] and have [rs] left. *)
Definition sources (s : S) (its : list I) (ls rs : list pairs) : Prop :=
  length its = length ls /\ length its = length rs /\
  forall i it l r, its !! i = Some it -> ls !! i = Some l -> rs !! i = Some r ->
    on s it l /\ ascending r /\ (r <> [] -> at_ s it r).

(** The heap holds the sources with something left, each once. *)
Definition members (h : list nat) (rs : list pairs) : Prop :=
  NoDup h /\ forall i, i ∈ h <-> exists r, rs !! i = Some r /\ r <> [].

Record stands (s : S) (m : MergeIterator I) (ls rs : list pairs) : Prop := {
  st_steady : steady s;
  st_sources : sources s (iters m) ls rs;
  st_members : members (h m) rs;
  st_heap : heap (before rs) (h m) }.

Lemma sources_evolves s s' its ls rs : evolves s s' -> sources s its ls rs -> sources s' its ls rs.
Proof.
  intros He (H1 & H2 & H3). split_and!; [done..|]. intros i it l r Hi Hl Hr.
  destruct (H3 i it l r Hi Hl Hr) as (Ho & Ha & Hat). split_and!; [by eapply on_evolves|done|].
  intros Hne. eapply at_evolves; eauto.
Qed.

Lemma sources_ascending s its ls rs : sources s its ls rs -> Forall ascending rs.
Proof.
  intros (H1 & H2 & H3). apply Forall_lookup. intros i r Hr.
  pose proof (lookup_lt_Some _ _ _ Hr). destruct (lookup_lt_is_Some_2 its i) as [it Hit]; [lia|].
  destruct (lookup_lt_is_Some_2 ls i) as [l Hl]; [lia|]. by destruct (H3 i it l r Hit Hl Hr) as (_ & ? & _).
Qed.

(** Comparing two members of the heap. *)
Lemma source_key s its ls rs i r : steady s -> sources s its ls rs -> rs !! i = Some r -> r <> [] ->
  source_Key s its i = Some (key_of rs i) /\
  exists it p, its !! i = Some it /\ hd_error r = Some p /\ p.1 = key_of rs i /\ it_Value s it = Some p.2.
Proof.
  intros Hs (H1 & H2 & H3) Hr Hne. pose proof (lookup_lt_Some _ _ _ Hr).
  destruct (lookup_lt_is_Some_2 its i) as [it Hit]; [lia|].
  destruct (lookup_lt_is_Some_2 ls i) as [l Hl]; [lia|].
  destruct (H3 i it l r Hit Hl Hr) as (_ & _ & Hat). destruct r as [|p r]; [done|].
  destruct (Key_law s it p r Hs (Hat Hne)) as [Hk Hv].
  assert (key_of rs i = p.1) as Ek.
  { unfold key_of. by rewrite (list_lookup_total_correct _ _ _ Hr). }
  unfold source_Key. rewrite Hit. cbn [mbind option_bind]. rewrite Hk, Ek. split; [done|].
  exists it, p. by split_and!.
Qed.

Lemma less_agrees s its ls rs h :
  steady s -> sources s its ls rs -> (forall i, i ∈ h -> exists r, rs !! i = Some r /\ r <> []) ->
  agrees (item_less s its) (before rs) h.
Proof.
  intros Hs Hsrc Hm a b (ra & Hra & Hna)%Hm (rb & Hrb & Hnb)%Hm.
  destruct (source_key _ _ _ _ _ _ Hs Hsrc Hra Hna) as [Ka _].
  destruct (source_key _ _ _ _ _ _ Hs Hsrc Hrb Hnb) as [Kb _].
  unfold item_less. rewrite Ka, Kb. cbn [mbind option_bind]. f_equal.
  rewrite compareKeys_eq, compareKeys_lt. case_bool_decide as E; cbn [negb].
  - destruct (Nat.ltb_spec a b).
    + symmetry. apply negb_true_iff, bool_decide_eq_false.
      intros [Hb|[_ Hb]]; [rewrite E in Hb; by apply blt_irrefl in Hb|lia].
    + symmetry. apply negb_false_iff, bool_decide_eq_true. right. split; [done|lia].
  - case_bool_decide as Hlt.
    + symmetry. apply negb_true_iff, bool_decide_eq_false. intros [Hb|[Hb _]]; [|congruence].
      apply (blt_irrefl (key_of rs a)). by eapply blt_trans.
    + symmetry. apply negb_false_iff, bool_decide_eq_true. left.
      destruct (blt_total (key_of rs a) (key_of rs b)) as [?|[?|?]]; done.
Qed.

(** ** Positioning *)

Lemma heap_before_ext rs rs' h :
  (forall i, i ∈ h -> key_of rs i = key_of rs' i) -> heap (before rs) h -> heap (before rs') h.
Proof.
  intros He Hh k Hk. specialize (Hh k Hk). pose proof (parent_lt k).
  unfold before in *. rewrite <- !He; [done|apply elem_of_total; lia..].
Qed.

Lemma key_of_app rs rs' i : (i < length rs)%nat -> key_of (rs ++ rs') i = key_of rs i.
Proof. intros. unfold key_of. by rewrite lookup_total_app_l. Qed.

Lemma members_app h rs r :
  members h rs -> members (if bool_decide (r <> []) then length rs :: h else h) (rs ++ [r]).
Proof.
  intros [Hnd Hm]. assert (Hnot : length rs ∉ h).
  { intros (r' & Hr & _)%Hm. apply lookup_lt_Some in Hr. lia. }
  assert (Hlk : forall i, (exists r', (rs ++ [r]) !! i = Some r' /\ r' <> []) <->
    i ∈ h \/ (i = length rs /\ r <> [])).
  { intros i. rewrite Hm. split.
    - intros (r' & [Hr|[? Hr]]%lookup_app_Some & Hne); [by left; exists r'|].
      apply list_lookup_singleton_Some in Hr as [Hi <-]. right. split; [lia|done].
    - intros [(r' & Hr & Hne)|[-> Hne]].
      + exists r'. split; [by apply lookup_app_l_Some|done].
      + exists r. split; [by apply list_lookup_middle|done]. }
  case_bool_decide as Hr; split.
  - by apply NoDup_cons.
  - intros i. rewrite Hlk, elem_of_cons. tauto.
  - done.
  - intros i. rewrite Hlk. tauto.
Qed.

Lemma members_perm h h' rs : h ≡ₚ h' -> members h rs -> members h' rs.
Proof. intros Hp [H1 H2]. split; [by rewrite <- Hp|]. intros i. by rewrite <- Hp. Qed.

Lemma sources_snoc s its ls rs it l r :
  sources s its ls rs -> on s it l -> ascending r -> (r <> [] -> at_ s it r) ->
  sources s (its ++ [it]) (ls ++ [l]) (rs ++ [r]).
Proof.
  intros (H1 & H2 & H3) Ho Ha Hat. split_and!; [by rewrite !length_app, H1|by rewrite !length_app, H2|].
  intros i it' l' r' Hi Hl Hr. destruct (decide (i < length its)%nat) as [Hlt|Hge].
  - rewrite lookup_app_l in Hi by lia. rewrite lookup_app_l in Hl by lia. rewrite lookup_app_l in Hr by lia.
    by eapply H3.
  - rewrite lookup_app_r in Hi by lia. rewrite lookup_app_r in Hl by lia. rewrite lookup_app_r in Hr by lia.
    apply list_lookup_singleton_Some in Hi as [_ <-]. apply list_lookup_singleton_Some in Hl as [_ <-].
    apply list_lookup_singleton_Some in Hr as [_ <-]. done.
Qed.

(** A loop over all sources leaves each at what [f] says. *)
Lemma position_spec (move : S -> I -> option (S * I * bool)) (f : pairs -> pairs) :
  (forall l, ascending l -> ascending (f l)) ->
  (forall s i l, steady s -> on s i l -> exists s' i',
    move s i = Some (s', i', bool_decide (f l <> [])) /\
    steady s' /\ evolves s s' /\ on s' i' l /\ (f l <> [] -> at_ s' i' (f l))) ->
  forall todo lt s done ld h,
  steady s -> sources s done ld (f <$> ld) -> members h (f <$> ld) -> heap (before (f <$> ld)) h ->
  Forall2 (on s) todo lt ->
  exists s' m, position move s done todo h = Some (s', m) /\ evolves s s' /\
    stands s' m (ld ++ lt) (f <$> (ld ++ lt)).
Proof.
  intros Hf Hmove todo. induction todo as [|it todo IH]; intros lt s done ld h0 Hs Hsrc Hm Hh Hon.
  - apply Forall2_nil_inv_l in Hon as ->. cbn [position]. exists s, (mkMerge done h0).
    rewrite app_nil_r. split; [reflexivity|]. split; [reflexivity|]. by split.
  - apply Forall2_cons_inv_l in Hon as (l & lt' & Hon & Hons & ->). cbn [position].
    destruct (Hmove s it l Hs Hon) as (s1 & it1 & -> & Hs1 & Hev & Hon1 & Hat1). cbn [mbind option_bind].
    assert (Hsrc1 : sources s1 (done ++ [it1]) (ld ++ [l]) (f <$> (ld ++ [l]))).
    { rewrite fmap_app. apply sources_snoc; [by eapply sources_evolves|done|apply Hf; by eapply on_ascending|done]. }
    assert (Hlen : length done = length (f <$> ld)) by apply Hsrc.
    assert (Hkeep : heap (before (f <$> (ld ++ [l]))) h0).
    { eapply heap_before_ext; [|exact Hh]. intros i (r & Hr & _)%Hm. rewrite fmap_app, key_of_app; [done|].
      by eapply lookup_lt_Some. }
    pose proof (members_app h0 (f <$> ld) (f l) Hm) as Hm1. rewrite <- Hlen in Hm1.
    replace ((f <$> ld) ++ [f l]) with (f <$> (ld ++ [l])) in Hm1 by (by rewrite fmap_app).
    assert (exists h1, (if bool_decide (f l <> []) then Push (item_less s1 (done ++ [it1])) h0 (length done) else Some h0) = Some h1 /\
      members h1 (f <$> (ld ++ [l])) /\ heap (before (f <$> (ld ++ [l]))) h1) as (h1 & -> & Hm2 & Hh2).
    { case_bool_decide as Hne; [|by exists h0].
      destruct (Push_spec (item_less s1 (done ++ [it1])) (before (f <$> (ld ++ [l])))
        (before_trans _) (before_total _) h0 (length done)) as (h1 & E & Hp & Hh1); [|done|].
      - eapply less_agrees; [done..|]. apply Hm1.
      - exists h1. split_and!; [done| |done]. eapply members_perm; [|exact Hm1]. by symmetry. }
    cbn [mbind option_bind].
    destruct (IH lt' s1 (done ++ [it1]) (ld ++ [l]) h1) as (s2 & m & E & Hev2 & Hst); [done..| |].
    { eapply Forall2_impl; [exact Hons|]. intros i0 l0. by apply on_evolves. }
    exists s2, m. split; [exact E|]. split; [by etransitivity|]. by rewrite <- app_assoc in Hst.
Qed.
(** ** Moving on *)

Lemma key_of_insert_ne rs i r j : i <> j -> key_of (<[i := r]> rs) j = key_of rs j.
Proof. intros. unfold key_of. by rewrite list_lookup_total_insert_ne. Qed.

Lemma members_insert h rs i p rest :
  members (i :: h) rs -> rs !! i = Some (p :: rest) ->
  members (if bool_decide (rest <> []) then i :: h else h) (<[i := rest]> rs).
Proof.
  intros [Hnd Hm] Hi. pose proof (lookup_lt_Some _ _ _ Hi) as Hlt. apply NoDup_cons in Hnd as [Hni Hnd].
  assert (Hlk : forall j, (exists r, (<[i := rest]> rs) !! j = Some r /\ r <> []) <->
    (j = i /\ rest <> []) \/ j ∈ h).
  { intros j. destruct (decide (j = i)) as [->|Hne].
    - rewrite list_lookup_insert_eq by done. naive_solver.
    - rewrite list_lookup_insert_ne by done. rewrite <- Hm, elem_of_cons. naive_solver. }
  case_bool_decide; split; [by apply NoDup_cons| |done|]; intros j; rewrite Hlk, ?elem_of_cons; tauto.
Qed.

Lemma sources_insert s its ls rs i it l p rest :
  sources s its ls rs -> (i < length its)%nat -> ls !! i = Some l -> on s it l -> ascending (p :: rest) ->
  (rest <> [] -> at_ s it rest) -> sources s (<[i := it]> its) ls (<[i := rest]> rs).
Proof.
  intros (H1 & H2 & H3) Hi Hl Ho Ha Hat. split_and!; [by rewrite length_insert|by rewrite !length_insert|].
  intros j it' l' r' Hj Hl' Hr'. destruct (decide (j = i)) as [->|Hne].
  - rewrite list_lookup_insert_eq in Hj by lia. rewrite list_lookup_insert_eq in Hr' by lia.
    simplify_eq. split_and!; [done| |done]. by apply ascending_cons in Ha as [? _].
  - rewrite list_lookup_insert_ne in Hj by done. rewrite list_lookup_insert_ne in Hr' by done. by eapply H3.
Qed.

(** One round: the first source moves on, and the heap is mended. *)
Lemma advance_top s m ls rs top h' p rest :
  stands s m ls rs -> h m = top :: h' -> rs !! top = Some (p :: rest) ->
  exists it s1 it1 h1, iters m !! top = Some it /\ it_Next s it = Some (s1, it1, bool_decide (rest <> [])) /\
    (if bool_decide (rest <> []) then Fix (item_less s1 (<[top := it1]> (iters m))) (h m) 0
     else '(h, _) ← Pop (item_less s1 (<[top := it1]> (iters m))) (h m); Some h) = Some h1 /\
    evolves s s1 /\ stands s1 (mkMerge (<[top := it1]> (iters m)) h1) ls (<[top := rest]> rs) /\
    h1 ≡ₚ (if bool_decide (rest <> []) then top :: h' else h').
Proof.
  intros [Hs Hsrc Hm Hh] Eh Hr. pose proof Hsrc as (L1 & L2 & H3). pose proof (lookup_lt_Some _ _ _ Hr) as Hlt.
  destruct (lookup_lt_is_Some_2 (iters m) top) as [it Hit]; [lia|].
  destruct (lookup_lt_is_Some_2 ls top) as [l Hl]; [lia|].
  destruct (H3 top it l _ Hit Hl Hr) as (Ho & Ha & Hat).
  destruct (Next_law s it l p rest Hs Ho (Hat ltac:(done))) as (s1 & it1 & En & Hs1 & Hev & Ho1 & Hat1).
  rewrite Eh in Hm, Hh. pose proof (members_insert _ _ _ _ _ Hm Hr) as Hm1.
  assert (Hsrc1 : sources s1 (<[top := it1]> (iters m)) ls (<[top := rest]> rs)).
  { eapply sources_insert; [by eapply sources_evolves|lia|done..]. }
  assert (Hord : forall k, (0 < k < length (top :: h') -> 0 < parent k ->
    before (<[top := rest]> rs) ((top :: h') !!! parent k) ((top :: h') !!! k))%nat).
  { intros k Hk Hp. specialize (Hh k Hk). pose proof (parent_lt k ltac:(lia)).
    destruct Hm as [[Hni _]%NoDup_cons _].
    assert (Hne : forall j, (0 < j < length (top :: h'))%nat -> top <> (top :: h') !!! j).
    { intros [|j] Hj E; [lia|]. apply Hni. rewrite E. apply (elem_of_total h' j). cbn in Hj. lia. }
    unfold before in *. rewrite !key_of_insert_ne by (apply Hne; lia). done. }
  exists it, s1, it1. rewrite Eh. case_bool_decide as Hne.
  - destruct (Fix_root_spec (item_less s1 (<[top := it1]> (iters m))) (before (<[top := rest]> rs))
      (before_trans _) (before_total _) (top :: h')) as (h1 & E & Hp & Hh1); [|exact Hord|].
    { eapply less_agrees; [done..|]. apply Hm1. }
    exists h1. split_and!; [done..| |done]. split; [done..| |done]. eapply members_perm; [|exact Hm1]. by symmetry.
  - destruct (Pop_spec (item_less s1 (<[top := it1]> (iters m))) (before (<[top := rest]> rs))
      (before_trans _) (before_total _) top h') as (h1 & E & Hp & Hh1); [|exact Hord|].
    { eapply less_agrees; [done..|]. apply Hm1. }
    exists h1. rewrite E. split_and!; [done..| |done]. split; [done..| |done].
    eapply members_perm; [|exact Hm1]. by symmetry.
Qed.

(** The heap's first source has the least key. *)
Lemma top_least s m ls rs top h' i :
  stands s m ls rs -> h m = top :: h' -> i ∈ h m -> before rs top i.
Proof.
  intros [_ _ _ Hh] Eh Hi. rewrite Eh in *. apply list_elem_of_lookup in Hi as [k Hk].
  pose proof (root_least (before rs) (before_trans _) (before_total _) _ _ k Hh (lookup_lt_Some _ _ _ Hk)) as Hb.
  by rewrite (list_lookup_total_correct _ _ _ Hk) in Hb.
Qed.

(** Nothing to drop: every member is past [k0]. *)
Lemma drop_head_none s m ls rs k0 :
  stands s m ls rs -> (forall i, i ∈ h m -> key_of rs i <> k0) -> drop_head k0 <$> rs = rs.
Proof.
  intros Hst Hne. apply list_eq. intros i. rewrite list_lookup_fmap. destruct (rs !! i) as [r|] eqn:Hr; [|done].
  cbn. f_equal. destruct r as [|p r]; [done|]. cbn. rewrite decide_False; [done|].
  destruct (st_members _ _ _ _ Hst) as [_ Hm]. specialize (Hne i). unfold key_of in Hne.
  rewrite (list_lookup_total_correct _ _ _ Hr) in Hne. apply Hne, Hm. by eexists.
Qed.

Lemma drop_head_insert (rs : list pairs) (top : nat) p rest :
  rs !! top = Some (p :: rest) -> ascending (p :: rest) ->
  drop_head p.1 <$> <[top := rest]> rs = drop_head p.1 <$> rs.
Proof.
  intros Hr Ha. rewrite list_fmap_insert. replace (drop_head p.1 rest) with rest.
  - apply list_insert_id. rewrite list_lookup_fmap, Hr. cbn. by rewrite decide_True.
  - destruct rest as [|q rest]; [done|]. cbn. rewrite decide_False; [done|]. intros E.
    apply ascending_cons in Ha as [_ Ha]. apply Forall_cons in Ha as [Ha _]. rewrite E in Ha. by apply blt_irrefl in Ha.
Qed.

(** The members at the key fall by one every round. *)
Definition count_at (rs : list pairs) (k : bytes) (h : list nat) : nat :=
  length (filter (fun i => key_of rs i = k) h).

Lemma count_at_ext rs rs' k h : (forall i, i ∈ h -> key_of rs i = key_of rs' i) -> count_at rs k h = count_at rs' k h.
Proof.
  intros He. unfold count_at. f_equal. induction h as [|i h IH]; [done|]. rewrite !filter_cons.
  rewrite (He i) by (by left). rewrite IH; [done|]. intros j Hj. apply He. by right.
Qed.

Lemma count_at_perm rs k h h' : h ≡ₚ h' -> count_at rs k h = count_at rs k h'.
Proof. intros Hp. unfold count_at. by rewrite Hp. Qed.

(** What follows the key at the head of a source is larger. *)
Lemma key_of_tail rs i p rest : rs !! i = Some (p :: rest) -> ascending (p :: rest) -> rest <> [] ->
  blt p.1 (key_of (<[i := rest]> rs) i).
Proof.
  intros Hr Ha Hne. unfold key_of. rewrite list_lookup_total_insert_eq by (by eapply lookup_lt_Some).
  destruct rest as [|q rest]; [done|]. apply (ascending_tail_above p (q :: rest)); [done|]. by left.
Qed.

(** Passing the key leaves one source less at it. *)
Lemma count_at_tail rs i p rest l : rs !! i = Some (p :: rest) -> ascending (p :: rest) -> i ∉ l ->
  count_at (<[i := rest]> rs) p.1 (if bool_decide (rest <> []) then i :: l else l) = count_at rs p.1 l.
Proof.
  intros Hr Ha Hni. transitivity (count_at (<[i := rest]> rs) p.1 l).
  - case_bool_decide as Hrest; [|done]. unfold count_at. rewrite filter_cons, decide_False; [done|].
    pose proof (key_of_tail rs i p rest Hr Ha Hrest) as Hlt. intros Eq. rewrite Eq in Hlt. by apply (blt_irrefl p.1).
  - apply count_at_ext. intros j Hj. apply key_of_insert_ne. by intros ->.
Qed.

Lemma Next_loop_spec ls k0 : forall fuel s m rs,
  stands s m ls rs -> (forall i, i ∈ h m -> ble k0 (key_of rs i)) -> (count_at rs k0 (h m) <= fuel)%nat ->
  exists s' m', Next_loop fuel s m k0 = Some (s', m') /\ evolves s s' /\ stands s' m' ls (drop_head k0 <$> rs).
Proof.
  induction fuel as [fuel IH] using lt_wf_ind. intros s m rs Hst Hge Hf.
  assert (Hdone : (forall i, i ∈ h m -> key_of rs i <> k0) -> Next_loop fuel s m k0 = Some (s, m) ->
    exists s' m', Next_loop fuel s m k0 = Some (s', m') /\ evolves s s' /\ stands s' m' ls (drop_head k0 <$> rs)).
  { intros Hne E. exists s, m. split; [exact E|]. split; [reflexivity|]. by rewrite (drop_head_none s m ls rs k0). }
  destruct (h m) as [|top h'] eqn:Eh.
  { apply Hdone; [by intros i ?%elem_of_nil|]. destruct fuel; cbn [Next_loop]; by rewrite Eh. }
  pose proof (st_members _ _ _ _ Hst) as [Hnd Hm]. rewrite Eh in Hnd, Hm.
  destruct (proj1 (Hm top) ltac:(by left)) as (r & Hr & Hne). destruct r as [|p rest]; [done|].
  destruct (source_key _ _ _ _ _ _ (st_steady _ _ _ _ Hst) (st_sources _ _ _ _ Hst) Hr Hne) as [Hk _].
  assert (Ek : key_of rs top = p.1) by (unfold key_of; by rewrite (list_lookup_total_correct _ _ _ Hr)).
  destruct (decide (p.1 = k0)) as [E0|E0].
  2:{ apply Hdone.
      - intros i Hi E. assert (Hb : before rs top i) by (eapply top_least; [done..|]; by rewrite Eh).
        specialize (Hge top ltac:(by left)). unfold before in Hb. rewrite Ek, E in *.
        destruct Hb as [Hb|[Hb _]]; [|congruence]. apply (blt_irrefl p.1). by eapply blt_ble_trans.
      - destruct fuel; cbn [Next_loop]; rewrite Eh, Hk; cbn [mbind option_bind];
          by rewrite compareKeys_eq, bool_decide_eq_false_2 by congruence. }
  assert (Hcnt : (count_at rs k0 (top :: h') = 1 + count_at rs k0 h')%nat).
  { unfold count_at. rewrite filter_cons, decide_True by congruence. done. }
  destruct fuel as [|fuel]; [lia|].
  destruct (advance_top _ _ _ _ _ _ _ _ Hst Eh Hr) as (it & s1 & it1 & h1 & Hit & En & Eh1 & Hev & Hst1 & Hp).
  pose proof (sources_ascending _ _ _ _ (st_sources _ _ _ _ Hst)) as Hasc.
  assert (Ha : ascending (p :: rest)) by (rewrite Forall_lookup in Hasc; by eapply Hasc).
  apply NoDup_cons in Hnd as [Hni Hnd].
  assert (Hext : forall i, i ∈ h' -> key_of (<[top := rest]> rs) i = key_of rs i).
  { intros i Hi. apply key_of_insert_ne. by intros ->. }
  destruct (IH fuel (Nat.lt_succ_diag_r fuel) s1 (mkMerge (<[top := it1]> (iters m)) h1) (<[top := rest]> rs) Hst1)
    as (s' & m' & E & Hev' & Hst').
  - cbn [h]. intros i Hi. rewrite Hp in Hi.
    assert (Hcase : i ∈ h' \/ (i = top /\ rest <> [])).
    { case_bool_decide; [|by left]. apply elem_of_cons in Hi as [->|Hi]; [by right|by left]. }
    destruct Hcase as [Hi'|[-> Hrest]].
    + rewrite Hext by done. apply Hge. by right.
    + rewrite <- E0. by apply blt_ble, key_of_tail.
  - cbn [h]. rewrite (count_at_perm _ _ _ _ Hp).
    rewrite <- E0 in *. rewrite (count_at_tail rs top p rest h' Hr Ha Hni). lia.
  - exists s', m'. split.
    + cbn [Next_loop]. rewrite Eh, Hk. cbn [mbind option_bind].
      rewrite compareKeys_eq, bool_decide_eq_true_2 by congruence. cbn [negb].
      rewrite Hit. cbn [mbind option_bind]. rewrite En. cbn [mbind option_bind]. rewrite <- Eh.
      rewrite Eh1. exact E.
    + split; [by etransitivity|]. rewrite <- E0 in *. by rewrite (drop_head_insert rs top p rest) in Hst'.
Qed.

(** ** The iterator against the merge *)

(** What is left, as one list. *)
Lemma stands_head s m ls rs :
  stands s m ls rs ->
  match merged rs with
  | [] => Valid m = false /\ h m = []
  | p :: rest =>
      Valid m = true /\ Key s m = Some p.1 /\ Value s m = Some p.2 /\
      exists top h', h m = top :: h' /\ key_of rs top = p.1 /\ rest = merged (drop_head p.1 <$> rs)
  end.
Proof.
  intros Hst. pose proof (st_members _ _ _ _ Hst) as [Hnd Hm].
  pose proof (sources_ascending _ _ _ _ (st_sources _ _ _ _ Hst)) as Hasc.
  destruct (h m) as [|top h'] eqn:Eh.
  - rewrite merged_all_nil; [unfold Valid; by rewrite Eh|]. apply Forall_lookup. intros i r Hr.
    destruct r as [|p r]; [done|]. specialize (proj2 (Hm i) ltac:(eauto)). by intros ?%elem_of_nil.
  - destruct (proj1 (Hm top) ltac:(by left)) as (r & Hr & Hne). destruct r as [|p rest]; [done|].
    destruct (source_key _ _ _ _ _ _ (st_steady _ _ _ _ Hst) (st_sources _ _ _ _ Hst) Hr Hne)
      as (Hk & it & p' & Hit & Hp' & Hpk & Hv). injection Hp' as <-.
    rewrite (merged_step rs top p rest Hasc Hr).
    + split; [unfold Valid; rewrite Eh; apply Z.ltb_lt; blia|].
      unfold Key, Value. rewrite Eh. cbn [head mbind option_bind]. rewrite Hk, Hit. cbn [mbind option_bind].
      split_and!; [by rewrite Hpk|done|]. by exists top, h'.
    + intros j q r' Hj. assert (Hb : before rs top j).
      { eapply top_least; [done..|]. rewrite Eh. apply Hm. by eexists. }
      assert (Eq : key_of rs j = q.1) by (unfold key_of; by rewrite (list_lookup_total_correct _ _ _ Hj)).
      unfold before in Hb. rewrite <- Hpk, Eq in Hb. split.
      * apply ble_lteq. tauto.
      * intros Hlt. destruct Hb as [?|[_ ?]]; [done|lia].
Qed.

(** The merge iterator over [ls], with [rest] left. *)
Definition merges (s : S) (m : MergeIterator I) (ls : list pairs) (rest : pairs) : Prop :=
  exists rs, stands s m ls rs /\ merged rs = rest.

Lemma merges_steady s m ls rest : merges s m ls rest -> steady s.
Proof. intros (rs & Hst & _). exact (st_steady _ _ _ _ Hst). Qed.

Lemma merges_Valid s m ls rest : merges s m ls rest -> Valid m = bool_decide (rest <> []).
Proof.
  intros (rs & Hst & <-). pose proof (stands_head _ _ _ _ Hst) as Hh.
  destruct (merged rs) as [|p rest]; destruct Hh as [-> _]; symmetry;
    [by apply bool_decide_eq_false_2; intros []|by apply bool_decide_eq_true_2].
Qed.

Lemma merges_Key s m ls p rest : merges s m ls (p :: rest) -> Key s m = Some p.1 /\ Value s m = Some p.2.
Proof.
  intros (rs & Hst & E). pose proof (stands_head _ _ _ _ Hst) as Hh. rewrite E in Hh. tauto.
Qed.

Lemma merges_Next s m ls p rest :
  merges s m ls (p :: rest) -> exists s' m', Next s m = Some (s', m', bool_decide (rest <> [])) /\
    evolves s s' /\ merges s' m' ls rest.
Proof.
  intros (rs & Hst & E). pose proof (stands_head _ _ _ _ Hst) as Hh. rewrite E in Hh.
  destruct Hh as (_ & Hk & _ & top & h' & Eh & Etop & Erest). unfold Next. rewrite Eh. unfold Key in Hk.
  rewrite Eh in Hk. cbn [head mbind option_bind] in Hk. rewrite Hk. cbn [mbind option_bind].
  destruct (Next_loop_spec ls p.1 (length (h m)) s m rs Hst) as (s' & m' & En & Hev & Hst').
  - intros i Hi. rewrite <- Etop. apply ble_lteq. pose proof (top_least _ _ _ _ _ _ _ Hst Eh Hi) as Hb.
    unfold before in Hb. tauto.
  - unfold count_at. apply length_filter.
  - rewrite Eh in En. rewrite En. cbn [mbind option_bind].
    assert (Hm' : merges s' m' ls rest) by (exists (drop_head p.1 <$> rs); by split).
    exists s', m'. split_and!; [|done|done]. do 2 f_equal. apply (merges_Valid _ _ _ _ Hm').
Qed.

Lemma NewMerge_stands s its ls :
  steady s -> Forall2 (on s) its ls -> forall (move : S -> I -> option (S * I * bool)) (f : pairs -> pairs),
  (forall l, ascending l -> ascending (f l)) ->
  (forall s i l, steady s -> on s i l -> exists s' i',
    move s i = Some (s', i', bool_decide (f l <> [])) /\
    steady s' /\ evolves s s' /\ on s' i' l /\ (f l <> [] -> at_ s' i' (f l))) ->
  exists s' m, position move s [] its [] = Some (s', m) /\ evolves s s' /\ merges s' m ls (merged (f <$> ls)).
Proof.
  intros Hs Hon move f Hf Hmove.
  destruct (position_spec move f Hf Hmove its ls s [] [] []) as (s' & m & E & Hev & Hst).
  - done.
  - split_and!; [done..|]. intros i ? ? ? Hi. by rewrite lookup_nil in Hi.
  - split; [constructor|]. intros i. rewrite elem_of_nil. split; [done|]. intros (r & Hr & _).
    by destruct i.
  - intros k Hk. cbn in Hk. lia.
  - done.
  - exists s', m. split_and!; [done..|]. by exists (f <$> ls).
Qed.

Lemma First_merges s its ls h0 :
  steady s -> Forall2 (on s) its ls ->
  exists s' m, First s (mkMerge its h0) = Some (s', m, bool_decide (merged ls <> [])) /\ evolves s s' /\
    merges s' m ls (merged ls).
Proof.
  intros Hs Hon.
  destruct (NewMerge_stands s its ls Hs Hon it_First id) as (s' & m & E & Hev & Hm);
    [done|intros ? ? ?; apply First_law|]. rewrite list_fmap_id in Hm.
  unfold First. cbn [iters]. rewrite E. cbn [mbind option_bind]. exists s', m. split_and!; [|done..].
  do 2 f_equal. apply (merges_Valid _ _ _ _ Hm).
Qed.

Lemma SeekGE_merges s its ls h0 t :
  steady s -> Forall2 (on s) its ls ->
  exists s' m, SeekGE s (mkMerge its h0) t = Some (s', m, bool_decide (suffix_from t (merged ls) <> [])) /\
    evolves s s' /\ merges s' m ls (suffix_from t (merged ls)).
Proof.
  intros Hs Hon.
  destruct (NewMerge_stands s its ls Hs Hon (fun s it => it_SeekGE s it t) (suffix_from t)) as (s' & m & E & Hev & Hm);
    [intros l; apply suffix_from_ascending|intros ? ? ?; apply SeekGE_law|].
  assert (Hasc : Forall ascending ls).
  { clear -Hon. induction Hon; constructor; [by eapply on_ascending|done]. }
  rewrite merged_suffix_from in Hm by done.
  unfold SeekGE. cbn [iters]. rewrite E. cbn [mbind option_bind]. exists s', m. split_and!; [|done..].
  do 2 f_equal. apply (merges_Valid _ _ _ _ Hm).
Qed.

Lemma collect_merges ls : forall rest fuel s m,
  merges s m ls rest -> (length rest <= fuel)%nat ->
  exists s', collect fuel s m = Some (s', rest) /\ evolves s s'.
Proof.
  induction rest as [|p rest IH]; intros fuel s m Hm Hf; pose proof (merges_Valid _ _ _ _ Hm) as Hv.
  - rewrite bool_decide_eq_false_2 in Hv by (by intros []). exists s. split; [|reflexivity].
    destruct fuel; cbn [collect]; by rewrite Hv.
  - rewrite bool_decide_eq_true_2 in Hv by done. destruct fuel as [|fuel]; [cbn in Hf; lia|].
    cbn [collect]. rewrite Hv. destruct (merges_Key _ _ _ _ _ Hm) as [-> ->]. cbn [mbind option_bind].
    destruct (merges_Next _ _ _ _ _ Hm) as (s1 & m1 & -> & Hev & Hm1). cbn [mbind option_bind].
    destruct (IH fuel s1 m1 Hm1 ltac:(cbn in Hf; lia)) as (s2 & -> & Hev2). cbn [mbind option_bind].
    exists s2. split; [by destruct p|by etransitivity].
Qed.
End merge.

(** C18: Merging.  Over sources that keep the interface, the merge iterator
    started with [First] goes through the merge of their contents (every key
    once, in order, with the value of the first source that has it) and started
    with [SeekGE] through the part of it from the target on; it neither panics
    nor stops early. *)
Theorem merge_iterates {S I} `{IteratorLaws S I} (s : S) (its : list I) (ls : list pairs) :
  steady s -> Forall2 (on s) its ls ->
  (ascending (merged ls) /\ forall k, assoc k (merged ls) = first_assoc k ls) /\
  (exists s1 m s2, First s (NewMergeIterator its) = Some (s1, m, bool_decide (merged ls <> [])) /\
     collect (length (merged ls)) s1 m = Some (s2, merged ls)) /\
  (forall t, let rest := suffix_from t (merged ls) in
     exists s1 m s2, SeekGE s (NewMergeIterator its) t = Some (s1, m, bool_decide (rest <> [])) /\
       collect (length rest) s1 m = Some (s2, rest)).
Proof.
  intros Hs Hon. split; [|split].
  - apply merged_spec. clear -Hon. induction Hon; constructor; [by eapply on_ascending|done].
  - destruct (First_merges s its ls [] Hs Hon) as (s1 & m & E & _ & Hm).
    destruct (collect_merges ls (merged ls) (length (merged ls)) s1 m Hm ltac:(done)) as (s2 & Ec & _). by exists s1, m, s2.
  - intros t rest. destruct (SeekGE_merges s its ls [] t Hs Hon) as (s1 & m & E & _ & Hm).
    destruct (collect_merges ls rest (length rest) s1 m Hm ltac:(done)) as (s2 & Ec & _). by exists s1, m, s2.
Qed.
