(* ===== verification/Sources.v ===== *)
(** The two kinds of sources the database merges ([pkg/lsm/lsm.go],
    [memIterAdapter]; [sstable.TableIterator]) as instances of the iterator
    interface.

    The store the sources share: the memtables, which are referred to by their
    place in a list because the database and its snapshots and iterators hold
    pointers to the same ones, and the block cache. *)
From S2P Require Import Prelude Binary ByteOrder Sorted Io Block BlockSpec Cache CacheSpec CacheInterface TableWriter TableLayout TableWriterSpec TableReader TableReaderSpec TableSpec Arena Skiplist SkiplistSpec Memtable Heap Merged MergeIterator MergeSpec.

#[local] Open Scope Z_scope.

(** ** The code *)

Record Store (C : Type) : Type := mkStore { mems : list Memtable; blocks : option C }.
Arguments mkStore {C}.
Arguments mems {C}.
Arguments blocks {C}.

(** A memtable iterator behind [memIterAdapter], or a table iterator. *)
Inductive source : Type :=
| MemSource (m : nat) (it : Z)
| TableSource (rd : Reader) (it : TableIterator).

Section sources.
Context {C : Type} {ops : CacheOps C}.

(** The adapter passes calls through, [Key] to [InternalKey]. *)
Definition mem_move (s : Store C) (m : nat) (f : Memtable -> option Z) : option (Store C * source * bool) :=
  mt ← mems s !! m; it ← f mt; Some (s, MemSource m it, Memtable.Iterator.Valid it).

Definition table_move (s : Store C) (rd : Reader)
    (r : option (option C * TableIterator * bool)) : option (Store C * source * bool) :=
  '(c, it, ok) ← r; Some (mkStore (mems s) c, TableSource rd it, ok).

Definition source_SeekGE (s : Store C) (i : source) (key : bytes) : option (Store C * source * bool) :=
  match i with
  | MemSource m _ => mem_move s m (fun mt => Memtable.Iterator.SeekGE mt key)
  | TableSource rd it => table_move s rd (TableReader.SeekGE rd (blocks s) it key)
  end.
Definition source_First (s : Store C) (i : source) : option (Store C * source * bool) :=
  match i with
  | MemSource m _ => mem_move s m Memtable.Iterator.First
  | TableSource rd it => table_move s rd (TableReader.First rd (blocks s) it)
  end.
Definition source_Next (s : Store C) (i : source) : option (Store C * source * bool) :=
  match i with
  | MemSource m it => mem_move s m (fun mt => Memtable.Iterator.Next mt it)
  | TableSource rd it => table_move s rd (TableReader.Next rd (blocks s) it)
  end.
Definition source_Key (s : Store C) (i : source) : option bytes :=
  match i with
  | MemSource m it => mt ← mems s !! m; Memtable.Iterator.InternalKey mt it
  | TableSource _ it => TableReader.Key it
  end.
Definition source_Value (s : Store C) (i : source) : option bytes :=
  match i with
  | MemSource m it => mt ← mems s !! m; Memtable.Iterator.Value mt it
  | TableSource _ it => TableReader.Value it
  end.

#[export] Instance source_iterator : Iterator (Store C) source := {|
  it_SeekGE := source_SeekGE;
  it_First := source_First;
  it_Next := source_Next;
  it_Key := source_Key;
  it_Value := source_Value |}.
End sources.

(** ** The interface is kept *)

Lemma more_decide (l : pairs) : more l = bool_decide (l <> []).
Proof. destruct l; [by rewrite bool_decide_eq_false_2 by (by intros [])|by rewrite bool_decide_eq_true_2]. Qed.

Section laws.
Context {C : Type} {ops : CacheOps C} {claws : CacheLaws C}.

(** The blocks a cache may hold, for the files of all readers. *)
Context (P : Z -> Z -> bytes -> Prop).

Definition table_on (rd : Reader) (l : pairs) : Prop :=
  exists fid r ps, opened rd fid r ps /\ blocks_of P fid r ps /\ pairs_of ps = l.
Definition table_at (rd : Reader) (it : TableIterator) (rest : pairs) : Prop :=
  exists fid r ps pre, opened rd fid r ps /\ blocks_of P fid r ps /\ pairs_of ps = pre ++ rest /\ tcursor r ps it rest.
Definition mem_on (s : Store C) (m : nat) (l : pairs) : Prop :=
  exists mt es, mems s !! m = Some mt /\ rep (skl mt) es /\ contents es = l.
Definition mem_at (s : Store C) (m : nat) (it : Z) (rest : pairs) : Prop :=
  exists mt es, mems s !! m = Some mt /\ rep (skl mt) es /\ scursor es it rest.

Definition source_on (s : Store C) (i : source) (l : pairs) : Prop :=
  match i with MemSource m _ => mem_on s m l | TableSource rd _ => table_on rd l end.
Definition source_at (s : Store C) (i : source) (rest : pairs) : Prop :=
  match i with MemSource m it => mem_at s m it rest | TableSource rd it => table_at rd it rest end.

(** Iterating changes the cache only. *)
Definition source_steady (s : Store C) : Prop := sound_opt P (blocks s).
Definition source_evolves (s s' : Store C) : Prop :=
  mems s' = mems s /\ (is_Some (blocks s) -> is_Some (blocks s')).

#[export] Instance source_evolves_preorder : PreOrder source_evolves.
Proof. split; [by intros s; split|]. intros a b c [H1 H1'] [H2 H2']. split; [congruence|auto]. Qed.

(** What every move of a source gives, [rest] being what it then shows. *)
Definition moved (s : Store C) (l rest : pairs) (r : option (Store C * source * bool)) : Prop :=
  exists s' i', r = Some (s', i', bool_decide (rest <> [])) /\
    source_steady s' /\ source_evolves s s' /\ source_on s' i' l /\ (rest <> [] -> source_at s' i' rest).

Lemma mem_moved s m mt es it l rest f :
  source_steady s -> mems s !! m = Some mt -> rep (skl mt) es -> contents es = l ->
  f mt = Some it -> scursor es it rest -> moved s l rest (mem_move s m f).
Proof.
  intros Hs Hm Hr Hl Hf Hc. unfold mem_move. rewrite Hm. cbn [mbind option_bind]. rewrite Hf. cbn [mbind option_bind].
  exists s, (MemSource m it). split; [|split_and!; [done|done|by exists mt, es|intros _; by exists mt, es]].
  do 2 f_equal. unfold Memtable.Iterator.Valid, Skiplist.Valid. destruct rest as [|p rest].
  - rewrite (scursor_nil _ _ Hc). by rewrite bool_decide_eq_false_2 by (by intros []).
  - destruct (scursor_node _ _ _ _ _ Hr Hc) as [Hne _].
    by rewrite (proj2 (Z.eqb_neq _ _)), bool_decide_eq_true_2.
Qed.

Lemma table_moved s rd fid r ps pre rest c it :
  opened rd fid r ps -> blocks_of P fid r ps -> pairs_of ps = pre ++ rest -> sound_opt P c ->
  (is_Some (blocks s) -> is_Some c) -> (rest <> [] -> tcursor r ps it rest) ->
  moved s (pairs_of ps) rest (table_move s rd (Some (c, it, more rest))).
Proof.
  intros Ho Hb Hp Hc Hk Ht. exists (mkStore (mems s) c), (TableSource rd it).
  cbn [table_move mbind option_bind]. rewrite more_decide.
  split_and!; [done..|by exists fid, r, ps|]. intros Hne. exists fid, r, ps, pre. auto.
Qed.

Lemma source_First_law s i l : source_steady s -> source_on s i l -> moved s l l (source_First s i).
Proof.
  intros Hs Ho. destruct i as [m it|rd it]; cbn [source_First].
  - destruct Ho as (mt & es & Hm & Hr & <-). destruct (scursor_First _ _ Hr) as (nd & Hf & Hc).
    by eapply mem_moved.
  - destruct Ho as (fid & r & ps & Ho & Hb & <-).
    destruct (First_any P rd fid r ps Ho Hb (blocks s) it Hs) as (c' & it' & E & Hc' & Hsh).
    rewrite E. apply (table_moved s rd fid r ps []); [done..|by apply (First_cache _ _ _ _ _ _ E)|]. intros Hne. apply Hsh. by left.
Qed.

Lemma source_SeekGE_law s i l t :
  source_steady s -> source_on s i l -> moved s l (suffix_from t l) (source_SeekGE s i t).
Proof.
  intros Hs Ho. destruct i as [m it|rd it]; cbn [source_SeekGE].
  - destruct Ho as (mt & es & Hm & Hr & <-). destruct (scursor_SeekGE _ _ t Hr) as (nd & Hf & Hc).
    by eapply mem_moved.
  - destruct Ho as (fid & r & ps & Ho & Hb & <-).
    destruct (SeekGE_any P rd fid r ps Ho Hb (blocks s) it t Hs) as (c' & it' & E & Hc' & Hsh). rewrite E.
    destruct (suffix_from_suffix t (pairs_of ps) (op_ascending _ _ _ _ Ho)) as [pre Hpre].
    apply (table_moved s rd fid r ps pre); [done..|by apply (SeekGE_cache _ _ _ _ _ _ _ E)|]. intros Hne. apply Hsh. by left.
Qed.

Lemma source_Next_law s i l p rest :
  source_steady s -> source_on s i l -> source_at s i (p :: rest) -> moved s l rest (source_Next s i).
Proof.
  intros Hs Ho Hat. destruct i as [m it|rd it]; cbn [source_Next].
  - destruct Ho as (mt & es & Hm & Hr & Hl), Hat as (mt' & es' & Hm' & Hr' & Hc).
    assert (mt' = mt) as -> by congruence. destruct (scursor_node _ _ _ _ _ Hr' Hc) as (_ & _ & _ & nd & Hn & Hc').
    assert (Hmv : moved s (contents es') rest (mem_move s m (fun mt => Memtable.Iterator.Next mt it)))
      by (by eapply mem_moved).
    destruct Hmv as (s' & i' & E & Hs' & Hev & _ & Hat'). exists s', i'. split_and!; [done..| |done].
    unfold mem_move in E. rewrite Hm in E. cbn [mbind option_bind] in E. unfold Memtable.Iterator.Next in E.
    rewrite Hn in E. injection E as <- <- _. by exists mt, es.
  - destruct Hat as (fid & r & ps & pre & Hop & Hb & Hps & Hc).
    destruct (Next_spec P rd fid r ps Hop Hb (blocks s) it p rest Hs Hc) as (c' & it' & En & Hc' & Hsh). rewrite En.
    destruct (table_moved s rd fid r ps (pre ++ [p]) rest c' it' Hop Hb) as (s' & i' & E & Hs' & Hev & _ & Hat');
      [by rewrite <- app_assoc|done|by apply (Next_cache _ _ _ _ _ _ En)|done|].
    exists s', i'. split_and!; [done..| |done]. by injection E as <- <-.
Qed.

Lemma source_Key_law s i p rest :
  source_at s i (p :: rest) -> source_Key s i = Some p.1 /\ source_Value s i = Some p.2.
Proof.
  destruct i as [m it|rd it]; cbn [source_Key source_Value source_at].
  - intros (mt & es & Hm & Hr & Hc). rewrite Hm. destruct (scursor_node _ _ _ _ _ Hr Hc) as (_ & ? & ? & _). done.
  - intros (fid & r & ps & pre & _ & _ & _ & Hc). by apply (tcursor_Key r ps it p rest).
Qed.

Lemma source_at_ascending s i rest : source_at s i rest -> ascending rest.
Proof.
  destruct i as [m it|rd it].
  - intros (mt & es & _ & Hr & (es1 & es2 & -> & _ & ->)). pose proof (rep_contents_sorted _ _ Hr) as Ha.
    unfold contents in Ha. rewrite fmap_app in Ha. by apply (ascending_app (contents es1) (contents es2)) in Ha as (_ & ? & _).
  - intros (fid & r & ps & pre & Hop & _ & Hps & _). pose proof (op_ascending _ _ _ _ Hop) as Ha.
    rewrite Hps in Ha. by apply ascending_app in Ha as (_ & ? & _).
Qed.

Lemma source_on_ascending s i l : source_on s i l -> ascending l.
Proof.
  destruct i as [m it|rd it].
  - intros (mt & es & _ & Hr & <-). by eapply rep_contents_sorted.
  - intros (fid & r & ps & Hop & _ & <-). apply Hop.
Qed.

Lemma source_on_evolves s s' i l : source_evolves s s' -> source_on s i l -> source_on s' i l.
Proof. destruct i; [|done]. unfold source_evolves, source_on, mem_on. by intros [-> _]. Qed.

Lemma source_at_evolves s s' i rest : source_evolves s s' -> source_at s i rest -> source_at s' i rest.
Proof. destruct i; [|done]. unfold source_evolves, source_at, mem_at. by intros [-> _]. Qed.

Definition source_laws : IteratorLaws (Store C) source := {|
  steady := source_steady;
  evolves := source_evolves;
  evolves_preorder := source_evolves_preorder;
  on := source_on;
  at_ := source_at;
  on_ascending := source_on_ascending;
  at_ascending := source_at_ascending;
  on_evolves := source_on_evolves;
  at_evolves := source_at_evolves;
  First_law := source_First_law;
  SeekGE_law := source_SeekGE_law;
  Next_law := source_Next_law;
  Key_law s i p rest _ := source_Key_law s i p rest |}.
End laws.

(** ** Two tables merged *)

Definition older_pairs : pairs := [([x61], [x31]); ([x63], [x32]); ([x64], [x33])].
Definition newer_pairs : pairs := [([x62], [x37]); ([x63], [x38])].

Lemma written_table kvs fid :
  ascending kvs -> weight kvs < 2 ^ 31 -> blen kvs * bits_of demo_opts < 2 ^ 40 ->
  (match write_table demo_file demo_opts kvs with Some (_, inr _) => True | _ => False end) ->
  exists rd r ps, opened rd fid r ps /\ pairs_of ps = kvs.
Proof.
  intros Ha Hw Hb Hok.
  destruct (write_table_spec (laws := file_writer_laws) demo_file demo_opts kvs eq_refl Ha Hw Hb) as (t & res & E & Hres).
  rewrite E in Hok. destruct res as [e|m]; [done|].
  destruct Hres as (r & ps & mh & ih & Ht & <- & _).
  destruct (NewReader_table _ fid _ _ _ _ Ht) as (rd & _ & _ & Hop). by exists rd, r, ps.
Qed.

Lemma merge_iterates_witness :
  exists rd1 rd2 s1 m s2,
    MergeIterator.First (mkStore [] (None : option BlockCache))
      (NewMergeIterator [TableSource rd1 NewIterator; TableSource rd2 NewIterator]) = Some (s1, m, true) /\
    MergeIterator.collect 4 s1 m = Some (s2, [([x61], [x31]); ([x62], [x37]); ([x63], [x38]); ([x64], [x33])]).
Proof.
  destruct (written_table newer_pairs 1) as (rd1 & r1 & ps1 & H1 & E1);
    [apply (bool_decide_unpack _); vm_compute; exact I|vm_compute; reflexivity..|vm_compute; exact I|].
  destruct (written_table older_pairs 2) as (rd2 & r2 & ps2 & H2 & E2);
    [apply (bool_decide_unpack _); vm_compute; exact I|vm_compute; reflexivity..|vm_compute; exact I|].
  set (P := fun f o d => (f = 1 /\ part_blocks r1 ps1 o d) \/ (f = 2 /\ part_blocks r2 ps2 o d)).
  assert (B1 : blocks_of P 1 r1 ps1).
  { apply (part_blocks_of (TableReader.r rd1)); [apply H1|]. intros o d. unfold P. split; [|by left].
    intros [[_ H]|[H _]]; [exact H|discriminate]. }
  assert (B2 : blocks_of P 2 r2 ps2).
  { apply (part_blocks_of (TableReader.r rd2)); [apply H2|]. intros o d. unfold P. split; [|by right].
    intros [[H _]|[_ H]]; [discriminate|exact H]. }
  destruct (merge_iterates (H0 := source_laws P) (mkStore [] (None : option BlockCache))
    [TableSource rd1 NewIterator; TableSource rd2 NewIterator] [newer_pairs; older_pairs]) as (_ & (s1 & m & s2 & Hf & Hc) & _).
  - exact I.
  - constructor; [by exists 1, r1, ps1|]. constructor; [by exists 2, r2, ps2|constructor].
  - exists rd1, rd2, s1, m, s2. split; [exact Hf|exact Hc].
Defined.
