(* ===== verification/DBIterator.v ===== *)
(** The user-facing iterator ([pkg/lsm/lsm.go], [DBIterator]): it walks the
    merged internal keys, shows the first entry of every run of one user key
    unless that is a tombstone, and skips the rest of the run.

    Keys are slices.  A user key taken from the merge iterator is a part of the
    buffer of the source that shows it, and a table iterator builds its next
    key in the same buffer ([append(it.key[:shared], ...)] in
    [blockIterator.next]), so a slice held across [Next] may change under its
    holder.  The class [KeyBuffers] says what a move of a source does to the
    buffer of its previous key; [key_slice] is a slice with its owner. *)
From S2P Require Import Prelude Binary ByteOrder Sorted InternalKey Heap Merged MergeIterator.

#[local] Open Scope Z_scope.

(** ** Shared key buffers *)

(** After a move, the buffer of the previous key is untouched and still the
    source's; holds the given new key; or is no longer the source's. *)
Inductive buffer_fate : Type :=
| Kept
| Overwritten (k : bytes)
| Abandoned.

Class KeyBuffers (I : Type) := fate : I -> I -> buffer_fate.

(** A slice at the start of a key buffer: its present bytes, and the source
    whose buffer it is part of. *)
Record key_slice : Type := mkSlice { owner : option nat; text : bytes }.

Definition maxSeqNum : Z := 2 ^ 56 - 1.

Section iterator.
Context {S I : Type} {iterator : Iterator S I} {buffers : KeyBuffers I}.

(** The slice after the sources [its] have become [its']. *)
Definition track (its its' : list I) (u : key_slice) : key_slice :=
  match owner u with
  | None => u
  | Some i =>
      match its !! i, its' !! i with
      | Some it, Some it' =>
          match fate it it' with
          | Kept => u
          | Overwritten k => mkSlice (Some i) (take (length (text u)) k ++ drop (length k) (text u))
          | Abandoned => mkSlice None (text u)
          end
      | _, _ => u
      end
  end.

(** ** The code *)

(** [held] are the memtables the iterator has references to. *)
Record DBIterator : Type := mkDBIterator {
  merge : MergeIterator I;
  key : bytes;
  val : bytes;
  valid : bool;
  held : list nat }.

Definition set_merge (it : DBIterator) (m : MergeIterator I) : DBIterator :=
  mkDBIterator m (key it) (val it) (valid it) (held it).
Definition set_valid (it : DBIterator) (v : bool) : DBIterator :=
  mkDBIterator (merge it) (key it) (val it) v (held it).

(** [memtable.UserKey(it.merge.Key())]: a slice of the first source's key. *)
Definition user_slice (s : S) (m : MergeIterator I) : option key_slice :=
  k ← Key s m; Some (mkSlice (head (h m)) (UserKey k)).

(** Every round moves the merge iterator on, so the number of entries left
    bounds the rounds; the same holds of the loops below. *)
Fixpoint skipUserKey (fuel : nat) (s : S) (m : MergeIterator I) (userKey : key_slice)
    : option (S * MergeIterator I) :=
  match fuel with
  | O => None
  | Datatypes.S fuel =>
      '(s, m', ok) ← Next s m;
      if negb ok then Some (s, m')
      else
        let userKey := track (iters m) (iters m') userKey in
        k ← Key s m';
        let nextUserKey := UserKey k in
        if negb (compareKeys nextUserKey (text userKey) =? 0) then Some (s, m')
        else skipUserKey fuel s m' userKey
  end.

Fixpoint findNextVisible (fuel : nat) (s : S) (it : DBIterator) : option (S * DBIterator * bool) :=
  if Valid (merge it) then
    match fuel with
    | O => None
    | Datatypes.S fuel' =>
        ikey ← Key s (merge it);
        userKey ← user_slice s (merge it);
        let '(_, _, kind) := ParseInternalKey ikey in
        if kind =? KindSet then
          v ← Value s (merge it);
          '(s, m) ← skipUserKey fuel s (merge it) userKey;
          Some (s, mkDBIterator m (text userKey) v true (held it), true)
        else
          '(s, m) ← skipUserKey fuel s (merge it) userKey;
          findNextVisible fuel' s (set_merge it m)
    end
  else Some (s, set_valid it false, false).

(** The loop of [SeekGE] past the entries with smaller user keys. *)
Fixpoint skip_smaller (fuel : nat) (s : S) (m : MergeIterator I) (target : bytes)
    : option (S * MergeIterator I) :=
  if Valid m then
    match fuel with
    | O => None
    | Datatypes.S fuel' =>
        userKey ← user_slice s m;
        if 0 <=? compareKeys (text userKey) target then Some (s, m)
        else '(s, m) ← skipUserKey fuel s m userKey; skip_smaller fuel' s m target
    end
  else Some (s, m).

Definition SeekGE (fuel : nat) (s : S) (it : DBIterator) (target : bytes) : option (S * DBIterator * bool) :=
  let seekKey := MakeInternalKey target maxSeqNum KindSet in
  '(s, m, ok) ← MergeIterator.SeekGE s (merge it) seekKey;
  if negb ok then Some (s, set_valid (set_merge it m) false, false)
  else
    '(s, m) ← skip_smaller fuel s m target;
    if negb (Valid m) then Some (s, set_valid (set_merge it m) false, false)
    else findNextVisible fuel s (set_merge it m).

Definition First (fuel : nat) (s : S) (it : DBIterator) : option (S * DBIterator * bool) :=
  '(s, m, ok) ← MergeIterator.First s (merge it);
  if negb ok then Some (s, set_valid (set_merge it m) false, false)
  else findNextVisible fuel s (set_merge it m).

Definition Next (fuel : nat) (s : S) (it : DBIterator) : option (S * DBIterator * bool) :=
  if negb (valid it) then Some (s, it, false)
  else if negb (Valid (merge it)) then Some (s, set_valid it false, false)
  else findNextVisible fuel s it.

(** [Close]: the iterator without references, and the memtables whose
    references it gives back. *)
Definition Close (it : DBIterator) : DBIterator * list nat :=
  (mkDBIterator (merge it) (key it) (val it) false [], held it).

(** The pairs from the current position on. *)
Fixpoint collect (rounds fuel : nat) (s : S) (it : DBIterator) : option (S * pairs) :=
  if valid it then
    match rounds with
    | O => None
    | Datatypes.S rounds =>
        '(s, it', _) ← Next fuel s it;
        '(s, l) ← collect rounds fuel s it';
        Some (s, (key it, val it) :: l)
    end
  else Some (s, []).
End iterator.
Arguments DBIterator : clear implicits.
Arguments mkDBIterator {I}.
