(* ===== verification/DBIteratorSpec.v ===== *)
(** What the database iterator shows: the first entry of every run of one user
    key, tombstones left out.  Proved for sources whose key buffers are not
    written again ([settled]), which is true of memtables; the runs of
    DBRuns.v show what happens over tables. *)
From stdpp Require Import sorting.
From S2P Require Import Prelude Binary ByteOrder Sorted InternalKey Heap Merged MergeIterator MergeSpec DBIterator Memtable MemtableSpec.

#[local] Open Scope Z_scope.

(** ** The reference definition *)

(** The pairs a user sees in a list of internal pairs; [last] is the user key
    already dealt with. *)
Fixpoint shown (last : option bytes) (l : pairs) : pairs :=
  match l with
  | [] => []
  | (k, v) :: l =>
      let '(u, _, kind) := ParseInternalKey k in
      if bool_decide (last = Some u) then shown last l
      else if kind =? KindSet then (u, v) :: shown (Some u) l
      else shown (Some u) l
  end.

(** The list after a run of one user key. *)
Fixpoint after_run (u : bytes) (l : pairs) : pairs :=
  match l with
  | [] => []
  | p :: l' => if bool_decide (UserKey p.1 = u) then after_run u l' else l
  end.

Lemma Parse_UserKey k : (ParseInternalKey k).1.1 = UserKey k.
Proof. unfold ParseInternalKey, UserKey. by destruct (_ <? _). Qed.

Lemma shown_cons last p l :
  shown last (p :: l) =
    if bool_decide (last = Some (UserKey p.1)) then shown last l
    else if (ParseInternalKey p.1).2 =? KindSet then (UserKey p.1, p.2) :: shown (Some (UserKey p.1)) l
    else shown (Some (UserKey p.1)) l.
Proof.
  destruct p as [k v]. cbn [shown fst snd]. rewrite <- Parse_UserKey.
  by destruct (ParseInternalKey k) as [[u s] kind].
Qed.

Lemma shown_after_run u l : shown None (after_run u l) = shown (Some u) l.
Proof.
  induction l as [|p l IH]; [done|]. cbn [after_run]. rewrite (shown_cons (Some u)).
  case_bool_decide as E.
  - by rewrite bool_decide_eq_true_2 by congruence.
  - rewrite bool_decide_eq_false_2 by congruence. rewrite shown_cons.
    by rewrite (bool_decide_eq_false_2 (None = _)).
Qed.

Lemma length_after_run u l : (length (after_run u l) <= length l)%nat.
Proof. induction l as [|p l IH]; cbn; [done|]. case_bool_decide; cbn; lia. Qed.

(** ** The reference definition is the newest version of every key *)

(** Internal keys in order are user keys in order, newest versions first. *)
Definition follows (v w : version) : Prop :=
  blt (v_key v) (v_key w) \/ (v_key v = v_key w /\ stamp (v_seq w) (v_kind w) < stamp (v_seq v) (v_kind v)).

Lemma ikey_follows v w us :
  prefix_free us -> v_key v ∈ us -> v_key w ∈ us -> ver_ok v -> ver_ok w ->
  blt (ver_ikey v) (ver_ikey w) -> follows v w.
Proof.
  intros Hpf Hv Hw [H1 H2]%ver_ok_seq [H3 H4]%ver_ok_seq Hlt. unfold blt, ver_ikey in Hlt.
  destruct (Hpf _ _ Hv Hw) as [E|Hu].
  - right. split; [done|]. rewrite E, order_same in Hlt by done. by apply Z.compare_lt_iff in Hlt.
  - left. by rewrite order_unrelated in Hlt.
Qed.

Lemma Parse_ikey v : ver_ok v -> ParseInternalKey (ver_ikey v) = (v_key v, v_seq v, v_kind v).
Proof. intros [H1 H2]%ver_ok_seq. by apply Parse_Make. Qed.

(** A version followed by all others is the newest of its key. *)
Lemma first_newest vs v : ver_ok v -> Forall (follows v) vs -> newest (v :: vs) (v_key v) DBIterator.maxSeqNum v.
Proof.
  intros [Hs _] Hf. split; [split; [by left|split; [done|unfold DBIterator.maxSeqNum; lia]]|].
  intros w (Hw & Hk & _). apply elem_of_cons in Hw as [->|Hw]; [done|]. rewrite Forall_forall in Hf.
  destruct (Hf w Hw) as [Hb|[_ ?]]; [|lia]. rewrite Hk in Hb. by apply blt_irrefl in Hb.
Qed.

Lemma shown_enc last v l :
  ver_ok v -> shown last (enc v :: l) =
    if bool_decide (last = Some (v_key v)) then shown last l
    else if v_kind v =? KindSet then (v_key v, v_val v) :: shown (Some (v_key v)) l
    else shown (Some (v_key v)) l.
Proof.
  intros Hv. rewrite shown_cons. change (enc v).1 with (ver_ikey v). change (enc v).2 with (v_val v).
  rewrite Parse_ikey by done. unfold ver_ikey. by rewrite !UserKey_Make.
Qed.

Lemma shown_spec vs last :
  Forall ver_ok vs -> StronglySorted follows vs ->
  (forall u0, last = Some u0 -> Forall (fun v => ble u0 (v_key v)) vs) ->
  let r := shown last (enc <$> vs) in
  ascending r /\ (forall u0 k, last = Some u0 -> has_key k r -> blt u0 k) /\
  (forall k, has_key k r -> k ∈ v_key <$> vs) /\
  (forall u, last <> Some u -> answers vs u DBIterator.maxSeqNum (assoc u r)).
Proof.
  intros Hok Hs. revert last. induction Hs as [|v vs Hs IH Hf]; intros last Hle r.
  - split_and!; [constructor|by intros ? ? _ ?%elem_of_nil|by intros ? ?%elem_of_nil|]. intros u _. left. by intros v [?%elem_of_nil _].
  - apply Forall_cons in Hok as [Hv Hok]. specialize (IH Hok).
    assert (Hge : Forall (fun w => ble (v_key v) (v_key w)) vs).
    { eapply Forall_impl; [exact Hf|]. intros w Hw. apply ble_lteq. destruct Hw as [?|[? _]]; auto. }
    unfold r. rewrite fmap_cons, shown_enc by done.
    destruct (bool_decide_reflect (last = Some (v_key v))) as [->|Hlast].
    + destruct (IH (Some (v_key v))) as (H1 & H2 & H3 & H4); [by intros ? [= <-]|]. split_and!; [done|done| |].
      * intros k Hk. right. by apply H3.
      * intros u Hu. apply answers_other; [congruence|]. by apply H4.
    + destruct (IH (Some (v_key v))) as (H1 & H2 & H3 & H4); [by intros ? [= <-]|].
      assert (Hgt : forall u0, last = Some u0 -> blt u0 (v_key v)).
      { intros u0 ->. specialize (Hle u0 eq_refl). apply Forall_cons in Hle as [Hle _].
        apply ble_lteq in Hle as [?|?]; congruence. }
      assert (Hab : assoc (v_key v) (shown (Some (v_key v)) (enc <$> vs)) = None).
      { apply assoc_None. intros Hk. by apply (H2 (v_key v)), blt_irrefl in Hk. }
      pose proof (first_newest vs v Hv Hf) as Hnew.
      destruct Hv as [_ [Hk|Hk]]; rewrite Hk; cbn [Z.eqb KindSet KindDelete Pos.eqb].
      * split_and!.
        -- apply ascending_cons. split; [done|]. apply Forall_forall. intros q Hq. cbn [fst].
           apply (H2 (v_key v)); [done|]. by apply list_elem_of_fmap_2.
        -- intros u0 k Hu0 [->|Hin]%elem_of_cons; [by apply Hgt|].
           eapply blt_trans; [by apply Hgt|]. by apply (H2 (v_key v)).
        -- intros k [->|Hin]%elem_of_cons; [by left|right; by apply H3].
        -- intros u Hu. destruct (decide (u = v_key v)) as [->|Hne].
           ++ cbn [assoc]. rewrite bool_decide_eq_true_2 by done. by exists v.
           ++ rewrite (assoc_cons_ne u (v_key v, v_val v)) by done. apply answers_other; [done|]. apply H4. congruence.
      * split_and!; [done| | |].
        -- intros u0 k Hu0 Hin. eapply blt_trans; [by apply Hgt|]. by apply (H2 (v_key v)).
        -- intros k Hin. right. by apply H3.
        -- intros u Hu. destruct (decide (u = v_key v)) as [->|Hne].
           ++ rewrite Hab. right. by exists v.
           ++ apply answers_other; [done|]. apply H4. congruence.
Qed.

(** A sorted list of encoded versions is the encoding of a sorted list. *)
Lemma sorted_versions vs l :
  Forall ver_ok vs -> prefix_free (v_key <$> vs) -> l ≡ₚ enc <$> vs -> ascending l ->
  exists vs', vs' ≡ₚ vs /\ l = enc <$> vs' /\ StronglySorted follows vs'.
Proof.
  intros Hok Hpf Hp Ha. destruct (Permutation_map_inv _ _ Hp) as (vs' & El & Hp').
  exists vs'. split; [by symmetry|]. split; [exact El|]. rewrite El in Ha. change (ascending (enc <$> vs')) in Ha.
  assert (Hok' : Forall ver_ok vs') by (by rewrite <- Hp').
  assert (Hin : forall v, v ∈ vs' -> v_key v ∈ v_key <$> vs) by (intros v Hv; apply list_elem_of_fmap_2; by rewrite Hp').
  clear l El Hp Hp' Hok. induction vs' as [|v vs' IH]; [constructor|].
  apply Forall_cons in Hok' as [Hv Hok']. rewrite fmap_cons in Ha. apply ascending_cons in Ha as [Ha Hlt].
  constructor; [apply IH; [done..|]; intros w Hw; apply Hin; by right|].
  rewrite Forall_fmap in Hlt. apply Forall_forall. intros w Hw.
  apply (ikey_follows v w (v_key <$> vs)); [done|apply Hin; by left|apply Hin; by right|done| |].
  - apply (proj1 (Forall_forall _ _) Hok' w Hw).
  - apply (proj1 (Forall_forall _ _) Hlt w Hw).
Qed.

Lemma shown_answers vs l :
  Forall ver_ok vs -> prefix_free (v_key <$> vs) -> l ≡ₚ enc <$> vs -> ascending l ->
  ascending (shown None l) /\ forall u, answers vs u DBIterator.maxSeqNum (assoc u (shown None l)).
Proof.
  intros Hok Hpf Hp Ha. destruct (sorted_versions vs l Hok Hpf Hp Ha) as (vs' & Hp' & -> & Hs).
  destruct (shown_spec vs' None) as (H1 & _ & _ & H4); [by rewrite Hp'|done|done|].
  split; [done|]. intros u. apply (answers_perm vs'); [done|]. by apply H4.
Qed.

(** ** Starting at a key *)

(** The list without its leading pairs of user keys below [t]. *)
Fixpoint drop_smaller (t : bytes) (l : pairs) : pairs :=
  match l with
  | [] => []
  | p :: l' => if bool_decide (ble t (UserKey p.1)) then l else drop_smaller t l'
  end.

Lemma drop_smaller_after_run t u l : ~ ble t u -> drop_smaller t (after_run u l) = drop_smaller t l.
Proof.
  intros Hu. induction l as [|p l IH]; [done|]. cbn [after_run drop_smaller].
  case_bool_decide as E; [|done]. rewrite IH. by rewrite E, bool_decide_eq_false_2.
Qed.

(** The versions of keys from [t] on. *)
Definition versions_from (t : bytes) (vs : list version) : list version :=
  base.filter (fun v => ble t (v_key v)) vs.

Lemma follows_key v w : follows v w -> ble (v_key v) (v_key w).
Proof. intros H. apply ble_lteq. destruct H as [?|[? _]]; auto. Qed.

Lemma drop_smaller_enc t vs :
  StronglySorted follows vs -> drop_smaller t (enc <$> vs) = enc <$> versions_from t vs.
Proof.
  unfold versions_from. induction 1 as [|v vs Hs IH Hf]; [done|]. rewrite fmap_cons, filter_cons. cbn [drop_smaller].
  change (enc v).1 with (ver_ikey v). unfold ver_ikey. rewrite !UserKey_Make.
  case_bool_decide as E; [|by rewrite decide_False]. rewrite decide_True by done.
  rewrite fmap_cons. f_equal. f_equal. symmetry. clear IH Hs.
  induction Hf as [|w vs Hw _ IH]; [done|]. rewrite filter_cons, decide_True, IH; [done|].
  eapply ble_trans; [exact E|by apply follows_key].
Qed.

(** The key the iterator seeks is at or before every version of a key from the
    target on, unless the target is a proper prefix of that key. *)
Lemma seek_key_le t v :
  ver_ok v -> v_key v = t \/ ~ t `prefix_of` v_key v -> ble t (v_key v) ->
  ble (MakeInternalKey t DBIterator.maxSeqNum KindSet) (ver_ikey v).
Proof.
  intros Hv Ht Hle. destruct (ver_ok_seq v Hv) as [H1 H2]. unfold ver_ikey.
  destruct Ht as [->|Ht].
  - unfold ble. rewrite order_same; [|unfold seq_ok, DBIterator.maxSeqNum; lia|unfold kind_ok, KindSet; lia|done|done].
    apply Z.compare_le_iff. destruct Hv as [Hs Hk]. unfold stamp, DBIterator.maxSeqNum, KindSet, KindDelete in *. lia.
  - unfold ble in *. rewrite order_unrelated; [done|]. split; [done|].
    intros [r E]. apply Ht. rewrite E in Hle. pose proof (ble_app_r (v_key v) r) as Hr.
    exists []. rewrite app_nil_r. rewrite E. apply ble_antisym; [exact Hr|exact Hle].
Qed.

Lemma Forall_filter {A} (Q P : A -> Prop) `{!forall x, Decision (P x)} l :
  Forall Q l -> Forall Q (base.filter P l).
Proof. rewrite !Forall_forall. intros HQ x [_ Hx]%list_elem_of_filter. by apply HQ. Qed.

Lemma StronglySorted_filter {A} (R : A -> A -> Prop) (P : A -> Prop) `{!forall x, Decision (P x)} l :
  StronglySorted R l -> StronglySorted R (base.filter P l).
Proof.
  induction 1 as [|x l Hs IH Hx]; [constructor|]. rewrite filter_cons. case_decide; [|done].
  constructor; [done|by apply Forall_filter].
Qed.

Lemma drop_smaller_seek t vs :
  Forall ver_ok vs -> StronglySorted follows vs ->
  Forall (fun v => v_key v = t \/ ~ t `prefix_of` v_key v) vs ->
  drop_smaller t (suffix_from (MakeInternalKey t DBIterator.maxSeqNum KindSet) (enc <$> vs)) =
    enc <$> versions_from t vs.
Proof.
  intros Hok Hs Ht. set (sk := MakeInternalKey _ _ _).
  assert (E : suffix_from sk (enc <$> vs) = enc <$> base.filter (fun v => ble sk (ver_ikey v)) vs).
  { unfold suffix_from. clear. induction vs as [|v vs IH]; [done|].
    rewrite fmap_cons, !filter_cons. change (enc v).1 with (ver_ikey v). rewrite IH. by case_decide. }
  rewrite E, drop_smaller_enc by by apply StronglySorted_filter.
  f_equal. unfold versions_from. rewrite list_filter_filter. clear E Hs.
  induction Hok as [|v vs Hv _ IH]; [done|]. apply Forall_cons in Ht as [Hvt Ht].
  rewrite !filter_cons, IH by done. destruct (decide (ble t (v_key v))) as [Hle|Hle].
  - by rewrite decide_True by (split; [done|by apply seek_key_le]).
  - by rewrite decide_False by tauto.
Qed.

(** A key that does not occur may be forgotten. *)
Lemma shown_fresh u vs :
  Forall ver_ok vs -> Forall (fun v => v_key v <> u) vs -> shown (Some u) (enc <$> vs) = shown None (enc <$> vs).
Proof.
  intros Hok Hu. destruct vs as [|v vs]; [done|]. apply Forall_cons in Hok as [Hv _].
  apply Forall_cons in Hu as [Hu _]. rewrite fmap_cons, !shown_enc by done.
  by rewrite bool_decide_eq_false_2 by congruence.
Qed.

(** What is shown from a key on is what is shown, from that key on. *)
Lemma shown_from t vs last :
  Forall ver_ok vs -> StronglySorted follows vs ->
  (forall u0, last = Some u0 -> Forall (fun v => ble u0 (v_key v)) vs) ->
  shown last (enc <$> versions_from t vs) = suffix_from t (shown last (enc <$> vs)).
Proof.
  intros Hok Hs. revert last. unfold versions_from, suffix_from.
  induction Hs as [|v vs Hs IH Hf]; intros last Hle; [done|].
  apply Forall_cons in Hok as [Hv Hok]. specialize (IH Hok).
  assert (Hge : Forall (fun w => ble (v_key v) (v_key w)) vs).
  { eapply Forall_impl; [exact Hf|]. intros w. apply follows_key. }
  pose proof (IH (Some (v_key v)) ltac:(by intros ? [= <-])) as IHv.
  rewrite filter_cons, fmap_cons, (shown_enc _ v) by done.
  destruct (decide (ble t (v_key v))) as [Ht|Ht].
  - rewrite fmap_cons, shown_enc by done.
    destruct (bool_decide_reflect (last = Some (v_key v))) as [->|_]; [exact IHv|].
    destruct (v_kind v =? KindSet); [|exact IHv]. by rewrite filter_cons, decide_True, IHv.
  - assert (Hfresh : forall u, ~ ble t u -> shown (Some u) (enc <$> base.filter (fun w => ble t (v_key w)) vs) =
      shown None (enc <$> base.filter (fun w => ble t (v_key w)) vs)).
    { intros u Hu. apply shown_fresh; [by apply Forall_filter|]. apply Forall_forall.
      intros w [Hw _]%list_elem_of_filter Eq. by rewrite Eq in Hw. }
    rewrite Hfresh in IHv by done.
    assert (Hlast : shown last (enc <$> base.filter (fun w => ble t (v_key w)) vs) =
      shown None (enc <$> base.filter (fun w => ble t (v_key w)) vs)).
    { destruct last as [u|]; [|done]. apply Hfresh. intros Hu. apply Ht. eapply ble_trans; [exact Hu|].
      specialize (Hle u eq_refl). by apply Forall_cons in Hle as [Hle _]. }
    rewrite Hlast. destruct (bool_decide_reflect (last = Some (v_key v))) as [->|_].
    + rewrite <- IHv. done.
    + destruct (v_kind v =? KindSet); [|exact IHv]. by rewrite filter_cons, decide_False.
Qed.

(** ** Sources with settled keys *)

Section settled.
Context {S I : Type} `{IteratorLaws S I} {buffers : KeyBuffers I}.

Context (settled : I -> Prop).
Context (settled_move : forall s i s' i' ok, settled i -> it_Next s i = Some (s', i', ok) -> settled i').
Context (settled_fate : forall i i' k, settled i -> settled i' -> fate i i' <> Overwritten k).

Definition all_settled (m : MergeIterator I) : Prop := Forall settled (iters m).

Lemma Next_loop_settled fuel s m k s' m' :
  all_settled m -> MergeIterator.Next_loop fuel s m k = Some (s', m') -> all_settled m'.
Proof.
  revert s m. induction fuel as [|fuel IH]; intros s m Hm; cbn [Next_loop];
    destruct (h m) as [|top h']; [by intros [= <- <-]| |by intros [= <- <-]|].
  - destruct (source_Key s (iters m) top); [|done]. cbn [mbind option_bind]. by case_match; [intros [= <- <-]|].
  - destruct (source_Key s (iters m) top); [|done]. cbn [mbind option_bind]. case_match; [by intros [= <- <-]|].
    destruct (iters m !! top) as [it|] eqn:Ei; [|done]. cbn [mbind option_bind].
    destruct (it_Next s it) as [[[s1 it1] ok]|] eqn:En; [|done]. cbn [mbind option_bind].
    intros E. match type of E with mbind _ ?x = _ => destruct x as [h1|]; [|done] end.
    cbn [mbind option_bind] in E. apply IH in E; [done|]. apply Forall_insert; [done|].
    eapply settled_move; [|exact En]. by eapply Forall_lookup_1.
Qed.

Lemma Next_settled s m s' m' ok : all_settled m -> MergeIterator.Next s m = Some (s', m', ok) -> all_settled m'.
Proof.
  intros Hm. unfold MergeIterator.Next. destruct (h m) as [|top h']; [by intros [= <- <- _]|].
  destruct (source_Key s (iters m) top) as [k|]; [|done]. cbn [mbind option_bind].
  destruct (Next_loop _ s m k) as [[s1 m1]|] eqn:E; [|done]. cbn [mbind option_bind]. intros [= <- <- _].
  by eapply Next_loop_settled.
Qed.

Lemma track_settled m m' u : all_settled m -> all_settled m' -> text (track (iters m) (iters m') u) = text u.
Proof.
  intros Hm Hm'. unfold track. destruct (owner u) as [i|]; [|done].
  destruct (iters m !! i) as [it|] eqn:E; [|done]. destruct (iters m' !! i) as [it'|] eqn:E'; [|done].
  destruct (fate it it') as [|k|] eqn:Ef; [done| |done]. exfalso.
  refine (settled_fate it it' k _ _ Ef); eapply Forall_lookup_1; [apply Hm|exact E|apply Hm'|exact E'].
Qed.

(** ** The loops *)

Lemma skipUserKey_spec ls : forall fuel s m u p rest,
  merges s m ls (p :: rest) -> all_settled m -> (length rest < fuel)%nat ->
  exists s' m', skipUserKey fuel s m u = Some (s', m') /\ merges s' m' ls (after_run (text u) rest) /\
    all_settled m'.
Proof.
  induction fuel as [|fuel IH]; intros s m u p rest Hm Hs Hf; [lia|]. cbn [skipUserKey].
  destruct (merges_Next _ _ _ _ _ Hm) as (s1 & m1 & E & _ & Hm1). rewrite E. cbn [mbind option_bind].
  assert (Hs1 : all_settled m1) by (by eapply Next_settled).
  destruct rest as [|q rest].
  - rewrite bool_decide_eq_false_2 by (by intros []). cbn [negb]. by exists s1, m1.
  - rewrite bool_decide_eq_true_2 by done. cbn [negb]. destruct (merges_Key _ _ _ _ _ Hm1) as [-> _].
    cbn [mbind option_bind]. rewrite (track_settled m m1 u Hs Hs1), compareKeys_eq. cbn [after_run].
    destruct (bool_decide_reflect (UserKey q.1 = text u)) as [Eu|Eu]; cbn [negb]; [|by exists s1, m1].
    destruct (IH s1 m1 (track (iters m) (iters m1) u) q rest Hm1 Hs1 ltac:(cbn in Hf; lia))
      as (s2 & m2 & E2 & Hm2 & Hs2).
    rewrite (track_settled m m1 u Hs Hs1) in Hm2. by exists s2, m2.
Qed.

Lemma user_slice_spec s m ls p rest :
  merges s m ls (p :: rest) -> exists u, user_slice s m = Some u /\ text u = UserKey p.1.
Proof.
  intros Hm. unfold user_slice. destruct (merges_Key _ _ _ _ _ Hm) as [-> _]. cbn [mbind option_bind]. by eexists.
Qed.

Lemma compareKeys_ge a b : (0 <=? compareKeys a b) = bool_decide (ble b a).
Proof.
  rewrite Z.leb_antisym, compareKeys_lt. apply eq_bool_prop_intro.
  rewrite bool_decide_spec, <- not_blt. by case_bool_decide.
Qed.

Lemma skip_smaller_spec ls t : forall fuel s m rest,
  merges s m ls rest -> all_settled m -> (length rest <= fuel)%nat ->
  exists s' m', skip_smaller fuel s m t = Some (s', m') /\ merges s' m' ls (drop_smaller t rest) /\ all_settled m'.
Proof.
  induction fuel as [|fuel IH]; intros s m rest Hm Hs Hf; pose proof (merges_Valid _ _ _ _ Hm) as Hv;
    destruct rest as [|p rest]; try (cbn in Hf; lia).
  1, 2: rewrite bool_decide_eq_false_2 in Hv by (by intros []); cbn [skip_smaller]; rewrite Hv; by exists s, m.
  rewrite bool_decide_eq_true_2 in Hv by done. cbn [skip_smaller]. rewrite Hv.
  destruct (user_slice_spec _ _ _ _ _ Hm) as (u & -> & Hu). cbn [mbind option_bind].
  rewrite compareKeys_ge, Hu. cbn [drop_smaller].
  destruct (bool_decide_reflect (ble t (UserKey p.1))) as [Hle|Hle]; [by exists s, m|].
  destruct (skipUserKey_spec ls (Datatypes.S fuel) s m u p rest Hm Hs ltac:(cbn in Hf; lia))
    as (s1 & m1 & Esk & Hm1 & Hs1). rewrite Hu in Hm1. rewrite Esk. cbn [mbind option_bind].
  pose proof (length_after_run (UserKey p.1) rest).
  destruct (IH s1 m1 _ Hm1 Hs1 ltac:(cbn in Hf; lia)) as (s2 & m2 & E2 & Hm2 & Hs2).
  rewrite drop_smaller_after_run in Hm2 by done. by exists s2, m2.
Qed.

Lemma length_drop_smaller t l : (length (drop_smaller t l) <= length l)%nat.
Proof. induction l as [|p l IH]; cbn; [done|]. case_bool_decide; cbn; lia. Qed.

(** The iterator shows the head of [l], or is at the end; at most [n] internal
    pairs are left. *)
Definition displays (s : S) (it : DBIterator I) (ls : list pairs) (n : nat) (l : pairs) : Prop :=
  all_settled (merge it) /\
  match l with
  | [] => valid it = false
  | p :: l => valid it = true /\ key it = p.1 /\ val it = p.2 /\
      exists rest, merges s (merge it) ls rest /\ shown None rest = l /\ (length rest <= n)%nat
  end.

Lemma displays_mono s it ls n n' l : (n <= n')%nat -> displays s it ls n l -> displays s it ls n' l.
Proof.
  intros Hn [Hs Hd]. split; [done|]. destruct l; [done|]. destruct Hd as (? & ? & ? & rest & ? & ? & ?).
  split_and!; [done..|]. exists rest. split_and!; [done..|lia].
Qed.

Lemma findNextVisible_spec ls : forall fuel s it rest,
  merges s (merge it) ls rest -> all_settled (merge it) -> (length rest <= fuel)%nat ->
  exists s' it', findNextVisible fuel s it = Some (s', it', bool_decide (shown None rest <> [])) /\
    displays s' it' ls (length rest) (shown None rest).
Proof.
  induction fuel as [|fuel IH]; intros s it rest Hm Hs Hf; pose proof (merges_Valid _ _ _ _ Hm) as Hv;
    destruct rest as [|p rest]; try (cbn in Hf; lia).
  1, 2: rewrite bool_decide_eq_false_2 in Hv by (by intros []); cbn [findNextVisible]; rewrite Hv;
    eexists _, _; split; [by rewrite bool_decide_eq_false_2 by (by intros [])|done].
  rewrite bool_decide_eq_true_2 in Hv by done. cbn [findNextVisible]. rewrite Hv.
  destruct (merges_Key _ _ _ _ _ Hm) as [-> Hval]. cbn [mbind option_bind].
  destruct (user_slice_spec _ _ _ _ _ Hm) as (u & -> & Hu). cbn [mbind option_bind].
  destruct (skipUserKey_spec ls (Datatypes.S fuel) s (merge it) u p rest Hm Hs ltac:(cbn in Hf; lia))
    as (s1 & m1 & Esk & Hm1 & Hs1). rewrite Hu in Hm1.
  rewrite shown_cons, (bool_decide_eq_false_2 (None = _)) by done.
  rewrite <- (shown_after_run (UserKey p.1)). destruct (ParseInternalKey p.1) as [[u0 s0] kind]. cbn [snd].
  destruct (kind =? KindSet).
  - rewrite Hval. cbn [mbind option_bind]. rewrite Esk. cbn [mbind option_bind].
    eexists s1, _. split; [by rewrite bool_decide_eq_true_2|]. split; [done|]. cbn [valid key val fst snd merge].
    split_and!; [done..|]. exists (after_run (UserKey p.1) rest). split_and!; [done..|].
    pose proof (length_after_run (UserKey p.1) rest). cbn. lia.
  - rewrite Esk. cbn [mbind option_bind]. pose proof (length_after_run (UserKey p.1) rest).
    destruct (IH s1 (set_merge it m1) (after_run (UserKey p.1) rest) Hm1 Hs1) as (s2 & it2 & E2 & Hd);
      [cbn in Hf; lia|]. exists s2, it2. split; [exact E2|]. eapply displays_mono; [|exact Hd]. cbn. lia.
Qed.

Lemma Next_displays ls fuel s it n p l :
  displays s it ls n (p :: l) -> (n <= fuel)%nat ->
  exists s' it', Next fuel s it = Some (s', it', bool_decide (l <> [])) /\ displays s' it' ls n l.
Proof.
  intros (Hs & Hv & _ & _ & rest & Hm & <- & Hn) Hf. unfold Next. rewrite Hv. cbn [negb].
  rewrite (merges_Valid _ _ _ _ Hm). destruct (bool_decide_reflect (rest <> [])) as [Hne|Hne]; cbn [negb].
  - destruct (findNextVisible_spec ls fuel s it rest Hm Hs ltac:(lia)) as (s' & it' & E & Hd).
    exists s', it'. split; [exact E|]. by eapply displays_mono.
  - destruct rest; [|by destruct Hne]. exists s, (set_valid it false).
    by rewrite bool_decide_eq_false_2 by (by intros []).
Qed.

Lemma collect_displays ls fuel n : forall l rounds s it,
  displays s it ls n l -> (length l <= rounds)%nat -> (n <= fuel)%nat ->
  exists s', collect rounds fuel s it = Some (s', l).
Proof.
  induction l as [|p l IH]; intros rounds s it Hd Hr Hf.
  - destruct Hd as [_ Hv]. exists s. destruct rounds; cbn [collect]; by rewrite Hv.
  - destruct rounds as [|rounds]; [cbn in Hr; lia|].
    destruct (Next_displays ls fuel s it n p l Hd Hf) as (s1 & it1 & E & Hd1).
    destruct Hd as (_ & Hv & Hk & Hval & _). cbn [collect]. rewrite Hv, E. cbn [mbind option_bind].
    destruct (IH rounds s1 it1 Hd1 ltac:(cbn in Hr; lia) Hf) as (s2 & ->). cbn [mbind option_bind].
    exists s2. rewrite Hk, Hval. by destruct p.
Qed.

Lemma position_settled move its s s' m :
  (forall s i s' i' ok, settled i -> move s i = Some (s', i', ok) -> settled i') ->
  Forall settled its -> position move s [] its [] = Some (s', m) -> all_settled m.
Proof.
  intros Hmove. assert (Hpos : forall todo s done h s' m', Forall settled done -> Forall settled todo ->
    position move s done todo h = Some (s', m') -> all_settled m').
  { clear s s' m its. induction todo as [|i todo IH]; intros s done h s' m' Hd Ht; cbn [position];
      [by intros [= <- <-]|].
    apply Forall_cons in Ht as [Hi Ht]. destruct (move s i) as [[[s1 i1] ok]|] eqn:E; [|done]. cbn [mbind option_bind].
    intros E2. match type of E2 with mbind _ ?x = _ => destruct x as [h1|]; [|done] end. cbn [mbind option_bind] in E2.
    eapply IH; [|exact Ht|exact E2]. apply Forall_app; split; [done|]. constructor; [|done]. by eapply Hmove. }
  intros Hits E. by apply (Hpos its s [] [] s' m).
Qed.

Lemma First_settled s its s' m ok :
  (forall s i s' i' ok, settled i -> it_First s i = Some (s', i', ok) -> settled i') ->
  Forall settled its -> MergeIterator.First s (mkMerge its []) = Some (s', m, ok) -> all_settled m.
Proof.
  intros Hmove Hits. unfold MergeIterator.First. cbn [iters].
  destruct (position it_First s [] its []) as [[s1 m1]|] eqn:E; [|done]. cbn [mbind option_bind].
  intros [= <- <- _]. by eapply position_settled.
Qed.

Lemma SeekGE_settled s its s' m ok t :
  (forall s i s' i' ok, settled i -> it_SeekGE s i t = Some (s', i', ok) -> settled i') ->
  Forall settled its -> MergeIterator.SeekGE s (mkMerge its []) t = Some (s', m, ok) -> all_settled m.
Proof.
  intros Hmove Hits. unfold MergeIterator.SeekGE. cbn [iters].
  destruct (position _ s [] its []) as [[s1 m1]|] eqn:E; [|done]. cbn [mbind option_bind].
  intros [= <- <- _]. eapply position_settled; [|exact Hits|exact E]. exact Hmove.
Qed.

(** ** The two ways to start *)

Lemma First_collects ls fuel s its ms :
  (forall s i s' i' ok, settled i -> it_First s i = Some (s', i', ok) -> settled i') ->
  steady s -> Forall2 (on s) its ls -> Forall settled its -> (length (merged ls) <= fuel)%nat ->
  let r := shown None (merged ls) in
  exists s1 it s2,
    First fuel s (mkDBIterator (NewMergeIterator its) [] [] false ms) = Some (s1, it, bool_decide (r <> [])) /\
    collect (length r) fuel s1 it = Some (s2, r).
Proof.
  intros Hfirst Hs Hon Hset Hfuel r.
  destruct (First_merges s its ls [] Hs Hon) as (s1 & m & E & _ & Hm).
  assert (Hm' : all_settled m) by (by eapply First_settled).
  unfold First, NewMergeIterator. cbn [merge]. rewrite E. cbn [mbind option_bind].
  set (it0 := set_merge (mkDBIterator (mkMerge its []) [] [] false ms) m).
  destruct (bool_decide_reflect (merged ls <> [])) as [Hne|Hne]; cbn [negb].
  - destruct (findNextVisible_spec ls fuel s1 it0 (merged ls) Hm Hm' Hfuel) as (s2 & it2 & E2 & Hd).
    destruct (collect_displays ls fuel _ r (length r) s2 it2 Hd ltac:(done) Hfuel) as (s3 & E3).
    by exists s2, it2, s3.
  - assert (Er : r = []) by (unfold r; destruct (merged ls); [done|by destruct Hne]). rewrite Er.
    exists s1, (set_valid it0 false), s1. by rewrite bool_decide_eq_false_2 by (by intros []).
Qed.

Lemma SeekGE_collects ls fuel s its ms t :
  (forall s i s' i' ok k, settled i -> it_SeekGE s i k = Some (s', i', ok) -> settled i') ->
  steady s -> Forall2 (on s) its ls -> Forall settled its -> (length (merged ls) <= fuel)%nat ->
  let r := shown None (drop_smaller t (suffix_from (MakeInternalKey t DBIterator.maxSeqNum KindSet) (merged ls))) in
  exists s1 it s2,
    SeekGE fuel s (mkDBIterator (NewMergeIterator its) [] [] false ms) t = Some (s1, it, bool_decide (r <> [])) /\
    collect (length r) fuel s1 it = Some (s2, r).
Proof.
  intros Hseek Hs Hon Hset Hfuel r. set (sk := MakeInternalKey t DBIterator.maxSeqNum KindSet) in *.
  destruct (SeekGE_merges s its ls [] sk Hs Hon) as (s1 & m & E & _ & Hm).
  assert (Hm' : all_settled m).
  { eapply SeekGE_settled; [|exact Hset|exact E]. intros s0 i s0' i' ok0. apply Hseek. }
  unfold SeekGE, NewMergeIterator. cbn [merge]. fold sk. rewrite E. cbn [mbind option_bind].
  set (it0 := mkDBIterator (mkMerge its []) [] [] false ms).
  set (l := suffix_from sk (merged ls)) in *.
  assert (Hl : (length l <= fuel)%nat) by (unfold l, suffix_from; pose proof (length_filter (fun p => ble sk p.1) (merged ls)); lia).
  assert (Hstop : r = [] -> forall s m, exists s1 it s2,
    Some (s, set_valid (set_merge it0 m) false, false) = Some (s1, it, bool_decide (r <> [])) /\
    collect (length r) fuel s1 it = Some (s2, r)).
  { intros -> s0 m0. exists s0, (set_valid (set_merge it0 m0) false), s0.
    by rewrite bool_decide_eq_false_2 by (by intros []). }
  destruct (bool_decide_reflect (l <> [])) as [Hne|Hne]; cbn [negb].
  2:{ apply Hstop. unfold r. destruct l; [done|by destruct Hne]. }
  destruct (skip_smaller_spec ls t fuel s1 m l Hm Hm' Hl) as (s2 & m2 & -> & Hm2 & Hs2). cbn [mbind option_bind].
  pose proof (length_drop_smaller t l) as Hdl.
  rewrite (merges_Valid _ _ _ _ Hm2). destruct (bool_decide_reflect (drop_smaller t l <> [])) as [Hd|Hd]; cbn [negb].
  2:{ apply Hstop. unfold r. destruct (drop_smaller t l); [done|by destruct Hd]. }
  destruct (findNextVisible_spec ls fuel s2 (set_merge it0 m2) _ Hm2 Hs2 ltac:(lia)) as (s3 & it3 & E3 & Hdis).
  destruct (collect_displays ls fuel _ r (length r) s3 it3 Hdis ltac:(done) ltac:(lia)) as (s4 & E4).
  by exists s3, it3, s4.
Qed.
End settled.

(** C17: Iteration.  Over sources whose key buffers stay as they are
    ([settled]: memtables, whose moves never write a key buffer again), which
    hold the versions [vs] with no user key a proper prefix of another, the
    database iterator goes through user keys in order, and the value it shows
    for a key, or its absence, is what a read of the newest versions must
    answer; tombstones hide what is older.  Started with [First] it shows all of
    this list [r]; started with [SeekGE] at a target that is not a proper prefix
    of a stored key it shows exactly the part of [r] from the target on
    ([seek_passes_longer_key] in DBLimits.v is a run beyond the condition). *)
Theorem db_iteration {S I} `{IteratorLaws S I} {buffers : KeyBuffers I} (settled : I -> Prop)
    (s : S) (its : list I) (ls : list pairs) (vs : list version) (ms : list nat) (fuel : nat) :
  (forall s i s' i' ok, settled i -> it_Next s i = Some (s', i', ok) -> settled i') ->
  (forall s i s' i' ok, settled i -> it_First s i = Some (s', i', ok) -> settled i') ->
  (forall s i s' i' ok k, settled i -> it_SeekGE s i k = Some (s', i', ok) -> settled i') ->
  (forall i i' k, settled i -> settled i' -> fate i i' <> Overwritten k) ->
  steady s -> Forall2 (on s) its ls -> Forall settled its -> (length (merged ls) <= fuel)%nat ->
  Forall ver_ok vs -> prefix_free (v_key <$> vs) -> merged ls ≡ₚ enc <$> vs ->
  let r := shown None (merged ls) in
  let new := mkDBIterator (NewMergeIterator its) [] [] false ms in
  ascending r /\ (forall u, answers vs u DBIterator.maxSeqNum (assoc u r)) /\
  (exists s1 it s2, First fuel s new = Some (s1, it, bool_decide (r <> [])) /\
    collect (length r) fuel s1 it = Some (s2, r)) /\
  (forall target, Forall (fun v => v_key v = target \/ ~ target `prefix_of` v_key v) vs ->
    let rt := suffix_from target r in
    exists s1 it s2, SeekGE fuel s new target = Some (s1, it, bool_decide (rt <> [])) /\
      collect (length rt) fuel s1 it = Some (s2, rt)).
Proof.
  intros Hnext Hfirst Hseek Hfate Hs Hon Hset Hfuel Hok Hpf Hp r new.
  assert (Ha : ascending (merged ls)).
  { apply merged_ascending. clear -Hon. induction Hon; constructor; [by eapply on_ascending|done]. }
  destruct (shown_answers vs (merged ls) Hok Hpf Hp Ha) as [H1 H2]. split; [done|]. split; [done|].
  split; [by eapply First_collects|]. intros t Ht rt.
  destruct (sorted_versions vs (merged ls) Hok Hpf Hp Ha) as (vs' & Hp' & El & Hsort).
  assert (Hok' : Forall ver_ok vs') by (by rewrite Hp').
  assert (Ert : rt = shown None (drop_smaller t (suffix_from (MakeInternalKey t DBIterator.maxSeqNum KindSet) (merged ls)))).
  { unfold rt, r. rewrite El, drop_smaller_seek by (done || by rewrite Hp'). symmetry. by apply shown_from. }
  rewrite Ert. by eapply SeekGE_collects.
Qed.
