(* ===== verification/DB.v ===== *)
(** The database ([pkg/lsm/lsm.go]): opening, the write path into the active
    memtable, the read path through memtables and tables, snapshots, iterators
    and closing.  Flushing and compaction are in Flush.v and Compaction.v.

    Methods run one after the other here, except where the code has parts
    between which others can run: those of [NewSnapshot] and of a write are
    definitions of their own.  Memtables are places in the store's list, shared
    by pointer.  The height source of the skiplist ([rnd]) and what the disk
    does are arguments. *)
From S2P Require Import Prelude SliceSort Binary ByteOrder Io Block Cache CacheSpec CacheInterface Format TableWriter TableReader Arena Skiplist InternalKey Memtable Version Manifest Heap Merged MergeIterator Sources DBIterator.

#[local] Open Scope Z_scope.

(** ** State *)

Definition DefaultMemtableSize : Z := 64 * 1024 * 1024.
Definition DefaultBlockCacheSize : Z := 128 * 1024 * 1024.

Record Options : Type := mkOptions {
  MemtableSize : Z;
  TableOptions : WriterOptions;
  BlockCacheSize : Z }.

Definition ensureDefaults (o : Options) : Options :=
  mkOptions (if MemtableSize o <=? 0 then DefaultMemtableSize else MemtableSize o)
    (if BlockSize (TableOptions o) <=? 0 then DefaultWriterOptions else TableOptions o)
    (if BlockCacheSize o <=? 0 then DefaultBlockCacheSize else BlockCacheSize o).

Inductive lsm_error : Type :=
| ErrClosed
| ErrNotFound
| ErrMem (e : add_error)
| ErrOpenTable (fileNum : Z) (e : reader_error)
| ErrRecover (e : manifest_error)
| ErrCloseManifest (e : io_error).

(** [files] is the directory without the manifest; [tableCache] is nil after
    [Close]; a pending signal on a channel of capacity one is a flag. *)
Record DB : Type := mkDB {
  files : gmap bytes bytes;
  opts : Options;
  versions : VersionSet;
  store : Store BlockCache;
  mem : nat;
  imm : list nat;
  seqNum : Z;
  tableCache : option (gmap Z Reader);
  flushCh : bool;
  compactCh : bool;
  closed : bool }.

Definition set_files (db : DB) (fs : gmap bytes bytes) : DB :=
  mkDB fs (opts db) (versions db) (store db) (mem db) (imm db) (seqNum db) (tableCache db)
    (flushCh db) (compactCh db) (closed db).
Definition set_versions (db : DB) (vs : VersionSet) : DB :=
  mkDB (files db) (opts db) vs (store db) (mem db) (imm db) (seqNum db) (tableCache db)
    (flushCh db) (compactCh db) (closed db).
Definition set_store (db : DB) (s : Store BlockCache) : DB :=
  mkDB (files db) (opts db) (versions db) s (mem db) (imm db) (seqNum db) (tableCache db)
    (flushCh db) (compactCh db) (closed db).
Definition set_seqNum (db : DB) (n : Z) : DB :=
  mkDB (files db) (opts db) (versions db) (store db) (mem db) (imm db) n (tableCache db)
    (flushCh db) (compactCh db) (closed db).
Definition set_tableCache (db : DB) (t : option (gmap Z Reader)) : DB :=
  mkDB (files db) (opts db) (versions db) (store db) (mem db) (imm db) (seqNum db) t
    (flushCh db) (compactCh db) (closed db).
Definition set_imm (db : DB) (l : list nat) : DB :=
  mkDB (files db) (opts db) (versions db) (store db) (mem db) l (seqNum db) (tableCache db)
    (flushCh db) (compactCh db) (closed db).

Definition signalFlush (db : DB) : DB :=
  mkDB (files db) (opts db) (versions db) (store db) (mem db) (imm db) (seqNum db) (tableCache db)
    true (compactCh db) (closed db).
Definition signalCompaction (db : DB) : DB :=
  mkDB (files db) (opts db) (versions db) (store db) (mem db) (imm db) (seqNum db) (tableCache db)
    (flushCh db) true (closed db).

Definition take_flushCh (db : DB) : DB :=
  mkDB (files db) (opts db) (versions db) (store db) (mem db) (imm db) (seqNum db) (tableCache db)
    false (compactCh db) (closed db).
Definition take_compactCh (db : DB) : DB :=
  mkDB (files db) (opts db) (versions db) (store db) (mem db) (imm db) (seqNum db) (tableCache db)
    (flushCh db) false (closed db).

(** [fmt.Sprintf("%06d.sst", fileNum)]. *)
Definition sstablePath (fileNum : Z) : bytes :=
  let d := digits fileNum in replicate (6 - length d) x30 ++ d ++ [x2e; x73; x73; x74].

Definition set_mem (s : Store BlockCache) (m : nat) (mt : Memtable) : Store BlockCache :=
  mkStore (<[m := mt]> (mems s)) (blocks s).

(** Reference counts.  [Get] takes its references and gives them back before
    it returns, which leaves no trace and is left out. *)
Definition ref_mems (db : DB) (ms : list nat) : DB :=
  let s := store db in
  set_store db (mkStore (foldl (fun l m => alter Memtable.Ref m l) (mems s) ms) (blocks s)).
Definition unref_mems (db : DB) (ms : list nat) : DB :=
  let s := store db in
  set_store db (mkStore (foldl (fun l m => alter (fun mt => (Memtable.Unref mt).1) m l) (mems s) ms) (blocks s)).

Section db.
Context {sorter : SliceSorter}.

(** ** Opening *)

(** The directory's tables [fs] and what opening the manifest finds. *)
Definition Open (fs : gmap bytes bytes) (manifest : opened_file) (create : option Z) (o : Options)
    : option (lsm_error + DB) :=
  let o := ensureDefaults o in
  match recover newVersionSet manifest create with
  | Panic => None
  | Err e => Some (inl (ErrRecover e))
  | Ok vs =>
      m ← Memtable.New (MemtableSize o);
      Some (inr (mkDB fs o vs (mkStore [m] (Some (NewBlockCache (BlockCacheSize o)))) 0 [] (lastSeqNum vs)
        (Some ∅) false false false))
  end.

(** ** The write path *)

(** [rotateMemtable]: the active memtable is sealed, a new one takes its
    place. *)
Definition rotateMemtable (db : DB) : option DB :=
  m ← Memtable.New (MemtableSize (opts db));
  let s := mkStore (mems (store db) ++ [m]) (blocks (store db)) in
  Some (mkDB (files db) (opts db) (versions db) s (length (mems (store db))) (imm db ++ [mem db]) (seqNum db)
    (tableCache db) (flushCh db) (compactCh db) (closed db)).

(** [db.mem.Set(...)] or [db.mem.Delete(...)]. *)
Definition on_mem (db : DB) (f : Memtable -> option (Memtable * result add_error unit))
    : option (DB * result add_error unit) :=
  m ← mems (store db) !! mem db;
  '(m, r) ← f m;
  Some (set_store db (set_mem (store db) (mem db) m), r).

(** [Set] and [Delete] differ in the insertion only.  Without the lock they take
    a sequence number and store it for the manifest ... *)
Definition take_seqNum (db : DB) : DB * Z :=
  let seq := u64 (seqNum db + 1) in (set_seqNum db seq, seq).
Definition store_lastSeqNum (db : DB) (seq : Z) : DB := set_versions db (set_lastSeqNum (versions db) seq).

(** ... and insert under the lock; a failed insertion seals the memtable and is
    tried again. *)
Definition insert_locked (db : DB) (insert : Memtable -> Z -> option (Memtable * result add_error unit)) (seq : Z)
    : option (DB * option lsm_error) :=
  '(db, r) ← on_mem db (fun m => insert m seq);
  '(db, r) ← match r with
             | Err _ => db ← rotateMemtable db; on_mem db (fun m => insert m seq)
             | r => Some (db, r)
             end;
  let shouldFlush := 0 <? blen (imm db) in
  let db := if shouldFlush then signalFlush db else db in
  match r with
  | Ok _ => Some (db, None)
  | Err e => Some (db, Some (ErrMem e))
  | Panic => None
  end.

Definition write (db : DB) (insert : Memtable -> Z -> option (Memtable * result add_error unit))
    : option (DB * option lsm_error) :=
  if closed db then Some (db, Some ErrClosed)
  else let '(db, seq) := take_seqNum db in insert_locked (store_lastSeqNum db seq) insert seq.

Definition Set_ (db : DB) (rnd : Z) (key value : bytes) : option (DB * option lsm_error) :=
  write db (fun m seq => Memtable.Set_ m rnd key value seq).
Definition Delete (db : DB) (rnd : Z) (key : bytes) : option (DB * option lsm_error) :=
  write db (fun m seq => Memtable.Delete m rnd key seq).

(** ** The read path *)

(** [None]: not found; [Some (value, kind)] otherwise. *)
Definition getFromMemtable (mt : Memtable) (key : bytes) (seq : Z) : option (option (bytes * Z)) :=
  let seekKey := MakeInternalKey key seq KindSet in
  it ← Memtable.Iterator.SeekGE mt seekKey;
  if negb (Memtable.Iterator.Valid it) then Some None
  else
    u ← Memtable.Iterator.UserKey mt it;
    if negb (compareKeys u key =? 0) then Some None
    else
      v ← Memtable.Iterator.Value mt it;
      k ← Memtable.Iterator.Kind mt it;
      Some (Some (v, k)).

(** The memtables one after the other; the outcome of the first that has the
    key. *)
Fixpoint get_mems (ms : list Memtable) (key : bytes) (seq : Z) : option (option (bytes * Z)) :=
  match ms with
  | [] => Some None
  | m :: ms =>
      r ← getFromMemtable m key seq;
      match r with Some x => Some (Some x) | None => get_mems ms key seq end
  end.

(** [sstable.OpenReader]. *)
Definition OpenReader (fs : gmap bytes bytes) (path : bytes) (fileID : Z) : option (reader_error + Reader) :=
  match fs !! path with
  | None => Some (inl (ErrRead ErrIO))
  | Some c => NewReader c (blen c) fileID
  end.

(** Looking up in a nil map finds nothing, storing in one panics. *)
Definition getTableReader (db : DB) (f : FileMeta) : option (DB * (lsm_error + Reader)) :=
  match tableCache db ≫= fun t => t !! FileNum f with
  | Some rd => Some (db, inr rd)
  | None =>
      r ← OpenReader (files db) (sstablePath (FileNum f)) (FileNum f);
      match r with
      | inl e => Some (db, inl (ErrOpenTable (FileNum f) e))
      | inr rd =>
          t ← tableCache db;
          Some (set_tableCache db (Some (<[FileNum f := rd]> t)), inr rd)
      end
  end.

(** The value, nil when the table does not have the key, and the kind, which
    is zero then. *)
Definition getFromTable (db : DB) (f : FileMeta) (seekKey userKey : bytes)
    : option (DB * (lsm_error + (option bytes * Z))) :=
  '(db, rd) ← getTableReader db f;
  match rd with
  | inl e => Some (db, inl e)
  | inr rd =>
      '(c, it, ok) ← TableReader.SeekGE rd (blocks (store db)) NewIterator seekKey;
      let db := set_store db (mkStore (mems (store db)) c) in
      if negb ok then Some (db, inr (None, 0))
      else
        k ← TableReader.Key it;
        let foundUserKey := UserKey k in
        if negb (compareKeys foundUserKey userKey =? 0) then Some (db, inr (None, 0))
        else
          let '(_, _, kind) := ParseInternalKey k in
          if kind =? KindDelete then Some (db, inr (None, KindDelete))
          else v ← TableReader.Value it; Some (db, inr (Some v, KindSet))
  end.

(** What [getFromVersion] does with the outcome of one table: return, or go
    on. *)
Definition table_outcome (r : lsm_error + (option bytes * Z)) : option (lsm_error + bytes) :=
  match r with
  | inl e => Some (inl e)
  | inr (val, kind) =>
      if kind =? KindDelete then Some (inl ErrNotFound)
      else match val with Some v => Some (inr v) | None => None end
  end.

(** The files of level 0, given newest first. *)
Fixpoint get_L0 (db : DB) (fs : list FileMeta) (seekKey key : bytes)
    : option (DB * option (lsm_error + bytes)) :=
  match fs with
  | [] => Some (db, None)
  | f :: fs =>
      if (compareKeys key (UserKey (SmallestKey f)) <? 0) || (0 <? compareKeys key (UserKey (LargestKey f)))
      then get_L0 db fs seekKey key
      else
        '(db, r) ← getFromTable db f seekKey key;
        match table_outcome r with
        | Some out => Some (db, Some out)
        | None => get_L0 db fs seekKey key
        end
  end.

(** [sort.Search(n, f)]. *)
Fixpoint sort_Search (fuel : nat) (f : Z -> option bool) (i j : Z) : option Z :=
  if i <? j then
    match fuel with
    | O => None
    | S fuel =>
        let h := Z.shiftr (i + j) 1 in
        b ← f h;
        if negb b then sort_Search fuel f (h + 1) j else sort_Search fuel f i h
    end
  else Some i.

(** One level from 1 on. *)
Definition get_level (db : DB) (fs : list FileMeta) (seekKey key : bytes)
    : option (DB * option (lsm_error + bytes)) :=
  idx ← sort_Search (length fs) (fun i => f ← index fs i; Some (0 <=? compareKeys (UserKey (LargestKey f)) key))
          0 (blen fs);
  match index fs idx with
  | None => Some (db, None)
  | Some f =>
      if compareKeys key (UserKey (SmallestKey f)) <? 0 then Some (db, None)
      else
        '(db, r) ← getFromTable db f seekKey key;
        Some (db, table_outcome r)
  end.

Fixpoint get_levels (db : DB) (levels : list (list FileMeta)) (seekKey key : bytes)
    : option (DB * (lsm_error + bytes)) :=
  match levels with
  | [] => Some (db, inl ErrNotFound)
  | fs :: levels =>
      '(db, r) ← get_level db fs seekKey key;
      match r with Some out => Some (db, out) | None => get_levels db levels seekKey key end
  end.

Definition getFromVersion (db : DB) (v : Version) (key : bytes) (seq : Z) : option (DB * (lsm_error + bytes)) :=
  let seekKey := MakeInternalKey key seq KindSet in
  l0 ← Levels v !! 0%nat;
  '(db, r) ← get_L0 db (rev l0) seekKey key;
  match r with
  | Some out => Some (db, out)
  | None => get_levels db (drop 1 (Levels v)) seekKey key
  end.

(** The reading part shared by [DB.Get] and [Snapshot.Get]: the active
    memtable, the sealed ones newest first, then the tables. *)
Definition get_at (db : DB) (m : nat) (imms : list nat) (v : Version) (key : bytes) (seq : Z)
    : option (DB * (lsm_error + bytes)) :=
  ms ← mapM (fun m => mems (store db) !! m) (m :: rev imms);
  r ← get_mems ms key seq;
  match r with
  | Some (val, kind) => Some (db, if kind =? KindDelete then inl ErrNotFound else inr val)
  | None => getFromVersion db v key seq
  end.

Definition Get (db : DB) (key : bytes) : option (DB * (lsm_error + bytes)) :=
  if closed db then Some (db, inl ErrClosed)
  else get_at db (mem db) (imm db) (currentVersion (versions db)) key (seqNum db).

Definition LastAppliedSeqNum (db : DB) : Z := seqNum db.

(** ** Snapshots *)

Record Snapshot : Type := mkSnapshot {
  sn_seqNum : Z;
  sn_version : Version;
  sn_mem : nat;
  sn_imm : list nat;
  sn_closed : bool }.

(** The first part of [NewSnapshot] reads the sequence number and the version,
    the second, under [db.mu], the memtables. *)
Definition NewSnapshot_version (db : DB) : Z * Version := (seqNum db, currentVersion (versions db)).
Definition NewSnapshot_memtables (db : DB) (p : Z * Version) : DB * Snapshot :=
  (ref_mems db (mem db :: imm db), mkSnapshot p.1 p.2 (mem db) (imm db) false).
Definition NewSnapshot (db : DB) : DB * Snapshot := NewSnapshot_memtables db (NewSnapshot_version db).

Definition Snapshot_Get (db : DB) (sn : Snapshot) (key : bytes) : option (DB * (lsm_error + bytes)) :=
  if sn_closed sn then Some (db, inl ErrClosed)
  else get_at db (sn_mem sn) (sn_imm sn) (sn_version sn) key (sn_seqNum sn).

Definition Snapshot_SeqNum (sn : Snapshot) : Z := sn_seqNum sn.
Definition Snapshot_Close (db : DB) (sn : Snapshot) : DB * Snapshot :=
  if sn_closed sn then (db, sn)
  else (unref_mems db (sn_mem sn :: sn_imm sn), mkSnapshot (sn_seqNum sn) (sn_version sn) (sn_mem sn) (sn_imm sn) true).

(** ** Iterators *)

(** Table iterators for the files, in order; a table that cannot be opened is
    left out. *)
Fixpoint table_sources (db : DB) (fs : list FileMeta) : option (DB * list source) :=
  match fs with
  | [] => Some (db, [])
  | f :: fs =>
      '(db, rd) ← getTableReader db f;
      '(db, its) ← table_sources db fs;
      Some (db, match rd with inl _ => its | inr rd => TableSource rd NewIterator :: its end)
  end.

Definition NewIterator (db : DB) : option (DB * DBIterator source) :=
  let held := mem db :: imm db in
  let db := ref_mems db held in
  let v := currentVersion (versions db) in
  let ms := (fun m => MemSource m 0) <$> mem db :: rev (imm db) in
  l0 ← Levels v !! 0%nat;
  '(db, t0) ← table_sources db (rev l0);
  '(db, ts) ← table_sources db (concat (drop 1 (Levels v)));
  Some (db, mkDBIterator (NewMergeIterator (ms ++ t0 ++ ts)) [] [] false held).

Definition Iterator_Close (db : DB) (it : DBIterator source) : DB * DBIterator source :=
  let '(it, ms) := DBIterator.Close it in (unref_mems db ms, it).

(** ** Closing *)

(** [Close] after the background loops have ended. *)
Definition Close_readers (db : DB) : DB * option io_error :=
  let '(vs, e) := Manifest.close (versions db) in
  (set_tableCache (set_versions db vs) None, e).
Definition set_closed (db : DB) : DB :=
  mkDB (files db) (opts db) (versions db) (store db) (mem db) (imm db) (seqNum db) (tableCache db)
    (flushCh db) (compactCh db) true.
End db.

(** ** Key buffers of the sources *)

(** Whether the array that holds the first key has room for the second, longer
    one: up to the allocator. *)
Class Capacity := fits : bytes -> bytes -> bool.

(** Keys of memtables lie in the arena and stay.  A table iterator builds the
    next key of a block in the array of the last one if that is large enough;
    a new block has a new array. *)
#[export] Instance source_buffers {capacity : Capacity} : KeyBuffers source := fun i i' =>
  match i, i' with
  | TableSource _ it, TableSource _ it' =>
      match indexIter it, dataIter it, indexIter it', dataIter it' with
      | Some ii, Some di, Some ii', Some di' =>
          if negb (It.offset ii =? It.offset ii') then Abandoned
          else if It.offset di =? It.offset di' then Kept
          else if (blen (It.key di') <=? blen (It.key di)) || fits (It.key di) (It.key di')
          then Overwritten (It.key di')
          else Abandoned
      | _, _, _, _ => Abandoned
      end
  | _, _ => Kept
  end.
