(* ===== verification/Flush.v ===== *)
(** Flushing ([pkg/lsm/flush.go] and the loops of [pkg/lsm/lsm.go]): a sealed
    memtable is written to a new table of level 0, the table is logged in the
    manifest, and the memtable is dropped.

    What the devices do is an argument, per file number: whether the file can
    be created, how much it takes, and whether syncing it, closing it and
    syncing the manifest after it succeed.  [fuel] bounds the walk over the
    memtable; the number of its entries is enough. *)
From S2P Require Import Prelude SliceSort Binary Io Format Block Cache CacheInterface TableWriter TableReader Arena Skiplist InternalKey Memtable Version Manifest Heap Merged MergeIterator Sources DBIterator DB.

#[local] Open Scope Z_scope.

(** ** Devices *)

Record device : Type := mkDevice {
  d_create : bool;
  d_room : Z;
  d_sync : bool;
  d_close : bool;
  d_log : bool }.

Abbreviation disk := (Z -> device).

Definition good_disk : disk := fun _ => mkDevice true (2 ^ 40) true true true.

(** ** One memtable *)

Inductive flush_error : Type :=
| ErrCreateFile
| ErrAddKey (e : writer_error)
| ErrCloseWriter (e : writer_error)
| ErrSyncFile
| ErrCloseFile.

Definition put_file (db : DB) (path c : bytes) : DB := set_files db (<[path := c]> (files db)).
Definition remove_file (db : DB) (path : bytes) : DB := set_files db (delete path (files db)).

(** [CreateWriter] of [sstable/writer.go]: a writer on a new file, when the
    device lets it be created. *)
Definition CreateWriter (d : device) (o : WriterOptions) : option (TableWriter.Writer File) :=
  if d_create d then Some (NewWriter (mkFile [] 0 (d_room d) true) o) else None.

(** The loop over the memtable, from position [it] on, until the first
    error. *)
Fixpoint flush_loop (fuel : nat) (m : Memtable) (it : Z) (w : Writer File)
    : option (Writer File * option writer_error) :=
  if Memtable.Iterator.Valid it then
    match fuel with
    | O => None
    | S fuel =>
        k ← Memtable.Iterator.InternalKey m it;
        v ← Memtable.Iterator.Value m it;
        '(w, e) ← TableWriter.Add w k v;
        match e with
        | Some e => Some (w, Some e)
        | None => it ← Memtable.Iterator.Next m it; flush_loop fuel m it w
        end
    end
  else Some (w, None).

Definition flush (fuel : nat) (d : disk) (db : DB) (m : Memtable) : option (DB * (flush_error + FileMeta)) :=
  let '(vs, fileNum) := allocFileNum (versions db) in
  let db := set_versions db vs in
  let path := sstablePath fileNum in
  if negb (d_create (d fileNum)) then Some (db, inl ErrCreateFile)
  else
    let w := NewWriter (mkFile [] 0 (d_room (d fileNum)) true) (TableOptions (opts db)) in
    it ← Memtable.Iterator.First m;
    '(w, e) ← flush_loop fuel m it w;
    match e with
    | Some e => Some (remove_file db path, inl (ErrAddKey e))
    | None =>
        '(w, r) ← TableWriter.Close w;
        match r with
        | inl e => Some (remove_file db path, inl (ErrCloseWriter e))
        | inr meta =>
            let db := put_file db path (content (TableWriter.w w)) in
            if negb (d_sync (d fileNum)) then Some (db, inl ErrSyncFile)
            else if negb (d_close (d fileNum)) then Some (db, inl ErrCloseFile)
            else Some (db, inr (mkFileMeta fileNum 0 (Format.Size meta) (Format.SmallestKey meta) (Format.LargestKey meta)))
        end
    end.

(** ** The loop *)

Section flush.
Context {sorter : SliceSorter}.

(** The two critical sections after a table is written: logging it, and
    dropping the memtable, which by then is in a table. *)
Definition log_flushed (d : disk) (db : DB) (fm : FileMeta) : option (DB * bool) :=
  '(vs, e) ← logAndApply (d_log (d (FileNum fm))) (versions db) (mkEdit [fm] [] 0 0 false false);
  Some (set_versions db vs, match e with None => true | Some _ => false end).
Definition drop_flushed (db : DB) (i : nat) : DB :=
  signalCompaction (unref_mems (set_imm db (drop 1 (imm db))) [i]).

(** One round of [doFlush]: the database and whether the loop goes on.  The
    oldest sealed memtable leaves the list only when everything succeeded. *)
Definition flush_round (fuel : nat) (d : disk) (db : DB) : option (DB * bool) :=
  match imm db with
  | [] => Some (db, false)
  | i :: _ =>
      m ← mems (store db) !! i;
      '(db, r) ← flush fuel d db m;
      match r with
      | inl _ => Some (db, false)
      | inr fm =>
          '(db, logged) ← log_flushed d db fm;
          Some (if (logged : bool) then (drop_flushed db i, true) else (db, false))
      end
  end.

Fixpoint doFlush_loop (rounds fuel : nat) (d : disk) (db : DB) : option DB :=
  match rounds with
  | O => None
  | S rounds =>
      '(db, go) ← flush_round fuel d db;
      if (go : bool) then doFlush_loop rounds fuel d db else Some db
  end.

(** Every round but the last shortens the list of sealed memtables. *)
Definition doFlush (fuel : nat) (d : disk) (db : DB) : option DB :=
  doFlush_loop (S (length (imm db))) fuel d db.

(** [flushLoop] when the signal is there: it is taken and [doFlush] runs. *)
Definition flushLoop_signal (fuel : nat) (d : disk) (db : DB) : option DB :=
  if flushCh db then doFlush fuel d (take_flushCh db) else Some db.

(** [Close]: the background loops end, the flush loop with a last [doFlush];
    then the tables and the manifest are closed.  The active memtable is not
    flushed. *)
Definition Close (fuel : nat) (d : disk) (db : DB) : option (DB * option lsm_error) :=
  if closed db then Some (db, Some ErrClosed)
  else
    db ← doFlush fuel d (set_closed db);
    let '(db, e) := Close_readers db in
    Some (db, ErrCloseManifest <$> e).
End flush.
