(* ===== verification/FlushSpec.v ===== *)
(** What a flush does: the new file of level 0 is a table of exactly the
    memtable's pairs, and nothing is dropped before that table is logged. *)
From stdpp Require Import sorting.
From S2P Require Wal WalNames.
From S2P Require Import Prelude SliceSort Binary ByteOrder Sorted Io Format Block BlockSpec Cache CacheSpec CacheInterface TableWriter TableWriterSpec TableReader TableSpec TableFile Arena Skiplist SkiplistSpec InternalKey Memtable Version VersionSpec Manifest Heap Merged MergeIterator Sources DBIterator DB Flush.

#[local] Open Scope Z_scope.

(** ** File names *)

Lemma sstablePath_inj n m : u64_ok n -> u64_ok m -> sstablePath n = sstablePath m -> n = m.
Proof.
  unfold u64_ok, sstablePath. intros Hn Hm E. rewrite !app_assoc in E. apply app_inv_tail in E.
  assert (H : forall k, 0 <= k < 2 ^ 64 ->
    foldl Wal.parse_digit (Some 0) (replicate (6 - length (digits k)) x30 ++ digits k) = Some k).
  { intros k Hk. rewrite WalNames.parse_zeros. apply WalNames.parse_digits; lia. }
  pose proof (H n Hn) as H1. pose proof (H m Hm) as H2. rewrite E in H1. congruence.
Qed.

(** ** One memtable *)

(** A table of these pairs stays within the sizes of the table format. *)
Definition table_fits (o : WriterOptions) (kvs : list (bytes * bytes)) : Prop :=
  weight kvs < 2 ^ 31 /\ blen kvs * bits_of o < 2 ^ 40.

(** The loop adds the pairs the iterator has left. *)
Lemma flush_loop_all m es : rep (skl m) es -> forall rest fuel it w,
  scursor es it rest -> (length rest <= fuel)%nat -> flush_loop fuel m it w = TableWriter.Add_all w rest.
Proof.
  intros Hr rest. induction rest as [|[k v] rest IH]; intros fuel it w Hc Hf.
  - rewrite (scursor_nil _ _ Hc). by destruct fuel.
  - destruct fuel as [|fuel]; [cbn in Hf; lia|].
    destruct (scursor_node _ _ _ _ _ Hr Hc) as (Hne & Hk & Hv & it' & Hn & Hc').
    cbn [flush_loop TableWriter.Add_all]. unfold Memtable.Iterator.Valid, Skiplist.Valid.
    rewrite (proj2 (Z.eqb_neq _ _)) by done. cbn [negb].
    unfold Memtable.Iterator.InternalKey, Memtable.Iterator.Value, Memtable.Iterator.Next.
    rewrite Hk, Hv. cbn [mbind option_bind fst snd].
    destruct (TableWriter.Add w k v) as [[w' [e|]]|]; cbn [mbind option_bind]; [done| |done].
    rewrite Hn. cbn [mbind option_bind]. apply IH; [done|]. cbn in Hf. lia.
Qed.

Lemma bits_of_new {W} `{Io.Writer W} (o : W) opts : BloomBitsPerKey (TableWriter.opts (NewWriter o opts)) = bits_of opts.
Proof. done. Qed.

(** The number a flush or an output of a compaction takes. *)
Definition next_ok (vs : VersionSet) : Prop := 0 <= nextFileNum vs < 2 ^ 64 - 1.
Definition allocated (vs : VersionSet) : VersionSet :=
  mkVersionSet (current vs) (nextFileNum vs + 1) (lastSeqNum vs) (manifestFile vs).

Lemma allocFileNum_ok vs : next_ok vs -> allocFileNum vs = (allocated vs, nextFileNum vs).
Proof.
  unfold next_ok, allocFileNum, allocated. intros H. rewrite !u64_small by (rewrite ?u64_small; lia).
  f_equal. lia.
Qed.

(** The metadata the database keeps of a table. *)
Definition file_meta (n level : Z) (m : TableMeta) : FileMeta :=
  mkFileMeta n level (Format.Size m) (Format.SmallestKey m) (Format.LargestKey m).

(** The file [fm] is in the directory and is the table of the pairs [l]. *)
Definition stored (db : DB) (fm : FileMeta) (l : list (bytes * bytes)) : Prop :=
  SmallestKey fm = default [] (hd_error l.*1) /\ LargestKey fm = last_key [] l /\
  exists c, files db !! sstablePath (FileNum fm) = Some c /\ blen c = Version.Size fm /\
    holds_table c (FileNum fm) l.

Lemma stored_table_file db n level c meta l :
  table_file c meta l -> files db !! sstablePath n = Some c -> stored db (file_meta n level meta) l.
Proof.
  intros Ht Hc. destruct (table_file_meta c meta l Ht) as (Hsz & _ & Hs & Hl). split; [exact Hs|]. split; [exact Hl|].
  exists c. split; [exact Hc|]. split; [symmetry; exact Hsz|]. by eapply table_file_holds.
Qed.

(** A device on which nothing fails. *)
Definition reliable (d : device) : Prop :=
  d_create d = true /\ d_sync d = true /\ d_close d = true /\ d_log d = true /\ table_limit <= d_room d.

Lemma new_writer_failed d o e : reliable d -> ~ failed (NewWriter (mkFile [] 0 (d_room d) true) o) e.
Proof. intros (_ & _ & _ & _ & Hr) [_ Hf]. cbn in Hf. unfold table_limit in *. lia. Qed.

Lemma flush_spec fuel d db m es :
  rep (skl m) es -> (length es <= fuel)%nat -> table_fits (TableOptions (opts db)) (contents es) ->
  next_ok (versions db) ->
  let n := nextFileNum (versions db) in
  exists fs r, flush fuel d db m = Some (set_files (set_versions db (allocated (versions db))) fs, r) /\
    (forall p, p <> sstablePath n -> fs !! p = files db !! p) /\
    (reliable (d n) -> exists fm, r = inr fm) /\
    forall fm, r = inr fm -> exists c meta,
      table_file c meta (contents es) /\ fm = file_meta n 0 meta /\ fs !! sstablePath n = Some c.
Proof.
  intros Hr Hf [Hw Hb] Hn n. unfold flush. rewrite (allocFileNum_ok _ Hn). fold n.
  assert (Hsame : forall fs : gmap bytes bytes, fs = files db -> forall p, p <> sstablePath n -> fs !! p = files db !! p) by (by intros ? ->).
  destruct (d_create (d n)) eqn:Ecr; cbn [negb];
    [|eexists (files db), _; split; [reflexivity|]; split_and!; [by auto|by intros [? _]; congruence|by intros ? [=]]].
  destruct (scursor_First _ _ Hr) as (it & HF & Hc). unfold Memtable.Iterator.First. rewrite HF. cbn [mbind option_bind].
  rewrite (flush_loop_all m es Hr _ _ _ _ Hc) by (unfold contents; by rewrite length_fmap).
  destruct (filling_Add_all _ [] (contents es) (filling_new (d_room (d n)) (TableOptions (opts db))))
    as (w & e & Ha & He); [by apply (rep_contents_sorted _ _ Hr)|exact Hw|].
  pose proof (new_writer_failed (d n) (TableOptions (opts db))) as Hnf.
  change (opts (set_versions db (allocated (versions db)))) with (opts db). rewrite Ha. cbn [mbind option_bind].
  assert (Hdel : forall p, p <> sstablePath n -> delete (sstablePath n) (files db) !! p = files db !! p)
    by (intros p Hp; by rewrite lookup_delete_ne).
  destruct e as [e|]; [eexists _, _; split; [reflexivity|]; split_and!; [by auto|by intros ?%(Hnf e)|by intros ? [=]]|].
  destruct He as [Hfill Ho].
  destruct (filling_Close w (contents es) Hfill Hw) as (w' & res & Ec & Hres); [by rewrite (proj1 Ho), bits_of_new|].
  rewrite Ec. cbn [mbind option_bind]. destruct res as [e|meta].
  { apply (failed_same _ _ _ Ho) in Hres.
    eexists _, _; split; [reflexivity|]; split_and!; [by auto|by intros ?%(Hnf e)|by intros ? [=]]. }
  assert (Hins : forall c p, p <> sstablePath n -> <[sstablePath n := c]> (files db) !! p = files db !! p)
    by (intros c p Hp; by rewrite lookup_insert_ne).
  destruct (d_sync (d n)) eqn:Esy; cbn [negb];
    [|eexists _, _; split; [reflexivity|]; split_and!; [by auto|by intros (_ & ? & _); congruence|by intros ? [=]]].
  destruct (d_close (d n)) eqn:Ecl; cbn [negb];
    [|eexists _, _; split; [reflexivity|]; split_and!; [by auto|by intros (_ & _ & ? & _); congruence|by intros ? [=]]].
  eexists _, _. split; [reflexivity|]. split; [by apply Hins|]. split; [by eexists|]. intros fm [= <-].
  exists (content (TableWriter.w w')), meta. split_and!; [done|done|]. apply lookup_insert_eq.
Qed.

(** ** Logging an edit *)

Section rounds.
Context {sorter : SliceSorter}.

(** The manifest takes [k] more bytes. *)
Definition log_room (vs : VersionSet) (k : Z) : Prop :=
  exists f, manifestFile vs = Some f /\ Io.opened f = true /\ k <= room f.

(** More than the record of an edit takes. *)
Definition edit_weight (edit : VersionEdit) : Z :=
  26 + foldr (fun f n => 51 + blen (SmallestKey f) + blen (LargestKey f) + n) 0 (NewFiles edit) +
  21 * blen (DeletedFiles edit).

Lemma record_weight vs edit : blen (record_bytes (encode (stamped vs edit))) <= edit_weight edit.
Proof.
  unfold record_bytes, encode, edit_weight. cbn [HasLastSeqNum HasNextFileNum stamped NewFiles DeletedFiles].
  rewrite !blen_app, blen_put_le32, !blen_cons.
  pose proof (blen_put_uvarint (LastSeqNum (stamped vs edit))). pose proof (blen_put_uvarint (NextFileNum (stamped vs edit))).
  assert (Hn : forall fs, blen (concat (encode_new <$> fs)) <=
    foldr (fun f n => 51 + blen (SmallestKey f) + blen (LargestKey f) + n) 0 fs).
  { induction fs as [|f fs IH]; [done|]. rewrite fmap_cons. cbn [concat foldr]. unfold encode_new at 1.
    rewrite !blen_app, blen_cons, !blen_app. pose proof (blen_put_uvarint (u64 (Level f))). pose proof (blen_put_uvarint (FileNum f)).
    pose proof (blen_put_uvarint (Version.Size f)). pose proof (blen_put_uvarint (blen (SmallestKey f))).
    pose proof (blen_put_uvarint (blen (LargestKey f))). lia. }
  assert (Hd : forall ds, blen (concat (encode_deleted <$> ds)) <= 21 * blen ds).
  { induction ds as [|p ds IH]; [done|]. rewrite fmap_cons. cbn [concat]. unfold encode_deleted at 1.
    rewrite blen_app, !blen_cons, blen_app. pose proof (blen_put_uvarint (u64 p.1)). pose proof (blen_put_uvarint p.2). lia. }
  specialize (Hn (NewFiles edit)). specialize (Hd (DeletedFiles edit)). lia.
Qed.

Lemma logAndApply_room ok vs edit vs' e k :
  logAndApply ok vs edit = Some (vs', e) -> log_room vs k -> edit_weight edit <= k ->
  (ok = true -> e = None) /\ log_room vs' (k - edit_weight edit).
Proof.
  intros H (f & Hf & Ho & Hk) Hw. pose proof (record_weight vs edit) as Hr. unfold logAndApply in H.
  set (p := record_bytes _) in *. rewrite Hf in H. pose proof (blen_nonneg p).
  unfold write_manifest, Io.write, file_writer in H. rewrite Ho in H. cbn [negb] in H.
  rewrite (proj2 (Z.ltb_ge _ _)) in H by lia.
  assert (Hl : forall vs1, manifestFile vs1 = Some (mkFile (overwrite (content f) (pos f) (take (Z.to_nat (Z.min (blen p) (Z.max 0 (room f)))) p))
    (Z.max 0 (pos f) + Z.min (blen p) (Z.max 0 (room f))) (room f - Z.min (blen p) (Z.max 0 (room f))) true) ->
    log_room vs1 (k - edit_weight edit)).
  { intros vs1 E. eexists. split; [exact E|]. split; [done|]. cbn [room]. lia. }
  destruct ok; cbn [negb] in H; [|injection H as <- <-; split; [done|by apply Hl]].
  apply bind_Some in H as (v & _ & [= <- <-]). split; [done|]. by apply Hl.
Qed.

Lemma logAndApply_outcome ok vs edit :
  levels_ok (current vs) -> Forall (fun f => 0 <= Level f < 7) (NewFiles edit) ->
  exists vs' e, logAndApply ok vs edit = Some (vs', e) /\
    nextFileNum vs' = nextFileNum vs /\ lastSeqNum vs' = lastSeqNum vs /\
    match e with
    | None => apply (current vs) edit = Some (current vs')
    | Some _ => current vs' = current vs
    end.
Proof.
  intros Hl Hf. unfold logAndApply. destruct (write_manifest _ _) as [f e] eqn:E.
  destruct e as [e|]; [by eexists _, _|]. destruct ok; cbn [negb]; [|by eexists _, _].
  change (current (set_manifest vs f)) with (current vs).
  change (apply (current vs) (stamped vs edit)) with (apply (current vs) edit).
  pose proof (apply_outcome (current vs) edit Hl) as Ha. destruct (apply (current vs) edit) as [v|]; [|done].
  cbn [mbind option_bind]. by eexists _, _.
Qed.

(** Adding one file to level 0. *)
Lemma apply_L0 v fm : levels_ok v -> Level fm = 0 -> exists v',
  apply v (mkEdit [fm] [] 0 0 false false) = Some v' /\ levels_ok v' /\
  (forall l fs, files_at v l = Some fs -> exists fs', files_at v' l = Some fs' /\
    if decide (l = 0) then fs' = fs ++ [fm] else fs' ≡ₚ fs).
Proof.
  intros Hl Hz. set (edit := mkEdit _ _ _ _ _ _). pose proof (apply_outcome v edit Hl) as Ha.
  destruct (apply v edit) as [v'|].
  2:{ destruct Ha. cbn. constructor; [lia|constructor]. }
  destruct Ha as (_ & Hl' & Hfs). exists v'. split_and!; [done..|]. intros l fs Hl0.
  destruct (Hfs l fs Hl0) as (fs' & E & Hp & H0 & _). exists fs'. split; [done|].
  assert (Hk : kept edit fs = fs).
  { unfold kept. cbn [DeletedFiles edit fmap list_fmap]. clear. induction fs as [|f fs IH]; [done|].
    rewrite filter_cons_True by (apply not_elem_of_nil). by rewrite IH. }
  unfold added in *. cbn [NewFiles edit] in *. rewrite Hk in *. destruct (decide (l = 0)) as [->|Hne].
  - rewrite (H0 eq_refl). rewrite filter_cons_True by done. done.
  - rewrite filter_cons_False in Hp by (rewrite Hz; congruence). by rewrite app_nil_r in Hp.
Qed.

(** ** One round *)

(** A memtable without its reference count. *)
Definition mem_data (m : Memtable) : Skiplist * Z * Z := (skl m, minSeqNum m, Memtable.maxSeqNum m).

Lemma mem_data_unref (ms : list Memtable) (i : nat) :
  mem_data <$> alter (fun m => (Memtable.Unref m).1) i ms = mem_data <$> ms.
Proof.
  apply list_eq. intros j. rewrite !list_lookup_fmap, list_lookup_alter. destruct (decide _); [subst|done].
  by destruct (ms !! j).
Qed.

Lemma mem_data_lookup (ms ms' : list Memtable) (i : nat) m : mem_data <$> ms' = mem_data <$> ms -> ms !! i = Some m ->
  exists m', ms' !! i = Some m' /\ mem_data m' = mem_data m.
Proof.
  intros E Hm. assert (H : (mem_data <$> ms') !! i = Some (mem_data m)) by (by rewrite E, list_lookup_fmap, Hm).
  rewrite list_lookup_fmap in H. destruct (ms' !! i) as [m'|]; [|done]. injection H as H. exists m'. split; [done|].
  unfold mem_data. congruence.
Qed.

(** A sealed memtable that a flush can write: its pairs are [l]. *)
Definition flushable (fuel : nat) (db : DB) (i : nat) (l : list (bytes * bytes)) : Prop :=
  exists m es, mems (store db) !! i = Some m /\ rep (skl m) es /\ contents es = l /\ (length es <= fuel)%nat /\
    table_fits (TableOptions (opts db)) l.

(** What flushing leaves alone, and files with numbers in use before. *)
Record flush_frame (db db' : DB) : Prop := {
  ff_mems : mem_data <$> mems (store db') = mem_data <$> mems (store db);
  ff_mem : mem db' = mem db;
  ff_opts : opts db' = opts db;
  ff_next : nextFileNum (versions db) <= nextFileNum (versions db');
  ff_levels : levels_ok (current (versions db'));
  ff_files : forall n, 0 <= n < nextFileNum (versions db) ->
    files db' !! sstablePath n = files db !! sstablePath n }.

(** The files [fms] were added at the end of level 0. *)
Definition grown (v v' : Version) (fms : list FileMeta) : Prop :=
  forall k fs, files_at v k = Some fs -> exists fs', files_at v' k = Some fs' /\
    if decide (k = 0) then fs' = fs ++ fms else fs' ≡ₚ fs.

(** The record of one flush is smaller. *)
Definition round_room : Z := 2 ^ 33.

Lemma first_key_weight (l : list (bytes * bytes)) : blen (default [] (hd_error l.*1)) + 64 * blen l <= weight l.
Proof.
  destruct l as [|[k v] l]; [done|]. rewrite weight_cons, blen_cons. change (default [] (hd_error _)) with k. cbn [fst snd].
  pose proof (blen_nonneg v). pose proof (weight_length l). lia.
Qed.

Lemma flush_edit_weight n meta c es :
  table_file c meta es -> weight es < 2 ^ 31 -> edit_weight (mkEdit [file_meta n 0 meta] [] 0 0 false false) <= round_room.
Proof.
  intros Ht Hw. destruct (table_file_meta c meta es Ht) as (_ & _ & Hs & Hl).
  unfold edit_weight, round_room. cbn [NewFiles DeletedFiles foldr file_meta SmallestKey LargestKey].
  rewrite Hs, Hl. change (blen (@nil (Z * Z))) with 0. pose proof (last_key_weight es). pose proof (blen_nonneg es).
  pose proof (first_key_weight es). lia.
Qed.

Lemma flush_round_spec fuel d db i rest l :
  imm db = i :: rest -> flushable fuel db i l -> next_ok (versions db) -> levels_ok (current (versions db)) ->
  exists db' go, flush_round fuel d db = Some (db', go) /\ flush_frame db db' /\
    nextFileNum (versions db') = nextFileNum (versions db) + 1 /\
    (forall k, reliable (d (nextFileNum (versions db))) -> log_room (versions db) k -> round_room <= k ->
       go = true /\ log_room (versions db') (k - round_room)) /\
    if (go : bool) then
      imm db' = rest /\ exists fm, FileNum fm = nextFileNum (versions db) /\ stored db' fm l /\
        grown (current (versions db)) (current (versions db')) [fm]
    else imm db' = imm db /\ current (versions db') = current (versions db).
Proof.
  intros Hi (m & es & Hm & Hr & <- & Hf & Hfit) Hn Hl. set (n := nextFileNum (versions db)).
  unfold flush_round. rewrite Hi, Hm. cbn [mbind option_bind].
  destruct (flush_spec fuel d db m es Hr Hf Hfit Hn) as (fs & r & -> & Hother & Hrel & Hok). fold n in Hother, Hrel, Hok.
  assert (Hkeep : forall k, 0 <= k < n -> fs !! sstablePath k = files db !! sstablePath k).
  { intros k Hk. apply Hother. unfold next_ok in Hn. fold n in Hn. intros E.
    apply sstablePath_inj in E; unfold u64_ok; lia. }
  cbn [mbind option_bind]. set (db1 := set_files _ _).
  destruct r as [e|fm].
  { exists db1, false. split; [reflexivity|]. split; [split; cbn; done || lia|]. split; [done|]. split; [|done].
    intros k Hd. by destruct (Hrel Hd). }
  destruct (Hok fm eq_refl) as (c & meta & Ht & -> & Hc).
  destruct (logAndApply_outcome (d_log (d (FileNum (file_meta n 0 meta)))) (versions db1)
    (mkEdit [file_meta n 0 meta] [] 0 0 false false) Hl) as (vs & e & Elog & Hnx & _ & He);
    [constructor; [cbn; lia|constructor]|].
  assert (Hroom : forall k, reliable (d n) -> log_room (versions db) k -> round_room <= k -> e = None /\ log_room vs (k - round_room)).
  { intros k (_ & _ & _ & Hlog & _) Hk Hle. pose proof (flush_edit_weight n meta c _ Ht (proj1 Hfit)).
    destruct (logAndApply_room _ _ _ _ _ k Elog) as [He0 (f & Hf1 & Hf2 & Hf3)]; [exact Hk|lia|].
    split; [by apply He0|]. exists f. split_and!; [done..|lia]. }
  unfold log_flushed. rewrite Elog. clear Elog.
  change (nextFileNum (versions db1)) with (n + 1) in Hnx. change (current (versions db1)) with (current (versions db)) in He.
  cbn [mbind option_bind]. destruct e as [e|].
  { exists (set_versions db1 vs), false. split; [reflexivity|].
    split; [split; cbn; [done..|fold n; lia|by rewrite He|done]|]. split; [done|]. split; [|done].
    intros k H1 H2 H3. by destruct (Hroom k H1 H2 H3). }
  destruct (apply_L0 (current (versions db)) (file_meta n 0 meta) Hl eq_refl) as (v' & Ha & Hl' & Hfs).
  rewrite Ha in He. injection He as ->.
  exists (drop_flushed (set_versions db1 vs) i), true.
  split; [reflexivity|]. split; [split; cbn; [apply mem_data_unref|done..|fold n; lia|done|done]|].
  split; [done|]. split; [intros k H1 H2 H3; split; [done|by apply Hroom]|]. split; [cbn; by rewrite Hi|].
  exists (file_meta n 0 meta). split; [done|]. split; [|exact Hfs]. by apply (stored_table_file _ n 0 c).
Qed.

(** ** All rounds *)

Lemma flushable_frame fuel db db' i l : flush_frame db db' -> flushable fuel db i l -> flushable fuel db' i l.
Proof.
  intros [Hs _ Ho _ _ _] (m & es & Hm & H). destruct (mem_data_lookup _ _ _ _ Hs Hm) as (m' & Hm' & [= E _ _]).
  exists m', es. by rewrite E, Ho.
Qed.

Lemma flush_frame_trans db1 db2 db3 :
  flush_frame db1 db2 -> flush_frame db2 db3 -> flush_frame db1 db3.
Proof.
  intros [A1 A2 A3 A4 A5 A6] [B1 B2 B3 B4 B5 B6]. split; [congruence..|lia|done|].
  intros n Hn. rewrite B6 by lia. by apply A6.
Qed.

Lemma stored_frame db db' fm l :
  flush_frame db db' -> 0 <= FileNum fm < nextFileNum (versions db) -> stored db fm l -> stored db' fm l.
Proof.
  intros Hff Hn (Hs & Hl & c & Hc & Hr). split_and!; [done..|]. exists c. by rewrite (ff_files _ _ Hff).
Qed.

Lemma grown_trans v1 v2 v3 a b : grown v1 v2 a -> grown v2 v3 b -> grown v1 v3 (a ++ b).
Proof.
  intros H1 H2 k fs Hfs. destruct (H1 k fs Hfs) as (fs2 & E2 & P2). destruct (H2 k fs2 E2) as (fs3 & E3 & P3).
  exists fs3. split; [done|]. destruct (decide (k = 0)); [by rewrite P3, P2, app_assoc|by rewrite P3].
Qed.

Lemma grown_refl v : grown v v [].
Proof. intros k fs E. exists fs. split; [done|]. destruct (decide _); [by rewrite app_nil_r|done]. Qed.

Lemma doFlush_loop_spec fuel d : forall rounds db ls,
  Forall2 (flushable fuel db) (imm db) ls -> (length (imm db) < rounds)%nat ->
  0 <= nextFileNum (versions db) -> nextFileNum (versions db) + blen (imm db) < 2 ^ 64 - 1 ->
  levels_ok (current (versions db)) ->
  exists db' fms, doFlush_loop rounds fuel d db = Some db' /\ flush_frame db db' /\
    (length fms <= length (imm db))%nat /\ imm db' = drop (length fms) (imm db) /\
    Forall (fun fm => nextFileNum (versions db) <= FileNum fm < nextFileNum (versions db')) fms /\
    Forall2 (stored db') fms (take (length fms) ls) /\
    grown (current (versions db)) (current (versions db')) fms /\
    ((forall n, reliable (d n)) -> log_room (versions db) (round_room * blen (imm db)) -> imm db' = []).
Proof.
  induction rounds as [|rounds IH]; intros db ls Hls Hr H0 Hn Hl; [lia|]. cbn [doFlush_loop].
  inversion Hls as [Hi|i l js ls' Hfl Hfls Hi]; subst.
  { unfold flush_round. rewrite <- Hi. cbn [mbind option_bind]. exists db, [].
    split; [done|]. split; [by split|]. split; [done|]. split; [by rewrite <- Hi|]. split; [constructor|].
    split; [constructor|]. split; [apply grown_refl|done]. }
  symmetry in Hi. rewrite Hi, blen_cons in Hn. pose proof (blen_nonneg js).
  destruct (flush_round_spec fuel d db i js l Hi Hfl) as (db1 & go & -> & Hff & Hnx & Hgood & Hgo);
    [unfold next_ok; lia|done|].
  cbn [mbind option_bind]. destruct go.
  2:{ destruct Hgo as [Hi1 Hc1]. exists db1, []. split; [done|]. split; [done|]. split; [cbn; lia|].
      split; [by rewrite Hi1|]. split; [constructor|]. split; [constructor|]. rewrite Hc1. split; [apply grown_refl|].
      intros Hd Hroom. destruct (Hgood _ (Hd _) Hroom) as [Hgo _]; [|discriminate Hgo].
      rewrite blen_cons. unfold round_room. lia. }
  destruct Hgo as (Hi1 & fm & Hfm & Hst & Hg). rewrite Hi in Hr. cbn [length] in Hr.
  destruct (IH db1 ls') as (db2 & fms & E & Hff2 & Hlen & Hi2 & Hnum & Hst2 & Hg2 & Hall).
  - rewrite Hi1. eapply Forall2_impl; [exact Hfls|]. intros. by eapply flushable_frame.
  - rewrite Hi1. lia.
  - lia.
  - rewrite Hi1, Hnx. lia.
  - by apply Hff.
  - exists db2, (fm :: fms). split; [exact E|]. split; [by eapply flush_frame_trans|].
    rewrite Hi1 in Hlen, Hi2. split; [cbn; lia|]. split; [exact Hi2|].
    pose proof (ff_next _ _ Hff2). split; [constructor; [lia|]; eapply Forall_impl; [exact Hnum|]; cbn; intros; lia|].
    split; [|split; [by apply (grown_trans _ _ _ [fm] fms Hg)|]].
    + cbn [length take]. constructor; [|done]. eapply stored_frame; [exact Hff2|lia|exact Hst].
    + intros Hd Hroom. apply Hall; [done|]. rewrite blen_cons in Hroom. rewrite Hi1.
      replace (round_room * blen js) with (round_room * (1 + blen js) - round_room) by lia.
      apply Hgood; [done..|]. unfold round_room. lia.
Qed.

(** C8: Flushing loses nothing and ends.  When sealed memtables hold [ls],
    [doFlush] returns, whatever the disks do; some of the oldest memtables have
    left the list, and for each of them, in order, there is one new file at the
    end of level 0 that opens as the table of exactly its pairs and whose
    metadata is right.  The other levels, the other files, the contents of all
    memtables and the active one are as they were.  On reliable disks with room
    for the log no memtable is left. *)
Theorem doFlush_exact (fuel : nat) (d : disk) (db : DB) (ls : list (list (bytes * bytes))) :
  Forall2 (flushable fuel db) (imm db) ls ->
  0 <= nextFileNum (versions db) -> nextFileNum (versions db) + blen (imm db) < 2 ^ 64 - 1 ->
  levels_ok (current (versions db)) ->
  exists db' fms, doFlush fuel d db = Some db' /\ flush_frame db db' /\
    (length fms <= length (imm db))%nat /\ imm db' = drop (length fms) (imm db) /\
    Forall (fun fm => nextFileNum (versions db) <= FileNum fm < nextFileNum (versions db')) fms /\
    Forall2 (stored db') fms (take (length fms) ls) /\
    grown (current (versions db)) (current (versions db')) fms /\
    ((forall n, reliable (d n)) -> log_room (versions db) (round_room * blen (imm db)) -> imm db' = []).
Proof. intros Hls H0 Hn Hl. apply doFlush_loop_spec; [done|lia|done..]. Qed.
End rounds.
