(* ===== verification/DBSpec.v ===== *)
(** The database in memory: its memtables as one list of versions, newest
    first, what a write adds to it and what a read finds in it, and the
    database as a map from keys to values. *)
From stdpp Require Import sorting.
From S2P Require Import Prelude SliceSort Binary ByteOrder Sorted Io Block Cache CacheSpec CacheInterface TableWriter TableReader Arena Skiplist SkiplistSpec InternalKey Memtable MemtableSpec Version Manifest Heap Merged MergeIterator Sources DBIterator DB.

#[local] Open Scope Z_scope.

(** ** Looking through the memtables *)

(** The versions of a newer memtable are all newer. *)
Definition newer (vs ws : list version) : Prop := forall v w, v ∈ vs -> w ∈ ws -> v_seq w < v_seq v.

Lemma visible_app vs ws key seq v :
  visible (vs ++ ws) key seq v <-> visible vs key seq v \/ visible ws key seq v.
Proof. unfold visible. rewrite elem_of_app. naive_solver. Qed.

(** The newest version of the newer part is the newest of all. *)
Lemma newest_app_l vs ws key seq v :
  newer vs ws -> Forall ver_ok (vs ++ ws) -> newest vs key seq v -> newest (vs ++ ws) key seq v.
Proof.
  intros Hn Hok [Hv Hm]. split; [apply visible_app; by left|]. intros w [Hw|Hw]%visible_app; [by apply Hm|].
  assert (Hlt : v_seq w < v_seq v) by (apply Hn; [apply Hv|apply Hw]). rewrite Forall_forall in Hok.
  destruct (ver_ok_seq w) as [_ H1]; [apply Hok, elem_of_app; right; apply Hw|].
  destruct (ver_ok_seq v) as [_ H2]; [apply Hok, elem_of_app; left; apply Hv|].
  unfold stamp, kind_ok in *. lia.
Qed.

Lemma newest_app_r vs ws key seq v :
  (forall w, ~ visible vs key seq w) -> newest ws key seq v -> newest (vs ++ ws) key seq v.
Proof.
  intros Hn [Hv Hm]. split; [apply visible_app; by right|].
  intros w [Hw|Hw]%visible_app; [by destruct (Hn w)|by apply Hm].
Qed.

(** What a lookup by value and kind must return. *)
Definition found (vs : list version) (key : bytes) (seq : Z) (r : option (bytes * Z)) : Prop :=
  match r with
  | Some (val, kind) => exists v, newest vs key seq v /\ v_val v = val /\ v_kind v = kind
  | None => forall v, ~ visible vs key seq v
  end.

Lemma getFromMemtable_spec m vs key seq :
  mrep m vs -> seq_ok seq -> key_separate vs key ->
  exists r, getFromMemtable m key seq = Some r /\ found vs key seq r.
Proof.
  intros Hm Hseq Hsep. destruct (mem_seek m vs key seq Hm Hseq Hsep) as (it & Hit & Hcase).
  unfold getFromMemtable, Memtable.Iterator.SeekGE, Memtable.Iterator.Valid. rewrite Hit. cbn [mbind option_bind].
  destruct Hcase as [[-> Hnone]|(Hne & v & Hv & Hkey & Hval & Hnew)]; [by exists None|].
  unfold Skiplist.Valid. rewrite (proj2 (Z.eqb_neq _ _)) by done. cbn [negb].
  unfold Memtable.Iterator.UserKey, Memtable.Iterator.Value, Memtable.Iterator.Kind.
  rewrite Hkey, Hval. cbn [mbind option_bind].
  destruct (ver_ok_seq v (proj1 (Forall_forall _ _) (mr_ok _ _ Hm) v Hv)) as [H1 H2].
  unfold ver_ikey. rewrite UserKey_Make, Parse_Make, compareKeys_eq by done. cbn [mbind option_bind].
  destruct (decide (v_key v = key)) as [Hk|Hk].
  - rewrite bool_decide_eq_true_2 by done. cbn [negb]. exists (Some (v_val v, v_kind v)). split; [done|]. by exists v.
  - rewrite bool_decide_eq_false_2 by done. by exists None.
Qed.

Lemma get_mems_spec ms vss key seq :
  Forall2 mrep ms vss -> StronglySorted newer vss -> seq_ok seq -> key_separate (concat vss) key ->
  exists r, get_mems ms key seq = Some r /\ found (concat vss) key seq r.
Proof.
  intros Hms. induction Hms as [|m vs ms vss Hm Hms IH]; intros Hs Hseq Hsep.
  { exists None. split; [done|]. intros v (Hv & _). by apply not_elem_of_nil in Hv. }
  cbn [get_mems concat] in *. apply StronglySorted_inv in Hs as [Hs Hn]. apply Forall_app in Hsep as [Hsep1 Hsep2].
  destruct (getFromMemtable_spec m vs key seq Hm Hseq Hsep1) as (r & -> & Hr). cbn [mbind option_bind].
  destruct r as [[val kind]|].
  - exists (Some (val, kind)). split; [done|]. destruct Hr as (v & Hv & E1 & E2). exists v.
    split; [|done]. apply newest_app_l; [| |done].
    + intros x y Hx (ws & Hy & Hws)%elem_of_concat. rewrite Forall_forall in Hn. by apply (Hn ws Hws).
    + apply Forall_app. split; [by eapply mr_ok|]. clear -Hms. induction Hms; [constructor|].
      apply Forall_app. split; [by eapply mr_ok|done].
  - destruct (IH Hs Hseq Hsep2) as (r & -> & Hr'). exists r. split; [done|]. destruct r as [[val kind]|].
    + destruct Hr' as (v & Hv & E). exists v. split; [by apply newest_app_r|done].
    + intros v [Hv|Hv]%visible_app; [by apply (Hr v)|by apply (Hr' v)].
Qed.

(** ** The state of the database's memtables *)

Definition mem_holds (ms : list Memtable) (i : nat) (vs : list version) : Prop :=
  exists m, ms !! i = Some m /\ mrep m vs.

(** [vss]: the versions in the active memtable, then in the sealed ones, newest
    first. *)
Record dbrep (db : DB) (vss : list (list version)) : Prop := {
  dr_mems : Forall2 (mem_holds (mems (store db))) (mem db :: rev (imm db)) vss;
  dr_distinct : NoDup (mem db :: imm db);
  dr_order : StronglySorted newer vss;
  dr_seqs : Forall (fun v => v_seq v <= seqNum db) (concat vss);
  dr_seqNum : 0 <= seqNum db;
  dr_size : maxNodeSize + 4 <= MemtableSize (opts db) < 2 ^ 32 }.

(** What the allocation counter of the active memtable has reached at most. *)
Definition active_room (db : DB) (lim : Z) : Prop :=
  exists m, mems (store db) !! mem db = Some m /\ Arena.n (arena_of m) <= lim.

(** What the memory operations leave alone. *)
Definition same_tables (db db' : DB) : Prop :=
  files db' = files db /\ opts db' = opts db /\ current (versions db') = current (versions db) /\
  nextFileNum (versions db') = nextFileNum (versions db) /\ tableCache db' = tableCache db /\ closed db' = closed db /\ blocks (store db') = blocks (store db).

Lemma mem_holds_insert ms i j m vs : i <> j -> mem_holds ms j vs -> mem_holds (<[i := m]> ms) j vs.
Proof. intros Hne (m' & Hm & H). exists m'. by rewrite list_lookup_insert_ne. Qed.

Lemma mem_holds_app ms ms' i vs : mem_holds ms i vs -> mem_holds (ms ++ ms') i vs.
Proof. intros (m & Hm & H). exists m. split; [by apply lookup_app_l_Some|done]. Qed.

Lemma dbrep_active db vss : dbrep db vss -> exists m vs vss', mems (store db) !! mem db = Some m /\ mrep m vs /\
  vss = vs :: vss' /\ Forall2 (mem_holds (mems (store db))) (rev (imm db)) vss'.
Proof.
  intros [Hm _ _ _ _ _]. apply Forall2_cons_inv_l in Hm as (vs & vss' & (m & Hl & Hr) & Hms & ->).
  by exists m, vs, vss'.
Qed.

Lemma dbrep_not_sealed db vss i : dbrep db vss -> i ∈ rev (imm db) -> mem db <> i.
Proof. intros [_ Hd _ _ _ _] Hi E. apply NoDup_cons in Hd as [Hd _]. rewrite E in Hd. rewrite list_elem_of_In, <- in_rev, <- list_elem_of_In in Hi. done. Qed.

Lemma newer_cons vs vss v :
  Forall (fun w => v_seq w < v_seq v) (concat vss) -> StronglySorted newer (vs :: vss) ->
  StronglySorted newer ((v :: vs) :: vss).
Proof.
  intros Hs [Ho Hn]%StronglySorted_inv. constructor; [done|]. rewrite Forall_forall in *.
  intros ws Hws x w Hx Hw. apply elem_of_cons in Hx as [->|Hx]; [|by apply (Hn ws Hws)].
  apply (proj1 (Forall_forall _ _) Hs), elem_of_concat. by exists ws.
Qed.

(** An arena is at most [maxSize] long. *)
Lemma mrep_arena m vs : mrep m vs -> blen (Arena.buf (arena_of m)) < 2 ^ 32.
Proof. intros [(es & Hr & _) _ _ _]. destruct (rep_wf _ _ Hr) as [_ Hb]. unfold Arena.maxSize in Hb. unfold arena_of. lia. Qed.

(** The versions written by [Set] and [Delete] at number [seq]. *)
Definition written_version (del : bool) (key value : bytes) (seq : Z) : version :=
  if del then mkVersion key seq KindDelete [] else mkVersion key seq KindSet value.
Definition insertion (del : bool) (rnd : Z) (key value : bytes) (m : Memtable) (seq : Z) :=
  if del then Memtable.Delete m rnd key seq else Memtable.Set_ m rnd key value seq.

Lemma written_version_at del key value seq :
  v_key (written_version del key value seq) = key /\ v_seq (written_version del key value seq) = seq /\
  blen (v_val (written_version del key value seq)) <= blen value.
Proof. pose proof (blen_nonneg value). destruct del; cbn; split_and!; try done; lia. Qed.

(** One insertion into a memtable. *)
Lemma on_mem_used db m vs rnd del key value seq :
  mems (store db) !! mem db = Some m -> mrep m vs -> Arena.n (arena_of m) <= 2 ^ 34 ->
  1 <= seq < 2 ^ 56 -> Forall (fun v => v_seq v <> seq) vs -> maxNodeSize + (blen key + 8) + blen value < 2 ^ 32 ->
  exists m' r,
    on_mem db (fun m => insertion del rnd key value m seq) = Some (set_store db (set_mem (store db) (mem db) m'), r) /\
    mem_used m m' (written_version del key value seq) r /\
    match r with
    | Ok _ => mrep m' (written_version del key value seq :: vs)
    | Err (ErrArena ErrFull) => mrep m' vs
    | _ => False
    end.
Proof.
  intros Hm Hmr Hn Hs Hnew Hsz. destruct (written_version_at del key value seq) as (Hk & Hsq & Hval).
  set (v := written_version del key value seq) in *.
  assert (Hv : ver_ok v) by (unfold v, written_version; destruct del; split; cbn; auto).
  assert (Hins : insertion del rnd key value m seq = add_internal m rnd (ver_ikey v) (v_val v) (v_seq v))
    by (unfold insertion, v, written_version; by destruct del).
  destruct (add_internal_room m vs rnd v Hmr Hv) as (m' & r & E & Hu & Hres); [split; [lia|rewrite Hk; lia]|].
  exists m', r. unfold on_mem. rewrite Hm. cbn [mbind option_bind]. rewrite Hins, E. cbn [mbind option_bind].
  split; [done|]. split; [done|]. destruct r as [[]|[|[]]|]; [done| |done..].
  destruct Hres as (_ & v' & Hv' & _ & Hs' & _). rewrite Forall_forall in Hnew. apply (Hnew v' Hv'). congruence.
Qed.

(** Another memtable in the place of the active one. *)
Lemma dbrep_active_insert db vs vss m' ws :
  dbrep db (vs :: vss) -> mrep m' ws -> StronglySorted newer (ws :: vss) -> Forall (fun v => v_seq v <= seqNum db) ws ->
  dbrep (set_store db (set_mem (store db) (mem db) m')) (ws :: vss).
Proof.
  intros Hdb Hws Ho Hq. destruct (dbrep_active db _ Hdb) as (m & vs' & vss' & Hm & _ & [= <- <-] & Hsealed).
  pose proof (lookup_lt_Some _ _ _ Hm). pose proof Hdb as [_ Hd _ Hq' H0 Hopt].
  apply Forall_app in Hq' as [_ Hq']. split; cbn; [|done|done| |done..].
  - constructor; [exists m'; by rewrite list_lookup_insert_eq|].
    eapply Forall2_impl_in; [exact Hsealed|]. intros i ws' Hi. apply mem_holds_insert. by eapply dbrep_not_sealed.
  - by apply Forall_app.
Qed.

(** The database with the memtable [m] put before its others. *)
Definition sealed (db : DB) (m : Memtable) : DB :=
  mkDB (files db) (opts db) (versions db) (mkStore (mems (store db) ++ [m]) (blocks (store db)))
    (length (mems (store db))) (imm db ++ [mem db]) (seqNum db) (tableCache db) (flushCh db) (compactCh db) (closed db).

Lemma sealed_mem db m : mems (store (sealed db m)) !! mem (sealed db m) = Some m.
Proof. by apply list_lookup_middle. Qed.

Lemma sealed_insert db m m' :
  set_store (sealed db m) (set_mem (store (sealed db m)) (mem (sealed db m)) m') = sealed db m'.
Proof. unfold sealed, set_store, set_mem. cbn. by rewrite insert_app_r_alt, Nat.sub_diag. Qed.

Lemma dbrep_sealed db vss m ws :
  dbrep db vss -> mrep m ws -> Forall (newer ws) vss -> Forall (fun v => v_seq v <= seqNum db) ws ->
  dbrep (sealed db m) (ws :: vss).
Proof.
  intros [Hms Hd Ho Hq H0 Hopt] Hm Hn Hws. split; cbn [mems store mem imm opts seqNum sealed]; [| | | |done|done].
  - constructor; [exists m; split; [by apply list_lookup_middle|done]|]. rewrite rev_app_distr. cbn [rev app].
    eapply Forall2_impl; [exact Hms|]. intros i vs. apply mem_holds_app.
  - assert (Hlt : forall i, i ∈ mem db :: imm db -> (i < length (mems (store db)))%nat).
    { intros i Hi. assert (Hi' : i ∈ mem db :: rev (imm db)).
      { apply elem_of_cons in Hi as [->|Hi]; [by left|right]. rewrite list_elem_of_In in *. by apply in_rev in Hi. }
      apply list_elem_of_lookup in Hi' as [k Hk].
      destruct (Forall2_lookup_l _ _ _ _ _ Hms Hk) as (vs & _ & (m' & Hm' & _)). by eapply lookup_lt_Some. }
    apply NoDup_cons. split.
    + intros [Hi|Hi%list_elem_of_singleton]%elem_of_app.
      * specialize (Hlt (length (mems (store db))) ltac:(by right)). lia.
      * specialize (Hlt (mem db) ltac:(by left)). rewrite Hi in Hlt at 1. lia.
    + rewrite Permutation_app_comm. exact Hd.
  - by constructor.
  - by apply Forall_app.
Qed.

(** A record too large for an empty memtable. *)
Definition too_large (o : Options) (key value : bytes) : Prop :=
  MemtableSize o < 2 * maxNodeSize + 7 + (blen key + 8) + blen value.

(** The state after the sequence number is taken. *)
Lemma numbered_spec db vss :
  dbrep db vss -> seqNum db + 1 < 2 ^ 56 ->
  let db1 := set_versions (set_seqNum db (u64 (seqNum db + 1)))
               (set_lastSeqNum (versions db) (u64 (seqNum db + 1))) in
  dbrep db1 vss /\ seqNum db1 = seqNum db + 1 /\ same_tables db db1 /\
  Forall (fun v => v_seq v < seqNum db1) (concat vss).
Proof.
  intros [Hms Hd Ho Hq H0 Hopt] Hlt db1. assert (Hs : seqNum db1 = seqNum db + 1) by (cbn; by rewrite u64_small by lia).
  split; [|by split_and!; try done; eapply Forall_impl; [exact Hq|]; cbn; rewrite u64_small by lia; lia].
  split; try done; rewrite ?Hs; [|lia]. eapply Forall_impl; [exact Hq|]. cbn. lia.
Qed.

(** The flag of the flush loop is not part of what the database holds. *)
Definition signalled (b : bool) (db : DB) : DB := if b then signalFlush db else db.

Lemma dbrep_signalled b db vss : dbrep db vss -> dbrep (signalled b db) vss.
Proof. intros [H1 H2 H3 H4 H5 H6]. by destruct b; split. Qed.
Lemma same_tables_signalled b db db' : same_tables db db' -> same_tables db (signalled b db').
Proof. by destruct b. Qed.
Lemma active_room_signalled b db lim : active_room db lim -> active_room (signalled b db) lim.
Proof. by destruct b. Qed.
Lemma seqNum_signalled b db : seqNum (signalled b db) = seqNum db.
Proof. by destruct b. Qed.

Lemma same_tables_trans db1 db2 db3 : same_tables db1 db2 -> same_tables db2 db3 -> same_tables db1 db3.
Proof. unfold same_tables. intros (? & ? & ? & ? & ? & ? & ?) (? & ? & ? & ? & ? & ? & ?). split_and!; congruence. Qed.

Lemma active_room_insert db m m' lim :
  mems (store db) !! mem db = Some m -> Arena.n (arena_of m') <= lim ->
  active_room (set_store db (set_mem (store db) (mem db) m')) lim.
Proof.
  intros Hm Hn. exists m'. split; [|done]. cbn. apply list_lookup_insert_eq. by eapply lookup_lt_Some.
Qed.

(** The second try, in a new memtable. *)
Lemma rotate_and_insert db rnd del key value seq :
  maxNodeSize + 4 <= MemtableSize (opts db) < 2 ^ 32 -> 1 <= seq < 2 ^ 56 ->
  maxNodeSize + (blen key + 8) + blen value < 2 ^ 32 ->
  exists m r, (db ← rotateMemtable db; on_mem db (fun m => insertion del rnd key value m seq)) = Some (sealed db m, r) /\
    Arena.n (arena_of m) <= 2 ^ 34 /\
    match r with
    | Ok _ => mrep m [written_version del key value seq]
    | Err (ErrArena ErrFull) => too_large (opts db) key value /\ mrep m []
    | _ => False
    end.
Proof.
  intros Hsz Hs Hfit. destruct (New_mrep_room _ Hsz) as (m & E & Hm & Hb & Hn). pose proof (blen_nonneg key). pose proof (blen_nonneg value).
  unfold rotateMemtable. rewrite E. cbn [mbind option_bind].
  change (mkDB _ _ _ _ _ _ _ _ _ _ _) with (sealed db m).
  destruct (on_mem_used (sealed db m) m [] rnd del key value seq) as (m' & r & -> & Hu & Hr);
    [apply sealed_mem|done|unfold maxNodeSize in *; lia|done|constructor|done|].
  exists m', r. rewrite sealed_insert. split; [done|]. destruct (written_version_at del key value seq) as (Hk & _ & Hv).
  assert (Hik : blen (ver_ikey (written_version del key value seq)) = blen key + 8)
    by (unfold ver_ikey; by rewrite blen_MakeInternalKey, Hk).
  destruct r as [[]|[|[]]|]; [|done| |done]; destruct Hu as [Hn' Hb' Hf]; unfold maxNodeSize in *; (split; [lia|]).
  - done.
  - split; [unfold too_large, maxNodeSize; lia|done].
Qed.

(** An insertion under the lock puts the version into the active memtable, or
    into a new one. *)
Lemma insert_locked_spec db m vs rnd del key value seq :
  mems (store db) !! mem db = Some m -> mrep m vs -> Arena.n (arena_of m) <= 2 ^ 34 ->
  maxNodeSize + 4 <= MemtableSize (opts db) < 2 ^ 32 -> 1 <= seq < 2 ^ 56 -> Forall (fun v => v_seq v <> seq) vs ->
  maxNodeSize + (blen key + 8) + blen value < 2 ^ 32 ->
  exists b db' e, insert_locked db (insertion del rnd key value) seq = Some (signalled b db', e) /\ active_room db' (2 ^ 34) /\
    ((exists m', mrep m' (written_version del key value seq :: vs) /\
        db' = set_store db (set_mem (store db) (mem db) m') /\ e = None) \/
     (exists m' m2, mrep m' vs /\ db' = sealed (set_store db (set_mem (store db) (mem db) m')) m2 /\
        match e with
        | None => mrep m2 [written_version del key value seq]
        | Some e => e = ErrMem (ErrArena ErrFull) /\ too_large (opts db) key value /\ mrep m2 []
        end)).
Proof.
  intros Hm Hmr Hn Hsz Hs Hnew Hfit. unfold insert_locked.
  destruct (on_mem_used db m vs rnd del key value seq Hm Hmr Hn Hs Hnew Hfit) as (m' & r & -> & Hu & Hr).
  cbn [mbind option_bind]. set (db2 := set_store db _) in *. destruct r as [[]|[|[]]|]; [|done| |done].
  - cbn [mbind option_bind]. eexists _, db2, None. split; [unfold signalled; reflexivity|]. split; [|left; by exists m'].
    apply active_room_insert with m; [done|]. pose proof (mrep_arena _ _ Hmr). destruct Hu. lia.
  - destruct (rotate_and_insert db2 rnd del key value seq) as (m2 & r & -> & Hn2 & Hr2); [done..|]. cbn [mbind option_bind].
    destruct r as [[]|[|[]]|]; [|done| |done]; eexists _, (sealed db2 m2), _; (split; [unfold signalled; reflexivity|]).
    all: split; [exists m2; by split; [apply sealed_mem|]|]; right; by exists m', m2.
Qed.

Lemma write_spec db vss rnd del key value :
  dbrep db vss -> active_room db (2 ^ 34) -> closed db = false -> seqNum db + 1 < 2 ^ 56 ->
  maxNodeSize + (blen key + 8) + blen value < 2 ^ 32 ->
  exists db' e vss', write db (insertion del rnd key value) = Some (db', e) /\
    dbrep db' vss' /\ active_room db' (2 ^ 34) /\ seqNum db' = seqNum db + 1 /\ same_tables db db' /\
    match e with
    | None => concat vss' = written_version del key value (seqNum db') :: concat vss
    | Some e => e = ErrMem (ErrArena ErrFull) /\ concat vss' = concat vss /\ too_large (opts db) key value
    end.
Proof.
  intros Hdb Hroom Hc Hlt Hsz. destruct (numbered_spec db vss Hdb Hlt) as (Hdb1 & Hs1 & Hst1 & Hnew1).
  unfold write, take_seqNum, store_lastSeqNum. rewrite Hc. cbn zeta in *. set (db1 := set_versions _ _) in *.
  set (seq := u64 (seqNum db + 1)) in *. pose proof (dr_seqNum _ _ Hdb) as H0.
  assert (Hseq : seqNum db1 = seq) by done. rewrite Hseq in Hs1, Hnew1.
  destruct (dbrep_active db1 _ Hdb1) as (m & vs & vss1 & Hm & Hmr & -> & _). pose proof Hnew1 as [Hvs Hvss]%Forall_app.
  destruct Hroom as (m0 & Hm0 & Hn). assert (m0 = m) as -> by (cbn in Hm; congruence).
  destruct (insert_locked_spec db1 m vs rnd del key value seq Hm Hmr Hn) as (b & db' & e & -> & Hroom' & Hcase);
    [apply Hdb|lia|by eapply Forall_impl; [exact Hvs|]; cbn; lia|done|].
  exists (signalled b db'), e. rewrite seqNum_signalled. pose proof (dr_order _ _ Hdb1) as Ho.
  assert (Hv : forall x, x ∈ vs -> v_seq x <= seqNum db1) by (intros x Hx; rewrite Forall_forall in Hvs; rewrite Hseq; specialize (Hvs x Hx); lia).
  destruct (written_version_at del key value seq) as (_ & Hsq & _).
  destruct Hcase as [(m' & Hm' & -> & ->)|(m' & m2 & Hm' & -> & He)].
  - eexists. split; [done|]. split; [apply dbrep_signalled, (dbrep_active_insert db1 vs); [done..| |]|].
    + apply newer_cons; [by rewrite Hsq|done].
    + apply Forall_cons. split; [by rewrite Hsq|by apply Forall_forall].
    + split; [by apply active_room_signalled|]. split; [done|]. by split; [apply same_tables_signalled|].
  - assert (Hdb2 : dbrep (set_store db1 (set_mem (store db1) (mem db1) m')) (vs :: vss1)).
    { eapply dbrep_active_insert; [done..|]. by apply Forall_forall. }
    destruct e as [e|]; [destruct He as (-> & Hbig & Hm2)|]; eexists; (split; [done|]); (split; [apply dbrep_signalled, dbrep_sealed; [done..| |]|]).
    1, 4: apply Forall_forall; intros ws Hws x y Hx Hy.
    + by apply not_elem_of_nil in Hx.
    + apply list_elem_of_singleton in Hx as ->. rewrite Hsq. apply (proj1 (Forall_forall _ _) Hnew1).
      apply elem_of_concat. by exists ws.
    + constructor.
    + split; [by apply active_room_signalled|]. split; [done|]. split; [by apply same_tables_signalled|]. done.
    + repeat constructor. by rewrite Hsq.
    + split; [by apply active_room_signalled|]. split; [done|]. split; [by apply same_tables_signalled|]. done.
Qed.

(** ** Reading *)

Lemma memtables_of db vss : dbrep db vss -> exists ms,
  mapM (fun m => mems (store db) !! m) (mem db :: rev (imm db)) = Some ms /\ Forall2 mrep ms vss.
Proof.
  intros [Hms _ _ _ _ _].
  assert (H : exists ms, Forall2 (fun i m => mems (store db) !! i = Some m) (mem db :: rev (imm db)) ms /\ Forall2 mrep ms vss).
  { induction Hms as [|i vs l vss' (m & Hm & Hr) _ (ms & E & IH)]; [by exists []|].
    exists (m :: ms). by split; constructor. }
  destruct H as (ms & E & H). exists ms. split; [by apply mapM_Some_2|done].
Qed.

(** A read looks in the memtables first, in the tables otherwise. *)
Lemma get_at_spec db vss v key seq :
  dbrep db vss -> seq_ok seq -> key_separate (concat vss) key ->
  exists r, found (concat vss) key seq r /\
    get_at db (mem db) (imm db) v key seq =
      match r with
      | Some (val, kind) => Some (db, if kind =? KindDelete then inl ErrNotFound else inr val)
      | None => getFromVersion db v key seq
      end.
Proof.
  intros Hdb Hseq Hsep. destruct (memtables_of db vss Hdb) as (ms & E & Hms). unfold get_at.
  rewrite E. cbn [mbind option_bind].
  destruct (get_mems_spec ms vss key seq Hms (dr_order _ _ Hdb) Hseq Hsep) as (r & -> & Hr).
  exists r. split; [done|]. by destruct r as [[]|].
Qed.

Lemma getFromVersion_empty db key seq : getFromVersion db newVersion key seq = Some (db, inl ErrNotFound).
Proof. reflexivity. Qed.

(** ** The database as a map *)

Inductive client_op : Type :=
| OSet (rnd : Z) (key value : bytes)
| ODelete (rnd : Z) (key : bytes)
| OGet (key : bytes).

Inductive reply : Type :=
| Wrote (e : option lsm_error)
| Read (r : lsm_error + bytes).

Definition run_op (db : DB) (o : client_op) : option (DB * reply) :=
  match o with
  | OSet rnd key value => '(db, e) ← Set_ db rnd key value; Some (db, Wrote e)
  | ODelete rnd key => '(db, e) ← Delete db rnd key; Some (db, Wrote e)
  | OGet key => '(db, r) ← Get db key; Some (db, Read r)
  end.

Fixpoint run_ops (db : DB) (os : list client_op) : option (DB * list reply) :=
  match os with
  | [] => Some (db, [])
  | o :: os => '(db, r) ← run_op db o; '(db, rs) ← run_ops db os; Some (db, r :: rs)
  end.

Definition op_key (o : client_op) : bytes :=
  match o with OSet _ k _ | ODelete _ k | OGet k => k end.
Definition op_value (o : client_op) : bytes := match o with OSet _ _ v => v | _ => [] end.

(** What a map does: a write that does not fit into an empty memtable is
    refused, nothing else is. *)
Definition full : option lsm_error := Some (ErrMem (ErrArena ErrFull)).
Inductive map_step (o : Options) : gmap bytes bytes -> client_op -> reply -> gmap bytes bytes -> Prop :=
| map_set M rnd k v : map_step o M (OSet rnd k v) (Wrote None) (<[k := v]> M)
| map_set_refused M rnd k v : too_large o k v -> map_step o M (OSet rnd k v) (Wrote full) M
| map_delete M rnd k : map_step o M (ODelete rnd k) (Wrote None) (delete k M)
| map_delete_refused M rnd k : too_large o k [] -> map_step o M (ODelete rnd k) (Wrote full) M
| map_get M k :
    map_step o M (OGet k) (Read (match M !! k with Some v => inr v | None => inl ErrNotFound end)) M.

Inductive map_steps (o : Options) : gmap bytes bytes -> list client_op -> list reply -> gmap bytes bytes -> Prop :=
| map_nil M : map_steps o M [] [] M
| map_cons M op r M1 ops rs M2 :
    map_step o M op r M1 -> map_steps o M1 ops rs M2 -> map_steps o M (op :: ops) (r :: rs) M2.

(** The map the versions stand for at number [seq]. *)
Definition value_of (v : version) : option bytes := if v_kind v =? KindDelete then None else Some (v_val v).
Definition shows_map (vs : list version) (seq : Z) (M : gmap bytes bytes) : Prop :=
  forall key, (forall v, newest vs key seq v -> M !! key = value_of v) /\
    ((forall v, ~ visible vs key seq v) -> M !! key = None).

Lemma shows_map_ext (vs vs' : list version) (seq seq' : Z) (M : gmap bytes bytes) (key : bytes) :
  (forall w, visible vs key seq w <-> visible vs' key seq' w) ->
  (forall v, newest vs key seq v -> M !! key = value_of v) /\ ((forall v, ~ visible vs key seq v) -> M !! key = None) ->
  (forall v, newest vs' key seq' v -> M !! key = value_of v) /\ ((forall v, ~ visible vs' key seq' v) -> M !! key = None).
Proof.
  intros Hv [H1 H2]. split.
  - intros v [Hn Hm]. apply H1. split; [by apply Hv|]. intros w Hw. apply Hm. by apply Hv.
  - intros Hn. apply H2. intros v Hw. apply (Hn v). by apply Hv.
Qed.

(** Later numbers show the same as long as nothing was written. *)
Lemma shows_map_later vs seq seq' M :
  Forall (fun v => v_seq v <= seq) vs -> seq <= seq' -> shows_map vs seq M -> shows_map vs seq' M.
Proof.
  intros Hf Hle Hm key. eapply shows_map_ext; [|apply Hm]. intros w. unfold visible. rewrite Forall_forall in Hf.
  split; intros (Hw & Hk & Hs); specialize (Hf w Hw); (split_and!; [done|done|lia]).
Qed.

(** A write adds its version and updates the map. *)
Lemma shows_map_write vs seq M del key value :
  Forall ver_ok vs -> Forall (fun v => v_seq v <= seq) vs -> 0 <= seq -> seq + 1 < 2 ^ 56 -> shows_map vs seq M ->
  shows_map (written_version del key value (seq + 1) :: vs) (seq + 1)
    (if del then delete key M else <[key := value]> M).
Proof.
  intros Hok Hf H0 Hlt Hm k. set (v := written_version del key value (seq + 1)).
  assert (Hk : v_key v = key /\ v_seq v = seq + 1) by (unfold v, written_version; by destruct del).
  destruct Hk as [Hk Hsq]. assert (Hvis : k = key -> visible (v :: vs) k (seq + 1) v)
    by (intros ->; split; [by left|split; [done|lia]]).
  destruct (decide (k = key)) as [->|Hne].
  - split; [|intros Hn; by destruct (Hn v); apply Hvis]. intros w [(Hw & Hkw & _) Hmax].
    assert (w = v) as ->.
    { apply elem_of_cons in Hw as [->|Hw]; [done|]. exfalso. specialize (Hmax v (Hvis eq_refl)).
      rewrite Forall_forall in Hok, Hf. specialize (Hf w Hw). destruct (ver_ok_seq w (Hok w Hw)) as [_ H1].
      unfold stamp, kind_ok in *. assert (0 <= v_kind v) by (unfold v, written_version, KindSet, KindDelete; destruct del; cbn; lia).
      lia. }
    unfold v, written_version, value_of. destruct del; [by rewrite lookup_delete_eq|by rewrite lookup_insert_eq].
  - replace ((if del then delete key M else <[key:=value]> M) !! k) with (M !! k)
      by (destruct del; [by rewrite lookup_delete_ne|by rewrite lookup_insert_ne]).
    eapply shows_map_ext; [|apply (shows_map_later vs seq (seq + 1) M Hf ltac:(lia) Hm)].
    intros w. unfold visible. rewrite elem_of_cons. split; [naive_solver|]. intros ([->|Hw] & Hkw & Hs); [congruence|done].
Qed.

(** What a lookup finds is what the map has. *)
Lemma found_map vs key seq M r :
  shows_map vs seq M -> found vs key seq r ->
  M !! key = match r with Some (val, kind) => if kind =? KindDelete then None else Some val | None => None end.
Proof.
  intros Hm Hf. destruct (Hm key) as [H1 H2]. destruct r as [[val kind]|]; [|by apply H2].
  destruct Hf as (v & Hv & <- & <-). by apply H1.
Qed.

(** ** Running *)

(** The state of a database without tables that stands for [M]; its user keys
    are among [us]. *)
Definition in_memory (us : list bytes) (o : Options) (db : DB) (M : gmap bytes bytes) : Prop :=
  exists vss, dbrep db vss /\ shows_map (concat vss) (seqNum db) M /\ Forall (fun v => v_key v ∈ us) (concat vss) /\
    active_room db (2 ^ 34) /\ closed db = false /\ opts db = o /\ current (versions db) = newVersion.

Lemma dbrep_ver_ok db vss : dbrep db vss -> Forall ver_ok (concat vss).
Proof.
  intros [Hms _ _ _ _ _]. clear -Hms. induction Hms as [|i vs l vss (m & _ & Hm) _ IH]; [constructor|].
  apply Forall_app. split; [by eapply mr_ok|done].
Qed.

Lemma prefix_free_separate us vs key :
  prefix_free us -> key ∈ us -> Forall (fun v => v_key v ∈ us) vs -> key_separate vs key.
Proof.
  intros Hpf Hk Hvs. eapply Forall_impl; [exact Hvs|]. intros v Hv. destruct (Hpf _ _ Hk Hv) as [->|?]; [by left|by right].
Qed.

Lemma write_in_memory us o db M rnd del key value :
  in_memory us o db M -> key ∈ us -> seqNum db + 1 < 2 ^ 56 ->
  maxNodeSize + (blen key + 8) + blen value < 2 ^ 32 ->
  exists db' e, write db (insertion del rnd key value) = Some (db', e) /\ seqNum db' = seqNum db + 1 /\
    match e with
    | None => in_memory us o db' (if del then delete key M else <[key := value]> M)
    | Some e => e = ErrMem (ErrArena ErrFull) /\ too_large o key value /\ in_memory us o db' M
    end.
Proof.
  intros (vss & Hdb & Hm & Hus & Hroom & Hc & Ho & Hv) Hk Hlt Hsz. pose proof (dr_seqNum _ _ Hdb) as H0.
  destruct (write_spec db vss rnd del key value Hdb Hroom Hc Hlt Hsz)
    as (db' & e & vss' & E & Hdb' & Hroom' & Hs & (_ & S2 & S3 & _ & _ & S5 & _) & He).
  exists db', e. split; [done|]. split; [done|]. destruct e as [e|].
  - destruct He as (-> & Ec & Hbig). rewrite Ho in Hbig. split; [done|]. split; [done|]. exists vss'. rewrite Ec.
    split; [done|]. split; [by apply (shows_map_later _ (seqNum db)); [apply Hdb|lia|]|].
    split; [done|]. split; [done|]. split_and!; congruence.
  - exists vss'. rewrite He, Hs. split; [done|]. split.
    { apply shows_map_write; [by eapply dbrep_ver_ok|apply Hdb|done|done|done]. }
    split; [constructor; [by destruct del|done]|]. split; [done|]. split_and!; congruence.
Qed.

Lemma run_op_refines us o db M op :
  prefix_free us -> in_memory us o db M -> op_key op ∈ us -> seqNum db + 1 < 2 ^ 56 ->
  maxNodeSize + (blen (op_key op) + 8) + blen (op_value op) < 2 ^ 32 ->
  exists db' r M', run_op db op = Some (db', r) /\ map_step o M op r M' /\ in_memory us o db' M' /\
    seqNum db' <= seqNum db + 1.
Proof.
  intros Hpf Hmem Hk Hlt Hsz. destruct op as [rnd key value|rnd key|key]; cbn [run_op op_key op_value] in *.
  - destruct (write_in_memory us o db M rnd false key value Hmem Hk Hlt Hsz) as (db' & e & E & Hs & He).
    change (Set_ db rnd key value) with (write db (insertion false rnd key value)). rewrite E. cbn [mbind option_bind].
    destruct e as [e|].
    + destruct He as (-> & Hbig & Hmem'). exists db', (Wrote full), M. split_and!; [done|by constructor|done|lia].
    + eexists db', (Wrote None), _. split_and!; [done|constructor|exact He|lia].
  - destruct (write_in_memory us o db M rnd true key [] Hmem Hk Hlt Hsz) as (db' & e & E & Hs & He).
    change (Delete db rnd key) with (write db (insertion true rnd key [])). rewrite E. cbn [mbind option_bind].
    destruct e as [e|].
    + destruct He as (-> & Hbig & Hmem'). exists db', (Wrote full), M. split_and!; [done|by constructor|done|lia].
    + eexists db', (Wrote None), _. split_and!; [done|constructor|exact He|lia].
  - pose proof Hmem as (vss & Hdb & Hm & Hus & _ & Hc & _ & Hv). pose proof (dr_seqNum _ _ Hdb).
    destruct (get_at_spec db vss newVersion key (seqNum db) Hdb) as (r & Hr & Eg);
      [unfold seq_ok; lia|by eapply prefix_free_separate|].
    pose proof (found_map _ _ _ _ _ Hm Hr) as Hf. pose proof (map_get o M key) as Hst. rewrite Hf in Hst.
    unfold Get, currentVersion. rewrite Hc, Hv, Eg. destruct r as [[val kind]|].
    + cbn [mbind option_bind]. exists db. eexists _, M. split; [reflexivity|]. split; [|by split; [|lia]].
      by destruct (kind =? KindDelete).
    + rewrite getFromVersion_empty. cbn [mbind option_bind]. exists db. eexists _, M.
      split; [reflexivity|]. split; [exact Hst|]. split; [done|lia].
Qed.

Lemma run_ops_refines us o : forall ops db M,
  prefix_free us -> in_memory us o db M -> Forall (fun op => op_key op ∈ us) ops ->
  Forall (fun op => maxNodeSize + (blen (op_key op) + 8) + blen (op_value op) < 2 ^ 32) ops ->
  seqNum db + blen ops < 2 ^ 56 ->
  exists db' rs M', run_ops db ops = Some (db', rs) /\ map_steps o M ops rs M' /\ in_memory us o db' M'.
Proof.
  induction ops as [|op ops IH]; intros db M Hpf Hmem Hk Hsz Hlt.
  { exists db, [], M. split; [done|]. by split; [constructor|]. }
  apply Forall_cons in Hk as [Hk Hks], Hsz as [Hsz Hszs]. rewrite blen_cons in Hlt. pose proof (blen_nonneg ops).
  destruct (run_op_refines us o db M op Hpf Hmem Hk ltac:(lia) Hsz) as (db1 & r & M1 & E & Hst & Hmem1 & Hs).
  destruct (IH db1 M1 Hpf Hmem1 Hks Hszs ltac:(lia)) as (db2 & rs & M2 & E2 & Hsts & Hmem2).
  exists db2, (r :: rs), M2. cbn [run_ops]. rewrite E. cbn [mbind option_bind]. rewrite E2.
  split; [done|]. split; [by econstructor|done].
Qed.

(** A database opened on an empty directory. *)
Lemma Open_empty {sorter : SliceSorter} o space :
  maxNodeSize + 4 <= MemtableSize (ensureDefaults o) < 2 ^ 32 ->
  exists db, Open ∅ NotExist (Some space) o = Some (inr db) /\
    exists m, mems (store db) = [m] /\ mrep m [] /\ mem db = 0%nat /\ imm db = [] /\
    active_room db (2 ^ 34) /\ closed db = false /\ opts db = ensureDefaults o /\
    current (versions db) = newVersion /\ seqNum db = 0.
Proof.
  intros Hsz. destruct (New_mrep_room _ Hsz) as (m & E & Hm & Hb & Hn). unfold Open. cbn [recover createManifest].
  rewrite E. cbn [mbind option_bind]. eexists. split; [done|]. exists m. split_and!; try done.
  exists m. split; [done|]. unfold maxNodeSize in *. lia.
Qed.

Lemma Open_in_memory {sorter : SliceSorter} us o space :
  maxNodeSize + 4 <= MemtableSize (ensureDefaults o) < 2 ^ 32 ->
  exists db, Open ∅ NotExist (Some space) o = Some (inr db) /\ in_memory us (ensureDefaults o) db ∅ /\ seqNum db = 0.
Proof.
  intros Hsz. destruct (Open_empty o space Hsz) as (db & E & m & Em & Hm & Ea & Ei & Hroom & Hc & Ho & Hv & Hs).
  exists db. split; [done|]. split; [|done]. exists [[]]. split; [|split; [|by split_and!]].
  - split; rewrite ?Em, ?Ea, ?Ei, ?Hs, ?Ho; [|by apply NoDup_singleton|repeat constructor|constructor|done|done].
    constructor; [by exists m|constructor].
  - intros key. split; [|done]. intros v [(Hin & _) _]. by apply not_elem_of_nil in Hin.
Qed.

(** C6: The database is a map as long as nothing is flushed.  Open an empty
    directory and run any sequence of [Set], [Delete] and [Get] over keys none
    of which is a proper prefix of another, whatever heights the skiplist
    draws and however often the memtable fills up: nothing panics, every read
    returns the value last set or [ErrNotFound], and a write is refused, without
    effect, only when it does not fit into an empty memtable. *)
Theorem db_refines_map {sorter : SliceSorter} (o : Options) (space : Z) (ops : list client_op) :
  maxNodeSize + 4 <= MemtableSize (ensureDefaults o) < 2 ^ 32 ->
  prefix_free (op_key <$> ops) ->
  Forall (fun op => maxNodeSize + (blen (op_key op) + 8) + blen (op_value op) < 2 ^ 32) ops ->
  blen ops < 2 ^ 56 ->
  exists db db' rs M, Open ∅ NotExist (Some space) o = Some (inr db) /\
    run_ops db ops = Some (db', rs) /\ map_steps (ensureDefaults o) ∅ ops rs M.
Proof.
  intros Hsz Hpf Hfit Hlen. destruct (Open_in_memory (op_key <$> ops) o space Hsz) as (db & E & Hmem & Hs).
  destruct (run_ops_refines _ _ ops db ∅ Hpf Hmem) as (db' & rs & M & Er & Hm & _); [|done|by rewrite Hs|].
  - apply Forall_forall. intros op Hop. by apply list_elem_of_fmap_2.
  - by exists db, db', rs, M.
Qed.
