(* ===== verification/DBThreads.v ===== *)
(** The database shared by goroutines ([pkg/lsm/lsm.go]): [Set], [Delete] and
    [Get] cut where other calls can come in between, any number of calls in
    progress at a time, their steps in any order.

    A step is one atomic operation (of [closed], [seqNum], [lastSeqNum]), one
    critical section of [db.mu], or the search of one memtable.  An insertion
    and a search are single steps because the skiplist is linearizable, which
    SkiplistConc.v shows for their atomic operations.  Nothing is flushed: the
    background loops are left out.  A [None] of a step is a Go panic. *)
From stdpp Require Import sorting.
From S2P Require Import Prelude SliceSort Binary Arena Skiplist InternalKey Memtable MemtableSpec Version Manifest Heap Merged MergeIterator Sources DBIterator DB DBSpec.

#[local] Open Scope Z_scope.

(** ** Steps *)

(** The next step of a call, with the locals it needs. *)
Inductive pc : Type :=
| Started                             (* load closed *)
| WTake                               (* seqNum.Add(1) *)
| WStore (seq : Z)                    (* lastSeqNum.Store *)
| WInsert (seq : Z)                   (* under the lock: the insertion *)
| GLoad                               (* load seqNum *)
| GSnap (seq : Z)                     (* under the lock: the memtables *)
| GSearch (seq : Z) (ms : list nat).  (* the next memtable; the tables after the last *)

Definition is_write (o : client_op) : bool :=
  match o with OGet _ => false | _ => true end.

(** What the call inserts, and the version that is. *)
Definition op_insert (o : client_op) : Memtable -> Z -> option (Memtable * result add_error unit) :=
  match o with
  | OSet rnd key value => insertion false rnd key value
  | ODelete rnd key => insertion true rnd key []
  | OGet _ => fun _ _ => None
  end.

Definition op_version (o : client_op) (seq : Z) : version :=
  match o with
  | ODelete _ key => written_version true key [] seq
  | _ => written_version false (op_key o) (op_value o) seq
  end.

Definition closed_reply (o : client_op) : reply :=
  if is_write o then Wrote (Some ErrClosed) else Read (inl ErrClosed).

(** What [Get] makes of a version it found. *)
Definition found_reply (val : bytes) (kind : Z) : reply :=
  Read (if kind =? KindDelete then inl ErrNotFound else inr val).

Definition tstep (db : DB) (o : client_op) (p : pc) : option (DB * (pc + reply)) :=
  match p with
  | Started =>
      Some (db, if closed db then inr (closed_reply o) else inl (if is_write o then WTake else GLoad))
  | WTake => let '(db, seq) := take_seqNum db in Some (db, inl (WStore seq))
  | WStore seq => Some (store_lastSeqNum db seq, inl (WInsert seq))
  | WInsert seq => '(db, e) ← insert_locked db (op_insert o) seq; Some (db, inr (Wrote e))
  | GLoad => Some (db, inl (GSnap (seqNum db)))
  | GSnap seq => Some (db, inl (GSearch seq (mem db :: rev (imm db))))
  | GSearch seq (m :: ms) =>
      mt ← mems (store db) !! m;
      r ← getFromMemtable mt (op_key o) seq;
      Some (db, match r with
                | Some (val, kind) => inr (found_reply val kind)
                | None => inl (GSearch seq ms)
                end)
  | GSearch seq [] =>
      '(db, r) ← getFromVersion db (currentVersion (versions db)) (op_key o) seq;
      Some (db, inr (Read r))
  end.

(** ** Calls in progress *)

(** A call, the time it began and where it stands, or what it returned and
    when. *)
Record task : Type := mkTask { t_op : client_op; t_begin : nat; t_state : pc + reply * nat }.

(** The clock counts the steps of all calls. *)
Record world : Type := mkWorld { shared : DB; tasks : list task; now : nat }.

(** The scheduler's choices: a call begins, or takes a step. *)
Inductive action : Type := Begin (o : client_op) | Run (i : nat).

Definition tick (w : world) (db : DB) (ts : list task) : world := mkWorld db ts (now w + 1)%nat.

Definition exec (w : world) (act : action) : option world :=
  match act with
  | Begin o => Some (tick w (shared w) (tasks w ++ [mkTask o (now w) (inl Started)]))
  | Run i =>
      t ← tasks w !! i;
      match t_state t with
      | inl p =>
          '(db, q) ← tstep (shared w) (t_op t) p;
          let q := match q with inl p => inl p | inr r => inr (r, now w) end in
          Some (tick w db (<[i := mkTask (t_op t) (t_begin t) q]> (tasks w)))
      | inr _ => None
      end
  end.

Fixpoint execs (w : world) (acts : list action) : option world :=
  match acts with
  | [] => Some w
  | act :: acts => w ← exec w act; execs w acts
  end.

Definition begun (acts : list action) : list client_op :=
  omap (fun a => match a with Begin o => Some o | Run _ => None end) acts.

(** ** Linearizability *)

Definition reply_of (t : task) : option reply :=
  match t_state t with inr (r, _) => Some r | inl _ => None end.

(** [x] had returned when [y] began. *)
Definition precedes (x y : task) : Prop :=
  match t_state x with inr (_, e) => (e < t_begin y)%nat | inl _ => False end.

(** An order of the calls, with what each returns in it, that explains them: it
    has every call that returned, with its reply, and some of those in
    progress; it keeps the order of calls that did not overlap; and a map that
    runs the calls one after the other gives these replies. *)
Record linearization (o : Options) (M : gmap bytes bytes) (ts : list task) (L : list (task * reply)) : Prop := {
  li_once : NoDup L.*1;
  li_calls : Forall (fun p => p.1 ∈ ts /\ (reply_of p.1 = Some p.2 \/ reply_of p.1 = None)) L;
  li_complete : forall t r, t ∈ ts -> reply_of t = Some r -> (t, r) ∈ L;
  li_ordered : StronglySorted (fun p q => ~ precedes q.1 p.1) L;
  li_legal : exists M', map_steps o M (t_op <$> L.*1) L.*2 M' }.

(** ** One call alone *)

(** A call that runs without others in between. *)
Inductive runs (o : client_op) : DB -> pc -> DB -> reply -> Prop :=
| runs_end db p db' r : tstep db o p = Some (db', inr r) -> runs o db p db' r
| runs_step db p db1 q db' r :
    tstep db o p = Some (db1, inl q) -> runs o db1 q db' r -> runs o db p db' r.

Lemma runs_search o ms seq : forall js db db' r,
  Forall2 (fun i m => mems (store db) !! i = Some m) js ms ->
  (r0 ← get_mems ms (op_key o) seq;
   match r0 with
   | Some (val, kind) => Some (db, if kind =? KindDelete then inl ErrNotFound else inr val)
   | None => getFromVersion db (currentVersion (versions db)) (op_key o) seq
   end) = Some (db', r) ->
  runs o db (GSearch seq js) db' (Read r).
Proof.
  induction ms as [|m ms IH]; intros js db db' r Hms E.
  - apply Forall2_nil_inv_r in Hms as ->. cbn [get_mems mbind option_bind] in E.
    apply runs_end. cbn [tstep]. by rewrite E.
  - apply Forall2_cons_inv_r in Hms as (i & js' & Hi & Hms & ->). cbn [get_mems] in E.
    destruct (getFromMemtable m (op_key o) seq) as [[[val kind]|]|] eqn:Eg; cbn [mbind option_bind] in E; [| |done].
    + injection E as <- <-. apply runs_end. cbn [tstep]. rewrite Hi. cbn [mbind option_bind]. rewrite Eg.
      cbn [mbind option_bind]. done.
    + eapply runs_step; [|by eapply IH]. cbn [tstep]. rewrite Hi. cbn [mbind option_bind]. by rewrite Eg.
Qed.

(** The steps of a call, one after the other, are the call. *)
Lemma runs_run_op db o db' r : run_op db o = Some (db', r) -> runs o db Started db' r.
Proof.
  assert (Hw : is_write o = true -> forall e, write db (op_insert o) = Some (db', e) -> runs o db Started db' (Wrote e)).
  { intros Hw e. unfold write. destruct (closed db) eqn:Hc.
    - intros [= <- <-]. apply runs_end. cbn [tstep]. rewrite Hc. unfold closed_reply. by rewrite Hw.
    - unfold take_seqNum. intros E. eapply runs_step; [cbn [tstep]; by rewrite Hc, Hw|].
      eapply runs_step; [done|]. eapply runs_step; [done|]. apply runs_end. cbn [tstep]. by rewrite E. }
  destruct o as [rnd key value|rnd key|key]; cbn [run_op]; intros E; apply bind_Some in E as ([db1 x] & E & [= -> <-]).
  - by apply Hw.
  - by apply Hw.
  - unfold Get in E. destruct (closed db) eqn:Hc.
    { injection E as <- <-. apply runs_end. cbn [tstep]. by rewrite Hc. }
    unfold get_at in E. apply bind_Some in E as (ms & Ems & E). apply mapM_Some_1 in Ems.
    eapply runs_step; [cbn [tstep]; by rewrite Hc|]. eapply runs_step; [done|]. eapply runs_step; [done|].
    by eapply runs_search.
Qed.
