(* ===== verification/DBStamps.v ===== *)
(** Calls on the database put in an order by stamps: where a write put its
    version, where the version is that a read found.  If stamps respect the
    order of calls that do not overlap on the same key, the calls have a
    linearization. *)
From stdpp Require Import sorting.
From S2P Require Import Prelude SliceSort Binary Arena Skiplist InternalKey Memtable MemtableSpec Version Manifest Heap Merged MergeIterator Sources DBIterator DB DBSpec DBThreads.

#[local] Open Scope Z_scope.

(** A call with what it returns and its stamp. *)
Record item : Type := mkItem { i_task : task; i_reply : reply; i_stamp : Z }.

Definition i_op (x : item) : client_op := t_op (i_task x).
Definition i_begin (x : item) : nat := t_begin (i_task x).
Definition i_key (x : item) : bytes := op_key (i_op x).

(** A write that was refused, and one that was not. *)
Definition i_refused (x : item) : bool := match i_reply x with Wrote (Some _) => true | _ => false end.
Definition i_write (x : item) : bool := is_write (i_op x) && negb (i_refused x).

(** Calls that depend on each other; a refused write depends on none. *)
Definition i_group (x : item) : bytes + nat := if i_refused x then inr (i_begin x) else inl (i_key x).

Lemma i_group_key x y : i_refused x = false -> i_refused y = false -> i_key y = i_key x -> i_group y = i_group x.
Proof. unfold i_group. by intros -> -> ->. Qed.
Lemma i_write_refused x : i_write x = true -> i_refused x = false.
Proof. unfold i_write. by destruct (is_write _), (i_refused x). Qed.

(** What a write leaves at its key, and the reply of a read that sees it. *)
Definition leaves (o : client_op) : option bytes :=
  match o with OSet _ _ v => Some v | _ => None end.
Definition got (v : option bytes) : reply :=
  Read (match v with Some v => inr v | None => inl ErrNotFound end).

(** Stamps first, then writes before reads, then the time the call began. *)
Definition rank_le (x y : item) : Prop :=
  i_stamp x < i_stamp y \/
  i_stamp x = i_stamp y /\
    (i_write x = true /\ i_write y = false \/ i_write x = i_write y /\ (i_begin x <= i_begin y)%nat).

#[export] Instance rank_le_dec x y : Decision (rank_le x y).
Proof. unfold rank_le. apply _. Defined.

Lemma rank_le_total x y : rank_le x y \/ rank_le y x.
Proof. unfold rank_le. destruct (i_write x), (i_write y); lia. Qed.
Lemma rank_le_trans x y z : rank_le x y -> rank_le y z -> rank_le x z.
Proof. unfold rank_le. destruct (i_write x), (i_write y), (i_write z); lia. Qed.
Lemma rank_le_antisym x y : rank_le x y -> rank_le y x -> i_begin x = i_begin y.
Proof. unfold rank_le. destruct (i_write x), (i_write y); lia. Qed.
Lemma rank_le_stamp x y : rank_le x y -> i_stamp x <= i_stamp y.
Proof. unfold rank_le. lia. Qed.

Lemma NoDup_fmap_inj {A B} (f : A -> B) (l : list A) x y :
  NoDup (f <$> l) -> x ∈ l -> y ∈ l -> f x = f y -> x = y.
Proof.
  intros Hd [i Hi]%list_elem_of_lookup [j Hj]%list_elem_of_lookup E.
  assert (i = j) as ->; [|congruence].
  eapply NoDup_lookup; [exact Hd|by rewrite list_lookup_fmap, Hi|rewrite list_lookup_fmap, Hj; cbn; by rewrite E].
Qed.

(** What the stamps of the calls [its] on a database that started as [M] have
    to satisfy. *)
Record stamped (o : Options) (M : gmap bytes bytes) (its : list item) : Prop := {
  st_once : NoDup (i_begin <$> its);
  st_ends : forall x r e, x ∈ its -> t_state (i_task x) = inr (r, e) -> (i_begin x <= e)%nat;
  st_writes : forall x, x ∈ its -> i_write x = true -> i_reply x = Wrote None;
  st_refused : forall x, x ∈ its -> i_refused x = true -> is_write (i_op x) = true /\ i_reply x = Wrote full /\
    too_large o (i_key x) (op_value (i_op x));
  st_distinct : forall x y, x ∈ its -> y ∈ its -> i_write x = true -> i_write y = true ->
    i_stamp x = i_stamp y -> x = y;
  st_reads : forall x, x ∈ its -> is_write (i_op x) = false ->
    (exists y, y ∈ its /\ i_write y = true /\ i_key y = i_key x /\ i_stamp y = i_stamp x /\
      i_reply x = got (leaves (i_op y))) \/
    (forall y, y ∈ its -> i_write y = true -> i_key y = i_key x -> i_stamp x < i_stamp y) /\
      i_reply x = got (M !! i_key x);
  st_order : forall x y, x ∈ its -> y ∈ its -> i_refused x = false -> i_refused y = false -> i_key x = i_key y ->
    precedes (i_task x) (i_task y) ->
    i_stamp x <= i_stamp y /\ (i_write y = true -> i_stamp x < i_stamp y) }.

Section order.
Context (o : Options) (M : gmap bytes bytes) (its : list item) (Hst : stamped o M its).

(** ** The moment a call takes effect *)

(** When the last of the calls began that have to come before it. *)
Definition point (x : item) : nat :=
  max_list (i_begin <$> base.filter (fun y => i_group y = i_group x /\ rank_le y x) its).

Lemma point_ge x y : y ∈ its -> i_group y = i_group x -> rank_le y x -> (i_begin y <= point x)%nat.
Proof.
  intros Hy Hk Hr. apply max_list_elem_of_le, list_elem_of_fmap_2, list_elem_of_filter. done.
Qed.

Lemma point_elem x : x ∈ its ->
  exists y, y ∈ its /\ i_group y = i_group x /\ rank_le y x /\ i_begin y = point x.
Proof.
  intros Hx. unfold point. set (ys := base.filter _ its).
  assert (Hys : forall y, y ∈ ys <-> (i_group y = i_group x /\ rank_le y x) /\ y ∈ its) by (intros y; unfold ys; by rewrite list_elem_of_filter).
  assert (Hxs : x ∈ ys) by (apply Hys; split; [|done]; split; [done|]; by destruct (rank_le_total x x)).
  assert (Hne : i_begin <$> ys <> []) by (intros E%fmap_nil_inv; rewrite E in Hxs; by apply not_elem_of_nil in Hxs).
  apply max_list_elem_of, list_elem_of_fmap_1 in Hne as (y & E & [[H1 H2] H3]%Hys). by exists y.
Qed.

Lemma point_mono x y : x ∈ its -> i_group x = i_group y -> rank_le x y -> (point x <= point y)%nat.
Proof.
  intros Hx Hk Hr. destruct (point_elem x Hx) as (z & Hz & Hkz & Hrz & <-).
  apply point_ge; [done|congruence|by eapply rank_le_trans].
Qed.

(** It lies between the beginning and the end of the call. *)
Lemma point_begin x : x ∈ its -> (i_begin x <= point x)%nat.
Proof. intros Hx. apply point_ge; [done..|]. by destruct (rank_le_total x x). Qed.

Lemma point_end x r e : x ∈ its -> t_state (i_task x) = inr (r, e) -> (point x <= e)%nat.
Proof.
  intros Hx He. destruct (point_elem x Hx) as (y & Hy & Hk & Hr & <-).
  destruct (decide (e < i_begin y)%nat) as [Hlt|]; [|lia]. exfalso. pose proof (st_ends _ _ _ Hst x r e Hx He).
  unfold i_group in Hk. destruct (i_refused x) eqn:Ex, (i_refused y) eqn:Ey; [injection Hk; lia|done|done|].
  injection Hk as Hk. destruct (st_order _ _ _ Hst x y Hx Hy Ex Ey (eq_sym Hk)) as [H1 H2]; [unfold precedes; by rewrite He|].
  destruct Hr as [Hr|(E & [[Hr _]|[Hr ?]])]; [lia| |lia]. destruct (i_write y) eqn:Hw; [specialize (H2 eq_refl); lia|].
  lia.
Qed.

(** ** The order *)

Definition ord (x y : item) : Prop :=
  (point x < point y)%nat \/ point x = point y /\ rank_le x y.

#[local] Instance ord_dec x y : Decision (ord x y).
Proof. unfold ord. apply _. Defined.
#[local] Instance ord_total : Total ord.
Proof.
  intros x y. unfold ord. destruct (Nat.lt_trichotomy (point x) (point y)) as [|[]]; [tauto| |tauto].
  destruct (rank_le_total x y); [left|right]; right; done.
Qed.
#[local] Instance ord_trans : Transitive ord.
Proof.
  intros x y z [H1|[H1 H2]] [H3|[H3 H4]]; unfold ord; [lia..|]. right. split; [congruence|by eapply rank_le_trans].
Qed.

(** Among calls that depend on each other it is the order of the ranks. *)
Lemma ord_rank x y : y ∈ its -> i_group x = i_group y -> ord x y -> rank_le x y.
Proof.
  intros Hy Hk Ho. destruct (rank_le_total x y) as [|Hr]; [done|].
  pose proof (point_mono y x Hy (eq_sym Hk) Hr). destruct Ho as [|[_ Ho]]; [lia|done].
Qed.

Lemma ord_real_time x y : x ∈ its -> y ∈ its -> ord x y -> ~ precedes (i_task y) (i_task x).
Proof.
  unfold precedes. intros Hx Hy Ho. destruct (t_state (i_task y)) as [|[r e]] eqn:E; [tauto|].
  pose proof (point_begin x Hx). pose proof (point_end y r e Hy E). unfold i_begin in *. destruct Ho as [?|[? _]]; lia.
Qed.

(** ** Running the calls in this order *)

(** The map after the calls [xs]: at each key what the write with the largest
    stamp left. *)
Definition holds (N : gmap bytes bytes) (xs : list item) : Prop := forall key,
  (forall x, x ∈ xs -> i_write x = true -> i_key x = key ->
     (forall y, y ∈ xs -> i_write y = true -> i_key y = key -> i_stamp y <= i_stamp x) ->
     N !! key = leaves (i_op x)) /\
  ((forall x, x ∈ xs -> i_write x = true -> i_key x <> key) -> N !! key = M !! key).

Definition run_on (N : gmap bytes bytes) (op : client_op) : gmap bytes bytes :=
  match op with OSet _ k v => <[k := v]> N | ODelete _ k => delete k N | OGet _ => N end.

Lemma run_on_key N op : is_write op = true -> run_on N op !! op_key op = leaves op.
Proof. destruct op; intros; cbn; by simplify_map_eq. Qed.
Lemma run_on_other N op key : op_key op <> key -> run_on N op !! key = N !! key.
Proof. intros Hne. destruct op; cbn in *; by simplify_map_eq. Qed.

Lemma holds_write N xs x : holds N xs -> i_write x = true ->
  (forall y, y ∈ xs -> i_write y = true -> i_key y = i_key x -> i_stamp y < i_stamp x) ->
  holds (run_on N (i_op x)) (xs ++ [x]).
Proof.
  intros Hh Hw Hmax key. destruct (Hh key) as [H1 H2]. destruct (decide (i_key x = key)) as [Hk|Hk].
  - split.
    + intros y Hy Hwy Hky Hy'. assert (y = x) as ->.
      { apply elem_of_app in Hy as [Hy|Hy%list_elem_of_singleton]; [|done]. exfalso.
        specialize (Hmax y Hy Hwy ltac:(congruence)). specialize (Hy' x ltac:(apply elem_of_app; right; by left) Hw Hk). lia. }
      rewrite <- Hk. apply andb_prop in Hw as [Hw _]. by apply run_on_key.
    + intros Hn. destruct (Hn x); [|done..]. apply elem_of_app. right. by left.
  - rewrite run_on_other by done. split.
    + intros y Hy Hwy Hky Hy'. apply elem_of_app in Hy as [Hy|Hy%list_elem_of_singleton]; [|congruence].
      apply H1; [done..|]. intros z Hz. apply Hy'. apply elem_of_app. by left.
    + intros Hn. apply H2. intros y Hy. apply Hn. apply elem_of_app. by left.
Qed.

Lemma holds_read N xs x : holds N xs -> i_write x = false -> holds N (xs ++ [x]).
Proof.
  intros Hh Hw key. destruct (Hh key) as [H1 H2]. split.
  - intros y Hy Hwy Hky Hy'. apply elem_of_app in Hy as [Hy|Hy%list_elem_of_singleton]; [|congruence].
    apply H1; [done..|]. intros z Hz. apply Hy'. apply elem_of_app. by left.
  - intros Hn. apply H2. intros y Hy. apply Hn. apply elem_of_app. by left.
Qed.

(** The next call in the order: a write has the largest stamp so far, a read
    comes after the write it saw and before later ones. *)
Lemma next_after xs x rest y :
  StronglySorted ord (xs ++ x :: rest) -> xs ++ x :: rest ≡ₚ its -> i_group y = i_group x ->
  y ∈ its -> y ∈ xs <-> y <> x /\ rank_le y x.
Proof.
  intros Hs Hp Hk Hy. assert (Hin : forall z, z ∈ xs ++ x :: rest -> z ∈ its) by (intros z; by rewrite Hp).
  assert (Hx : x ∈ its) by (apply Hin, elem_of_app; right; by left).
  assert (Hd : NoDup (xs ++ x :: rest)) by (rewrite Hp; eapply NoDup_fmap_1, Hst).
  apply NoDup_app in Hd as (_ & Hd & _). split.
  - intros Hyx. split; [intros ->; destruct (Hd x Hyx); by left|]. apply ord_rank; [done..|].
    eapply StronglySorted_app_1_elem_of; [exact Hs|done|by left].
  - intros [Hne Hr]. rewrite <- Hp in Hy. apply elem_of_app in Hy as [|[->|Hy]%elem_of_cons]; [done..|].
    exfalso. apply Hne. apply StronglySorted_app_1_r in Hs. apply StronglySorted_inv in Hs as [_ Hs].
    rewrite Forall_forall in Hs. assert (Hyi : y ∈ its) by (apply Hin, elem_of_app; right; by right).
    eapply (NoDup_fmap_inj i_begin its); [apply Hst|done..|]. apply rank_le_antisym; [done|].
    apply ord_rank; [done..|]. by apply Hs.
Qed.

(** A read gives what the map has. *)
Lemma read_legal N xs x rest :
  StronglySorted ord (xs ++ x :: rest) -> xs ++ x :: rest ≡ₚ its -> holds N xs -> is_write (i_op x) = false ->
  i_reply x = got (N !! i_key x).
Proof.
  intros Hs Hp Hh Hw. assert (Hin : forall z, z ∈ xs -> z ∈ its) by (intros z Hz; rewrite <- Hp; apply elem_of_app; by left).
  assert (Hx : x ∈ its) by (rewrite <- Hp; apply elem_of_app; right; by left).
  assert (Hwx : i_write x = false) by (unfold i_write; by rewrite Hw). destruct (Hh (i_key x)) as [H1 H2].
  assert (Hnr : i_refused x = false) by (unfold i_refused; destruct (st_reads _ _ _ Hst x Hx Hw) as [(y & _ & _ & _ & _ & ->)|[_ ->]]; done).
  assert (Hnext : forall y, i_write y = true -> i_key y = i_key x -> y ∈ its -> y ∈ xs <-> y <> x /\ rank_le y x).
  { intros y Hwy Hk. apply (next_after xs x rest); [done..|]. apply i_group_key; [done|by apply i_write_refused|done]. }
  destruct (st_reads _ _ _ Hst x Hx Hw) as [(y & Hy & Hwy & Hk & E & ->)|[Hn ->]]; f_equal; symmetry.
  - apply (H1 y); [|done..|].
    + apply Hnext; [done..|]. split; [congruence|]. unfold rank_le. rewrite Hwy, Hwx. lia.
    + intros z Hz Hwz Hkz. rewrite E. eapply rank_le_stamp. by apply Hnext; [| |apply Hin|].
  - apply H2. intros y Hy Hwy Hk. specialize (Hn y (Hin y Hy) Hwy Hk).
    destruct (proj1 (Hnext y Hwy Hk (Hin y Hy)) Hy) as [_ Hr%rank_le_stamp]. lia.
Qed.

Lemma write_last xs x rest y :
  StronglySorted ord (xs ++ x :: rest) -> xs ++ x :: rest ≡ₚ its -> i_write x = true ->
  y ∈ xs -> i_write y = true -> i_key y = i_key x -> i_stamp y < i_stamp x.
Proof.
  intros Hs Hp Hw Hy Hwy Hk. assert (Hyi : y ∈ its) by (rewrite <- Hp; apply elem_of_app; by left).
  assert (Hx : x ∈ its) by (rewrite <- Hp; apply elem_of_app; right; by left).
  destruct (proj1 (next_after xs x rest y Hs Hp ltac:(apply i_group_key; auto using i_write_refused) Hyi) Hy) as [Hne Hr%rank_le_stamp].
  destruct (decide (i_stamp y = i_stamp x)) as [E|]; [|lia]. destruct Hne. by apply (st_distinct _ _ _ Hst).
Qed.

Lemma next_step N xs x rest :
  StronglySorted ord (xs ++ x :: rest) -> xs ++ x :: rest ≡ₚ its -> holds N xs ->
  exists N', map_step o N (i_op x) (i_reply x) N' /\ holds N' (xs ++ [x]).
Proof.
  intros Hs Hp Hh. assert (Hx : x ∈ its) by (rewrite <- Hp; apply elem_of_app; right; by left).
  destruct (i_write x) eqn:Hw.
  - exists (run_on N (i_op x)). split.
    + rewrite (st_writes _ _ _ Hst x Hx Hw). apply andb_prop in Hw as [Hw _].
      destruct (i_op x); [apply map_set|apply map_delete|done].
    + apply holds_write; [done..|]. intros y. by eapply write_last.
  - exists N. split; [|by apply holds_read]. destruct (is_write (i_op x)) eqn:Ho.
    + unfold i_write in Hw. rewrite Ho in Hw. destruct (i_refused x) eqn:Hr; [|done].
      destruct (st_refused _ _ _ Hst x Hx Hr) as (_ & -> & Hbig). unfold i_key in Hbig.
      destruct (i_op x); [by apply map_set_refused|by apply map_delete_refused|done].
    + rewrite (read_legal N xs x rest) by done. unfold i_key in *. destruct (i_op x); [done..|]. apply map_get.
Qed.

Lemma legal_from rest : forall N xs,
  StronglySorted ord (xs ++ rest) -> xs ++ rest ≡ₚ its -> holds N xs ->
  exists N', map_steps o N (i_op <$> rest) (i_reply <$> rest) N'.
Proof.
  induction rest as [|x rest IH]; intros N xs Hs Hp Hh; [eexists; constructor|].
  destruct (next_step N xs x rest Hs Hp Hh) as (N1 & H1 & H2).
  destruct (IH N1 (xs ++ [x])) as [N' HN]; [by rewrite <- app_assoc..|done|].
  exists N'. by econstructor.
Qed.

(** ** The linearization *)

Lemma stamped_linearization ts :
  Forall (fun x => i_task x ∈ ts /\ (reply_of (i_task x) = Some (i_reply x) \/ reply_of (i_task x) = None)) its ->
  (forall t r, t ∈ ts -> reply_of t = Some r -> exists x, x ∈ its /\ i_task x = t /\ i_reply x = r) ->
  exists L, linearization o M ts L.
Proof.
  intros Hc Hall. pose (xs := merge_sort ord its).
  assert (Hp : xs ≡ₚ its) by apply merge_sort_Permutation.
  assert (Hs : StronglySorted ord xs) by (apply StronglySorted_merge_sort; apply _).
  exists ((fun x => (i_task x, i_reply x)) <$> xs). split.
  - eapply (NoDup_fmap_1 t_begin). rewrite <- !list_fmap_compose. rewrite Hp. apply Hst.
  - rewrite Hp. by apply Forall_fmap.
  - intros t r Ht Hr. destruct (Hall t r Ht Hr) as (x & Hx & <- & <-). rewrite Hp.
    by apply (list_elem_of_fmap_2 (fun x => (i_task x, i_reply x))).
  - assert (Hin : Forall (fun x => x ∈ its) xs) by (apply Forall_forall; intros x; by rewrite Hp).
    clear Hp. revert Hin. induction Hs as [|x l _ IH Hx]; [constructor|]. intros [Hxi Hin]%Forall_cons.
    constructor; [by apply IH|]. apply Forall_fmap. rewrite Forall_forall in *. intros y Hy.
    apply ord_real_time; by auto.
  - rewrite <- !list_fmap_compose. apply (legal_from xs M []); [done..|]. split; [|done].
    intros x Hx. by apply not_elem_of_nil in Hx.
Qed.
End order.
