(* ===== verification/DBConc.v ===== *)
(** The database shared by goroutines is linearizable as long as nothing is
    flushed: the invariant of the calls in progress, which gives every call the
    place of the version it wrote or saw, and the theorem. *)
From stdpp Require Import sorting.
From S2P Require Import Prelude SliceSort Binary ByteOrder Sorted Io Block Cache CacheSpec CacheInterface TableWriter TableReader Arena Skiplist SkiplistSpec InternalKey Memtable MemtableSpec Version VersionSpec Manifest Heap Merged MergeIterator Sources DBIterator DB DBSpec DBThreads DBStamps.

#[local] Open Scope Z_scope.

(** ** Places of versions *)

(** The stamp of the version with number [n] in the [m]-th memtable: by
    memtable first, because that is how a read searches. *)
Definition place (m : nat) (n : Z) : Z := Z.of_nat m * 2 ^ 56 + n.

Lemma place_le m m' n n' : (m <= m')%nat -> n <= n' -> place m n <= place m' n'.
Proof. unfold place. nia. Qed.
Lemma place_lt m m' n n' : (m <= m')%nat -> n < n' -> place m n < place m' n'.
Proof. unfold place. nia. Qed.
Lemma place_older m m' n n' : (m < m')%nat -> n < 2 ^ 56 -> 0 <= n' -> place m n < place m' n'.
Proof. unfold place. nia. Qed.
Lemma place_pos m n : 0 < n -> 0 < place m n.
Proof. unfold place. nia. Qed.
Lemma place_inj m m' n n' : 0 <= n < 2 ^ 56 -> 0 <= n' < 2 ^ 56 -> place m n = place m' n' -> m = m' /\ n = n'.
Proof. unfold place. nia. Qed.

(** [vss]: the versions in each memtable of the store. *)
Definition lies (vss : list (list version)) (m : nat) (v : version) : Prop := exists vs, vss !! m = Some vs /\ v ∈ vs.

Lemma lies_insert vss m v vs g w : vss !! m = Some vs ->
  lies (<[m := v :: vs]> vss) g w <-> lies vss g w \/ g = m /\ w = v.
Proof.
  intros Hm. unfold lies. destruct (decide (g = m)) as [->|Hne].
  - rewrite list_lookup_insert_eq, Hm by (by eapply lookup_lt_Some). split.
    + intros (? & [= <-] & [->|Hw]%elem_of_cons); [by right|left]. by exists vs.
    + intros [(? & [= <-] & Hw)|[_ ->]]; eexists; (split; [done|]); [by right|by left].
  - rewrite list_lookup_insert_ne by done. naive_solver.
Qed.

Lemma lies_app vss vs g w : lies (vss ++ [vs]) g w <-> lies vss g w \/ g = length vss /\ w ∈ vs.
Proof.
  unfold lies. split.
  - intros (us & [[_ H]|[Hl <-]]%lookup_snoc_Some & Hw); [left; by exists us|by right].
  - intros [(us & H & Hw)|[-> Hw]]; eexists; (split; [|exact Hw]); [by apply lookup_app_l_Some|].
    by apply list_lookup_middle.
Qed.

Lemma op_version_at o s : is_write o = true ->
  v_key (op_version o s) = op_key o /\ v_seq (op_version o s) = s /\ value_of (op_version o s) = leaves o.
Proof. by destruct o. Qed.

(** The number a write in progress has taken. *)
Definition taken (t : task) : option Z :=
  match t_state t with inl (WStore s) | inl (WInsert s) => Some s | _ => None end.

(** The call had returned before the time [b]. *)
Definition ended (x : task) (b : nat) : Prop :=
  match t_state x with inr (_, e) => (e < b)%nat | inl _ => False end.

Section conc.
Context (us : list bytes) (Hpf : prefix_free us).
Context (opt : Options) (Hopt : maxNodeSize + 4 <= MemtableSize opt < 2 ^ 32).

(** ** The memtables *)

Record db_ok (db : DB) (vss : list (list version)) : Prop := {
  do_mems : Forall2 mrep (mems (store db)) vss;
  do_mem : length (mems (store db)) = S (mem db);
  do_imm : imm db = seq 0 (mem db);
  do_room : active_room db (2 ^ 34);
  do_seqNum : 0 <= seqNum db;
  do_open : closed db = false;
  do_tables : current (versions db) = newVersion;
  do_opts : opts db = opt;
  do_keys : forall m v, lies vss m v -> v_key v ∈ us;
  do_bound : forall m v, lies vss m v -> v_seq v <= seqNum db }.

Lemma lies_ok db vss m v : db_ok db vss -> lies vss m v -> ver_ok v /\ (m <= mem db)%nat.
Proof.
  intros Hdb (vs & Hm & Hv). destruct (Forall2_lookup_r _ _ _ _ _ (do_mems _ _ Hdb) Hm) as (mt & Hmt & Hr).
  split; [by apply (proj1 (Forall_forall _ _) (mr_ok _ _ Hr))|]. apply lookup_lt_Some in Hmt.
  rewrite (do_mem _ _ Hdb) in Hmt. lia.
Qed.

Lemma newest_seq vs key s v w : Forall ver_ok vs -> newest vs key s v -> visible vs key s w -> v_seq w <= v_seq v.
Proof.
  intros Hok [[Hv _] Hmax] Hw. specialize (Hmax w Hw). rewrite Forall_forall in Hok.
  destruct (ver_ok_seq v (Hok v Hv)) as [_ H1], (ver_ok_seq w (Hok w (proj1 Hw))) as [_ H2].
  unfold stamp, kind_ok in *. lia.
Qed.

Lemma db_ok_take db vss : db_ok db vss -> seqNum db + 1 < 2 ^ 56 ->
  db_ok (take_seqNum db).1 vss /\ (take_seqNum db).2 = seqNum db + 1.
Proof.
  intros [H1 H2 H3 H4 H5 H6 H7 H8 H9 H10] Hlt. unfold take_seqNum. rewrite u64_small by lia.
  split; [|done]. split; try done; cbn; [lia|]. intros m v Hv. specialize (H10 m v Hv). lia.
Qed.

(** An insertion adds one version to the active memtable or to a new one. *)
Definition op_fits (o : client_op) : Prop :=
  op_key o ∈ us /\ maxNodeSize + (blen (op_key o) + 8) + blen (op_value o) < 2 ^ 32.

Lemma db_ok_signalled b db vss : db_ok db vss -> db_ok (signalled b db) vss.
Proof. intros [H1 H2 H3 H4 H5 H6 H7 H8 H9 H10]. by destruct b; split. Qed.

Lemma db_ok_put db vss m vs m' v : db_ok db vss -> mems (store db) !! mem db = Some m -> vss !! mem db = Some vs ->
  mrep m' (v :: vs) -> v_key v ∈ us -> v_seq v <= seqNum db ->
  active_room (set_store db (set_mem (store db) (mem db) m')) (2 ^ 34) ->
  db_ok (set_store db (set_mem (store db) (mem db) m')) (<[mem db := v :: vs]> vss).
Proof.
  intros [H1 H2 H3 H4 H5 H6 H7 H8 H9 H10] Hm Hvs Hm' Hk Hs Hroom. split; try done; cbn.
  - by apply Forall2_insert.
  - by rewrite length_insert.
  - intros g w [Hw|[_ ->]]%(lies_insert _ _ _ _ _ _ Hvs); [by eapply H9|done].
  - intros g w [Hw|[_ ->]]%(lies_insert _ _ _ _ _ _ Hvs); [by eapply H10|done].
Qed.

Lemma db_ok_seal db vss m vs m' m2 ws : db_ok db vss -> mems (store db) !! mem db = Some m -> vss !! mem db = Some vs ->
  mrep m' vs -> mrep m2 ws -> Forall (fun v => v_key v ∈ us) ws -> Forall (fun v => v_seq v <= seqNum db) ws ->
  active_room (sealed (set_store db (set_mem (store db) (mem db) m')) m2) (2 ^ 34) ->
  db_ok (sealed (set_store db (set_mem (store db) (mem db) m')) m2) (vss ++ [ws]).
Proof.
  intros [H1 H2 H3 H4 H5 H6 H7 H8 H9 H10] Hm Hvs Hm' Hm2 Hk Hs Hroom. rewrite Forall_forall in Hk, Hs. split; try done; cbn.
  - apply Forall2_app; [|by constructor]. rewrite <- (list_insert_id vss (mem db) vs Hvs). by apply Forall2_insert.
  - rewrite length_app. cbn. lia.
  - rewrite length_insert, H2, H3. by rewrite seq_S.
  - intros g w [Hw|[_ Hw]]%lies_app; [by eapply H9|by apply Hk].
  - intros g w [Hw|[_ Hw]]%lies_app; [by eapply H10|by apply Hs].
Qed.

Lemma db_ok_insert db vss o s : db_ok db vss -> is_write o = true -> op_fits o ->
  1 <= s <= seqNum db -> seqNum db < 2 ^ 56 -> (forall m v, lies vss m v -> v_seq v <> s) ->
  exists db' e vss', insert_locked db (op_insert o) s = Some (db', e) /\ db_ok db' vss' /\
    seqNum db' = seqNum db /\ (mem db <= mem db')%nat /\
    match e with
    | None => forall m v, lies vss' m v <-> lies vss m v \/ m = mem db' /\ v = op_version o s
    | Some _ => e = full /\ too_large opt (op_key o) (op_value o) /\ forall m v, lies vss' m v <-> lies vss m v
    end.
Proof.
  intros Hdb Hw [Hk Hfit] Hs Hlt Hnew. pose proof Hdb as [H1 H2 H3 (m & Hm & Hn) H5 H6 H7 H8 H9 H10].
  destruct (Forall2_lookup_l _ _ _ _ _ H1 Hm) as (vs & Hvs & Hmr).
  assert (Ho : exists del rnd, op_insert o = insertion del rnd (op_key o) (op_value o) /\
    op_version o s = written_version del (op_key o) (op_value o) s).
  { destruct o as [rnd k v|rnd k|]; [by exists false, rnd|by exists true, rnd|done]. }
  destruct Ho as (del & rnd & -> & Ev). destruct (op_version_at o s Hw) as (Hvk & Hvq & _).
  destruct (insert_locked_spec db m vs rnd del (op_key o) (op_value o) s Hm Hmr Hn) as (b & db' & e & E & Hroom & Hcase);
    [by rewrite H8|lia|apply Forall_forall; intros v Hv; apply (Hnew (mem db)); by exists vs|done|].
  rewrite <- Ev in Hcase. assert (Hq : v_seq (op_version o s) <= seqNum db) by (rewrite Hvq; lia).
  exists (signalled b db'), e. destruct Hcase as [(m' & Hm' & -> & ->)|(m' & m2 & Hm' & -> & He)].
  - exists (<[mem db := op_version o s :: vs]> vss). split; [done|].
    split; [apply db_ok_signalled; eapply db_ok_put; [done..| |done|done]; by rewrite Hvk|]. rewrite seqNum_signalled.
    assert (Em : mem (signalled b (set_store db (set_mem (store db) (mem db) m'))) = mem db) by (by destruct b).
    rewrite Em. split; [done|]. split; [lia|]. intros g v. by apply lies_insert.
  - assert (Em : mem (signalled b (sealed (set_store db (set_mem (store db) (mem db) m')) m2)) = length vss).
    { rewrite <- (Forall2_length _ _ _ H1). destruct b; cbn; by rewrite length_insert. }
    assert (Hle : (mem db <= length vss)%nat) by (rewrite <- (Forall2_length _ _ _ H1); lia).
    rewrite Em, seqNum_signalled. destruct e as [e|].
    + destruct He as (-> & Hbig & Hm2). exists (vss ++ [[]]). split; [done|].
      split; [by apply db_ok_signalled; eapply db_ok_seal|]. split; [done|]. split; [done|]. rewrite H8 in Hbig.
      split; [done|]. split; [done|]. intros g v. rewrite lies_app. pose proof (not_elem_of_nil v). tauto.
    + exists (vss ++ [[op_version o s]]). split; [done|].
      split; [apply db_ok_signalled; eapply db_ok_seal; [done..| | |done]; repeat constructor; [by rewrite Hvk|done]|].
      split; [done|]. split; [done|]. intros g v. by rewrite lies_app, list_elem_of_singleton.
Qed.

(** ** The invariant *)

(** The stamp of a call on [key]: zero, or the place of a version of which [Q]
    holds. *)
Definition placed (vss : list (list version)) (key : bytes) (sx : Z) (Q : nat -> Z -> Prop) : Prop :=
  sx = 0 \/ exists m v, lies vss m v /\ v_key v = key /\ sx = place m (v_seq v) /\ Q m (v_seq v).

(** What is known of the stamps [st] of the calls on [key] that had returned
    before [b]. *)
Definition known (ts : list task) (st : gmap nat Z) (vss : list (list version)) (key : bytes) (b : nat)
  (Q : nat -> Z -> Prop) : Prop :=
  forall x sx, x ∈ ts -> op_key (t_op x) = key -> ended x b -> st !! t_begin x = Some sx -> placed vss key sx Q.

(** What a read says whose stamp is [s]. *)
Definition read_result (vss : list (list version)) (key : bytes) (s : Z) (r : reply) : Prop :=
  s = 0 /\ r = got None \/
  exists m v, lies vss m v /\ v_key v = key /\ s = place m (v_seq v) /\ r = got (value_of v).

(** A call that returned: its stamp and what it says. *)
Definition result_ok (vss : list (list version)) (o : client_op) (stamp : option Z) (r : reply) : Prop :=
  if is_write o then
    r = Wrote None /\ (exists m n, lies vss m (op_version o n) /\ stamp = Some (place m n)) \/
    r = Wrote full /\ too_large opt (op_key o) (op_value o) /\ stamp = None
  else exists s, stamp = Some s /\ read_result vss (op_key o) s r.

(** The memtables a search has left: from newer to older ones. *)
Definition older_first (ms : list nat) : Prop := StronglySorted (fun i j => (j < i)%nat) ms.

Definition state_ok (w : world) (st : gmap nat Z) (vss : list (list version)) (t : task) : Prop :=
  let o := t_op t in let stamp := st !! t_begin t in
  let before := known (tasks w) st vss (op_key o) (t_begin t) in
  match t_state t with
  | inl Started => stamp = None
  | inl WTake => is_write o = true /\ stamp = None
  | inl (WStore n) | inl (WInsert n) =>
      is_write o = true /\ stamp = None /\ 1 <= n <= seqNum (shared w) /\ (forall m v, lies vss m v -> v_seq v <> n) /\
      before (fun _ n' => n' < n)
  | inl GLoad => is_write o = false /\ stamp = None
  | inl (GSnap n) =>
      is_write o = false /\ stamp = None /\ 0 <= n <= seqNum (shared w) /\ before (fun _ n' => n' <= n)
  | inl (GSearch n ms) =>
      is_write o = false /\ stamp = None /\ 0 <= n <= seqNum (shared w) /\
      older_first ms /\ Forall (fun m => (m <= mem (shared w))%nat) ms /\ before (fun m n' => n' <= n /\ m ∈ ms)
  | inr (r, e) => (t_begin t <= e < now w)%nat /\ result_ok vss o stamp r
  end.

Record task_ok (w : world) (st : gmap nat Z) (vss : list (list version)) (t : task) : Prop := {
  tk_begin : (t_begin t < now w)%nat;
  tk_fits : op_fits (t_op t);
  tk_state : state_ok w st vss t }.

(** [st]: the stamps of the calls that returned, by the time they began. *)
Record cinv (w : world) (st : gmap nat Z) (vss : list (list version)) : Prop := {
  ci_db : db_ok (shared w) vss;
  ci_now : seqNum (shared w) <= Z.of_nat (now w);
  ci_ids : NoDup (t_begin <$> tasks w);
  ci_tasks : forall t, t ∈ tasks w -> task_ok w st vss t;
  ci_stamps : forall k s, st !! k = Some s -> (k < now w)%nat;
  ci_taken : forall x y n, x ∈ tasks w -> y ∈ tasks w -> taken x = Some n -> taken y = Some n -> x = y;
  ci_written : forall m v, lies vss m v -> exists t, t ∈ tasks w /\ is_write (t_op t) = true /\
    st !! t_begin t = Some (place m (v_seq v)) /\ v = op_version (t_op t) (v_seq v);
  ci_distinct : forall x y s, x ∈ tasks w -> y ∈ tasks w -> is_write (t_op x) = true -> is_write (t_op y) = true ->
    st !! t_begin x = Some s -> st !! t_begin y = Some s -> x = y;
  ci_order : forall x y sx sy, x ∈ tasks w -> y ∈ tasks w -> op_key (t_op x) = op_key (t_op y) ->
    ended x (t_begin y) -> st !! t_begin x = Some sx -> st !! t_begin y = Some sy ->
    sx <= sy /\ (is_write (t_op y) = true -> sx < sy) }.

(** A call with a stamp has returned, and its version is where the stamp says. *)
Lemma stamped_result w st vss t s : cinv w st vss -> t ∈ tasks w -> st !! t_begin t = Some s ->
  exists r e, t_state t = inr (r, e) /\
    (if is_write (t_op t) then r = Wrote None /\ exists m n, lies vss m (op_version (t_op t) n) /\ s = place m n
     else read_result vss (op_key (t_op t)) s r).
Proof.
  intros Hinv Ht Hs. pose proof (tk_state _ _ _ _ (ci_tasks _ _ _ Hinv t Ht)) as H. unfold state_ok in H. rewrite Hs in H.
  destruct (t_state t) as [[| |n|n| |n|n ms]|[r e]]; try naive_solver. exists r, e. split; [done|]. destruct H as [_ H].
  unfold result_ok in H. destruct (is_write (t_op t)).
  - destruct H as [[-> (m & n & Hv & [= ->])]|(_ & _ & ?)]; [|done]. split; [done|]. by exists m, n.
  - by destruct H as (s' & [= <-] & H).
Qed.

Lemma stamped_placed w st vss t s : cinv w st vss -> t ∈ tasks w -> st !! t_begin t = Some s ->
  placed vss (op_key (t_op t)) s (fun _ _ => True).
Proof.
  intros Hinv Ht Hs. destruct (stamped_result w st vss t s Hinv Ht Hs) as (r & e & _ & H).
  destruct (is_write (t_op t)) eqn:Hw.
  - destruct H as (_ & m & n & Hv & ->). right. exists m, (op_version (t_op t) n).
    by destruct (op_version_at (t_op t) n Hw) as (-> & -> & _).
  - destruct H as [[-> _]|(m & v & Hv & Hk & -> & _)]; [by left|right]. by exists m, v.
Qed.

(** Of all calls that returned one knows what holds of all versions. *)
Lemma known_all w st vss key b (Q : nat -> Z -> Prop) : cinv w st vss -> (forall m v, lies vss m v -> Q m (v_seq v)) ->
  known (tasks w) st vss key b Q.
Proof.
  intros Hinv HQ x sx Hx <- _ Hs. destruct (stamped_placed w st vss x sx Hinv Hx Hs) as [->|(m & v & Hv & Hk & -> & _)];
    [by left|right]. exists m, v. by auto.
Qed.

Lemma known_mono ts st vss key b (Q Q' : nat -> Z -> Prop) : (forall m n, Q m n -> Q' m n) ->
  known ts st vss key b Q -> known ts st vss key b Q'.
Proof.
  intros HQ Hk x sx Hx Hkey He Hs. destruct (Hk x sx Hx Hkey He Hs) as [->|(m & v & Hv & Hkv & -> & Hq)]; [by left|right].
  exists m, v. by auto.
Qed.

(** ** One call takes a step *)

(** The call returns with the stamp [s]. *)
Record takes_stamp (w : world) (st : gmap nat Z) (t : task) (s : Z) : Prop := {
  ts_order : forall x sx, x ∈ tasks w -> op_key (t_op x) = op_key (t_op t) -> ended x (t_begin t) ->
    st !! t_begin x = Some sx -> sx <= s /\ (is_write (t_op t) = true -> sx < s);
  ts_fresh : is_write (t_op t) = true -> forall x, x ∈ tasks w -> st !! t_begin x <> Some s }.

(** The call after the step. *)
Definition after (t : task) (q : pc + reply) (n : nat) : task :=
  mkTask (t_op t) (t_begin t) (match q with inl p => inl p | inr r => inr (r, n) end).

Section update.
Context (w : world) (st : gmap nat Z) (vss : list (list version)) (Hinv : cinv w st vss).
Context (i : nat) (t : task) (Ht : tasks w !! i = Some t) (Hnone : st !! t_begin t = None).
Context (db' : DB) (q : pc + reply).
#[local] Notation t' := (after t q (now w)).
#[local] Notation w' := (tick w db' (<[i := t']> (tasks w))).

Lemma updated x : x ∈ <[i := t']> (tasks w) -> x = t' \/ x ∈ tasks w /\ t_begin x <> t_begin t.
Proof.
  intros [j Hj]%list_elem_of_lookup. apply list_lookup_insert_Some in Hj as [(_ & <- & _)|[Hne Hj]]; [by left|right].
  split; [by eapply list_elem_of_lookup_2|]. intros E. apply Hne.
  eapply NoDup_lookup; [apply (ci_ids _ _ _ Hinv)|by rewrite list_lookup_fmap, Ht|rewrite list_lookup_fmap, Hj; cbn; by rewrite E].
Qed.

Lemma updated_self : t' ∈ <[i := t']> (tasks w).
Proof. eapply list_elem_of_lookup_2, list_lookup_insert_eq. by eapply lookup_lt_Some. Qed.

Lemma updated_other x : x ∈ tasks w -> t_begin x <> t_begin t -> x ∈ <[i := t']> (tasks w).
Proof.
  intros [j Hj]%list_elem_of_lookup Hne. eapply (list_elem_of_lookup_2 _ j). rewrite list_lookup_insert_ne; [done|].
  intros ->. congruence.
Qed.

Lemma updated_ids : t_begin <$> <[i := t']> (tasks w) = t_begin <$> tasks w.
Proof. rewrite list_fmap_insert. apply list_insert_id. by rewrite list_lookup_fmap, Ht. Qed.

Lemma t_in : t ∈ tasks w.
Proof. by eapply list_elem_of_lookup_2. Qed.

(** It has not ended before anything that has begun. *)
Lemma updated_ended x b : (b <= now w)%nat -> x ∈ <[i := t']> (tasks w) -> ended x b ->
  x ∈ tasks w /\ t_begin x <> t_begin t.
Proof.
  intros Hb [->|Hx]%updated He; [exfalso|done]. unfold ended in He. cbn in He. destruct q; [done|lia].
Qed.

Context (st' : gmap nat Z) (vss' : list (list version)).
Context (Hst : st' = st \/ exists s, st' = <[t_begin t := s]> st /\ takes_stamp w st t s).
Context (Hvs : (forall g v, lies vss' g v <-> lies vss g v) \/
  exists m n, is_write (t_op t) = true /\ taken t = Some n /\ st' !! t_begin t = Some (place m n) /\
    forall g v, lies vss' g v <-> lies vss g v \/ g = m /\ v = op_version (t_op t) n).
Context (Hdb : db_ok db' vss') (Hmem : (mem (shared w) <= mem db')%nat).
Context (Hseq : seqNum (shared w) <= seqNum db' <= Z.of_nat (now w) + 1).
Context (Htk : forall n, taken t' = Some n -> taken t = Some n \/ n = seqNum (shared w) + 1).
Context (Hok : state_ok w' st' vss' t').

Lemma stamp_other k : k <> t_begin t -> st' !! k = st !! k.
Proof. intros Hk. destruct Hst as [E|(s & E & _)]; rewrite E; [done|]. by rewrite lookup_insert_ne. Qed.

Lemma stamp_kept k s : st !! k = Some s -> st' !! k = Some s.
Proof. intros Hk. rewrite stamp_other; [done|congruence]. Qed.

Lemma lies_kept m v : lies vss m v -> lies vss' m v.
Proof. intros Hv. destruct Hvs as [H|(g & n & _ & _ & _ & H)]; apply H; [done|by left]. Qed.

Lemma placed_kept key sx Q : placed vss key sx Q -> placed vss' key sx Q.
Proof. intros [->|(m & v & Hv & H)]; [by left|right]. exists m, v. split; [by apply lies_kept|done]. Qed.

Lemma known_step key b Q : (b <= now w)%nat -> known (tasks w) st vss key b Q -> known (tasks w') st' vss' key b Q.
Proof.
  intros Hb Hk x sx Hx Hkey He Hs. destruct (updated_ended x b Hb Hx He) as [Hx' Hne].
  rewrite stamp_other in Hs by done. apply placed_kept. by eapply Hk.
Qed.

Lemma result_kept o s r : result_ok vss o s r -> result_ok vss' o s r.
Proof.
  unfold result_ok. destruct (is_write o).
  - intros [[-> (m & n & Hv & ->)]|?]; [left|by right]. split; [done|]. exists m, n. split; [by apply lies_kept|done].
  - intros (s' & -> & H). exists s'. split; [done|]. destruct H as [?|(m & v & Hv & H)]; [by left|right].
    exists m, v. split; [by apply lies_kept|done].
Qed.

(** Two calls do not take the same number. *)
Lemma taken_le x n : x ∈ tasks w -> taken x = Some n -> n <= seqNum (shared w).
Proof.
  intros Hx Hn. pose proof (tk_state _ _ _ _ (ci_tasks _ _ _ Hinv x Hx)) as H. unfold state_ok in H. unfold taken in Hn.
  destruct (t_state x) as [[| |n'|n'| |n'|n' ms]|]; try done; injection Hn as ->; lia.
Qed.

Lemma taken_other x n : x ∈ tasks w -> t_begin x <> t_begin t -> taken x = Some n -> taken t' <> Some n.
Proof.
  intros Hx Hne Hn Hn'. destruct (Htk n Hn') as [Hn2| ->].
  - apply Hne. f_equal. exact (ci_taken _ _ _ Hinv x t n Hx t_in Hn Hn2).
  - pose proof (taken_le x _ Hx Hn). lia.
Qed.

Lemma other_state x : x ∈ tasks w -> t_begin x <> t_begin t -> state_ok w st vss x -> state_ok w' st' vss' x.
Proof.
  intros Hx Hne. pose proof (tk_begin _ _ _ _ (ci_tasks _ _ _ Hinv x Hx)) as Hb.
  assert (Hkn : forall key Q, known (tasks w) st vss key (t_begin x) Q -> known (tasks w') st' vss' key (t_begin x) Q)
    by (intros key Q; apply known_step; lia).
  assert (Hnew : forall n, taken x = Some n -> (forall m v, lies vss m v -> v_seq v <> n) -> forall m v, lies vss' m v -> v_seq v <> n).
  { intros n Hn Hf m v Hv. destruct Hvs as [H|(g & n' & Hw & Hn' & _ & H)]; apply H in Hv; [by eapply Hf|].
    destruct Hv as [Hv|[_ ->]]; [by eapply Hf|]. destruct (op_version_at (t_op t) n' Hw) as (_ & -> & _).
    intros ->. apply Hne. f_equal. exact (ci_taken _ _ _ Hinv x t n Hx t_in Hn Hn'). }
  unfold state_ok. unfold taken in Hnew. rewrite stamp_other by done. cbn [shared now].
  destruct (t_state x) as [[| |n|n| |n|n ms]|[r e]]; try done.
  - intros (H1 & H2 & H3 & H4 & H5). split_and!; [done|done|cbn; lia|cbn; lia|by apply Hnew|by apply Hkn].
  - intros (H1 & H2 & H3 & H4 & H5). split_and!; [done|done|cbn; lia|cbn; lia|by apply Hnew|by apply Hkn].
  - intros (H1 & H2 & H3 & H4). split_and!; [done|done|cbn; lia|cbn; lia|by apply Hkn].
  - intros (H1 & H2 & H3 & H4 & H5 & H6). split_and!; [done|done|cbn; lia|cbn; lia|done| |by apply Hkn].
    eapply Forall_impl; [exact H5|]. cbn. lia.
  - intros [H1 H2]. split; [cbn; lia|by apply result_kept].
Qed.

Lemma written_step m v : lies vss' m v -> exists x, x ∈ <[i := t']> (tasks w) /\ is_write (t_op x) = true /\
  st' !! t_begin x = Some (place m (v_seq v)) /\ v = op_version (t_op x) (v_seq v).
Proof.
  assert (Hold : lies vss m v -> exists x, x ∈ <[i := t']> (tasks w) /\ is_write (t_op x) = true /\
      st' !! t_begin x = Some (place m (v_seq v)) /\ v = op_version (t_op x) (v_seq v)).
  { intros Hv. destruct (ci_written _ _ _ Hinv m v Hv) as (x & Hx & Hw & Hs & E). exists x.
    split; [apply updated_other; [done|congruence]|]. split; [done|]. split; [by apply stamp_kept|done]. }
  intros Hv. destruct Hvs as [H|(g & n & Hw & Hn & Hs & H)]; apply H in Hv; [by apply Hold|].
  destruct Hv as [Hv|[-> ->]]; [by apply Hold|]. destruct (op_version_at (t_op t) n Hw) as (_ & -> & _).
  exists t'. split; [apply updated_self|done].
Qed.

Lemma cinv_update : cinv w' st' vss'.
Proof.
  pose proof Hinv as [_ H2 H3 H4 H5 H6 _ H7 H8]. pose proof (H4 t t_in) as [Hb Hf _].
  split; cbn [shared tasks now tick]; [done|lia|by rewrite updated_ids| | | |apply written_step|..].
  - intros x [->|[Hx Hne]]%updated; [by split; cbn; [lia| |]|]. destruct (H4 x Hx).
    split; cbn; [lia|done|by apply other_state].
  - intros k s Hk. destruct (decide (k = t_begin t)) as [->|Hne]; [lia|]. rewrite stamp_other in Hk by done.
    specialize (H5 k s Hk). lia.
  - intros x y n [->|[Hx Hnx]]%updated [->|[Hy Hny]]%updated Hn1 Hn2; [done|..].
    + by destruct (taken_other y n Hy Hny Hn2).
    + by destruct (taken_other x n Hx Hnx Hn1).
    + by eapply H6.
  - intros x y s Hx Hy Hwx Hwy Hsx Hsy.
    assert (Hone : forall z, z ∈ tasks w -> t_begin z <> t_begin t -> is_write (t_op t) = true ->
      st' !! t_begin z = Some s -> st' !! t_begin t = Some s -> False).
    { intros z Hz Hne Hwt Hsz Hs. rewrite stamp_other in Hsz by done.
      destruct Hst as [E|(s' & E & [_ Hfr])]; rewrite E in Hs; [congruence|].
      rewrite lookup_insert_eq in Hs. injection Hs as ->. by eapply Hfr. }
    apply updated in Hx as [->|[Hx Hnx]], Hy as [->|[Hy Hny]]; [done|by destruct (Hone y)|by destruct (Hone x)|].
    rewrite stamp_other in Hsx, Hsy by done. by eapply H7.
  - intros x y sx sy Hx Hy Hk He Hsx Hsy.
    assert (Hby : (t_begin y < now w)%nat) by (apply updated in Hy as [->|[Hy _]]; [done|]; by destruct (H4 y Hy)).
    destruct (updated_ended x (t_begin y) ltac:(lia) Hx He) as [Hx' Hne]. rewrite stamp_other in Hsx by done.
    apply updated in Hy as [->|[Hy Hny]].
    + cbn in Hk, He, Hsy |- *. destruct Hst as [E|(s & E & [Ho _])]; rewrite E in Hsy; [congruence|].
      rewrite lookup_insert_eq in Hsy. injection Hsy as <-. by eapply Ho.
    + rewrite stamp_other in Hsy by done. by eapply H8.
Qed.
End update.

(** ** The steps *)

(** The step of a call leads to where the invariant holds. *)
Definition steps_to (w : world) (i : nat) (t : task) (p : pc) : Prop :=
  exists db' q st' vss', tstep (shared w) (t_op t) p = Some (db', q) /\
    cinv (tick w db' (<[i := after t q (now w)]> (tasks w))) st' vss'.

Section steps.
Context (w : world) (st : gmap nat Z) (vss : list (list version)) (Hinv : cinv w st vss).
Context (Hlt : Z.of_nat (now w) + 1 < 2 ^ 56).
Context (i : nat) (t : task) (Ht : tasks w !! i = Some t).

#[local] Notation o := (t_op t).
#[local] Notation db := (shared w).
#[local] Notation before := (known (tasks w) st vss (op_key o) (t_begin t)).

Lemma task_in : t ∈ tasks w.
Proof. by eapply list_elem_of_lookup_2. Qed.

Lemma step_state p : t_state t = inl p -> state_ok w st vss t /\ st !! t_begin t = None.
Proof.
  intros Hp. pose proof (tk_state _ _ _ _ (ci_tasks _ _ _ Hinv t task_in)) as H. split; [done|]. unfold state_ok in H.
  rewrite Hp in H. destruct p; naive_solver.
Qed.

(** A step that changes nothing but where the call stands. *)
Lemma step_same p q : t_state t = inl p -> tstep db o p = Some (db, q) -> (forall n, taken (after t q (now w)) <> Some n) ->
  state_ok (tick w db (<[i := after t q (now w)]> (tasks w))) st vss (after t q (now w)) -> steps_to w i t p.
Proof.
  intros Hp E Htk Hok. destruct (step_state p Hp) as [_ Hn]. exists db, q, st, vss. split; [done|]. pose proof (ci_now _ _ _ Hinv).
  eapply (cinv_update w st vss Hinv i t Ht Hn); [by left|by left|apply Hinv|done|lia| |done]. intros n Hn'. by destruct (Htk n).
Qed.

(** A read returns. *)
Lemma step_answers p r s : t_state t = inl p -> tstep db o p = Some (db, inr r) -> is_write o = false ->
  takes_stamp w st t s -> read_result vss (op_key o) s r -> steps_to w i t p.
Proof.
  intros Hp E Hw Hts Hres. destruct (step_state p Hp) as [_ Hn]. exists db, (inr r), (<[t_begin t := s]> st), vss. split; [done|].
  pose proof (ci_now _ _ _ Hinv). pose proof (tk_begin _ _ _ _ (ci_tasks _ _ _ Hinv t task_in)).
  eapply (cinv_update w st vss Hinv i t Ht Hn); [right; by exists s|by left|apply Hinv|done|lia|done|].
  split; [cbn; lia|]. unfold result_ok. cbn [t_op t_begin after]. rewrite Hw, lookup_insert_eq. by exists s.
Qed.

(** What was known before the step. *)
Lemma known_same q Q : before Q -> known (<[i := after t q (now w)]> (tasks w)) st vss (op_key o) (t_begin t) Q.
Proof.
  intros Hk x sx Hx Hkx He Hsx. pose proof (tk_begin _ _ _ _ (ci_tasks _ _ _ Hinv t task_in)).
  destruct (updated_ended w st vss Hinv i t Ht q x (t_begin t)) as [Hx' _]; [lia|done..|]. by eapply Hk.
Qed.

Lemma known_number : before (fun _ n => n <= seqNum db).
Proof. apply known_all; [done|]. apply Hinv. Qed.

Lemma step_WTake : t_state t = inl WTake -> steps_to w i t WTake.
Proof.
  intros Hp. destruct (step_state _ Hp) as [Hs Hn]. unfold state_ok in Hs. rewrite Hp in Hs. destruct Hs as [Hw _].
  pose proof (ci_now _ _ _ Hinv). pose proof (do_seqNum _ _ (ci_db _ _ _ Hinv)).
  destruct (db_ok_take db vss (ci_db _ _ _ Hinv) ltac:(lia)) as [Hdb Hq].
  exists (take_seqNum db).1, (inl (WStore (take_seqNum db).2)), st, vss. split; [done|].
  assert (Eq : seqNum (take_seqNum db).1 = (take_seqNum db).2) by done. rewrite Hq in Eq |- *.
  apply (cinv_update w st vss Hinv i t Ht Hn); [by left|by left|exact Hdb|done|lia|by intros n [= <-]; right|].
  split; [done|]. split; [done|]. split; [cbn [shared tick]; lia|]. split.
  - intros m v Hv. pose proof (do_bound _ _ (ci_db _ _ _ Hinv) m v Hv). lia.
  - apply known_same. eapply known_mono; [|apply known_number]. cbn. lia.
Qed.

Lemma step_WStore n : t_state t = inl (WStore n) -> steps_to w i t (WStore n).
Proof.
  intros Hp. destruct (step_state _ Hp) as [Hs Hn]. unfold state_ok in Hs. rewrite Hp in Hs. pose proof (ci_now _ _ _ Hinv).
  exists (store_lastSeqNum db n), (inl (WInsert n)), st, vss. split; [done|].
  apply (cinv_update w st vss Hinv i t Ht Hn); [by left|by left| |done|cbn; lia|by intros k [= <-]; left; unfold taken; rewrite Hp|].
  - destruct (ci_db _ _ _ Hinv) as [D1 D2 D3 D4 D5 D6 D7 D8 D9 D10]. by split.
  - destruct Hs as (H1 & H2 & H3 & H4 & H5). split_and!; [done|done|cbn; lia|cbn; lia|done|by apply known_same].
Qed.

(** The place of an insertion is new, and after those of the calls that had
    returned when it took its number. *)
Lemma insert_stamp n m : is_write o = true -> 1 <= n < 2 ^ 56 -> (forall g v, lies vss g v -> v_seq v <> n) ->
  before (fun _ n' => n' < n) -> (mem db <= m)%nat -> takes_stamp w st t (place m n).
Proof.
  intros Hw Hn Hnew Hk Hm. pose proof (ci_db _ _ _ Hinv) as Hdb. split.
  - intros x sx Hx Hkx He Hs. assert (sx < place m n); [|split; [lia|done]].
    destruct (Hk x sx Hx Hkx He Hs) as [->|(g & v & Hv & _ & -> & Hlt')]; [apply place_pos; lia|].
    destruct (lies_ok db vss g v Hdb Hv) as [_ Hg]. apply place_lt; [lia|done].
  - intros _ x Hx Hs. destruct (stamped_placed w st vss x _ Hinv Hx Hs) as [E|(g & v & Hv & _ & E & _)].
    + pose proof (place_pos m n ltac:(lia)). lia.
    + destruct (lies_ok db vss g v Hdb Hv) as [[Hok _] _]. apply place_inj in E as [_ E]; [|lia..]. by apply (Hnew g v Hv).
Qed.

Lemma step_WInsert n : t_state t = inl (WInsert n) -> steps_to w i t (WInsert n).
Proof.
  intros Hp. destruct (step_state _ Hp) as [Hs Hn]. unfold state_ok in Hs. rewrite Hp in Hs.
  destruct Hs as (Hw & _ & H1 & Hnew & Hk). pose proof (ci_now _ _ _ Hinv).
  pose proof (ci_tasks _ _ _ Hinv t task_in) as [Hb Hfit _].
  destruct (db_ok_insert db vss o n (ci_db _ _ _ Hinv) Hw Hfit) as (db' & e & vss' & E & Hdb & Hq & Hm & He); [lia..|done|].
  assert (Hstep : tstep db o (WInsert n) = Some (db', inr (Wrote e))) by (cbn [tstep]; by rewrite E).
  destruct e as [e|].
  - destruct He as (Ef & Hbig & Hl). rewrite Ef in Hstep. exists db', (inr (Wrote full)), st, vss'. split; [done|].
    apply (cinv_update w st vss Hinv i t Ht Hn); [by left|by left|done|done|lia|done|].
    split; [cbn; lia|]. unfold result_ok. cbn [t_op t_begin after]. rewrite Hw. by right.
  - exists db', (inr (Wrote None)), (<[t_begin t := place (mem db') n]> st), vss'. split; [done|].
    apply (cinv_update w st vss Hinv i t Ht Hn); [right|right|done|done|lia|done|].
    + eexists. split; [done|]. apply insert_stamp; [done|lia|done..].
    + exists (mem db'), n. split; [done|]. unfold taken. rewrite Hp, lookup_insert_eq. by split_and!.
    + split; [cbn; lia|]. unfold result_ok. cbn [t_op t_begin after]. rewrite Hw, lookup_insert_eq. left. split; [done|].
      exists (mem db'), n. split; [apply He; by right|done].
Qed.

(** A step of the search: what calls that had returned before the read left or
    saw lies in the memtables still to be searched. *)
Lemma search_step n m ms : before (fun g n' => n' <= n /\ g ∈ m :: ms) -> is_write o = false -> 0 <= n <= seqNum db ->
  older_first (m :: ms) -> (m <= mem db)%nat ->
  exists mt r, mems (store db) !! m = Some mt /\ getFromMemtable mt (op_key o) n = Some r /\
    match r with
    | Some (val, kind) => exists s, takes_stamp w st t s /\ read_result vss (op_key o) s (found_reply val kind)
    | None => before (fun g n' => n' <= n /\ g ∈ ms)
    end.
Proof.
  intros Hk Hw Hn [_ Ho]%StronglySorted_inv Hm. pose proof (ci_db _ _ _ Hinv) as Hdb. pose proof (ci_now _ _ _ Hinv).
  destruct (lookup_lt_is_Some_2 (mems (store db)) m) as [mt Hmt]; [rewrite (do_mem _ _ Hdb); lia|].
  destruct (Forall2_lookup_l _ _ _ _ _ (do_mems _ _ Hdb) Hmt) as (vs & Hvs & Hmr).
  destruct (tk_fits _ _ _ _ (ci_tasks _ _ _ Hinv t task_in)) as [Hus _].
  destruct (getFromMemtable_spec mt vs (op_key o) n Hmr) as (r & E & Hf); [unfold seq_ok; lia| |].
  { eapply prefix_free_separate; [done..|]. apply Forall_forall. intros v Hv. apply (do_keys _ _ Hdb m). by exists vs. }
  exists mt, r. split; [done|]. split; [done|].
  assert (Hin : forall v, lies vss m v -> v_key v = op_key o -> v_seq v <= n -> visible vs (op_key o) n v)
    by (intros v (vs' & Hv' & Hv) ? ?; split; [congruence|done]).
  destruct r as [[val kind]|].
  - destruct Hf as (v & Hv & <- & <-). pose proof Hv as [(Hvin & Hkv & Hle) _]. assert (Hl : lies vss m v) by (by exists vs).
    destruct (lies_ok db vss m v Hdb Hl) as [[Hok _] _]. exists (place m (v_seq v)). split.
    + split; [|by rewrite Hw]. intros x sx Hx Hkx He Hs. rewrite Hw. split; [|done].
      destruct (Hk x sx Hx Hkx He Hs) as [->|(g & v' & Hv' & Hkv' & -> & Hn' & [->|Hg]%elem_of_cons)].
      * pose proof (place_pos m (v_seq v)). lia.
      * apply place_le; [done|]. eapply newest_seq; [by eapply mr_ok|exact Hv|]. by apply Hin.
      * rewrite Forall_forall in Ho. specialize (Ho g Hg). destruct (lies_ok db vss g v' Hdb Hv') as [[Hok' _] _].
        pose proof (place_older g m (v_seq v') (v_seq v)). lia.
    + right. exists m, v. split_and!; try done. unfold found_reply, value_of. by destruct (_ =? _).
  - intros x sx Hx Hkx He Hs. destruct (Hk x sx Hx Hkx He Hs) as [->|(g & v' & Hv' & Hkv' & -> & Hn' & [->|Hg]%elem_of_cons)];
      [by left| |right; by exists g, v'].
    by destruct (Hf v'); apply Hin.
Qed.

Lemma step_GSearch n ms : t_state t = inl (GSearch n ms) -> steps_to w i t (GSearch n ms).
Proof.
  intros Hp. destruct (step_state _ Hp) as [Hs Hn]. unfold state_ok in Hs. rewrite Hp in Hs.
  destruct Hs as (Hw & _ & Hq & Ho & Hle & Hk). destruct ms as [|m ms].
  - apply (step_answers _ (Read (inl ErrNotFound)) 0); [done| |done| |by left].
    + cbn [tstep]. unfold currentVersion. by rewrite (do_tables _ _ (ci_db _ _ _ Hinv)), getFromVersion_empty.
    + split; [|by rewrite Hw]. intros x sx Hx Hkx He Hs. rewrite Hw. split; [|done].
      destruct (Hk x sx Hx Hkx He Hs) as [->|(g & v & _ & _ & _ & _ & Hg)]; [done|]. by apply not_elem_of_nil in Hg.
  - apply Forall_cons in Hle as [Hm Hle]. destruct (search_step n m ms Hk Hw Hq Ho Hm) as (mt & r & Em & E & Hr).
    assert (Et : tstep db o (GSearch n (m :: ms)) = Some (db, match r with
      | Some (val, kind) => inr (found_reply val kind) | None => inl (GSearch n ms) end))
      by (cbn [tstep]; rewrite Em; cbn [mbind option_bind]; by rewrite E).
    destruct r as [[val kind]|].
    + destruct Hr as (s & Hts & Hres). by eapply step_answers.
    + eapply step_same; [done..|]. apply StronglySorted_inv in Ho as [Ho _].
      split_and!; [done|done|cbn; lia|cbn; lia|done|done|by apply known_same].
Qed.

Lemma older_first_mems m : older_first (m :: rev (seq 0 m)).
Proof.
  induction m as [|m IH]; [repeat constructor|]. rewrite seq_S, rev_app_distr. cbn [rev app].
  constructor; [exact IH|]. constructor; [lia|]. apply StronglySorted_inv in IH as [_ IH].
  eapply Forall_impl; [exact IH|]. cbn. lia.
Qed.

Lemma in_mems g m : (g <= m)%nat -> g ∈ m :: rev (seq 0 m).
Proof.
  intros Hg. apply elem_of_cons. destruct (decide (g = m)) as [|Hne]; [by left|right].
  rewrite list_elem_of_In, <- in_rev. apply in_seq. lia.
Qed.

Lemma step_GSnap n : t_state t = inl (GSnap n) -> steps_to w i t (GSnap n).
Proof.
  intros Hp. destruct (step_state _ Hp) as [Hs Hn]. unfold state_ok in Hs. rewrite Hp in Hs.
  destruct Hs as (Hw & _ & Hq & Hk). pose proof (ci_db _ _ _ Hinv) as Hdb.
  eapply step_same; [done..|]. rewrite (do_imm _ _ Hdb).
  pose proof (older_first_mems (mem db)) as Ho. split_and!; [done|done|cbn; lia|cbn; lia|done| |].
  - constructor; [done|]. apply StronglySorted_inv in Ho as [_ Ho]. eapply Forall_impl; [exact Ho|]. cbn. lia.
  - apply known_same. intros x sx Hx Hkx He Hs.
    destruct (Hk x sx Hx Hkx He Hs) as [->|(g & v & Hv & Hkv & -> & Hle)]; [by left|right]. exists g, v.
    split_and!; try done. apply in_mems. by apply (lies_ok db vss g v Hdb Hv).
Qed.

(** Every call in progress can take its next step: no panic. *)
Lemma step_spec p : t_state t = inl p -> steps_to w i t p.
Proof.
  intros Hp. destruct (step_state _ Hp) as [Hs Hn]. unfold state_ok in Hs. rewrite Hp in Hs.
  destruct p as [| |n|n| |n|n ms].
  - destruct (is_write o) eqn:Hw; (eapply step_same;
      [done|cbn [tstep]; rewrite (do_open _ _ (ci_db _ _ _ Hinv)), Hw; reflexivity|done|by split]).
  - by apply step_WTake.
  - by apply step_WStore.
  - by apply step_WInsert.
  - eapply step_same; [done..|]. destruct Hs as [Hw _]. pose proof (do_seqNum _ _ (ci_db _ _ _ Hinv)).
    split_and!; [done|done|cbn; lia|cbn; lia|apply known_same, known_number].
  - by apply step_GSnap.
  - by apply step_GSearch.
Qed.
End steps.

(** ** Runs *)

(** A call begins. *)
Lemma step_Begin w st vss o : cinv w st vss -> op_fits o ->
  cinv (tick w (shared w) (tasks w ++ [mkTask o (now w) (inl Started)])) st vss.
Proof.
  intros Hinv Ho. pose proof Hinv as [H1 H2 H3 H4 H5 H6 H7 H8 H9].
  assert (Hnew : st !! now w = None).
  { destruct (st !! now w) eqn:E; [|done]. specialize (H5 _ _ E). lia. }
  assert (Hin : forall x, x ∈ tasks w ++ [mkTask o (now w) (inl Started)] -> x ∈ tasks w \/ x = mkTask o (now w) (inl Started))
    by (intros x [|?%list_elem_of_singleton]%elem_of_app; auto).
  assert (Hold : forall x s, x ∈ tasks w ++ [mkTask o (now w) (inl Started)] -> st !! t_begin x = Some s -> x ∈ tasks w)
    by (intros x s [| ->]%Hin Hs; [done|cbn in Hs; congruence]).
  split; cbn [shared tasks now tick]; [done|lia|..].
  - rewrite fmap_app. apply NoDup_app. split; [done|]. split; [|apply NoDup_singleton].
    intros k (x & -> & Hx)%list_elem_of_fmap_1 E%list_elem_of_singleton. destruct (H4 x Hx). cbn in E. lia.
  - intros x [Hx| ->]%Hin; [|split; cbn; [lia|done|exact Hnew]]. destruct (H4 x Hx) as [Hb Hf Hs].
    split; [cbn; lia|done|]. revert Hs. unfold state_ok. cbn [shared tasks now tick].
    assert (Hk : forall Q, known (tasks w) st vss (op_key (t_op x)) (t_begin x) Q ->
      known (tasks w ++ [mkTask o (now w) (inl Started)]) st vss (op_key (t_op x)) (t_begin x) Q)
      by (intros Q Hk y sy Hy Hky He Hsy; exact (Hk y sy (Hold y sy Hy Hsy) Hky He Hsy)).
    destruct (t_state x) as [[| |n|n| |n|n ms]|[r e]]; try done.
    + intros (? & ? & ? & ? & ?). split_and!; auto; lia.
    + intros (? & ? & ? & ? & ?). split_and!; auto; lia.
    + intros (? & ? & ? & ?). split_and!; auto; lia.
    + intros (? & ? & ? & ? & ? & ?). split_and!; auto; lia.
    + intros [? ?]. split; [lia|done].
  - intros k s Hk. specialize (H5 k s Hk). lia.
  - intros x y n [Hx| ->]%Hin [Hy| ->]%Hin Hnx Hny; [by eapply H6|done..].
  - intros m v Hv. destruct (H7 m v Hv) as (x & Hx & Hw). exists x. split; [apply elem_of_app; by left|done].
  - intros x y s Hx Hy Hwx Hwy Hsx Hsy. exact (H8 x y s (Hold x s Hx Hsx) (Hold y s Hy Hsy) Hwx Hwy Hsx Hsy).
  - intros x y sx sy Hx Hy Hk He Hsx Hsy. exact (H9 x y sx sy (Hold x sx Hx Hsx) (Hold y sy Hy Hsy) Hk He Hsx Hsy).
Qed.

Lemma exec_inv w st vss a w' : cinv w st vss -> Z.of_nat (now w) + 1 < 2 ^ 56 ->
  (forall o, a = Begin o -> op_fits o) -> exec w a = Some w' ->
  exists st' vss', cinv w' st' vss' /\ now w' = (now w + 1)%nat.
Proof.
  intros Hinv Hlt Hf E. destruct a as [o|i]; cbn [exec] in E.
  - injection E as <-. exists st, vss. split; [|done]. apply step_Begin; by auto.
  - apply bind_Some in E as (t & Ht & E). destruct (t_state t) as [p|] eqn:Hp; [|done].
    destruct (step_spec w st vss Hinv Hlt i t Ht p Hp) as (db' & q & st' & vss' & Es & Hc). rewrite Es in E. injection E as <-.
    by exists st', vss'.
Qed.

Lemma execs_inv acts : forall w st vss w', cinv w st vss -> Z.of_nat (now w) + blen acts < 2 ^ 56 ->
  Forall op_fits (begun acts) -> execs w acts = Some w' ->
  exists st' vss', cinv w' st' vss' /\ Z.of_nat (now w') = Z.of_nat (now w) + blen acts.
Proof.
  induction acts as [|a acts IH]; intros w st vss w' Hinv Hlt Hf E.
  { injection E as <-. exists st, vss. split; [done|]. change (blen []) with 0. lia. }
  cbn [execs] in E. apply bind_Some in E as (w1 & E1 & E). rewrite blen_cons in Hlt |- *. pose proof (blen_nonneg acts).
  destruct (exec_inv w st vss a w1 Hinv) as (st1 & vss1 & Hinv1 & Hn1); [lia| |done|].
  - intros o ->. by apply Forall_cons in Hf as [? _].
  - destruct (IH w1 st1 vss1 w' Hinv1) as (st' & vss' & Hc & Hn); [lia| |done|].
    + destruct a as [o|j]; [by apply Forall_cons in Hf as [_ ?]|done].
    + exists st', vss'. split; [done|lia].
Qed.

(** ** The stamps *)

(** Refused writes have none. *)
Definition item_of (st : gmap nat Z) (t : task) : option item :=
  r ← reply_of t; Some (mkItem t r (default 0 (st !! t_begin t))).

Lemma item_of_Some st t x : item_of st t = Some x ->
  i_task x = t /\ i_stamp x = default 0 (st !! t_begin t) /\ exists e, t_state t = inr (i_reply x, e).
Proof.
  unfold item_of, reply_of. destruct (t_state t) as [p|[r e]]; [done|]. intros [= <-]. split; [done|]. split; [done|]. by exists e.
Qed.

Lemma items_once st ts : NoDup (t_begin <$> ts) -> NoDup (i_begin <$> omap (item_of st) ts).
Proof.
  intros Hd. eapply sublist_NoDup; [exact Hd|]. clear Hd. induction ts as [|t ts IH]; [constructor|]. cbn.
  destruct (item_of st t) as [x|] eqn:E; [|by apply sublist_cons]. apply item_of_Some in E as (<- & _).
  by apply sublist_skip.
Qed.

Section stamps.
Context (w : world) (st : gmap nat Z) (vss : list (list version)) (Hinv : cinv w st vss).
#[local] Notation its := (omap (item_of st) (tasks w)).

(** What the invariant says of an item. *)
Lemma item_in x : x ∈ its -> i_task x ∈ tasks w /\ item_of st (i_task x) = Some x /\
  (exists e, t_state (i_task x) = inr (i_reply x, e) /\ (i_begin x <= e)%nat) /\
  i_stamp x = default 0 (st !! i_begin x) /\ result_ok vss (i_op x) (st !! i_begin x) (i_reply x).
Proof.
  intros (t & Ht & E)%list_elem_of_omap. destruct (item_of_Some _ _ _ E) as (<- & Es & e & He). split; [done|]. split; [done|].
  pose proof (tk_state _ _ _ _ (ci_tasks _ _ _ Hinv _ Ht)) as H. unfold state_ok in H. rewrite He in H. destruct H as [H1 H2].
  split; [|done]. exists e. split; [done|]. unfold i_begin. lia.
Qed.

Lemma item_write x : x ∈ its -> i_write x = true ->
  i_reply x = Wrote None /\ exists m n, lies vss m (op_version (i_op x) n) /\ i_stamp x = place m n /\ st !! i_begin x = Some (place m n).
Proof.
  intros (_ & _ & _ & Es & H)%item_in [Hw Hr]%andb_prop. unfold result_ok in H. rewrite Hw in H.
  destruct H as [[-> (m & n & Hv & Hs)]|(E & _)]; [|unfold i_refused in Hr; by rewrite E in Hr].
  split; [done|]. exists m, n. by rewrite Es, Hs.
Qed.

Lemma item_stamp x : x ∈ its -> i_refused x = false -> st !! i_begin x = Some (i_stamp x).
Proof.
  intros (_ & _ & _ & Es & H)%item_in Hr. rewrite Es. unfold result_ok in H. destruct (is_write (i_op x)).
  - destruct H as [[_ (m & n & _ & ->)]|(E & _)]; [done|]. unfold i_refused in Hr. by rewrite E in Hr.
  - by destruct H as (s & -> & _).
Qed.

(** The write of a version. *)
Lemma version_item m v : lies vss m v -> exists x, x ∈ its /\ i_write x = true /\ i_key x = v_key v /\
  i_stamp x = place m (v_seq v) /\ leaves (i_op x) = value_of v.
Proof.
  intros Hv. destruct (ci_written _ _ _ Hinv m v Hv) as (t & Ht & Hw & Hs & E).
  destruct (stamped_result w st vss t _ Hinv Ht Hs) as (r & e & He & H). rewrite Hw in H. destruct H as [-> _].
  destruct (op_version_at (t_op t) (v_seq v) Hw) as (E1 & _ & E2). rewrite <- E in E1, E2.
  exists (mkItem t (Wrote None) (place m (v_seq v))). split.
  - apply list_elem_of_omap. exists t. split; [done|]. unfold item_of, reply_of. by rewrite He, Hs.
  - split; [unfold i_write, i_op; cbn; by rewrite Hw|]. split; [done|]. by split.
Qed.

Lemma items_stamped : stamped opt ∅ its.
Proof.
  pose proof Hinv as [Hdb _ H3 _ _ _ _ H7 H8]. split.
  - by apply items_once.
  - intros x r e (_ & _ & (e' & He' & Hle) & _)%item_in He. rewrite He' in He. by injection He as <- <-.
  - intros x Hx Hw. by apply item_write.
  - intros x (_ & _ & _ & _ & H)%item_in Hr. unfold result_ok in H. unfold i_refused in Hr. destruct (is_write (i_op x)).
    + destruct H as [[E _]|(E & Hbig & _)]; [by rewrite E in Hr|done].
    + destruct H as (s & _ & [[_ E]|(m & v & _ & _ & _ & E)]); by rewrite E in Hr.
  - intros x y Hx Hy Hwx Hwy Es. destruct (item_in x Hx) as (Htx & Ex & _), (item_in y Hy) as (Hty & Ey & _).
    pose proof (item_stamp x Hx (i_write_refused x Hwx)) as Hsx. pose proof (item_stamp y Hy (i_write_refused y Hwy)) as Hsy.
    rewrite Es in Hsx. apply andb_prop in Hwx as [Hwx _], Hwy as [Hwy _].
    pose proof (H7 _ _ _ Htx Hty Hwx Hwy Hsx Hsy) as E. rewrite E in Ex. congruence.
  - intros x Hx Hw. destruct (item_in x Hx) as (_ & _ & _ & Es & H). unfold result_ok in H. rewrite Hw in H.
    destruct H as (s & Hs & [[Hz Hr]|(m & v & Hv & Hk & Hp & Hr)]); rewrite Hs in Es; cbn in Es.
    + right. split; [|by rewrite lookup_empty]. intros y Hy Hwy _.
      destruct (item_write y Hy Hwy) as (_ & m & n & Hv & -> & _). destruct (lies_ok _ _ _ _ Hdb Hv) as [[Hn _] _].
      apply andb_prop in Hwy as [Hwy _]. destruct (op_version_at (i_op y) n Hwy) as (_ & E & _). rewrite E in Hn.
      pose proof (place_pos m n). lia.
    + left. destruct (version_item m v Hv) as (y & Hy & Hwy & Hky & Hsy & Hl). exists y.
      split_and!; [done|done|by rewrite Hky|congruence|by rewrite Hl].
  - intros x y Hx Hy Hrx Hry Hk He. destruct (item_in x Hx) as (Htx & _), (item_in y Hy) as (Hty & _).
    pose proof (H8 _ _ _ _ Htx Hty Hk He (item_stamp x Hx Hrx) (item_stamp y Hy Hry)) as [Hle Hlt]. split; [done|].
    intros [Hw _]%andb_prop. by apply Hlt.
Qed.

Lemma cinv_linearization : exists L, linearization opt ∅ (tasks w) L.
Proof.
  apply (stamped_linearization _ _ _ items_stamped).
  - apply Forall_forall. intros x (Hx & _ & (e & He & _) & _)%item_in. split; [done|]. left. unfold reply_of. by rewrite He.
  - intros t r Ht Hr. exists (mkItem t r (default 0 (st !! t_begin t))). split; [|done]. apply list_elem_of_omap. exists t.
    split; [done|]. unfold item_of. by rewrite Hr.
Qed.
End stamps.
End conc.

(** ** The theorem *)

(** C2: Linearizability of the database as long as nothing is flushed: any
    number of goroutines call [Set], [Delete] and [Get] on a database opened on
    an empty directory, over keys none of which is a proper prefix of another,
    and their steps come in any order.  However often the memtable fills up
    and writers overtake each other between taking their number and inserting,
    every call takes effect at one moment between its beginning and its return:
    some order of the calls that keeps the order of those that did not
    overlap, run one after the other on a map, gives the replies that were
    given.  No step panics. *)
Theorem db_linearizable {sorter : SliceSorter} (o : Options) (space : Z) (acts : list action) (db : DB) (w : world) :
  maxNodeSize + 4 <= MemtableSize (ensureDefaults o) < 2 ^ 32 ->
  Open ∅ NotExist (Some space) o = Some (inr db) ->
  prefix_free (op_key <$> begun acts) ->
  Forall (fun op => maxNodeSize + (blen (op_key op) + 8) + blen (op_value op) < 2 ^ 32) (begun acts) ->
  blen acts + 1 < 2 ^ 56 ->
  execs (mkWorld db [] 0) acts = Some w ->
  (exists L, linearization (ensureDefaults o) ∅ (tasks w) L) /\
  (forall i t p, tasks w !! i = Some t -> t_state t = inl p -> is_Some (exec w (Run i))).
Proof.
  intros Hsz Ho Hpf Hfit Hlt He. destruct (Open_empty o space Hsz) as (db0 & E & m & Em & Hm & Hmem & H1 & H2 & H3 & H4 & H5 & H6).
  assert (db0 = db) as -> by congruence. set (us := op_key <$> begun acts) in *.
  assert (Hno : forall g v, ~ lies [[]] g v).
  { intros g v (vs & Hvs & Hv). apply list_lookup_singleton_Some in Hvs as [_ <-]. by apply not_elem_of_nil in Hv. }
  assert (Hinit : cinv us (ensureDefaults o) (mkWorld db [] 0) ∅ [[]]).
  { split; cbn [shared tasks now]; try (by intros * ?%not_elem_of_nil); [|lia|constructor|..].
    - split; try done; [rewrite Em; by constructor|by rewrite Em, Hmem|by rewrite Hmem|lia|..].
      all: intros g v Hv; by destruct (Hno g v).
    - intros k s Hk. by rewrite lookup_empty in Hk.
    - intros g v Hv. by destruct (Hno g v). }
  destruct (execs_inv us Hpf _ Hsz acts _ _ _ w Hinit) as (st & vss & Hc & Hn); [cbn; lia| |done|].
  - rewrite Forall_forall in *. intros op Hop. split; [by apply list_elem_of_fmap_2|by apply Hfit].
  - split; [by eapply cinv_linearization|]. intros i t p Ht Hp. cbn [now] in Hn.
    destruct (step_spec us Hpf _ Hsz w st vss Hc ltac:(lia) i t Ht p Hp) as (db' & q & _ & _ & Es & _).
    cbn [exec]. rewrite Ht. cbn [mbind option_bind]. rewrite Hp, Es. by eexists.
Qed.

(** A memtable that takes two short records. The write of [1] takes its number
    before the write of [2] and is inserted after it, into the next memtable;
    the first read has its memtables before that and sees [2], the second sees
    [1]. *)
Definition small_options : Options := mkOptions 420 (mkWriterOptions 200 4 10) 1000.
Definition overtaken : list action :=
  [Begin (OSet 0 [x62] [x30]); Run 0; Run 0; Run 0; Run 0;
   Begin (OSet 0 [x61] [x31]); Run 1; Run 1; Run 1;
   Begin (OSet 0 [x61] [x32]); Run 2; Run 2; Run 2; Run 2;
   Begin (OGet [x61]); Run 3; Run 3; Run 3;
   Run 1; Begin (OGet [x61]); Run 4; Run 4; Run 4; Run 4; Run 3].

Lemma db_linearizable_witness :
  exists db w L, Open ∅ NotExist (Some (2 ^ 40)) small_options = Some (inr db) /\
    execs (mkWorld db [] 0) overtaken = Some w /\ linearization small_options ∅ (tasks w) L /\
    reply_of <$> tasks w = [Some (Wrote None); Some (Wrote None); Some (Wrote None);
                            Some (Read (inr [x32])); Some (Read (inr [x31]))].
Proof.
  assert (E : (r ← Open ∅ NotExist (Some (2 ^ 40)) small_options;
               match r with
               | inr db => w ← execs (mkWorld db [] 0) overtaken; Some (reply_of <$> tasks w)
               | inl _ => None
               end) = Some [Some (Wrote None); Some (Wrote None); Some (Wrote None);
                            Some (Read (inr [x32])); Some (Read (inr [x31]))]) by (vm_compute; reflexivity).
  apply bind_Some in E as (r & Ho & E). destruct r as [|db]; [discriminate|].
  apply bind_Some in E as (w & Hw & E). injection E as E.
  destruct (db_linearizable small_options (2 ^ 40) overtaken db w) as [[L HL] _].
  - unfold maxNodeSize. cbn. lia.
  - exact Ho.
  - apply (bool_decide_unpack _). vm_compute. exact I.
  - repeat constructor.
  - reflexivity.
  - exact Hw.
  - exists db, w, L. split; [exact Ho|]. split; [exact Hw|]. split; [exact HL|exact E].
Defined.
