(* ===== verification/Compaction.v ===== *)
(** Compaction ([pkg/lsm/compaction.go] and the loop of [pkg/lsm/lsm.go]): a
    level that has grown too large is merged into the next one: the chosen
    tables and those they overlap are read through a merge iterator and
    written to new tables, one edit replaces the old by the new in the
    manifest, and the old files are removed.

    [fuel] bounds the entries merged, [rounds] the compactions in a row; the
    loop of [doCompaction] has no bound of its own.  [range_keys] is the order
    in which the range loop of [Evict] visits a map, which Go leaves open. *)
From S2P Require Import Prelude SliceSort Binary ByteOrder Io Format Block Cache CacheInterface TableWriter TableReader Arena Skiplist InternalKey Memtable Version Manifest Heap Merged MergeIterator Sources DBIterator DB Flush.

#[local] Open Scope Z_scope.

(** ** What to compact *)

Record compactionPick : Type := mkPick {
  level : Z;
  outputLevel : Z;
  inputs : list FileMeta;
  overlaps : list FileMeta }.

Definition targetLevelSize (level : Z) : Z :=
  Nat.iter (Z.to_nat (level - 1)) (fun size => u64 (size * LevelMultiplier)) BaseLevelTargetSize.
Definition targetFileSize (level : Z) : Z :=
  Nat.iter (Z.to_nat level) (fun size => u64 (size * 2)) TargetFileSize.

(** The start values are nil; the keys of a table without entries are nil
    too, and no other key is empty. *)
Definition keyRange (fs : list FileMeta) : bytes * bytes :=
  foldl (fun '(smallest, largest) f =>
    (if (blen smallest =? 0) || (compareKeys (SmallestKey f) smallest <? 0) then SmallestKey f else smallest,
     if (blen largest =? 0) || (0 <? compareKeys (LargestKey f) largest) then LargestKey f else largest))
    ([], []) fs.

Definition pickL0Compaction (v : Version) : option compactionPick :=
  inputs ← files_at v 0;
  let '(smallest, largest) := keyRange inputs in
  overlaps ← overlapping v 1 smallest largest;
  Some (mkPick 0 1 inputs overlaps).

(** The first of the largest files. *)
Definition largest_file (fs : list FileMeta) : option FileMeta :=
  foldl (fun pick f =>
    match pick with Some p => if Size p <? Size f then Some f else pick | None => Some f end) None fs.

(** [None] is a panic, [Some None] the nil result. *)
Definition pickLevelCompaction (v : Version) (level : Z) : option (option compactionPick) :=
  fs ← files_at v level;
  match largest_file fs with
  | None => Some None
  | Some pick =>
      overlaps ← overlapping v (level + 1) (SmallestKey pick) (LargestKey pick);
      Some (Some (mkPick level (level + 1) [pick] overlaps))
  end.

Fixpoint pick_levels (v : Version) (levels : list Z) : option (option compactionPick) :=
  match levels with
  | [] => Some None
  | level :: levels =>
      size ← levelSize v level;
      if targetLevelSize level <? size then pickLevelCompaction v level else pick_levels v levels
  end.

Definition pickCompaction (db : DB) : option (option compactionPick) :=
  let v := currentVersion (versions db) in
  l0 ← files_at v 0;
  if L0CompactionThreshold <=? blen l0 then p ← pickL0Compaction v; Some (Some p)
  else pick_levels v (seqZ 1 (Z.of_nat NumLevels - 2)).

(** ** Running it *)

Inductive compaction_error : Type :=
| ErrOpenInput (e : lsm_error)
| ErrFinish (e : writer_error)
| ErrFinishSync
| ErrFinishClose
| ErrCreateOutput
| ErrAddOutput (e : writer_error)
| ErrLogOutput (e : manifest_error).

Definition openTableIterator (db : DB) (f : FileMeta) : option (DB * (lsm_error + source)) :=
  '(db, r) ← getTableReader db f;
  Some (db, match r with inl e => inl e | inr rd => inr (TableSource rd TableReader.NewIterator) end).

Fixpoint open_inputs (db : DB) (fs : list FileMeta) : option (DB * (compaction_error + list source)) :=
  match fs with
  | [] => Some (db, inr [])
  | f :: fs =>
      '(db, r) ← openTableIterator db f;
      match r with
      | inl e => Some (db, inl (ErrOpenInput e))
      | inr it =>
          '(db, r) ← open_inputs db fs;
          Some (db, match r with inl e => inl e | inr its => inr (it :: its) end)
      end
  end.

(** The local variables of [runCompaction]: the files finished, the writer of
    the current one, its number and the size of what went into it. *)
Record output : Type := mkOutput {
  outputFiles : list FileMeta;
  currentWriter : option (TableWriter.Writer File);
  currentFileNum : Z;
  outputSize : Z }.

Definition no_output : output := mkOutput [] None 0 0.

Definition finishOutput (d : disk) (outputLevel : Z) (db : DB) (o : output)
    : option (DB * output * option compaction_error) :=
  match currentWriter o with
  | None => Some (db, o, None)
  | Some w =>
      let n := currentFileNum o in
      '(w, r) ← TableWriter.Close w;
      let db := put_file db (sstablePath n) (content (TableWriter.w w)) in
      match r with
      | inl e => Some (db, o, Some (ErrFinish e))
      | inr meta =>
          if negb (d_sync (d n)) then Some (db, o, Some ErrFinishSync)
          else if negb (d_close (d n)) then Some (db, o, Some ErrFinishClose)
          else
            let fm := mkFileMeta n outputLevel (Format.Size meta) (Format.SmallestKey meta) (Format.LargestKey meta) in
            let fs := if 0 <? KeyCount meta then outputFiles o ++ [fm] else outputFiles o in
            Some (db, mkOutput fs None n 0, None)
      end
  end.

(** The current file is finished and the next one started. *)
Definition nextOutput (d : disk) (outputLevel : Z) (db : DB) (o : output)
    : option (DB * output * option compaction_error) :=
  '(db, o, e) ← finishOutput d outputLevel db o;
  match e with
  | Some e => Some (db, o, Some e)
  | None =>
      let '(vs, n) := allocFileNum (versions db) in
      let db := set_versions db vs in
      if negb (d_create (d n)) then Some (db, o, Some ErrCreateOutput)
      else
        let db := put_file db (sstablePath n) [] in
        let w := NewWriter (mkFile [] 0 (d_room (d n)) true) (TableOptions (opts db)) in
        Some (db, mkOutput (outputFiles o) (Some w) n 0, None)
  end.

(** [currentWriter == nil || outputSize >= targetSize]. *)
Definition needs_output (targetSize : Z) (o : output) : bool :=
  match currentWriter o with None => true | Some _ => targetSize <=? outputSize o end.

Fixpoint merge_loop (fuel : nat) (d : disk) (outputLevel targetSize : Z) (db : DB) (o : output)
    (m : MergeIterator source) : option (DB * output * option compaction_error) :=
  if MergeIterator.Valid m then
    match fuel with
    | O => None
    | S fuel =>
        '(db, o, e) ← (if needs_output targetSize o then nextOutput d outputLevel db o else Some (db, o, None));
        match e with
        | Some e => Some (db, o, Some e)
        | None =>
            key ← MergeIterator.Key (store db) m;
            val ← MergeIterator.Value (store db) m;
            w ← currentWriter o;
            '(w, e) ← TableWriter.Add w key val;
            match e with
            | Some e =>
                Some (put_file db (sstablePath (currentFileNum o)) (content (TableWriter.w w)), o, Some (ErrAddOutput e))
            | None =>
                let size := u64 (outputSize o + u64 (blen key + blen val)) in
                '(s, m, _) ← MergeIterator.Next (store db) m;
                merge_loop fuel d outputLevel targetSize (set_store db s)
                  (mkOutput (outputFiles o) (Some w) (currentFileNum o) size) m
            end
        end
    end
  else Some (db, o, None).

(** Everything between opening the inputs and building the edit. *)
Definition write_outputs (fuel : nat) (d : disk) (level : Z) (db : DB) (iters : list source)
    : option (DB * output * option compaction_error) :=
  '(s, m, _) ← MergeIterator.First (store db) (NewMergeIterator iters);
  '(db, o, e) ← merge_loop fuel d level (targetFileSize level) (set_store db s) no_output m;
  match e with
  | Some e => Some (db, o, Some e)
  | None => finishOutput d level db o
  end.

(** The edit that replaces the inputs by the outputs. *)
Definition compaction_edit (p : compactionPick) (outs : list FileMeta) : VersionEdit :=
  mkEdit outs (((fun f => (level p, FileNum f)) <$> inputs p) ++
               ((fun f => (outputLevel p, FileNum f)) <$> overlaps p)) 0 0 false false.

Definition remove_files (db : DB) (fs : list FileMeta) : DB :=
  foldl (fun db f => remove_file db (sstablePath (FileNum f))) db fs.

Section compaction.
Context {sorter : SliceSorter}.

(** What follows the merge. *)
Definition install (log_ok : bool) (p : compactionPick) (db : DB) (outs : list FileMeta)
    : option (DB * option compaction_error) :=
  '(vs, e) ← logAndApply log_ok (versions db) (compaction_edit p outs);
  let db := set_versions db vs in
  match e with
  | Some e => Some (db, Some (ErrLogOutput e))
  | None => Some (remove_files (remove_files db (inputs p)) (overlaps p), None)
  end.

Definition runCompaction (fuel : nat) (d : disk) (log_ok : bool) (db : DB) (p : compactionPick)
    : option (DB * option compaction_error) :=
  '(db, r) ← open_inputs db (inputs p ++ overlaps p);
  match r with
  | inl e => Some (db, Some e)
  | inr iters =>
      '(db, o, e) ← write_outputs fuel d (outputLevel p) db iters;
      match e with
      | Some e => Some (db, Some e)
      | None => install log_ok p db (outputFiles o)
      end
  end.

(** ** The loop *)

Context (range_keys : gmap cacheKey nat -> list cacheKey).

Fixpoint evict_files (c : BlockCache) (fs : list FileMeta) : option BlockCache :=
  match fs with
  | [] => Some c
  | f :: fs => c ← Evict (range_keys (items c)) c (FileNum f); evict_files c fs
  end.

(** One round of [doCompaction]: whether the loop goes on. *)
Definition compaction_round (fuel : nat) (d : disk) (log_ok : bool) (db : DB) : option (DB * bool) :=
  p ← pickCompaction db;
  match p with
  | None => Some (db, false)
  | Some p =>
      '(db, e) ← runCompaction fuel d log_ok db p;
      match e with
      | Some _ => Some (db, false)
      | None =>
          c ← blocks (store db);
          c ← evict_files c (inputs p ++ overlaps p);
          Some (set_store db (mkStore (mems (store db)) (Some c)), true)
      end
  end.

Fixpoint doCompaction (rounds fuel : nat) (d : disk) (log_ok : bool) (db : DB) : option DB :=
  match rounds with
  | O => None
  | S rounds =>
      '(db, go) ← compaction_round fuel d log_ok db;
      if (go : bool) then doCompaction rounds fuel d log_ok db else Some db
  end.

Definition compactionLoop_signal (rounds fuel : nat) (d : disk) (log_ok : bool) (db : DB) : option DB :=
  if compactCh db then doCompaction rounds fuel d log_ok (take_compactCh db) else Some db.
End compaction.
