(* ===== verification/CompactionSpec.v ===== *)
(** What a compaction does: the new tables hold, cut into pieces, exactly the
    merge of the tables it replaces, and the old ones are given up only after
    the new ones are logged. *)
From stdpp Require Import sorting.
From S2P Require Import Prelude SliceSort Binary ByteOrder Sorted Io Format Block BlockSpec Cache CacheSpec CacheInterface TableWriter TableLayout TableWriterSpec TableReader TableReaderSpec TableSpec TableFile Arena Skiplist SkiplistSpec InternalKey Memtable Version VersionSpec Manifest Heap Merged MergeIterator MergeSpec Sources DBIterator DB Flush FlushSpec Compaction.

#[local] Open Scope Z_scope.

Section outputs.
Context {sorter : SliceSorter}.

(** ** The frame *)

(** What a compaction leaves alone while it writes files with numbers from
    [lo] on. *)
Record compaction_frame (lo : Z) (db db' : DB) : Prop := {
  cf_mems : source_evolves (store db) (store db');
  cf_opts : opts db' = opts db;
  cf_current : current (versions db') = current (versions db);
  cf_next : nextFileNum (versions db) <= nextFileNum (versions db');
  cf_log : manifestFile (versions db') = manifestFile (versions db);
  cf_rest : (mem db', imm db', seqNum db', tableCache db', closed db') = (mem db, imm db, seqNum db, tableCache db, closed db);
  cf_files : forall n, 0 <= n < lo -> files db' !! sstablePath n = files db !! sstablePath n;
  cf_unused : forall n, nextFileNum (versions db') <= n < 2 ^ 64 -> files db' !! sstablePath n = files db !! sstablePath n }.

Lemma compaction_frame_refl lo db : compaction_frame lo db db.
Proof. by split. Qed.

Lemma compaction_frame_trans lo db1 db2 db3 :
  compaction_frame lo db1 db2 -> compaction_frame lo db2 db3 -> compaction_frame lo db1 db3.
Proof.
  intros [A1 A2 A3 A4 A5 A6 A7 A8] [B1 B2 B3 B4 B5 B6 B7 B8].
  split; [by etrans|congruence..|lia|congruence|congruence|by intros n Hn; rewrite B7, A7|]. intros n Hn. rewrite B8, A8; [done|lia|done].
Qed.

(** ** One output file *)

(** The outputs finished hold [done], the current one has taken [cur].  All
    numbers lie from [lo] on and go up. *)
Record writing (lo level : Z) (db : DB) (o : output) (done : list pairs) (cur : pairs) : Prop := {
  wr_done : Forall2 (stored db) (outputFiles o) done;
  wr_nonempty : Forall (fun l => l <> []) done;
  wr_sorted : StronglySorted Z.lt (FileNum <$> outputFiles o);
  wr_files : Forall (fun fm => Level fm = level /\ lo <= FileNum fm < nextFileNum (versions db)) (outputFiles o);
  wr_next : 0 <= lo /\ nextFileNum (versions db) < 2 ^ 64;
  wr_cur : match currentWriter o with
           | None => cur = []
           | Some w => filling w cur /\ BloomBitsPerKey (TableWriter.opts w) = bits_of (TableOptions (opts db)) /\
               lo <= currentFileNum o < nextFileNum (versions db) /\
               Forall (fun fm => FileNum fm < currentFileNum o) (outputFiles o)
           end }.

(** The file being written takes a whole table. *)
Definition roomy (o : output) : Prop :=
  match currentWriter o with Some w => table_limit <= reach (TableWriter.w w) | None => True end.
Definition all_reliable (d : disk) : Prop := forall n, reliable (d n).

Lemma roomy_failed o w e : roomy o -> currentWriter o = Some w -> ~ failed w e.
Proof. unfold roomy. intros Hr Hw [_ Hf]. rewrite Hw in Hr. lia. Qed.

(** The list of finished outputs with one more, unless it is empty. *)
Definition finished (done : list pairs) (cur : pairs) : list pairs :=
  match cur with [] => done | _ => done ++ [cur] end.

Lemma concat_finished done cur : concat (finished done cur) = concat done ++ cur.
Proof. destruct cur; cbn; [by rewrite app_nil_r|]. by rewrite concat_app; cbn; rewrite app_nil_r. Qed.

Lemma stored_put db fm l n c :
  0 <= FileNum fm < n -> n < 2 ^ 64 -> stored db fm l ->
  stored (put_file db (sstablePath n) c) fm l.
Proof.
  intros H1 H2 (Hs & Hl & c' & Hc & Hr). split_and!; [done..|]. exists c'. split; [|done].
  cbn. rewrite lookup_insert_ne; [done|]. intros E. apply sstablePath_inj in E; unfold u64_ok; lia.
Qed.

Lemma frame_put lo db n c : 0 <= lo <= n -> n < nextFileNum (versions db) -> nextFileNum (versions db) < 2 ^ 64 ->
  compaction_frame lo db (put_file db (sstablePath n) c).
Proof.
  intros Hn Hx Hx2. split; cbn; try done; intros k Hk; (rewrite lookup_insert_ne; [done|]);
    intros E; apply sstablePath_inj in E; unfold u64_ok; lia.
Qed.

Lemma finishOutput_spec lo level d db o done cur :
  writing lo level db o done cur -> table_fits (TableOptions (opts db)) cur ->
  exists db' o' e, finishOutput d level db o = Some (db', o', e) /\ compaction_frame lo db db' /\
    store db' = store db /\ versions db' = versions db /\
    (all_reliable d -> roomy o -> e = None) /\
    (e = None -> writing lo level db' o' (finished done cur) [] /\ currentWriter o' = None).
Proof.
  intros [Hd Hne Hso Hf Hn Hc] [Hw Hb]. unfold finishOutput. destruct (currentWriter o) as [w|] eqn:Ew.
  2:{ exists db, o, None. split; [done|]. split; [apply compaction_frame_refl|]. subst cur. split_and!; try done.
      intros _. split; [|done]. split; try done. by rewrite Ew. }
  destruct Hc as (Hfill & Ho & Hnum & Hlt). destruct (filling_Close w cur Hfill Hw) as (w' & res & -> & Hres);
    [by rewrite Ho|]. cbn [mbind option_bind]. set (n := currentFileNum o) in *.
  set (db1 := put_file _ _ _). assert (Hfr : compaction_frame lo db db1) by (apply frame_put; lia).
  destruct res as [e|meta].
  { exists db1, o. eexists. split; [done|]. split_and!; [done..| |done].
    intros _ Hroom. by destruct (roomy_failed o w e Hroom Ew). }
  destruct (d_sync (d n)) eqn:Esy; cbn [negb].
  2:{ exists db1, o. eexists. split; [done|]. split_and!; [done..| |done]. intros Hdv. destruct (Hdv n) as (_ & ? & _). congruence. }
  destruct (d_close (d n)) eqn:Ecl; cbn [negb].
  2:{ exists db1, o. eexists. split; [done|]. split_and!; [done..| |done]. intros Hdv. destruct (Hdv n) as (_ & _ & ? & _). congruence. }
  eexists db1, _, None. split; [reflexivity|]. split_and!; [done..|]. intros _. split; [|done].
  destruct (table_file_meta _ meta cur Hres) as (_ & Hk & _). rewrite Hk.
  assert (Hkeep : Forall2 (stored db1) (outputFiles o) done).
  { eapply Forall2_impl_in; [exact Hd|]. intros fm l Hin Hst. apply stored_put; [|lia|done].
    rewrite Forall_forall in Hf, Hlt. destruct (Hf fm Hin). specialize (Hlt fm Hin). lia. }
  destruct cur as [|q cur]; cbn [finished].
  { split; cbn [outputFiles currentWriter]; done. }
  rewrite blen_cons, (proj2 (Z.ltb_lt _ _)) by blia. split; cbn [outputFiles currentWriter]; [| | | |done|done].
  - apply Forall2_app; [done|]. constructor; [|constructor].
    apply (stored_table_file db1 n level _ meta _ Hres). apply lookup_insert_eq.
  - apply Forall_app. split; [done|]. by constructor.
  - rewrite fmap_app. apply StronglySorted_app. split_and!; [|done|by repeat constructor].
    intros x y (f & -> & Hx)%list_elem_of_fmap ->%list_elem_of_singleton. by apply (proj1 (Forall_forall _ _) Hlt f Hx).
  - apply Forall_app. split; [done|]. constructor; [|constructor]. split; [done|]. exact Hnum.
Qed.

Lemma nextOutput_spec lo level d db o done cur :
  writing lo level db o done cur -> table_fits (TableOptions (opts db)) cur ->
  lo <= nextFileNum (versions db) < 2 ^ 64 - 1 ->
  exists db' o' e, nextOutput d level db o = Some (db', o', e) /\ compaction_frame lo db db' /\
    store db' = store db /\ nextFileNum (versions db') <= nextFileNum (versions db) + 1 /\
    (all_reliable d -> roomy o -> e = None /\ roomy o') /\
    (e = None -> writing lo level db' o' (finished done cur) [] /\ currentWriter o' <> None).
Proof.
  intros Hwr Hfit Hn. unfold nextOutput.
  destruct (finishOutput_spec lo level d db o done cur Hwr Hfit) as (db1 & o1 & e & -> & Hfr & Hs & Hv & Hgood & He).
  cbn [mbind option_bind]. destruct e as [e|].
  { exists db1, o1. eexists. split; [done|]. rewrite Hv. split_and!; [done..|lia| |done].
    intros H1 H2. by specialize (Hgood H1 H2). }
  destruct (He eq_refl) as [Hwr1 Hnone]. destruct (wr_next _ _ _ _ _ _ Hwr) as [Hlo _].
  rewrite (allocFileNum_ok (versions db1)) by (unfold next_ok; rewrite Hv; lia). set (n := nextFileNum (versions db1)).
  assert (Hn1 : n = nextFileNum (versions db)) by (unfold n; by rewrite Hv).
  set (db2 := set_versions db1 (allocated (versions db1))).
  assert (Hfr2 : compaction_frame lo db db2).
  { eapply compaction_frame_trans; [exact Hfr|]. split; cbn; try done. fold n. lia. }
  assert (Hnext : nextFileNum (versions db2) = n + 1) by done.
  destruct (d_create (d n)) eqn:Ecr; cbn [negb].
  2:{ exists db2, o1. eexists. split; [done|]. split_and!; [done|exact Hs|lia| |done].
      intros Hd. destruct (Hd n) as [? _]. congruence. }
  eexists (put_file db2 (sstablePath n) []), _, None. split; [reflexivity|]. split.
  { eapply compaction_frame_trans; [exact Hfr2|]. apply frame_put; rewrite ?Hnext; lia. }
  split; [exact Hs|]. split; [cbn; fold n; lia|].
  split; [intros Hd _; split; [done|]; destruct (Hd n) as (_ & _ & _ & _ & ?); cbn; lia|].
  intros _. split; [|done]. destruct Hwr1 as [Hd Hne Hso Hf Hnx _].
  assert (Hlt : Forall (fun fm => FileNum fm < n) (outputFiles o1))
    by (eapply Forall_impl; [exact Hf|]; cbn; intros fm [_ ?]; unfold n; lia).
  split; cbn [outputFiles currentWriter currentFileNum].
  - eapply Forall2_impl_in; [exact Hd|]. intros fm l Hin Hst. apply stored_put; [|lia|done].
    rewrite Forall_forall in Hf. destruct (Hf fm Hin). unfold n. lia.
  - done.
  - done.
  - eapply Forall_impl; [exact Hf|]. cbn. intros fm [? ?]. split; [done|lia].
  - cbn. fold n. lia.
  - split; [apply filling_new|]. split; [apply bits_of_new|]. split; [cbn; fold n; lia|done].
Qed.

Lemma writing_moved lo level db o done cur s :
  writing lo level db o done cur -> writing lo level (set_store db s) o done cur.
Proof. intros [H1 H2 H3 H4 H5 H6]. by split. Qed.

Lemma table_fits_app o a b c : table_fits o (a ++ b ++ c) -> table_fits o b.
Proof.
  intros [Hw Hb]. rewrite !weight_app in Hw. rewrite !blen_app in Hb.
  pose proof (weight_length a). pose proof (weight_length c). pose proof (blen_nonneg a). pose proof (blen_nonneg b).
  pose proof (blen_nonneg c). split; [lia|]. unfold bits_of, DefaultBloomBitsPerKey in *. destruct (_ <=? 0) eqn:E; bool_hyps; nia.
Qed.

(** ** The merge *)

Context (P : Z -> Z -> bytes -> Prop).
#[local] Instance table_laws : IteratorLaws (Store BlockCache) source := source_laws P.

(** A table to write to: the open one, or a new one. *)
Lemma open_output_spec lo level target d db o done cur :
  writing lo level db o done cur -> table_fits (TableOptions (opts db)) cur -> lo <= nextFileNum (versions db) < 2 ^ 64 - 1 ->
  exists db1 o1 e, (if needs_output target o then nextOutput d level db o else Some (db, o, None)) = Some (db1, o1, e) /\
    compaction_frame lo db db1 /\ store db1 = store db /\ nextFileNum (versions db1) <= nextFileNum (versions db) + 1 /\
    (all_reliable d -> roomy o -> e = None /\ roomy o1) /\
    (e = None -> exists done1 cur1 w, writing lo level db1 o1 done1 cur1 /\ currentWriter o1 = Some w /\
       concat done1 ++ cur1 = concat done ++ cur).
Proof.
  intros Hwr Hfit Hn. destruct (needs_output target o) eqn:En.
  - destruct (nextOutput_spec lo level d db o done cur Hwr Hfit Hn) as (db1 & o1 & e & E & Hfr & Hs & Hnx & Hgood & He).
    exists db1, o1, e. split_and!; [done..|]. intros He0.
    destruct (He He0) as [Hwr1 Hsome]. destruct (currentWriter o1) as [w|] eqn:Ew; [|done].
    exists (finished done cur), [], w. by rewrite app_nil_r, concat_finished.
  - exists db, o, None. split; [done|]. split; [apply compaction_frame_refl|]. split_and!; [done|lia|done|]. intros _.
    unfold needs_output in En. destruct (currentWriter o) as [w|] eqn:Ew; [|done]. by exists done, cur, w.
Qed.

Lemma merge_loop_spec lo level target d ls : forall rest fuel db o m done cur,
  merges (store db) m ls rest -> writing lo level db o done cur ->
  ascending (concat done ++ cur ++ rest) -> table_fits (TableOptions (opts db)) (concat done ++ cur ++ rest) ->
  (length rest <= fuel)%nat -> lo <= nextFileNum (versions db) -> nextFileNum (versions db) + blen rest < 2 ^ 64 ->
  exists db' o' e, merge_loop fuel d level target db o m = Some (db', o', e) /\ compaction_frame lo db db' /\
    source_steady P (store db') /\ nextFileNum (versions db') <= nextFileNum (versions db) + blen rest /\
    (all_reliable d -> roomy o -> e = None /\ roomy o') /\
    (e = None -> exists done' cur', writing lo level db' o' done' cur' /\
       concat done' ++ cur' = concat done ++ cur ++ rest).
Proof.
  induction rest as [|[k v] rest IH]; intros fuel db o m done cur Hm Hwr Ha Hfit Hf Hlo Hn;
    pose proof (merges_Valid _ _ _ _ Hm) as Hv.
  { rewrite bool_decide_eq_false_2 in Hv by (by intros []). exists db, o, None.
    split; [destruct fuel; cbn [merge_loop]; by rewrite Hv|]. split; [apply compaction_frame_refl|].
    split; [exact (merges_steady _ _ _ _ Hm)|]. split; [change (blen []) with 0; lia|]. split; [done|]. intros _. exists done, cur. by rewrite app_nil_r. }
  rewrite bool_decide_eq_true_2 in Hv by done. destruct fuel as [|fuel]; [cbn in Hf; lia|]. cbn [merge_loop].
  rewrite Hv. rewrite blen_cons in Hn. pose proof (blen_nonneg rest).
  destruct (open_output_spec lo level target d db o done cur Hwr) as (db1 & o1 & e & -> & Hfr & Hs & Hnx & Hgood & He);
    [by eapply table_fits_app|lia|]. cbn [mbind option_bind].
  assert (Hs1 : source_steady P (store db1)) by (rewrite Hs; exact (merges_steady _ _ _ _ Hm)).
  destruct e as [e|]; [exists db1, o1; eexists; split_and!; [done..|rewrite blen_cons; lia| |done]; intros H1 H2; by destruct (Hgood H1 H2)|]. destruct (He eq_refl) as (done1 & cur1 & w & Hwr1 & Ew & Ecat).
  rewrite Hs. destruct (merges_Key _ _ _ _ _ Hm) as [-> ->]. cbn [mbind option_bind fst snd]. rewrite Ew. cbn [mbind option_bind].
  pose proof (wr_cur _ _ _ _ _ _ Hwr1) as Hc. rewrite Ew in Hc. destruct Hc as (Hfill & Hb & Hnum & Hlt).
  assert (Hall : concat done ++ cur ++ (k, v) :: rest = concat done1 ++ (cur1 ++ [(k, v)]) ++ rest)
    by (by rewrite app_assoc, <- Ecat, <- !app_assoc).
  rewrite Hall in Ha, Hfit. assert (Ha1 : ascending (cur1 ++ [(k, v)])).
  { apply ascending_app in Ha as (_ & Ha & _). by apply ascending_app in Ha as (Ha & _). }
  assert (Hfit1 : table_fits (TableOptions (opts db)) (cur1 ++ [(k, v)])) by (by eapply table_fits_app).
  destruct (filling_Add w cur1 k v Hfill Ha1 (proj1 Hfit1)) as (w' & err & -> & Hres). cbn [mbind option_bind].
  destruct err as [err|].
  { eexists _, o1, _. split; [reflexivity|]. split.
    - eapply compaction_frame_trans; [exact Hfr|]. destruct (wr_next _ _ _ _ _ _ Hwr1). apply frame_put; lia.
    - split; [done|]. split; [rewrite blen_cons; cbn; lia|]. split; [|done]. intros H1 H2. by destruct (roomy_failed o1 w err (proj2 (Hgood H1 H2)) Ew). }
  destruct Hres as [Hfill' Ho']. destruct (merges_Next _ _ _ _ _ Hm) as (s & m' & -> & Hev & Hm'). cbn [mbind option_bind].
  set (o2 := mkOutput _ _ _ _). set (db2 := set_store db1 s).
  assert (Hfr2 : compaction_frame lo db db2).
  { eapply compaction_frame_trans; [exact Hfr|]. split; cbn; try done. rewrite Hs. exact Hev. }
  destruct (IH fuel db2 o2 m' done1 (cur1 ++ [(k, v)])) as (db3 & o3 & e & E & Hfr3 & Hs3 & Hnx3 & Hgood3 & He3).
  - exact Hm'.
  - apply writing_moved. destruct Hwr1 as [H1 H2 H3 H4 H5 _]. split; [done..|]. cbn [currentWriter o2 outputFiles currentFileNum].
    split; [done|]. split; [by rewrite (proj1 Ho')|]. done.
  - done.
  - change (opts db2) with (opts db1). by rewrite (cf_opts _ _ _ Hfr).
  - cbn in Hf. lia.
  - pose proof (cf_next _ _ _ Hfr2). lia.
  - change (versions db2) with (versions db1). lia.
  - exists db3, o3, e. split; [exact E|]. split; [by eapply compaction_frame_trans|]. split; [done|].
    split; [rewrite blen_cons; change (versions db2) with (versions db1) in Hnx3; lia|]. split.
    { intros H1 H2. destruct (Hgood H1 H2) as [_ H3]. apply Hgood3; [done|]. unfold roomy in *. cbn [currentWriter o2].
      rewrite Ew in H3. by rewrite (proj2 Ho'). }
    intros He0. destruct (He3 He0) as (done' & cur' & Hwr' & E'). exists done', cur'. split; [done|]. by rewrite Hall.
Qed.

(** ** The inputs *)

(** The table [f] can be read: its reader is cached, or its file is there. *)
Definition input_ready (db : DB) (f : FileMeta) (l : pairs) : Prop :=
  exists t, tableCache db = Some t /\
    match t !! FileNum f with
    | Some rd => table_on P rd l
    | None => exists c rd, files db !! sstablePath (FileNum f) = Some c /\
                NewReader c (blen c) (FileNum f) = Some (inr rd) /\ table_on P rd l
    end.

Lemma getTableReader_ready db f l : input_ready db f l ->
  exists t rd, getTableReader db f = Some (set_tableCache db (Some t), inr rd) /\ table_on P rd l /\
    forall g lg, input_ready db g lg -> input_ready (set_tableCache db (Some t)) g lg.
Proof.
  intros (t & Et & Hf). unfold getTableReader. rewrite Et. cbn [mbind option_bind].
  destruct (t !! FileNum f) as [rd|] eqn:Ef.
  { exists t, rd. split; [|split; [done|]].
    - do 2 f_equal. destruct db; cbn in *. by rewrite Et.
    - intros g lg (t' & Et' & Hg). exists t. split; [done|]. rewrite Et in Et'. by injection Et' as <-. }
  destruct Hf as (c & rd & Hc & Hn & Ht). unfold OpenReader. rewrite Hc, Hn. cbn [mbind option_bind].
  exists (<[FileNum f := rd]> t), rd. split; [done|]. split; [done|]. intros g lg (t' & Et' & Hg).
  rewrite Et in Et'. injection Et' as <-. eexists. split; [done|]. cbn [files set_tableCache].
  destruct (decide (FileNum g = FileNum f)) as [E|E].
  - rewrite E, lookup_insert_eq. rewrite E, Ef in Hg. destruct Hg as (c' & rd' & Hc' & Hn' & Ht').
    assert (c' = c) as -> by congruence. by assert (rd' = rd) as <- by congruence.
  - by rewrite lookup_insert_ne.
Qed.

Lemma open_inputs_spec : forall fs ls db, Forall2 (input_ready db) fs ls ->
  exists t its, open_inputs db fs = Some (set_tableCache db t, inr its) /\ Forall2 (on (store db)) its ls.
Proof.
  induction fs as [|f fs IH]; intros ls db Hr.
  { apply Forall2_nil_inv_l in Hr as ->. exists (tableCache db), []. split; [|constructor]. by destruct db. }
  apply Forall2_cons_inv_l in Hr as (l & ls' & Hf & Hfs & ->). cbn [open_inputs]. unfold openTableIterator.
  destruct (getTableReader_ready db f l Hf) as (t & rd & -> & Ht & Hkeep). cbn [mbind option_bind].
  destruct (IH ls' (set_tableCache db (Some t))) as (t' & its & -> & Hits).
  { eapply Forall2_impl; [exact Hfs|]. intros g lg. apply Hkeep. }
  cbn [mbind option_bind]. exists t', (TableSource rd TableReader.NewIterator :: its). split; [done|]. by constructor.
Qed.

(** ** Removing the inputs *)

Lemma remove_files_files db fs n : u64_ok n -> Forall (fun f => u64_ok (FileNum f)) fs ->
  files (remove_files db fs) !! sstablePath n =
    if decide (n ∈ FileNum <$> fs) then None else files db !! sstablePath n.
Proof.
  intros Hn. unfold remove_files. revert db. induction fs as [|f fs IH]; intros db Hfs.
  { rewrite decide_False; [done|]. apply not_elem_of_nil. }
  apply Forall_cons in Hfs as [Hf Hfs]. cbn [foldl]. rewrite IH by done. rewrite fmap_cons.
  destruct (decide (n ∈ FileNum <$> fs)) as [Hin|Hin]; [by rewrite decide_True by (by right)|].
  destruct (decide (FileNum f = n)) as [->|Hne].
  - rewrite decide_True by (by left). apply lookup_delete_eq.
  - rewrite decide_False by (intros [|]%elem_of_cons; congruence). cbn. rewrite lookup_delete_ne; [done|].
    intros E. by apply sstablePath_inj in E.
Qed.

Lemma remove_files_frame db fs : remove_files db fs = set_files db (files (remove_files db fs)).
Proof.
  unfold remove_files. revert db. induction fs as [|f fs IH]; intros db; [by destruct db|]. cbn [foldl]. by rewrite IH.
Qed.

(** ** Logging the result *)

(** [v'] is [v] without the files numbered in [gone] and with [outs] added to
    one level. *)
Definition replaced (v v' : Version) (gone : list Z) (outs : list FileMeta) (level : Z) : Prop :=
  levels_ok v' /\ forall l fs, files_at v l = Some fs ->
    let fs1 := base.filter (fun f => FileNum f ∉ gone) fs ++ (if decide (l = level) then outs else []) in
    exists fs', files_at v' l = Some fs' /\ fs' ≡ₚ fs1 /\ (l = 0 -> fs' = fs1) /\ (0 < l -> in_order fs').

Lemma compaction_replaces v v' p outs : levels_ok v -> Forall (fun fm => Level fm = outputLevel p) outs ->
  apply v (compaction_edit p outs) = Some v' ->
  replaced v v' (FileNum <$> inputs p ++ overlaps p) outs (outputLevel p).
Proof.
  intros Hl Ho E. pose proof (apply_outcome v (compaction_edit p outs) Hl) as Ha. rewrite E in Ha.
  destruct Ha as (_ & Hl' & Hfs). split; [done|]. intros l fs Hf. cbv zeta.
  destruct (Hfs l fs Hf) as (fs' & E' & Hp). exists fs'. split; [done|].
  assert (Hk : kept (compaction_edit p outs) fs = base.filter (fun f => FileNum f ∉ FileNum <$> inputs p ++ overlaps p) fs).
  { unfold kept. apply list_filter_iff. intros f. cbn [DeletedFiles compaction_edit].
    by rewrite !fmap_app, <- !list_fmap_compose. }
  assert (Ha : added (compaction_edit p outs) l = if decide (l = outputLevel p) then outs else []).
  { unfold added. cbn [NewFiles compaction_edit]. clear -Ho. induction Ho as [|fm outs E _ IH]; [by destruct (decide _)|].
    rewrite filter_cons, IH. destruct (decide (Level fm = l)); destruct (decide (l = outputLevel p)); congruence || done. }
  by rewrite Hk, Ha in Hp.
Qed.

(** Room for the record of a compaction. *)
Definition compaction_room (p : compactionPick) : Z := 2 ^ 34 + 21 * blen (inputs p ++ overlaps p).

Lemma compaction_edit_weight db p outs ls : Forall2 (stored db) outs ls -> Forall (fun l => l <> []) ls ->
  weight (concat ls) < 2 ^ 31 -> edit_weight (compaction_edit p outs) <= compaction_room p.
Proof.
  intros Hst Hne Hw. unfold edit_weight, compaction_room. cbn [NewFiles DeletedFiles compaction_edit].
  assert (Hd : forall (f g : FileMeta -> Z * Z) a b, blen ((f <$> a) ++ (g <$> b)) = blen (a ++ b))
    by (intros f g a b; unfold blen; by rewrite !length_app, !length_fmap).
  rewrite Hd. assert (H : foldr (fun f n => 51 + blen (SmallestKey f) + blen (LargestKey f) + n) 0 outs <= 3 * weight (concat ls));
    [|pose proof (blen_nonneg (inputs p ++ overlaps p)); lia].
  clear Hw Hd. induction Hst as [|fm l outs ls (Hs & Hla & _) _ IH]; [done|].
  apply Forall_cons in Hne as [Hl Hne]. cbn [foldr concat]. rewrite weight_app, Hs, Hla. specialize (IH Hne).
  pose proof (first_key_weight l). pose proof (last_key_weight l). pose proof (weight_length l).
  assert (1 <= blen l) by (destruct l; [done|]; rewrite blen_cons; blia). lia.
Qed.

(** The directory and the version after the edit is logged. *)
Lemma install_outcome log_ok p db outs :
  levels_ok (current (versions db)) -> 0 <= outputLevel p < 7 ->
  Forall (fun fm => Level fm = outputLevel p) outs -> Forall (fun f => u64_ok (FileNum f)) (inputs p ++ overlaps p) ->
  exists vs fs e, install log_ok p db outs = Some (set_files (set_versions db vs) fs, e) /\
    nextFileNum vs = nextFileNum (versions db) /\
    (forall k, log_ok = true -> log_room (versions db) k -> edit_weight (compaction_edit p outs) <= k -> e = None) /\
    match e with
    | Some _ => current vs = current (versions db) /\ fs = files db
    | None => apply (current (versions db)) (compaction_edit p outs) = Some (current vs) /\
        forall n, u64_ok n -> fs !! sstablePath n =
          if decide (n ∈ FileNum <$> inputs p ++ overlaps p) then None else files db !! sstablePath n
    end.
Proof.
  intros Hl Hlv Houts Hok. unfold install.
  destruct (logAndApply_outcome log_ok (versions db) (compaction_edit p outs) Hl) as (vs & e & Elog & Hnx & _ & He).
  { eapply Forall_impl; [exact Houts|]. cbn. intros f ->. lia. }
  assert (Hgood : forall k, log_ok = true -> log_room (versions db) k -> edit_weight (compaction_edit p outs) <= k -> e = None)
    by (intros k H1 H2 H3; by apply (logAndApply_room _ _ _ _ _ k Elog)).
  rewrite Elog. cbn [mbind option_bind].
  destruct e as [e|].
  { exists vs, (files db), (Some (ErrLogOutput e)). split; [reflexivity|]. split; [exact Hnx|].
    split; [intros k H1 H2 H3; by specialize (Hgood k H1 H2 H3)|]. by split. }
  assert (Happ : remove_files (remove_files (set_versions db vs) (inputs p)) (overlaps p) =
    remove_files (set_versions db vs) (inputs p ++ overlaps p)) by (unfold remove_files; by rewrite foldl_app).
  rewrite Happ, remove_files_frame. exists vs. eexists _, None. split; [reflexivity|]. split_and!; [done|done|exact He|]. intros n Hn. by rewrite remove_files_files.
Qed.

Lemma install_spec lo log_ok p db outs ls :
  levels_ok (current (versions db)) -> 0 <= outputLevel p < 7 ->
  Forall (fun fm => Level fm = outputLevel p /\ lo <= FileNum fm < 2 ^ 64) outs ->
  Forall2 (stored db) outs ls -> Forall (fun l => l <> []) ls -> weight (concat ls) < 2 ^ 31 -> 0 <= lo < 2 ^ 64 ->
  Forall (fun f => 0 <= FileNum f < lo) (inputs p ++ overlaps p) ->
  exists db' e, install log_ok p db outs = Some (db', e) /\ store db' = store db /\ opts db' = opts db /\
    (log_ok = true -> log_room (versions db) (compaction_room p) -> e = None) /\
    match e with
    | Some _ => current (versions db') = current (versions db) /\ files db' = files db
    | None => replaced (current (versions db)) (current (versions db')) (FileNum <$> inputs p ++ overlaps p) outs (outputLevel p) /\
        Forall2 (stored db') outs ls /\
        forall n, 0 <= n < lo -> files db' !! sstablePath n =
          if decide (n ∈ FileNum <$> inputs p ++ overlaps p) then None else files db !! sstablePath n
    end.
Proof.
  intros Hl Hlv Houts Hst Hne Hw Hlo Hin.
  destruct (install_outcome log_ok p db outs) as (vs & fs & e & -> & _ & Hgood & He); [done|done|by eapply Forall_impl; [exact Houts|]; intros ? []| |].
  { eapply Forall_impl; [exact Hin|]. unfold u64_ok. cbn. intros. lia. }
  eexists _, e. split; [reflexivity|]. split_and!; [done..| |].
  { intros H1 H2. apply (Hgood _ H1 H2). by eapply compaction_edit_weight. }
  destruct e as [e|]; [done|]. destruct He as [Hrep Hfs].
  split; [apply compaction_replaces; [done| |done]; eapply Forall_impl; [exact Houts|]; by intros ? []|]. split.
  - eapply Forall2_impl_in; [exact Hst|]. intros fm l Hfm (Hs & Hla & c & Hc & Hr). split_and!; [done..|].
    exists c. split; [|done]. destruct (proj1 (Forall_forall _ _) Houts fm Hfm) as [_ Hnum].
    cbn [files set_files]. rewrite Hfs by (unfold u64_ok; lia). rewrite decide_False; [done|].
    intros (f & E & Hf)%list_elem_of_fmap. pose proof (proj1 (Forall_forall _ _) Hin f Hf). cbn in *. lia.
  - intros n Hn. apply Hfs. unfold u64_ok. lia.
Qed.

(** ** A compaction *)

(** The tables written: the merge of the inputs in non-empty pieces. *)
Lemma write_outputs_spec fuel d level db its ls :
  let lo := nextFileNum (versions db) in
  source_steady P (store db) -> Forall2 (on (store db)) its ls ->
  table_fits (TableOptions (opts db)) (merged ls) -> (length (merged ls) <= fuel)%nat ->
  0 <= lo -> lo + blen (merged ls) < 2 ^ 64 ->
  exists db' o e, write_outputs fuel d level db its = Some (db', o, e) /\ compaction_frame lo db db' /\
    source_steady P (store db') /\ nextFileNum (versions db') < 2 ^ 64 /\ (all_reliable d -> e = None) /\
    (e = None -> exists pieces, Forall2 (stored db') (outputFiles o) pieces /\
       Forall (fun l => l <> []) pieces /\ concat pieces = merged ls /\
       Forall (fun fm => Level fm = level /\ lo <= FileNum fm < nextFileNum (versions db')) (outputFiles o) /\
       StronglySorted Z.lt (FileNum <$> outputFiles o)).
Proof.
  intros lo Hs Hits Hfit Hf Hlo Hn. unfold write_outputs. pose proof (blen_nonneg (merged ls)).
  assert (Hasc : ascending (merged ls)).
  { apply merged_ascending. clear -Hits. induction Hits; constructor; [by eapply (on_ascending (store db))|done]. }
  assert (Hsteady : MergeSpec.steady (IteratorLaws := table_laws) (store db)) by exact Hs.
  destruct (First_merges (store db) its ls [] Hsteady Hits) as (s & m & E & Hev & Hm). unfold NewMergeIterator.
  rewrite E. cbn [mbind option_bind]. set (db1 := set_store db s).
  assert (Hfr1 : compaction_frame lo db db1) by (split; cbn; try done).
  assert (Hwr : writing lo level db1 no_output [] []) by (split; cbn; try done; try constructor; fold lo; lia).
  destruct (merge_loop_spec lo level (targetFileSize level) d ls (merged ls) fuel db1 no_output m [] [])
    as (db2 & o & e & -> & Hfr2 & Hs2 & Hnx2 & Hgood & He); [done|done|done|done|done|change (versions db1) with (versions db); fold lo; lia..|].
  cbn [mbind option_bind]. assert (Hfr : compaction_frame lo db db2) by (by eapply compaction_frame_trans).
  change (versions db1) with (versions db) in Hnx2. destruct e as [e|]; [exists db2, o, (Some e); split_and!; [done..|lia| |done]; intros Hd; by destruct (Hgood Hd I)|].
  destruct (He eq_refl) as (done' & cur & Hwr' & Ecat). cbn [concat app] in Ecat.
  destruct (finishOutput_spec lo level d db2 o done' cur Hwr') as (db3 & o3 & e & -> & Hfr3 & Est & Ev & Hgood3 & He3).
  { rewrite (cf_opts _ _ _ Hfr). rewrite <- Ecat in Hfit. apply (table_fits_app _ (concat done') cur []). by rewrite app_nil_r. }
  exists db3, o3, e. split; [done|]. split; [by eapply compaction_frame_trans|].
  split; [by rewrite Est|]. split; [rewrite Ev; lia|]. split; [intros Hd; apply Hgood3; [done|by apply Hgood]|]. intros He0.
  destruct (He3 He0) as [[Hst Hne Hso Hfiles Hnx _] _]. exists (finished done' cur). rewrite concat_finished.
  by split_and!.
Qed.

(** C7: A compaction preserves the data.  When the tables picked can be read
    and hold [ls], the compaction never panics, whatever the disks do.  Without
    error the version loses exactly the tables picked and gains new ones at the
    output level that hold, in order and cut into non-empty pieces, exactly the
    merge of [ls] (every internal key once, with the value of the first table
    that has it), each with the right metadata, and of the files it found it
    has removed those picked and no other.  With an error the version and all
    files it found are as they were.  On reliable disks with room for the log
    there is no error. *)
Theorem compaction_exact (fuel : nat) (d : disk) (log_ok : bool) (db : DB) (p : compactionPick) (ls : list pairs) :
  let lo := nextFileNum (versions db) in
  source_steady P (store db) -> Forall2 (input_ready db) (inputs p ++ overlaps p) ls ->
  levels_ok (current (versions db)) -> 0 <= outputLevel p < 7 ->
  table_fits (TableOptions (opts db)) (merged ls) -> (length (merged ls) <= fuel)%nat ->
  0 <= lo -> lo + blen (merged ls) < 2 ^ 64 ->
  Forall (fun f => 0 <= FileNum f < lo) (inputs p ++ overlaps p) ->
  exists db' e, runCompaction fuel d log_ok db p = Some (db', e) /\
    mems (store db') = mems (store db) /\ opts db' = opts db /\
    (all_reliable d -> log_ok = true -> log_room (versions db) (compaction_room p) -> e = None) /\
    match e with
    | Some _ => current (versions db') = current (versions db) /\
        forall n, 0 <= n < lo -> files db' !! sstablePath n = files db !! sstablePath n
    | None => exists outs pieces,
        replaced (current (versions db)) (current (versions db')) (FileNum <$> inputs p ++ overlaps p) outs (outputLevel p) /\
        Forall (fun fm => Level fm = outputLevel p /\ lo <= FileNum fm) outs /\
        Forall2 (stored db') outs pieces /\
        concat pieces = merged ls /\ Forall (fun l => l <> []) pieces /\
        forall n, 0 <= n < lo -> files db' !! sstablePath n =
          if decide (n ∈ FileNum <$> inputs p ++ overlaps p) then None else files db !! sstablePath n
    end.
Proof.
  intros lo Hs Hin Hl Hlv Hfit Hf Hlo Hn Hnums. unfold runCompaction. pose proof (blen_nonneg (merged ls)).
  destruct (open_inputs_spec _ _ _ Hin) as (t & its & -> & Hits). cbn [mbind option_bind].
  destruct (write_outputs_spec fuel d (outputLevel p) (set_tableCache db t) its ls)
    as (db1 & o & e & -> & Hfr & _ & Hnx & Hgood & He); [done..|].
  cbn [mbind option_bind]. pose proof Hfr as [[F1 _] F2 F3 F4 F5 F6 F7 _].
  destruct e as [e|]; [exists db1, (Some e); split_and!; try done; intros Hd; by specialize (Hgood Hd)|].
  destruct (He eq_refl) as (pieces & Hst & Hne & Ecat & Hfiles & _).
  assert (Hw : weight (concat pieces) < 2 ^ 31) by (rewrite Ecat; apply Hfit).
  destruct (install_spec lo log_ok p db1 (outputFiles o) pieces) as (db2 & e & -> & Hs2 & Ho2 & Hlog & He2);
    [by rewrite F3|done|eapply Forall_impl; [exact Hfiles|]; cbn; intros fm [? ?]; split; [done|lia]|done|done|done|lia|done|].
  exists db2, e. split; [done|]. rewrite Hs2, Ho2. split; [done|]. split; [done|].
  split; [intros _ H1 (f & Hm & H2); apply Hlog; [done|]; exists f; by rewrite F5|].
  destruct e as [e|]; [destruct He2 as [-> ->]; done|]. rewrite F3 in He2. destruct He2 as (Hrep & Hst2 & Hrem).
  exists (outputFiles o), pieces. split; [done|]. split; [eapply Forall_impl; [exact Hfiles|]; cbn; intros fm [? ?]; split; [done|lia]|].
  split_and!; [done..|]. intros n Hn'. rewrite Hrem by done. by rewrite F7.
Qed.
End outputs.

(** ** Flushed tables are inputs *)

(** The blocks of the tables named in [T]. *)
Definition blocks_named (T : gmap Z (Z * list part)) (f o : Z) (d : bytes) : Prop :=
  match T !! f with Some (r, ps) => part_blocks r ps o d | None => False end.

Lemma blocks_named_of T rd f r ps : opened rd f r ps -> T !! f = Some (r, ps) -> blocks_of (blocks_named T) f r ps.
Proof.
  intros Ho HT. apply (part_blocks_of (TableReader.r rd)); [apply Ho|]. intros o d. unfold blocks_named. by rewrite HT.
Qed.
