(* ===== verification/DBTables.v ===== *)
(** Reading through the tables of a version: what a database knows of its
    tables, and the outcome of [Get] on a database with memtables and tables:
    the first place that can have the key decides. *)
From stdpp Require Import sorting.
From S2P Require Import Prelude SliceSort Binary ByteOrder Sorted Io Format Block BlockSpec Cache CacheSpec CacheInterface TableLayout TableReader TableReaderSpec TableSpec TableFile Arena Skiplist SkiplistSpec InternalKey Memtable MemtableSpec Version VersionSpec Manifest Heap Merged MergeIterator MergeSpec Sources DBIterator DB Flush FlushSpec DBSpec Compaction CompactionSpec.

#[local] Open Scope Z_scope.

(** ** The tables a database can read *)

(** The layout of the tables by number: restart interval and blocks. *)
Abbreviation catalog := (gmap Z (Z * list part)).

Definition pairs_in (T : catalog) (f : FileMeta) : pairs :=
  match T !! FileNum f with Some (_, ps) => pairs_of ps | None => [] end.

Definition cached (db : DB) (n : Z) : option Reader := tableCache db ≫= fun t => t !! n.

(** Opening the file numbered [n] gives [rd]. *)
Definition opens (db : DB) (n : Z) (rd : Reader) : Prop :=
  exists c, files db !! sstablePath n = Some c /\ NewReader c (blen c) n = Some (inr rd).

(** The file [f] is in the directory and is the table [T] says, a cached
    reader is a reader of this file. *)
Definition live (T : catalog) (db : DB) (f : FileMeta) : Prop :=
  exists rd r ps, opens db (FileNum f) rd /\ opened rd (FileNum f) r ps /\ T !! FileNum f = Some (r, ps) /\
    forall rd', cached db (FileNum f) = Some rd' -> rd' = rd.

(** What reading changes: the caches. *)
Record after_read (db db' : DB) : Prop := {
  ar_eq : exists c t, db' = set_tableCache (set_store db (mkStore (mems (store db)) c)) t;
  ar_cached : forall n rd, cached db' n = Some rd -> cached db n = Some rd \/ opens db n rd;
  ar_open : is_Some (tableCache db) -> is_Some (tableCache db');
  ar_blocks : is_Some (blocks (store db)) -> is_Some (blocks (store db')) }.

Lemma after_read_files db db' : after_read db db' -> files db' = files db.
Proof. by intros [(c & t & ->) _ _ _]. Qed.

#[export] Instance after_read_preorder : PreOrder after_read.
Proof.
  split.
  - intros db. split; [|by left|done|done]. exists (blocks (store db)), (tableCache db). by destruct db as [? ? ? [? ?]].
  - intros db1 db2 db3 [E1 C1 O1 B1] [E2 C2 O2 B2]. destruct E1 as (c1 & t1 & E1). subst db2. destruct E2 as (c2 & t2 & ->).
    split; [by exists c2, t2| |by auto|by auto]. intros n rd H. destruct (C2 n rd H) as [H2|H2]; [by apply C1|by right].
Qed.

Lemma live_after_read T db db' f : after_read db db' -> live T db f -> live T db' f.
Proof.
  intros Hr (rd & r & ps & Ho & Hop & HT & Hc). exists rd, r, ps. split.
  { destruct Ho as (c & Hf & Hn). exists c. by rewrite (after_read_files _ _ Hr). }
  split_and!; [done..|]. intros rd' [H|(c' & Hf' & Hn')]%(ar_cached _ _ Hr); [by apply Hc|].
  destruct Ho as (c & Hf & Hn). congruence.
Qed.

(** A stored table is live when the catalog has its layout. *)
Lemma stored_live db f l : stored db f l -> exists r ps, pairs_of ps = l /\
  forall T, T !! FileNum f = Some (r, ps) -> (forall rd, cached db (FileNum f) = Some rd -> opens db (FileNum f) rd) ->
    live T db f.
Proof.
  intros (_ & _ & c & Hc & _ & rd & r & ps & Hn & Hop & Hp & _). exists r, ps. split; [done|]. intros T HT Hca.
  exists rd, r, ps. split; [by exists c|]. split_and!; [done..|]. intros rd' (c' & Hc' & Hn')%Hca. congruence.
Qed.

(** Sealed memtables leave a database. *)
Lemma dbrep_dropped db db' vss n :
  dbrep db vss -> mem_data <$> mems (store db') = mem_data <$> mems (store db) -> mem db' = mem db ->
  imm db' = drop n (imm db) -> seqNum db' = seqNum db -> opts db' = opts db ->
  dbrep db' (take (S (length (imm db) - n)) vss).
Proof.
  intros [Hms Hd Ho Hq H0 Hopt] Hdata Hm Hi Hs Hop. set (k := S (length (imm db) - n)).
  assert (El : mem db' :: rev (imm db') = take k (mem db :: rev (imm db))).
  { unfold k. cbn [take]. rewrite Hm, Hi, firstn_rev. do 2 f_equal.
    destruct (decide (n <= length (imm db))%nat); [f_equal; blia|by rewrite !drop_ge by blia]. }
  assert (Hsub : sublist (mem db' :: imm db') (mem db :: imm db)).
  { rewrite Hm, Hi. apply sublist_skip, sublist_drop. }
  split; rewrite ?Hs, ?Hop; [| | | |done..].
  - rewrite El. eapply Forall2_impl; [by apply Forall2_take|]. intros i vs (m & Hl & Hr).
    destruct (mem_data_lookup _ _ _ _ Hdata Hl) as (m' & Hl' & [= E1 E2 E3]). exists m'. split; [done|].
    destruct Hr as [A B C D]. split; [by rewrite E1|done|by rewrite E2, E3|by rewrite E2].
  - by eapply sublist_NoDup.
  - rewrite <- (take_drop k vss) in Ho. by apply StronglySorted_app_1_l in Ho.
  - rewrite <- (take_drop k vss), concat_app in Hq. by apply Forall_app in Hq as [Hq _].
Qed.

(** Stored tables that are not open extend any catalog. *)
Lemma catalog_of_stored (T0 : catalog) db fms ls :
  Forall2 (stored db) fms ls -> NoDup (FileNum <$> fms) -> (forall f, f ∈ fms -> cached db (FileNum f) = None) ->
  exists T, Forall (live T db) fms /\ pairs_in T <$> fms = ls /\ forall n, n ∉ FileNum <$> fms -> T !! n = T0 !! n.
Proof.
  intros Hst Hnd Hca.
  assert (H : exists T : catalog, Forall2 (fun f l => exists r ps, pairs_of ps = l /\ T !! FileNum f = Some (r, ps)) fms ls /\
    Forall (live T db) fms /\ forall n, n ∉ FileNum <$> fms -> T !! n = T0 !! n).
  { induction Hst as [|f l fms ls Hf _ IH]; [by exists T0|].
    rewrite fmap_cons in Hnd. apply NoDup_cons in Hnd as [Hni Hnd].
    destruct IH as (T & HT & Hl & Hout); [done|intros g Hg; apply Hca; by right|].
    destruct (stored_live db f l Hf) as (r & ps & Hp & Hlive). set (T' := <[FileNum f := (r, ps)]> T : catalog).
    assert (Hk : forall g, g ∈ fms -> T' !! FileNum g = T !! FileNum g).
    { intros g Hg. apply lookup_insert_ne. intros E. apply Hni. rewrite E. by apply list_elem_of_fmap_2. }
    assert (Hfl : live T' db f).
    { apply Hlive; [apply lookup_insert_eq|]. intros rd E. by rewrite Hca in E by left. }
    exists T'. split; [constructor; [exists r, ps; split; [done|apply lookup_insert_eq]|]|split; [constructor; [done|]|]].
    - eapply Forall2_impl_in; [exact HT|]. cbn. intros g lg Hg. by rewrite Hk.
    - rewrite Forall_forall in Hl |- *. intros g Hg. destruct (Hl g Hg) as (rd & r' & ps' & H). exists rd, r', ps'. by rewrite Hk.
    - rewrite fmap_cons. intros n [Hn Hn']%not_elem_of_cons. unfold T'. rewrite lookup_insert_ne by done. by apply Hout. }
  destruct H as (T & HT & Hl & Hout). exists T. split; [done|]. split; [|done]. apply list_eq_Forall2, Forall2_fmap_l.
  eapply Forall2_impl; [exact HT|]. intros f l (r & ps & Hp & E). change (pairs_in T f = l). unfold pairs_in. by rewrite E.
Qed.

(** A table stays live where its file and its reader stay. *)
Lemma live_frame (T T' : catalog) db db' f : live T db f -> T' !! FileNum f = T !! FileNum f ->
  files db' !! sstablePath (FileNum f) = files db !! sstablePath (FileNum f) ->
  cached db' (FileNum f) = cached db (FileNum f) -> live T' db' f.
Proof.
  intros (rd & r & ps & (c & Hc & Hn) & Hop & HT & Hca) ET Ef Ec. exists rd, r, ps. split; [exists c; by rewrite Ef|].
  split; [done|]. rewrite ET, Ec. by split.
Qed.

Lemma pairs_in_ext (T T' : catalog) f : T' !! FileNum f = T !! FileNum f -> pairs_in T' f = pairs_in T f.
Proof. unfold pairs_in. by intros ->. Qed.

Lemma blocks_named_mono (T T' : catalog) f o d : T ⊆ T' -> blocks_named T f o d -> blocks_named T' f o d.
Proof.
  intros Hs. unfold blocks_named. destruct (T !! f) as [[r ps]|] eqn:E; [|done].
  by rewrite (lookup_weaken _ _ _ _ E Hs).
Qed.

(** A database whose tables and cache are in order. *)
Record tables_in_order (T : catalog) (db : DB) : Prop := {
  to_open : is_Some (tableCache db);
  to_sound : sound_opt (blocks_named T) (blocks (store db)) }.

(** A live table can be read by a compaction. *)
Lemma live_input T db f : live T db f -> is_Some (tableCache db) -> input_ready (blocks_named T) db f (pairs_in T f).
Proof.
  intros (rd & r & ps & (c & Hf & Hn) & Hop & HT & Hc) [t Ht]. exists t. split; [done|].
  assert (Hon : table_on (blocks_named T) rd (pairs_in T f)).
  { exists (FileNum f), r, ps. split; [done|]. split; [by apply (blocks_named_of T rd)|]. unfold pairs_in. by rewrite HT. }
  unfold cached in Hc. rewrite Ht in Hc. cbn [mbind option_bind] in Hc.
  destruct (t !! FileNum f) as [rd'|]; [by rewrite (Hc rd' eq_refl)|]. by exists c, rd.
Qed.

Lemma live_inputs T db fs : Forall (live T db) fs -> is_Some (tableCache db) ->
  Forall2 (input_ready (blocks_named T) db) fs (pairs_in T <$> fs).
Proof. intros Hl Ht. apply Forall2_fmap_r. induction Hl; constructor; [by apply live_input|done]. Qed.

(** ** One table *)

Lemma getTableReader_live T db f : live T db f -> tables_in_order T db ->
  exists db' rd, getTableReader db f = Some (db', inr rd) /\ after_read db db' /\ tables_in_order T db' /\
    table_on (blocks_named T) rd (pairs_in T f).
Proof.
  intros (rd & r & ps & (c & Hf & Hn) & Hop & HT & Hc) [[t Ht] Hs].
  assert (Hon : table_on (blocks_named T) rd (pairs_in T f)).
  { exists (FileNum f), r, ps. split; [done|]. split; [by apply (blocks_named_of T rd)|]. unfold pairs_in. by rewrite HT. }
  unfold getTableReader, cached in *. rewrite Ht in *. cbn [mbind option_bind] in *.
  destruct (t !! FileNum f) as [rd'|] eqn:E.
  { rewrite (Hc rd' eq_refl). exists db, rd. split; [done|]. split; [done|]. split; [|done]. split; [by exists t|done]. }
  unfold OpenReader. rewrite Hf, Hn. cbn [mbind option_bind]. eexists _, rd. split; [reflexivity|].
  split; [|by split; [by eexists|]]. split; [exists (blocks (store db)); eexists; by destruct db as [? ? ? [? ?]]| |by eexists|done].
  intros n rd'. unfold cached. rewrite Ht. cbn. destruct (decide (n = FileNum f)) as [->|Hne].
  - rewrite lookup_insert_eq. intros [= <-]. right. by exists c.
  - rewrite lookup_insert_ne by done. by left.
Qed.

(** The reply of a table that holds [l]: the value of the first entry at or
    after the sought one, when it is of this user key and not a tombstone. *)
Definition table_reply (l : pairs) (key : bytes) (seq : Z) : lsm_error + bytes :=
  match suffix_from (MakeInternalKey key seq KindSet) l with
  | [] => inl ErrNotFound
  | (k, v) :: _ =>
      if bool_decide (UserKey k = key) && negb ((ParseInternalKey k).2 =? KindDelete) then inr v else inl ErrNotFound
  end.

Lemma getFromTable_live T db f key seq : live T db f -> tables_in_order T db ->
  exists db' r, getFromTable db f (MakeInternalKey key seq KindSet) key = Some (db', r) /\
    after_read db db' /\ tables_in_order T db' /\ table_outcome r = Some (table_reply (pairs_in T f) key seq).
Proof.
  intros Hl Ht. destruct (getTableReader_live T db f Hl Ht) as (db1 & rd & E & Hr1 & [Ho1 Hs1] & (fid & r & ps & Hop & Hb & Hp)).
  unfold getFromTable. rewrite E. cbn [mbind option_bind]. set (sk := MakeInternalKey key seq KindSet).
  destruct (SeekGE_any (blocks_named T) rd fid r ps Hop Hb (blocks (store db1)) TableReader.NewIterator sk Hs1) as (c & it & Eseek & Hc & Hsh). rewrite Eseek.
  cbn [mbind option_bind]. set (db2 := set_store db1 _). unfold table_reply. fold sk. rewrite <- Hp.
  assert (Hr2 : after_read db db2).
  { etrans; [exact Hr1|]. split; [|by left|done|by apply (SeekGE_cache _ _ _ _ _ _ _ Eseek)]. exists c, (tableCache db1). by destruct db1 as [? ? ? [? ?]]. }
  assert (Ht2 : tables_in_order T db2) by by split.
  destruct (suffix_from sk (pairs_of ps)) as [|[k v] rest] eqn:Es; cbn [more negb].
  { by exists db2, (inr (None, 0)). }
  destruct (tcursor_Key r ps it (k, v) rest) as [-> ->]; [by apply Hsh; left|]. cbn [mbind option_bind fst snd].
  rewrite compareKeys_eq. destruct (bool_decide (UserKey k = key)) eqn:Eu; cbn [negb andb].
  2:{ by exists db2, (inr (None, 0)). }
  destruct (ParseInternalKey k) as [[u s] kind]. cbn [snd].
  destruct (kind =? KindDelete); cbn [negb]; by eexists db2, _.
Qed.

(** What the reply means for a table of versions. *)
Lemma table_reply_answers l vs key seq :
  ascending l -> l ≡ₚ enc <$> vs -> Forall ver_ok vs -> seq_ok seq -> key_separate vs key ->
  exists r, table_reply l key seq = match r with Some v => inr v | None => inl ErrNotFound end /\
    answers vs key seq r.
Proof.
  intros Ha Hp Hok Hseq Hsep. pose proof (seek_newest l vs key seq Ha Hp Hok Hseq Hsep) as Hs.
  unfold table_reply. destruct (suffix_from _ l) as [|[k val] rest]; [exists None; split; [done|by left]|].
  destruct Hs as (v & Hv & -> & -> & Hd). rewrite Forall_forall in Hok. destruct (ver_ok_seq v (Hok v Hv)) as [H1 H2].
  unfold ver_ikey. rewrite UserKey_Make, Parse_Make by done. cbn [snd]. destruct (decide (v_key v = key)) as [Hk|Hk].
  - rewrite bool_decide_eq_true_2 by done. cbn [andb]. destruct (Hok v Hv) as [_ [Hkd|Hkd]]; rewrite Hkd; cbn.
    + exists (Some (v_val v)). split; [done|]. by exists v.
    + exists None. split; [done|]. right. by exists v.
  - rewrite bool_decide_eq_false_2 by done. exists None. split; [done|]. by left.
Qed.

(** ** One level *)

(** The range of user keys the database takes a file to have. *)
Definition covers (key : bytes) (f : FileMeta) : Prop :=
  ble (UserKey (SmallestKey f)) key /\ ble key (UserKey (LargestKey f)).

#[export] Instance covers_dec key f : Decision (covers key f).
Proof. unfold covers. apply _. Defined.

(** The files of a level from 1 on follow one another, also by user keys. *)
Definition ranges_in_order (fs : list FileMeta) : Prop :=
  StronglySorted (fun f g => ble (UserKey (SmallestKey f)) (UserKey (SmallestKey g)) /\
                             ble (UserKey (LargestKey f)) (UserKey (LargestKey g))) fs.

Definition first_covering (key : bytes) (fs : list FileMeta) : option FileMeta := hd_error (base.filter (covers key) fs).

Lemma first_covering_app key a b :
  first_covering key (a ++ b) = match first_covering key a with Some f => Some f | None => first_covering key b end.
Proof. unfold first_covering. rewrite filter_app. by destruct (base.filter (covers key) a). Qed.

Lemma first_covering_cons key f fs :
  first_covering key (f :: fs) = if decide (covers key f) then Some f else first_covering key fs.
Proof. unfold first_covering. rewrite filter_cons. by destruct (decide _). Qed.

(** The tests of the code. *)
Lemma below_range key f : (compareKeys key (UserKey (SmallestKey f)) <? 0) = negb (bool_decide (ble (UserKey (SmallestKey f)) key)).
Proof. rewrite compareKeys_lt, <- bool_decide_not. apply bool_decide_ext. by rewrite not_ble. Qed.

Lemma in_range key f :
  (compareKeys key (UserKey (SmallestKey f)) <? 0) || (0 <? compareKeys key (UserKey (LargestKey f))) =
  negb (bool_decide (covers key f)).
Proof.
  rewrite below_range. assert (H : (0 <? compareKeys key (UserKey (LargestKey f))) = negb (bool_decide (ble key (UserKey (LargestKey f))))).
  { rewrite compareKeys_gt, <- bool_decide_not. apply bool_decide_ext. by rewrite not_ble. }
  rewrite H, <- negb_andb. f_equal. apply eq_true_iff_eq. by rewrite andb_true_iff, !bool_decide_eq_true.
Qed.

(** What a list of files replies. *)
Definition files_reply (T : catalog) (fs : list FileMeta) (key : bytes) (seq : Z) : option (lsm_error + bytes) :=
  (fun f => table_reply (pairs_in T f) key seq) <$> first_covering key fs.

Lemma get_L0_live T key seq : forall fs db, Forall (live T db) fs -> tables_in_order T db ->
  exists db', get_L0 db fs (MakeInternalKey key seq KindSet) key = Some (db', files_reply T fs key seq) /\
    after_read db db' /\ tables_in_order T db'.
Proof.
  induction fs as [|f fs IH]; intros db Hl Ht; cbn [get_L0]; [by exists db|].
  apply Forall_cons in Hl as [Hf Hfs]. rewrite in_range. unfold files_reply. rewrite first_covering_cons.
  destruct (decide (covers key f)) as [Hc|Hc].
  - rewrite bool_decide_eq_true_2 by done. cbn [negb].
    destruct (getFromTable_live T db f key seq Hf Ht) as (db' & r & -> & Hr & Ht' & Ho). cbn [mbind option_bind].
    rewrite Ho. by exists db'.
  - rewrite bool_decide_eq_false_2 by done. cbn [negb]. by apply IH.
Qed.

(** [sort.Search] on a predicate that stays true. *)
Lemma sort_Search_spec f p : forall fuel i j, 0 <= i <= j -> (Z.to_nat (j - i) <= fuel)%nat ->
  (forall h, i <= h < j -> f h = Some (p h)) -> (forall a b, i <= a <= b -> b < j -> p a = true -> p b = true) ->
  exists k, sort_Search fuel f i j = Some k /\ i <= k <= j /\
    (forall h, i <= h < k -> p h = false) /\ (k < j -> p k = true).
Proof.
  induction fuel as [|fuel IH]; intros i j Hij Hf Hp Hm; cbn [sort_Search].
  { assert (i = j) as -> by lia. rewrite Z.ltb_irrefl. exists j. split_and!; [done|lia..|intros; lia|lia]. }
  destruct (i <? j) eqn:E; bool_hyps; [|exists i; split_and!; [done|lia..|intros; lia|lia]].
  set (h := Z.shiftr (i + j) 1). assert (Hh : i <= h < j).
  { unfold h. rewrite Z.shiftr_div_pow2 by lia. change (2 ^ 1) with 2.
    pose proof (Z.div_mod (i + j) 2). pose proof (Z.mod_pos_bound (i + j) 2). lia. }
  rewrite Hp by done. cbn [mbind option_bind]. destruct (p h) eqn:Eh; cbn [negb].
  - destruct (IH i h) as (k & Ek & Hk & H1 & H2); [lia|lia|intros; apply Hp; lia|intros a b ? ?; apply Hm; lia|].
    exists k. split; [done|]. split; [lia|]. split; [done|]. intros Hlt. destruct (decide (k = h)) as [->|]; [done|apply H2; lia].
  - destruct (IH (h + 1) j) as (k & Ek & Hk & H1 & H2); [lia|lia|intros; apply Hp; lia|intros a b ? ?; apply Hm; lia|].
    exists k. split; [done|]. split; [lia|]. split; [|done]. intros x Hx. destruct (decide (h < x)); [apply H1; lia|].
    destruct (p x) eqn:Ex; [|done]. rewrite (Hm x h) in Eh; [done|lia..|done].
Qed.

Lemma sorted_lookup {A} (R : A -> A -> Prop) l (i j : nat) x y :
  StronglySorted R l -> l !! i = Some x -> l !! j = Some y -> (i < j)%nat -> R x y.
Proof.
  intros Hs Hi Hj Hij. apply (StronglySorted_app_1_elem_of R (take (S i) l) (drop (S i) l)); [by rewrite take_drop| |].
  - apply list_elem_of_lookup. exists i. by rewrite lookup_take_lt by lia.
  - apply list_elem_of_lookup. exists (j - S i)%nat. rewrite lookup_drop. by replace (S i + (j - S i))%nat with j by lia.
Qed.

(** The binary search finds the first file that ends at or after the key, the
    only one of an ordered level that may cover it. *)
Lemma first_covering_search key fs (k : nat) : ranges_in_order fs -> (k <= length fs)%nat ->
  (forall i f, (i < k)%nat -> fs !! i = Some f -> ~ ble key (UserKey (LargestKey f))) ->
  first_covering key fs = match fs !! k with
    | Some f => if decide (ble key (UserKey (LargestKey f))) then
                  if decide (ble (UserKey (SmallestKey f)) key) then Some f else None
                else first_covering key (drop k fs)
    | None => None
    end.
Proof.
  revert k. induction fs as [|f fs IH]; intros k Hs Hk Hb; [by destruct k|].
  apply StronglySorted_inv in Hs as [Hs Hf]. rewrite first_covering_cons. destruct k as [|k]; cbn [lookup list_lookup drop].
  - destruct (decide (ble key (UserKey (LargestKey f)))) as [Hle|Hle].
    + destruct (decide (ble (UserKey (SmallestKey f)) key)) as [Hge|Hge]; [by rewrite decide_True by by split|].
      rewrite decide_False by by intros [? _]. unfold first_covering.
      rewrite Forall_forall in Hf. destruct (base.filter (covers key) fs) as [|g gs] eqn:E; [done|]. exfalso.
      assert (Hg : g ∈ base.filter (covers key) fs) by (rewrite E; by left).
      apply list_elem_of_filter in Hg as [[Hc _] Hg]. apply Hge. destruct (Hf g Hg). by etrans.
    + rewrite decide_False by by intros [_ ?]. rewrite first_covering_cons. by rewrite decide_False by by intros [_ ?].
  - cbn [length] in Hk. assert (Hn : ~ covers key f) by (intros [_ ?]; apply (Hb 0%nat f); [lia|done..]).
    rewrite decide_False by done. rewrite (IH k); [done|done|lia|]. intros i g Hi Hg. apply (Hb (S i) g); [lia|done].
Qed.

Lemma get_level_live T key seq fs db : ranges_in_order fs -> Forall (live T db) fs -> tables_in_order T db ->
  exists db', get_level db fs (MakeInternalKey key seq KindSet) key = Some (db', files_reply T fs key seq) /\
    after_read db db' /\ tables_in_order T db'.
Proof.
  intros Hs Hl Ht. unfold get_level. pose proof (blen_nonneg fs).
  set (p := fun i => match index fs i with Some f => bool_decide (ble key (UserKey (LargestKey f))) | None => false end).
  assert (Hidx : forall h, 0 <= h -> index fs h = fs !! Z.to_nat h) by (intros h Hh; unfold index; by rewrite (proj2 (Z.leb_le 0 h)) by lia).
  assert (Hge : forall f, (0 <=? compareKeys (UserKey (LargestKey f)) key) = bool_decide (ble key (UserKey (LargestKey f)))).
  { intros f. rewrite <- (negb_involutive (0 <=? _)), <- Z.ltb_antisym, compareKeys_lt, <- bool_decide_not.
    apply bool_decide_ext. by rewrite not_blt. }
  destruct (sort_Search_spec (fun i => f ← index fs i; Some (0 <=? compareKeys (UserKey (LargestKey f)) key)) p
    (length fs) 0 (blen fs)) as (k & -> & Hk & Hlow & Hhigh); [lia|unfold blen; lia| | |].
  { intros h Hh. unfold p. rewrite Hidx by lia. destruct (fs !! Z.to_nat h) as [f|] eqn:E; cbn [mbind option_bind].
    - by rewrite Hge.
    - apply lookup_ge_None in E. unfold blen in *. lia. }
  { intros a b Hab Hb. unfold p. rewrite !Hidx by lia. destruct (fs !! Z.to_nat a) as [f|] eqn:Ea; [|done].
    destruct (fs !! Z.to_nat b) as [g|] eqn:Eb; [|apply lookup_ge_None in Eb; unfold blen in *; lia].
    rewrite !bool_decide_eq_true. destruct (decide (a = b)) as [->|]; [congruence|].
    intros Hle. etrans; [exact Hle|]. by apply (sorted_lookup _ _ (Z.to_nat a) (Z.to_nat b) f g Hs Ea Eb ltac:(lia)). }
  cbn [mbind option_bind]. unfold files_reply. rewrite (first_covering_search key fs (Z.to_nat k) Hs).
  2:{ unfold blen in *. lia. }
  2:{ intros i f Hi Hf Hle. specialize (Hlow (Z.of_nat i) ltac:(lia)). unfold p in Hlow. rewrite Hidx, Nat2Z.id, Hf in Hlow by lia.
      by rewrite bool_decide_eq_false in Hlow. }
  rewrite Hidx by lia. destruct (fs !! Z.to_nat k) as [f|] eqn:Ef; [|by exists db].
  assert (Hle : ble key (UserKey (LargestKey f))).
  { apply lookup_lt_Some in Ef as Hlt. specialize (Hhigh ltac:(unfold blen in *; lia)). unfold p in Hhigh.
    rewrite Hidx, Ef in Hhigh by lia. by apply bool_decide_eq_true in Hhigh. }
  rewrite decide_True by done. rewrite below_range. destruct (decide (ble (UserKey (SmallestKey f)) key)) as [Hc|Hc].
  - rewrite bool_decide_eq_true_2 by done. cbn [negb]. rewrite Forall_forall in Hl.
    destruct (getFromTable_live T db f key seq (Hl f ltac:(by eapply list_elem_of_lookup_2)) Ht) as (db' & r & -> & Hr & Ht' & Ho).
    cbn [mbind option_bind]. rewrite Ho. by exists db'.
  - rewrite bool_decide_eq_false_2 by done. by exists db.
Qed.

(** ** A version *)

(** The order in which a read goes through the files: level 0 newest first,
    then level by level. *)
Definition search_order (v : Version) : list FileMeta :=
  rev (default [] (Levels v !! 0%nat)) ++ concat (drop 1 (Levels v)).

Lemma get_levels_live T key seq : forall levels db, Forall ranges_in_order levels ->
  Forall (live T db) (concat levels) -> tables_in_order T db ->
  exists db', get_levels db levels (MakeInternalKey key seq KindSet) key =
      Some (db', default (inl ErrNotFound) (files_reply T (concat levels) key seq)) /\
    after_read db db' /\ tables_in_order T db'.
Proof.
  induction levels as [|fs levels IH]; intros db Hs Hl Ht; cbn [get_levels concat]; [by exists db|].
  apply Forall_cons in Hs as [Hfs Hs]. cbn [concat] in Hl. apply Forall_app in Hl as [Hl1 Hl2].
  destruct (get_level_live T key seq fs db Hfs Hl1 Ht) as (db1 & -> & Hr & Ht1). cbn [mbind option_bind].
  unfold files_reply. rewrite first_covering_app. destruct (first_covering key fs) as [f|]; cbn [fmap option_fmap option_map].
  - by exists db1.
  - destruct (IH db1 Hs) as (db2 & -> & Hr2 & Ht2); [|done|].
    { eapply Forall_impl; [exact Hl2|]. intros f. by apply live_after_read. }
    exists db2. split; [done|]. split; [by etrans|done].
Qed.

Definition tables_live (T : catalog) (db : DB) (v : Version) : Prop :=
  levels_ok v /\ Forall (live T db) (concat (Levels v)).

Lemma getFromVersion_live T key seq v db : tables_live T db v -> Forall ranges_in_order (drop 1 (Levels v)) ->
  tables_in_order T db ->
  exists db', getFromVersion db v key seq =
      Some (db', default (inl ErrNotFound) (files_reply T (search_order v) key seq)) /\
    after_read db db' /\ tables_in_order T db'.
Proof.
  intros [Hlv Hl] Hs Ht. unfold getFromVersion, search_order, levels_ok in *.
  destruct (Levels v) as [|l0 levels]; [done|]. cbn [lookup list_lookup drop mbind option_bind default from_option concat] in *.
  rewrite drop_0 in *. apply Forall_app in Hl as [Hl0 Hl].
  destruct (get_L0_live T key seq (rev l0) db) as (db1 & -> & Hr & Ht1); [by apply Forall_rev|done|].
  cbn [mbind option_bind id]. unfold files_reply. rewrite first_covering_app.
  destruct (first_covering key (rev l0)) as [f|]; cbn [fmap option_fmap option_map]; [by exists db1|].
  destruct (get_levels_live T key seq levels db1 Hs) as (db2 & E & Hr2 & Ht2); [|done|].
  { eapply Forall_impl; [exact Hl|]. intros f. by apply live_after_read. }
  exists db2. split; [exact E|]. split; [by etrans|done].
Qed.

(** ** Reading any key *)

Lemma index_elem {A} (l : list A) i x : index l i = Some x -> x ∈ l.
Proof. unfold index. destruct (0 <=? i); [|done]. apply list_elem_of_lookup_2. Qed.

(** Whatever the key, and whether or not a prefix of it is there, reading ends
    and changes the caches only. *)
Lemma getFromMemtable_total m vs key seq : mrep m vs -> exists r, getFromMemtable m key seq = Some r.
Proof.
  intros [(es & Hrep & _) _ _ _]. unfold getFromMemtable, Memtable.Iterator.SeekGE, Memtable.Iterator.Valid.
  destruct (SeekGE_first (skl m) es (MakeInternalKey key seq KindSet) Hrep) as (it & -> & Hfirst). cbn [mbind option_bind].
  destruct (suffix_from _ _) as [|[ik val] rest]; [subst it; by eexists|]. destruct Hfirst as (Hne & Hkey & Hval).
  unfold Skiplist.Valid. rewrite (proj2 (Z.eqb_neq _ _)) by done. cbn [negb].
  unfold Memtable.Iterator.UserKey, Memtable.Iterator.Value, Memtable.Iterator.Kind. rewrite Hkey, Hval.
  cbn [mbind option_bind]. destruct (ParseInternalKey ik) as [[u s] kind]. destruct (negb _); by eexists.
Qed.

Lemma get_mems_total ms vss key seq : Forall2 mrep ms vss -> exists r, get_mems ms key seq = Some r.
Proof.
  induction 1 as [|m vs ms vss Hm _ IH]; cbn [get_mems]; [by eexists|].
  destruct (getFromMemtable_total m vs key seq Hm) as (r & ->). cbn [mbind option_bind]. destruct r; [by eexists|done].
Qed.

Lemma sort_Search_total f : forall fuel i j, 0 <= i <= j -> (Z.to_nat (j - i) <= fuel)%nat ->
  (forall h, i <= h < j -> is_Some (f h)) -> is_Some (sort_Search fuel f i j).
Proof.
  induction fuel as [|fuel IH]; intros i j Hij Hf Hp; cbn [sort_Search].
  { assert (i = j) as -> by lia. by rewrite Z.ltb_irrefl. }
  destruct (i <? j) eqn:E; bool_hyps; [|done]. set (h := Z.shiftr (i + j) 1). assert (Hh : i <= h < j).
  { unfold h. rewrite Z.shiftr_div_pow2 by lia. change (2 ^ 1) with 2.
    pose proof (Z.div_mod (i + j) 2). pose proof (Z.mod_pos_bound (i + j) 2). lia. }
  destruct (Hp h Hh) as [b ->]. cbn [mbind option_bind]. destruct b; cbn [negb]; apply IH; try lia; intros; apply Hp; lia.
Qed.

Lemma get_level_total T key seq fs db : Forall (live T db) fs -> tables_in_order T db ->
  exists db' r, get_level db fs (MakeInternalKey key seq KindSet) key = Some (db', r) /\ after_read db db' /\ tables_in_order T db'.
Proof.
  intros Hl Ht. unfold get_level. pose proof (blen_nonneg fs).
  destruct (sort_Search_total (fun i => f ← index fs i; Some (0 <=? compareKeys (UserKey (LargestKey f)) key)) (length fs) 0 (blen fs))
    as [k ->]; [lia|unfold blen; lia| |].
  { intros h Hh. unfold index. rewrite (proj2 (Z.leb_le 0 h)) by lia.
    destruct (lookup_lt_is_Some_2 fs (Z.to_nat h)) as [f ->]; [unfold blen in Hh; lia|]. cbn [mbind option_bind]. by eexists. }
  cbn [mbind option_bind]. destruct (index fs k) as [f|] eqn:Ef; [|by exists db, None]. apply index_elem in Ef.
  destruct (_ <? 0); [by exists db, None|].
  destruct (getFromTable_live T db f key seq (proj1 (Forall_forall _ _) Hl f Ef) Ht) as (db' & r & -> & Hr & Ht' & _).
  cbn [mbind option_bind]. by eexists db', _.
Qed.

Lemma get_levels_total T key seq : forall levels db, Forall (live T db) (concat levels) -> tables_in_order T db ->
  exists db' r, get_levels db levels (MakeInternalKey key seq KindSet) key = Some (db', r) /\ after_read db db' /\ tables_in_order T db'.
Proof.
  induction levels as [|fs levels IH]; intros db Hl Ht; cbn [get_levels concat] in *; [by eexists db, _|].
  apply Forall_app in Hl as [Hl1 Hl2]. destruct (get_level_total T key seq fs db Hl1 Ht) as (db1 & r & -> & Hr & Ht1).
  cbn [mbind option_bind]. destruct r as [r|]; [by exists db1, r|].
  destruct (IH db1) as (db2 & r & -> & Hr2 & Ht2); [|done|exists db2, r; split; [done|]; by split; [etrans|]].
  eapply Forall_impl; [exact Hl2|]. intros f. by apply live_after_read.
Qed.

Lemma Get_total T db vss key : dbrep db vss -> tables_live T db (current (versions db)) -> tables_in_order T db ->
  exists db' r, Get db key = Some (db', r) /\ after_read db db' /\ tables_in_order T db'.
Proof.
  intros Hdb [Hlv Hl] Ht. unfold Get. destruct (closed db); [by eexists db, _|].
  destruct (memtables_of db vss Hdb) as (ms & E & Hms). unfold get_at. rewrite E. cbn [mbind option_bind].
  destruct (get_mems_total ms vss key (seqNum db) Hms) as (r & ->). cbn [mbind option_bind].
  destruct r as [[val kind]|]; [by eexists db, _|].
  unfold currentVersion, getFromVersion, levels_ok in *. destruct (Levels (current (versions db))) as [|l0 levels]; [done|].
  cbn [lookup list_lookup drop mbind option_bind concat] in *. apply Forall_app in Hl as [Hl0 Hl].
  destruct (get_L0_live T key (seqNum db) (rev l0) db) as (db1 & -> & Hr1 & Ht1); [by apply Forall_rev|done|].
  cbn [mbind option_bind]. destruct (files_reply _ _ _ _); [by eexists db1, _|].
  destruct (get_levels_total T key (seqNum db) levels db1) as (db2 & r & E2 & Hr2 & Ht2); [|done|exists db2, r; split; [done|]; by split; [etrans|]].
  eapply Forall_impl; [exact Hl|]. intros f. by apply live_after_read.
Qed.

(** ** The database *)

(** [V n]: the versions in the table numbered [n]. *)
Definition holds_versions (T : catalog) (V : Z -> list version) (f : FileMeta) : Prop :=
  pairs_in T f ≡ₚ enc <$> V (FileNum f) /\ Forall ver_ok (V (FileNum f)).

Lemma live_ascending T db f : live T db f -> ascending (pairs_in T f).
Proof. intros (rd & r & ps & _ & Hop & HT & _). unfold pairs_in. rewrite HT. apply Hop. Qed.

Lemma search_order_files v f : f ∈ search_order v -> f ∈ concat (Levels v).
Proof.
  unfold search_order. destruct (Levels v) as [|l0 levels]; [done|]. cbn [lookup list_lookup drop default from_option concat].
  rewrite drop_0, !elem_of_app. unfold id. rewrite !list_elem_of_In, <- in_rev. done.
Qed.

Lemma first_covering_elem key fs f : first_covering key fs = Some f -> f ∈ fs /\ covers key f.
Proof.
  unfold first_covering. destruct (base.filter (covers key) fs) as [|g gs] eqn:E; [done|]. intros [= <-].
  assert (H : g ∈ base.filter (covers key) fs) by (rewrite E; by left). apply list_elem_of_filter in H. tauto.
Qed.

(** What a found version means for the caller. *)
Lemma found_answers vs key seq val kind : Forall ver_ok vs -> found vs key seq (Some (val, kind)) ->
  exists ov, (if kind =? KindDelete then inl ErrNotFound else inr val : lsm_error + bytes) =
      match ov with Some x => inr x | None => inl ErrNotFound end /\ answers vs key seq ov.
Proof.
  intros Hok (v & Hv & <- & <-). destruct (proj1 (Forall_forall _ _) Hok v (proj1 (proj1 Hv))) as [_ [E|E]]; rewrite E; cbn.
  - exists (Some (v_val v)). split; [done|]. by exists v.
  - exists None. split; [done|]. right. by exists v.
Qed.

(** C10: What [Get] answers on a database with memtables and tables.  The first
    place that can have the key decides: the memtables when one of them has a
    version of it, otherwise the first file, newest of level 0 first and then
    level by level, whose range of user keys covers it, and that file alone: no
    later file is read, whether or not this one has the key.  The answer is the
    newest version in that place; no file covers the key, none is found.  Only
    the caches change, and no call fails.  The tables are readable and ordered,
    and no stored key is a proper prefix of the key or extends it. *)
Theorem get_first_place_decides (T : catalog) (V : Z -> list version) (db : DB) (vss : list (list version)) (key : bytes) :
  let v := current (versions db) in
  dbrep db vss -> closed db = false -> seqNum db < 2 ^ 56 -> tables_in_order T db -> tables_live T db v ->
  Forall ranges_in_order (drop 1 (Levels v)) -> Forall (holds_versions T V) (concat (Levels v)) ->
  key_separate (concat vss) key -> Forall (fun f => key_separate (V (FileNum f)) key) (concat (Levels v)) ->
  exists db' ov m, Get db key = Some (db', match ov with Some x => inr x | None => inl ErrNotFound end) /\
    after_read db db' /\ tables_in_order T db' /\
    found (concat vss) key (seqNum db) m /\
    match m with
    | Some _ => answers (concat vss) key (seqNum db) ov
    | None => match first_covering key (search_order v) with
              | Some f => answers (V (FileNum f)) key (seqNum db) ov
              | None => ov = None
              end
    end.
Proof.
  intros v Hdb Hcl Hs Ht Hl Hr HV Hsep HVs. pose proof (dr_seqNum _ _ Hdb) as H0. unfold Get. rewrite Hcl.
  destruct (get_at_spec db vss (currentVersion (versions db)) key (seqNum db) Hdb) as (m & Hm & ->); [by split|done|].
  destruct m as [[val kind]|].
  { destruct (found_answers _ _ _ _ _ (dbrep_ver_ok _ _ Hdb) Hm) as (ov & -> & Ha). by exists db, ov, (Some (val, kind)). }
  change (currentVersion (versions db)) with v.
  destruct (getFromVersion_live T key (seqNum db) v db Hl Hr Ht) as (db' & -> & Har & Ht').
  unfold files_reply. destruct (first_covering key (search_order v)) as [f|] eqn:Ef; [|by exists db', None, None].
  apply first_covering_elem in Ef as [Hf _]. apply search_order_files in Hf.
  destruct (proj1 (Forall_forall _ _) HV f Hf) as [Hp Hok].
  destruct (table_reply_answers (pairs_in T f) (V (FileNum f)) key (seqNum db)) as (ov & E & Ha).
  - apply (live_ascending T db), (proj1 (Forall_forall _ _) (proj2 Hl) f Hf).
  - done.
  - done.
  - by split.
  - exact (proj1 (Forall_forall _ _) HVs f Hf).
  - exists db', ov, None. cbn [fmap option_fmap option_map default from_option id]. rewrite E. done.
Qed.
