(* ===== verification/DBInvariant.v ===== *)
(** The database with its background loops: writes, reads, flushes and
    compactions in any order, the loops interrupted wherever they do not hold
    the lock, and the invariant that no version written is lost and none
    appears.

    A write is one step here; the order of two writers between taking a number
    and inserting is the subject of DBLimits.v.  Snapshots and iterators only
    read and are left out.  Every method that locks and unlocks several times
    is cut there: a flush into writing the table, logging it and dropping the
    memtable, a compaction into picking, merging, installing and evicting. *)
From stdpp Require Import sorting.
From S2P Require Import Prelude SliceSort Binary ByteOrder Sorted Io Format Block BlockSpec Cache CacheSpec CacheInterface TableWriter TableLayout TableReader TableReaderSpec TableSpec TableFile Arena Skiplist SkiplistSpec InternalKey Memtable MemtableSpec Version VersionSpec Manifest Heap Merged MergeIterator MergeSpec Sources DBIterator DB Flush FlushSpec DBSpec Compaction CompactionSpec DBTables.

#[local] Open Scope Z_scope.

(** ** What a database holds *)

Definition all_files (db : DB) : list FileMeta := concat (Levels (current (versions db))).

Definition memtable_entries (db : DB) (i : nat) : option pairs := m ← mems (store db) !! i; Skiplist.entries (skl m).

(** The entries of a table, read from the first on without a cache. *)
Definition table_entries (fuel : nat) (db : DB) (f : FileMeta) : option pairs :=
  c ← files db !! sstablePath (FileNum f);
  r ← NewReader c (blen c) (FileNum f);
  match r with
  | inl _ => None
  | inr rd =>
      '(c, it, _) ← TableReader.First rd (None : option BlockCache) TableReader.NewIterator;
      TableReader.collect fuel rd c it
  end.
Definition table_holds (db : DB) (f : FileMeta) (l : pairs) : Prop := exists fuel, table_entries fuel db f = Some l.

(** The pair is in a memtable or in a table of the current version. *)
Definition keeps (db : DB) (p : bytes * bytes) : Prop :=
  (exists i l, i ∈ mem db :: imm db /\ memtable_entries db i = Some l /\ p ∈ l) \/
  (exists f l, f ∈ all_files db /\ table_holds db f l /\ p ∈ l).

(** ** Steps *)

(** Where the flush loop is: it has written the table of a memtable, or logged
    it. *)
Inductive flush_state : Type :=
| FIdle
| FWritten (i : nat) (fm : FileMeta)
| FLogged (i : nat).

(** Where the compaction loop is. *)
Inductive comp_state : Type :=
| CIdle
| CPicked (p : compactionPick)
| CWritten (p : compactionPick) (outs : list FileMeta)
| CInstalled (p : compactionPick).

(** [w_hist]: the versions written without error, newest first. *)
Record world : Type := mkWorld {
  w_db : DB;
  w_flush : flush_state;
  w_comp : comp_state;
  w_hist : list version }.

Inductive action : Type :=
| AWrite (del : bool) (rnd : Z) (key value : bytes)
| AGet (key : bytes)
| AFlush (fuel : nat) (d : disk)
| ALog (d : disk)
| ADrop
| APick
| AMerge (fuel : nat) (d : disk)
| AInstall (log_ok : bool)
| AEvict.

(** The loops are at the right place for the step. *)
Definition enabled (a : action) (w : world) : bool :=
  match a, w_flush w, w_comp w with
  | (AWrite _ _ _ _ | AGet _), _, _ | AFlush _ _, FIdle, _ | ALog _, FWritten _ _, _ | ADrop, FLogged _, _
  | APick, _, CIdle | AMerge _ _, _, CPicked _ | AInstall _, _, CWritten _ _ | AEvict, _, CInstalled _ => true
  | _, _, _ => false
  end.

Section steps.
Context {sorter : SliceSorter} (range_keys : gmap cacheKey nat -> list cacheKey).

(** One step; [None] is a panic, or a step that is not enabled. *)
Definition act (a : action) (w : world) : option world :=
  let '(mkWorld db fl co h) := w in
  match a, fl, co with
  | AWrite del rnd key value, _, _ =>
      '(db, e) ← write db (insertion del rnd key value);
      Some (mkWorld db fl co (match e with None => written_version del key value (seqNum db) :: h | Some _ => h end))
  | AGet key, _, _ => '(db, _) ← Get db key; Some (mkWorld db fl co h)
  | AFlush fuel d, FIdle, _ =>
      match imm db with
      | [] => Some w
      | i :: _ =>
          m ← mems (store db) !! i;
          '(db, r) ← flush fuel d db m;
          Some (mkWorld db (match r with inl _ => FIdle | inr fm => FWritten i fm end) co h)
      end
  | ALog d, FWritten i fm, _ =>
      '(db, logged) ← log_flushed d db fm;
      Some (mkWorld db (if (logged : bool) then FLogged i else FIdle) co h)
  | ADrop, FLogged i, _ => Some (mkWorld (drop_flushed db i) FIdle co h)
  | APick, _, CIdle =>
      p ← pickCompaction db;
      Some (mkWorld db fl (match p with Some p => CPicked p | None => CIdle end) h)
  | AMerge fuel d, _, CPicked p =>
      '(db, r) ← open_inputs db (inputs p ++ overlaps p);
      match r with
      | inl _ => Some (mkWorld db fl CIdle h)
      | inr iters =>
          '(db, o, e) ← write_outputs fuel d (outputLevel p) db iters;
          Some (mkWorld db fl (match e with None => CWritten p (outputFiles o) | Some _ => CIdle end) h)
      end
  | AInstall log_ok, _, CWritten p outs =>
      '(db, e) ← install log_ok p db outs;
      Some (mkWorld db fl (match e with None => CInstalled p | Some _ => CIdle end) h)
  | AEvict, _, CInstalled p =>
      c ← blocks (store db);
      c ← evict_files range_keys c (inputs p ++ overlaps p);
      Some (mkWorld (set_store db (mkStore (mems (store db)) (Some c))) fl CIdle h)
  | _, _, _ => None
  end.

Lemma act_enabled a w w' : act a w = Some w' -> enabled a w = true.
Proof. destruct w as [db fl co h]. by destruct a, fl, co. Qed.

Fixpoint acts (l : list action) (w : world) : option world :=
  match l with
  | [] => Some w
  | a :: l => w ← act a w; acts l w
  end.

(** The rounds of the loops are these steps in a row. *)
Lemma flush_round_acts fuel d db co h i rest : imm db = i :: rest ->
  acts [AFlush fuel d; ALog d; ADrop] (mkWorld db FIdle co h) =
  ('(db', go) ← flush_round fuel d db; if (go : bool) then Some (mkWorld db' FIdle co h) else None).
Proof.
  intros Hi. cbn [acts act]. unfold flush_round. rewrite Hi. destruct (mems (store db) !! i) as [m|]; [|done].
  cbn [mbind option_bind]. destruct (flush fuel d db m) as [[db1 [e|fm]]|]; [done| |done].
  cbn [mbind option_bind act]. destruct (log_flushed d db1 fm) as [[db2 []]|]; done.
Qed.

Lemma compaction_round_acts fuel d log_ok db fl h p : pickCompaction db = Some (Some p) ->
  acts [APick; AMerge fuel d; AInstall log_ok; AEvict] (mkWorld db fl CIdle h) =
  ('(db', go) ← compaction_round range_keys fuel d log_ok db; if (go : bool) then Some (mkWorld db' fl CIdle h) else None).
Proof.
  intros Hp. cbn [acts act]. unfold compaction_round, runCompaction. rewrite Hp. cbn [mbind option_bind act].
  destruct (open_inputs db _) as [[db1 [e|iters]]|]; [done| |done]. cbn [mbind option_bind].
  destruct (write_outputs _ _ _ _ _) as [[[db2 o] [e|]]|]; [done| |done]. cbn [mbind option_bind act].
  destruct (install _ _ _ _) as [[db3 [e|]]|]; [done| |done]. cbn [mbind option_bind act].
  destruct (blocks (store db3)) as [c|]; [|done]. cbn [mbind option_bind].
  by destruct (evict_files _ _ _).
Qed.
End steps.

(** ** Contents *)

Lemma memtable_entries_holds db vss k i : dbrep db vss -> (mem db :: rev (imm db)) !! k = Some i ->
  exists vs l, vss !! k = Some vs /\ memtable_entries db i = Some l /\ l ≡ₚ enc <$> vs.
Proof.
  intros Hdb Hk. destruct (Forall2_lookup_l _ _ _ _ _ (dr_mems _ _ Hdb) Hk) as (vs & Hvs & (m & Hm & Hr)).
  destruct (mr_list _ _ Hr) as (es & Hes & Hp). exists vs, (contents es). split; [done|]. split; [|done].
  unfold memtable_entries. rewrite Hm. by apply entries_spec.
Qed.

Lemma collect_more fuel fuel' t (c : option BlockCache) it l : (fuel <= fuel')%nat ->
  TableReader.collect fuel t c it = Some l -> TableReader.collect fuel' t c it = Some l.
Proof.
  revert fuel' c it l. induction fuel as [|fuel IH]; intros fuel' c it l Hf; [done|]. destruct fuel' as [|fuel']; [lia|].
  cbn [TableReader.collect]. destruct (TableReader.Valid it); [|done].
  destruct (TableReader.Key it); [|done]. destruct (TableReader.Value it); [|done]. cbn [mbind option_bind].
  destruct (TableReader.Next t c it) as [[[c1 it1] ok]|]; [|done]. cbn [mbind option_bind].
  destruct (TableReader.collect fuel t c1 it1) as [rest|] eqn:E; [|done]. by rewrite (IH fuel' c1 it1 rest ltac:(lia) E).
Qed.

Lemma live_holds T db f l : live T db f -> table_holds db f l <-> l = pairs_in T f.
Proof.
  intros (rd & r & ps & (c & Hc & Hn) & Hop & HT & _). unfold pairs_in. rewrite HT.
  destruct (opened_serves (C := BlockCache) rd (FileNum f) r ps Hop (fun _ => part_blocks r ps) None) as (_ & (c' & it & HF & _ & Hcol) & _);
    [done|done|].
  assert (E : forall fuel, table_entries fuel db f = TableReader.collect fuel rd c' it)
    by (intros fuel; unfold table_entries; rewrite Hc; cbn [mbind option_bind]; rewrite Hn; cbn [mbind option_bind]; by rewrite HF).
  split; [|intros ->; eexists; by rewrite E].
  intros [fuel H]. rewrite E in H. set (n := Datatypes.S (length (pairs_of ps))) in *.
  apply (collect_more _ (Nat.max fuel n)) in H; [|lia]. apply (collect_more _ (Nat.max fuel n)) in Hcol; [|lia]. congruence.
Qed.

Lemma mems_elem db i : i ∈ mem db :: rev (imm db) <-> i ∈ mem db :: imm db.
Proof. rewrite !elem_of_cons, !list_elem_of_In, <- in_rev. done. Qed.

(** The contents by the representation. *)
Definition held (T : catalog) (db : DB) (vss : list (list version)) : pairs :=
  (enc <$> concat vss) ++ concat (pairs_in T <$> all_files db).

Lemma keeps_held T db vss p : dbrep db vss -> Forall (live T db) (all_files db) -> keeps db p <-> p ∈ held T db vss.
Proof.
  intros Hdb Hl. unfold held. rewrite elem_of_app. rewrite Forall_forall in Hl. apply Morphisms_Prop.or_iff_morphism.
  - split.
    + intros (i & l & Hi & El & Hp). apply mems_elem, list_elem_of_lookup in Hi as [k Hk]. destruct (memtable_entries_holds _ _ _ _ Hdb Hk) as (vs & l' & Hvs & E & Hperm).
      assert (l' = l) as -> by congruence. rewrite Hperm in Hp. apply list_elem_of_fmap in Hp as (v & -> & Hv).
      apply list_elem_of_fmap_2, elem_of_concat. exists vs. split; [done|by eapply list_elem_of_lookup_2].
    + intros (v & -> & (vs & Hv & Hvs)%elem_of_concat)%list_elem_of_fmap. apply list_elem_of_lookup in Hvs as [k Hk].
      destruct (Forall2_lookup_r _ _ _ _ _ (dr_mems _ _ Hdb) Hk) as (i & Hi & _).
      destruct (memtable_entries_holds _ _ _ _ Hdb Hi) as (vs' & l & Hvs' & E & Hperm). assert (vs' = vs) as -> by congruence.
      exists i, l. split; [by apply mems_elem; eapply list_elem_of_lookup_2|].
      split; [done|]. rewrite Hperm. by apply list_elem_of_fmap_2.
  - rewrite elem_of_concat. split.
    + intros (f & l & Hf & Hh & Hp). rewrite (live_holds T db f l (Hl f Hf)) in Hh. subst l.
      exists (pairs_in T f). split; [done|by apply list_elem_of_fmap_2].
    + intros (l & Hp & (f & -> & Hf)%list_elem_of_fmap). exists f, (pairs_in T f). split; [done|]. split; [|done].
      apply (live_holds T db f); [by apply Hl|done].
Qed.

(** ** What the directory and the catalog agree on *)

(** The files of the version and those a loop has written and not installed,
    [pend], are live under distinct numbers in use; a number not yet in use
    names nothing. *)
Record table_inv (T : catalog) (db : DB) (pend : list FileMeta) : Prop := {
  ti_levels : levels_ok (current (versions db));
  ti_next : 0 <= nextFileNum (versions db) < 2 ^ 64;
  ti_order : tables_in_order T db;
  ti_cache : is_Some (blocks (store db));
  ti_nodup : NoDup (FileNum <$> all_files db ++ pend);
  ti_live : Forall (fun f => live T db f /\ 0 <= FileNum f < nextFileNum (versions db)) (all_files db ++ pend);
  ti_unused : forall n, nextFileNum (versions db) <= n < 2 ^ 64 ->
    files db !! sstablePath n = None /\ cached db n = None /\ T !! n = None }.

Lemma ti_files T db pend : table_inv T db pend -> Forall (live T db) (all_files db).
Proof. intros H. pose proof (ti_live _ _ _ H) as Hl. apply Forall_app in Hl as [Hl _]. eapply Forall_impl; [exact Hl|]. by intros f []. Qed.

Lemma table_inv_same T db db' pend : same_tables db db' -> table_inv T db pend -> table_inv T db' pend.
Proof.
  intros (Ef & _ & Ec & En & Et & _ & Eb) [H1 H2 [H3 H3'] Hb H4 H5 H6].
  assert (Hca : forall n, cached db' n = cached db n) by (intros n; unfold cached; by rewrite Et).
  assert (Ea : all_files db' = all_files db) by (unfold all_files; by rewrite Ec).
  split; rewrite ?Ec, ?En, ?Ea; try done.
  - split; [by rewrite Et|by rewrite Eb].
  - by rewrite Eb.
  - eapply Forall_impl; [exact H5|]. intros f [Hl Hn]. split; [|done]. apply (live_frame T T db); [done|done|by rewrite Ef|done].
  - intros n Hn. by rewrite Ef, Hca; apply H6.
Qed.

Lemma table_inv_read T db db' pend :
  after_read db db' -> tables_in_order T db' -> table_inv T db pend -> table_inv T db' pend.
Proof.
  intros Hr Ht [H1 H2 _ Hb H4 H5 H6]. pose proof (ar_eq _ _ Hr) as (c & t & E).
  assert (Ev : versions db' = versions db) by (by rewrite E).
  assert (Ea : all_files db' = all_files db) by (unfold all_files; by rewrite Ev).
  pose proof (after_read_files _ _ Hr) as Ef. split; rewrite ?Ev, ?Ea; try done.
  - by apply Hr.
  - eapply Forall_impl; [exact H5|]. intros f [Hl Hn]. split; [by eapply live_after_read|done].
  - intros n Hn. destruct (H6 n Hn) as (A & B & C). rewrite Ef. split; [done|]. split; [|done].
    destruct (cached db' n) as [rd|] eqn:Ec; [|done]. destruct (ar_cached _ _ Hr n rd Ec) as [Hc|(x & Hx & _)]; congruence.
Qed.

(** New tables under new numbers. *)
Lemma table_inv_new T db db' pend outs ls :
  table_inv T db pend -> current (versions db') = current (versions db) ->
  nextFileNum (versions db) <= nextFileNum (versions db') < 2 ^ 64 ->
  tableCache db' = tableCache db -> sound_opt (blocks_named T) (blocks (store db')) ->
  (is_Some (blocks (store db)) -> is_Some (blocks (store db'))) ->
  (forall n, 0 <= n < nextFileNum (versions db) -> files db' !! sstablePath n = files db !! sstablePath n) ->
  (forall n, nextFileNum (versions db') <= n < 2 ^ 64 -> files db' !! sstablePath n = files db !! sstablePath n) ->
  Forall2 (stored db') outs ls -> NoDup (FileNum <$> outs) ->
  Forall (fun f => nextFileNum (versions db) <= FileNum f < nextFileNum (versions db')) outs ->
  exists T', table_inv T' db' (pend ++ outs) /\ pairs_in T' <$> outs = ls /\
    forall f, FileNum f < nextFileNum (versions db) -> pairs_in T' f = pairs_in T f.
Proof.
  intros [H1 H2 [H3 H3'] Hb H4 H5 H6] Ec Hnx Et Hs Hcb Hold Hun Hst Hnd Hnum.
  assert (Hca : forall n, cached db' n = cached db n) by (intros n; unfold cached; by rewrite Et).
  assert (Ea : all_files db' = all_files db) by (unfold all_files; by rewrite Ec).
  rewrite Forall_forall in Hnum.
  destruct (catalog_of_stored T db' outs ls Hst Hnd) as (T' & Hl & Hp & Hout).
  { intros f Hf. rewrite Hca. specialize (Hnum f Hf). apply H6. lia. }
  assert (Hlow : forall n, n < nextFileNum (versions db) -> T' !! n = T !! n).
  { intros n Hn. apply Hout. intros (f & -> & Hf)%list_elem_of_fmap. specialize (Hnum f Hf). lia. }
  exists T'. split; [|split; [done|]; intros f Hf; apply pairs_in_ext; by apply Hlow].
  rewrite Forall_forall in H5.
  split; rewrite ?Ec; try done; [lia| |by apply Hcb| | |].
  - split; [by rewrite Et|]. destruct (blocks (store db')) as [c|] eqn:Eb; [|done]. cbn in *.
    refine (lru_sound_mono _ _ c (fun fid o d => blocks_named_mono T T' fid o d _) Hs). apply map_subseteq_spec. intros n x Hx.
    destruct (decide (n ∈ FileNum <$> outs)) as [(f & -> & Hf)%list_elem_of_fmap|Hni]; [|by rewrite Hout].
    specialize (Hnum f Hf). destruct (H6 (FileNum f)) as (_ & _ & HT); [lia|congruence].
  - rewrite Ea, app_assoc, fmap_app. apply NoDup_app. split; [done|]. split; [|done].
    intros n (f & -> & Hf)%list_elem_of_fmap (g & E & Hg)%list_elem_of_fmap.
    destruct (H5 f Hf) as [_ ?]. specialize (Hnum g Hg). lia.
  - rewrite Ea, app_assoc. apply Forall_app. split; apply Forall_forall; intros f Hf.
    + destruct (H5 f Hf) as [Hlf Hn]. split; [|lia]. apply (live_frame T T' db); [done|apply Hlow; lia|by apply Hold|done].
    + split; [by apply (proj1 (Forall_forall _ _) Hl)|]. specialize (Hnum f Hf). lia.
  - intros n Hn. destruct (H6 n) as (A & B & C); [lia|]. rewrite Hun, Hca by done. split_and!; [done..|].
    rewrite Hout; [done|]. intros (f & -> & Hf)%list_elem_of_fmap. specialize (Hnum f Hf). lia.
Qed.

(** A new version and the files that leave with the old one. *)
Lemma table_inv_version T db db' pend pend' :
  table_inv T db pend -> levels_ok (current (versions db')) -> nextFileNum (versions db') = nextFileNum (versions db) ->
  tableCache db' = tableCache db -> blocks (store db') = blocks (store db) ->
  all_files db' ++ pend' ⊆+ all_files db ++ pend ->
  (forall f, f ∈ all_files db' ++ pend' -> files db' !! sstablePath (FileNum f) = files db !! sstablePath (FileNum f)) ->
  (forall n, nextFileNum (versions db) <= n < 2 ^ 64 -> files db !! sstablePath n = None -> files db' !! sstablePath n = None) ->
  table_inv T db' pend'.
Proof.
  intros [H1 H2 [H3 H3'] Hb H4 H5 H6] Hl En Et Eb Hsub Hfs Hun.
  assert (Hca : forall n, cached db' n = cached db n) by (intros n; unfold cached; by rewrite Et).
  rewrite Forall_forall in H5. split; rewrite ?En; try done.
  - split; [by rewrite Et|by rewrite Eb].
  - by rewrite Eb.
  - apply submseteq_Permutation in Hsub as [k Hk]. rewrite Hk, fmap_app in H4. by apply NoDup_app in H4 as [H4 _].
  - apply Forall_forall. intros f Hf. destruct (H5 f) as [Hlf Hn]; [by eapply elem_of_submseteq|]. split; [|done].
    apply (live_frame T T db); [done|done|by apply Hfs|done].
  - intros n Hn. destruct (H6 n Hn) as (A & B & C). rewrite Hca. split; [by apply Hun|done].
Qed.

(** ** Facts about the parts *)

(** The entries of distinct versions have distinct internal keys. *)
Lemma enc_functional vs p q :
  Forall ver_ok vs -> NoDup (v_seq <$> vs) -> p ∈ enc <$> vs -> q ∈ enc <$> vs -> p.1 = q.1 -> p = q.
Proof.
  intros Hok Hnd (v & -> & Hv)%list_elem_of_fmap (w & -> & Hw)%list_elem_of_fmap E. cbn [fst enc] in E.
  rewrite Forall_forall in Hok. destruct (ver_ok_seq v (Hok v Hv)) as [H1 H2]. destruct (ver_ok_seq w (Hok w Hw)) as [H3 H4].
  apply Make_inj in E as (_ & Es & _); [|done..]. f_equal.
  apply list_elem_of_lookup in Hv as [i Hi]. apply list_elem_of_lookup in Hw as [j Hj].
  assert (i = j) as ->; [|congruence].
  apply (NoDup_lookup _ i j (v_seq v) Hnd); rewrite list_lookup_fmap; [by rewrite Hi|by rewrite Hj, Es].
Qed.

(** A merge loses nothing when equal keys have equal values. *)
Lemma merged_elem ls p : Forall ascending ls ->
  (forall p q, p ∈ concat ls -> q ∈ concat ls -> p.1 = q.1 -> p = q) -> p ∈ merged ls <-> p ∈ concat ls.
Proof.
  intros Ha Hf. destruct p as [k v]. rewrite <- (assoc_elem k v _ (merged_ascending ls Ha)), (assoc_merged k ls Ha).
  rewrite Forall_forall in Ha. rewrite elem_of_concat. split.
  - intros (l & Hl & E)%first_assoc_elem. exists l. split; [by apply assoc_elem; [apply Ha|]|done].
  - intros (l & Hp & Hl). destruct (first_assoc k ls) as [v'|] eqn:E.
    + apply first_assoc_elem in E as (l' & Hl' & E). apply assoc_elem in E; [|by apply Ha].
      assert (H : (k, v') = (k, v)); [|congruence]. apply Hf; [..|done]; apply elem_of_concat; eauto.
    + apply first_assoc_None in E. rewrite Forall_forall in E. specialize (E l Hl).
      apply assoc_elem in Hp; [congruence|by apply Ha].
Qed.

Lemma files_at_all db l fs f : files_at (current (versions db)) l = Some fs -> f ∈ fs -> f ∈ all_files db.
Proof. intros E Hf. apply elem_of_concat. exists fs. split; [done|]. by apply index_elem in E. Qed.

Lemma files_at_total v l : levels_ok v -> 0 <= l < 7 -> is_Some (files_at v l).
Proof.
  unfold levels_ok, files_at, index. intros Hv Hl. rewrite (proj2 (Z.leb_le 0 l)) by lia.
  apply lookup_lt_is_Some. rewrite Hv. unfold NumLevels. lia.
Qed.

Lemma overlapping_all db l a b fs f : overlapping (current (versions db)) l a b = Some fs -> f ∈ fs -> f ∈ all_files db.
Proof.
  intros E Hf. pose proof E as E1. unfold overlapping in E1. apply bind_Some in E1 as (fs1 & E1 & _).
  rewrite (overlapping_exact _ _ _ _ _ E1) in E. injection E as <-. apply list_elem_of_filter in Hf as [_ Hf].
  by eapply files_at_all.
Qed.

(** What is picked is in the version, and so is the level it goes to. *)
Definition pick_ok (db : DB) (p : compactionPick) : Prop :=
  0 <= outputLevel p < 7 /\ forall f, f ∈ inputs p ++ overlaps p -> f ∈ all_files db.

Lemma largest_file_elem fs f : largest_file fs = Some f -> f ∈ fs.
Proof.
  unfold largest_file. assert (H : forall fs acc, (forall g, acc = Some g -> g ∈ fs ++ option_list acc) ->
    foldl (fun pick f => match pick with Some p => if Version.Size p <? Version.Size f then Some f else pick | None => Some f end) acc fs = Some f ->
    f ∈ fs \/ acc = Some f).
  { clear fs. induction fs as [|g fs IH]; intros acc _ E; cbn [foldl] in E; [by right|].
    apply IH in E as [E|E]; [by left; right| |].
    - destruct acc as [x|]; [|injection E as ->; left; by left]. destruct (_ <? _); [injection E as ->; left; by left|by right].
    - intros y ->. apply elem_of_app. right. by left. }
  intros E. by apply H in E as [E|E].
Qed.

Lemma pickCompaction_ok db p : pickCompaction db = Some (Some p) -> pick_ok db p.
Proof.
  unfold pickCompaction, currentVersion. set (v := current (versions db)). intros (l0 & E0 & E)%bind_Some.
  destruct (_ <=? _).
  - apply bind_Some in E as (p' & E & [= ->]). unfold pickL0Compaction in E. rewrite E0 in E. cbn [mbind option_bind] in E.
    destruct (keyRange l0) as [a b]. apply bind_Some in E as (ov & Eo & [= <-]). split; [done|].
    intros f [Hf|Hf]%elem_of_app; [by eapply files_at_all|by eapply overlapping_all].
  - assert (H : forall levels, Forall (fun l => 1 <= l < 6) levels -> pick_levels v levels = Some (Some p) -> pick_ok db p).
    { clear E. induction levels as [|l levels IH]; intros Hl E; cbn [pick_levels] in E; [done|].
      apply Forall_cons in Hl as [Hl Hls]. apply bind_Some in E as (size & _ & E). destruct (_ <? _); [|by apply IH].
      unfold pickLevelCompaction in E. apply bind_Some in E as (fs & Efs & E). destruct (largest_file fs) as [f|] eqn:Ef; [|done].
      apply bind_Some in E as (ov & Eo & [= <-]). split; [cbn; lia|]. cbn [inputs overlaps].
      intros g [->%list_elem_of_singleton|Hg]%elem_of_app; [|by eapply overlapping_all].
      eapply files_at_all; [exact Efs|by apply largest_file_elem]. }
    apply (H (seqZ 1 (Z.of_nat NumLevels - 2))); [|done]. apply Forall_forall. intros l Hl. apply elem_of_seqZ in Hl.
    change (Z.of_nat NumLevels) with 7 in Hl. lia.
Qed.

Lemma overlapping_total v l a b : levels_ok v -> 0 <= l < 7 -> is_Some (overlapping v l a b).
Proof. intros Hv Hl. unfold overlapping. destruct (files_at_total v l Hv Hl) as [fs ->]. by eexists. Qed.

Lemma pickCompaction_total db : levels_ok (current (versions db)) -> is_Some (pickCompaction db).
Proof.
  intros Hv. unfold pickCompaction, currentVersion. set (v := current (versions db)) in *.
  destruct (files_at_total v 0 Hv) as [l0 E0]; [lia|]. rewrite E0. cbn [mbind option_bind]. destruct (_ <=? _).
  - unfold pickL0Compaction. rewrite E0. cbn [mbind option_bind]. destruct (keyRange l0) as [a b].
    destruct (overlapping_total v 1 a b Hv) as [ov ->]; [lia|]. by eexists.
  - assert (H : forall levels, Forall (fun l => 1 <= l < 6) levels -> is_Some (pick_levels v levels)).
    { induction levels as [|l levels IH]; intros Hl; cbn [pick_levels]; [by eexists|]. apply Forall_cons in Hl as [Hl Hls].
      unfold levelSize. destruct (files_at_total v l Hv) as [fs Efs]; [lia|]. rewrite Efs. cbn [mbind option_bind].
      destruct (_ <? _); [|by apply IH]. unfold pickLevelCompaction. rewrite Efs. cbn [mbind option_bind].
      destruct (largest_file fs) as [f|]; [|by eexists].
      destruct (overlapping_total v (l + 1) (SmallestKey f) (LargestKey f) Hv) as [ov ->]; [lia|]. by eexists. }
    apply H. apply Forall_forall. intros l Hl. apply elem_of_seqZ in Hl. change (Z.of_nat NumLevels) with 7 in Hl. lia.
Qed.

(** The memtables sealed before a write are as they were after it. *)
Lemma write_sealed db vss f db' e : dbrep db vss -> write db f = Some (db', e) ->
  (exists k, imm db' = imm db ++ k) /\ forall i, i ∈ imm db -> memtable_entries db' i = memtable_entries db i.
Proof.
  intros Hdb. assert (Hi : forall i, i ∈ imm db -> i <> mem db /\ (i < length (mems (store db)))%nat).
  { intros i Hi. pose proof (dr_distinct _ _ Hdb) as Hd. apply NoDup_cons in Hd as [Hd _]. split; [by intros ->|].
    assert (Hi' : i ∈ mem db :: rev (imm db)) by (apply mems_elem; by right). apply list_elem_of_lookup in Hi' as [k Hk].
    destruct (Forall2_lookup_l _ _ _ _ _ (dr_mems _ _ Hdb) Hk) as (vs & _ & (m & Hm & _)). by eapply lookup_lt_Some. }
  unfold write, take_seqNum, store_lastSeqNum, insert_locked. destruct (closed db); [intros [= <- _]; by split; [exists []; rewrite app_nil_r|]|].
  cbn zeta. set (db1 := set_versions _ _). set (seq := u64 _). intros ([db2 r] & E2 & ([db3 r3] & E3 & E)%bind_Some)%bind_Some.
  assert (H2 : imm db2 = imm db /\ forall i, i ∈ imm db -> mems (store db2) !! i = mems (store db) !! i).
  { unfold on_mem in E2. apply bind_Some in E2 as (m & Hm & ([m' r'] & _ & [= <- _])%bind_Some). split; [done|].
    intros i Hi'. cbn. apply list_lookup_insert_ne. intros E1. by destruct (Hi i Hi'). }
  destruct H2 as [Hi2 H2].
  assert (H3 : (exists k, imm db3 = imm db ++ k) /\ forall i, i ∈ imm db -> mems (store db3) !! i = mems (store db) !! i).
  { assert (Hsame : db3 = db2 -> (exists k, imm db3 = imm db ++ k) /\ forall i, i ∈ imm db -> mems (store db3) !! i = mems (store db) !! i).
    { intros ->. split; [exists []; by rewrite app_nil_r|done]. }
    destruct r as [u|e2|]; [apply Hsame; by injection E3|clear Hsame|apply Hsame; by injection E3].
    apply bind_Some in E3 as (db4 & E4 & E3). unfold rotateMemtable in E4. apply bind_Some in E4 as (m & _ & [= <-]).
    unfold on_mem in E3. apply bind_Some in E3 as (m2 & _ & ([m3 r'] & _ & [= <- _])%bind_Some). cbn.
    split; [by exists [mem db2]; rewrite Hi2|]. intros i Hi'. destruct (Hi i Hi') as [_ Hlt].
    assert (Hlt2 : (i < length (mems (store db2)))%nat).
    { apply lookup_lt_is_Some. rewrite H2 by done. by apply lookup_lt_is_Some. }
    rewrite list_lookup_insert_ne by lia. rewrite lookup_app_l by done. by apply H2. }
  destruct H3 as [[k Hk] H3]. assert (Hd : db' = signalled (0 <? blen (imm db3)) db3).
  { unfold signalled. destruct r3 as [u|e3|]; [by injection E as <- _|by injection E as <- _|done]. }
  assert (Hd2 : imm db' = imm db3 /\ store db' = store db3) by (rewrite Hd; by destruct (0 <? blen (imm db3))).
  destruct Hd2 as [Hd2 Hd3]. split; [exists k; by rewrite Hd2|]. intros i Hi'. unfold memtable_entries. by rewrite Hd3, H3.
Qed.

(** ** The invariant *)

Section invariant.
Context {sorter : SliceSorter} (range_keys : gmap cacheKey nat -> list cacheKey).
(** A range loop visits every key of the map once. *)
Hypothesis range_keys_all : forall m : gmap cacheKey nat, range_keys m ≡ₚ (map_to_list m).*1.

(** The sizes a step keeps within: what it adds fits the numbers and the table
    format, and the fuel covers what it goes through. *)
Definition fits (a : action) (w : world) : Prop :=
  let db := w_db w in
  match a, w_comp w with
  | AWrite _ _ key value, _ => maxNodeSize + (blen key + 8) + blen value < 2 ^ 32 /\ seqNum db + 1 < 2 ^ 56
  | AFlush fuel d, _ => next_ok (versions db) /\ forall i l, hd_error (imm db) = Some i -> memtable_entries db i = Some l ->
      (length l <= fuel)%nat /\ table_fits (TableOptions (opts db)) l
  | AMerge fuel d, CPicked p => forall ls, Forall2 (table_holds db) (inputs p ++ overlaps p) ls ->
      table_fits (TableOptions (opts db)) (merged ls) /\ (length (merged ls) <= fuel)%nat /\
      nextFileNum (versions db) + blen (merged ls) < 2 ^ 64
  | _, _ => True
  end.

(** From an empty directory. *)
Inductive reachable (o : Options) (room : Z) : world -> Prop :=
| reach_open db : Open ∅ NotExist (Some room) o = Some (inr db) -> reachable o room (mkWorld db FIdle CIdle [])
| reach_act a w w' : reachable o room w -> enabled a w = true -> fits a w -> act range_keys a w = Some w' -> reachable o room w'.

Definition pend_flush (fl : flush_state) : list FileMeta := match fl with FWritten _ fm => [fm] | _ => [] end.
Definition pend_comp (co : comp_state) : list FileMeta := match co with CWritten _ outs => outs | _ => [] end.
Definition table_pairs (T : catalog) (db : DB) : pairs := concat (pairs_in T <$> all_files db).

(** The memtable being flushed is the oldest; its pairs are in the table
    written, and once that is logged in some table of the version. *)
Definition flush_inv (T : catalog) (db : DB) (fl : flush_state) : Prop :=
  match fl with
  | FIdle => True
  | FWritten i fm => hd_error (imm db) = Some i /\ Level fm = 0 /\ memtable_entries db i = Some (pairs_in T fm)
  | FLogged i => hd_error (imm db) = Some i /\ exists l, memtable_entries db i = Some l /\ forall p, p ∈ l -> p ∈ table_pairs T db
  end.

(** The tables being compacted are in the version; those written hold their
    merge. *)
Definition comp_inv (T : catalog) (db : DB) (co : comp_state) : Prop :=
  match co with
  | CPicked p => pick_ok db p
  | CWritten p outs => pick_ok db p /\ Forall (fun fm => Level fm = outputLevel p) outs /\
      concat (pairs_in T <$> outs) = merged (pairs_in T <$> inputs p ++ overlaps p)
  | _ => True
  end.

Record inv (T : catalog) (vss : list (list version)) (w : world) : Prop := {
  i_db : dbrep (w_db w) vss;
  i_room : active_room (w_db w) (2 ^ 34);
  i_open : closed (w_db w) = false;
  i_seq : seqNum (w_db w) < 2 ^ 56;
  i_tables : table_inv T (w_db w) (pend_flush (w_flush w) ++ pend_comp (w_comp w));
  i_flush : flush_inv T (w_db w) (w_flush w);
  i_comp : comp_inv T (w_db w) (w_comp w);
  i_ok : Forall ver_ok (w_hist w);
  i_seqs : NoDup (v_seq <$> w_hist w);
  i_last : Forall (fun v => v_seq v <= seqNum (w_db w)) (w_hist w);
  i_held : forall p, p ∈ held T (w_db w) vss <-> p ∈ enc <$> w_hist w }.

(** ** Steps that leave the memtables alone *)

Record mem_same (db db' : DB) : Prop := {
  ms_mems : mems (store db') = mems (store db);
  ms_rest : (opts db', mem db', imm db', seqNum db', closed db') = (opts db, mem db, imm db, seqNum db, closed db) }.

Lemma after_read_mem db db' : after_read db db' -> mem_same db db'.
Proof. by intros [(c & t & ->) _ _ _]. Qed.

Lemma frame_mem lo db db' : compaction_frame lo db db' -> mem_same db db'.
Proof. intros [[F1 _] F2 _ _ _ F6 _ _]. split; congruence. Qed.

Lemma mem_same_trans db1 db2 db3 : mem_same db1 db2 -> mem_same db2 db3 -> mem_same db1 db3.
Proof. intros [A1 A2] [B1 B2]. split; congruence. Qed.

Lemma dbrep_mem_same db db' vss : mem_same db db' -> dbrep db vss -> dbrep db' vss.
Proof. intros [Hm [= Ho Hme Hi Hs Hc]] [H1 H2 H3 H4 H5 H6]. split; rewrite ?Hm, ?Ho, ?Hme, ?Hi, ?Hs; done. Qed.

Lemma flush_inv_keep (T T' : catalog) db db' fl :
  flush_inv T db fl -> (exists k, imm db' = imm db ++ k) -> (forall i, i ∈ imm db -> memtable_entries db' i = memtable_entries db i) ->
  (forall f, f ∈ pend_flush fl -> pairs_in T' f = pairs_in T f) ->
  (forall p, p ∈ table_pairs T db -> p ∈ table_pairs T' db') -> flush_inv T' db' fl.
Proof.
  intros Hf [k Hk] Hm Hp Ht. assert (Hhd : forall i, hd_error (imm db) = Some i -> hd_error (imm db') = Some i /\ i ∈ imm db).
  { intros i. rewrite Hk. destruct (imm db) as [|j l]; [done|]. intros [= ->]. split; [done|by left]. }
  destruct fl as [|i fm|i]; [done| |]; cbn [flush_inv] in *.
  - destruct Hf as (Hi & Hl & He). destruct (Hhd i Hi). split; [done|]. split; [done|]. rewrite Hm, Hp; [done|by left|done].
  - destruct Hf as (Hi & l & He & Hl). destruct (Hhd i Hi). split; [done|]. exists l. split; [by rewrite Hm|auto].
Qed.

Lemma comp_inv_keep (T T' : catalog) db db' co :
  comp_inv T db co -> (forall f, f ∈ all_files db -> f ∈ all_files db') ->
  (forall f, f ∈ all_files db ++ pend_comp co -> pairs_in T' f = pairs_in T f) -> comp_inv T' db' co.
Proof.
  intros Hc Hf Hp. assert (Hok : forall p, pick_ok db p -> pick_ok db' p).
  { intros p [H1 H2]. split; [done|auto]. }
  destruct co as [|p|p outs|p]; [done|by apply Hok| |done]. destruct Hc as (Hpk & Hl & E). split; [by apply Hok|]. split; [done|].
  assert (H : forall fs : list FileMeta, (forall f, f ∈ fs -> f ∈ all_files db ++ outs) -> pairs_in T' <$> fs = pairs_in T <$> fs).
  { intros fs Hfs. apply list_fmap_ext. intros i f Hfin. apply Hp, Hfs. by eapply list_elem_of_lookup_2. }
  rewrite !H; [done|intros f Hfin; apply elem_of_app; left; by apply Hpk|intros f Hfin; apply elem_of_app; by right].
Qed.

Lemma table_pairs_elem T db p : p ∈ table_pairs T db <-> exists f, f ∈ all_files db /\ p ∈ pairs_in T f.
Proof.
  unfold table_pairs. rewrite elem_of_concat. split.
  - intros (l & Hp & (f & -> & Hf)%list_elem_of_fmap). by exists f.
  - intros (f & Hf & Hp). exists (pairs_in T f). split; [done|by apply list_elem_of_fmap_2].
Qed.

Lemma held_elem T db vss p : p ∈ held T db vss <-> p ∈ enc <$> concat vss \/ p ∈ table_pairs T db.
Proof. unfold held. by rewrite elem_of_app. Qed.

(** Such a step keeps the invariant when its tables do. *)
Lemma inv_tables_step T T' vss w w' :
  inv T vss w -> mem_same (w_db w) (w_db w') -> w_hist w' = w_hist w ->
  table_inv T' (w_db w') (pend_flush (w_flush w') ++ pend_comp (w_comp w')) ->
  flush_inv T' (w_db w') (w_flush w') -> comp_inv T' (w_db w') (w_comp w') ->
  (forall p, p ∈ held T' (w_db w') vss <-> p ∈ held T (w_db w) vss) -> inv T' vss w'.
Proof.
  intros [H1 H2 H3 Hq H4 H5 H6 H7 H8 H9 H10] Hm Hh Ht Hf Hc Hp. pose proof Hm as [Em [= Eo Eme Ei Es Ec]].
  split; rewrite ?Hh, ?Es; try done.
  - by eapply dbrep_mem_same.
  - destruct H2 as (m & Hl & Hn). exists m. by rewrite Em, Eme.
  - by rewrite Ec.
  - intros p. by rewrite Hp.
Qed.

Lemma mem_same_entries db db' i : mem_same db db' -> memtable_entries db' i = memtable_entries db i.
Proof. intros [E _]. unfold memtable_entries. by rewrite E. Qed.

Lemma mem_same_imm db db' : mem_same db db' -> exists k, imm db' = imm db ++ k.
Proof. intros [_ [= _ _ E _ _]]. exists []. by rewrite app_nil_r. Qed.

(** When the version stays, only the new tables and the loops matter. *)
Lemma inv_new_tables T T' vss w w' :
  inv T vss w -> mem_same (w_db w) (w_db w') -> w_hist w' = w_hist w ->
  current (versions (w_db w')) = current (versions (w_db w)) ->
  (forall f, FileNum f < nextFileNum (versions (w_db w)) -> pairs_in T' f = pairs_in T f) ->
  table_inv T' (w_db w') (pend_flush (w_flush w') ++ pend_comp (w_comp w')) ->
  (w_flush w' = w_flush w \/ flush_inv T' (w_db w') (w_flush w')) ->
  (w_comp w' = w_comp w \/ comp_inv T' (w_db w') (w_comp w')) -> inv T' vss w'.
Proof.
  intros Hinv Hm Hh Ec Hp Ht Hf Hc. assert (Ea : all_files (w_db w') = all_files (w_db w)) by (unfold all_files; by rewrite Ec).
  pose proof (ti_live _ _ _ (i_tables _ _ _ Hinv)) as Hl. rewrite Forall_forall in Hl.
  assert (Hk : forall f, f ∈ all_files (w_db w) ++ pend_flush (w_flush w) ++ pend_comp (w_comp w) -> pairs_in T' f = pairs_in T f)
    by (intros f Hfin; apply Hp, Hl; done).
  assert (Htp : forall p, p ∈ table_pairs T' (w_db w') <-> p ∈ table_pairs T (w_db w)).
  { intros p. rewrite !table_pairs_elem, Ea. apply exist_proper. intros f. split; intros [Hfin Hpf]; (split; [done|]).
    - by rewrite <- Hk by (apply elem_of_app; by left).
    - by rewrite Hk by (apply elem_of_app; by left). }
  apply (inv_tables_step T T' vss w w'); try done.
  - destruct Hf as [E|Hf]; [|done]. rewrite E. apply (flush_inv_keep T T' (w_db w)); [apply Hinv|by apply mem_same_imm|..].
    + intros i _. by apply mem_same_entries.
    + intros f Hfin. apply Hk. rewrite !elem_of_app. tauto.
    + intros p. apply Htp.
  - destruct Hc as [E|Hc]; [|done]. rewrite E. apply (comp_inv_keep T T' (w_db w)); [apply Hinv|by rewrite Ea|].
    intros f Hfin. apply Hk. rewrite !elem_of_app in *. tauto.
  - intros p. by rewrite !held_elem, Htp.
Qed.

(** ** The steps *)

Definition preserved (w' : world) : Prop := exists T vss, inv T vss w'.

(** The step neither panics nor loops, and keeps the invariant. *)
Definition succeeds (r : option world) : Prop := exists w', r = Some w' /\ preserved w'.

Lemma inv_write T vss db fl co h del rnd key value :
  inv T vss (mkWorld db fl co h) -> fits (AWrite del rnd key value) (mkWorld db fl co h) ->
  succeeds (act range_keys (AWrite del rnd key value) (mkWorld db fl co h)).
Proof.
  intros [H1 H2 H3 Hq H4 H5 H6 H7 H8 H9 H10] [Hsz Hs]. cbn [w_db w_flush w_comp w_hist] in *.
  destruct (write_spec db vss rnd del key value H1 H2 H3 Hs Hsz) as (db' & e & vss' & Ew & Hdb' & Hroom & Hs' & Hst & He).
  cbn [act]. rewrite Ew. cbn [mbind option_bind]. eexists. split; [reflexivity|].
  destruct (write_sealed _ _ _ _ _ H1 Ew) as [Himm Hent].
  pose proof (table_inv_same _ _ _ _ Hst H4) as Ht'. destruct Hst as (_ & _ & Ec & _ & _ & Ecl & _).
  assert (Ea : all_files db' = all_files db) by (unfold all_files; by rewrite Ec).
  exists T, vss'. split; cbn [w_db w_flush w_comp w_hist]; [done|done|by rewrite Ecl|lia|done| | | | | |].
  - apply (flush_inv_keep T T db); [done..|]. intros p. by rewrite !table_pairs_elem, Ea.
  - apply (comp_inv_keep T T db); [done|by rewrite Ea|done].
  - destruct e as [e|]; [done|]. constructor; [|done]. apply (proj1 (Forall_forall _ _) (dbrep_ver_ok _ _ Hdb')). rewrite He. by left.
  - destruct e as [e|]; [done|]. rewrite fmap_cons. apply NoDup_cons. split; [|done].
    intros (v & E & Hv)%list_elem_of_fmap. pose proof (proj1 (Forall_forall _ _) H9 v Hv) as Hle. cbn in Hle.
    assert (Ev : v_seq (written_version del key value (seqNum db')) = seqNum db') by (by destruct del). lia.
  - assert (Hh : Forall (fun v => v_seq v <= seqNum db') h) by (eapply Forall_impl; [exact H9|]; cbn; intros; lia).
    destruct e as [e|]; [done|]. constructor; [by destruct del|done].
  - intros p. specialize (H10 p). rewrite held_elem in H10 |- *.
    assert (Htp : p ∈ table_pairs T db' <-> p ∈ table_pairs T db) by (by rewrite !table_pairs_elem, Ea).
    rewrite Htp. destruct e as [e|]; [by destruct He as (_ & -> & _)|]. rewrite He, !fmap_cons, !elem_of_cons, <- H10. tauto.
Qed.

Lemma inv_read T vss db fl co h db' : inv T vss (mkWorld db fl co h) -> after_read db db' -> tables_in_order T db' ->
  inv T vss (mkWorld db' fl co h).
Proof.
  intros Hinv Hr Ht. apply (inv_new_tables T T vss (mkWorld db fl co h)); cbn [w_db w_flush w_comp w_hist];
    [done|by apply after_read_mem|done|by destruct Hr as [(c & t & ->) _ _ _]|done| |by left|by left].
  apply (table_inv_read T db); [done..|apply Hinv].
Qed.

Lemma inv_get T vss db fl co h key : inv T vss (mkWorld db fl co h) ->
  succeeds (act range_keys (AGet key) (mkWorld db fl co h)).
Proof.
  intros Hinv. pose proof (i_tables _ _ _ Hinv) as Ht. cbn [act].
  destruct (Get_total T db vss key) as (db' & r & -> & Hr & Ht'); [apply Hinv|split; [apply Ht|by eapply ti_files]|apply Ht|].
  cbn [mbind option_bind]. eexists. split; [reflexivity|]. exists T, vss. by apply (inv_read T vss db).
Qed.

Lemma memtable_entries_rep db vss i m l : dbrep db vss -> i ∈ imm db -> mems (store db) !! i = Some m -> memtable_entries db i = Some l ->
  exists es, rep (skl m) es /\ contents es = l.
Proof.
  intros Hdb Hi Hm He. assert (Hi' : i ∈ mem db :: rev (imm db)) by (apply mems_elem; by right).
  apply list_elem_of_lookup in Hi' as [k Hk].
  destruct (Forall2_lookup_l _ _ _ _ _ (dr_mems _ _ Hdb) Hk) as (vs & _ & (m' & Hm' & Hr)). assert (m' = m) as -> by congruence.
  destruct (mr_list _ _ Hr) as (es & Hes & _). exists es. split; [done|]. unfold memtable_entries in He. rewrite Hm in He.
  cbn [mbind option_bind] in He. rewrite (entries_spec _ _ Hes) in He. by injection He.
Qed.

Lemma memtable_entries_sealed db vss i : dbrep db vss -> i ∈ imm db ->
  exists l, memtable_entries db i = Some l /\ forall p, p ∈ l -> p ∈ enc <$> concat vss.
Proof.
  intros Hdb Hi. assert (Hi' : i ∈ mem db :: rev (imm db)) by (apply mems_elem; by right). apply list_elem_of_lookup in Hi' as [k Hk].
  destruct (memtable_entries_holds _ _ _ _ Hdb Hk) as (vs & l & Hvs & E & Hp). exists l. split; [done|]. intros p.
  rewrite Hp. intros (v & -> & Hv)%list_elem_of_fmap. apply list_elem_of_fmap_2, elem_of_concat. exists vs.
  split; [done|by eapply list_elem_of_lookup_2].
Qed.

Lemma table_inv_perm T db pend pend' : pend' ⊆+ pend -> table_inv T db pend -> table_inv T db pend'.
Proof. intros Hs Ht. apply (table_inv_version T db db pend); try done; [apply Ht|]. by apply submseteq_skips_l. Qed.

Lemma inv_flush T vss db co h fuel d : inv T vss (mkWorld db FIdle co h) -> fits (AFlush fuel d) (mkWorld db FIdle co h) ->
  succeeds (act range_keys (AFlush fuel d) (mkWorld db FIdle co h)).
Proof.
  intros Hinv [Hn Hfit]. cbn [act]. destruct (imm db) as [|i rest] eqn:Ei; [eexists; split; [done|]; by exists T, vss|].
  cbn [w_db] in *. assert (Hi : i ∈ imm db) by (rewrite Ei; by left).
  destruct (memtable_entries_sealed _ _ i (i_db _ _ _ Hinv) Hi) as (l & He & _).
  destruct (mems (store db) !! i) as [m|] eqn:Hm; [|by unfold memtable_entries in He; cbn [w_db] in He; rewrite Hm in He].
  cbn [mbind option_bind].
  destruct (memtable_entries_rep _ _ i m l (i_db _ _ _ Hinv) Hi Hm He) as (es & Hr & <-).
  destruct (Hfit i (contents es) ltac:(by rewrite Ei) He) as [Hf1 Hf2]. unfold contents in Hf1. rewrite length_fmap in Hf1.
  destruct (flush_spec fuel d db m es Hr Hf1 Hf2 Hn) as (fs & r & Ef & Hother & _ & Hok).
  rewrite Ef. cbn [mbind option_bind]. eexists. split; [reflexivity|]. unfold next_ok in Hn. set (n := nextFileNum (versions db)) in *.
  set (db' := set_files _ _).
  set (outs := match r with inl _ => [] | inr fm => [fm] end).
  set (ls := match r with inl _ => [] | inr _ => [contents es] end).
  assert (Hst : Forall2 (stored db') outs ls /\ Forall (fun f => FileNum f = n /\ Level f = 0) outs).
  { unfold outs, ls. destruct r as [e|fm]; [by split|]. destruct (Hok fm eq_refl) as (c & meta & Ht & -> & Hc).
    split; (constructor; [|constructor]); [by apply (stored_table_file db' n 0 c)|done]. }
  destruct Hst as [Hst Hout].
  destruct (table_inv_new T db db' (pend_comp co) outs ls) as (T' & Ht' & Hls & Hp).
  - apply Hinv.
  - done.
  - cbn. fold n. lia.
  - done.
  - apply Hinv.
  - done.
  - intros k Hk. apply Hother. intros Ek. apply sstablePath_inj in Ek; unfold u64_ok; lia.
  - intros k Hk. apply Hother. cbn in Hk. fold n in Hk. intros Ek. apply sstablePath_inj in Ek; unfold u64_ok; lia.
  - done.
  - unfold outs. destruct r; [constructor|apply NoDup_singleton].
  - eapply Forall_impl; [exact Hout|]. cbn. fold n. intros f [-> _]. lia.
  - exists T', vss. apply (inv_new_tables T T' vss (mkWorld db FIdle co h)); cbn [w_db w_flush w_comp w_hist]; try done; [|right|by left].
    + apply (table_inv_perm _ _ (pend_comp co ++ outs)); [|done]. unfold outs. destruct r; cbn [pend_flush];
        [rewrite app_nil_r; done|by rewrite Permutation_app_comm].
    + destruct r as [e|fm]; [done|]. cbn [flush_inv]. split; [cbn; by rewrite Ei|]. cbn in Hls. injection Hls as Hls.
      apply Forall_cons in Hout as [[_ Hlv] _]. split; [done|]. rewrite Hls. exact He.
Qed.

Lemma kept_no_deletion edit fs : DeletedFiles edit = [] -> kept edit fs = fs.
Proof.
  unfold kept. intros ->. induction fs as [|f fs IH]; [done|].
  rewrite filter_cons_True by (apply not_elem_of_nil). by rewrite IH.
Qed.

Lemma inv_log T vss db i fm co h d : inv T vss (mkWorld db (FWritten i fm) co h) ->
  succeeds (act range_keys (ALog d) (mkWorld db (FWritten i fm) co h)).
Proof.
  intros Hinv. cbn [act]. destruct (i_flush _ _ _ Hinv) as (Hi & Hlv & He). cbn [w_db w_flush] in Hi, He.
  pose proof (i_tables _ _ _ Hinv) as Ht. cbn [w_db w_flush w_comp pend_flush] in Ht. unfold log_flushed.
  set (edit := mkEdit [fm] [] 0 0 false false) in *.
  destruct (logAndApply_outcome (d_log (d (FileNum fm))) (versions db) edit (ti_levels _ _ _ Ht)) as (vs & e & El & Hnx & _ & Hv);
    [constructor; [cbn; lia|constructor]|].
  rewrite El. cbn [mbind option_bind]. eexists. split; [reflexivity|]. exists T, vss. destruct e as [e|].
  { apply (inv_new_tables T T vss (mkWorld db (FWritten i fm) co h)); cbn [w_db w_flush w_comp w_hist]; try done; [|by right|by left].
    assert (Ea : all_files (set_versions db vs) = all_files db) by (unfold all_files; cbn; by rewrite Hv).
    apply (table_inv_version T db _ ([fm] ++ pend_comp co)); try done.
    - cbn. rewrite Hv. apply Ht.
    - rewrite Ea. cbn [pend_flush app]. apply submseteq_skips_l, submseteq_cons. done. }
  destruct (apply_all _ _ _ (ti_levels _ _ _ Ht) Hv) as [Hl' Hall]. rewrite kept_no_deletion in Hall by done.
  set (db' := set_versions db vs). assert (Hall' : all_files db' ≡ₚ all_files db ++ [fm]) by exact Hall.
  assert (Htp : forall p, p ∈ table_pairs T db' <-> p ∈ table_pairs T db \/ p ∈ pairs_in T fm).
  { intros p. rewrite !table_pairs_elem. split.
    - intros (f & Hf & Hp). rewrite Hall' in Hf. apply elem_of_app in Hf as [Hf| ->%list_elem_of_singleton]; [left; by exists f|by right].
    - intros [(f & Hf & Hp)|Hp]; [exists f|exists fm]; rewrite Hall'; (split; [apply elem_of_app|done]); [by left|right; by left]. }
  apply (inv_tables_step T T vss (mkWorld db (FWritten i fm) co h)); cbn [w_db w_flush w_comp w_hist]; try done.
  - apply (table_inv_version T db db' ([fm] ++ pend_comp co)); try done. cbn [pend_flush app].
    rewrite Hall', <- app_assoc. done.
  - cbn [flush_inv]. split; [done|]. exists (pairs_in T fm). split; [exact He|]. intros p Hp. apply Htp. by right.
  - apply (comp_inv_keep T T db); [apply Hinv| |done]. intros f Hf. rewrite Hall'. apply elem_of_app. by left.
  - intros p. rewrite !held_elem, Htp. split; [|tauto]. intros [?|[?|Hp]]; [by left|by right|left].
    destruct (memtable_entries_sealed db vss i) as (l & He' & Hl); [apply Hinv|by destruct (imm db); [|injection Hi as ->; left]|].
    apply Hl. congruence.
Qed.

Lemma inv_drop T vss db i co h : inv T vss (mkWorld db (FLogged i) co h) ->
  succeeds (act range_keys ADrop (mkWorld db (FLogged i) co h)).
Proof.
  intros Hinv. cbn [act]. eexists. split; [reflexivity|]. destruct Hinv as [H1 H2 H3 Hq H4 H5 H6 H7 H8 H9 H10].
  cbn [w_db w_flush w_comp w_hist] in *. destruct H5 as (Hi & l & He & Hl).
  destruct (imm db) as [|j rest] eqn:Ei; [done|]. injection Hi as ->.
  set (db' := drop_flushed db i). pose proof (mem_data_unref (mems (store db)) i) as Hd.
  assert (Hdb : dbrep db' (take (S (length (imm db) - 1)) vss)).
  { apply (dbrep_dropped db db' vss 1); [done|exact Hd|done..]. }
  exists T, (take (S (length (imm db) - 1)) vss). split; cbn [w_db w_flush w_comp w_hist pend_flush]; try done.
  - destruct H2 as (m & Hm & Hn). destruct (mem_data_lookup _ _ _ _ Hd Hm) as (m' & Hm' & [= E _ _]).
    exists m'. split; [exact Hm'|]. unfold arena_of. by rewrite E.
  - by apply (table_inv_same T db).
  - intros p. rewrite <- H10, !held_elem. change (table_pairs T db') with (table_pairs T db). split.
    + intros [(v & -> & Hv)%list_elem_of_fmap|?]; [left|by right]. apply list_elem_of_fmap_2.
      apply elem_of_concat in Hv as (vs & Hv & Hvs). apply elem_of_concat. exists vs. split; [done|]. by apply elem_of_take in Hvs as (? & ? & _); eapply list_elem_of_lookup_2.
    + intros [(v & -> & Hv)%list_elem_of_fmap|?]; [|by right]. apply elem_of_concat in Hv as (vs & Hv & Hvs).
      apply list_elem_of_lookup in Hvs as [k Hk]. replace (S (length (imm db) - 1)) with (S (length rest)) by (rewrite Ei; cbn; lia).
      destruct (decide (k < S (length rest))%nat) as [Hlt|Hge].
      * left. apply list_elem_of_fmap_2, elem_of_concat. exists vs. split; [done|]. apply (list_elem_of_lookup_2 _ k).
        by rewrite lookup_take_lt.
      * right. apply Hl. destruct (Forall2_lookup_r _ _ _ _ _ (dr_mems _ _ H1) Hk) as (j & Hj & _).
        destruct (memtable_entries_holds _ _ _ _ H1 Hj) as (vs' & l' & Hvs' & El & Hp). assert (vs' = vs) as -> by congruence.
        assert (j = i) as ->.
        { rewrite Ei in Hj. destruct k as [|k]; [lia|]. cbn [lookup list_lookup] in Hj. change (rev (i :: rest) !! k = Some j) in Hj.
          cbn [rev] in Hj. rewrite lookup_app_r in Hj by (rewrite length_rev; lia). rewrite length_rev in Hj.
          destruct (k - length rest)%nat; [by injection Hj|done]. }
        assert (l' = l) as -> by congruence. rewrite Hp. by apply list_elem_of_fmap_2.
Qed.

Lemma inv_pick T vss db fl h : inv T vss (mkWorld db fl CIdle h) ->
  succeeds (act range_keys APick (mkWorld db fl CIdle h)).
Proof.
  intros Hinv. cbn [act]. destruct (pickCompaction_total db (ti_levels _ _ _ (i_tables _ _ _ Hinv))) as [p E].
  rewrite E. cbn [mbind option_bind]. eexists. split; [reflexivity|]. exists T, vss.
  apply (inv_new_tables T T vss (mkWorld db fl CIdle h)); cbn [w_db w_flush w_comp w_hist]; try done; [|by left|].
  - pose proof (i_tables _ _ _ Hinv) as Ht. by destruct p.
  - right. destruct p as [p|]; [|done]. by apply pickCompaction_ok.
Qed.

Lemma open_inputs_live T : forall fs db, Forall (live T db) fs -> tables_in_order T db ->
  exists db' its, open_inputs db fs = Some (db', inr its) /\ after_read db db' /\ tables_in_order T db' /\
    forall s : Store BlockCache, Forall2 (source_on (blocks_named T) s) its (pairs_in T <$> fs).
Proof.
  induction fs as [|f fs IH]; intros db Hl Ht; cbn [open_inputs]; [exists db, []; by split_and!; [| | |constructor]|].
  apply Forall_cons in Hl as [Hf Hfs]. unfold openTableIterator.
  destruct (getTableReader_live T db f Hf Ht) as (db1 & rd & -> & Hr & Ht1 & Hon). cbn [mbind option_bind].
  destruct (IH db1) as (db2 & its & -> & Hr2 & Ht2 & Hon2); [|done|].
  { eapply Forall_impl; [exact Hfs|]. intros g. by apply live_after_read. }
  cbn [mbind option_bind]. eexists db2, _. split; [reflexivity|]. split; [by etrans|]. split; [done|].
  intros s. constructor; [done|apply Hon2].
Qed.

Lemma sorted_NoDup (l : list Z) : StronglySorted Z.lt l -> NoDup l.
Proof.
  induction 1 as [|x l _ IH Hx]; constructor; [|done]. intros Hin. rewrite Forall_forall in Hx. specialize (Hx x Hin). lia.
Qed.

(** What a merge has written; nothing counts after an error. *)
Lemma merge_outputs db2 o (e : option compaction_error) level n ls :
  (e = None -> exists pieces, Forall2 (stored db2) (outputFiles o) pieces /\ Forall (fun l => l <> []) pieces /\
     concat pieces = merged ls /\
     Forall (fun f => Level f = level /\ n <= FileNum f < nextFileNum (versions db2)) (outputFiles o) /\
     StronglySorted Z.lt (FileNum <$> outputFiles o)) ->
  let outs := match e with None => outputFiles o | Some _ => [] end in
  exists pieces, Forall2 (stored db2) outs pieces /\
    Forall (fun f => Level f = level /\ n <= FileNum f < nextFileNum (versions db2)) outs /\
    NoDup (FileNum <$> outs) /\ (e = None -> concat pieces = merged ls).
Proof.
  intros He. destruct e as [e|]; [by exists []; split_and!; [constructor..|]|].
  destruct (He eq_refl) as (pieces & A & _ & B & C & D). exists pieces. split_and!; [done..|by apply sorted_NoDup|done].
Qed.

Lemma inv_merge T vss db fl p h fuel d : inv T vss (mkWorld db fl (CPicked p) h) ->
  fits (AMerge fuel d) (mkWorld db fl (CPicked p) h) ->
  succeeds (act range_keys (AMerge fuel d) (mkWorld db fl (CPicked p) h)).
Proof.
  intros Hinv Hfit. cbn [act]. pose proof (i_tables _ _ _ Hinv) as Ht. pose proof (i_comp _ _ _ Hinv) as [Hlv Hin].
  cbn [w_db w_flush w_comp] in Ht, Hin. set (ins := inputs p ++ overlaps p) in *. set (ls := pairs_in T <$> ins).
  assert (Hlive : Forall (live T db) ins).
  { apply Forall_forall. intros f Hf. apply (proj1 (Forall_forall _ _) (ti_files _ _ _ Ht)). by apply Hin. }
  destruct (open_inputs_live T ins db Hlive (ti_order _ _ _ Ht)) as (db1 & its & Eo & Hr & Ht1 & Hon).
  rewrite Eo. cbn [mbind option_bind].
  destruct (Hfit ls) as (Hf1 & Hf2 & Hf3).
  { apply Forall2_fmap_r, Forall_Forall2_diag. eapply Forall_impl; [exact Hlive|]. intros f Hf. by apply (live_holds T). }
  pose proof (inv_read T vss db fl (CPicked p) h db1 Hinv Hr Ht1) as Hinv1. clear Hinv Ht.
  pose proof (i_tables _ _ _ Hinv1) as Ht. cbn [w_db w_flush w_comp] in Ht, Hf1, Hf3.
  assert (E1 : opts db1 = opts db /\ versions db1 = versions db) by (by destruct Hr as [(c & t & ->) _ _ _]). destruct E1 as [E1 E2].
  destruct (write_outputs_spec (blocks_named T) fuel d (outputLevel p) db1 its ls) as (db2 & o & e & Ew & Hfr & Hs2 & Hnx & _ & He);
    [apply Ht1|apply Hon|by rewrite E1|done|apply (ti_next _ _ _ Ht)|by rewrite E2|].
  rewrite Ew. cbn [mbind option_bind]. eexists. split; [reflexivity|]. set (n := nextFileNum (versions db1)) in *.
  set (outs := match e with None => outputFiles o | Some _ => [] end).
  destruct (merge_outputs db2 o e (outputLevel p) n ls He) as (pieces & Hst & Hlev & Hnd & Hcat). fold outs in Hst, Hlev, Hnd. pose proof Hfr as [[F1 F1'] F2 F3 F4 F5 F6 F7 F8]. injection F6 as _ _ _ Etc _.
  destruct (table_inv_new T db1 db2 (pend_flush fl) outs pieces) as (T' & Ht' & Hls & Hp).
  - by rewrite app_nil_r in Ht.
  - done.
  - by split.
  - done.
  - exact Hs2.
  - exact F1'.
  - exact F7.
  - exact F8.
  - done.
  - done.
  - eapply Forall_impl; [exact Hlev|]. by intros f [].
  - exists T', vss. apply (inv_new_tables T T' vss (mkWorld db1 fl (CPicked p) h)); cbn [w_db w_flush w_comp w_hist]; try done.
    + by apply (frame_mem n).
    + unfold outs in Ht'. by destruct e.
    + by left.
    + right. unfold outs in *. destruct e as [e|]; [done|]. cbn [comp_inv].
      assert (Hpk : pick_ok db1 p) by apply (i_comp _ _ _ Hinv1).
      assert (Ea : all_files db2 = all_files db1) by (unfold all_files; by rewrite F3).
      split; [split; [done|]; rewrite Ea; apply Hpk|]. split; [eapply Forall_impl; [exact Hlev|]; by intros f []|].
      rewrite Hls, Hcat by done. unfold ls. f_equal. apply list_fmap_ext. intros i f Hf. symmetry. apply Hp.
      pose proof (ti_live _ _ _ Ht) as Hl. apply (proj1 (Forall_forall _ _) Hl f), elem_of_app. left. apply Hpk. by eapply list_elem_of_lookup_2.
Qed.

Lemma num_inj fs f g : NoDup (FileNum <$> fs) -> f ∈ fs -> g ∈ fs -> FileNum f = FileNum g -> f = g.
Proof.
  intros Hnd [i Hi]%list_elem_of_lookup [j Hj]%list_elem_of_lookup E. assert (i = j) as ->; [|congruence].
  apply (NoDup_lookup _ i j (FileNum f) Hnd); rewrite list_lookup_fmap; [by rewrite Hi|by rewrite Hj, E].
Qed.

Lemma deleted_numbers p outs : (DeletedFiles (compaction_edit p outs)).*2 = FileNum <$> inputs p ++ overlaps p.
Proof. cbn [DeletedFiles compaction_edit]. by rewrite !fmap_app, <- !list_fmap_compose. Qed.

(** Replacing the inputs by tables of their merge changes no pair. *)
Lemma replaced_pairs T db db' p outs : pick_ok db p -> NoDup (FileNum <$> all_files db) -> Forall (live T db) (all_files db) ->
  (forall a b, a ∈ table_pairs T db -> b ∈ table_pairs T db -> a.1 = b.1 -> a = b) ->
  concat (pairs_in T <$> outs) = merged (pairs_in T <$> inputs p ++ overlaps p) ->
  all_files db' ≡ₚ kept (compaction_edit p outs) (all_files db) ++ outs ->
  forall a, a ∈ table_pairs T db' <-> a ∈ table_pairs T db.
Proof.
  intros [_ Hin] Hnd Hl Hfun Hcat Hall a. set (ins := inputs p ++ overlaps p) in *.
  assert (Hins : forall b, b ∈ concat (pairs_in T <$> ins) <-> exists f, f ∈ ins /\ b ∈ pairs_in T f).
  { intros b. rewrite elem_of_concat. split; [intros (l & Hb & (f & -> & Hf)%list_elem_of_fmap); by exists f|].
    intros (f & Hf & Hb). exists (pairs_in T f). split; [done|by apply list_elem_of_fmap_2]. }
  assert (Hsub : forall b, b ∈ concat (pairs_in T <$> ins) -> b ∈ table_pairs T db).
  { intros b (f & Hf & Hb)%Hins. apply table_pairs_elem. exists f. split; [by apply Hin|done]. }
  assert (Hm : a ∈ concat (pairs_in T <$> outs) <-> a ∈ concat (pairs_in T <$> ins)).
  { rewrite Hcat. apply merged_elem; [|intros b c Hb Hc; apply Hfun; by apply Hsub]. apply Forall_fmap, Forall_forall.
    intros f Hf. apply (live_ascending T db), (proj1 (Forall_forall _ _) Hl). by apply Hin. }
  rewrite !table_pairs_elem. split.
  - intros (f & Hf & Ha). rewrite Hall in Hf. apply elem_of_app in Hf as [Hf|Hf].
    + apply list_elem_of_filter in Hf as [_ Hf]. by exists f.
    + apply table_pairs_elem, Hsub, Hm, elem_of_concat. exists (pairs_in T f). split; [done|by apply list_elem_of_fmap_2].
  - intros (f & Hf & Ha). destruct (decide (FileNum f ∈ FileNum <$> ins)) as [(g & E & Hg)%list_elem_of_fmap|Hni].
    + assert (f = g) as <- by (apply (num_inj (all_files db)); auto).
      assert (Ho : a ∈ concat (pairs_in T <$> outs)) by (apply Hm, Hins; by exists f).
      apply elem_of_concat in Ho as (l & Ha' & (g & -> & Hg')%list_elem_of_fmap). exists g. split; [|done].
      rewrite Hall. apply elem_of_app. by right.
    + exists f. split; [|done]. rewrite Hall. apply elem_of_app. left. apply list_elem_of_filter. by rewrite deleted_numbers.
Qed.

Lemma inv_install T vss db fl p outs h log_ok : inv T vss (mkWorld db fl (CWritten p outs) h) ->
  succeeds (act range_keys (AInstall log_ok) (mkWorld db fl (CWritten p outs) h)).
Proof.
  intros Hinv. cbn [act]. pose proof (i_tables _ _ _ Hinv) as Ht. destruct (i_comp _ _ _ Hinv) as (Hpk & Hlev & Hcat).
  cbn [w_db w_flush w_comp pend_comp] in Ht, Hpk, Hcat. pose proof (ti_live _ _ _ Ht) as Hl. rewrite Forall_forall in Hl.
  pose proof (ti_next _ _ _ Ht) as Hnx. pose proof (ti_nodup _ _ _ Ht) as Hnd.
  assert (Hnum : forall f, f ∈ all_files db ++ pend_flush fl ++ outs -> u64_ok (FileNum f))
    by (intros f Hf; destruct (Hl f Hf) as [_ ?]; unfold u64_ok; lia).
  destruct (install_outcome log_ok p db outs) as (vs & fs & e & Ei & En & _ & He); [apply Ht|apply Hpk|done| |].
  { apply Forall_forall. intros f Hf. apply Hnum, elem_of_app. left. by apply Hpk. }
  rewrite Ei. cbn [mbind option_bind]. eexists. split; [reflexivity|]. exists T, vss. set (db' := set_files _ _).
  destruct e as [e|].
  { destruct He as [Ev ->]. assert (Ea : all_files db' = all_files db) by (unfold all_files; cbn; by rewrite Ev).
    apply (inv_new_tables T T vss (mkWorld db fl (CWritten p outs) h)); cbn [w_db w_flush w_comp w_hist]; try done; [|by left|by right].
    apply (table_inv_version T db db' (pend_flush fl ++ outs)); try done; [cbn; rewrite Ev; apply Ht|].
    rewrite Ea. cbn [pend_comp]. rewrite app_nil_r. apply submseteq_skips_l, submseteq_inserts_r. done. }
  destruct He as [Ev Hfs]. destruct (apply_all _ _ _ (ti_levels _ _ _ Ht) Ev) as [Hl' Hall].
  assert (Hall' : all_files db' ≡ₚ kept (compaction_edit p outs) (all_files db) ++ outs) by exact Hall.
  assert (Hk : forall f, f ∈ kept (compaction_edit p outs) (all_files db) -> f ∈ all_files db /\ FileNum f ∉ FileNum <$> inputs p ++ overlaps p).
  { intros f [H1 H2]%list_elem_of_filter. by rewrite deleted_numbers in H1. }
  assert (Hpend : forall f, f ∈ pend_flush fl ++ outs -> FileNum f ∉ FileNum <$> inputs p ++ overlaps p).
  { intros f Hf (g & E & Hg)%list_elem_of_fmap. rewrite fmap_app in Hnd. apply NoDup_app in Hnd as (_ & Hd & _).
    apply (Hd (FileNum f)); [rewrite E; apply list_elem_of_fmap_2; by apply Hpk|by apply list_elem_of_fmap_2]. }
  assert (Htp : forall a, a ∈ table_pairs T db' <-> a ∈ table_pairs T db).
  { apply (replaced_pairs T db db' p outs); [done| |by eapply ti_files| |done|done].
    - rewrite fmap_app in Hnd. by apply NoDup_app in Hnd as [Hnd _].
    - intros a b Ha Hb. apply (enc_functional h); [apply Hinv|apply Hinv|..]; apply (i_held _ _ _ Hinv), held_elem; by right. }
  apply (inv_tables_step T T vss (mkWorld db fl (CWritten p outs) h)); cbn [w_db w_flush w_comp w_hist pend_comp]; try done.
  - rewrite app_nil_r. apply (table_inv_version T db db' (pend_flush fl ++ outs)); try done.
    + rewrite Hall', <- app_assoc. apply submseteq_app; [apply sublist_submseteq, sublist_filter|]. by rewrite Permutation_app_comm.
    + intros f Hf. rewrite Hall' in Hf. cbn [files set_files db'].
      assert (Hf' : f ∈ all_files db ++ pend_flush fl ++ outs /\ FileNum f ∉ FileNum <$> inputs p ++ overlaps p).
      { rewrite !elem_of_app in *. destruct Hf as [[Hf|Hf]|Hf]; [destruct (Hk f Hf); tauto|..];
          (split; [tauto|apply Hpend; rewrite elem_of_app; tauto]). }
      rewrite Hfs by (by apply Hnum, Hf'). by rewrite decide_False by apply Hf'.
    + intros n Hn E. cbn [files set_files db']. rewrite Hfs by (unfold u64_ok; lia). by destruct (decide _).
  - apply (flush_inv_keep T T db); [apply Hinv|by apply (mem_same_imm db)|done|done|]. intros a. apply Htp.
  - intros a. by rewrite !held_elem, Htp.
Qed.

Lemma evict_files_sound Q fs : forall c : BlockCache, sound Q c -> exists c', evict_files range_keys c fs = Some c' /\ sound Q c'.
Proof.
  induction fs as [|f fs IH]; intros c Hc; cbn [evict_files]; [by exists c|].
  destruct (Evict_sound Q (range_keys (items c)) c (FileNum f) Hc) as (c1 & -> & Hc1).
  - rewrite range_keys_all. apply NoDup_fst_map_to_list.
  - intros k. rewrite range_keys_all. intros ([k' v] & -> & Hk)%list_elem_of_fmap. apply elem_of_map_to_list in Hk. by exists v.
  - cbn [mbind option_bind]. by apply IH.
Qed.

Lemma inv_evict T vss db fl p h : inv T vss (mkWorld db fl (CInstalled p) h) ->
  succeeds (act range_keys AEvict (mkWorld db fl (CInstalled p) h)).
Proof.
  intros Hinv. cbn [act]. pose proof (i_tables _ _ _ Hinv) as Ht. pose proof (ti_order _ _ _ Ht) as [Ho Hs].
  destruct (ti_cache _ _ _ Ht) as [c Ec]. cbn [w_db] in Ho, Hs, Ec. rewrite Ec in Hs |- *.
  destruct (evict_files_sound _ (inputs p ++ overlaps p) c Hs) as (c' & Ee & Hc'). cbn [mbind option_bind]. rewrite Ee.
  cbn [mbind option_bind]. eexists. split; [reflexivity|]. exists T, vss. set (db' := set_store _ _).
  assert (Hr : after_read db db') by (split; [exists (Some c'), (tableCache db); by destruct db|by left|done|done]).
  pose proof (inv_read T vss db fl (CInstalled p) h db' Hinv Hr ltac:(by split)) as H.
  by apply (inv_new_tables T T vss _ (mkWorld db' fl CIdle h) H); try done; [apply H|left|right].
Qed.

Lemma inv_act T vss a w : inv T vss w -> enabled a w = true -> fits a w -> succeeds (act range_keys a w).
Proof.
  destruct w as [db fl co h]. intros Hinv E Hf. destruct a as [del rnd key value|key|fuel d|d| | |fuel d|log_ok|].
  - by eapply inv_write.
  - by eapply inv_get.
  - destruct fl; [by eapply inv_flush|done..].
  - destruct fl; [done|by eapply inv_log|done].
  - destruct fl; [done..|by eapply inv_drop].
  - destruct co; [by eapply inv_pick|by destruct fl..].
  - destruct co; [by destruct fl|by eapply inv_merge|by destruct fl..].
  - destruct co; [by destruct fl..|by eapply inv_install|by destruct fl].
  - destruct co; [by destruct fl..|by eapply inv_evict].
Qed.

Lemma inv_open o room db : maxNodeSize + 4 <= MemtableSize (ensureDefaults o) < 2 ^ 32 ->
  Open ∅ NotExist (Some room) o = Some (inr db) -> exists T vss, inv T vss (mkWorld db FIdle CIdle []).
Proof.
  intros Hsz E. destruct (Open_in_memory [] o room Hsz) as (db0 & E0 & (vss & Hdb & _ & Hus & Hroom & Hcl & _ & Hcur) & Hs).
  assert (db0 = db) as -> by congruence. exists ∅, vss.
  assert (Hc : concat vss = []).
  { destruct (concat vss) as [|v vs]; [done|]. apply Forall_cons in Hus as [Hus _]. by apply not_elem_of_nil in Hus. }
  assert (Hmisc : files db = ∅ /\ tableCache db = Some ∅ /\ nextFileNum (versions db) = 1 /\
    blocks (store db) = Some (NewBlockCache (BlockCacheSize (ensureDefaults o)))).
  { unfold Open in E. cbn [recover createManifest] in E. apply bind_Some in E as (m & _ & E). apply (inj Some) in E. by injection E as <-. }
  destruct Hmisc as (Ef & Et & En & Eb). assert (Ea : all_files db = []) by (unfold all_files; by rewrite Hcur).
  split; cbn [w_db w_flush w_comp w_hist pend_flush pend_comp app]; try done; [lia| | |].
  - split; rewrite ?Hcur, ?En, ?Ea; [done|lia|split|by rewrite Eb|constructor|constructor|intros n _].
    + by exists ∅.
    + rewrite Eb. apply NewBlockCache_sound.
    + unfold cached. rewrite Ef, Et. done.
  - constructor.
  - intros p. unfold held. by rewrite Hc, Ea.
Qed.

Lemma reachable_inv o room w : maxNodeSize + 4 <= MemtableSize (ensureDefaults o) < 2 ^ 32 -> reachable o room w -> preserved w.
Proof.
  intros Hsz. induction 1 as [db E|a w w' _ (T & vss & IH) Hen Hf E]; [by eapply inv_open|].
  destruct (inv_act T vss a w IH Hen Hf) as (w1 & E1 & H). by assert (w1 = w') as <- by congruence.
Qed.

(** C1: The engine loses no write and makes none up.  Whatever writes, reads,
    flushes and compactions happen, and wherever the flush and the compaction
    loop are interrupted by the others or stopped by a failing disk, the next
    step neither panics nor loops, and the pairs in the memtables and in the
    tables of the current version are exactly the entries of the versions
    written without error since the database was opened. *)
Theorem no_version_lost (o : Options) (room : Z) (w : world) :
  maxNodeSize + 4 <= MemtableSize (ensureDefaults o) < 2 ^ 32 -> reachable o room w ->
  (forall p, keeps (w_db w) p <-> p ∈ enc <$> w_hist w) /\
  (forall a, enabled a w = true -> fits a w -> is_Some (act range_keys a w)).
Proof.
  intros Hsz Hr. destruct (reachable_inv o room w Hsz Hr) as (T & vss & Hinv).
  split; [intros p|intros a He Hf; destruct (inv_act T vss a w Hinv He Hf) as (w' & -> & _); by eexists].
  rewrite (keeps_held T (w_db w) vss); [apply Hinv..|]. eapply ti_files, Hinv.
Qed.
End invariant.
