(* ===== verification/DBRuns.v ===== *)
(** Runs of the whole database on a small configuration: witnesses that the
    theorems apply to states the operations reach, and runs in which the
    database loses or hides data. *)
From stdpp Require Import sorting.
From S2P Require Import Prelude SliceSort Binary ByteOrder Sorted Io Format Block BlockSpec Cache CacheSpec CacheInterface TableWriter TableLayout TableWriterSpec TableReader TableReaderSpec TableSpec TableFile Arena Skiplist SkiplistSpec InternalKey Memtable MemtableSpec Version VersionSpec Manifest Heap Merged MergeIterator MergeSpec Sources DBIterator DBIteratorSpec DB DBSpec Flush FlushSpec Compaction CompactionSpec DBTables DBInvariant.

#[local] Open Scope Z_scope.

(** ** A small database *)

(** A memtable takes two short records, a data block four. *)
Definition demo_options : Options := mkOptions 420 (mkWriterOptions 200 4 10) 1000.

Definition demo_open (o : Options) : option DB :=
  r ← Open ∅ NotExist (Some (2 ^ 40)) o; match r with inr db => Some db | inl _ => None end.

Definition no_db : DB := mkDB ∅ demo_options newVersionSet (mkStore [] None) 0 [] 0 None false false false.

(** The state after opening and running [ops]. *)
Definition demo_run (ops : list client_op) : DB :=
  default no_db (db ← demo_open demo_options; '(db, _) ← run_ops db ops; Some db).

Lemma demo_run_in_memory ops :
  prefix_free (op_key <$> ops) ->
  Forall (fun op => maxNodeSize + (blen (op_key op) + 8) + blen (op_value op) < 2 ^ 32) ops -> blen ops < 2 ^ 56 ->
  exists M, in_memory (op_key <$> ops) demo_options (demo_run ops) M.
Proof.
  intros Hpf Hfit Hlen. destruct (Open_in_memory (op_key <$> ops) demo_options (2 ^ 40)) as (db & E & Hmem & Hs).
  { unfold maxNodeSize. cbn. lia. }
  change (ensureDefaults demo_options) with demo_options in Hmem.
  destruct (run_ops_refines _ _ ops db ∅ Hpf Hmem) as (db' & rs & M & Er & _ & Hmem'); [|done|by rewrite Hs|].
  { apply Forall_forall. intros op Hop. by apply list_elem_of_fmap_2. }
  exists M. unfold demo_run, demo_open. rewrite E. cbn [mbind option_bind]. rewrite Er. exact Hmem'.
Qed.

Lemma db_refines_map_witness :
  let ops := [OSet 3 [x61] [x31]; OSet 0 [x62] [x32]; OSet 1 [x61] [x33]; ODelete 0 [x62]; OGet [x61]; OGet [x62];
              OSet 0 [x63] (replicate 400 x00); OGet [x63]] in
  exists db db' rs M, Open ∅ NotExist (Some (2 ^ 40)) demo_options = Some (inr db) /\
    run_ops db ops = Some (db', rs) /\ map_steps demo_options ∅ ops rs M /\
    rs = [Wrote None; Wrote None; Wrote None; Wrote None; Read (inr [x33]); Read (inl ErrNotFound); Wrote full;
          Read (inl ErrNotFound)].
Proof.
  intros ops. destruct (db_refines_map demo_options (2 ^ 40) ops) as (db & db' & rs & M & E & Er & Hm).
  - unfold maxNodeSize. cbn. lia.
  - apply (bool_decide_unpack _). vm_compute. exact I.
  - repeat constructor.
  - reflexivity.
  - exists db, db', rs, M. split; [exact E|]. split; [exact Er|]. split; [exact Hm|].
    assert (H : (r ← Open ∅ NotExist (Some (2 ^ 40)) demo_options; match r with
        | inr db => snd <$> run_ops db ops | inl _ => None end) = Some rs) by (rewrite E; cbn [mbind option_bind]; by rewrite Er).
    vm_compute in H. injection H as <-. reflexivity.
Defined.

(** ** Flushing it *)

Definition demo_ops : list client_op :=
  [OSet 0 [x61] [x31]; OSet 0 [x62] [x32]; OSet 0 [x63] [x33]; OSet 0 [x61] [x34]; OSet 0 [x65] [x35];
   ODelete 0 [x62]; OSet 0 [x67] [x37]; OSet 0 [x68] [x38]; OSet 0 [x69] [x39]; OSet 0 [x69] [x3a]].
Definition demo_db : DB := demo_run demo_ops.

Lemma demo_rep_keys : exists vss, dbrep demo_db vss /\ Forall (fun v => v_key v ∈ op_key <$> demo_ops) (concat vss).
Proof.
  destruct (demo_run_in_memory demo_ops) as (M & vss & H & _ & Hk & _).
  - apply (bool_decide_unpack _). vm_compute. exact I.
  - repeat constructor.
  - reflexivity.
  - by exists vss.
Qed.

Lemma demo_rep : exists vss, dbrep demo_db vss.
Proof. destruct demo_rep_keys as (vss & H & _). by exists vss. Qed.

(** What a memtable of a representable database holds, computed. *)
Lemma mem_contents db vss i l :
  dbrep db vss -> i ∈ mem db :: rev (imm db) ->
  (m ← mems (store db) !! i; Skiplist.entries (skl m)) = Some l ->
  exists m es, mems (store db) !! i = Some m /\ rep (skl m) es /\ contents es = l.
Proof.
  intros [Hms _ _ _ _ _] Hi He. apply list_elem_of_lookup in Hi as [k Hk].
  destruct (Forall2_lookup_l _ _ _ _ _ Hms Hk) as (vs & _ & (m & Hm & [(es & Hr & _) _ _ _])).
  exists m, es. split; [done|]. split; [done|]. rewrite Hm in He. cbn [mbind option_bind] in He.
  rewrite (entries_spec _ _ Hr) in He. by injection He.
Qed.

(** The contents of the sealed memtables. *)
Definition sealed_contents (db : DB) : list pairs :=
  (fun i => default [] (m ← mems (store db) !! i; Skiplist.entries (skl m))) <$> imm db.

Definition table_fits_dec (o : WriterOptions) (l : pairs) : bool :=
  (weight l <? 2 ^ 31) && (blen l * bits_of o <? 2 ^ 40).

Lemma sealed_flushable fuel db vss :
  dbrep db vss ->
  forallb (fun i => match (m ← mems (store db) !! i; Skiplist.entries (skl m)) with
                    | Some l => (length l <=? fuel)%nat && table_fits_dec (TableOptions (opts db)) l
                    | None => false
                    end) (imm db) = true ->
  Forall2 (flushable fuel db) (imm db) (sealed_contents db).
Proof.
  intros Hdb Hall. unfold sealed_contents. apply Forall2_fmap_r.
  assert (H : forall i, i ∈ imm db -> flushable fuel db i (default [] (m ← mems (store db) !! i; Skiplist.entries (skl m)))).
  { intros i Hi. rewrite forallb_forall in Hall. specialize (Hall i (proj1 (list_elem_of_In _ _) Hi)).
    destruct (m ← mems (store db) !! i; Skiplist.entries (skl m)) as [l|] eqn:E; [|done]. cbn [default].
    destruct (mem_contents db vss i l Hdb) as (m & es & Hm & Hr & Hc); [|done|].
    { right. rewrite list_elem_of_In in *. by apply in_rev in Hi. }
    apply andb_true_iff in Hall as [Hl [Hw Hb]%andb_true_iff]. exists m, es.
    split_and!; [done..| |split; by apply Z.ltb_lt].
    apply (f_equal length) in Hc. unfold contents in Hc. rewrite length_fmap in Hc. rewrite Hc. by apply Nat.leb_le. }
  clear Hall. induction (imm db) as [|i l IH]; constructor; [apply H; by left|]. apply IH. intros. apply H. by right.
Qed.

Lemma demo_flushable : Forall2 (flushable 10 demo_db) (imm demo_db) (sealed_contents demo_db).
Proof. destruct demo_rep as [vss H]. apply (sealed_flushable 10 demo_db vss H). vm_compute. reflexivity. Qed.

Lemma good_disk_reliable n : reliable (good_disk n).
Proof. by split_and!. Qed.

Lemma doFlush_exact_witness :
  exists db' fms, doFlush 10 good_disk demo_db = Some db' /\ imm db' = [] /\
    map FileNum fms = [1; 2; 3; 4] /\ Forall2 (stored db') fms (sealed_contents demo_db) /\
    files_at (current (versions db')) 0 = Some fms.
Proof.
  destruct (doFlush_exact 10 good_disk demo_db (sealed_contents demo_db) demo_flushable) as (db' & fms & E & _ & Hl & Hi & _ & Hst & Hg & Hall).
  - vm_compute. discriminate.
  - vm_compute. reflexivity.
  - vm_compute. reflexivity.
  - assert (Hi0 : imm db' = []).
    { apply Hall; [exact good_disk_reliable|]. eexists. split; [vm_compute; reflexivity|].
      split; [reflexivity|]. vm_compute. discriminate. }
    assert (Hrun : (db ← doFlush 10 good_disk demo_db; fs ← files_at (current (versions db)) 0; Some (map FileNum fs)) =
      Some [1; 2; 3; 4]) by (vm_compute; reflexivity).
    rewrite E in Hrun. cbn [mbind option_bind] in Hrun.
    destruct (Hg 0 []) as (fs & Hfs & Hd); [vm_compute; reflexivity|]. rewrite decide_True in Hd by done. cbn in Hd. subst fs. rewrite Hfs in Hrun.
    cbn [mbind option_bind] in Hrun. injection Hrun as Hn. exists db', fms. split; [exact E|]. split; [exact Hi0|].
    split; [exact Hn|]. split; [|exact Hfs]. apply (f_equal length) in Hn. rewrite length_map in Hn. rewrite Hn in Hst.
    assert (Hlen : length (sealed_contents demo_db) = 4%nat) by (vm_compute; reflexivity).
    rewrite take_ge in Hst by (rewrite Hlen; apply le_n). exact Hst.
Defined.

(** ** Compacting it *)

Definition flushed_db : DB := default no_db (doFlush 10 good_disk demo_db).
Definition demo_pick : compactionPick := default (mkPick 0 0 [] []) (p ← pickCompaction flushed_db; p).

(** The flush as its specification describes it. *)
Lemma flushed_spec : exists fms, flush_frame demo_db flushed_db /\
  imm flushed_db = drop (length fms) (imm demo_db) /\ fms = inputs demo_pick ++ overlaps demo_pick /\
  Forall2 (stored flushed_db) fms (sealed_contents demo_db).
Proof.
  destruct (doFlush_loop_spec 10 good_disk (S (length (imm demo_db))) demo_db (sealed_contents demo_db) demo_flushable)
    as (db' & fms & E & Hff & _ & Hi & _ & Hst & Hg & _); [lia|vm_compute; discriminate|vm_compute; reflexivity|vm_compute; reflexivity|].
  assert (Edb : db' = flushed_db) by (unfold flushed_db, doFlush; by rewrite E). subst db'. clear E.
  exists fms. split; [exact Hff|]. split; [exact Hi|].
  destruct (Hg 0 []) as (fs & Hfs & Hd); [vm_compute; reflexivity|]. rewrite decide_True in Hd by done. cbn in Hd. subst fs.
  assert (Hpick : files_at (current (versions flushed_db)) 0 = Some (inputs demo_pick ++ overlaps demo_pick))
    by (vm_compute; reflexivity).
  split; [rewrite Hfs in Hpick; by apply (inj Some) in Hpick|].
  assert (Hlen : length (sealed_contents demo_db) = 4%nat) by (vm_compute; reflexivity).
  rewrite take_ge in Hst; [done|]. rewrite Hlen.
  assert (Hn : (length <$> files_at (current (versions flushed_db)) 0) = Some 4%nat) by (vm_compute; reflexivity).
  rewrite Hfs in Hn. apply (inj Some) in Hn. rewrite Hn. apply le_n.
Qed.

Lemma flushed_stored : Forall2 (stored flushed_db) (inputs demo_pick ++ overlaps demo_pick) (sealed_contents demo_db).
Proof. destruct flushed_spec as (fms & _ & _ & <- & H). exact H. Qed.

Lemma flushed_catalog : exists T, Forall (live T flushed_db) (inputs demo_pick ++ overlaps demo_pick) /\
  pairs_in T <$> (inputs demo_pick ++ overlaps demo_pick) = sealed_contents demo_db.
Proof.
  destruct (catalog_of_stored ∅ flushed_db _ _ flushed_stored) as (T & H1 & H2 & _);
    [| |exists T; split; [exact H1|exact H2]].
  - apply (bool_decide_unpack _); vm_compute; exact I.
  - intros f _. assert (H : tableCache flushed_db = Some ∅) by (vm_compute; reflexivity). unfold cached. by rewrite H.
Qed.

Lemma compaction_exact_witness :
  exists db' outs pieces, runCompaction 20 good_disk true flushed_db demo_pick = Some (db', None) /\
    Forall2 (stored db') outs pieces /\ concat pieces = merged (sealed_contents demo_db) /\
    length (merged (sealed_contents demo_db)) = 8%nat /\ files db' !! sstablePath 1 = None.
Proof.
  destruct flushed_catalog as (T & Hl & HT).
  assert (HP : Forall2 (input_ready (blocks_named T) flushed_db) (inputs demo_pick ++ overlaps demo_pick) (sealed_contents demo_db)).
  { rewrite <- HT. apply live_inputs; [exact Hl|vm_compute; by eexists]. }
  destruct (compaction_exact (blocks_named T) 20 good_disk true flushed_db demo_pick (sealed_contents demo_db)) as (db' & e & E & _ & _ & Hgood & He).
  - assert (Hb : blocks (store flushed_db) = Some (NewBlockCache 1000)) by (vm_compute; reflexivity).
    unfold source_steady. rewrite Hb. apply NewBlockCache_sound.
  - exact HP.
  - vm_compute. reflexivity.
  - vm_compute. split; [discriminate|reflexivity].
  - split; vm_compute; reflexivity.
  - apply Nat.leb_le. vm_compute. reflexivity.
  - vm_compute. discriminate.
  - vm_compute. reflexivity.
  - apply (bool_decide_unpack _). vm_compute. exact I.
  - assert (He0 : e = None).
    { apply Hgood; [exact good_disk_reliable|reflexivity|]. eexists. split; [vm_compute; reflexivity|].
      split; [reflexivity|]. vm_compute. discriminate. }
    subst e.
    destruct He as (outs & pieces & _ & _ & Hst & Hc & _ & Hfiles). exists db', outs, pieces. split; [exact E|].
    split; [exact Hst|]. split; [exact Hc|]. split; [vm_compute; reflexivity|].
    rewrite Hfiles; [|vm_compute; split; [discriminate|reflexivity]]. rewrite decide_True; [reflexivity|].
    apply (bool_decide_unpack _). vm_compute. exact I.
Defined.

(** ** Reading through its tables *)

Lemma flushed_rep : exists vss, dbrep flushed_db vss /\ Forall (fun v => v_key v ∈ op_key <$> demo_ops) (concat vss).
Proof.
  destruct demo_rep_keys as (vss & Hdb & Hk). destruct flushed_spec as (fms & Hff & Hi & _).
  exists (take (S (length (imm demo_db) - length fms)) vss). split.
  - apply (dbrep_dropped demo_db); [exact Hdb|apply Hff|apply Hff|exact Hi|vm_compute; reflexivity|apply Hff].
  - rewrite <- (take_drop (S (length (imm demo_db) - length fms)) vss), concat_app in Hk. by apply Forall_app in Hk as [Hk _].
Qed.

(** The version an entry of a table encodes, and the versions of a table. *)
Definition decoded (kv : bytes * bytes) : version :=
  let '(u, s, kind) := ParseInternalKey kv.1 in mkVersion u s kind kv.2.
Definition table_versions (n : Z) : list version :=
  decoded <$> default [] (sealed_contents demo_db !! Z.to_nat (n - 1)).

#[local] Instance ver_ok_dec v : Decision (ver_ok v).
Proof. unfold ver_ok, seq_ok. apply _. Defined.

Lemma get_first_place_decides_witness :
  exists db', Get flushed_db [x61] = Some (db', inr [x34]) /\ after_read flushed_db db' /\
    files_at (current (versions flushed_db)) 0 <> Some [].
Proof.
  destruct flushed_catalog as (T & Hl & HT). destruct flushed_rep as (vss & Hdb & Hk).
  assert (Efs : concat (Levels (current (versions flushed_db))) = inputs demo_pick ++ overlaps demo_pick) by (vm_compute; reflexivity).
  assert (Hkey : [x61] ∈ op_key <$> demo_ops) by (apply (bool_decide_unpack _); vm_compute; exact I).
  assert (Hpf : prefix_free (op_key <$> demo_ops)) by (apply (bool_decide_unpack _); vm_compute; exact I).
  destruct (get_first_place_decides T table_versions flushed_db vss [x61]) as (db' & ov & m & E & Har & _ & _ & _).
  - exact Hdb.
  - vm_compute. reflexivity.
  - vm_compute. reflexivity.
  - split; [vm_compute; by eexists|].
    assert (Hb : blocks (store flushed_db) = Some (NewBlockCache 1000)) by (vm_compute; reflexivity).
    rewrite Hb. apply NewBlockCache_sound.
  - split; [vm_compute; reflexivity|]. rewrite Efs. exact Hl.
  - assert (Hlv : drop 1 (Levels (current (versions flushed_db))) = replicate 6 []) by (vm_compute; reflexivity).
    rewrite Hlv. repeat constructor.
  - rewrite Efs.
    assert (Hall : Forall (fun f => Forall ver_ok (table_versions (FileNum f)) /\
        (enc <$> table_versions (FileNum f) = default [] (sealed_contents demo_db !! Z.to_nat (FileNum f - 1))))
        (inputs demo_pick ++ overlaps demo_pick)) by (apply (bool_decide_unpack _); vm_compute; exact I).
    apply Forall_lookup. intros i f Hf. destruct (proj1 (Forall_lookup _ _) Hall i f Hf) as [Hok Henc]. split; [|exact Hok].
    rewrite Henc, <- HT, list_lookup_fmap.
    assert (Hn : FileNum <$> (inputs demo_pick ++ overlaps demo_pick) = seqZ 1 4) by (vm_compute; reflexivity).
    assert (Hfn : (FileNum <$> (inputs demo_pick ++ overlaps demo_pick)) !! i = Some (FileNum f)) by (by rewrite list_lookup_fmap, Hf).
    rewrite Hn in Hfn. apply lookup_seqZ in Hfn as [-> _].
    replace (Z.to_nat (1 + Z.of_nat i - 1)) with i by lia. by rewrite Hf.
  - by apply (prefix_free_separate (op_key <$> demo_ops)).
  - rewrite Efs.
    assert (Hall : Forall (fun f => Forall (fun v => v_key v ∈ op_key <$> demo_ops) (table_versions (FileNum f)))
        (inputs demo_pick ++ overlaps demo_pick)) by (apply (bool_decide_unpack _); vm_compute; exact I).
    eapply Forall_impl; [exact Hall|]. intros f Hf. by apply (prefix_free_separate (op_key <$> demo_ops)).
  - exists db'. assert (Hr : (snd <$> Get flushed_db [x61]) = Some (inr [x34])) by (vm_compute; reflexivity).
    rewrite E in Hr. apply (inj Some) in Hr. cbn [snd] in Hr. rewrite Hr in E. split; [exact E|]. split; [exact Har|].
    vm_compute. discriminate.
Defined.

(** ** Running the loops against each other *)

(** The sizes of a step, checked. *)
Definition fits_check (a : action) (w : world) : bool :=
  let db := w_db w in
  match a, w_comp w with
  | AWrite _ _ key value, _ => (maxNodeSize + (blen key + 8) + blen value <? 2 ^ 32) && (seqNum db + 1 <? 2 ^ 56)
  | AFlush fuel d, _ => (0 <=? nextFileNum (versions db)) && (nextFileNum (versions db) <? 2 ^ 64 - 1) &&
      match i ← hd_error (imm db); memtable_entries db i with
      | Some l => (length l <=? fuel)%nat && table_fits_dec (TableOptions (opts db)) l
      | None => true
      end
  | AMerge fuel d, CPicked p =>
      match mapM (table_entries 100 db) (inputs p ++ overlaps p) with
      | Some ls => table_fits_dec (TableOptions (opts db)) (merged ls) && (length (merged ls) <=? fuel)%nat &&
          (nextFileNum (versions db) + blen (merged ls) <? 2 ^ 64)
      | None => false
      end
  | _, _ => true
  end.

Lemma table_holds_unique fuel db f l l' : table_entries fuel db f = Some l -> table_holds db f l' -> l' = l.
Proof.
  intros E [fuel' E']. unfold table_entries in *. destruct (files db !! _) as [c|]; [|done]. cbn [mbind option_bind] in *.
  destruct (NewReader _ _ _) as [[e|rd]|]; [done| |done]. cbn [mbind option_bind] in *.
  destruct (TableReader.First _ _ _) as [[[c' it] ok]|]; [|done]. cbn [mbind option_bind] in *.
  apply (collect_more _ (Nat.max fuel fuel')) in E; [|apply Nat.le_max_l].
  apply (collect_more _ (Nat.max fuel fuel')) in E'; [|apply Nat.le_max_r]. congruence.
Qed.

Lemma table_fits_dec_spec o l : table_fits_dec o l = true -> table_fits o l.
Proof. unfold table_fits_dec. intros [H1 H2]%andb_true_iff. split; by apply Z.ltb_lt. Qed.

Lemma fits_check_spec a w : fits_check a w = true -> fits a w.
Proof.
  destruct a as [del rnd key value|key|fuel d|d| | |fuel d|log_ok|]; cbn [fits fits_check]; try done.
  - intros [H1 H2]%andb_true_iff. split; by apply Z.ltb_lt.
  - intros [[H1 H2]%andb_true_iff H3]%andb_true_iff. split; [split; [by apply Z.leb_le|by apply Z.ltb_lt]|].
    intros i l Hi E. rewrite Hi in H3. cbn [mbind option_bind] in H3. rewrite E in H3. apply andb_true_iff in H3 as [H3 H4].
    split; [by apply Nat.leb_le|by apply table_fits_dec_spec].
  - destruct (w_comp w) as [|p|p outs|p]; try done. destruct (mapM _ _) as [ls|] eqn:E; [|done].
    intros [[H1 H2]%andb_true_iff H3]%andb_true_iff ls' Hls. apply mapM_Some in E.
    assert (ls' = ls) as ->; [|split; [by apply table_fits_dec_spec|split; [by apply Nat.leb_le|by apply Z.ltb_lt]]].
    clear H1 H2 H3. revert ls' Hls. induction E as [|f l fs ls E _ IH]; intros ls' Hls.
    + by apply Forall2_nil_inv_l in Hls.
    + apply Forall2_cons_inv_l in Hls as (l' & ls2 & Hl & Hls & ->). f_equal; [by eapply table_holds_unique|by apply IH].
Qed.

Definition map_keys (m : gmap cacheKey nat) : list cacheKey := (map_to_list m).*1.

Fixpoint acts_checked (l : list action) (w : world) : option world :=
  match l with
  | [] => Some w
  | a :: l => if fits_check a w then w ← act map_keys a w; acts_checked l w else None
  end.

Lemma acts_checked_reachable o room l : forall w w',
  reachable map_keys o room w -> acts_checked l w = Some w' -> reachable map_keys o room w'.
Proof.
  induction l as [|a l IH]; intros w w' Hw E; cbn [acts_checked] in E; [by injection E as <-|].
  destruct (fits_check a w) eqn:Ef; [|done]. apply bind_Some in E as (w1 & E1 & E). eapply IH; [|exact E].
  eapply reach_act; [exact Hw|by eapply act_enabled|by apply fits_check_spec|exact E1].
Qed.

Definition no_world : world := mkWorld no_db FIdle CIdle [].
Definition demo_start : world := mkWorld (default no_db (demo_open demo_options)) FIdle CIdle [].

(** Writes go on while memtables are flushed and tables compacted; the last
    flush is interrupted after the log. *)
Definition set_action (k v : byte) : action := AWrite false 0 [k] [v].
Definition flush_actions : list action := [AFlush 10 good_disk; ALog good_disk; ADrop].
Definition demo_actions : list action :=
  [set_action x61 x31; set_action x62 x32; set_action x63 x33; AFlush 10 good_disk; set_action x61 x34; ALog good_disk;
   set_action x65 x35; AGet [x61]; ADrop; AWrite true 0 [x62] []; set_action x67 x37] ++ flush_actions ++
  [set_action x68 x38; AGet [x62]; set_action x69 x39] ++ flush_actions ++ [set_action x69 x3a; set_action x6a x3b] ++
  flush_actions ++ [APick; set_action x6b x3c; AMerge 20 good_disk; set_action x6c x3d; AFlush 10 good_disk;
   AInstall true; ALog good_disk; AEvict; AGet [x61]].
Definition demo_world : world := default no_world (acts_checked demo_actions demo_start).

Lemma no_version_lost_witness :
  (forall p, keeps (w_db demo_world) p <-> p ∈ enc <$> w_hist demo_world) /\
  is_Some (act map_keys ADrop demo_world) /\
  length (w_hist demo_world) = 13%nat /\ length <$> Levels (current (versions (w_db demo_world))) = [1; 1; 0; 0; 0; 0; 0]%nat.
Proof.
  assert (Hr : reachable map_keys demo_options (2 ^ 40) demo_world).
  { apply (acts_checked_reachable demo_options (2 ^ 40) demo_actions demo_start).
    - apply reach_open. vm_compute. reflexivity.
    - vm_compute. reflexivity. }
  destruct (no_version_lost map_keys (fun m => Permutation_refl _) demo_options (2 ^ 40) demo_world) as [Hk Hn];
    [vm_compute; split; [discriminate|reflexivity]|exact Hr|].
  split; [exact Hk|]. split; [|split; vm_compute; reflexivity].
  apply Hn; [vm_compute; reflexivity|apply fits_check_spec; vm_compute; reflexivity].
Defined.

(** ** Iterating over its memtables *)

(** The allocator gives no array room for a longer key. *)
#[local] Instance no_room : Capacity := fun _ _ => false.

Definition demo_iterator : DBIterator source :=
  match NewIterator demo_db with Some (_, it) => it | None => mkDBIterator (NewMergeIterator []) [] [] false [] end.
Definition is_mem (i : source) : Prop := match i with MemSource _ _ => True | TableSource _ _ => False end.

Definition demo_versions : list version :=
  [mkVersion [x61] 4 KindSet [x34]; mkVersion [x61] 1 KindSet [x31]; mkVersion [x62] 6 KindDelete [];
   mkVersion [x62] 2 KindSet [x32]; mkVersion [x63] 3 KindSet [x33]; mkVersion [x65] 5 KindSet [x35];
   mkVersion [x67] 7 KindSet [x37]; mkVersion [x68] 8 KindSet [x38]; mkVersion [x69] 10 KindSet [x3a];
   mkVersion [x69] 9 KindSet [x39]].

Definition mem_lists (db : DB) : list pairs :=
  (fun i => default [] (m ← mems (store db) !! i; Skiplist.entries (skl m))) <$> mem db :: rev (imm db).

Lemma mem_sources P db vss : dbrep db vss ->
  Forall2 (source_on P (store db)) ((fun m => MemSource m 0) <$> mem db :: rev (imm db)) (mem_lists db).
Proof.
  intros Hdb. unfold mem_lists. apply Forall2_fmap_2.
  assert (H : forall i, i ∈ mem db :: rev (imm db) ->
    mem_on (store db) i (default [] (m ← mems (store db) !! i; Skiplist.entries (skl m)))).
  { intros i Hi. destruct (m ← mems (store db) !! i; Skiplist.entries (skl m)) as [l|] eqn:E.
    - destruct (mem_contents _ _ _ _ Hdb Hi E) as (m & es & Hm & Hr & Hc). by exists m, es.
    - exfalso. pose proof (dr_mems _ _ Hdb) as Hms. apply list_elem_of_lookup in Hi as [k Hk].
      destruct (Forall2_lookup_l _ _ _ _ _ Hms Hk) as (vs & _ & (m & Hm & [(es & Hr & _) _ _ _])).
      rewrite Hm in E. cbn [mbind option_bind] in E. by rewrite (entries_spec _ _ Hr) in E. }
  revert H. generalize (mem db :: rev (imm db)) as l. induction l as [|i l IH]; intros H; constructor.
  - apply H. by left.
  - apply IH. intros j Hj. apply H. by right.
Qed.

Lemma db_iteration_witness :
  exists s1 it s2,
    DBIterator.First 10 (store demo_db) (mkDBIterator (NewMergeIterator
      ((fun m => MemSource m 0) <$> mem demo_db :: rev (imm demo_db))) [] [] false []) = Some (s1, it, true) /\
    DBIterator.collect 6 10 s1 it =
      Some (s2, [([x61], [x34]); ([x63], [x33]); ([x65], [x35]); ([x67], [x37]); ([x68], [x38]); ([x69], [x3a])]) /\
  exists s3 it2 s4,
    DBIterator.SeekGE 10 (store demo_db) (mkDBIterator (NewMergeIterator
      ((fun m => MemSource m 0) <$> mem demo_db :: rev (imm demo_db))) [] [] false []) [x66; x66] = Some (s3, it2, true) /\
    DBIterator.collect 3 10 s3 it2 = Some (s4, [([x67], [x37]); ([x68], [x38]); ([x69], [x3a])]).
Proof.
  set (P := fun (f o : Z) (d : bytes) => False).
  destruct (db_iteration (H0 := source_laws P) is_mem (store demo_db)
    ((fun m => MemSource m 0) <$> mem demo_db :: rev (imm demo_db)) (mem_lists demo_db) demo_versions [] 10)
    as (_ & _ & (s1 & it & s2 & Hf & Hc) & Hseek).
  - intros s [m i|rd i] s' i' ok Hm; [|destruct Hm]. cbn. unfold mem_move. destruct (mems s !! m); [|discriminate].
    cbn [mbind option_bind]. destruct (Memtable.Iterator.Next _ _); [|discriminate]. intros [= <- <- _]. exact I.
  - intros s [m i|rd i] s' i' ok Hm; [|destruct Hm]. cbn. unfold mem_move. destruct (mems s !! m); [|discriminate].
    cbn [mbind option_bind]. destruct (Memtable.Iterator.First _); [|discriminate]. intros [= <- <- _]. exact I.
  - intros s [m i|rd i] s' i' ok k Hm; [|destruct Hm]. cbn. unfold mem_move. destruct (mems s !! m); [|discriminate].
    cbn [mbind option_bind]. destruct (Memtable.Iterator.SeekGE _ _); [|discriminate]. intros [= <- <- _]. exact I.
  - intros [m i|rd i] [m' i'|rd' i'] k H1 H2; [discriminate|destruct H2|destruct H1|destruct H1].
  - assert (Hb : blocks (store demo_db) = Some (NewBlockCache 1000)) by (vm_compute; reflexivity).
    change (source_steady P (store demo_db)). unfold source_steady. rewrite Hb. apply NewBlockCache_sound.
  - destruct demo_rep as [vss Hdb]. exact (mem_sources P demo_db vss Hdb).
  - generalize (mem demo_db :: rev (imm demo_db)) as l. intros l. induction l; constructor; [exact I|assumption].
  - apply Nat.leb_le. vm_compute. reflexivity.
  - repeat constructor; cbn; lia || (by left) || (by right).
  - apply (bool_decide_unpack _). vm_compute. exact I.
  - assert (Hm : merged (mem_lists demo_db) = enc <$> demo_versions) by (vm_compute; reflexivity).
    rewrite Hm. reflexivity.
  - assert (Ht : Forall (fun v => v_key v = [x66; x66] \/ ~ [x66; x66] `prefix_of` v_key v) demo_versions)
      by (apply (bool_decide_unpack _); vm_compute; exact I).
    destruct (Hseek _ Ht) as (s3 & it2 & s4 & Hf2 & Hc2).
    exists s1, it, s2. split; [exact Hf|]. split; [exact Hc|]. exists s3, it2, s4. exact (conj Hf2 Hc2).
Defined.
