(* ===== verification/DBLimits.v ===== *)
(** Runs in which the database loses, hides or goes back on data.  Each says
    what the operations of the code return, one after the other; all start from
    an empty directory except the last two, which start from a given level 1
    and from a damaged table. *)
From S2P Require Import Prelude SliceSort Binary ByteOrder Io Format Block Cache CacheInterface TableWriter TableReader Arena Skiplist InternalKey Memtable MemtableSpec Version VersionSpec Manifest Heap Merged MergeIterator Sources DBIterator DB DBSpec Flush Compaction DBRuns.

#[local] Open Scope Z_scope.

Abbreviation read := (lsm_error + bytes)%type.

(** The reply alone. *)
Definition ask (db : DB) (key : bytes) : option read := snd <$> Get db key.

(** All pairs an iterator shows. *)
Definition iterate {capacity : Capacity} (db : DB) : option pairs :=
  '(db, it) ← NewIterator db;
  '(s, it, _) ← DBIterator.First 20 (store db) it;
  snd <$> DBIterator.collect 20 20 s it.

(** ** Reading over tables *)

(** A flush can make a key unreadable.  [b] is in the older of two tables,
    the newer one covers it without holding it: [getFromTable] answers kind 0 for "not here", which is the kind of a
    tombstone. *)
Theorem get_misses_older_table :
  (let db := demo_run [OSet 0 [x62] [x31]; OSet 0 [x63] [x32]; OSet 0 [x61] [x33]; OSet 0 [x64] [x34]; OSet 0 [x65] [x35]] in
   before ← ask db [x62];
   db ← doFlush 10 good_disk db;
   after ← ask db [x62];
   Some ((before, after) : read * read)) = Some (inr [x31], inl ErrNotFound).
Proof. vm_compute. reflexivity. Qed.

(** The iterator over the same three pairs, before and after two of them are
    flushed: [skipUserKey] compares with a slice of the buffer in which the
    table iterator builds its next key. *)
Theorem iterator_skips_flushed_keys (capacity : Capacity) :
  (let db := demo_run [OSet 0 [x61] [x31]; OSet 0 [x62] [x32]; OSet 0 [x63] [x33]] in
   before ← iterate db;
   db ← doFlush 10 good_disk db;
   after ← iterate db;
   Some ((before, after) : pairs * pairs)) =
  Some ([([x61], [x31]); ([x62], [x32]); ([x63], [x33])], [([x61], [x31]); ([x63], [x33])]).
Proof. vm_compute. reflexivity. Qed.

(** A seek passes over a key of which the target is a proper prefix: after [k]
    and eight zero bytes the internal key comes before the internal key of [k]
    that is sought, whose last byte is 0xFE. *)
Theorem seek_passes_longer_key (capacity : Capacity) :
  (let db := demo_run [OSet 0 (x6b :: replicate 8 x00) [x31]; OSet 0 [x6c] [x32]] in
   all ← iterate db;
   '(db, it) ← NewIterator db;
   '(s, it, _) ← DBIterator.SeekGE 20 (store db) it [x6b];
   found ← snd <$> DBIterator.collect 20 20 s it;
   Some ((all, found) : pairs * pairs)) =
  Some ([(x6b :: replicate 8 x00, [x31]); ([x6c], [x32])], [([x6c], [x32])]).
Proof. vm_compute. reflexivity. Qed.

Definition ff6_f0 : bytes := [xff; xff; xff; xff; xff; xff; xf0].

(** The range of a table is that of its internal keys, in whose order a longer
    user key may come first; the check by user keys then leaves the table
    out. *)
Theorem get_range_misses_prefix :
  (let db := demo_run [OSet 0 (x6b :: ff6_f0) [x31]; OSet 0 [x6b] [x32]; OSet 0 [x61] [x33]; OSet 0 [x62] [x34]] in
   before ← ask db [x6b];
   db ← doFlush 10 good_disk db;
   after ← ask db [x6b];
   Some ((before, after) : read * read)) = Some (inr [x32], inl ErrNotFound).
Proof. vm_compute. reflexivity. Qed.

(** ** Snapshots *)

(** [NewSnapshot] takes the version before the memtables: data flushed in
    between is in neither. *)
Theorem snapshot_misses_flush :
  (let db := demo_run [OSet 0 [x61] [x31]; OSet 0 [x62] [x32]; OSet 0 [x63] [x33]] in
   let first := NewSnapshot_version db in
   db ← doFlush 10 good_disk db;
   let '(db, sn) := NewSnapshot_memtables db first in
   '(db, seen) ← Snapshot_Get db sn [x61];
   latest ← ask db [x61];
   Some ((Snapshot_SeqNum sn, seen, latest) : Z * read * read)) = Some (3, inl ErrNotFound, inr [x31]).
Proof. vm_compute. reflexivity. Qed.

(** A snapshot that outlives the database stores into a nil map. *)
Theorem snapshot_after_close_panics :
  (let db := demo_run [OSet 0 [x61] [x31]; OSet 0 [x62] [x32]; OSet 0 [x63] [x33]] in
   db ← doFlush 10 good_disk db;
   let '(db, sn) := NewSnapshot db in
   '(db, e) ← Flush.Close 10 good_disk db;
   Some ((e, Snapshot_Get db sn [x61]) : option lsm_error * option (DB * read))) = Some (None, None).
Proof. vm_compute. reflexivity. Qed.

(** ** Writers at the same time *)

(** Sequence numbers are taken without the lock: the writer with the smaller
    one may come second, after the memtable was sealed; a read then finds its
    value, an iterator the one with the larger number. *)
Theorem late_writer_hides_newer {capacity : Capacity} :
  (let db := demo_run [OSet 0 [x61] [x31]] in
   let '(db, seq1) := take_seqNum db in
   let db := store_lastSeqNum db seq1 in
   let '(db, seq2) := take_seqNum db in
   let db := store_lastSeqNum db seq2 in
   '(db, e2) ← insert_locked db (insertion false 0 [x6b] [x32]) seq2;
   '(db, e1) ← insert_locked db (insertion false 0 [x6b] [x31]) seq1;
   r ← ask db [x6b];
   it ← iterate db;
   Some ((seq1, e1, seq2, e2, r, it) : Z * option lsm_error * Z * option lsm_error * read * pairs)) =
  Some (2, None, 3, None, inr [x31], [([x61], [x31]); ([x6b], [x32])]).
Proof. vm_compute. reflexivity. Qed.

(** The number stored for the manifest may go back, so that after a restart
    the newest flushed version is invisible. *)
Theorem lastSeqNum_goes_back :
  (let db := demo_run [OSet 0 [x61] [x31]] in
   let '(db, seq1) := take_seqNum db in
   let '(db, seq2) := take_seqNum db in
   let db := store_lastSeqNum db seq2 in
   '(db, _) ← insert_locked db (insertion false 0 [x62] [x32]) seq2;
   '(db, _) ← insert_locked db (insertion false 0 [x63] [x33]) seq1;
   let db := store_lastSeqNum db seq1 in
   before ← ask db [x62];
   '(db, e) ← Flush.Close 10 good_disk db;
   f ← manifestFile (versions db);
   r ← Open (files db) (Contents (content f)) (Some 10000) demo_options;
   match r with
   | inr db => after ← ask db [x62]; Some ((before, e, LastAppliedSeqNum db, after) : read * option lsm_error * Z * read)
   | inl _ => None
   end) = Some (inr [x32], None, 2, inl ErrNotFound).
Proof. vm_compute. reflexivity. Qed.

(** ** Compaction *)

(** The files of one level may share a user key at their ends.  The older
    version of [k] is in the second file of level 1, the newer one in the
    first; compacting the larger, first file alone moves the newer version
    below the older, and a read returns the older one. *)
Definition k_versions (seq : Z) (val : bytes) : bytes * bytes := (MakeInternalKey [x6b] seq KindSet, val).
Definition table_for (db : DB) (n level : Z) (kvs : pairs) : option (DB * FileMeta) :=
  '(t, r) ← write_table (mkFile [] 0 100000 true) (TableOptions (opts db)) kvs;
  match r with
  | inl _ => None
  | inr m => Some (put_file db (sstablePath n) (content (TableWriter.w t)),
      mkFileMeta n level (Format.Size m) (Format.SmallestKey m) (Format.LargestKey m))
  end.

(** Level 1 as a compaction leaves it when the output is cut between two
    versions of [k]; what reads return before and after the larger file is
    compacted into level 2. *)
Theorem compaction_buries_newer_version :
  (let db := set_seqNum (demo_run []) 9 in
   '(db, f1) ← table_for db 1 1 [(MakeInternalKey [x61] 7 KindSet, [x31]); k_versions 9 [x32]];
   '(db, f2) ← table_for db 2 1 [k_versions 5 [x33]];
   let v := mkLevels ([[]; [f1; f2]] ++ replicate 5 []) in
   let vs := versions db in
   let db := set_versions db (mkVersionSet v 3 (lastSeqNum vs) (manifestFile vs)) in
   before ← ask db [x6b];
   p ← pickLevelCompaction v 1;
   p ← p;
   '(db, e) ← runCompaction 10 good_disk true db p;
   after ← ask db [x6b];
   Some ((before, e, after) : read * option compaction_error * read)) = Some (inr [x32], None, inr [x33]).
Proof. vm_compute. reflexivity. Qed.

(** A block of an input table that cannot be read ends the merge without an
    error; the inputs are removed and the rest of their data with them. *)
Definition corrupt (c : bytes) (i : nat) : bytes := take i c ++ [x00] ++ drop (S i) c.
Theorem compaction_drops_unreadable_data :
  (let db := flushed_db in
   before ← ask db [x61];
   c ← files db !! sstablePath 2;
   let db := put_file db (sstablePath 2) (corrupt c 3) in
   '(db, e) ← runCompaction 20 good_disk true db demo_pick;
   after ← ask db [x61];
   Some ((before, e, after, files db !! sstablePath 2) : read * option compaction_error * read * option bytes)) =
  Some (inr [x34], None, inr [x31], None).
Proof. vm_compute. reflexivity. Qed.
